(* ===== verification/_CoqProject ===== *)
-Q . S2P
Prelude.v
GoRuntime.v
GoFloat.v
GoFloatReal.v
GoString.v
GoEncoding.v
GoTime.v
GoRace.v
GoConc.v
CircuitBreaker.v
RateLimiter.v
RateLimiterBounds.v
Retry.v
Bulkhead.v
Timeout.v
Executor.v
ExecutorConcurrent.v
ExecutorPool.v
Cache.v
Keyer.v
Auth.v
Rbac.v
Composite.v
ApiKey.v
Jwt.v
Jwks.v
JwksConcurrent.v
OAuth2.v
AuthRegistry.v
Health.v
HealthParallel.v
Secret.v
SecretEnv.v
SecretInline.v
Observe.v
LoggerConcurrent.v
