(* ===== verification/Prelude.v ===== *)
(** * toolops: verification library

    toolops is a Go library for running tools: it puts resilience patterns around a call,
    caches results, authenticates and authorizes requests, reports health, resolves secrets
    and records telemetry.  This library translates the Go code of [src/] (the packages
    [resilience], [cache], [auth], [health], [secret] and [observe]) into executable
    definitions and proves what the code promises.

    ** The program's parts and how they interact

    - [resilience]: [Executor.Execute] wraps an operation in the patterns it is configured
      with, from the outside in: rate limiter, bulkhead, circuit breaker, retry, timeout.
      Each pattern is also usable alone and calls the operation it is given.  The breaker,
      the limiter and the bulkhead are shared between goroutines and keep their state under
      a mutex.
    - [cache]: [CacheMiddleware.Execute] asks the [Keyer] for a key, looks in a [Cache],
      else runs the executor it is given and stores a success for as long as the [Policy]
      says.  [MemoryCache] is the implementation of [Cache] in the package.
    - [auth]: an [Authenticator] turns a request into an [Identity]: API keys, JWTs (whose
      keys come from a [KeyProvider], static or JWKS), OAuth2 introspection, or a composite of
      these.  An [Authorizer] decides on a subject, an action and a resource: RBAC.  The
      registry makes both from configuration maps.
    - [health]: an aggregator runs registered checkers and HTTP handlers serve its results.
    - [secret]: values are expanded from the environment, then references in them are
      resolved by providers.
    - [observe]: a middleware wraps a tool's execution with a tracer, metrics and a logger
      built from a configuration over the OpenTelemetry SDK.

    ** The files

    Foundations, for the parts of Go and of its standard library the source uses:
    - [Prelude]: tactics, hint databases, lemmas on lists and folds;
    - [GoRuntime]: [int64] with its wrap-around, times, errors and [errors.Is], the monad
      [Go W A] of computations over a world (a value, a panic, or loss of fuel) with
      [defer], the services [GoEnv] of the runtime, pointers [Ptr] into the world, and the
      interfaces [Layer] and [OnceLayer] that a resilience pattern promises to its caller;
    - [GoFloat] (float64, on [SpecFloat]), [GoFloatReal] (the real value of a float64 and the
      error of each operation), [GoString] (package strings, on bytes), [GoEncoding] (base64, Unix times), [GoTime] ([time.ParseDuration], [Duration.String]);
    - [GoRace] ([RC]): the steps of an operation in a goroutine, whose result goes through a
      channel, raced against a context; the pattern of [Timeout] and of a health check;
    - [GoConc] ([GC]): goroutines as programs of atomic actions, waits, [go] statements, panics
      and [defer]; pools of them in any interleaving, and two ways to reason about a pool: an
      invariant that every action keeps ([pool_keeps]), and a protocol with a ghost value for
      each caller ([pool_sound]).

    Components, each a Module with the source's names:
    - [CircuitBreaker] ([CB]): resilience/circuit.go.  The record is the struct;
      [beforeRequest], [afterRequest], [State], [Metrics], [Reset] are the methods' bodies
      under the mutex, and [event] makes them the steps of an interleaving;
    - [RateLimiter] ([RL]): resilience/ratelimit.go, tokens as float64; [RateLimiterBounds]
      ([RLB]) has no code of its own, it is the analysis of that arithmetic;
    - [Retry] ([RT]): resilience/retry.go;
    - [Bulkhead] ([BH]): resilience/bulkhead.go, as operations and as a step relation on
      the program counters of any number of goroutines;
    - [Timeout] ([TO]): resilience/timeout.go, over the service [env_race] and on the steps
      of [GoRace];
    - [Executor] ([EX]): resilience/executor.go, the composition; proved against [Layer];
      [ExecutorConcurrent] ([EC]): the [Execute] of each pattern and their composition as programs
      of [GoConc], whose atomic actions are the critical sections, channel operations and waits
      of the component files; [ExecutorPool] ([EP]): the goroutines that call one executor;
    - [Cache] ([CA]): cache/cache.go, policy.go, memory.go, middleware.go.  [CacheSpec] is
      the contract of the interface: [MemoryCache_spec] discharges it, the middleware's
      theorem uses only it;
    - [Keyer] ([KY]): cache/keyer.go;
    - [Auth] ([AU]): auth/identity.go, authenticator.go, context.go, errors.go and the
      allow-all and deny-all authorizers;
    - [Rbac] ([RB]): auth/rbac.go, authorizer.go; [Composite] ([CO]): auth/composite.go;
      [ApiKey] ([AK]): auth/apikey.go; [Jwt] ([JW]): auth/jwt.go; [Jwks] ([JK]):
      auth/jwks.go, one call at a time, and [JwksConcurrent] ([JC]): its overlapping calls;
      [OAuth2] ([OA]): auth/oauth2_introspection.go; [AuthRegistry] ([AR]): auth/factory.go.
      [AU.Contract] is the interface of an authenticator: each component has its lemma
      ([apikey_contract] and so on), and the composite is proved against it;
    - [Health] ([HL]): health/*.go, and [HealthParallel] ([HP]): the goroutines of its parallel
      mode; [Secret] ([SE]): secret/*.go, with what its two regular expressions match and what
      becomes of the matches in [SecretEnv] ([SV]) and [SecretInline] ([SI]); [Observe] ([OB]):
      observe/*.go and observe/exporters/factory.go, and [LoggerConcurrent] ([LC]): the
      overlapping calls of [log] in observe/logger.go, with the mutexes and the two writes.

    The names of definitions are the source's; where two Go types of a package have a method
    of one name, a prefix tells them apart ([SE.reg_Create]).

    ** State, time and concurrency

    A method that takes a mutex for its whole body is one step.  A method that reads the
    clock, waits or calls a function value runs in [Go W]: the world [W] is any type with
    the services [GoEnv] ([time.Now], the context, [select], [rand]), about which
    [GoEnvSpec] has the few documented facts the proofs use; a component's state is behind a
    pointer [Ptr W S].  Function values (operations, callbacks, executors, checkers) are
    arbitrary computations over the same world, so that they may change it; what must stay
    put for a theorem is a hypothesis about them ([EnvFrame] for the clock, the waits and the
    race, [SelectFrame] for a [select] on a channel, [keeps]).  [World] is a
    concrete instance on which the witnesses evaluate.

    Where the code lets go of a lock in the middle ([Bulkhead.Acquire] and [Release],
    [MemoryCache.Get], [JWKSKeyProvider.GetKey]), shares a writer between mutexes ([log]), or starts goroutines of its own ([CheckAll],
    [runCheck], [Timeout.Execute]), the steps are separate and the theorems are over every interleaving of them.  The orders
    that Go leaves open (map iteration, the order of the parallel health checks) are arguments
    of the sequential definitions, and the theorems hold for each; [HP.parallel_is_sequential]
    shows that every interleaving of the goroutines is one of these orders, and
    [JC.GetKey_alone] and [LC.log_alone] that the steps of a call alone are those of [JK.GetKey]
    and of [OB.structured_log], [EP.run_alone] that those of a call of the executor are those of
    [EX.Execute]; and
    [TO.timeout_refines] and [HP.check_race] show that the service [env_race], which answers
    either with the operation or with the context's error, has every outcome of the
    goroutines.  [EnvFrame] takes what an operation keeps to be kept when its caller leaves
    early; for operations each action of which keeps it, that is [RC.always_kept].

    In [EC] an operation is itself a program, so that other goroutines run between its actions,
    and [Timeout.Execute] starts a goroutine of the pool, which may outlive the call.  A blocking
    [select] is one action, at the moment the goroutine goes on: with a send or a receive on a
    channel it happens only when the channel allows it ([BH.select_slot], [to_select]), with the context
    only when [ctx_err] says that it has ended; a wait for a timer is [env_wait].  The [cancel] of
    a timeout that is over is seen by the operation alone, whose actions are arbitrary.  The
    [OnRetry] callback is a program given beside the executor.  A goroutine that panics takes no
    more steps after its deferred calls while the others go on: this covers the process that ends
    and a caller that recovers.

    ** What the theorems show

    - Refinement of an abstract specification: the breaker against a three-state machine
      ([breaker_refines]), the limiter against an integer token bucket
      ([AllowN_refines_bucket]), the retry loop against a relation on attempts
      ([Execute_attempts]), RBAC against the policy's meaning ([Authorize_decides_policy]),
      the composite against a choice over results ([Authenticate_picks]), a cache against
      the history of writes ([Get_answers_last_write]), the parallel health checks against
      sequential ones ([parallel_is_sequential]), the goroutines of the timeout against its
      [Execute] ([timeout_refines]).
    - Safety and invariants along every interleaving: [half_open_bound], [open_blocks],
      [callbacks_trace_the_state], [bulkhead_limits_concurrency], [metrics_when_settled],
      [granted_bound], [Get_finds_last_write], [GetKey_concurrent], [log_lines_whole]; of the executor
      whatever its patterns do, and whether or not a call waits for its slot: [Execute_returns_slot], [Execute_is_one_request],
      [Execute_limited].
    - Composition under concurrency: any number of goroutines call one executor with all its
      patterns on.  Each pattern goes through a run of its own model, so that its theorems apply,
      the slots stay within the limit and all come back ([pool_is_components]); without a timeout
      the operations inside are as few as the bulkhead says ([operations_limited]), with one they
      are not ([timeout_exceeds_limit], [abandoned_attempts]).
    - Termination: [Execute_attempts], [EX.executor_total], [collectRoles_complete] (cycles of
      inheritance included), [parallel_ends] (no goroutine waits for ever), [timeout_ends] (an
      abandoned operation is carried to its end, and its result blocks no one).
    - Liveness: [refilled_request_granted] (whatever was asked before, a request is granted once
      its tokens are refilled) and [bulkhead_drains] (calls under way end, and give back every
      slot).
    - Who is let in: [Authenticate_iff_stored], [Authenticate_only_validated],
      [Authenticate_only_active], [only_vouched_identities], [GetKey_refreshes],
      [configured_keys_authenticate], [Authorize_monotone], [builtins_cannot_be_replaced]; and
      that every result is typed: [authenticators_typed].
    - Functional behaviour on every branch: the other theorems on the breaker, the cache,
      the keyer ([Key_deterministic], [Key_injective]), health ([CheckAll_covers],
      [handlers_report_unhealthy]), secrets ([SI.resolveInline_substitutes],
      [SV.ExpandEnvStrict_strict], [literal_resolves]), the delays of a retry
      ([calculateDelay_range]) and telemetry ([Wrap_records], [Wrap_transparent],
      [NewObserver_builds], whose SDK may fail, [redacted_never_logged]).
    - Round trip: [config_roundtrip], over the text of durations.
    - Deviations of the code from what it means to do are examples beside the component,
      such as [CB.half_open_wedged], [CB.late_completion_decides], [RL.wait_falls_short],
      [RT.default_backoff_overflows],
      [BH.metrics_overshoot], [EP.timeout_exceeds_limit], [CA.clean_loses_fresh_entry], [LC.derived_lines_mix].

    ** Bounds and fuel

    Integers are 64 bits wide with their wrap-around; the hypotheses that exclude it
    (such as [2^53] for integers held in a float64) are written in the theorems.  A float64
    result is the exact one up to a relative error of [2^-53], or [2^-1075] for the smallest
    ([near]); a call of the limiter adds up to [2^-47] of the burst from its five operations
    ([slack]), and with whole seconds and an integral rate nothing ([AllowN_refines_bucket]).
    The loop of [RT.Execute] has [MaxAttempts] as fuel, one unit for each turn.
    [RB.collectRoles] has enough fuel for the roles of the configuration and of the
    subject, each of which is expanded at most once; a lemma of the file proves that it
    never runs out.  The scanners on strings consume a byte or a separator at each turn and
    have the length of the string as fuel.  [pow] halves its exponent, which has 64 bits.  The
    outcome [OutOfFuel] thus stands for an operation or a callback, given as an argument, that
    does not end: [EX.executor_total] proves that a call of the executor ends whenever these
    do.  [EC.rt_loop] has the same fuel; where it would run out it returns the last error, and
    [EP.run_alone] shows that the two loops agree.

    ** What is not modelled

    - Third-party code and services: SHA-256, [encoding/json] on values of other types than
      those named in [Keyer], golang-jwt, HTTP exchanges, the OpenTelemetry SDK, runtime
      memory statistics and secret providers are arguments of the definitions.
    - The group of [singleflight]: when it runs the function and for whom it shares a result
      are arguments of [JC.step]; that it runs one at a time is a hypothesis where it matters.
      The check of one goroutine is a single step of [HP.step] ([HP.check_race] looks
      inside), as an HTTP exchange is of [JC.step].
    - The absolute deadline of a context in [Health]: a context is its timeout there, so that each
      check is under the timeout of the whole; no proof uses more of it than that a race goes
      one way or the other, and that every check has the limited context.
    - Side effects of the predicates [IsFailure], [RetryIf] and [Supports], which are functions,
      and [AuthRequest.Metadata], which nothing reads.  [CB.Execute] reads the clock before it
      takes the mutex and also when the state makes no use of it: an interleaving
      may thus put a call with an earlier time after one with a later time, which the theorems
      on the breaker, over steps with any times, allow for.
    - The call of [OnStateChange] under the mutex (a callback that calls the breaker
      deadlocks): the history variable [notified] records the calls.
    - The fusion of a product with the sum that follows it, which Go allows on some processors
      (not on amd64): every operation of [GoFloat] rounds.
    - Sharing by pointers, except of the slices the cache keeps ([CA.slice]; [CA.hits_share_result]
      shows that callers share them) and of the logger's writer: the code does not modify an
      identity, a configuration or a map once it has handed it out, and callers are taken not to.
    - The text of error messages built by foreign code; package documentation, examples and
      tests.

    What is left of the source is package documentation, type aliases, assertions that a type has
    an interface, and accessors that return a field. *)

From stdpp Require Export base list gmap strings sorting.
From Stdlib Require Export ZArith Lia.

(** ** Automation *)

(** Facts about the Go runtime model: wrap-around, clock arithmetic. *)
Create HintDb goint.
Create Rewrite HintDb goint.

(** Facts used to evaluate computations of the [Go] monad. *)
Create HintDb gomonad.
Create Rewrite HintDb gomonad.

(** Invariants of the components and their preservation lemmas. *)
Create HintDb toolops_inv.

(** Splits every boolean test and [match] of the goal, keeping the equations. *)
Ltac split_ifs :=
  repeat match goal with
    | |- context [if ?b then _ else _] => let E := fresh "E" in destruct b eqn:E
    | H : context [if ?b then _ else _] |- _ => let E := fresh "E" in destruct b eqn:E
    end.

(** Turns boolean comparisons on [Z] in the context into propositions. *)
Ltac zbool :=
  repeat match goal with
    | H : (_ && _)%bool = true |- _ => apply andb_true_iff in H; destruct H
    | H : (_ || _)%bool = false |- _ => apply orb_false_iff in H; destruct H
    | H : negb _ = true |- _ => apply negb_true_iff in H
    | H : negb _ = false |- _ => apply negb_false_iff in H
    | H : (_ <=? _)%Z = true |- _ => apply Z.leb_le in H
    | H : (_ <=? _)%Z = false |- _ => apply Z.leb_gt in H
    | H : (_ <? _)%Z = true |- _ => apply Z.ltb_lt in H
    | H : (_ <? _)%Z = false |- _ => apply Z.ltb_ge in H
    | H : (_ =? _)%Z = true |- _ => apply Z.eqb_eq in H
    | H : (_ =? _)%Z = false |- _ => apply Z.eqb_neq in H
    | H : bool_decide _ = true |- _ => apply bool_decide_eq_true in H
    | H : bool_decide _ = false |- _ => apply bool_decide_eq_false in H
    end.

(** Case analysis on the tests of the goal, then linear arithmetic. *)
Ltac solve_bounds := split_ifs; zbool; simpl in *; try lia.

(** ** Lists *)

Section Lists.
Context {A : Type}.
Implicit Types l : list A.

(** The number of elements of [l] that satisfy [f]. *)
Fixpoint count_if (f : A → bool) l : nat :=
  match l with
  | [] => 0
  | x :: l => (if f x then 1 else 0) + count_if f l
  end.

Lemma count_if_app f l1 l2 : count_if f (l1 ++ l2) = count_if f l1 + count_if f l2.
Proof. induction l1; simpl; lia. Qed.

(** Replacing the [i]-th element moves one unit from the old class to the new. *)
Lemma count_if_insert f l i x y :
  l !! i = Some x →
  count_if f (<[i:=y]> l) + (if f x then 1 else 0)
  = count_if f l + (if f y then 1 else 0).
Proof.
  revert i. induction l as [|a l IH]; intros [|i] H; simplify_eq/=; try lia.
  specialize (IH i H). lia.
Qed.

Lemma count_if_lookup f l i x : l !! i = Some x → f x = true → 0 < count_if f l.
Proof.
  revert i. induction l as [|a l IH]; intros [|i] H Hf; simplify_eq/=.
  - rewrite Hf. lia.
  - specialize (IH i H Hf). lia.
Qed.

Lemma count_if_replicate f n x :
  count_if f (replicate n x) = if f x then n else 0.
Proof. induction n; simpl; [by destruct (f x) | rewrite IHn; destruct (f x); lia]. Qed.

Lemma count_if_length f l : count_if f l ≤ length l.
Proof. induction l as [|x l IH]; simpl; [lia | destruct (f x); lia]. Qed.

Lemma count_if_mono f g l :
  (∀ x, f x = true → g x = true) → count_if f l ≤ count_if g l.
Proof.
  intros Hfg. induction l as [|x l IH]; simpl; [lia|].
  pose proof (Hfg x). destruct (f x), (g x); first [lia | intuition congruence].
Qed.

(** Replacing the [i]-th element changes a sum by the difference of the two. *)
Lemma sum_insert (f : A → nat) l i x y :
  l !! i = Some x →
  sum_list_with f (<[i:=y]> l) + f x = sum_list_with f l + f y.
Proof.
  revert i. induction l as [|a l IH]; intros [|i] H; simplify_eq/=; [lia|]. specialize (IH i H). lia.
Qed.

Lemma sum_bound (f : A → nat) k l : (∀ x, f x ≤ k) → sum_list_with f l ≤ k * length l.
Proof. intros Hf. induction l as [|x l IH]; simpl; [lia|]. pose proof (Hf x). lia. Qed.

Lemma existsb_true_iff (f : A → bool) l :
  existsb f l = true ↔ ∃ x, x ∈ l ∧ f x = true.
Proof.
  rewrite existsb_exists. split; intros (x & ? & ?); exists x;
    rewrite list_elem_of_In in *; done.
Qed.
(** ** Runs of consecutive elements *)

(** [n] consecutive elements of [l] satisfy [f]. *)
Definition has_run (f : A → bool) (n : nat) l : Prop :=
  ∃ pre w post, l = pre ++ w ++ post ∧ length w = n ∧ Forall (λ x, f x = true) w.

(** The length of the longest prefix of [l] whose elements satisfy [f]. *)
Fixpoint lead (f : A → bool) l : nat :=
  match l with
  | [] => 0
  | x :: l => if f x then S (lead f l) else 0
  end.

(** Scans [l] with a counter, reset by a failure of [f], until it reaches [n]. *)
Fixpoint reaches (f : A → bool) (n k : nat) l : bool :=
  match l with
  | [] => false
  | x :: l => if f x then (n <=? S k) || reaches f n (S k) l else reaches f n 0 l
  end.

Lemma has_run_nil f n : has_run f n [] ↔ n = 0.
Proof.
  split.
  - intros (pre & w & post & H & <- & _). symmetry in H.
    apply app_eq_nil in H as [_ H]. apply app_eq_nil in H as [-> _]. done.
  - intros ->. exists [], [], []. repeat split. constructor.
Qed.

Lemma lead_prefix f l : ∃ post, l = take (lead f l) l ++ post ∧
  Forall (λ x, f x = true) (take (lead f l) l) ∧ length (take (lead f l) l) = lead f l.
Proof.
  induction l as [|x l (post & H1 & H2 & H3)]; simpl; [by exists []; repeat constructor|].
  destruct (f x) eqn:E; simpl; [|by eexists; repeat constructor].
  exists post. rewrite <- H1, H3. repeat constructor; done.
Qed.

Lemma has_run_lead f n l : n ≤ lead f l → has_run f n l.
Proof.
  intros Hn. destruct (lead_prefix f l) as (post & H1 & H2 & H3).
  exists [], (take n (take (lead f l) l)), (drop n (take (lead f l) l) ++ post). simpl.
  rewrite app_assoc, take_drop. split; [done|]. split; [rewrite length_take; lia|].
  by apply Forall_take.
Qed.

Lemma has_run_cons f n x l : has_run f n (x :: l) ↔ n ≤ lead f (x :: l) ∨ has_run f n l.
Proof.
  split.
  - intros (pre & w & post & H & Hn & Hw). destruct pre as [|y pre]; simplify_eq/=.
    + left. change (length w ≤ lead f (x :: l)). rewrite H.
      clear H. induction Hw as [|y w Hy Hw IH]; simpl; [lia|]. rewrite Hy. lia.
    + right. by exists pre, w, post.
  - intros [H | (pre & w & post & -> & ? & ?)]; [by apply has_run_lead|].
    by exists (x :: pre), w, post.
Qed.

Lemma reaches_spec f n k l :
  k < n → reaches f n k l = true ↔ n ≤ k + lead f l ∨ has_run f n l.
Proof.
  revert k. induction l as [|x l IH]; intros k Hk; simpl.
  - rewrite has_run_nil. split; [done | lia].
  - rewrite has_run_cons. simpl. destruct (f x) eqn:E.
    + rewrite orb_true_iff, Nat.leb_le. destruct (decide (n ≤ S k)); [intuition lia|].
      rewrite (IH (S k)) by lia. intuition lia.
    + rewrite (IH 0) by lia. pose proof (has_run_lead f n l). intuition lia.
Qed.
End Lists.

(** ** Tables: what an update of one entry does to the entries a partial function selects *)

Section Tables.
Context {A B : Type}.
Implicit Types (l : list A) (f : A → option B).

Lemma omap_insert_same f l i x y : l !! i = Some x → f x = f y → omap f (<[i:=y]> l) = omap f l.
Proof.
  revert i. induction l as [|z l IH]; intros [|i] Hi Hf; simplify_eq/=; [by rewrite Hf|].
  by rewrite IH.
Qed.

Lemma omap_insert_new f l i x y b :
  l !! i = Some x → f x = None → f y = Some b → omap f (<[i:=y]> l) ≡ₚ b :: omap f l.
Proof.
  revert i. induction l as [|z l IH]; intros [|i] Hi Hx Hy; simplify_eq/=; [by rewrite Hx, Hy|].
  destruct (f z); [|by apply IH]. rewrite IH by done. apply Permutation_swap.
Qed.

Lemma omap_insert_gone f l i x y b :
  l !! i = Some x → f x = Some b → f y = None → omap f l ≡ₚ b :: omap f (<[i:=y]> l).
Proof.
  revert i. induction l as [|z l IH]; intros [|i] Hi Hx Hy; simplify_eq/=; [by rewrite Hx, Hy|].
  destruct (f z); [|by apply IH]. rewrite IH by done. apply Permutation_swap.
Qed.

Lemma omap_total f (g : A → B) l : (∀ x, x ∈ l → f x = Some (g x)) → omap f l = g <$> l.
Proof.
  induction l as [|x l IH]; intros Hf; simpl; [done|]. rewrite (Hf x) by constructor.
  f_equal. apply IH. intros y Hy. apply Hf. by constructor.
Qed.

Lemma omap_none f l : (∀ x, x ∈ l → f x = None) → omap f l = [].
Proof.
  induction l as [|x l IH]; intros Hf; simpl; [done|]. rewrite (Hf x) by constructor.
  apply IH. intros y Hy. apply Hf. by constructor.
Qed.

(** An entry that is in the table is counted, and a count of 0 excludes it. *)
Lemma count_if_zero (f : A → bool) l : count_if f l = 0 → ∀ x, x ∈ l → f x = false.
Proof.
  intros Hz x [i Hi]%list_elem_of_lookup. destruct (f x) eqn:E; [|done].
  pose proof (count_if_lookup f l i x Hi E). lia.
Qed.

Lemma count_if_pos (f : A → bool) l : 0 < count_if f l → ∃ i x, l !! i = Some x ∧ f x = true.
Proof.
  induction l as [|x l IH]; simpl; [lia|]. destruct (f x) eqn:E; [by exists 0, x|].
  intros (i & y & Hi & Hy)%IH. by exists (S i), y.
Qed.
End Tables.

(** A map filled from a list has the last entry of each key. *)
Lemma lookup_foldl_insert {A} (key : A → string) (l : list A) k :
  foldl (λ m x, <[key x := x]> m) (∅ : gmap string A) l !! k = last (filter (λ x, key x = k) l).
Proof.
  induction l as [|x l IH] using rev_ind; [done|]. rewrite foldl_app, filter_app. simpl.
  rewrite filter_cons, filter_nil. case_decide as E.
  - rewrite <- E, lookup_insert_eq. by rewrite last_snoc.
  - by rewrite lookup_insert_ne, app_nil_r.
Qed.

Lemma last_Some_elem_of {A} (l : list A) x : last l = Some x → x ∈ l.
Proof. intros (l' & ->)%last_Some. rewrite elem_of_app. right. constructor. Qed.

(** Selected bindings have the keys of their entries, at most once each. *)
Lemma NoDup_omap_fst {A K B} (f : A → option (K * B)) (g : A → K) (l : list A) :
  (∀ x k b, f x = Some (k, b) → k = g x) → NoDup (g <$> l) → NoDup (omap f l).*1.
Proof.
  intros Hf. induction l as [|x l IH]; simpl; [done|]. intros [Hx Hl]%NoDup_cons.
  destruct (f x) as [[k b]|] eqn:E; [|by apply IH]. simpl. apply NoDup_cons.
  split; [|by apply IH]. rewrite (Hf _ _ _ E). intros ([k' b'] & Hk & Hin)%list_elem_of_fmap.
  apply list_elem_of_omap in Hin as (y & Hy & Hfy). apply Hx.
  apply list_elem_of_fmap. exists y. split; [|done]. rewrite Hk. simpl. by eapply Hf.
Qed.

(** ** Finite sequences of transitions *)

(** Rule induction for reachable states: a property every step preserves holds in each. *)
Lemma rtc_preserved {S} (R : relation S) (P : S → Prop) s s' :
  (∀ s s', P s → R s s' → P s') → P s → rtc R s s' → P s'.
Proof. intros Hp Hs Hr. induction Hr; eauto. Qed.

(** A measure that every step lowers bounds the number of steps. *)
Lemma nsteps_measure {T} (R : relation T) (m : T → nat) k s s' :
  (∀ s s', R s s' → m s' < m s) → nsteps R k s s' → k + m s' ≤ m s.
Proof. intros Hm Hr. induction Hr as [|k s1 s2 s3 H _ IH]; [lia|]. apply Hm in H. lia. Qed.

(** Runs of a step function over a list of events. *)
Definition run_steps {S E : Type} (step : E → S → S) (es : list E) (s : S) : S :=
  foldl (λ s e, step e s) s es.

Lemma run_steps_cons {S E} (step : E → S → S) e es s :
  run_steps step (e :: es) s = run_steps step es (step e s).
Proof. done. Qed.

Lemma run_steps_app {S E} (step : E → S → S) es1 es2 s :
  run_steps step (es1 ++ es2) s = run_steps step es2 (run_steps step es1 s).
Proof. apply foldl_app. Qed.

(** Rule induction for run_steps: a property every step preserves holds along every run. *)
Lemma run_steps_ind {S E} (step : E → S → S) (P : S → Prop) :
  (∀ e s, P s → P (step e s)) → ∀ es s, P s → P (run_steps step es s).
Proof. intros Hstep es. induction es; simpl; auto. Qed.
