(* ===== verification/GoRuntime.v ===== *)
(** * The parts of Go and its standard library that toolops uses

    - [int64]: 64-bit two's complement integers as [Z] with the wrap-around
      written out; [time.Duration] is an [int64] of nanoseconds;
    - [time.Time]: nanoseconds since the zero time (year 1), so that
      [time.Time.IsZero] is equality with 0;
    - [error]: sentinel errors, [fmt.Errorf] errors and foreign errors, with
      [errors.Is];
    - [Go W A]: a computation over a world [W] that returns, panics, or runs out
      of the fuel of a loop, with [defer];
    - [GoEnv]: the runtime services whose answers the program does not choose
      (the clock, [select], the random source);
    - [Ptr]: a pointer into the world, as a lens with its laws. *)

From S2P Require Import Prelude.
Local Open Scope Z_scope.

(** ** 64-bit integers *)

Definition int64_min : Z := -9223372036854775808.
Definition int64_max : Z := 9223372036854775807.

Definition is_int64 (z : Z) : Prop := int64_min ≤ z ≤ int64_max.

(** Two's complement wrap-around of the result of an [int64] operation. *)
Definition wrap64 (z : Z) : Z := (z - int64_min) mod 18446744073709551616 + int64_min.

(** Saturation, as [time.Time.Sub] does. *)
Definition sat64 (z : Z) : Z := Z.max int64_min (Z.min int64_max z).

Lemma wrap64_is_int64 z : is_int64 (wrap64 z).
Proof.
  unfold is_int64, wrap64, int64_min, int64_max.
  pose proof (Z.mod_pos_bound (z - -9223372036854775808) 18446744073709551616). lia.
Qed.

Lemma wrap64_id z : is_int64 z → wrap64 z = z.
Proof.
  unfold is_int64, wrap64, int64_min, int64_max. intros ?.
  rewrite Z.mod_small; lia.
Qed.

Lemma sat64_is_int64 z : is_int64 (sat64 z).
Proof. unfold is_int64, sat64, int64_min, int64_max. lia. Qed.

Lemma sat64_id z : is_int64 z → sat64 z = z.
Proof. unfold is_int64, sat64, int64_min, int64_max. lia. Qed.

Lemma sat64_mono x y : x ≤ y → sat64 x ≤ sat64 y.
Proof. unfold sat64. lia. Qed.

#[export] Hint Resolve wrap64_is_int64 sat64_is_int64 : goint.
#[export] Hint Rewrite wrap64_id sat64_id using (unfold is_int64, int64_min, int64_max in *; lia) : goint.

(** ** Time *)

Abbreviation Duration := Z (only parsing).
Abbreviation Time := Z (only parsing).

Definition Nanosecond : Duration := 1.
Definition Millisecond : Duration := 1000000.
Definition Second : Duration := 1000000000.
Definition Minute : Duration := 60000000000.
Definition Hour : Duration := 3600000000000.

Definition time_IsZero (t : Time) : bool := t =? 0.
Definition time_After (t u : Time) : bool := u <? t.
Definition time_Add (t : Time) (d : Duration) : Time := t + d.
Definition time_Sub (t u : Time) : Duration := sat64 (t - u).
(** [time.Since(t)] with the clock at [now]. *)
Definition time_Since (now t : Time) : Duration := time_Sub now t.

(** ** Errors *)

(** [Sentinel] is a package-level [errors.New]; the texts of the sentinels of the
    repository are distinct, so that the text identifies the value.  [Errorf] is an
    error built by [errors.New] or [fmt.Errorf] inside a function (its format and the texts
    of its arguments), [ErrorfW] one that
    wraps a cause with [%w], [Foreign] an error of code outside the repository. *)
Inductive error : Type :=
| Sentinel (msg : string)
| Errorf (format : string) (args : list string)
| ErrorfW (format : string) (args : list string) (cause : error)
| Foreign (id : nat).

#[export] Instance error_eq_dec : EqDecision error.
Proof. solve_decision. Defined.

(** [errors.Is] *)
Fixpoint errors_Is (e target : error) : bool :=
  bool_decide (e = target) ||
  match e with
  | ErrorfW _ _ cause => errors_Is cause target
  | _ => false
  end.

(** A Go [error] variable: [None] is [nil]. *)
Definition is_err (e : option error) : bool :=
  match e with Some _ => true | None => false end.

Definition context_Canceled : error := Sentinel "context canceled".
Definition context_DeadlineExceeded : error := Sentinel "context deadline exceeded".

Lemma errors_Is_refl e : errors_Is e e = true.
Proof. destruct e; simpl; rewrite bool_decide_true; done. Qed.

Lemma errors_Is_wrap f args e target : errors_Is e target = true → errors_Is (ErrorfW f args e) target = true.
Proof. intros He. simpl. rewrite He. by destruct (bool_decide _). Qed.

#[export] Hint Resolve errors_Is_refl errors_Is_wrap : gomonad.

(** ** Computations *)

Inductive outcome (A : Type) : Type :=
| Val (a : A)
| Panic (msg : string)
| OutOfFuel.
Arguments Val {A} a.
Arguments Panic {A} msg.
Arguments OutOfFuel {A}.

Definition Go (W A : Type) : Type := W → outcome A * W.

#[export] Instance go_ret W : MRet (Go W) := λ A a w, (Val a, w).
#[export] Instance go_bind W : MBind (Go W) := λ A B k m w,
  match m w with
  | (Val a, w') => k a w'
  | (Panic msg, w') => (Panic msg, w')
  | (OutOfFuel, w') => (OutOfFuel, w')
  end.

Definition go_panic {W A} (msg : string) : Go W A := λ w, (Panic msg, w).
Definition go_get {W S} (f : W → S) : Go W S := λ w, (Val (f w), w).
Definition go_modify {W} (f : W → W) : Go W unit := λ w, (Val (), f w).
Definition go_lift {W A} (f : W → A * W) : Go W A := λ w, let '(a, w') := f w in (Val a, w').

(** A computation that always returns, or panics. *)
Definition total {W A} (m : Go W A) : Prop := ∀ w w', m w ≠ (OutOfFuel, w').

(** [defer d] around [m]: [d] runs when [m] returns and when it panics. *)
Definition go_defer {W A} (d : Go W unit) (m : Go W A) : Go W A := λ w,
  match m w with
  | (OutOfFuel, w') => (OutOfFuel, w')
  | (r, w') =>
      match d w' with
      | (Val _, w'') => (r, w'')
      | (Panic msg, w'') => (Panic msg, w'')
      | (OutOfFuel, w'') => (OutOfFuel, w'')
      end
  end.

(** Two computations are equal when they agree on every world. *)
#[export] Instance go_equiv W A : Equiv (Go W A) := λ m1 m2, ∀ w, m1 w = m2 w.

#[export] Instance go_equivalence W A : Equivalence (≡@{Go W A}).
Proof.
  split.
  - intros m w. done.
  - intros m1 m2 H w. symmetry. apply H.
  - intros m1 m2 m3 H1 H2 w. etransitivity; [apply H1 | apply H2].
Qed.

#[export] Instance go_bind_proper W A B :
  Proper (pointwise_relation A (≡) ==> (≡) ==> (≡)) (@mbind (Go W) _ A B).
Proof.
  intros k1 k2 Hk m1 m2 Hm w. unfold mbind, go_bind. rewrite (Hm w).
  destruct (m2 w) as [[a|msg|] w']; [apply Hk | done..].
Qed.

#[export] Instance go_defer_proper W A :
  Proper ((≡) ==> (≡) ==> (≡)) (@go_defer W A).
Proof.
  intros d1 d2 Hd m1 m2 Hm w. unfold go_defer. rewrite (Hm w).
  destruct (m2 w) as [[a|msg|] w']; rewrite ?(Hd w'); done.
Qed.

Lemma go_bind_ret_l {W A B} (a : A) (k : A → Go W B) : (mret a ≫= k) ≡ k a.
Proof. intros w. done. Qed.

Lemma go_bind_ret_r {W A} (m : Go W A) : (m ≫= mret) ≡ m.
Proof. intros w. unfold mbind, go_bind. destruct (m w) as [[a|msg|] w']; done. Qed.

Lemma go_bind_assoc {W A B C} (m : Go W A) (k : A → Go W B) (h : B → Go W C) :
  ((m ≫= k) ≫= h) ≡ (m ≫= λ a, k a ≫= h).
Proof. intros w. unfold mbind, go_bind. destruct (m w) as [[a|msg|] w']; done. Qed.

Lemma go_bind_run {W A B} (m : Go W A) (k : A → Go W B) w :
  (m ≫= k) w = match m w with
               | (Val a, w') => k a w'
               | (Panic msg, w') => (Panic msg, w')
               | (OutOfFuel, w') => (OutOfFuel, w')
               end.
Proof. done. Qed.

Lemma go_bind_val {W A B} (m : Go W A) (k : A → Go W B) w a w' :
  m w = (Val a, w') → (m ≫= k) w = k a w'.
Proof. intros H. unfold mbind, go_bind. by rewrite H. Qed.

Lemma go_bind_panic {W A B} (m : Go W A) (k : A → Go W B) w msg w' :
  m w = (Panic msg, w') → (m ≫= k) w = (Panic msg, w').
Proof. intros H. unfold mbind, go_bind. by rewrite H. Qed.

#[export] Hint Rewrite @go_bind_ret_l @go_bind_ret_r @go_bind_assoc : gomonad.

(** ** The runtime's choices *)

(** What a [select] between an operation's channel and [ctx.Done()] saw first. *)
Inductive race_result (A : Type) : Type :=
| OpDone (a : A)
| CtxDone (err : error).
Arguments OpDone {A} a.
Arguments CtxDone {A} err.

(** What a [select] between a send on a channel, a timer and [ctx.Done()] saw first. *)
Inductive select_result : Type :=
| SendReady
| TimerFired
| SelectDone (err : error).

(** The services of the Go runtime that answer from outside the program.
    - [env_now]: [time.Now()];
    - [env_ctx]: a non-blocking [select] on [ctx.Done()]; [Some e] is [ctx.Err()];
    - [env_wait d]: the blocking [select] between [ctx.Done()] ([Some ctx.Err()]) and
      [time.After(d)] ([None]);
    - [env_select d]: the blocking [select] between a send on a full channel, a timer of
      duration [d] and [ctx.Done()];
    - [env_rand n]: [rand.Int64N(n)] for a positive [n];
    - [env_start d]: the world in which a goroutine started under a context with
      timeout [d] (or under the caller's context) begins;
    - [env_race d op]: a goroutine runs [op] under that context, while the caller
      selects between its result and the context. *)
Class GoEnv (W : Type) := {
  env_now : W → Time * W;
  env_ctx : W → option error * W;
  env_wait : Duration → W → option error * W;
  env_select : Duration → W → select_result * W;
  env_rand : Z → W → Z * W;
  env_start : option Duration → W → W;
  env_race {A} : option Duration → Go W A → Go W (race_result A);
}.

(** The documented behaviour of these services that the proofs rely on. *)
Class GoEnvSpec (W : Type) `{GoEnv W} := {
  env_rand_range n w : 0 < n → 0 ≤ (env_rand n w).1 < n;
  env_race_proper A d : Proper ((≡) ==> (≡)) (@env_race _ _ A d);
  env_race_cases A d (op : Go W A) w :
    env_race d op w = (r ← op; mret (OpDone r)) (env_start d w)
    ∨ ∃ e w', env_race d op w = (Val (CtxDone e), w');
}.

Section Services.
Context {W : Type} `{GoEnv W}.
Definition time_Now : Go W Time := go_lift env_now.
Definition ctx_Done : Go W (option error) := go_lift env_ctx.
Definition select_After (d : Duration) : Go W (option error) := go_lift (env_wait d).
(** [rand.Int64N] panics when its argument is not positive. *)
Definition rand_Int64N (n : Z) : Go W Z :=
  if n <=? 0 then go_panic "invalid argument to Int64N" else go_lift (env_rand n).
End Services.

(** ** Pointers into the world *)

Record Ptr (W S : Type) := MkPtr {
  load : W → S;
  store : S → W → W;
  load_store s w : load (store s w) = s;
  store_store s s' w : store s (store s' w) = store s w;
  store_load w : store (load w) w = w;
}.
Arguments MkPtr {W S} load store load_store store_store store_load.
Arguments load {W S} p w.
Arguments store {W S} p s w.

(** A method that reads and writes the object behind [p], under its mutex. *)
Definition locked {W S A} (p : Ptr W S) (f : S → A * S) : Go W A :=
  go_lift (λ w, let '(a, s) := f (load p w) in (a, store p s w)).

(** Two pointers to distinct objects. *)
Definition ptr_disjoint {W S T} (p : Ptr W S) (q : Ptr W T) : Prop :=
  (∀ s w, load q (store p s w) = load q w) ∧
  (∀ t w, load p (store q t w) = load p w).

(** A computation that leaves the object behind [p] as it was. *)
Definition preserves {W S A} (p : Ptr W S) (m : Go W A) : Prop :=
  ∀ w, load p (m w).2 = load p w.

(** A computation that, whenever it returns or panics, leaves [I] true of the object
    behind [p] if it was true before. *)
Definition keeps {W S A} (I : S → Prop) (p : Ptr W S) (m : Go W A) : Prop :=
  ∀ w o w', m w = (o, w') → o ≠ OutOfFuel → I (load p w) → I (load p w').

(** The runtime does not touch the object behind [p]; a goroutine raced against its
    context touches it as its operation does.  A [select] on a channel is apart
    ([SelectFrame]): other goroutines use the channel meanwhile. *)
Class EnvFrame {W S : Type} `{GoEnv W} (p : Ptr W S) := {
  frame_now w : load p (env_now w).2 = load p w;
  frame_ctx w : load p (env_ctx w).2 = load p w;
  frame_wait d w : load p (env_wait d w).2 = load p w;
  frame_rand n w : load p (env_rand n w).2 = load p w;
  frame_start d w : load p (env_start d w) = load p w;
  frame_race A I d (op : Go W A) : keeps I p op → keeps I p (env_race d op);
}.

Class SelectFrame {W S : Type} `{GoEnv W} (p : Ptr W S) :=
  frame_select d w : load p (env_select d w).2 = load p w.

Section Keeps.
Context {W S : Type} (I : S → Prop) (p : Ptr W S).

Lemma keeps_ret {A} (a : A) : keeps I p (mret a).
Proof. intros w o w' Hm _. unfold mret, go_ret in Hm. by simplify_eq. Qed.

Lemma keeps_panic {A} msg : keeps I p (@go_panic W A msg).
Proof. intros w o w' Hm _. unfold go_panic in Hm. by simplify_eq. Qed.

Lemma keeps_fuel {A} : keeps I p (λ w, (@OutOfFuel A, w)).
Proof. intros w o w' Hm ?. by simplify_eq. Qed.

Lemma keeps_bind {A B} (m : Go W A) (k : A → Go W B) :
  keeps I p m → (∀ a, keeps I p (k a)) → keeps I p (m ≫= k).
Proof.
  intros Hm Hk w o w' E Ho HI. unfold mbind, go_bind in E.
  destruct (m w) as [[a|msg|] w1] eqn:E1; simplify_eq.
  - eapply Hk; [done..|]. by eapply Hm.
  - by eapply Hm.
Qed.

Lemma keeps_get {T} (f : W → T) : keeps I p (go_get f).
Proof. intros w o w' Hm _. unfold go_get in Hm. by simplify_eq. Qed.

(** A service that does not touch the object. *)
Lemma keeps_lift {A} (f : W → A * W) :
  (∀ w, load p (f w).2 = load p w) → keeps I p (go_lift f).
Proof.
  intros Hf w o w' Hm _. unfold go_lift in Hm. specialize (Hf w).
  destruct (f w) as [a w1]. simplify_eq/=. by rewrite Hf.
Qed.

Lemma keeps_defer {A} (d : Go W unit) (m : Go W A) :
  keeps I p d → keeps I p m → keeps I p (go_defer d m).
Proof.
  intros Hd Hm w o w' E Ho HI. unfold go_defer in E.
  assert (∀ r w1, m w = (r, w1) → r ≠ OutOfFuel → ∀ u w2, d w1 = (u, w2) → u ≠ OutOfFuel →
    I (load p w2)) as Hr.
  { intros r w1 E1 Hr u w2 E2 Hu. eapply Hd; [done..|]. by eapply Hm. }
  destruct (m w) as [[a|msg|] w1]; [| |by simplify_eq];
    destruct (d w1) as [[[]|msg'|] w2] eqn:E2; simplify_eq; by eapply Hr.
Qed.

(** An access to an object disjoint from this one. *)
Lemma keeps_locked {A T} (q : Ptr W T) (f : T → A * T) :
  ptr_disjoint q p → keeps I p (locked q f).
Proof.
  intros [Hd _]. apply keeps_lift. intros w. destruct (f (load q w)) as [a t]. apply Hd.
Qed.
End Keeps.

(** Preserving an object is keeping every property of it, for computations that end. *)
Lemma preserves_keeps {W S A} (I : S → Prop) (p : Ptr W S) (m : Go W A) :
  preserves p m → keeps I p m.
Proof. intros Hm w o w' E _. specialize (Hm w). rewrite E in Hm. simpl in Hm. by rewrite Hm. Qed.

#[export] Hint Resolve keeps_ret keeps_panic keeps_fuel keeps_bind keeps_get keeps_lift
  keeps_defer keeps_locked preserves_keeps : gomonad.

(** A wrapper of operations, the interface between the patterns of package [resilience]
    and the executor that composes them: equal operations give equal wrapped operations,
    and an object [foreign] to the wrapper is touched only by the wrapped operation. *)
Class Layer {W : Type} (L : Go W (option error) → Go W (option error))
    (foreign : ∀ S, Ptr W S → Prop) := {
  layer_proper : Proper ((≡) ==> (≡)) L;
  layer_keeps S (I : S → Prop) (q : Ptr W S) op : foreign S q → keeps I q op → keeps I q (L op);
}.
#[export] Existing Instance layer_proper.

(** A layer run on a value it does not use keeps every foreign object. *)
Lemma layer_untouched {W L foreign} `{!@Layer W L foreign} {S} (q : Ptr W S) err w o w' :
  foreign S q → L (mret err) w = (o, w') → o ≠ OutOfFuel → load q w' = load q w.
Proof.
  intros Hf HE Ho.
  exact (layer_keeps S (λ s, s = load q w) q (mret err) Hf (keeps_ret _ _ _) w o w' HE Ho eq_refl).
Qed.

(** A layer that runs the operation at most once. *)
Class OnceLayer {W : Type} (L : Go W (option error) → Go W (option error))
    (foreign : ∀ S, Ptr W S → Prop) :=
  layer_once S (q : Ptr W S) op w o w' :
    foreign S q → L op w = (o, w') → o ≠ OutOfFuel →
    load q w' = load q w ∨
    ∃ w1 o1 w2, load q w1 = load q w ∧ op w1 = (o1, w2) ∧ o1 ≠ OutOfFuel ∧
      load q w' = load q w2.

(** An object apart from the one behind [p], and that the runtime does not touch. *)
Definition apart {W S} `{GoEnv W} (p : Ptr W S) : ∀ T, Ptr W T → Prop :=
  λ T q, ptr_disjoint p q ∧ EnvFrame q.

(** The services of the runtime keep what is not theirs. *)
Lemma keeps_services {W S} `{GoEnv W} (I : S → Prop) (p : Ptr W S) :
  EnvFrame p →
  keeps I p time_Now ∧ keeps I p ctx_Done ∧ (∀ d, keeps I p (select_After d)) ∧
  (∀ n, keeps I p (rand_Int64N n)).
Proof.
  intros Hf. unfold time_Now, ctx_Done, select_After, rand_Int64N.
  split_and!; intros; try case_match; try apply keeps_panic; apply keeps_lift; apply Hf.
Qed.

(** *** Computations that end *)

Section Total.
Context {W : Type}.

Lemma total_ret {A} (a : A) : total (W:=W) (mret a).
Proof. done. Qed.

Lemma total_panic {A} msg : total (@go_panic W A msg).
Proof. done. Qed.

Lemma total_get {S} (f : W → S) : total (go_get f).
Proof. done. Qed.

Lemma total_modify (f : W → W) : total (go_modify f).
Proof. done. Qed.

Lemma total_lift {A} (f : W → A * W) : total (go_lift f).
Proof. intros w w'. unfold go_lift. by destruct (f w). Qed.

Lemma total_bind {A B} (m : Go W A) (k : A → Go W B) :
  total m → (∀ x, total (k x)) → total (m ≫= k).
Proof.
  intros Hm Hk w w'. unfold mbind, go_bind. specialize (Hm w).
  destruct (m w) as [[x|msg|] w1] eqn:E; [apply Hk | done | by destruct (Hm w1)].
Qed.

Lemma total_defer {A} (d : Go W unit) (m : Go W A) : total d → total m → total (go_defer d m).
Proof.
  intros Hd Hm w w' E. unfold go_defer in E.
  destruct (m w) as [[a|msg|] w1] eqn:E1; [| |by destruct (Hm w w1)];
    specialize (Hd w1); destruct (d w1) as [[[]|msg'|] w2]; simplify_eq; by destruct (Hd w').
Qed.
End Total.

(** Proves [total] of a computation built from the combinators and the services. *)
Ltac total :=
  unfold time_Now, ctx_Done, select_After, rand_Int64N, locked in *;
  repeat first
    [ assumption
    | apply total_ret | apply total_panic | apply total_get | apply total_modify | apply total_lift
    | apply total_bind; [|intros ?]
    | apply total_defer
    | match goal with |- total (match ?x with _ => _ end) => destruct x eqn:? end ].

(** Proves [keeps] of a computation built from the combinators and the services. *)
Ltac keeps :=
  match goal with
  | |- keeps ?I ?q _ => idtac
  end;
  repeat first
    [ assumption
    | apply keeps_ret | apply keeps_panic | apply keeps_fuel | apply keeps_get
    | apply keeps_services; assumption
    | apply keeps_locked; assumption
    | apply keeps_bind; [|intros ?]
    | apply keeps_defer
    | progress cbv beta iota
    | match goal with |- keeps _ _ (match ?x with _ => _ end) => destruct x end ].

Lemma preserves_bind {W S A B} (p : Ptr W S) (m : Go W A) (k : A → Go W B) :
  preserves p m → (∀ a, preserves p (k a)) → preserves p (m ≫= k).
Proof.
  intros Hm Hk w. unfold mbind, go_bind. specialize (Hm w).
  destruct (m w) as [[a|msg|] w']; simpl in *; rewrite ?Hk; done.
Qed.

Lemma preserves_ret {W S A} (p : Ptr W S) (a : A) : preserves p (mret a).
Proof. intros w. done. Qed.

Lemma preserves_lift {W S A} (p : Ptr W S) (f : W → A * W) :
  (∀ w, load p (f w).2 = load p w) → preserves p (go_lift f).
Proof. intros H w. unfold go_lift. specialize (H w). by destruct (f w). Qed.

#[export] Hint Resolve preserves_bind preserves_ret preserves_lift : gomonad.

(** ** A scripted world

    A concrete instance of the runtime, used to run the definitions on examples: the
    clock advances by [w_tick] at every reading and by the duration of a completed wait;
    the answers of [select] are read from scripts ([None] when a script is over); the
    random source is a constant. *)

Record World (S : Type) := MkWorld {
  w_clock : Time;
  w_tick : Duration;
  w_ctx : list (option error);
  w_wait : list (option error);
  w_rand : Z;
  w_race : list (option error);
  w_cell : S;
}.
Arguments MkWorld {S} _ _ _ _ _ _ _.
Arguments w_clock {S} _.
Arguments w_tick {S} _.
Arguments w_ctx {S} _.
Arguments w_wait {S} _.
Arguments w_rand {S} _.
Arguments w_race {S} _.
Arguments w_cell {S} _.

Definition pop {A} (l : list (option A)) : option A * list (option A) :=
  match l with [] => (None, []) | x :: l => (x, l) end.

Definition w_set_clock {S} (t : Time) (w : World S) : World S :=
  MkWorld t (w_tick w) (w_ctx w) (w_wait w) (w_rand w) (w_race w) (w_cell w).

#[export] Instance World_env S : GoEnv (World S) := {|
  env_now w := (w_clock w, w_set_clock (w_clock w + w_tick w) w);
  env_ctx w :=
    let '(x, l) := pop (w_ctx w) in
    (x, MkWorld (w_clock w) (w_tick w) l (w_wait w) (w_rand w) (w_race w) (w_cell w));
  env_wait d w :=
    let '(x, l) := pop (w_wait w) in
    (x, MkWorld (match x with None => w_clock w + Z.max 0 d | Some _ => w_clock w end)
          (w_tick w) (w_ctx w) l (w_rand w) (w_race w) (w_cell w));
  env_select d w :=
    let '(x, l) := pop (w_wait w) in
    (match x with None => TimerFired | Some e => SelectDone e end,
     MkWorld (match x with None => w_clock w + Z.max 0 d | Some _ => w_clock w end)
          (w_tick w) (w_ctx w) l (w_rand w) (w_race w) (w_cell w));
  env_rand n w := (w_rand w mod n, w);
  env_start d w :=
    MkWorld (w_clock w) (w_tick w) (w_ctx w) (w_wait w) (w_rand w) (pop (w_race w)).2 (w_cell w);
  env_race A d op w :=
    let '(x, l) := pop (w_race w) in
    let w := MkWorld (w_clock w) (w_tick w) (w_ctx w) (w_wait w) (w_rand w) l (w_cell w) in
    match x with
    | None => (r ← op; mret (OpDone r)) w
    | Some e => (Val (CtxDone e), w)
    end;
|}.

#[export] Instance World_env_spec S : GoEnvSpec (World S).
Proof.
  split.
  - intros n w Hn. apply Z.mod_pos_bound. done.
  - intros A d op1 op2 Hop w. simpl. destruct (pop (w_race w)) as [[e|] l]; [done|].
    apply go_bind_proper; [by intros r | done].
  - intros A d op w. simpl. destruct (pop (w_race w)) as [[e|] l]; simpl; eauto.
Qed.

Definition cell {S} : Ptr (World S) S.
Proof.
  refine (MkPtr w_cell
    (λ s w, MkWorld (w_clock w) (w_tick w) (w_ctx w) (w_wait w) (w_rand w) (w_race w) s)
    _ _ _); [done | done | by intros []].
Defined.

#[export] Instance cell_frame S : EnvFrame (@cell S).
Proof.
  split; intros; simpl; try done; try by destruct (pop _).
  intros w o w' E Ho HI. simpl in E. destruct (pop (w_race w)) as [[e|] l]; [by simplify_eq|].
  eapply (keeps_bind I cell op (λ r, mret (OpDone r))); [done | | exact E | done..].
  intros. apply keeps_ret.
Qed.

#[export] Instance cell_select S : SelectFrame (@cell S).
Proof. intros d w. simpl. by destruct (pop _). Qed.

(** Pointers to the components of a pair. *)
Definition ptr_fst {W A B} (p : Ptr W (A * B)) : Ptr W A.
Proof.
  refine (MkPtr (λ w, (load p w).1) (λ a w, store p (a, (load p w).2) w) _ _ _).
  - intros. by rewrite load_store.
  - intros. by rewrite load_store, store_store.
  - intros. destruct p as [l st Hls Hss Hsl]. simpl. by rewrite <- surjective_pairing, Hsl.
Defined.

Definition ptr_snd {W A B} (p : Ptr W (A * B)) : Ptr W B.
Proof.
  refine (MkPtr (λ w, (load p w).2) (λ b w, store p ((load p w).1, b) w) _ _ _).
  - intros. by rewrite load_store.
  - intros. by rewrite load_store, store_store.
  - intros. destruct p as [l st Hls Hss Hsl]. simpl. by rewrite <- surjective_pairing, Hsl.
Defined.

Lemma ptr_fst_snd_disjoint {W A B} (p : Ptr W (A * B)) : ptr_disjoint (ptr_fst p) (ptr_snd p).
Proof. split; intros; simpl; by rewrite load_store. Qed.

#[export] Instance ptr_fst_frame {W A B} `{GoEnv W} (p : Ptr W (A * B)) :
  EnvFrame p → EnvFrame (ptr_fst p).
Proof.
  intros Hp. split; intros; simpl; try (f_equal; apply Hp).
  exact (frame_race A0 (λ s, I s.1) d op H0).
Qed.

#[export] Instance ptr_snd_frame {W A B} `{GoEnv W} (p : Ptr W (A * B)) :
  EnvFrame p → EnvFrame (ptr_snd p).
Proof.
  intros Hp. split; intros; simpl; try (f_equal; apply Hp).
  exact (frame_race A0 (λ s, I s.2) d op H0).
Qed.

#[export] Instance ptr_fst_select {W A B} `{GoEnv W} (p : Ptr W (A * B)) :
  SelectFrame p → SelectFrame (ptr_fst p).
Proof. intros Hp d w. simpl. by rewrite Hp. Qed.

#[export] Instance ptr_snd_select {W A B} `{GoEnv W} (p : Ptr W (A * B)) :
  SelectFrame p → SelectFrame (ptr_snd p).
Proof. intros Hp d w. simpl. by rewrite Hp. Qed.
