(* ===== verification/GoFloat.v ===== *)
(** * float64

    IEEE 754 binary64 as the executable specification of the Standard Library
    ([SpecFloat], 53 bits of precision), with the operations, conversions and the part
    of [math.Pow] that toolops uses.  Integers below 2^53 are represented exactly, and
    the operations on them are exact: the lemmas at the end. *)

From Stdlib Require Export SpecFloat.
From stdpp Require Import pretty.
From S2P Require Import Prelude.
From S2P Require Import GoRuntime.
Local Open Scope Z_scope.

Abbreviation float64 := spec_float.

(** ** Operations *)

Definition f_of_Z (z : Z) : float64 := binary_normalize 53 1024 z 0 false.
Definition fadd : float64 → float64 → float64 := SFadd 53 1024.
Definition fsub : float64 → float64 → float64 := SFsub 53 1024.
Definition fmul : float64 → float64 → float64 := SFmul 53 1024.
Definition fdiv : float64 → float64 → float64 := SFdiv 53 1024.
Definition fltb : float64 → float64 → bool := SFltb.
Definition fleb : float64 → float64 → bool := SFleb.
Definition feqb : float64 → float64 → bool := SFeqb.

(** A decimal literal [n/d] rounded to nearest. *)
Definition f_lit (n d : Z) : float64 := fdiv (f_of_Z n) (f_of_Z d).

Definition f_zero : float64 := S754_zero false.
Definition f_one : float64 := f_of_Z 1.
Definition f_nan : float64 := S754_nan.
Definition f_inf : float64 := S754_infinity false.

(** [int64(f)] for a value that does not fit is implementation-dependent: amd64 returns
    the most negative integer, arm64 saturates (and maps NaN to 0). *)
Inductive arch := AMD64 | ARM64.

Definition f_trunc (f : float64) : option Z :=
  match f with
  | S754_zero _ => Some 0
  | S754_finite s m e =>
      let a := match e with
               | Zneg k => Z.shiftr (Zpos m) (Zpos k)
               | _ => Z.shiftl (Zpos m) e
               end in
      Some (if s then - a else a)
  | _ => None
  end.

Definition int64_of_f (a : arch) (f : float64) : Z :=
  match f_trunc f with
  | Some z =>
      if (int64_min <=? z) && (z <=? int64_max) then z
      else match a with AMD64 => int64_min | ARM64 => sat64 z end
  | None =>
      match a, f with
      | AMD64, _ => int64_min
      | ARM64, S754_infinity false => int64_max
      | ARM64, S754_infinity true => int64_min
      | ARM64, _ => 0
      end
  end.

(** [math.Pow(x, y)] for an integral [y >= 0]: the special cases of the documentation,
    then repeated squaring of the fraction of [x], with the exponent kept apart. *)
Fixpoint pow_loop (fuel : nat) (i : Z) (a1 : float64) (ae : Z) (x1 : float64) (xe : Z)
    : float64 * Z :=
  match fuel with
  | O => (a1, ae)
  | S fuel =>
      if i =? 0 then (a1, ae)
      else if (xe <? -4096) || (4096 <? xe) then (a1, ae + xe)
      else
        let '(a1, ae) := if Z.odd i then (fmul a1 x1, ae + xe) else (a1, ae) in
        let x1 := fmul x1 x1 in
        let xe := 2 * xe in
        let '(x1, xe) := if fltb x1 (f_lit 1 2) then (fadd x1 x1, xe - 1) else (x1, xe) in
        pow_loop fuel (Z.div2 i) a1 ae x1 xe
  end.

(** The loop halves [i < 2^63] at each turn. *)
Definition math_Pow (x : float64) (y : Z) : float64 :=
  if (y =? 0) || feqb x f_one then f_one
  else if y =? 1 then x
  else match x with
  | S754_nan => f_nan
  | S754_zero s => S754_zero (s && Z.odd y)
  | S754_infinity s => S754_infinity (s && Z.odd y)
  | S754_finite _ _ _ =>
      let '(x1, xe) := SFfrexp 53 1024 x in
      let '(a1, ae) := pow_loop 64 y f_one 0 x1 xe in
      SFldexp 53 1024 a1 ae
  end.

(** [time.Duration.Seconds] *)
Definition Duration_Seconds (d : Duration) : float64 :=
  let sec := Z.quot d Second in
  let nsec := Z.rem d Second in
  fadd (f_of_Z sec) (fdiv (f_of_Z nsec) (f_of_Z 1000000000)).

(** The text of [%.kf]: the exact value times [10^k], rounded to nearest and to even on a
    tie, with [k] digits after the point. *)
Definition round_even (n d : Z) : Z :=
  let q := n / d in
  let r := n mod d in
  if 2 * r <? d then q
  else if d <? 2 * r then q + 1
  else if Z.even q then q else q + 1.

(** The [k] last decimal digits. *)
Fixpoint last_digits (k : nat) (q : Z) (acc : string) : string :=
  match k with
  | O => acc
  | S k => last_digits k (q / 10) (pretty (q mod 10) +:+ acc)
  end.

Definition fmt_decimal (k : nat) (neg : bool) (q : Z) : string :=
  ((if neg then "-" else "") +:+ pretty (q / 10 ^ Z.of_nat k) +:+ "." +:+ last_digits k q "")%string.

Definition fmt_fixed (k : nat) (f : float64) : string :=
  match f with
  | S754_nan => "NaN"
  | S754_infinity neg => if neg then "-Inf" else "+Inf"
  | S754_zero neg => fmt_decimal k neg 0
  | S754_finite neg m e =>
      let n := 10 ^ Z.of_nat k * Zpos m in
      fmt_decimal k neg (match e with Zneg i => round_even n (2 ^ Zpos i) | _ => n * 2 ^ e end)
  end.

Definition fmt_1f : float64 → string := fmt_fixed 1.
(** [%f] *)
Definition fmt_f : float64 → string := fmt_fixed 6.

Example fmt_1f_examples :
  map fmt_1f [fmul (f_lit 9525 10000) (f_of_Z 100); f_of_Z 85; f_lit (-1) 4; f_lit 1 20; f_inf]
  = ["95.2"; "85.0"; "-0.2"; "0.1"; "+Inf"]%string
  ∧ map fmt_f [f_lit 3 2; f_lit 5 100; f_of_Z 12] = ["1.500000"; "0.050000"; "12.000000"]%string.
Proof. split; vm_compute; reflexivity. Qed.

(** ** Exact integers *)

(** [p * 2^k] *)
Definition shl (p : positive) (k : nat) : positive := Nat.iter k xO p.

Definition digits (p : positive) : Z := Zpos (digits2_pos p).

(** The canonical form of a positive integer of at most 53 binary digits. *)
Definition norm (p : positive) : float64 :=
  S754_finite false (shl p (Z.to_nat (53 - digits p))) (digits p - 53).

Lemma norm_eq p :
  norm p = S754_finite false (shl p (Z.to_nat (53 - digits p))) (digits p - 53).
Proof. done. Qed.

Lemma shl_Z p k : Zpos (shl p k) = Zpos p * 2 ^ Z.of_nat k.
Proof.
  induction k as [|k IH]; [simpl; lia|]. change (shl p (S k)) with (shl p k)~0%positive.
  rewrite Pos2Z.inj_xO, IH, Nat2Z.inj_succ, Z.pow_succ_r by lia. lia.
Qed.

Lemma shl_shl p j k : shl (shl p j) k = shl p (k + j).
Proof. unfold shl. by rewrite Nat.iter_add. Qed.

Lemma digits_shl p k : digits (shl p k) = digits p + Z.of_nat k.
Proof.
  induction k as [|k IH]; [simpl; lia|].
  change (shl p (S k)) with (shl p k)~0%positive.
  unfold digits in *. simpl. rewrite Pos2Z.inj_succ. lia.
Qed.

Lemma digits_bounds p : 2 ^ (digits p - 1) ≤ Zpos p < 2 ^ digits p.
Proof.
  unfold digits. induction p as [p IH|p IH|]; simpl digits2_pos; [| | simpl; lia];
    rewrite Pos2Z.inj_succ; unfold Z.succ;
    replace (Zpos (digits2_pos p) + 1 - 1) with ((Zpos (digits2_pos p) - 1) + 1) by lia;
    rewrite !Z.pow_add_r by lia; lia.
Qed.

Lemma digits_pos p : 1 ≤ digits p.
Proof. unfold digits. lia. Qed.

Lemma digits_le p n : 0 ≤ n → Zpos p < 2 ^ n → digits p ≤ n.
Proof.
  intros Hn Hp. pose proof (digits_bounds p). pose proof (digits_pos p).
  destruct (Z.le_gt_cases (digits p) n); [done|].
  pose proof (Z.pow_le_mono_r 2 n (digits p - 1)). lia.
Qed.

Lemma iter_pos_nat {A} (f : A → A) n x : SpecFloat.iter_pos f n x = Nat.iter (Pos.to_nat n) f x.
Proof.
  revert x. induction n as [n IH|n IH|]; intros x; cbn [SpecFloat.iter_pos]; [| |done];
    rewrite !IH, <- Nat.iter_add.
  - rewrite Pos2Nat.inj_xI. replace (S (2 * Pos.to_nat n)) with (Pos.to_nat n + Pos.to_nat n + 1)%nat by lia.
    by rewrite (Nat.iter_add (Pos.to_nat n + Pos.to_nat n) 1).
  - rewrite Pos2Nat.inj_xO. f_equal. lia.
Qed.

(** Shifting right undoes the shift left, without remainder. *)
Lemma shr_shl p n :
  Nat.iter n shr_1 (Build_shr_record (Zpos (shl p n)) false false)
  = Build_shr_record (Zpos p) false false.
Proof.
  induction n as [|n IH]; [done|]. rewrite Nat.iter_succ_r. exact IH.
Qed.

Lemma fexp_int d : -1000 ≤ d ≤ 1000 → fexp 53 1024 d = d - 53.
Proof. intros. unfold fexp, emin. lia. Qed.

Lemma Zdigits2_shl p k : Zdigits2 (Zpos (shl p k)) = digits p + Z.of_nat k.
Proof. apply digits_shl. Qed.

(** Rounding an integer of at most 53 digits, given with enough trailing zeros. *)
Lemma round_aux_int p k :
  digits p ≤ 53 → 53 - digits p ≤ Z.of_nat k →
  binary_round_aux 53 1024 false (Zpos (shl p k)) (- Z.of_nat k) loc_Exact = norm p.
Proof.
  intros Hd Hk. pose proof (digits_pos p).
  set (j := Z.to_nat (53 - digits p)).
  assert (shr_fexp 53 1024 (Zpos (shl p k)) (- Z.of_nat k) loc_Exact
    = (Build_shr_record (Zpos (shl p j)) false false, digits p - 53)) as E1.
  { unfold shr_fexp. rewrite Zdigits2_shl.
    replace (digits p + Z.of_nat k + - Z.of_nat k) with (digits p) by lia.
    rewrite fexp_int by lia. unfold shr, shr_record_of_loc.
    destruct (digits p - 53 - - Z.of_nat k) as [|n|n] eqn:En; [|  | lia].
    - replace k with j by lia. f_equal. lia.
    - rewrite iter_pos_nat. replace k with (Pos.to_nat n + j)%nat by lia.
      rewrite <- shl_shl, shr_shl. f_equal. lia. }
  assert (shr_fexp 53 1024 (Zpos (shl p j)) (digits p - 53) loc_Exact
    = (Build_shr_record (Zpos (shl p j)) false false, digits p - 53)) as E2.
  { unfold shr_fexp. rewrite Zdigits2_shl.
    rewrite fexp_int by lia. unfold shr, shr_record_of_loc.
    replace (digits p + Z.of_nat j + (digits p - 53) - 53 - (digits p - 53)) with 0 by lia. done. }
  unfold binary_round_aux. rewrite E1. simpl shr_m. simpl loc_of_shr_record.
  unfold round_nearest_even. rewrite E2. simpl.
  rewrite (proj2 (Z.leb_le _ _)) by lia. done.
Qed.

Lemma round_int p k :
  digits p ≤ 53 → binary_round 53 1024 false (shl p k) (- Z.of_nat k) = norm p.
Proof.
  intros Hd. pose proof (digits_pos p). unfold binary_round.
  change (Z.pos (digits2_pos (shl p k))) with (digits (shl p k)).
  rewrite digits_shl. replace (digits p + Z.of_nat k + - Z.of_nat k) with (digits p) by lia.
  rewrite fexp_int by lia. unfold shl_align.
  destruct (digits p - 53 - - Z.of_nat k) as [|n|n] eqn:En.
  - apply round_aux_int; lia.
  - apply round_aux_int; lia.
  - assert (Pos.iter xO (shl p k) n = shl p (Pos.to_nat n + k)) as ->
      by (unfold shl; by rewrite Pos2Nat.inj_iter, Nat.iter_add).
    replace (digits p - 53) with (- Z.of_nat (Pos.to_nat n + k)) by lia.
    apply round_aux_int; lia.
Qed.

(** Integers in the range where float64 is exact. *)
Definition exact_int (z : Z) : Prop := 0 ≤ z < 2 ^ 53.

Lemma exact_digits p : exact_int (Zpos p) → digits p ≤ 53.
Proof. intros [_ H]. apply digits_le; [lia | done]. Qed.

Lemma f_of_pos p : exact_int (Zpos p) → f_of_Z (Zpos p) = norm p.
Proof. intros H. apply (round_int p 0). by apply exact_digits. Qed.

(** Alignment of a canonical integer on a smaller exponent. *)
Lemma align_norm p e :
  digits p ≤ 53 → e ≤ digits p - 53 →
  fst (shl_align (shl p (Z.to_nat (53 - digits p))) (digits p - 53) e) = shl p (Z.to_nat (- e)).
Proof.
  intros Hd He. pose proof (digits_pos p). unfold shl_align.
  destruct (e - (digits p - 53)) as [|n|n] eqn:En; simpl; [f_equal; lia | lia|].
  assert (∀ q, Pos.iter xO q n = shl q (Pos.to_nat n)) as ->
    by (intros; unfold shl; by rewrite Pos2Nat.inj_iter).
  rewrite shl_shl. f_equal. lia.
Qed.

Lemma normalize_shl z e :
  exact_int z → e ≤ 0 →
  binary_normalize 53 1024 (z * 2 ^ Z.of_nat (Z.to_nat (- e))) e false = f_of_Z z.
Proof.
  intros Hz He. remember (Z.to_nat (- e)) as k eqn:Ek.
  replace e with (- Z.of_nat k) by lia. clear e He Ek.
  destruct z as [|p|p]; [done | | by destruct Hz].
  rewrite <- shl_Z, f_of_pos by done. unfold binary_normalize.
  by apply round_int, exact_digits.
Qed.

Lemma f_add_int a b :
  exact_int a → exact_int b → exact_int (a + b) →
  fadd (f_of_Z a) (f_of_Z b) = f_of_Z (a + b).
Proof.
  intros Ha Hb Hab. destruct a as [|p|p]; [ | |by destruct Ha].
  { destruct b as [|q|q]; [done | | by destruct Hb]. rewrite Z.add_0_l, f_of_pos by done. done. }
  destruct b as [|q|q]; [ | |by destruct Hb].
  { rewrite Z.add_0_r, !f_of_pos by done. done. }
  rewrite (f_of_pos p), (f_of_pos q) by done. unfold fadd, norm, SFadd, cond_Zopp.
  pose proof (exact_digits p Ha). pose proof (exact_digits q Hb).
  pose proof (digits_pos p). pose proof (digits_pos q).
  set (ez := Z.min (digits p - 53) (digits q - 53)).
  rewrite !align_norm by lia. rewrite !shl_Z, <- Z.mul_add_distr_r.
  apply normalize_shl; [done | lia].
Qed.

Lemma f_sub_int a b :
  exact_int a → exact_int b → b ≤ a → fsub (f_of_Z a) (f_of_Z b) = f_of_Z (a - b).
Proof.
  intros Ha Hb Hab. assert (exact_int (a - b)) as Hd by (unfold exact_int in *; lia).
  destruct b as [|q|q]; [ | |by destruct Hb].
  { rewrite Z.sub_0_r. destruct a as [|p|p]; [done | | by destruct Ha]. rewrite f_of_pos by done. done. }
  destruct a as [|p|p]; [lia | |by destruct Ha].
  rewrite (f_of_pos p), (f_of_pos q) by done. unfold fsub, norm, SFsub, cond_Zopp.
  pose proof (exact_digits p Ha). pose proof (exact_digits q Hb).
  pose proof (digits_pos p). pose proof (digits_pos q).
  set (ez := Z.min (digits p - 53) (digits q - 53)).
  rewrite !align_norm by lia. rewrite !shl_Z, <- Z.mul_sub_distr_r.
  apply normalize_shl; [done | lia].
Qed.

Lemma f_mul_int a b :
  exact_int a → exact_int b → exact_int (a * b) →
  fmul (f_of_Z a) (f_of_Z b) = f_of_Z (a * b).
Proof.
  intros Ha Hb Hab.
  destruct a as [|p|p]; [ | |by destruct Ha].
  { destruct b as [|q|q]; [done | | by destruct Hb]. rewrite f_of_pos by done. done. }
  destruct b as [|q|q]; [ | |by destruct Hb].
  { rewrite f_of_pos by done. by rewrite Z.mul_0_r. }
  rewrite <- Pos2Z.inj_mul in *. rewrite !f_of_pos by done. unfold fmul, SFmul.
  rewrite !norm_eq. simpl xorb. cbv iota.
  pose proof (exact_digits p Ha). pose proof (exact_digits q Hb).
  pose proof (digits_pos p). pose proof (digits_pos q).
  set (i := Z.to_nat (53 - digits p)). set (j := Z.to_nat (53 - digits q)).
  assert (Zpos (shl p i * shl q j) = Zpos (shl (p * q) (i + j))) as ->.
  { rewrite Pos2Z.inj_mul, !shl_Z, Pos2Z.inj_mul, Nat2Z.inj_add, Z.pow_add_r by lia. ring. }
  replace (digits p - 53 + (digits q - 53)) with (- Z.of_nat (i + j)) by lia.
  rewrite <- norm_eq. apply round_aux_int; [by apply exact_digits|].
  pose proof (digits_bounds p) as [Hp _]. pose proof (digits_bounds q) as [Hq _].
  pose proof (digits_bounds (p * q)) as [_ Hpq].
  pose proof (digits_pos (p * q)).
  assert (digits p - 1 + (digits q - 1) < digits (p * q)); [|lia].
  apply (Z.pow_lt_mono_r_iff 2); [lia.. | rewrite Z.pow_add_r by lia].
  eapply Z.le_lt_trans; [|exact Hpq]. rewrite Pos2Z.inj_mul.
  apply Z.mul_le_mono_nonneg; first [done | apply Z.pow_nonneg; lia].
Qed.

Lemma f_ltb_int a b :
  exact_int a → exact_int b → fltb (f_of_Z a) (f_of_Z b) = (a <? b).
Proof.
  intros Ha Hb.
  destruct a as [|p|p]; [ | |by destruct Ha].
  { destruct b as [|q|q]; [done | | by destruct Hb]. rewrite f_of_pos by done. done. }
  destruct b as [|q|q]; [ | |by destruct Hb].
  { rewrite f_of_pos by done. done. }
  rewrite !f_of_pos by done. unfold fltb, SFltb, norm, SFcompare.
  pose proof (digits_bounds p). pose proof (digits_bounds q).
  pose proof (digits_pos p). pose proof (digits_pos q).
  destruct (Z.compare_spec (digits p - 53) (digits q - 53)) as [E|E|E].
  - assert (digits p = digits q) as -> by lia. set (k := Z.to_nat _).
    change (Pos.compare_cont Eq (shl p k) (shl q k)) with (Z.compare (Zpos (shl p k)) (Zpos (shl q k))).
    rewrite !shl_Z, <- Zmult_compare_compat_r by lia. done.
  - symmetry. apply Z.ltb_lt. pose proof (Z.pow_le_mono_r 2 (digits p) (digits q - 1)). lia.
  - symmetry. apply Z.ltb_ge. pose proof (Z.pow_le_mono_r 2 (digits q) (digits p - 1)). lia.
Qed.

Lemma SFleb_ltb x y : x ≠ S754_nan → y ≠ S754_nan → SFleb x y = negb (SFltb y x).
Proof.
  intros Hx Hy. unfold SFleb, SFltb, SFcompare.
  destruct x as [?|[]| |[] m e], y as [?|[]| |[] m' e']; try done.
  all: rewrite (Z.compare_antisym e e');
    change (Pos.compare_cont Eq m' m) with (m' ?= m)%positive;
    change (Pos.compare_cont Eq m m') with (m ?= m')%positive;
    rewrite (Pos.compare_antisym m m');
    destruct (e ?= e'), (m ?= m')%positive; done.
Qed.

Lemma f_int_not_nan z : exact_int z → f_of_Z z ≠ S754_nan.
Proof. intros Hz. destruct z; [done | by rewrite f_of_pos | by destruct Hz]. Qed.

Lemma f_leb_int a b :
  exact_int a → exact_int b → fleb (f_of_Z a) (f_of_Z b) = (a <=? b).
Proof.
  intros Ha Hb. unfold fleb. rewrite SFleb_ltb by (by apply f_int_not_nan).
  change SFltb with fltb. rewrite f_ltb_int by done. by rewrite Z.leb_antisym.
Qed.

(** The conversion back to an integer, on every architecture. *)
Lemma int64_of_f_int a z : exact_int z → int64_of_f a (f_of_Z z) = z.
Proof.
  intros Hz. unfold int64_of_f. assert (f_trunc (f_of_Z z) = Some z) as ->.
  { destruct z as [|p|p]; [done | | by destruct Hz]. rewrite f_of_pos, norm_eq by done. unfold f_trunc. f_equal.
    pose proof (exact_digits p Hz). destruct (digits p - 53) as [|k|k] eqn:E; [|lia|].
    - by replace (53 - digits p) with 0 by lia.
    - replace (53 - digits p) with (Zpos k) by lia.
      rewrite Z.shiftr_div_pow2, shl_Z, Z2Nat.id by lia. by apply Z.div_mul, Z.pow_nonzero. }
  unfold exact_int, int64_min, int64_max in *.
  by rewrite (proj2 (Z.leb_le _ _)), (proj2 (Z.leb_le _ _)) by lia.
Qed.

(** Powers of two are exact. *)
Lemma math_Pow_2 k : 0 ≤ k ≤ 52 → math_Pow (f_of_Z 2) k = f_of_Z (2 ^ k).
Proof.
  intros Hk. assert (map (λ k, math_Pow (f_of_Z 2) (Z.of_nat k)) (seq 0 53)
    = map (λ k, f_of_Z (2 ^ Z.of_nat k)) (seq 0 53)) as Hall by (vm_compute; reflexivity).
  pose proof (ext_in_map Hall (Z.to_nat k) ltac:(apply in_seq; lia)) as He.
  simpl in He. by rewrite Z2Nat.id in He by lia.
Qed.

(** Division of zero, as in the fraction of a whole number of seconds. *)
Lemma f_zero_div z : 0 < z → exact_int z → fdiv (f_of_Z 0) (f_of_Z z) = f_of_Z 0.
Proof. intros H0 Hz. destruct z; [lia | by rewrite f_of_pos | lia]. Qed.

Lemma Duration_Seconds_whole s :
  0 ≤ s → exact_int s → Duration_Seconds (s * Second) = f_of_Z s.
Proof.
  intros H0 Hs. unfold Duration_Seconds, Second.
  rewrite Z.quot_mul, Z.rem_mul by lia.
  rewrite f_zero_div by (unfold exact_int; lia).
  rewrite f_add_int by (unfold exact_int in *; lia). f_equal. lia.
Qed.

(** A value the code compares with [>] after capping it: [min]. *)
Lemma f_cap_int a b :
  exact_int a → exact_int b →
  (if fltb (f_of_Z b) (f_of_Z a) then f_of_Z b else f_of_Z a) = f_of_Z (Z.min a b).
Proof.
  intros Ha Hb. rewrite f_ltb_int by done.
  destruct (b <? a) eqn:E; zbool; f_equal; lia.
Qed.
