(* ===== verification/GoFloatReal.v ===== *)
(** * The real value of a float64

    The rounding of [SpecFloat] is to nearest: a result is within [2^-53] of the exact one,
    relative to it, or within [2^-1075].  From this follow bounds for the operations on
    nonnegative numbers, and that comparisons are those of the values. *)

From Stdlib Require Import Reals Lra.
From S2P Require Import Prelude.
From S2P Require Import GoRuntime.
From S2P Require Import GoFloat.
Notation "x ≤ y" := (Rle x y) : R_scope.
Notation "x ≤ y ≤ z" := (Rle x y ∧ Rle y z) : R_scope.
Local Open Scope Z_scope.

(** ** Powers of two *)

Definition bpow (e : Z) : R := powerRZ 2 e.
#[global] Arguments bpow : simpl never.

Lemma bpow_add a b : bpow (a + b) = (bpow a * bpow b)%R.
Proof. apply powerRZ_add. lra. Qed.

Lemma bpow_pos e : (0 < bpow e)%R.
Proof. apply powerRZ_lt. lra. Qed.

Lemma bpow_succ e : bpow (e + 1) = (2 * bpow e)%R.
Proof. rewrite bpow_add. unfold bpow at 2. simpl. lra. Qed.

Lemma bpow_IZR k : 0 ≤ k → bpow k = IZR (2 ^ k).
Proof.
  intros Hk. rewrite <- (Z2Nat.id k) by done. generalize (Z.to_nat k) as n. intros n.
  induction n as [|n IH]; [done|]. rewrite Nat2Z.inj_succ. unfold Z.succ.
  rewrite bpow_succ, IH, Z.pow_add_r, mult_IZR by lia. change (IZR (2 ^ 1)) with 2%R. lra.
Qed.

Lemma bpow_le a b : a ≤ b → (bpow a ≤ bpow b)%R.
Proof.
  intros Hab. replace b with ((b - a) + a) by lia. rewrite bpow_add, (bpow_IZR (b - a)) by lia.
  pose proof (bpow_pos a). assert (1 ≤ IZR (2 ^ (b - a)))%R; [|nra].
  apply IZR_le. pose proof (Z.pow_pos_nonneg 2 (b - a) ltac:(lia) ltac:(lia)). lia.
Qed.

(** ** A real between two mantissas

    [located m r s e x]: [x] has the mantissa [m] at the exponent [e], followed by the rounding
    bit [r] and the sticky bit [s]. *)
Definition located (m : Z) (r s : bool) (e : Z) (x : R) : Prop :=
  match r, s with
  | false, false => x = IZR m * bpow e
  | false, true => IZR m * bpow e < x < (IZR m + / 2) * bpow e
  | true, false => x = (IZR m + / 2) * bpow e
  | true, true => (IZR m + / 2) * bpow e < x < (IZR m + 1) * bpow e
  end%R.

Definition located_rec (mrs : shr_record) : Z → R → Prop :=
  located (shr_m mrs) (shr_r mrs) (shr_s mrs).

(** A shift by one bit. *)
Lemma shr_1_eq m r s :
  0 ≤ m → shr_1 (Build_shr_record m r s) = Build_shr_record (Z.div2 m) (Z.odd m) (r || s).
Proof. intros Hm. destruct m as [|[p|p|]|p]; try done. Qed.

Lemma shr_1_located mrs e x :
  0 ≤ shr_m mrs → located_rec mrs e x →
  located_rec (shr_1 mrs) (e + 1) x ∧ shr_m (shr_1 mrs) = shr_m mrs / 2.
Proof.
  destruct mrs as [m r s]. intros Hm Hx. cbn [shr_m] in Hm. rewrite shr_1_eq by done.
  split; [|apply Z.div2_div]. unfold located_rec, located in *. cbn [shr_m shr_r shr_s] in *.
  rewrite bpow_succ. pose proof (bpow_pos e) as Hp. pose proof (Zdiv2_odd_eqn m) as Hd.
  set (q := Z.div2 m) in *. clearbody q. rewrite Hd, plus_IZR, mult_IZR in Hx.
  destruct (Z.odd m), r, s; cbn [orb] in *; lra.
Qed.

Lemma shr_located n mrs e x :
  0 ≤ shr_m mrs → located_rec mrs e x →
  located_rec (Nat.iter n shr_1 mrs) (e + Z.of_nat n) x ∧
  shr_m (Nat.iter n shr_1 mrs) = shr_m mrs / 2 ^ Z.of_nat n.
Proof.
  intros Hm Hx. induction n as [|n [IH1 IH2]].
  - change (Z.of_nat 0) with 0. rewrite Z.add_0_r, Z.div_1_r. done.
  - rewrite Nat2Z.inj_succ. unfold Z.succ. rewrite Z.add_assoc. simpl Nat.iter.
    assert (0 ≤ shr_m (Nat.iter n shr_1 mrs)) as Hn.
    { rewrite IH2. apply Z.div_pos; [done|]. apply Z.pow_pos_nonneg; lia. }
    destruct (shr_1_located _ _ _ Hn IH1) as [H1 H2]. split; [done|].
    rewrite H2, IH2, Z.pow_add_r, Z.div_div by (try apply Z.pow_pos_nonneg; lia). done.
Qed.

(** Rounding to nearest. *)
Lemma round_nearest m r s e x :
  0 ≤ m → located m r s e x →
  let m' := round_nearest_even m (loc_of_shr_record (Build_shr_record m r s)) in
  (m' = m ∨ m' = m + 1) ∧ (x - / 2 * bpow e ≤ IZR m' * bpow e ≤ x + / 2 * bpow e)%R.
Proof.
  intros Hm Hx. pose proof (bpow_pos e). unfold located in Hx.
  destruct r, s; simpl in *; [|destruct (Z.even m)| |]; (split; [lia|]);
    rewrite ?plus_IZR; lra.
Qed.

(** ** Values *)

Definition rval (f : float64) : R :=
  match f with
  | S754_finite s m e => IZR (if s then Zneg m else Zpos m) * bpow e
  | S754_infinity _ => bpow 1024
  | _ => 0
  end%R.

(** A mantissa and exponent as the format has them. *)
Definition canonical (m : positive) (e : Z) : Prop :=
  -1074 ≤ e ∧ digits m ≤ 53 ∧ (e = -1074 ∨ digits m = 53).

(** A number of the format that is not negative. *)
Definition nonneg (f : float64) : Prop :=
  match f with
  | S754_zero _ => True
  | S754_infinity s => s = false
  | S754_nan => False
  | S754_finite s m e => s = false ∧ canonical m e ∧ e ≤ 971
  end.

Definition eps : R := bpow (-53).
Definition eta : R := bpow (-1075).

(** [f] is [x] up to the rounding, or infinite. *)
Definition near (f : float64) (x : R) : Prop :=
  (rval f ≤ x * (1 + eps) + eta)%R ∧ (f = f_inf ∨ x * (1 - eps) - eta ≤ rval f)%R.

Lemma shr_eq mrs e n : 0 ≤ n → shr mrs e n = (Nat.iter (Z.to_nat n) shr_1 mrs, e + n).
Proof.
  intros Hn. destruct n as [|p|p]; [simpl; f_equal; lia | | lia].
  unfold shr. by rewrite iter_pos_nat.
Qed.

Lemma Zdigits2_bounds m : 0 < m → 2 ^ (Zdigits2 m - 1) ≤ m < 2 ^ Zdigits2 m.
Proof. destruct m as [|p|p]; [lia | intros _; apply digits_bounds | lia]. Qed.

Lemma fexp_eq d : fexp 53 1024 d = Z.max (d - 53) (-1074).
Proof. done. Qed.

(** The mantissa after the shift. *)
Lemma shifted_bounds mx ex :
  0 ≤ mx → let F := fexp 53 1024 (Zdigits2 mx + ex) in ex ≤ F →
  0 ≤ mx / 2 ^ (F - ex) < 2 ^ 53 ∧ (0 < mx → -1074 < F → 2 ^ 52 ≤ mx / 2 ^ (F - ex)).
Proof.
  intros Hm F Hle. assert (0 < 2 ^ (F - ex)) as Hp by (apply Z.pow_pos_nonneg; lia).
  destruct (Z.eq_dec mx 0) as [->|Hne]; [rewrite Z.div_0_l; lia|].
  pose proof (Zdigits2_bounds mx ltac:(lia)) as [H1 H2]. unfold F in *. rewrite fexp_eq in *.
  assert (1 ≤ Zdigits2 mx) by (destruct mx as [|p|p]; simpl; lia).
  split; [split|].
  - by apply Z.div_pos.
  - apply Z.div_lt_upper_bound; [done|]. eapply Z.lt_le_trans; [exact H2|].
    rewrite <- Z.pow_add_r by lia. apply Z.pow_le_mono_r; lia.
  - intros _ HF. apply Z.div_le_lower_bound; [done|]. rewrite <- Z.pow_add_r by lia.
    eapply Z.le_trans; [|exact H1]. apply Z.pow_le_mono_r; lia.
Qed.

(** The error of half a unit in the last place, relative or absolute. *)
Lemma half_ulp mx ex lx x :
  0 ≤ mx → located_rec (shr_record_of_loc mx lx) ex x → ex ≤ fexp 53 1024 (Zdigits2 mx + ex) →
  (0 ≤ x ∧ / 2 * bpow (fexp 53 1024 (Zdigits2 mx + ex)) ≤ x * eps + eta)%R.
Proof.
  intros Hm Hx Hle. unfold located_rec in Hx. pose proof (bpow_pos ex) as Hp.
  assert (IZR mx * bpow ex ≤ x)%R as Hge.
  { unfold located in Hx. destruct lx as [|[]]; simpl in Hx; lra. }
  assert (0 ≤ IZR mx)%R as Hmr by (apply IZR_le; lia). assert (0 ≤ x)%R as H0 by nra.
  split; [done|]. rewrite fexp_eq in *. pose proof (bpow_pos (-53)). pose proof (bpow_pos (-1075)).
  unfold eps, eta. assert (∀ k, / 2 * bpow k = bpow (k - 1))%R as Hhalf.
  { intros k. replace k with (k - 1 + 1) at 1 by lia. rewrite bpow_succ. lra. }
  rewrite Hhalf.
  destruct (Z.max_spec (Zdigits2 mx + ex - 53) (-1074)) as [[_ ->]|[Hmax Heq]].
  - change (-1074 - 1) with (-1075). nra.
  - rewrite Heq in *. destruct (Z.eq_dec mx 0) as [->|Hne]; [simpl in *; lia|].
    assert (bpow (Zdigits2 mx - 1 + ex) ≤ x)%R as Hd.
    { rewrite bpow_add. pose proof (Zdigits2_bounds mx ltac:(lia)) as [Hd1 _].
      apply IZR_le in Hd1. rewrite <- bpow_IZR in Hd1 by (destruct mx as [|p|p]; simpl; lia). nra. }
    replace (Zdigits2 mx + ex - 53 - 1) with (Zdigits2 mx - 1 + ex + -53) by lia. rewrite bpow_add. nra.
Qed.

Lemma digits_exact p n : 2 ^ (n - 1) ≤ Zpos p → 1 ≤ n → n ≤ digits p.
Proof.
  intros Hp Hn. pose proof (digits_bounds p) as [_ H]. destruct (Z.le_gt_cases n (digits p)); [done|].
  pose proof (digits_pos p). pose proof (Z.pow_le_mono_r 2 (digits p) (n - 1)). lia.
Qed.

(** The second shift of the rounding loses nothing. *)
Lemma second_shift m F :
  0 ≤ m ≤ 2 ^ 53 → -1074 ≤ F → (-1074 < F → 2 ^ 52 ≤ m) →
  ∃ m2 e2, shr_fexp 53 1024 m F loc_Exact = (Build_shr_record m2 false false, e2) ∧
    0 ≤ m2 ∧ (IZR m2 * bpow e2 = IZR m * bpow F)%R ∧
    (∀ p, m2 = Zpos p → canonical p e2) ∧ (-1074 < e2 → 2 ^ 52 ≤ m2).
Proof.
  intros Hm HF Hn. unfold shr_fexp. rewrite fexp_eq.
  destruct (Z.eq_dec m (2 ^ 53)) as [->|Hne].
  - exists (2 ^ 52), (F + 1). change (Zdigits2 (2 ^ 53)) with 54.
    replace (Z.max (54 + F - 53) (-1074) - F) with 1 by lia. split_and!; try done; try lia.
    + rewrite bpow_succ. change (2 ^ 53) with (2 * 2 ^ 52). rewrite mult_IZR. lra.
    + intros p Hp. assert (digits p = 53) as E.
      { apply Z.le_antisymm; [apply digits_le; lia | apply digits_exact; lia]. }
      unfold canonical. rewrite E. lia.
  - exists m, F. assert (Zdigits2 m ≤ 53) as Hd.
    { destruct m as [|p|p]; [simpl; lia | apply digits_le; lia | lia]. }
    assert (shr (shr_record_of_loc m loc_Exact) F (Z.max (Zdigits2 m + F - 53) (-1074) - F)
      = (Build_shr_record m false false, F)) as ->.
    { unfold shr. destruct (_ - F) eqn:E; [done | lia | done]. }
    split_and!; try done; try lia.
    intros p ->. split_and!; [done | done |]. destruct (Z.eq_dec F (-1074)); [by left|right].
    apply Z.le_antisymm; [done|]. apply digits_exact; [apply Hn; lia | lia].
Qed.

(** The rounding of a located value, whose mantissa has all the digits of the format. *)
Lemma round_aux_near mx ex lx x :
  0 ≤ mx → located_rec (shr_record_of_loc mx lx) ex x → ex ≤ fexp 53 1024 (Zdigits2 mx + ex) →
  let f := binary_round_aux 53 1024 false mx ex lx in nonneg f ∧ near f x.
Proof.
  intros Hm Hx Hle f. destruct (half_ulp mx ex lx x Hm Hx Hle) as [Hx0 Hulp].
  set (F := fexp 53 1024 (Zdigits2 mx + ex)) in *.
  destruct (shifted_bounds mx ex Hm Hle) as [Hb Hn]. fold F in Hb, Hn.
  assert (0 ≤ shr_m (shr_record_of_loc mx lx)) as Hm' by (by destruct lx as [|[]]).
  destruct (shr_located (Z.to_nat (F - ex)) _ ex x Hm' Hx) as [Hloc Hsm].
  rewrite Z2Nat.id in Hloc, Hsm by lia. replace (ex + (F - ex)) with F in Hloc by lia.
  assert (shr_fexp 53 1024 mx ex lx = (Nat.iter (Z.to_nat (F - ex)) shr_1 (shr_record_of_loc mx lx), F)) as E1.
  { unfold shr_fexp. fold F. rewrite shr_eq by lia. f_equal. lia. }
  replace (shr_m (shr_record_of_loc mx lx)) with mx in Hsm by (by destruct lx as [|[]]).
  assert (-1074 ≤ F) as HF by (unfold F; rewrite fexp_eq; lia).
  assert (mx = 0 → F = -1074) as H0F.
  { intros ->. unfold F in *. rewrite fexp_eq in *. simpl in *. lia. }
  destruct (Nat.iter _ shr_1 _) as [m r s]. unfold located_rec in Hloc. simpl in Hloc, Hsm. subst m.
  destruct (round_nearest _ r s F x (proj1 Hb) Hloc) as [Hm1 Herr].
  set (m1 := round_nearest_even (mx / 2 ^ (F - ex)) _) in *.
  destruct (second_shift m1 F) as (m2 & e2 & E2 & Hm2 & Hval & Hcan & Hbig); [lia | done | |].
  { intros HF'. assert (2 ^ 52 ≤ mx / 2 ^ (F - ex)); [|lia]. apply Hn; lia. }
  rewrite <- Hval in Herr.
  assert (f = match m2 with
    | Z0 => S754_zero false
    | Zpos m => if e2 <=? 971 then S754_finite false m e2 else S754_infinity false
    | _ => S754_nan end) as Hf.
  { unfold f, binary_round_aux. rewrite E1. simpl shr_m. fold m1. by rewrite E2. }
  destruct m2 as [|p|p]; [| |lia]; rewrite Hf.
  - split; [done|]. unfold near. simpl. split; [lra | right; lra].
  - destruct (Z.leb_spec e2 971) as [He|He].
    + split; [split_and!; [done | by apply Hcan | done]|]. unfold near. simpl. split; [lra | right; lra].
    + split; [done|]. unfold near. split; [|by left]. cbn [rval].
      assert (bpow 1024 ≤ IZR (Zpos p) * bpow e2)%R; [|lra].
      replace 1024 with (52 + 972) by lia. rewrite bpow_add, bpow_IZR by lia.
      specialize (Hbig ltac:(lia)). apply IZR_le in Hbig.
      pose proof (bpow_le 972 e2 ltac:(lia)). pose proof (bpow_pos 972).
      assert (0 < IZR (2 ^ 52))%R by (apply IZR_lt; lia). nra.
Qed.

(** ** Comparisons *)

Lemma rval_pos m e : (0 < IZR (Zpos m) * bpow e)%R.
Proof. pose proof (bpow_pos e). assert (0 < IZR (Zpos m))%R by (apply IZR_lt; lia). nra. Qed.

Lemma rval_nonneg f : nonneg f → (0 ≤ rval f)%R.
Proof.
  destruct f as [s|s| |s m e]; simpl; intros Hf; try lra.
  - pose proof (bpow_pos 1024). lra.
  - destruct Hf as [-> _]. pose proof (rval_pos m e). lra.
Qed.

Lemma mantissa_lt m e : canonical m e → (IZR (Zpos m) * bpow e < bpow (53 + e))%R.
Proof.
  intros (_ & Hd & _). rewrite bpow_add, (bpow_IZR 53) by lia. pose proof (bpow_pos e).
  assert (IZR (Zpos m) < IZR (2 ^ 53))%R; [|nra]. apply IZR_lt.
  pose proof (digits_bounds m). pose proof (Z.pow_le_mono_r 2 (digits m) 53). lia.
Qed.

Lemma rval_lt_inf f : nonneg f → f ≠ f_inf → (rval f < bpow 1024)%R.
Proof.
  destruct f as [s|s| |s m e]; simpl; intros Hf Hne; try (pose proof (bpow_pos 1024); lra).
  - by subst.
  - destruct Hf as (-> & Hc & He). pose proof (mantissa_lt m e Hc). pose proof (bpow_le (53 + e) 1024). 
    assert (bpow (53 + e) ≤ bpow 1024)%R by (apply bpow_le; lia). lra.
Qed.

(** Canonical numbers are ordered by their exponents first. *)
Lemma lt_exponent m1 e1 m2 e2 :
  canonical m1 e1 → canonical m2 e2 → e1 < e2 → (IZR (Zpos m1) * bpow e1 < IZR (Zpos m2) * bpow e2)%R.
Proof.
  intros H1 (Hm & Hd & Hc) He. destruct Hc as [Hc|Hc]; [destruct H1; lia|].
  eapply Rlt_le_trans; [by apply mantissa_lt|]. apply (Rle_trans _ (bpow (52 + e2))); [apply bpow_le; lia|].
  rewrite bpow_add, (bpow_IZR 52) by lia. pose proof (bpow_pos e2).
  assert (IZR (2 ^ 52) ≤ IZR (Zpos m2))%R; [|nra]. apply IZR_le.
  pose proof (digits_bounds m2) as [Hb _]. by rewrite Hc in Hb.
Qed.

Lemma fltb_rval x y : nonneg x → nonneg y → fltb x y = true ↔ (rval x < rval y)%R.
Proof.
  intros Hx Hy. pose proof (bpow_pos 1024) as Hi.
  destruct x as [s|s| |s m e]; [| |by destruct Hx|]; destruct y as [s'|s'| |s' m' e']; try (by destruct Hy);
    simpl in Hx, Hy; repeat match goal with H : _ ∧ _ |- _ => destruct H end; subst;
    unfold fltb, SFltb; simpl.
  - split; [done | lra].
  - by split.
  - pose proof (rval_pos m' e'). by split.
  - split; [done | lra].
  - split; [done | lra].
  - split; [done|]. pose proof (rval_lt_inf (S754_finite false m' e')) as H. simpl in H.
    assert (IZR (Zpos m') * bpow e' < bpow 1024)%R by (by apply H). lra.
  - pose proof (rval_pos m e). split; [done | lra].
  - split; [|done]. intros _. by apply (rval_lt_inf (S754_finite false m e)).
  - destruct (Z.compare_spec e e') as [->|He|He].
    + change (Pos.compare_cont Eq m m') with (m ?= m')%positive. pose proof (bpow_pos e').
      destruct (Pos.compare_spec m m') as [->|Hm|Hm].
      * split; [done | lra].
      * split; [|done]. intros _. assert (IZR (Zpos m) < IZR (Zpos m'))%R by (apply IZR_lt; lia). nra.
      * split; [done|]. assert (IZR (Zpos m') < IZR (Zpos m))%R by (apply IZR_lt; lia). nra.
    + split; [|done]. intros _. by apply lt_exponent.
    + split; [done|]. assert (IZR (Zpos m') * bpow e' < IZR (Zpos m) * bpow e)%R by (by apply lt_exponent). lra.
Qed.

Lemma nonneg_not_nan f : nonneg f → f ≠ S754_nan.
Proof. by destruct f. Qed.

Lemma fleb_rval x y : nonneg x → nonneg y → fleb x y = true ↔ (rval x ≤ rval y)%R.
Proof.
  intros Hx Hy. unfold fleb. rewrite SFleb_ltb by (by apply nonneg_not_nan).
  change SFltb with fltb. rewrite negb_true_iff, <- not_true_iff_false, (fltb_rval y x) by done.
  split; lra.
Qed.

(** ** Operations *)

Lemma shl_align_value m e ez :
  ez ≤ e → (IZR (Zpos (fst (shl_align m e ez))) * bpow ez = IZR (Zpos m) * bpow e)%R.
Proof.
  intros He. unfold shl_align. destruct (ez - e) as [|n|n] eqn:En; simpl; [f_equal; f_equal; lia | lia|].
  assert (Pos.iter xO m n = shl m (Pos.to_nat n)) as -> by (unfold shl; by rewrite Pos2Nat.inj_iter).
  rewrite shl_Z, mult_IZR, <- bpow_IZR, positive_nat_Z by lia.
  replace e with (Zpos n + ez) by lia. rewrite bpow_add. lra.
Qed.

Lemma binary_round_near m e :
  let f := binary_round 53 1024 false m e in nonneg f ∧ near f (IZR (Zpos m) * bpow e).
Proof.
  unfold binary_round. change (Z.pos (digits2_pos m)) with (digits m).
  set (F := fexp 53 1024 (digits m + e)). unfold shl_align.
  destruct (F - e) as [|n|n] eqn:En.
  - apply round_aux_near; [done | done |]. change (Zdigits2 (Zpos m)) with (digits m). fold F. lia.
  - apply round_aux_near; [done | done |]. change (Zdigits2 (Zpos m)) with (digits m). fold F. lia.
  - assert (Pos.iter xO m n = shl m (Pos.to_nat n)) as -> by (unfold shl; by rewrite Pos2Nat.inj_iter).
    apply round_aux_near; [done| |].
    + unfold located_rec, located. simpl. rewrite shl_Z, mult_IZR, <- bpow_IZR, positive_nat_Z by lia.
      replace e with (Zpos n + F) by lia. rewrite bpow_add. lra.
    + rewrite Zdigits2_shl. replace (digits m + Z.of_nat (Pos.to_nat n) + F) with (digits m + e) by lia. done.
Qed.

Lemma near_exact f : nonneg f → near f (rval f).
Proof.
  intros Hf. pose proof (rval_nonneg f Hf). pose proof (bpow_pos (-53)). pose proof (bpow_pos (-1075)).
  unfold near, eps, eta. split; [nra | right; nra].
Qed.

Lemma near_inf x : (bpow 1024 ≤ x)%R → near f_inf x.
Proof.
  intros Hx. pose proof (bpow_pos 1024). pose proof (bpow_pos (-53)). pose proof (bpow_pos (-1075)).
  unfold near, eps, eta. simpl. split; [nra | by left].
Qed.

Lemma binary_normalize_near z e :
  0 ≤ z → let f := binary_normalize 53 1024 z e false in nonneg f ∧ near f (IZR z * bpow e).
Proof.
  intros Hz. destruct z as [|m|m]; [|apply binary_round_near | lia]. simpl. split; [done|].
  rewrite Rmult_0_l. by apply (near_exact (S754_zero false)).
Qed.

Lemma fadd_near x y : nonneg x → nonneg y → nonneg (fadd x y) ∧ near (fadd x y) (rval x + rval y).
Proof.
  intros Hx Hy. pose proof (rval_nonneg x Hx). pose proof (rval_nonneg y Hy).
  destruct x as [s|s| |s m e]; [| |by destruct Hx|]; destruct y as [s'|s'| |s' m' e']; try (by destruct Hy);
    simpl in Hx, Hy; repeat match goal with H : _ ∧ _ |- _ => destruct H end; subst.
  - assert (∃ s'', fadd (S754_zero s) (S754_zero s') = S754_zero s'') as [s'' ->] by (destruct s, s'; by eexists).
    split; [done|]. simpl rval. rewrite Rplus_0_l. by apply (near_exact (S754_zero s'')).
  - split; [done|]. apply near_inf. simpl in *. lra.
  - split; [done|]. simpl rval at 1. rewrite Rplus_0_l. by apply (near_exact (S754_finite false m' e')).
  - split; [done|]. apply near_inf. simpl in *. lra.
  - split; [done|]. apply near_inf. simpl in *. lra.
  - split; [done|]. apply near_inf. simpl in *. lra.
  - split; [done|]. simpl rval at 2. rewrite Rplus_0_r. by apply (near_exact (S754_finite false m e)).
  - split; [done|]. apply near_inf. simpl in *. lra.
  - unfold fadd, SFadd, cond_Zopp. set (ez := Z.min e e'). simpl rval.
    rewrite <- (shl_align_value m e ez), <- (shl_align_value m' e' ez), <- Rmult_plus_distr_r, <- plus_IZR by lia.
    apply binary_normalize_near. lia.
Qed.

Lemma fsub_near x y :
  nonneg x → nonneg y → x ≠ f_inf → (rval y ≤ rval x)%R →
  nonneg (fsub x y) ∧ near (fsub x y) (rval x - rval y).
Proof.
  intros Hx Hy Hne Hle. pose proof (rval_lt_inf x Hx Hne) as Hi.
  destruct x as [s|s| |s m e]; [|simpl in *; by subst|by destruct Hx|];
    (destruct y as [s'|s'| |s' m' e']; [|simpl in *; lra|by destruct Hy|]);
    simpl in Hx, Hy; repeat match goal with H : _ ∧ _ |- _ => destruct H end; subst.
  - assert (∃ s'', fsub (S754_zero s) (S754_zero s') = S754_zero s'') as [s'' ->] by (destruct s, s'; by eexists).
    split; [done|]. simpl rval. rewrite Rminus_0_r. by apply (near_exact (S754_zero s'')).
  - pose proof (rval_pos m' e'). simpl in *. lra.
  - split; [done|]. simpl rval at 2. rewrite Rminus_0_r. by apply (near_exact (S754_finite false m e)).
  - unfold fsub, SFsub, cond_Zopp. set (ez := Z.min e e'). simpl rval in *.
    rewrite <- (shl_align_value m e ez), <- (shl_align_value m' e' ez) in * by lia.
    rewrite <- Rmult_minus_distr_r, <- minus_IZR. apply binary_normalize_near.
    pose proof (bpow_pos ez). apply Z.le_0_sub, le_IZR. nra.
Qed.

Lemma fmul_near x y :
  nonneg x → nonneg y → x ≠ f_inf → y ≠ f_inf → nonneg (fmul x y) ∧ near (fmul x y) (rval x * rval y).
Proof.
  intros Hx Hy Hnx Hny.
  assert (∀ s, nonneg (S754_zero s) ∧ near (S754_zero s) 0) as Hz
    by (intros s; split; [done | by apply (near_exact (S754_zero s))]).
  destruct x as [s|s| |s m e]; [|simpl in *; by subst|by destruct Hx|];
    (destruct y as [s'|s'| |s' m' e']; [|simpl in *; by subst|by destruct Hy|]);
    simpl in Hx, Hy; repeat match goal with H : _ ∧ _ |- _ => destruct H end; subst;
    simpl rval; rewrite ?Rmult_0_l, ?Rmult_0_r; try apply Hz.
  unfold fmul, SFmul. simpl xorb.
  replace (IZR (Zpos m) * bpow e * (IZR (Zpos m') * bpow e'))%R with (IZR (Zpos (m * m')) * bpow (e + e'))%R
    by (rewrite Pos2Z.inj_mul, mult_IZR, bpow_add; lra).
  apply round_aux_near; [done | done|]. change (Zdigits2 (Zpos (m * m'))) with (digits (m * m')).
  rewrite fexp_eq. repeat match goal with H : canonical _ _ |- _ => destruct H as (? & ? & ?) end.
  pose proof (digits_pos m). pose proof (digits_pos m').
  assert (digits m ≤ digits (m * m') ∧ digits m' ≤ digits (m * m')).
  { pose proof (digits_bounds m). pose proof (digits_bounds m'). 
    split; (apply digits_exact; [rewrite Pos2Z.inj_mul; nia | lia]). }
  lia.
Qed.

(** The remainder of a division tells where the quotient is. *)
Lemma new_location_located q nb k e :
  0 ≤ k < nb →
  located_rec (shr_record_of_loc q (new_location nb k)) e ((IZR q + IZR k / IZR nb) * bpow e).
Proof.
  intros Hk. pose proof (bpow_pos e) as Hp. assert (0 < IZR nb)%R as Hnb by (apply IZR_lt; lia).
  assert (∀ c, (c = Lt → 2 * k < nb) → (c = Eq → 2 * k = nb) → (c = Gt → nb < 2 * k) → k ≠ 0 →
    located_rec (shr_record_of_loc q (loc_Inexact c)) e ((IZR q + IZR k / IZR nb) * bpow e)) as Hc.
  { intros c HL HE HG Hk0. set (f := (IZR k / IZR nb)%R).
    assert (f * IZR nb = IZR k)%R as Hf by (unfold f; field; lra). clearbody f.
    assert (0 < IZR k < IZR nb)%R as [H0 H1] by (split; apply IZR_lt; lia).
    assert (0 < f < 1)%R as Hf01 by (split; nra). unfold located_rec, located.
    destruct c; simpl.
    - specialize (HE eq_refl). apply (f_equal IZR) in HE. rewrite mult_IZR in HE.
      assert (f = / 2)%R as -> by (apply (Rmult_eq_reg_r (IZR nb)); lra). reflexivity.
    - specialize (HL eq_refl). apply IZR_lt in HL. rewrite mult_IZR in HL.
      assert (f < / 2)%R by nra. split; nra.
    - specialize (HG eq_refl). apply IZR_lt in HG. rewrite mult_IZR in HG.
      assert (/ 2 < f)%R by nra. split; nra. }
  destruct (Z.eq_dec k 0) as [->|Hk0].
  { assert (new_location nb 0 = loc_Exact) as ->.
    { unfold new_location. by destruct (Z.even nb). }
    unfold located_rec, located. simpl. unfold Rdiv. by rewrite Rmult_0_l, Rplus_0_r. }
  unfold new_location, new_location_even, new_location_odd.
  destruct (Z.even nb) eqn:Ev; rewrite (proj2 (Z.eqb_neq k 0)) by done.
  - apply Hc; [| | |done]; destruct (Z.compare_spec (2 * k) nb); intros HL; done.
  - assert (Z.odd nb = true) as [j Hj]%Z.odd_spec by (rewrite <- Z.negb_even, Ev; done).
    apply Hc; [| | |done]; destruct (Z.compare_spec (2 * k + 1) nb); intros HL; first [done | lia].
Qed.

Lemma quotient_digits m1 m2 s :
  0 ≤ s → digits m1 + s - digits m2 ≤ Zdigits2 (Zpos m1 * 2 ^ s / Zpos m2).
Proof.
  intros Hs. set (q := Zpos m1 * 2 ^ s / Zpos m2).
  assert (0 ≤ q) as Hq by (apply Z.div_pos; [apply Z.mul_nonneg_nonneg; [lia | apply Z.pow_nonneg; lia] | lia]).
  assert (0 ≤ Zdigits2 q) by (destruct q as [|p|p]; simpl; lia).
  destruct (Z.le_gt_cases (digits m1 + s - digits m2) 0); [lia|].
  assert (2 ^ (digits m1 + s - digits m2 - 1) ≤ q) as Hge.
  { apply Z.div_le_lower_bound; [lia|]. pose proof (digits_bounds m1) as [H1 _].
    pose proof (digits_bounds m2) as [_ H2]. pose proof (digits_pos m1). pose proof (digits_pos m2).
    assert (0 < 2 ^ (digits m1 + s - digits m2 - 1)) by (apply Z.pow_pos_nonneg; lia).
    apply (Z.le_trans _ (2 ^ digits m2 * 2 ^ (digits m1 + s - digits m2 - 1))); [nia|].
    rewrite <- Z.pow_add_r by lia. replace (digits m2 + _) with (digits m1 - 1 + s) by lia.
    rewrite Z.pow_add_r by lia. pose proof (Z.pow_pos_nonneg 2 s ltac:(lia) ltac:(lia)). nia. }
  destruct q as [|p|p]; [|apply digits_exact; lia | lia].
  pose proof (Z.pow_pos_nonneg 2 (digits m1 + s - digits m2 - 1) ltac:(lia) ltac:(lia)). lia.
Qed.

Lemma fdiv_near x y :
  nonneg x → nonneg y → x ≠ f_inf → y ≠ f_inf → (0 < rval y)%R →
  nonneg (fdiv x y) ∧ near (fdiv x y) (rval x / rval y).
Proof.
  intros Hx Hy Hnx Hny Hpos.
  destruct y as [s'|s'| |s' m2 e2]; [simpl in Hpos; lra|simpl in *; by subst|by destruct Hy|].
  destruct Hy as (-> & Hc2 & He2).
  destruct x as [s|s| |s m1 e1]; [|simpl in *; by subst|by destruct Hx|].
  { split; [done|]. simpl rval at 1. unfold Rdiv. rewrite Rmult_0_l. by apply (near_exact (S754_zero (xorb s false))). }
  destruct Hx as (-> & Hc1 & He1). unfold fdiv, SFdiv, SFdiv_core_binary. simpl xorb.
  change (Zdigits2 (Zpos m1)) with (digits m1). change (Zdigits2 (Zpos m2)) with (digits m2).
  set (e' := Z.min (fexp 53 1024 (digits m1 + e1 - (digits m2 + e2))) (e1 - e2)).
  set (sh := e1 - e2 - e'). assert (0 ≤ sh) as Hsh by lia.
  assert (match sh with 0 => Zpos m1 | Zpos _ => Z.shiftl (Zpos m1) sh | Zneg _ => 0 end = Zpos m1 * 2 ^ sh) as ->.
  { destruct sh as [|n|n] eqn:En; [lia | apply Z.shiftl_mul_pow2; lia | lia]. }
  set (a := Zpos m1 * 2 ^ sh). pose proof (quotient_digits m1 m2 sh Hsh) as Hq. fold a in Hq.
  assert (0 ≤ a) as Ha by (apply Z.mul_nonneg_nonneg; [lia | apply Z.pow_nonneg; lia]).
  rewrite (surjective_pairing (Z.div_eucl a (Zpos m2))).
  change (Z.div_eucl a (Zpos m2)).1 with (a / Zpos m2). change (Z.div_eucl a (Zpos m2)).2 with (a mod Zpos m2).
  assert (rval (S754_finite false m1 e1) / rval (S754_finite false m2 e2)
    = (IZR (a / Zpos m2) + IZR (a mod Zpos m2) / IZR (Zpos m2)) * bpow e')%R as ->.
  { pose proof (Z.div_mod a (Zpos m2) ltac:(lia)) as Hdm. apply (f_equal IZR) in Hdm.
    rewrite plus_IZR, mult_IZR in Hdm. assert (0 < IZR (Zpos m2))%R by (apply IZR_lt; lia).
    simpl rval. pose proof (bpow_pos e2).
    assert (IZR a * bpow e' * bpow e2 = IZR (Zpos m1) * bpow e1)%R as Hv.
    { unfold a. rewrite mult_IZR, <- bpow_IZR, !Rmult_assoc, <- !bpow_add by done. do 2 f_equal. lia. }
    apply (Rmult_eq_reg_r (IZR (Zpos m2) * bpow e2)); [|apply Rgt_not_eq, Rmult_lt_0_compat; done].
    unfold Rdiv.
    transitivity (IZR (Zpos m1) * bpow e1)%R; [field; split; lra|]. rewrite <- Hv, Hdm. field. lra. }
  apply round_aux_near.
  - by apply Z.div_pos.
  - apply new_location_located. by apply Z.mod_pos_bound.
  - assert (e' ≤ fexp 53 1024 (digits m1 + e1 - (digits m2 + e2))) as He' by lia.
    rewrite fexp_eq in *. lia.
Qed.

(** ** Integers and durations *)

Lemma f_of_Z_value z : exact_int z → nonneg (f_of_Z z) ∧ rval (f_of_Z z) = IZR z ∧ f_of_Z z ≠ f_inf.
Proof.
  intros Hz. destruct z as [|p|p]; [done| |by destruct Hz].
  rewrite f_of_pos by done. pose proof (exact_digits p Hz). pose proof (digits_pos p). split_and!; [|simpl|done].
  - split; [done|]. unfold canonical. rewrite digits_shl. lia.
  - rewrite shl_Z, mult_IZR, <- bpow_IZR, Rmult_assoc, <- bpow_add by lia.
    replace (Z.of_nat (Z.to_nat (53 - digits p)) + (digits p - 53)) with 0 by lia. unfold bpow. simpl. lra.
Qed.

(** ** The size of the errors *)

Lemma eps_eq : eps = (/ 9007199254740992)%R.
Proof.
  assert (eps * bpow 53 = 1)%R as H by (unfold eps; by rewrite <- bpow_add).
  rewrite bpow_IZR in H by lia. change (2 ^ 53) with 9007199254740992 in H. lra.
Qed.

Lemma eta_bounds : (0 < eta ∧ eta ≤ eps * eps)%R.
Proof.
  unfold eta, eps. split; [apply bpow_pos|]. rewrite <- bpow_add. apply bpow_le. lia.
Qed.

(** Even the largest number has a negligible product with the smallest. *)
Lemma eta_product f : nonneg f → f ≠ f_inf → (0 ≤ rval f * eta ≤ 4 * eps)%R.
Proof.
  intros Hf Hne. pose proof (rval_nonneg f Hf). pose proof (rval_lt_inf f Hf Hne).
  pose proof eta_bounds as [He _]. split; [nra|].
  apply (Rle_trans _ (bpow 1024 * eta)); [nra|]. unfold eta, eps. rewrite <- bpow_add.
  replace 4%R with (bpow 2) by (unfold bpow; simpl; lra). rewrite <- bpow_add. apply bpow_le. lia.
Qed.

Lemma near_finite f x : near f x → (x * (1 + eps) + eta < bpow 1024)%R → f ≠ f_inf.
Proof. intros [H _] Hx ->. change (rval f_inf) with (bpow 1024) in H. lra. Qed.

Lemma bpow_1024_large : (IZR (2 ^ 64) ≤ bpow 1024)%R.
Proof. rewrite <- bpow_IZR by lia. apply bpow_le. lia. Qed.

(** The seconds of a nanosecond count, as real numbers. *)
Definition seconds_of (d : Z) : R := (IZR d / 1000000000)%R.

Lemma seconds_of_nonneg d : 0 ≤ d → (0 ≤ seconds_of d)%R.
Proof. intros Hd%IZR_le. unfold seconds_of. lra. Qed.

Lemma seconds_of_le a b : a ≤ b → (seconds_of a ≤ seconds_of b)%R.
Proof. intros Hd%IZR_le. unfold seconds_of. lra. Qed.

Lemma seconds_of_add a b : seconds_of (a + b) = (seconds_of a + seconds_of b)%R.
Proof. unfold seconds_of. rewrite plus_IZR. lra. Qed.

(** [Seconds] is right up to three roundings. *)
Lemma Duration_Seconds_near d :
  0 ≤ d ≤ int64_max →
  let f := Duration_Seconds d in
  nonneg f ∧ f ≠ f_inf ∧
  (seconds_of d * (1 - 3 * eps) - 3 * eta ≤ rval f ≤ seconds_of d * (1 + 3 * eps) + 3 * eta)%R.
Proof.
  intros Hd. unfold Duration_Seconds, seconds_of, int64_max, Second in *.
  rewrite Z.quot_div_nonneg, Z.rem_mod_nonneg by lia.
  pose proof (Z.div_mod d 1000000000 ltac:(lia)) as Hdm.
  pose proof (Z.mod_pos_bound d 1000000000 ltac:(lia)) as Hn.
  assert (0 ≤ d / 1000000000 ≤ 9223372036854775807) as Hs by lia.
  assert (exact_int (d / 1000000000)) as Hse by (unfold exact_int; lia).
  set (s := d / 1000000000) in *. set (n := d mod 1000000000) in *. clearbody s n.
  destruct (f_of_Z_value s Hse) as (Hs1 & Hs2 & _).
  destruct (f_of_Z_value n ltac:(unfold exact_int; lia)) as (Hn1 & Hn2 & Hn3).
  destruct (f_of_Z_value 1000000000 ltac:(unfold exact_int; lia)) as (Hc1 & Hc2 & Hc3).
  destruct (fdiv_near (f_of_Z n) (f_of_Z 1000000000)) as [Hq Hqv]; [done..|rewrite Hc2; lra|].
  rewrite Hn2, Hc2 in Hqv. set (q := fdiv _ _) in *. clearbody q.
  destruct (fadd_near (f_of_Z s) q Hs1 Hq) as [Hf Hfv]. rewrite Hs2 in Hfv.
  set (f := fadd _ _) in *. clearbody f. subst d. rewrite plus_IZR, mult_IZR.
  assert (0 ≤ IZR n ≤ 1000000000)%R as Hnr by (split; apply IZR_le; lia).
  assert (0 ≤ IZR s ≤ 9223372036854775807)%R as Hsr by (split; apply IZR_le; lia).
  pose proof eta_bounds. pose proof bpow_1024_large as Hbig. change (2 ^ 64) with 18446744073709551616 in Hbig.
  rewrite eps_eq in *.
  assert (q ≠ f_inf) as Hqi by (apply (near_finite _ _ Hqv); rewrite eps_eq; lra).
  destruct Hqv as [Hq1 [Hq2|Hq2]]; [done|]. rewrite eps_eq in *.
  assert (f ≠ f_inf) as Hfi by (apply (near_finite _ _ Hfv); rewrite eps_eq; lra).
  destruct Hfv as [Hf1 [Hf2|Hf2]]; [done|]. rewrite eps_eq in *. split_and!; [done..|lra|lra].
Qed.
