(* ===== verification/GoString.v ===== *)
(** * Strings

    A Go string, and a [[]byte], is a Coq string: a sequence of bytes.  The functions of
    package [strings] that toolops uses, on the arguments it uses them with (separators
    are not empty), with their laws. *)

From Stdlib Require Import Ascii String.
From S2P Require Import Prelude.
Local Open Scope nat_scope.
Local Open Scope stdpp_scope.

Abbreviation bytes := string.

(** ** Bytes *)

Definition byte (n : nat) : ascii := ascii_of_nat n.
Definition quote : string := String (byte 34) "".
Definition backslash : string := String (byte 92) "".

Lemma append_assoc (s1 s2 s3 : string) : (s1 +:+ s2) +:+ s3 = s1 +:+ s2 +:+ s3.
Proof. induction s1 as [|c s1 IH]; [done|]. change (String c ((s1 +:+ s2) +:+ s3) = String c (s1 +:+ s2 +:+ s3)). by rewrite IH. Qed.

Lemma append_nil_r (s : string) : s +:+ "" = s.
Proof. induction s as [|c s IH]; [done|]. change (String c (s +:+ "") = String c s). by rewrite IH. Qed.

Lemma length_append (s1 s2 : string) : String.length (s1 +:+ s2) = String.length s1 + String.length s2.
Proof. induction s1 as [|c s1 IH]; [done|]. simpl. by rewrite <- IH. Qed.

(** Strings that agree on a suffix of one length. *)
Lemma append_inj_r (s1 s2 t1 t2 : string) :
  s1 +:+ t1 = s2 +:+ t2 → String.length t1 = String.length t2 → s1 = s2 ∧ t1 = t2.
Proof.
  revert s2. induction s1 as [|c s1 IH]; intros [|d s2] H Hl; [done| | |].
  - exfalso. change (t1 = String d (s2 +:+ t2)) in H. subst.
    simpl in Hl. rewrite length_append in Hl. lia.
  - exfalso. change (String c (s1 +:+ t1) = t2) in H. subst.
    simpl in Hl. rewrite length_append in Hl. lia.
  - change (String c (s1 +:+ t1) = String d (s2 +:+ t2)) in H. injection H as -> H.
    destruct (IH s2 H Hl) as [-> ->]. done.
Qed.

(** ** Prefixes and suffixes *)

(** The rest of [s] after the prefix [p]. *)
Fixpoint strip (p s : string) : option string :=
  match p, s with
  | EmptyString, _ => Some s
  | String c p, String d s => if bool_decide (c = d) then strip p s else None
  | String _ _, EmptyString => None
  end.

Definition HasPrefix (s p : string) : bool := bool_decide (is_Some (strip p s)).
Definition TrimPrefix (s p : string) : string := default s (strip p s).
(** [strings.CutPrefix]: [None] when the prefix is not found. *)
Definition CutPrefix (s p : string) : option string := strip p s.

Definition HasSuffix (s p : string) : bool := HasPrefix (String.rev s) (String.rev p).
Definition TrimSuffix (s p : string) : string := String.rev (TrimPrefix (String.rev s) (String.rev p)).

Lemma strip_spec p s r : strip p s = Some r ↔ s = p +:+ r.
Proof.
  revert s. induction p as [|c p IH]; intros s.
  - simpl. change ("" +:+ r) with r. split; congruence.
  - change (String c p +:+ r) with (String c (p +:+ r)). destruct s as [|d s]; simpl; [done|].
    case_bool_decide as E; [subst; rewrite IH; split; congruence | split; congruence].
Qed.

Lemma strip_append p s : strip p (p +:+ s) = Some s.
Proof. by apply strip_spec. Qed.

Lemma HasPrefix_spec s p : HasPrefix s p = true ↔ ∃ r, s = p +:+ r.
Proof.
  unfold HasPrefix. rewrite bool_decide_eq_true. unfold is_Some.
  split; intros [r Hr]; exists r; by apply strip_spec.
Qed.

Lemma rev_app_append s t u : String.rev_app (s +:+ t) u = String.rev_app t (String.rev_app s u).
Proof. revert u. induction s as [|c s IH]; intros u; [done|]. apply (IH (String c u)). Qed.

Lemma rev_app_spec s t : String.rev_app s t = String.rev s +:+ t.
Proof.
  revert t. induction s as [|c s IH]; intros t; [done|].
  unfold String.rev. simpl. rewrite IH, (IH (String c "")), append_assoc. done.
Qed.

Lemma rev_append s t : String.rev (s +:+ t) = String.rev t +:+ String.rev s.
Proof. unfold String.rev. by rewrite rev_app_append, rev_app_spec. Qed.

Lemma rev_rev s : String.rev (String.rev s) = s.
Proof.
  induction s as [|c s IH]; [done|].
  change (String c s) with (String c "" +:+ s) at 1.
  by rewrite rev_append, rev_append, IH.
Qed.

Lemma HasSuffix_spec s p : HasSuffix s p = true ↔ ∃ r, s = r +:+ p.
Proof.
  unfold HasSuffix. rewrite HasPrefix_spec. split; intros [r Hr]; exists (String.rev r).
  - by rewrite <- (rev_rev s), Hr, rev_append, rev_rev.
  - by rewrite Hr, rev_append.
Qed.

Lemma TrimSuffix_append s p : TrimSuffix (s +:+ p) p = s.
Proof. unfold TrimSuffix, TrimPrefix. rewrite rev_append, strip_append. apply rev_rev. Qed.

(** ** Splitting *)

(** [strings.Cut]: the parts around the first occurrence of [sep]. *)
Fixpoint cut (sep s : string) : option (string * string) :=
  match strip sep s with
  | Some r => Some ("", r)
  | None =>
      match s with
      | EmptyString => None
      | String c s =>
          match cut sep s with
          | Some (a, b) => Some (String c a, b)
          | None => None
          end
      end
  end.

Definition Contains (s sub : string) : bool := bool_decide (is_Some (cut sub s)).

Fixpoint split_go (fuel : nat) (sep s : string) : list string :=
  match fuel with
  | O => [s]
  | S fuel =>
      match cut sep s with
      | Some (a, b) => a :: split_go fuel sep b
      | None => [s]
      end
  end.

(** Every part removes a separator, so that the length of [s] is fuel enough. *)
Definition Split (s sep : string) : list string := split_go (String.length s) sep s.

(** [strings.SplitN(s, sep, 2)] *)
Definition SplitN2 (s sep : string) : list string :=
  match cut sep s with Some (a, b) => [a; b] | None => [s] end.

Fixpoint Join (l : list string) (sep : string) : string :=
  match l with
  | [] => ""
  | [s] => s
  | s :: l => s +:+ sep +:+ Join l sep
  end.

Definition ReplaceAll (s old new : string) : string := Join (Split s old) new.

Lemma cut_spec sep s a b : cut sep s = Some (a, b) → s = a +:+ sep +:+ b.
Proof.
  revert a. induction s as [|c s IH]; intros a H; simpl in H.
  - destruct (strip sep "") as [r|] eqn:E; [|done]. simplify_eq. by apply strip_spec in E.
  - destruct (strip sep (String c s)) as [r|] eqn:E.
    + simplify_eq. by apply strip_spec in E.
    + destruct (cut sep s) as [[a' b']|]; [|done]. simplify_eq.
      change (String c a' +:+ sep +:+ b) with (String c (a' +:+ sep +:+ b)).
      by rewrite (IH a' eq_refl) at 1.
Qed.

Lemma split_go_nonempty fuel sep s : split_go fuel sep s ≠ [].
Proof. destruct fuel; simpl; [done|]. by destruct (cut sep s) as [[]|]. Qed.

Lemma Join_cons s l sep : l ≠ [] → Join (s :: l) sep = s +:+ sep +:+ Join l sep.
Proof. by destruct l. Qed.

Lemma Join_Split s sep : Join (Split s sep) sep = s.
Proof.
  unfold Split. generalize (String.length s). intros fuel. revert s.
  induction fuel as [|fuel IH]; intros s; [done|]. simpl.
  destruct (cut sep s) as [[a b]|] eqn:E; [|done].
  rewrite Join_cons by apply split_go_nonempty. rewrite IH. by apply cut_spec in E.
Qed.

(** A string without the separator is one part. *)
Lemma Split_whole s sep : cut sep s = None → Split s sep = [s].
Proof. intros H. unfold Split. destruct (String.length s); simpl; [done | by rewrite H]. Qed.

(** A string all of whose bytes satisfy [f]. *)
Fixpoint string_all (f : ascii → bool) (s : string) : bool :=
  match s with EmptyString => true | String c s => f c && string_all f s end.

Definition without (c : ascii) (s : string) : bool :=
  string_all (λ d, negb (bool_decide (d = c))) s.

(** Cutting at a separator of one byte. *)
Lemma cut_byte c a b :
  without c a = true → cut (String c "") (a +:+ String c b) = Some (a, b).
Proof.
  induction a as [|d a IH]; intros Ha.
  - change ("" +:+ String c b) with (String c b). simpl. by rewrite bool_decide_true.
  - unfold without in *. simpl in Ha. apply andb_true_iff in Ha as [Hd Ha].
    change (String d a +:+ String c b) with (String d (a +:+ String c b)). simpl.
    zbool. rewrite IH by done. by rewrite bool_decide_false by congruence.
Qed.

Lemma cut_byte_none c s : without c s = true → cut (String c "") s = None.
Proof.
  induction s as [|d s IH]; intros Hs; [done|].
  unfold without in *. simpl in *. apply andb_true_iff in Hs as [Hd Hs].
  zbool. rewrite IH by done. by rewrite bool_decide_false by congruence.
Qed.

(** ** White space *)

(** The UTF-8 encodings of the runes for which [unicode.IsSpace] holds. *)
Definition utf8 (l : list nat) : string := foldr (λ n s, String (byte n) s) "" l.

Definition space_runes : list string :=
  utf8 <$> ([[9]; [10]; [11]; [12]; [13]; [32]; [194; 133]; [194; 160]; [225; 154; 128];
    [226; 128; 168]; [226; 128; 169]; [226; 128; 175]; [226; 129; 159]; [227; 128; 128]]
    ++ ((λ n, [226; 128; n]) <$> seq 128 11)).

(** The rest of [s] after a leading element of [l]. *)
Definition strip_any (l : list string) (s : string) : option string :=
  foldr (λ p acc, match strip p s with Some r => Some r | None => acc end) None l.

Fixpoint trim_go (fuel : nat) (l : list string) (s : string) : string :=
  match fuel with
  | O => s
  | S fuel => match strip_any l s with Some r => trim_go fuel l r | None => s end
  end.

(** Removes the elements of [l] in front of [s]; each has at least one byte. *)
Definition trim_left (l : list string) (s : string) : string := trim_go (String.length s) l s.

Definition TrimSpace (s : string) : string :=
  let s := trim_left space_runes s in
  String.rev (trim_left (String.rev <$> space_runes) (String.rev s)).

(** ** Characters *)

Definition is_upper (c : ascii) : bool := (65 <=? nat_of_ascii c) && (nat_of_ascii c <=? 90).

Definition lower_byte (c : ascii) : ascii :=
  if is_upper c then byte (nat_of_ascii c + 32) else c.

(** [strings.ToLower], up to the encoding of the result outside of ASCII: the upper-case
    ASCII letters, and the two other runes whose lower case is an ASCII letter (U+0130,
    a dotted I, and U+212A, the Kelvin sign).  The lower case of any other rune is not
    ASCII; its bytes are left as they are, and a comparison of the result with an ASCII
    string has the answer of the Go function. *)
Fixpoint ToLower (s : string) : string :=
  match s with
  | EmptyString => EmptyString
  | String c s' =>
      if bool_decide (c = byte 196) then
        match s' with
        | String d r => if bool_decide (d = byte 176) then String "i" (ToLower r) else String c (ToLower s')
        | EmptyString => s
        end
      else if bool_decide (c = byte 226) then
        match s' with
        | String d (String e r) =>
            if bool_decide (d = byte 132) && bool_decide (e = byte 170)
            then String "k" (ToLower r) else String c (ToLower s')
        | _ => String c (ToLower s')
        end
      else String (lower_byte c) (ToLower s')
  end.

Fixpoint string_any (f : ascii → bool) (s : string) : bool :=
  match s with EmptyString => false | String c s => f c || string_any f s end.

(** [strings.ContainsAny(s, chars)] for ASCII [chars]. *)
Definition ContainsAny (s chars : string) : bool :=
  string_any (λ c, string_any (λ d, bool_decide (c = d)) chars) s.

Fixpoint string_take (n : nat) (s : string) : string :=
  match n, s with
  | S n, String c s => String c (string_take n s)
  | _, _ => ""
  end.

Fixpoint string_drop (n : nat) (s : string) : string :=
  match n, s with
  | S n, String _ s => string_drop n s
  | _, _ => s
  end.

Lemma take_drop_string n s : string_take n s +:+ string_drop n s = s.
Proof.
  revert s. induction n as [|n IH]; intros [|c s]; [done..|].
  change (String c (string_take n s +:+ string_drop n s) = String c s). by rewrite IH.
Qed.

Lemma length_string_take n s : (n ≤ String.length s)%nat → String.length (string_take n s) = n.
Proof.
  revert s. induction n as [|n IH]; intros [|c s] Hl; simpl in *; [done|done|lia|].
  by rewrite IH by lia.
Qed.

Lemma string_take_app s t : string_take (String.length s) (s +:+ t) = s.
Proof.
  induction s as [|c s IH]; [by destruct t|].
  change (String c (string_take (String.length s) (s +:+ t)) = String c s). by rewrite IH.
Qed.

Lemma string_drop_app s t : string_drop (String.length s) (s +:+ t) = t.
Proof. induction s as [|c s IH]; [by destruct t|]. exact IH. Qed.

(** ** Hexadecimal *)

Definition hex_digit (n : nat) : ascii :=
  if n <? 10 then byte (48 + n) else byte (87 + n).

(** [hex.EncodeToString] *)
Fixpoint hex_EncodeToString (s : bytes) : string :=
  match s with
  | EmptyString => ""
  | String c s =>
      String (hex_digit (nat_of_ascii c / 16))
        (String (hex_digit (nat_of_ascii c mod 16)) (hex_EncodeToString s))
  end.

Lemma length_hex s : String.length (hex_EncodeToString s) = 2 * String.length s.
Proof. induction s as [|c s IH]; simpl; [done | rewrite IH; lia]. Qed.

(** ** Sorting *)

(** [sort.Strings] *)
Definition sort_Strings (l : list string) : list string := merge_sort String.le l.

Lemma sort_Strings_perm l : sort_Strings l ≡ₚ l.
Proof. apply merge_sort_Permutation. Qed.

Lemma sort_Strings_sorted l : StronglySorted String.le (sort_Strings l).
Proof. apply StronglySorted_merge_sort; apply _. Qed.

(** The result depends on the elements only. *)
#[export] Instance sort_Strings_proper : Proper ((≡ₚ) ==> (=)) sort_Strings.
Proof.
  intros l1 l2 Hl. apply (StronglySorted_unique String.le); try apply sort_Strings_sorted.
  by rewrite !sort_Strings_perm.
Qed.
