(* ===== verification/GoEncoding.v ===== *)
(** * Package encoding/base64, and Unix times

    [RawURLEncoding.DecodeString] as package [auth] uses it on the parameters of a JSON web
    key, [StdEncoding.EncodeToString] on credentials, and [time.Unix]. *)

From Stdlib Require Import Ascii.
From S2P Require Import Prelude.
From S2P Require Import GoRuntime.
From S2P Require Import GoString.
Local Open Scope Z_scope.
Local Open Scope stdpp_scope.

(** ** Alphabets *)

Definition in_range (lo hi n : Z) : bool := (lo <=? n) && (n <=? hi).

Definition byte_Z (c : ascii) : Z := Z.of_nat (nat_of_ascii c).
Definition Z_byte (z : Z) : ascii := ascii_of_nat (Z.to_nat z).

(** The character of six bits, with the two last characters of the alphabet. *)
Definition b64_char (c62 c63 : Z) (n : Z) : ascii :=
  Z_byte (if n <? 26 then 65 + n
          else if n <? 52 then 71 + n
          else if n <? 62 then n - 4
          else if n =? 62 then c62 else c63).

Definition b64_value (c62 c63 : Z) (c : ascii) : option Z :=
  let n := byte_Z c in
  if in_range 65 90 n then Some (n - 65)
  else if in_range 97 122 n then Some (n - 71)
  else if in_range 48 57 n then Some (n + 4)
  else if n =? c62 then Some 62
  else if n =? c63 then Some 63
  else None.

(** ** Encoding with padding *)

Definition std_char : Z → ascii := b64_char 43 47.

Fixpoint base64_Std (s : bytes) : string :=
  match s with
  | EmptyString => ""
  | String a EmptyString =>
      let n := Z.shiftl (byte_Z a) 16 in
      String (std_char (Z.land (Z.shiftr n 18) 63)) (String (std_char (Z.land (Z.shiftr n 12) 63)) "==")
  | String a (String b EmptyString) =>
      let n := Z.lor (Z.shiftl (byte_Z a) 16) (Z.shiftl (byte_Z b) 8) in
      String (std_char (Z.land (Z.shiftr n 18) 63)) (String (std_char (Z.land (Z.shiftr n 12) 63))
        (String (std_char (Z.land (Z.shiftr n 6) 63)) "="))
  | String a (String b (String c s)) =>
      let n := Z.lor (Z.lor (Z.shiftl (byte_Z a) 16) (Z.shiftl (byte_Z b) 8)) (byte_Z c) in
      String (std_char (Z.land (Z.shiftr n 18) 63)) (String (std_char (Z.land (Z.shiftr n 12) 63))
        (String (std_char (Z.land (Z.shiftr n 6) 63)) (String (std_char (Z.land n 63)) (base64_Std s))))
  end.

(** ** Decoding without padding *)

(** The six-bit values of a URL-safe text; line breaks are skipped. *)
Fixpoint url_values (s : string) : option (list Z) :=
  match s with
  | EmptyString => Some []
  | String c s =>
      if (byte_Z c =? 10) || (byte_Z c =? 13) then url_values s
      else
        match b64_value 45 95 c, url_values s with
        | Some v, Some l => Some (v :: l)
        | _, _ => None
        end
  end.

(** Four values make three bytes; the last two or three make one or two. *)
Fixpoint url_bytes (l : list Z) : option (list Z) :=
  match l with
  | [] => Some []
  | [_] => None
  | [a; b] => Some [Z.lor (Z.shiftl a 2) (Z.shiftr b 4)]
  | [a; b; c] =>
      Some [Z.lor (Z.shiftl a 2) (Z.shiftr b 4); Z.land (Z.lor (Z.shiftl b 4) (Z.shiftr c 2)) 255]
  | a :: b :: c :: d :: l =>
      match url_bytes l with
      | Some r => Some (Z.lor (Z.shiftl a 2) (Z.shiftr b 4)
                  :: Z.land (Z.lor (Z.shiftl b 4) (Z.shiftr c 2)) 255
                  :: Z.land (Z.lor (Z.shiftl c 6) d) 255 :: r)
      | None => None
      end
  end.

(** [base64.RawURLEncoding.DecodeString]: the bytes, or an error. *)
Definition base64_RawURL_Decode (s : string) : option (list Z) :=
  match url_values s with Some l => url_bytes l | None => None end.

(** [new(big.Int).SetBytes]: big endian. *)
Definition big_SetBytes (l : list Z) : Z := foldl (λ acc b, 256 * acc + b) 0 l.

(** ** Unix times *)

(** The Unix epoch in seconds since year 1. *)
Definition unixToInternal : Z := 62135596800.

(** [time.Unix(sec, 0)] *)
Definition time_Unix (sec : Z) : Time := wrap64 (sec + unixToInternal) * Second.

Lemma b64_roundtrip n c62 c63 :
  0 ≤ n < 64 → (c62, c63) = (45, 95) ∨ (c62, c63) = (43, 47) →
  b64_value c62 c63 (b64_char c62 c63 n) = Some n.
Proof.
  intros Hn Hc.
  assert (forallb (λ k, bool_decide (b64_value 45 95 (b64_char 45 95 (Z.of_nat k)) = Some (Z.of_nat k))
    && bool_decide (b64_value 43 47 (b64_char 43 47 (Z.of_nat k)) = Some (Z.of_nat k))) (seq 0 64) = true)
    as Hall by (vm_compute; reflexivity).
  rewrite forallb_forall in Hall. specialize (Hall (Z.to_nat n) ltac:(apply in_seq; lia)).
  rewrite Z2Nat.id in Hall by lia. apply andb_true_iff in Hall as [H1 H2].
  rewrite bool_decide_eq_true in H1, H2. destruct Hc as [[= -> ->]|[= -> ->]]; done.
Qed.
