(* ===== verification/GoTime.v ===== *)
(** * time.ParseDuration and Duration.String

    The parser of the Go standard library, on bytes: an optional sign, then numbers with
    an optional fraction, each followed by a unit. [None] is an error.  Then the text of a
    duration, and the proof that the parser reads it back. *)

From Stdlib Require Import Ascii String.
From S2P Require Import Prelude.
From S2P Require Import GoRuntime.
From S2P Require Import GoFloat.
From S2P Require Import GoString.
Local Open Scope Z_scope.
Local Open Scope stdpp_scope.

Definition digit_of (c : ascii) : option Z :=
  let n := Z.of_nat (nat_of_ascii c) in
  if (48 <=? n) && (n <=? 57) then Some (n - 48) else None.

Definition two63 : Z := 9223372036854775808.

(** [leadingInt]: the digits and the rest, or an overflow. *)
Fixpoint leadingInt (x : Z) (s : string) : option (Z * string) :=
  match s with
  | String c s' =>
      match digit_of c with
      | None => Some (x, s)
      | Some d =>
          if two63 / 10 <? x then None
          else if two63 <? x * 10 + d then None
          else leadingInt (x * 10 + d) s'
      end
  | EmptyString => Some (x, s)
  end.

(** [leadingFraction]: the digits that fit, the scale and the rest. *)
Fixpoint leadingFraction (x : Z) (scale : float64) (overflow : bool) (s : string)
    : Z * float64 * string :=
  match s with
  | String c s' =>
      match digit_of c with
      | None => (x, scale, s)
      | Some d =>
          if overflow then leadingFraction x scale true s'
          else if int64_max / 10 <? x then leadingFraction x scale true s'
          else if two63 <? x * 10 + d then leadingFraction x scale true s'
          else leadingFraction (x * 10 + d) (fmul scale (f_of_Z 10)) false s'
      end
  | EmptyString => (x, scale, s)
  end.

(** The bytes of a unit: up to a dot or a digit. *)
Fixpoint unit_span (s : string) : string * string :=
  match s with
  | String c s' =>
      if bool_decide (c = "."%char) || bool_decide (is_Some (digit_of c)) then ("", s)
      else let '(u, r) := unit_span s' in (String c u, r)
  | EmptyString => ("", "")
  end.

(** The micro sign and the Greek letter mu are both accepted. *)
Definition unit_of (u : string) : option Z :=
  if bool_decide (u = "ns") then Some Nanosecond
  else if bool_decide (u = "us") || bool_decide (u = utf8 [194; 181]%nat +:+ "s")
          || bool_decide (u = utf8 [206; 188]%nat +:+ "s") then Some 1000
  else if bool_decide (u = "ms") then Some Millisecond
  else if bool_decide (u = "s") then Some Second
  else if bool_decide (u = "m") then Some Minute
  else if bool_decide (u = "h") then Some Hour
  else None.

(** The loop; every round consumes a byte, so that the length of the text is enough fuel.
    [d] is a [uint64]. *)
Fixpoint duration_go (fuel : nat) (d : Z) (s : string) : option Z :=
  match fuel, s with
  | _, EmptyString => Some d
  | S fuel, String c _ =>
      if negb (bool_decide (c = "."%char) || bool_decide (is_Some (digit_of c))) then None
      else
        match leadingInt 0 s with
        | None => None
        | Some (v, s1) =>
            let pre := negb (String.length s1 =? String.length s)%nat in
            let '(f, scale, s2, post) :=
              match strip "." s1 with
              | Some s1' =>
                  let '(f, scale, s2) := leadingFraction 0 f_one false s1' in
                  (f, scale, s2, negb (String.length s2 =? String.length s1')%nat)
              | None => (0, f_one, s1, false)
              end in
            if negb pre && negb post then None
            else
              let '(u, s3) := unit_span s2 in
              match unit_of u with
              | None => None
              | Some unit =>
                  if two63 / unit <? v then None
                  else
                    let v := v * unit in
                    let v :=
                      if 0 <? f
                      then v + default 0 (f_trunc (fmul (f_of_Z f) (fdiv (f_of_Z unit) scale)))
                      else v in
                    if two63 <? v then None
                    else
                      let d := (d + v) mod (2 * two63) in
                      if two63 <? d then None else duration_go fuel d s3
              end
        end
  | O, _ => None
  end.

Definition ParseDuration (s : string) : option Duration :=
  let '(neg, s) :=
    match s with
    | String "-" s' => (true, s')
    | String "+" s' => (false, s')
    | _ => (false, s)
    end in
  if bool_decide (s = "0") then Some 0
  else if bool_decide (s = "") then None
  else
    match duration_go (String.length s) 0 s with
    | None => None
    | Some d => if (neg : bool) then Some (wrap64 (- d)) else if int64_max <? d then None else Some d
    end.

Example ParseDuration_examples :
  map ParseDuration ["5m"; "1h30m"; "1.5h"; "-250ms"; "0"; "2540400h10m10.000000000s"; ".5s"; "1";
                     ""; "9223372036854775808ns"; "-9223372036854775808ns"; "3 s"; "1.s"]
  = [Some (5 * Minute); Some (90 * Minute); Some (90 * Minute); Some (-250 * Millisecond); Some 0;
     Some (9145440610 * Second); Some (500 * Millisecond); None;
     None; None; Some int64_min; None; Some Second].
Proof. vm_compute. reflexivity. Qed.

Lemma duration_go_bound fuel d s d' :
  0 ≤ d ≤ two63 → duration_go fuel d s = Some d' → 0 ≤ d' ≤ two63.
Proof.
  revert d s. induction fuel as [|fuel IH]; intros d [|c s] Hd HE; simpl in HE; try (by simplify_eq); try done.
  repeat (case_match; try done); simplify_eq;
    (eapply IH; [|done]); zbool; (split; [by apply Z.mod_pos_bound | done]).
Qed.

Lemma ParseDuration_is_int64 s d : ParseDuration s = Some d → is_int64 d.
Proof.
  unfold ParseDuration. destruct (match s with EmptyString => _ | String c s' => _ end) as [neg s'].
  repeat case_bool_decide; [intros [= <-]; done | done |].
  destruct (duration_go _ _ _) as [n|] eqn:E; [|done].
  apply duration_go_bound in E; [|unfold two63; lia].
  destruct neg; [intros [= <-]; apply wrap64_is_int64|]. destruct (_ <? _) eqn:El; [done|].
  intros [= <-]. zbool. unfold is_int64, int64_min in *. lia.
Qed.

(** ** Duration.String

    The digits are written from the last one, in front of what is there already. *)

Definition digit_char (d : Z) : ascii := ascii_of_nat (Z.to_nat (48 + d)).

(** The digits of a positive number; 20 are enough for 64 bits. *)
Fixpoint int_digits (fuel : nat) (v : Z) (acc : string) : string :=
  match fuel with
  | O => acc
  | S fuel => if v =? 0 then acc else int_digits fuel (v / 10) (String (digit_char (v mod 10)) acc)
  end.

Definition fmtInt (v : Z) (acc : string) : string :=
  if v =? 0 then String "0" acc else int_digits 20 v acc.

(** [fmtFrac]: the last [prec] digits without the zeros at the end, after a dot, and the rest
    of the number. *)
Fixpoint fmtFrac (prec : nat) (v : Z) (print : bool) (acc : string) : string * Z :=
  match prec with
  | O => (if print then String "." acc else acc, v)
  | S prec =>
      let digit := v mod 10 in
      let print := print || negb (digit =? 0) in
      fmtFrac prec (v / 10) print (if print then String (digit_char digit) acc else acc)
  end.

(** The units below the second, with the digits of their fraction. *)
Definition small_unit (u : Z) : nat * string :=
  if u <? 1000 then (0%nat, "ns")
  else if u <? Millisecond then (3%nat, utf8 [194; 181]%nat +:+ "s")
  else (6%nat, "ms").

(** The text without the sign. *)
Definition duration_text (u : Z) : string :=
  if u <? Second then
    let '(prec, unit) := small_unit u in
    let '(s, v) := fmtFrac prec u false unit in fmtInt v s
  else
    let '(s, v) := fmtFrac 9 u false "s" in
    let s := fmtInt (v mod 60) s in
    let v := v / 60 in
    if 0 <? v then
      let s := fmtInt (v mod 60) (String "m" s) in
      let v := v / 60 in
      if 0 <? v then fmtInt v (String "h" s) else s
    else s.

Definition Duration_String (d : Duration) : string :=
  let u := Z.abs d in
  if u =? 0 then "0s"
  else if d <? 0 then String "-" (duration_text u) else duration_text u.

Example Duration_String_examples :
  map Duration_String [0; 1; 1100; 2200000; 3300 * Millisecond; 300 * Second + 4; 4 * Minute + 5001 * Millisecond;
    5 * Hour + 6 * Minute + 7001 * Millisecond; - (8 * Minute); int64_max; int64_min]
  = ["0s"; "1ns"; "1.1" +:+ utf8 [194; 181]%nat +:+ "s"; "2.2ms"; "3.3s"; "5m0.000000004s"; "4m5.001s";
     "5h6m7.001s"; "-8m0s"; "2562047h47m16.854775807s"; "-2562047h47m16.854775808s"].
Proof. vm_compute. reflexivity. Qed.

(** *** Digits *)

Definition is_digits (ds : list Z) : Prop := Forall (λ d, 0 ≤ d < 10) ds.

Fixpoint show_digits (ds : list Z) (r : string) : string :=
  match ds with [] => r | d :: ds => String (digit_char d) (show_digits ds r) end.

Definition read_digits (x : Z) (ds : list Z) : Z := foldl (λ x d, x * 10 + d) x ds.

Lemma digit_of_char d : 0 ≤ d < 10 → digit_of (digit_char d) = Some d.
Proof.
  intros Hd. unfold digit_of, digit_char. rewrite nat_ascii_embedding by lia.
  rewrite Z2Nat.id by lia. rewrite (proj2 (Z.leb_le _ _)), (proj2 (Z.leb_le _ _)) by lia. simpl. f_equal. lia.
Qed.

Lemma read_digits_app x ds ds' : read_digits x (ds ++ ds') = read_digits (read_digits x ds) ds'.
Proof. apply foldl_app. Qed.

Lemma read_digits_ge x ds : 0 ≤ x → is_digits ds → x ≤ read_digits x ds.
Proof.
  intros Hx Hds. revert x Hx. induction Hds as [|d ds Hd _ IH]; intros x Hx; [simpl; lia|].
  cbv beta in Hd. specialize (IH (x * 10 + d) ltac:(lia)). simpl. unfold read_digits in *. lia.
Qed.

Lemma read_digits_shift x ds :
  read_digits x ds = x * 10 ^ Z.of_nat (length ds) + read_digits 0 ds.
Proof.
  induction ds as [|d ds IH] using rev_ind; [simpl; lia|].
  rewrite !read_digits_app, length_app. simpl. rewrite Nat.add_1_r, Nat2Z.inj_succ, Z.pow_succ_r by lia.
  unfold read_digits in *. simpl. rewrite IH. lia.
Qed.

Lemma read_digits_bound ds : is_digits ds → 0 ≤ read_digits 0 ds < 10 ^ Z.of_nat (length ds).
Proof.
  induction ds as [|d ds IH] using rev_ind; intros Hds; [simpl; lia|].
  apply Forall_app in Hds as [Hds Hd]. inversion Hd; cbv beta in *. specialize (IH Hds).
  rewrite read_digits_app, length_app, Nat.add_1_r, Nat2Z.inj_succ, Z.pow_succ_r by lia.
  unfold read_digits in *. simpl. lia.
Qed.

Lemma show_digits_app ds ds' r : show_digits (ds ++ ds') r = show_digits ds (show_digits ds' r).
Proof. induction ds; [done|]. simpl. by f_equal. Qed.

Lemma length_show_digits ds r : String.length (show_digits ds r) = (length ds + String.length r)%nat.
Proof. induction ds; [done|]. simpl. by f_equal. Qed.

(** A text that does not begin with a digit. *)
Definition no_digit (r : string) : Prop :=
  match r with String c _ => digit_of c = None | EmptyString => True end.

Lemma leadingInt_digits x ds r :
  0 ≤ x → is_digits ds → no_digit r → read_digits x ds ≤ two63 →
  leadingInt x (show_digits ds r) = Some (read_digits x ds, r).
Proof.
  intros Hx Hds Hr. revert x Hx. induction Hds as [|d ds Hd Hds IH]; intros x Hx Hle.
  - simpl. destruct r as [|c r]; [done|]. simpl in *. by rewrite Hr.
  - cbv beta in Hd. simpl in *. rewrite digit_of_char by done.
    pose proof (read_digits_ge (x * 10 + d) ds ltac:(lia) Hds) as Hge. unfold two63 in *.
    change (9223372036854775808 / 10) with 922337203685477580.
    destruct (922337203685477580 <? x) eqn:E1; [zbool; unfold read_digits in *; lia|].
    destruct (_ <? x * 10 + d) eqn:E2; [zbool; unfold read_digits in *; lia|].
    apply IH; unfold read_digits in *; lia.
Qed.

Lemma int_digits_spec fuel v acc :
  0 ≤ v < 10 ^ Z.of_nat fuel →
  ∃ ds, is_digits ds ∧ int_digits fuel v acc = show_digits ds acc ∧ read_digits 0 ds = v ∧
    (0 < v → ds ≠ []).
Proof.
  revert v acc. induction fuel as [|fuel IH]; intros v acc Hv.
  - exists []. simpl in *. split_and!; [constructor | done | lia | lia].
  - simpl. destruct (Z.eqb_spec v 0) as [->|Hne].
    { exists []. by split_and!; [constructor | | | lia]. }
    rewrite Nat2Z.inj_succ, Z.pow_succ_r in Hv by lia.
    pose proof (Z.mod_pos_bound v 10 ltac:(lia)). pose proof (Z.div_mod v 10 ltac:(lia)).
    destruct (IH (v / 10) (String (digit_char (v mod 10)) acc)) as (ds & Hds & -> & Hr & _);
      [split; [by apply Z.div_pos; lia | apply Z.div_lt_upper_bound; lia]|].
    exists (ds ++ [v mod 10]). split_and!.
    + apply Forall_app_2; [done|]. by constructor.
    + by rewrite show_digits_app.
    + rewrite read_digits_app, Hr. unfold read_digits. simpl. lia.
    + intros _. by destruct ds.
Qed.

Lemma fmtInt_spec v acc :
  0 ≤ v < 10 ^ 20 →
  ∃ ds, is_digits ds ∧ ds ≠ [] ∧ fmtInt v acc = show_digits ds acc ∧ read_digits 0 ds = v.
Proof.
  intros Hv. unfold fmtInt. destruct (Z.eqb_spec v 0) as [->|Hne].
  - exists [0]. split_and!; [by repeat constructor | done..].
  - destruct (int_digits_spec 20 v acc) as (ds & ? & ? & ? & Hd); [done|].
    exists ds. split_and!; [done | apply Hd; lia | done..].
Qed.

(** A fraction, when it has digits. *)
Definition show_frac (fs : list Z) (r : string) : string :=
  match fs with [] => r | _ => String "." (show_digits fs r) end.

Lemma mod_pow_succ v k :
  0 ≤ k → v mod 10 ^ (Z.succ k) = 10 * ((v / 10) mod 10 ^ k) + v mod 10.
Proof.
  intros Hk. rewrite Z.pow_succ_r by done. rewrite Z.rem_mul_r; [lia..|].
  apply Z.pow_pos_nonneg; lia.
Qed.

Lemma div_pow_succ v k : 0 ≤ k → v / 10 / 10 ^ k = v / 10 ^ (Z.succ k).
Proof. intros Hk. rewrite Z.pow_succ_r by done. by rewrite Z.div_div by lia. Qed.

(** Once a digit is written all that follow are. *)
Lemma fmtFrac_print prec v acc :
  ∃ fs, is_digits fs ∧ length fs = prec ∧ read_digits 0 fs = v mod 10 ^ Z.of_nat prec ∧
    fmtFrac prec v true acc = (String "." (show_digits fs acc), v / 10 ^ Z.of_nat prec).
Proof.
  revert v acc. induction prec as [|prec IH]; intros v acc.
  - exists []. simpl. rewrite Z.mod_1_r, Z.div_1_r. by split_and!; [constructor|..].
  - simpl. destruct (IH (v / 10) (String (digit_char (v mod 10)) acc)) as (fs & Hfs & Hl & Hr & ->).
    exists (fs ++ [v mod 10]). rewrite Nat2Z.inj_succ, mod_pow_succ, div_pow_succ by lia. split_and!.
    + apply Forall_app_2; [done|]. constructor; [|done]. by apply Z.mod_pos_bound.
    + rewrite length_app. simpl. lia.
    + rewrite read_digits_app, Hr. unfold read_digits. simpl. lia.
    + by rewrite show_digits_app.
Qed.

Lemma fmtFrac_spec prec v acc :
  ∃ fs, is_digits fs ∧ (length fs ≤ prec)%nat ∧
    read_digits 0 fs * 10 ^ (Z.of_nat prec - Z.of_nat (length fs)) = v mod 10 ^ Z.of_nat prec ∧
    fmtFrac prec v false acc = (show_frac fs acc, v / 10 ^ Z.of_nat prec).
Proof.
  revert v. induction prec as [|prec IH]; intros v.
  - exists []. simpl. rewrite Z.mod_1_r, Z.div_1_r. by split_and!; [constructor | lia | |].
  - simpl. rewrite Nat2Z.inj_succ, mod_pow_succ, <- div_pow_succ by lia.
    destruct (Z.eqb_spec (v mod 10) 0) as [->|Hne]; simpl.
    + destruct (IH (v / 10)) as (fs & Hfs & Hl & Hr & ->). exists fs. split_and!; [done | lia | | done].
      replace (Z.succ (Z.of_nat prec) - Z.of_nat (length fs))
        with (Z.succ (Z.of_nat prec - Z.of_nat (length fs))) by lia.
      rewrite Z.pow_succ_r, <- Hr by lia. ring.
    + destruct (fmtFrac_print prec (v / 10) (String (digit_char (v mod 10)) acc))
        as (fs & Hfs & Hl & Hr & ->).
      exists (fs ++ [v mod 10]). rewrite length_app, Hl. simpl. split_and!.
      * apply Forall_app_2; [done|]. constructor; [|done]. by apply Z.mod_pos_bound.
      * lia.
      * rewrite read_digits_app, Hr. unfold read_digits. simpl.
        replace (_ - _) with 0 by lia. lia.
      * unfold show_frac. rewrite show_digits_app. by destruct fs.
Qed.

(** *** Reading a number with its unit *)

Lemma f_trunc_int z : exact_int z → f_trunc (f_of_Z z) = Some z.
Proof.
  intros Hz. destruct z as [|p|p]; [done| |by destruct Hz].
  rewrite f_of_pos by done. pose proof (exact_digits p Hz) as Hd. pose proof (shl_Z p (Z.to_nat (53 - digits p))) as Hs.
  unfold norm, f_trunc. destruct (digits p - 53) as [|k|k] eqn:E; [|lia|].
  - f_equal. rewrite Z.shiftl_0_r, Hs. replace (53 - digits p) with 0 by lia. change (2 ^ Z.of_nat (Z.to_nat 0)) with 1. lia.
  - f_equal. rewrite Z.shiftr_div_pow2, Hs, Z2Nat.id by lia.
    replace (53 - digits p) with (Zpos k) by lia. apply Z.div_mul. lia.
Qed.

Lemma exact_pow k : 0 ≤ k ≤ 9 → exact_int (10 ^ k).
Proof.
  intros Hk. unfold exact_int. pose proof (Z.pow_le_mono_r 10 k 9 ltac:(lia) ltac:(lia)).
  pose proof (Z.pow_pos_nonneg 10 k ltac:(lia) ltac:(lia)). lia.
Qed.

Lemma leadingFraction_digits x k fs r :
  0 ≤ x → 0 ≤ k → k + Z.of_nat (length fs) ≤ 9 → is_digits fs → no_digit r → read_digits x fs ≤ 10 ^ 9 →
  leadingFraction x (f_of_Z (10 ^ k)) false (show_digits fs r)
  = (read_digits x fs, f_of_Z (10 ^ (k + Z.of_nat (length fs))), r).
Proof.
  intros Hx Hk Hle Hfs Hr. revert x k Hx Hk Hle.
  induction Hfs as [|d fs Hd Hfs IH]; intros x k Hx Hk Hle Hb.
  - simpl. rewrite Z.add_0_r. destruct r as [|c r]; [done|]. simpl in *. by rewrite Hr.
  - cbv beta in Hd. cbn [length] in Hle. cbn [leadingFraction show_digits]. rewrite digit_of_char by done.
    pose proof (read_digits_ge (x * 10 + d) fs ltac:(lia) Hfs) as Hge.
    change (read_digits x (d :: fs)) with (read_digits (x * 10 + d) fs) in *.
    change (int64_max / 10) with 922337203685477580. unfold two63.
    destruct (922337203685477580 <? x) eqn:E1; [zbool; lia|].
    destruct (9223372036854775808 <? x * 10 + d) eqn:E2; [zbool; lia|].
    change (f_of_Z 10) with (f_of_Z (10 ^ 1)).
    rewrite f_mul_int, <- Z.pow_add_r by (try apply exact_pow; rewrite <- ?Z.pow_add_r by lia; try apply exact_pow; lia).
    rewrite IH by first [exact Hb | lia].
    by replace (k + Z.of_nat (length (d :: fs))) with (k + 1 + Z.of_nat (length fs)) by (cbn [length]; lia).
Qed.

(** [unit / scale] is exact for the units with a fraction. *)
Definition fraction_unit (prec : nat) (un : Z) : Prop := In (prec, un) [(0%nat, 1); (3%nat, 1000); (6%nat, Millisecond); (9%nat, Second)].

Lemma fraction_unit_pos prec un : fraction_unit prec un → 0 < un.
Proof. by intros [[= _ <-]|[[= _ <-]|[[= _ <-]|[[= _ <-]|[]]]]]. Qed.

Lemma unit_over_scale prec un k :
  fraction_unit prec un → (k ≤ prec)%nat →
  fdiv (f_of_Z un) (f_of_Z (10 ^ Z.of_nat k)) = f_of_Z (10 ^ Z.of_nat (prec - k)) ∧ un = 10 ^ Z.of_nat prec.
Proof.
  intros Hu Hk. unfold fraction_unit in Hu. simpl in Hu.
  destruct Hu as [[= <- <-]|[[= <- <-]|[[= <- <-]|[[= <- <-]|[]]]]];
    do 10 (destruct k as [|k]; [first [lia | split; vm_compute; reflexivity]|]); lia.
Qed.

(** What the fraction adds. *)
Lemma fraction_value prec un fs :
  fraction_unit prec un → (length fs ≤ prec)%nat → is_digits fs →
  f_trunc (fmul (f_of_Z (read_digits 0 fs)) (fdiv (f_of_Z un) (f_of_Z (10 ^ Z.of_nat (length fs)))))
  = Some (read_digits 0 fs * 10 ^ (Z.of_nat prec - Z.of_nat (length fs))).
Proof.
  intros Hu Hl Hfs. destruct (unit_over_scale prec un (length fs) Hu Hl) as [-> _].
  rewrite Nat2Z.inj_sub by done.
  assert (Z.of_nat prec ≤ 9) as Hp.
  { unfold fraction_unit in Hu. simpl in Hu. destruct Hu as [[= <- _]|[[= <- _]|[[= <- _]|[[= <- _]|[]]]]]; lia. }
  pose proof (read_digits_bound fs Hfs) as Hb.
  pose proof (exact_pow (Z.of_nat (length fs)) ltac:(lia)) as H1.
  pose proof (exact_pow (Z.of_nat prec - Z.of_nat (length fs)) ltac:(lia)) as H2.
  assert (exact_int (read_digits 0 fs * 10 ^ (Z.of_nat prec - Z.of_nat (length fs)))) as H3.
  { pose proof (exact_pow (Z.of_nat prec) ltac:(lia)) as H4.
    replace (Z.of_nat prec) with (Z.of_nat (length fs) + (Z.of_nat prec - Z.of_nat (length fs))) in H4 by lia.
    rewrite Z.pow_add_r in H4 by lia. unfold exact_int in *. nia. }
  rewrite f_mul_int; [by apply f_trunc_int | unfold exact_int in *; lia | done | done].
Qed.

(** The bytes of a unit, followed by nothing or the next number. *)
Definition unit_text (u : string) : Prop :=
  string_all (λ c, negb (bool_decide (c = "."%char) || bool_decide (is_Some (digit_of c)))) u = true ∧ u ≠ "".

Definition number_or_end (r : string) : Prop :=
  match r with String c _ => is_Some (digit_of c) | EmptyString => True end.

Lemma unit_span_text u r : unit_text u → number_or_end r → unit_span (u +:+ r) = (u, r).
Proof.
  intros [Hu _] Hr. induction u as [|c u IH].
  - destruct r as [|c r]; [done|]. simpl in *. by rewrite (bool_decide_true _ Hr), orb_true_r.
  - simpl in *. apply andb_true_iff in Hu as [Hc Hu]. apply negb_true_iff in Hc. rewrite Hc.
    by rewrite IH.
Qed.

Lemma unit_no_digit u r : unit_text u → no_digit (u +:+ r).
Proof.
  intros [Hu Hne]. destruct u as [|c u]; [done|]. simpl in *. apply andb_true_iff in Hu as [Hc _].
  apply negb_true_iff, orb_false_iff in Hc as [_ Hc]. zbool. by destruct (digit_of c); [destruct Hc|].
Qed.

Lemma unit_no_dot u r : unit_text u → strip "." (u +:+ r) = None.
Proof.
  intros [Hu Hne]. destruct u as [|c u]; [done|]. simpl in *. apply andb_true_iff in Hu as [Hc _].
  apply negb_true_iff, orb_false_iff in Hc as [Hc _]. zbool. by rewrite bool_decide_false by congruence.
Qed.

Lemma frac_no_digit fs u r : unit_text u → no_digit (show_frac fs (u +:+ r)).
Proof. intros Hu. destruct fs; [by apply unit_no_digit | done]. Qed.

(** The value of a number with [fs] digits in its fraction, out of [prec]. *)
Definition frac_value (prec : nat) (fs : list Z) : Z :=
  read_digits 0 fs * 10 ^ (Z.of_nat prec - Z.of_nat (length fs)).

Lemma read_fraction prec un fs u rest :
  is_digits fs → (length fs ≤ prec)%nat → unit_text u → (fs ≠ [] → fraction_unit prec un) →
  match strip "." (show_frac fs (u +:+ rest)) with
  | Some s1' =>
      let '(f, scale, s2) := leadingFraction 0 f_one false s1' in
      (f, scale, s2, negb (String.length s2 =? String.length s1')%nat)
  | None => (0, f_one, show_frac fs (u +:+ rest), false)
  end = (read_digits 0 fs, f_of_Z (10 ^ Z.of_nat (length fs)), u +:+ rest, negb (bool_decide (fs = []))).
Proof.
  intros Hfs Hl Hu Hfrac.
  destruct fs as [|f0 fs]; [by cbn [show_frac]; rewrite unit_no_dot|]. cbn [show_frac strip].
    rewrite bool_decide_true by done. change f_one with (f_of_Z (10 ^ 0)).
    assert (Z.of_nat (length (f0 :: fs)) ≤ 9) as H9.
    { specialize (Hfrac ltac:(done)). unfold fraction_unit in Hfrac. simpl in Hfrac.
      destruct Hfrac as [[= <- _]|[[= <- _]|[[= <- _]|[[= <- _]|[]]]]]; lia. }
    pose proof (Z.pow_le_mono_r 10 (Z.of_nat (length (f0 :: fs))) 9 ltac:(lia) H9).
    pose proof (read_digits_bound (f0 :: fs) Hfs).
    rewrite leadingFraction_digits; [|lia..|done|by apply unit_no_digit|lia].
    rewrite length_show_digits, Z.add_0_l. rewrite bool_decide_false by done. simpl.
    rewrite (proj2 (Nat.eqb_neq _ _)) by lia. done.
Qed.

Lemma add_fraction prec un fs v :
  is_digits fs → (length fs ≤ prec)%nat → (fs ≠ [] → fraction_unit prec un) →
  (if 0 <? read_digits 0 fs
   then v + default 0 (f_trunc (fmul (f_of_Z (read_digits 0 fs)) (fdiv (f_of_Z un) (f_of_Z (10 ^ Z.of_nat (length fs))))))
   else v) = v + frac_value prec fs.
Proof.
  intros Hfs Hl Hfrac. pose proof (read_digits_bound fs Hfs) as [Hf _].
  unfold frac_value. destruct (0 <? read_digits 0 fs) eqn:E; zbool.
  - assert (fs ≠ []) as Hne' by (intros ->; simpl in E; lia).
    by rewrite (fraction_value prec un fs (Hfrac Hne') Hl Hfs).
  - replace (read_digits 0 fs) with 0 by lia. lia.
Qed.

(** One turn of the loop reads one number and its unit. *)
Lemma duration_turn fuel d ds fs prec un u rest :
  is_digits ds → ds ≠ [] → is_digits fs → (length fs ≤ prec)%nat →
  unit_text u → unit_of u = Some un → number_or_end rest → 0 < un →
  (fs ≠ [] → fraction_unit prec un) →
  0 ≤ d → d + (read_digits 0 ds * un + frac_value prec fs) ≤ two63 →
  duration_go (S fuel) d (show_digits ds (show_frac fs (u +:+ rest)))
  = duration_go fuel (d + (read_digits 0 ds * un + frac_value prec fs)) rest.
Proof.
  intros Hds Hne Hfs Hl Hu Hun Hrest Hpos Hfrac Hd Hle.
  pose proof (read_digits_bound ds Hds) as [Hv _]. pose proof (read_digits_bound fs Hfs) as [Hf _].
  assert (0 ≤ frac_value prec fs) as Hfv by (apply Z.mul_nonneg_nonneg; [done | apply Z.pow_nonneg; lia]).
  assert (read_digits 0 ds ≤ two63) as Hvle by nia.
  pose proof (leadingInt_digits 0 ds _ ltac:(lia) Hds (frac_no_digit fs u rest Hu) Hvle) as Hint.
  destruct ds as [|d0 ds]; [done|]. inversion Hds as [|? ? Hd0 Hds']; cbv beta in Hd0; subst.
  set (s := show_digits (d0 :: ds) (show_frac fs (u +:+ rest))) in *.
  assert (∃ c s', s = String c s' ∧ digit_of c = Some d0) as (c & s' & Hs & Hc)
    by (eexists _, _; split; [done | by apply digit_of_char]).
  assert (String.length (show_frac fs (u +:+ rest)) ≠ String.length s) as Hlen.
  { unfold s. rewrite length_show_digits. simpl. lia. }
  cbn [duration_go]. rewrite Hs at 1. cbv beta iota. rewrite Hc. rewrite (bool_decide_true (is_Some (Some d0))) by done.
  rewrite orb_true_r. cbn [negb]. rewrite Hint.
  rewrite (proj2 (Nat.eqb_neq _ _) Hlen). cbn [negb andb].
  rewrite (read_fraction prec un) by done.
  cbn [negb andb]. rewrite unit_span_text by done. rewrite Hun.
  assert (read_digits 0 (d0 :: ds) ≤ two63 / un) as Hq by (apply Z.div_le_lower_bound; lia).
  destruct (two63 / un <? _) eqn:E1; [zbool; lia|].
  rewrite (add_fraction prec) by done.
  set (total := read_digits 0 (d0 :: ds) * un + frac_value prec fs) in *.
  assert (0 ≤ total) by (unfold total; nia).
  destruct (two63 <? total) eqn:E2; [zbool; lia|].
  rewrite Z.mod_small by (unfold two63 in *; lia).
  destruct (two63 <? d + total) eqn:E3; [zbool; lia|]. done.
Qed.

(** *** The round trip *)

Lemma digit_head c s :
  is_Some (digit_of c) →
  match String c s with String "-" s' => (true, s') | String "+" s' => (false, s') | _ => (false, String c s) end
  = (false, String c s).
Proof. destruct c as [[] [] [] [] [] [] [] []]; intros [d Hd]; done || (vm_compute in Hd; done). Qed.

(** A text of at least two bytes that begins with a digit, as the loop reads it. *)
Lemma ParseDuration_signed (neg : bool) c s u :
  is_Some (digit_of c) → s ≠ "" → 0 ≤ u ≤ two63 → (neg = false → u ≤ int64_max) →
  duration_go (String.length (String c s)) 0 (String c s) = Some u →
  ParseDuration (if neg then String "-" (String c s) else String c s)
  = Some (if neg then wrap64 (- u) else u).
Proof.
  intros Hc Hs Hu Hn HE. unfold ParseDuration.
  assert (String c s ≠ "0") as H0 by (intros [= _ ->]; done).
  destruct neg.
  - rewrite !bool_decide_false by done. by rewrite HE.
  - rewrite digit_head by done. rewrite !bool_decide_false by done. rewrite HE.
    by rewrite (proj2 (Z.ltb_ge _ _)) by auto.
Qed.

Lemma unit_texts :
  unit_text "ns" ∧ unit_text (utf8 [194; 181]%nat +:+ "s") ∧ unit_text "ms" ∧ unit_text "s" ∧ unit_text "m" ∧
  unit_text "h".
Proof. by vm_compute. Qed.

Lemma number_or_end_digits ds r : is_digits ds → ds ≠ [] → number_or_end (show_digits ds r).
Proof.
  intros Hds Hne. destruct Hds as [|d ds Hd _]; [done|]. simpl. by rewrite digit_of_char.
Qed.

(** [s] begins with a digit or is empty, and [n] turns of the loop read it as [v]. *)
Definition spells (n : nat) (s : string) (v : Z) : Prop :=
  number_or_end s ∧ (n ≤ String.length s)%nat ∧ 0 ≤ v ∧
  ∀ fuel d, 0 ≤ d → d + v ≤ two63 → duration_go (n + fuel) d s = Some (d + v).

Lemma spells_end : spells 0 "" 0.
Proof. split_and!; [done..|]. intros fuel d _ _. rewrite Z.add_0_r. by destruct fuel. Qed.

Lemma spells_turn ds fs prec un u rest n v :
  is_digits ds → ds ≠ [] → is_digits fs → (length fs ≤ prec)%nat →
  unit_text u → unit_of u = Some un → 0 < un → (fs ≠ [] → fraction_unit prec un) →
  spells n rest v →
  spells (S n) (show_digits ds (show_frac fs (u +:+ rest))) (read_digits 0 ds * un + frac_value prec fs + v).
Proof.
  intros Hds Hne Hfs Hl Hu Hun Hpos Hfrac (Hr & Hn & Hv & HE).
  pose proof (read_digits_bound ds Hds) as [Hd0 _]. pose proof (read_digits_bound fs Hfs) as [Hf0 _].
  assert (0 ≤ frac_value prec fs) by (apply Z.mul_nonneg_nonneg; [done | apply Z.pow_nonneg; lia]).
  assert (0 ≤ read_digits 0 ds * un) by (apply Z.mul_nonneg_nonneg; lia).
  assert (String.length rest ≤ String.length (show_frac fs (u +:+ rest)))%nat as Hlen.
  { assert (String.length rest ≤ String.length (u +:+ rest))%nat by (rewrite length_append; lia).
    destruct fs; simpl; rewrite ?length_show_digits; lia. }
  split_and!; [by apply number_or_end_digits | | lia |].
  - rewrite length_show_digits. destruct ds; [done|]. simpl. lia.
  - intros fuel d Hd Hle. change (S n + fuel)%nat with (S (n + fuel)).
    rewrite (duration_turn _ _ _ _ prec un) by first [done | lia].
    rewrite HE by lia. f_equal. lia.
Qed.

(** A whole number and its unit, in front of what follows. *)
Lemma spells_int w un u rest n v :
  0 ≤ w < 10 ^ 20 → unit_text u → unit_of u = Some un → 0 < un → spells n rest v →
  spells (S n) (fmtInt w (u +:+ rest)) (w * un + v).
Proof.
  intros Hw Hu Hun Hpos Hr. destruct (fmtInt_spec w (u +:+ rest) Hw) as (ds & Hds & Hne & -> & <-).
  replace (read_digits 0 ds * un + v) with (read_digits 0 ds * un + frac_value 0 [] + v)
    by (unfold frac_value; simpl; lia).
  by apply (spells_turn ds [] 0); [.. | constructor | done | | | | |].
Qed.

(** The last number of a text, with its fraction. *)
Lemma spells_frac w v prec un u :
  0 ≤ w < 10 ^ 20 → fraction_unit prec un → unit_text u → unit_of u = Some un →
  let '(s, v') := fmtFrac prec v false u in
  v' = v / un ∧ spells 1 (fmtInt w s) (w * un + v mod un).
Proof.
  intros Hw Hf Hu Hun.
  destruct (unit_over_scale prec un 0 Hf ltac:(lia)) as [_ Hp].
  destruct (fmtFrac_spec prec v u) as (fs & Hfs & Hl & Hr & ->). rewrite <- Hp in *. split; [done|].
  destruct (fmtInt_spec w (show_frac fs u) Hw) as (ds & Hds & Hne & -> & <-).
  assert (0 < un) by (rewrite Hp; apply Z.pow_pos_nonneg; lia).
  pose proof (spells_turn ds fs prec un u "" 0 0 Hds Hne Hfs Hl Hu Hun ltac:(done) (λ _, Hf) spells_end) as HS.
  rewrite append_nil_r in HS. unfold frac_value in HS. by rewrite Hr, Z.add_0_r in HS.
Qed.

Lemma spells_small u :
  0 < u < Second →
  ∃ n, (n ≠ 0)%nat ∧ spells n (duration_text u) u.
Proof.
  intros Hu. unfold duration_text. rewrite (proj2 (Z.ltb_lt _ _)) by lia. unfold small_unit.
  destruct unit_texts as (Hns & Hus & Hms & _).
  assert (∀ prec un unit, fraction_unit prec un → unit_text unit → unit_of unit = Some un →
    spells 1 (let '(s, v) := fmtFrac prec u false unit in fmtInt v s) u) as HS.
  { intros prec un unit Hf Ht Hun. pose proof (fraction_unit_pos prec un Hf) as Hpos.
    assert (0 ≤ u / un < 10 ^ 20) as Hq.
    { split; [by apply Z.div_pos; lia|]. apply Z.div_lt_upper_bound; unfold Second in *; lia. }
    pose proof (spells_frac (u / un) u prec un unit Hq Hf Ht Hun) as HS.
    destruct (fmtFrac _ _ _ _) as [s v]. destruct HS as [-> HS].
    by rewrite Z.mul_comm, <- Z.div_mod in HS by lia. }
  exists 1%nat. split; [done|]. unfold fraction_unit in HS.
  destruct (u <? 1000); [|destruct (u <? Millisecond)].
  - by apply (HS 0%nat 1); [left | ..].
  - by apply (HS 3%nat 1000); [right; left | ..].
  - by apply (HS 6%nat Millisecond); [right; right; left | ..].
Qed.

Lemma spells_large u :
  Second ≤ u ≤ two63 →
  ∃ n, (n ≠ 0)%nat ∧ spells n (duration_text u) u.
Proof.
  intros Hu. unfold duration_text. rewrite (proj2 (Z.ltb_ge _ _)) by lia.
  destruct unit_texts as (_ & _ & _ & Hs & Hm & Hh).
  assert (fraction_unit 9 Second) as Hf by (right; right; right; by left).
  set (t := u / Second).
  assert (u = Second * t + u mod Second) as Ht by (apply Z.div_mod; done).
  assert (0 < t < 10 ^ 20) as Hb.
  { unfold two63 in *. pose proof (Z.mod_pos_bound u Second ltac:(done)). unfold Second in *. lia. }
  pose proof (Z.mod_pos_bound t 60 ltac:(lia)). pose proof (Z.div_mod t 60 ltac:(lia)).
  pose proof (spells_frac (t mod 60) u 9 Second "s" ltac:(lia) Hf Hs ltac:(done)) as HS.
  destruct (fmtFrac 9 u false "s") as [s v]. destruct HS as [-> HS]. fold t.
  destruct (0 <? t / 60) eqn:E1; zbool.
  2:{ exists 1%nat. split; [done|]. 
      assert (t mod 60 * Second + u mod Second = u) as Hx by (replace (t mod 60) with t by lia; lia).
      by rewrite Hx in HS. }
  set (m := t / 60) in *.
  pose proof (Z.mod_pos_bound m 60 ltac:(lia)). pose proof (Z.div_mod m 60 ltac:(lia)).
  pose proof (spells_int (m mod 60) Minute "m" _ _ _ ltac:(lia) Hm ltac:(done) ltac:(done) HS) as HM.
  destruct (0 <? m / 60) eqn:E2; zbool.
  2:{ exists 2%nat. split; [done|].
      assert (m mod 60 * Minute + (t mod 60 * Second + u mod Second) = u) as Hx
        by (replace (m mod 60) with m by lia; change Minute with (60 * Second); lia).
      by rewrite Hx in HM. }
  pose proof (spells_int (m / 60) Hour "h" _ _ _ ltac:(lia) Hh ltac:(done) ltac:(done) HM) as HH.
  exists 3%nat. split; [done|].
  assert (m / 60 * Hour + (m mod 60 * Minute + (t mod 60 * Second + u mod Second)) = u) as Hx
    by (change Hour with (3600 * Second); change Minute with (60 * Second); lia).
  by rewrite Hx in HH.
Qed.

(** One byte is no number with a unit. *)
Lemma duration_go_byte c d u : duration_go (String.length (String c "")) d (String c "") ≠ Some u.
Proof.
  simpl. intros HE. destruct (digit_of c) as [x|] eqn:Hc.
  - rewrite orb_true_r in HE. by repeat (case_match; simplify_eq/=).
  - repeat (case_match; simplify_eq/=; try done).
Qed.

(** [ParseDuration] reads back the text of every duration, the least one included. *)
Lemma Duration_String_roundtrip d : is_int64 d → ParseDuration (Duration_String d) = Some d.
Proof.
  intros Hd. unfold is_int64, int64_min, int64_max in Hd. unfold Duration_String.
  destruct (Z.eqb_spec (Z.abs d) 0) as [H0|H0]; [replace d with 0 by lia; vm_compute; done|].
  assert (0 < Z.abs d ≤ two63) as Hu by (unfold two63; lia).
  assert (∃ n, (n ≠ 0)%nat ∧ spells n (duration_text (Z.abs d)) (Z.abs d)) as (n & Hn & Hhd & Hlen & _ & HE).
  { destruct (decide (Z.abs d < Second)); [apply spells_small | apply spells_large]; lia. }
  specialize (HE (String.length (duration_text (Z.abs d)) - n)%nat 0 ltac:(lia) ltac:(lia)).
  replace (n + _)%nat with (String.length (duration_text (Z.abs d))) in HE by lia.
  destruct (duration_text (Z.abs d)) as [|c s]; [simpl in *; lia|].
  assert (s ≠ "") as Hs by (intros ->; by apply duration_go_byte in HE).
  rewrite (ParseDuration_signed (d <? 0) c s (Z.abs d)); [| done | done | lia | | done].
  - destruct (d <? 0) eqn:El; zbool; f_equal; [|lia].
    rewrite Z.abs_neq, Z.opp_involutive by lia. by apply wrap64_id.
  - intros El. zbool. unfold int64_max. lia.
Qed.
