(* ===== verification/GoRace.v ===== *)
(** * An operation in a goroutine, raced against its context

    [resilience/timeout.go] and [health/aggregator.go] start a goroutine that runs an
    operation and sends its result on a channel with room for one value, and select
    between that channel and the context's [Done].  This file has the steps of the two
    goroutines, the timer and the parent context, in any interleaving; [GoRuntime.env_race]
    is what the caller sees of them, and the theorems on the callers are in [Timeout] and
    [HealthParallel]. *)

From stdpp Require Import relations.
From S2P Require Import Prelude.
From S2P Require Import GoRuntime.
Local Open Scope Z_scope.
Local Open Scope stdpp_scope.

Module RC.

Section Race.
Context {W A : Type}.

(** ** Operations

    An operation is a tree of atomic actions on the world, between which any other
    goroutine may run: it returns, panics, blocks for ever, or acts. *)
Inductive act : Type :=
| Done (a : A)
| Crash (msg : string)
| Stuck
| Do {B : Type} (f : W → B * W) (k : B → act).

(** The operation without interruption. *)
Fixpoint run (p : act) : Go W A :=
  match p with
  | Done a => mret a
  | Crash msg => go_panic msg
  | Stuck => λ w, (OutOfFuel, w)
  | Do f k => λ w, let '(b, w') := f w in run (k b) w'
  end.

(** One operation after the other. *)
Fixpoint then_do (p : act) (q : A → act) : act :=
  match p with
  | Done a => q a
  | Crash msg => Crash msg
  | Stuck => Stuck
  | Do f k => Do f (λ b, then_do (k b) q)
  end.

Lemma run_then_do p q w : run (then_do p q) w = (r ← run p; run (q r)) w.
Proof.
  revert w. induction p as [a|msg| |B f k IH]; intros w; [done..|]. rewrite go_bind_run. simpl.
  destruct (f w) as [b w']. rewrite IH, go_bind_run. done.
Qed.

(** Every action keeps [I] of the object behind [p]. *)
Fixpoint act_keeps {S} (I : S → Prop) (p : Ptr W S) (q : act) : Prop :=
  match q with
  | Do f k => (∀ w, I (load p w) → I (load p (f w).2)) ∧ ∀ b, act_keeps I p (k b)
  | _ => True
  end.

(** ** The steps *)

Inductive goroutine : Type :=
| Working (p : act)
| Exited
| Crashed (msg : string).

(** The caller is in its [select] ([None]), or a case of it was chosen; a result may be in
    the channel; [ctx_err] is [ctx.Err()]. *)
Record sys := MkSys {
  caller : option (race_result A);
  worker : goroutine;
  chan : option A;
  ctx_err : option error;
  clock : Time;
  world : W;
}.

(** The process goes on. *)
Definition alive (g : goroutine) : Prop := match g with Crashed _ => False | _ => True end.

(** [defer cancel()]. *)
Definition cancel (e : option error) : option error := Some (default context_Canceled e).

Context (deadline : Time) (parent_err : error → Prop).

Inductive step : relation sys :=
| step_act B (f : W → B * W) k b c ch e t t' w w' :
    t ≤ t' → f w = (b, w') →
    step (MkSys c (Working (Do f k)) ch e t w) (MkSys c (Working (k b)) ch e t' w')
| step_send a c e t w :
    step (MkSys c (Working (Done a)) None e t w) (MkSys c Exited (Some a) e t w)
| step_panic msg c ch e t w :
    step (MkSys c (Working (Crash msg)) ch e t w) (MkSys c (Crashed msg) ch e t w)
| step_timer c g ch t t' w :
    alive g → t ≤ t' → deadline ≤ t' →
    step (MkSys c g ch None t w) (MkSys c g ch (Some context_DeadlineExceeded) t' w)
| step_parent err c g ch t t' w :
    alive g → t ≤ t' → parent_err err →
    step (MkSys c g ch None t w) (MkSys c g ch (Some err) t' w)
| step_recv a g e t w :
    alive g →
    step (MkSys None g (Some a) e t w) (MkSys (Some (OpDone a)) g None (cancel e) t w)
| step_ctx err g ch t w :
    alive g →
    step (MkSys None g ch (Some err) t w) (MkSys (Some (CtxDone err)) g ch (cancel (Some err)) t w).

Definition init (p : act) (t : Time) (w : W) : sys := MkSys None (Working p) None None t w.

(** ** The invariant *)

(** Why the context can be done before the caller has returned. *)
Definition ctx_cause (err : error) (t : Time) : Prop :=
  (err = context_DeadlineExceeded ∧ deadline ≤ t) ∨ parent_err err.

Definition delivered (s : sys) : bool :=
  match caller s with Some (OpDone _) => true | _ => false end.

(** The rest of the operation does what is missing of it, and its result goes through the
    channel, which is empty when it is sent. *)
Definition worker_inv (p : act) (w0 : W) (s : sys) : Prop :=
  match worker s with
  | Working q => run q (world s) = run p w0 ∧ chan s = None ∧ delivered s = false
  | Exited => ∃ a, run p w0 = (Val a, world s) ∧
      match caller s with
      | Some (OpDone a') => a' = a ∧ chan s = None
      | _ => chan s = Some a
      end
  | Crashed msg => run p w0 = (Panic msg, world s) ∧ delivered s = false
  end.

Record inv (p : act) (w0 : W) (s : sys) : Prop := {
  inv_worker : worker_inv p w0 s;
  inv_ctx : ∀ err, ctx_err s = Some err → delivered s = false → ctx_cause err (clock s);
  inv_left : ∀ err, caller s = Some (CtxDone err) → ctx_cause err (clock s);
  inv_cancelled : caller s ≠ None → ctx_err s ≠ None;
}.

Lemma ctx_cause_later err t t' : t ≤ t' → ctx_cause err t → ctx_cause err t'.
Proof. intros Ht [[-> Hd]|Hp]; [left; split; [done | lia] | by right]. Qed.

Lemma race_step_inv p w0 s s' : inv p w0 s → step s s' → inv p w0 s'.
Proof.
  intros [Hw Hc Hl Hx] Hs. unfold worker_inv, delivered in *.
  destruct Hs; simpl in *; split; unfold worker_inv, delivered; simpl;
    eauto using ctx_cause_later.
  - destruct Hw as (Hr & Hch & Hd). split_and!; [|done..]. rewrite <- Hr. simpl. by rewrite H0.
  - destruct Hw as (Hr & _ & Hd). exists a. split; [by rewrite <- Hr|]. by destruct c as [[]|].
  - destruct Hw as (Hr & _ & Hd). split; [by rewrite <- Hr | done].
  - intros err [= <-] _. left. split; [done | lia].
  - intros err' [= <-] _. by right.
  - destruct g as [q| |msg]; [by destruct Hw as (_ & ? & _)| |done]. destruct Hw as (a' & Hr & Hch).
    exists a'. split; [done|]. split; [congruence | done].
  - done.
  - destruct g as [q| |msg]; done.
  - intros err' [= <-]. by apply Hc.
Qed.

Lemma race_init_inv p t w : inv p w (init p t w).
Proof. by split. Qed.

Lemma race_reachable_inv p t w s : rtc step (init p t w) s → inv p w s.
Proof. intros Hr. apply (rtc_preserved step (inv p w) (init p t w) s); [|apply race_init_inv | done]. intros. by eapply race_step_inv. Qed.

(** ** Every interleaving ends *)

(** What a goroutine becomes by its own step. *)
Definition moves (g g' : goroutine) : Prop :=
  match g with
  | Working (Do f k) => ∃ b, g' = Working (k b)
  | Working (Done a) => g' = Exited
  | Working (Crash msg) => g' = Crashed msg
  | _ => False
  end.

Lemma sn_worker g :
  (∀ g' c ch e t w, moves g g' → sn step (MkSys c g' ch e t w)) →
  ∀ c ch e t w, sn step (MkSys c g ch e t w).
Proof.
  intros Hg.
  assert (∀ n (c : option (race_result A)) ch (e : option error) t w,
      ((if c is Some _ then 0 else 1) + (if e is Some _ then 0 else 1) ≤ n)%nat →
    sn step (MkSys c g ch e t w)) as Hn; [|intros; by eapply Hn].
  induction n as [|n IH]; intros c ch e t w Hle; constructor; intros s' Hs; unfold flip in Hs;
    inversion Hs; subst; simplify_eq/=;
    first [by apply Hg; simpl; eauto | lia | apply IH; simpl; try destruct c; try destruct e; simpl in *; lia].
Qed.

Lemma sn_exited c ch e t w : sn step (MkSys c Exited ch e t w).
Proof. by apply sn_worker. Qed.

Lemma sn_crashed msg c ch e t w : sn step (MkSys c (Crashed msg) ch e t w).
Proof. by apply sn_worker. Qed.

Lemma sn_working p : ∀ c ch e t w, sn step (MkSys c (Working p) ch e t w).
Proof.
  induction p as [a|msg| |B f k IH]; apply sn_worker; intros g' c ch e t w Hm; simpl in Hm.
  - subst. apply sn_exited.
  - subst. apply sn_crashed.
  - done.
  - destruct Hm as [b ->]. apply IH.
Qed.

(** ** Where it ends *)

(** A process that has not crashed and whose goroutine is at its end or stuck goes on until
    the caller has returned. *)
Lemma caller_returns c g ch e t w :
  alive g → (∀ s', ¬ step (MkSys c g ch e t w) s') → c ≠ None ∧ e ≠ None.
Proof.
  intros Hg Hend. destruct e as [err|].
  - split; [|done]. intros ->. by apply (Hend _ (step_ctx err g ch t w Hg)).
  - exfalso. by apply (Hend _ (step_timer c g ch t (Z.max t deadline) w Hg ltac:(lia) ltac:(lia))).
Qed.

Lemma final_state p w0 s :
  inv p w0 s → (∀ s', ¬ step s s') →
  match worker s with
  | Crashed msg => run p w0 = (Panic msg, world s)
  | Exited => caller s ≠ None ∧ ∃ a, run p w0 = (Val a, world s)
  | Working q => q = Stuck ∧ run p w0 = (OutOfFuel, world s) ∧ ∃ err, caller s = Some (CtxDone err)
  end.
Proof.
  intros [Hw _ _ _] Hend. destruct s as [c g ch e t w]. unfold worker_inv, delivered in Hw. simpl in *.
  destruct g as [[a|msg| |B f k]| |msg].
  - destruct Hw as (_ & -> & _). destruct (Hend _ (step_send a c e t w)).
  - destruct (Hend _ (step_panic msg c ch e t w)).
  - destruct (caller_returns _ (Working Stuck) _ _ _ _ I Hend) as [Hc _]. destruct Hw as (Hr & _ & Hd).
    split_and!; [done | by rewrite <- Hr|]. destruct c as [[a|err]|]; [done | by exists err | done].
  - destruct (f w) as [b w'] eqn:E. destruct (Hend _ (step_act B f k b c ch e t t w w' ltac:(lia) E)).
  - destruct (caller_returns _ Exited _ _ _ _ I Hend) as [Hc _]. split; [done|].
    destruct Hw as (a & Hr & _). by exists a.
  - by destruct Hw.
Qed.

(** ** What holds in between *)

(** A property every action keeps holds at all times, after the caller has left too. *)
Lemma always_kept {S} (I : S → Prop) (ptr : Ptr W S) p t w s :
  act_keeps I ptr p → I (load ptr w) → rtc step (init p t w) s → I (load ptr (world s)).
Proof.
  intros Hp HI Hr.
  apply (rtc_preserved step (λ s, I (load ptr (world s)) ∧
    match worker s with Working q => act_keeps I ptr q | _ => True end) (init p t w) s); [|done|done].
  intros s1 s2 [HI1 Hk] Hs. destruct Hs; simpl in *; try done.
  destruct Hk as [Hf Hk]. split; [|done]. specialize (Hf w0 HI1). by rewrite H0 in Hf.
Qed.
End Race.

Arguments act : clear implicits.
Arguments sys : clear implicits.
Arguments goroutine : clear implicits.

End RC.
