(* ===== verification/GoConc.v ===== *)
(** * Goroutines over a shared world

    A goroutine is a tree of atomic actions on the world, which may wait until they are
    possible, of [go] statements and of panics; a pool of them runs in any interleaving.  Two
    ways to reason about a pool: an invariant that every action keeps, and a ghost value of
    each goroutine that says where it is in a protocol on a shared object.  [sim] relates a
    goroutine that runs alone to a computation of [GoRuntime]. *)

From stdpp Require Import relations.
From S2P Require Import Prelude.
From S2P Require Import GoRuntime.

Module GC.

(** ** Programs *)

(** [Act R k]: in a world [w] the action can give [b] and the world [w'] when [R w b w'];
    it waits while there is no such [b]. *)
Inductive prog (W A : Type) : Type :=
| Ret (a : A)
| Throw (msg : string)
| Act {B : Type} (R : W → B → W → Prop) (k : B → prog W A)
| Spawn (p : prog W unit) (k : prog W A).
Arguments Ret {W A} a.
Arguments Throw {W A} msg.
Arguments Act {W A B} R k.
Arguments Spawn {W A} p k.

#[export] Instance prog_ret W : MRet (prog W) := λ A a, Ret a.

#[export] Instance prog_bind W : MBind (prog W) := λ A B f,
  fix bind (p : prog W A) : prog W B :=
    match p with
    | Ret a => f a
    | Throw msg => Throw msg
    | Act R k => Act R (λ b, bind (k b))
    | Spawn q k => Spawn q (bind k)
    end.

(** [defer c()]: [c] runs when [p] returns and when it panics. *)
Fixpoint defer {W : Type} {A : Type} (c : prog W unit) (p : prog W A) : prog W A :=
  match p with
  | Ret a => _ ← c; Ret a
  | Throw msg => _ ← c; Throw msg
  | Act R k => Act R (λ b, defer c (k b))
  | Spawn q k => Spawn q (defer c k)
  end.

(** A computation of [GoRuntime] as one action, such as a block under a mutex. *)
Definition ends_in {W B} (m : Go W B) (w : W) (o : outcome B) (w' : W) : Prop :=
  m w = (o, w') ∧ o ≠ OutOfFuel.

Definition atomic {W B} (m : Go W B) : prog W B :=
  Act (ends_in m) (λ o, match o with Val b => Ret b | Panic msg => Throw msg | OutOfFuel => Throw "" end).

(** [go p()] *)
Definition go {W} (p : prog W unit) : prog W unit := Spawn p (Ret ()).

(** ** Pools *)

Abbreviation pool W := (list (prog W unit) * W)%type (only parsing).

(** A goroutine that has returned or panicked takes no step.  A panic ends the process unless
    a caller further up recovers from it; the pool goes on, and so covers both. *)
Inductive pstep {W} : relation (pool W) :=
| pstep_act ths i B (R : W → B → W → Prop) k w b w' :
    ths !! i = Some (Act R k) → R w b w' → pstep (ths, w) (<[i := k b]> ths, w')
| pstep_spawn ths i p k w :
    ths !! i = Some (Spawn p k) → pstep (ths, w) (<[i := k]> ths ++ [p], w).

Definition finished {W A} (p : prog W A) : bool :=
  match p with Ret _ | Throw _ => true | _ => false end.

Section Logic.
Context {W : Type}.

(** ** Properties of every action *)

Fixpoint acts {A : Type} (K : ∀ B, (W → B → W → Prop) → Prop) (p : prog W A) : Prop :=
  match p with
  | Ret _ | Throw _ => True
  | Act R k => K _ R ∧ ∀ b, acts K (k b)
  | Spawn q k => acts K q ∧ acts K k
  end.

Lemma acts_bind {A B : Type} (K : ∀ B, (W → B → W → Prop) → Prop) (p : prog W A) (f : A → prog W B) :
  acts K p → (∀ a, acts K (f a)) → acts K (p ≫= f).
Proof.
  revert B f. induction p as [A a|A msg|A B' R k IH|A q _ k IH]; intros B f Hp Hf.
  - apply Hf.
  - done.
  - destruct Hp as [HR Hk]. split; [done|]. intros b. by apply IH.
  - destruct Hp as [Hq Hk]. split; [done|]. by apply IH.
Qed.

Lemma acts_defer {A : Type} (K : ∀ B, (W → B → W → Prop) → Prop) c (p : prog W A) : acts K c → acts K p → acts K (defer c p).
Proof.
  intros Hc. induction p as [A a|A msg|A B' R k IH|A q _ k IH]; intros Hp.
  - by apply acts_bind.
  - by apply acts_bind.
  - destruct Hp as [HR Hk]. split; [done|]. intros b. by apply IH.
  - destruct Hp as [Hq Hk]. split; [done|]. by apply IH.
Qed.

Lemma acts_mono {A : Type} (K K' : ∀ B, (W → B → W → Prop) → Prop) (p : prog W A) :
  (∀ B R, K B R → K' B R) → acts K p → acts K' p.
Proof.
  intros HK. induction p as [A a|A msg|A B' R k IH|A q IHq k IH]; simpl; [done..| | ].
  - intros [HR Hk]. split; [by apply HK|]. intros b. by apply IH.
  - intros [Hq Hk]. split; [by apply IHq | by apply IH].
Qed.

Lemma acts_atomic {B : Type} (K : ∀ B, (W → B → W → Prop) → Prop) (m : Go W B) : K _ (ends_in m) → acts K (atomic m).
Proof. intros Hm. split; [done|]. by intros [b|msg|]. Qed.

(** An invariant of the world that every action keeps holds in every reachable state. *)
Definition keeping (I : W → Prop) (B : Type) (R : W → B → W → Prop) : Prop :=
  ∀ w b w', I w → R w b w' → I w'.

Lemma pool_keeps I (s s' : pool W) :
  rtc pstep s s' → Forall (acts (keeping I)) s.1 → I s.2 → I s'.2.
Proof.
  intros Hr Ha HI. apply (rtc_preserved pstep (λ s, Forall (acts (keeping I)) s.1 ∧ I s.2) s s'); [|done..].
  intros s1 s2 [Hs H1] Hst. destruct Hst as [ths i B R k w b w' Hi HR|ths i p k w Hi]; simpl in *;
    pose proof (proj1 (Forall_lookup _ _) Hs _ _ Hi) as Hp.
  - destruct Hp as [HK Hk]. split; [by apply Forall_insert | by eapply HK].
  - destruct Hp as [Hq Hk]. split; [|done]. apply Forall_app. split; [by apply Forall_insert|].
    by apply Forall_singleton.
Qed.

(** ** Protocols

    [I w gs] relates the world to the ghost values of the callers, the first goroutines of a
    pool; the goroutines that are started later have none, and their actions keep [I]. *)

Section Ghosts.
Context {G : Type} (I : W → list G → Prop).

Definition quiet (B : Type) (R : W → B → W → Prop) : Prop :=
  ∀ w gs b w', I w gs → R w b w' → I w' gs.

(** [p], started by a caller with the ghost value [g], follows the protocol up to a result in
    [Q], or a panic in [E]. *)
Fixpoint ok {A : Type} (Q : A → G → Prop) (E : G → Prop) (g : G) (p : prog W A) : Prop :=
  match p with
  | Ret a => Q a g
  | Throw _ => E g
  | Act R k => ∀ w gs i b w', gs !! i = Some g → I w gs → R w b w' →
      ∃ g', I w' (<[i := g']> gs) ∧ ok Q E g' (k b)
  | Spawn q k => acts quiet q ∧ ok Q E g k
  end.

Lemma ok_mono {A : Type} (Q Q' : A → G → Prop) (E E' : G → Prop) g p :
  (∀ a g, Q a g → Q' a g) → (∀ g, E g → E' g) → ok Q E g p → ok Q' E' g p.
Proof.
  intros HQ HE. revert g. induction p as [A a|A msg|A B R k IH|A q _ k IH]; intros g Hp.
  - by apply HQ.
  - by apply HE.
  - intros w gs i b w' Hi Hw HR. destruct (Hp w gs i b w' Hi Hw HR) as (g' & HI & Hk).
    exists g'. split; [done|]. by eapply IH.
  - destruct Hp as [Hq Hk]. split; [done|]. by eapply IH.
Qed.

Lemma ok_bind {A B : Type} (Q : B → G → Prop) E g (p : prog W A) (f : A → prog W B) :
  ok (λ a g, ok Q E g (f a)) E g p → ok Q E g (p ≫= f).
Proof.
  revert B Q f g. induction p as [A a|A msg|A B' R k IH|A q _ k IH]; intros B Q f g Hp; try done.
  - intros w gs i b w' Hi Hw HR. destruct (Hp w gs i b w' Hi Hw HR) as (g' & HI & Hk).
    exists g'. split; [done|]. by apply IH.
  - destruct Hp as [Hq Hk]. split; [done|]. by apply IH.
Qed.

Lemma ok_defer {A : Type} (Q : A → G → Prop) E g c p :
  ok (λ a g, ok (λ _ g, Q a g) E g c) (λ g, ok (λ _ g, E g) E g c) g p → ok Q E g (defer c p).
Proof.
  revert Q g. induction p as [A a|A msg|A B' R k IH|A q _ k IH]; intros Q g Hp.
  - by apply ok_bind.
  - by apply ok_bind.
  - intros w gs i b w' Hi Hw HR. destruct (Hp w gs i b w' Hi Hw HR) as (g' & HI & Hk).
    exists g'. split; [done|]. by apply IH.
  - destruct Hp as [Hq Hk]. split; [done|]. by apply IH.
Qed.

Lemma ok_atomic {B : Type} (Q : B → G → Prop) E g (m : Go W B) :
  (∀ w gs i o w', gs !! i = Some g → I w gs → m w = (o, w') → o ≠ OutOfFuel →
    ∃ g', I w' (<[i := g']> gs) ∧
      match o with Val b => Q b g' | _ => E g' end) →
  ok Q E g (atomic m).
Proof.
  intros Hm w gs i o w' Hi Hw [HE Ho]. destruct (Hm w gs i o w' Hi Hw HE Ho) as (g' & HI & Hg).
  exists g'. split; [done|]. by destruct o.
Qed.

(** [p] comes back to where it began, however it ends. *)
Definition returns {A : Type} (g : G) (p : prog W A) : Prop := ok (λ _ g', g' = g) (λ g', g' = g) g p.

Lemma returns_ret {A : Type} g (a : A) : returns g (mret a).
Proof. done. Qed.

Lemma returns_bind {A B : Type} g (p : prog W A) (f : A → prog W B) :
  returns g p → (∀ a, returns g (f a)) → returns g (p ≫= f).
Proof.
  intros Hp Hf. apply ok_bind. eapply ok_mono; [| |exact Hp]; [|done]. intros a g' ->. apply Hf.
Qed.

Lemma returns_defer {A : Type} g c (p : prog W A) :
  returns g c → returns g p → returns g (defer c p).
Proof.
  intros Hc Hp. apply ok_defer. eapply ok_mono; [| |exact Hp].
  - intros a g' ->. exact Hc.
  - intros g' ->. exact Hc.
Qed.

Lemma returns_quiet {A : Type} g (p : prog W A) : acts quiet p → returns g p.
Proof.
  induction p as [A a|A msg|A B R k IH|A q _ k IH]; intros Hp; [done..| | ].
  - destruct Hp as [HR Hk]. intros w gs i b w' Hi Hw Hb. exists g.
    rewrite list_insert_id by done. split; [by eapply HR | by apply IH].
  - destruct Hp as [Hq Hk]. split; [done|]. by apply IH.
Qed.

(** ** Soundness *)

(** The callers follow the protocol from and to [g0]. *)
Definition pool_ok (g0 : G) (gs : list G) (s : pool W) : Prop :=
  ∃ callers workers, s.1 = callers ++ workers ∧
    Forall2 (ok (λ _ g, g = g0) (λ g, g = g0)) gs callers ∧ Forall (acts quiet) workers ∧ I s.2 gs.

Lemma pool_step_ok g0 gs s s' :
  pool_ok g0 gs s → pstep s s' → ∃ gs', length gs' = length gs ∧ pool_ok g0 gs' s'.
Proof.
  intros (cs & ws & Hs & Hcs & Hws & HI) Hst.
  destruct Hst as [ths i B R k w b w' Hi HR|ths i p k w Hi]; simpl in *; subst ths;
    apply lookup_app_Some in Hi as [Hi|[Hle Hi]].
  - destruct (Forall2_lookup_r _ _ _ _ _ Hcs Hi) as (g & Hg & Hok).
    destruct (Hok w gs i b w' Hg HI HR) as (g' & HI' & Hk).
    exists (<[i := g']> gs). split; [apply length_insert|]. exists (<[i := k b]> cs), ws.
    rewrite insert_app_l by (by eapply lookup_lt_Some). split_and!; [done| |done|done].
    by apply Forall2_insert.
  - pose proof (proj1 (Forall_lookup _ _) Hws _ _ Hi) as [HK Hk].
    exists gs. split; [done|]. exists cs, (<[i - length cs := k b]> ws). split_and!; [|done| |by eapply HK].
    + simpl. rewrite insert_app_r_alt by done. done.
    + by apply Forall_insert.
  - destruct (Forall2_lookup_r _ _ _ _ _ Hcs Hi) as (g & Hg & [Hq Hk]).
    exists gs. split; [done|]. exists (<[i := k]> cs), (ws ++ [p]).
    rewrite insert_app_l, <- app_assoc by (by eapply lookup_lt_Some). split_and!; [done| | |done].
    + rewrite <- (list_insert_id gs i g) by done. by apply Forall2_insert.
    + apply Forall_app. split; [done | by apply Forall_singleton].
  - pose proof (proj1 (Forall_lookup _ _) Hws _ _ Hi) as [Hq Hk].
    exists gs. split; [done|]. exists cs, (<[i - length cs := k]> ws ++ [p]). split_and!; [|done| |done].
    + simpl. rewrite insert_app_r_alt, <- app_assoc by done. done.
    + apply Forall_app. split; [by apply Forall_insert | by apply Forall_singleton].
Qed.

(** Along every interleaving [I] holds with some ghost values of the callers, and those of the
    callers that are through are the initial one. *)
Lemma pool_sound g0 (callers : list (prog W unit)) w s :
  Forall (returns g0) callers → I w (replicate (length callers) g0) →
  rtc pstep (callers, w) s →
  ∃ gs, length gs = length callers ∧ I s.2 gs ∧
    ∀ i, (i < length callers)%nat → ∃ p, s.1 !! i = Some p ∧ (finished p = true → gs !! i = Some g0).
Proof.
  intros Hc HI Hr.
  assert (∃ gs, length gs = length callers ∧ pool_ok g0 gs s) as (gs & Hl & Hok).
  { apply (rtc_preserved pstep (λ s, ∃ gs, length gs = length callers ∧ pool_ok g0 gs s) (callers, w)); [| |done].
    - intros s1 s2 (gs & Hl & Hok) Hst. destruct (pool_step_ok _ _ _ _ Hok Hst) as (gs' & Hl' & Hok').
      exists gs'. split; [by rewrite Hl' | done].
    - exists (replicate (length callers) g0). rewrite length_replicate. split; [done|].
      exists callers, []. rewrite app_nil_r. split_and!; [done| |by constructor|done].
      apply Forall2_same_length_lookup. rewrite length_replicate. split; [done|].
      intros i g p Hg Hp. apply lookup_replicate in Hg as [-> _].
      exact (proj1 (Forall_lookup _ _) Hc _ _ Hp). }
  exists gs. split; [done|]. destruct Hok as (cs & ws & Hs & Hcs & _ & HIs). split; [done|].
  intros i Hi. rewrite <- Hl in Hi. apply lookup_lt_is_Some_2 in Hi as [g Hg].
  destruct (Forall2_lookup_l _ _ _ _ _ Hcs Hg) as (p & Hp & Hok).
  exists p. rewrite Hs, (lookup_app_l_Some _ _ _ _ Hp). split; [done|].
  intros Hf. rewrite Hg. f_equal. by destruct p.
Qed.
End Ghosts.

(** ** A goroutine alone *)

(** The steps of a goroutine that nobody disturbs. *)
Inductive astep {A : Type} : relation (prog W A * W) :=
| astep_act B (R : W → B → W → Prop) k w b w' : R w b w' → astep (Act R k, w) (k b, w').

(** It has the outcome of the computation [m], whenever [m] has one. *)
Definition sim {A : Type} (m : Go W A) (p : prog W A) : Prop := ∀ w o w',
  m w = (o, w') →
  match o with
  | Val a => rtc astep (p, w) (Ret a, w')
  | Panic msg => rtc astep (p, w) (Throw msg, w')
  | OutOfFuel => True
  end.

Lemma astep_bind {A B : Type} (f : A → prog W B) p w p' w' :
  rtc astep (p, w) (p', w') → rtc astep (p ≫= f, w) (p' ≫= f, w').
Proof.
  intros Hr. remember (p, w) as s eqn:Es. remember (p', w') as s' eqn:Es'. revert p w Es.
  induction Hr as [s|s1 s2 s3 Hs _ IH]; intros p w Es; subst.
  - injection Es as <- <-. apply rtc_refl.
  - inversion Hs; subst. eapply rtc_l; [by constructor|]. by apply IH.
Qed.

Lemma astep_defer {A : Type} c (p : prog W A) w p' w' :
  rtc astep (p, w) (p', w') → rtc astep (defer c p, w) (defer c p', w').
Proof.
  intros Hr. remember (p, w) as s eqn:Es. remember (p', w') as s' eqn:Es'. revert p w Es.
  induction Hr as [s|s1 s2 s3 Hs _ IH]; intros p w Es; subst.
  - injection Es as <- <-. apply rtc_refl.
  - inversion Hs; subst. eapply rtc_l; [by constructor|]. by apply IH.
Qed.

Lemma sim_ret {A : Type} (a : A) : sim (mret a) (mret a).
Proof. intros w o w' HE. injection HE as <- <-. apply rtc_refl. Qed.

Lemma sim_panic {A : Type} msg : sim (@go_panic W A msg) (Throw msg).
Proof. intros w o w' HE. injection HE as <- <-. apply rtc_refl. Qed.

Lemma sim_fuel {A : Type} (p : prog W A) : sim (λ w, (OutOfFuel, w)) p.
Proof. intros w o w' HE. by injection HE as <- <-. Qed.

Lemma sim_atomic {A : Type} (m : Go W A) : sim m (atomic m).
Proof.
  intros w o w' HE. unfold atomic. set (k := λ o, _).
  assert (o ≠ OutOfFuel → rtc astep (Act (ends_in m) k, w) (k o, w')) as Ho
    by (intros Hne; by apply rtc_once, astep_act).
  destruct o as [a|msg|]; [by apply Ho.. | done].
Qed.

Lemma sim_bind {A B : Type} (m : Go W A) (f : A → Go W B) p (g : A → prog W B) :
  sim m p → (∀ a, sim (f a) (g a)) → sim (m ≫= f) (p ≫= g).
Proof.
  intros Hm Hf w o w' HE. rewrite go_bind_run in HE.
  destruct (m w) as [r w1] eqn:Em. specialize (Hm w r w1 Em). destruct r as [a|msg|].
  - specialize (Hf a w1 o w' HE). apply (astep_bind g) in Hm.
    destruct o as [b|msg|]; [| |done]; (etrans; [exact Hm | exact Hf]).
  - injection HE as <- <-. exact (astep_bind g _ _ _ _ Hm).
  - by injection HE as <- <-.
Qed.

Lemma sim_defer {A : Type} (d : Go W unit) (m : Go W A) c p :
  sim d c → sim m p → sim (go_defer d m) (defer c p).
Proof.
  intros Hd Hm w o w' HE. unfold go_defer in HE.
  destruct (m w) as [r w1] eqn:Em. specialize (Hm w r w1 Em).
  destruct r as [a|msg|]; [| |by injection HE as <- <-];
    specialize (Hd w1); destruct (d w1) as [u w2]; specialize (Hd u w2 eq_refl);
    apply (astep_defer c) in Hm; destruct u as [[]|msg'|]; injection HE as <- <-; try done;
    (etrans; [exact Hm|]).
  - exact (astep_bind (λ _, Ret a) _ _ _ _ Hd).
  - exact (astep_bind (λ _, Ret a) _ _ _ _ Hd).
  - exact (astep_bind (λ _, Throw msg) _ _ _ _ Hd).
  - exact (astep_bind (λ _, Throw msg) _ _ _ _ Hd).
Qed.

(** *** All runs of a goroutine alone *)

Lemma astep_inv {A : Type} (s s' : prog W A * W) :
  astep s s' → match s.1 with Act R k => ∃ b, R s.2 b s'.2 ∧ s'.1 = k b | _ => False end.
Proof. intros [B R k w b w' HR]. by exists b. Qed.

(** The action has one answer at most, which depends on the world only. *)
Definition deterministic (B : Type) (R : W → B → W → Prop) : Prop :=
  ∀ w b1 w1 b2 w2, R w b1 w1 → R w b2 w2 → b1 = b2 ∧ w1 = w2.

Lemma deterministic_ends_in {B : Type} (m : Go W B) : deterministic _ (ends_in m).
Proof. intros w b1 w1 b2 w2 [H1 _] [H2 _]. rewrite H1 in H2. by injection H2. Qed.

(** From there every run of [p] goes on to the result [r]. *)
Definition settles {A : Type} (p : prog W A) (w : W) (r : prog W A) (w' : W) : Prop :=
  rtc astep (p, w) (r, w') ∧ finished r = true ∧ ∀ s, rtc astep (p, w) s → rtc astep s (r, w').

Lemma deterministic_settles {A : Type} (p : prog W A) w r w' :
  acts deterministic p → finished r = true → rtc astep (p, w) (r, w') → settles p w r w'.
Proof.
  intros Hp Hf Hr. split; [done|]. split; [done|]. intros s Hs.
  revert w Hp Hr Hs. induction p as [A a|A msg|A B R k IH|A q _ k IH]; intros w Hp Hr Hs.
  all: destruct (rtc_inv _ _ Hs) as [<-|(s1 & Hs1 & Hs2)]; [done|]; apply astep_inv in Hs1; simpl in Hs1;
    try done.
  destruct (rtc_inv _ _ Hr) as [Er|(s2 & Hr1 & Hr2)]; [by injection Er as <-|].
  apply astep_inv in Hr1. simpl in Hr1. destruct Hp as [HR Hk].
  destruct s1 as [p1 w1], s2 as [p2 w2]; simpl in *.
  destruct Hs1 as (b1 & Hb1 & ->), Hr1 as (b2 & Hb2 & ->).
  destruct (HR _ _ _ _ _ Hb1 Hb2) as [-> ->]. by apply (IH b2 r Hf s w2).
Qed.

(** Its steps are steps of any pool it is in. *)
Lemma astep_pool ths i p w p' w' :
  ths !! i = Some p → rtc astep (p, w) (p', w') → rtc pstep (ths, w) (<[i := p']> ths, w').
Proof.
  intros Hi Hr. remember (p, w) as s eqn:Es. remember (p', w') as s' eqn:Es'. revert p w ths Es Hi.
  induction Hr as [s|s1 s2 s3 Hs _ IH]; intros p w ths Es Hi; subst.
  - injection Es as <- <-. rewrite list_insert_id by done. apply rtc_refl.
  - inversion Hs as [B R k w0 b w1 HR]; subst. eapply rtc_l; [by eapply pstep_act|].
    rewrite <- (list_insert_insert_eq ths i p' (k b)). eapply IH; [done..|].
    apply list_lookup_insert_eq. by eapply lookup_lt_Some.
Qed.
End Logic.

#[export] Hint Resolve sim_ret sim_panic sim_fuel sim_atomic : gomonad.
End GC.
