(* ===== verification/CircuitBreaker.v ===== *)
(** * resilience/circuit.go: the circuit breaker

    Every method takes the breaker's mutex for its whole body, so that any
    interleaving of goroutines is a sequence of the atomic steps below
    ([event]): [beforeRequest] and [afterRequest], the two halves of [Execute];
    [State] and [Metrics]; [Reset].  The argument [now] of a step is the reading
    of the clock by [time.Now] in it.  The field [notified] is a history
    variable: the calls made to [config.OnStateChange], oldest first. *)

From S2P Require Import Prelude.
From S2P Require Import GoRuntime.
Local Open Scope Z_scope.

Module CB.

(** ** Data *)

Inductive State := StateClosed | StateOpen | StateHalfOpen.

#[export] Instance State_eq_dec : EqDecision State.
Proof. solve_decision. Defined.

(** The [iota] constants. *)
Definition State_int (s : State) : Z :=
  match s with StateClosed => 0 | StateOpen => 1 | StateHalfOpen => 2 end.

(** [State.String], on any value of the underlying [int]. *)
Definition String (s : Z) : string :=
  if s =? State_int StateClosed then "closed"
  else if s =? State_int StateOpen then "open"
  else if s =? State_int StateHalfOpen then "half-open"
  else "unknown".

(** [OnStateChange] says whether the callback is set; a nil [IsFailure] is [None]. *)
Record CircuitBreakerConfig := MkConfig {
  MaxFailures : Z;
  ResetTimeout : Duration;
  HalfOpenMaxRequests : Z;
  OnStateChange : bool;
  IsFailure : option (option error → bool);
}.

(** [isFailure] is [config.IsFailure] after the constructor's defaulting. *)
Record CircuitBreaker := MkCB {
  config : CircuitBreakerConfig;
  isFailure : option error → bool;
  state : State;
  failures : Z;
  successes : Z;
  lastFailure : Time;
  halfOpenCount : Z;
  notified : list (State * State);
}.

Definition ErrCircuitOpen : error := Sentinel "resilience: circuit breaker is open".

(** Assignments to single fields. *)
Definition with_state s cb := MkCB (config cb) (isFailure cb) s (failures cb)
  (successes cb) (lastFailure cb) (halfOpenCount cb) (notified cb).
Definition with_failures n cb := MkCB (config cb) (isFailure cb) (state cb) n
  (successes cb) (lastFailure cb) (halfOpenCount cb) (notified cb).
Definition with_successes n cb := MkCB (config cb) (isFailure cb) (state cb) (failures cb)
  n (lastFailure cb) (halfOpenCount cb) (notified cb).
Definition with_lastFailure t cb := MkCB (config cb) (isFailure cb) (state cb) (failures cb)
  (successes cb) t (halfOpenCount cb) (notified cb).
Definition with_halfOpenCount n cb := MkCB (config cb) (isFailure cb) (state cb) (failures cb)
  (successes cb) (lastFailure cb) n (notified cb).
Definition called (on : bool) (l : list (State * State)) (from to : State) :=
  if on then l ++ [(from, to)] else l.
#[global] Arguments called : simpl never.

(** [if cb.config.OnStateChange != nil { cb.config.OnStateChange(from, to) }] *)
Definition notify (from to : State) cb :=
  MkCB (config cb) (isFailure cb) (state cb) (failures cb) (successes cb)
    (lastFailure cb) (halfOpenCount cb)
    (called (OnStateChange (config cb)) (notified cb) from to).

(** ** Operations *)

Definition NewCircuitBreaker (cfg : CircuitBreakerConfig) : CircuitBreaker :=
  let maxFailures := if MaxFailures cfg <=? 0 then 5 else MaxFailures cfg in
  let resetTimeout := if ResetTimeout cfg <=? 0 then 30 * Second else ResetTimeout cfg in
  let halfOpen := if HalfOpenMaxRequests cfg <=? 0 then 1 else HalfOpenMaxRequests cfg in
  let isFailure := match IsFailure cfg with None => is_err | Some f => f end in
  MkCB (MkConfig maxFailures resetTimeout halfOpen (OnStateChange cfg) (Some isFailure))
    isFailure StateClosed 0 0 0 0 [].

Definition currentStateLocked (now : Time) (cb : CircuitBreaker) : State * CircuitBreaker :=
  let cb :=
    if bool_decide (state cb = StateOpen)
       && (ResetTimeout (config cb) <=? time_Since now (lastFailure cb))
    then notify StateOpen StateHalfOpen (with_halfOpenCount 0 (with_state StateHalfOpen cb))
    else cb in
  (state cb, cb).

Definition setState (s : State) (cb : CircuitBreaker) : CircuitBreaker :=
  let cb := with_state s cb in
  if bool_decide (s = StateHalfOpen) then with_halfOpenCount 0 cb else cb.

Definition beforeRequest (now : Time) (cb : CircuitBreaker) : option error * CircuitBreaker :=
  let '(st, cb) := currentStateLocked now cb in
  match st with
  | StateOpen => (Some ErrCircuitOpen, cb)
  | StateHalfOpen =>
      if HalfOpenMaxRequests (config cb) <=? halfOpenCount cb
      then (Some ErrCircuitOpen, cb)
      else (None, with_halfOpenCount (wrap64 (halfOpenCount cb + 1)) cb)
  | StateClosed => (None, cb)
  end.

Definition afterRequest (now : Time) (err : option error) (cb : CircuitBreaker) : CircuitBreaker :=
  let isFail := isFailure cb err in
  let oldState := state cb in
  let cb :=
    match state cb with
    | StateClosed =>
        if isFail then
          let cb := with_failures (wrap64 (failures cb + 1)) cb in
          let cb := with_lastFailure now cb in
          if MaxFailures (config cb) <=? failures cb then setState StateOpen cb else cb
        else with_failures 0 cb
    | StateHalfOpen =>
        if isFail then setState StateOpen (with_lastFailure now cb)
        else
          let cb := with_successes (wrap64 (successes cb + 1)) cb in
          let cb := setState StateClosed cb in
          with_successes 0 (with_failures 0 cb)
    | StateOpen => cb
    end in
  if bool_decide (oldState ≠ state cb) then notify oldState (state cb) cb else cb.

(** The method [State]. *)
Definition GetState (now : Time) (cb : CircuitBreaker) : State * CircuitBreaker :=
  currentStateLocked now cb.

Definition Reset (cb : CircuitBreaker) : CircuitBreaker :=
  let oldState := state cb in
  let cb := with_state StateClosed cb in
  let cb := with_failures 0 cb in
  let cb := with_successes 0 cb in
  let cb := with_halfOpenCount 0 cb in
  if bool_decide (oldState ≠ StateClosed) then notify oldState StateClosed cb else cb.

Record CircuitBreakerMetrics := MkMetrics {
  m_State : State; m_Failures : Z; m_Successes : Z; m_LastFailure : Time }.

Definition Metrics (now : Time) (cb : CircuitBreaker) : CircuitBreakerMetrics * CircuitBreaker :=
  let '(st, cb) := currentStateLocked now cb in
  (MkMetrics st (failures cb) (successes cb) (lastFailure cb), cb).

Section Execute.
Context {W : Type} `{GoEnv W} (p : Ptr W CircuitBreaker).

(** [beforeRequest] and [afterRequest] read the clock under the mutex, where the state makes use of
    it; here it is read just before, always: the steps of other calls may come in between. *)
Definition Execute (op : Go W (option error)) : Go W (option error) :=
  now ← time_Now;
  rejected ← locked p (beforeRequest now);
  match rejected with
  | Some err => mret (Some err)
  | None =>
      err ← op;
      now ← time_Now;
      _ ← locked p (λ cb, ((), afterRequest now err cb));
      mret err
  end.
End Execute.

(** ** Steps and reachability *)

Inductive event :=
| EvBefore (now : Time)
| EvAfter (now : Time) (err : option error)
| EvState (now : Time)
| EvMetrics (now : Time)
| EvReset.

Definition step (e : event) (cb : CircuitBreaker) : CircuitBreaker :=
  match e with
  | EvBefore now => (beforeRequest now cb).2
  | EvAfter now err => afterRequest now err cb
  | EvState now => (GetState now cb).2
  | EvMetrics now => (Metrics now cb).2
  | EvReset => Reset cb
  end.

(** The states any interleaving of calls can reach from the constructor. *)
Definition reachable (cfg : CircuitBreakerConfig) (cb : CircuitBreaker) : Prop :=
  ∃ es, cb = run_steps step es (NewCircuitBreaker cfg).

(** ** Invariant *)

(** The transitions of the state machine. *)
Definition transition (s s' : State) : Prop :=
  match s, s' with
  | StateClosed, StateOpen | StateOpen, StateHalfOpen | StateOpen, StateClosed
  | StateHalfOpen, StateOpen | StateHalfOpen, StateClosed => True
  | _, _ => False
  end.

(** [transitions s l s']: [l] is a path of the state machine from [s] to [s']. *)
Inductive transitions (s : State) : list (State * State) → State → Prop :=
| transitions_nil : transitions s [] s
| transitions_snoc l s1 s2 :
    transitions s l s1 → transition s1 s2 → transitions s (l ++ [(s1, s2)]) s2.

Definition int64_config (cfg : CircuitBreakerConfig) : Prop :=
  is_int64 (MaxFailures cfg) ∧ is_int64 (ResetTimeout cfg)
  ∧ is_int64 (HalfOpenMaxRequests cfg).

(** The calls of the callback, when it is set, form a path from the initial state. *)
Definition notified_ok (on : bool) (l : list (State * State)) (s : State) : Prop :=
  if on then transitions StateClosed l s else l = [].

Record inv (cb : CircuitBreaker) : Prop := {
  inv_max : 0 < MaxFailures (config cb) ≤ int64_max;
  inv_reset : 0 < ResetTimeout (config cb) ≤ int64_max;
  inv_half : 0 < HalfOpenMaxRequests (config cb) ≤ int64_max;
  inv_failures : 0 ≤ failures cb ≤ MaxFailures (config cb);
  inv_closed : state cb = StateClosed → failures cb < MaxFailures (config cb);
  inv_successes : successes cb = 0;
  inv_count : 0 ≤ halfOpenCount cb ≤ HalfOpenMaxRequests (config cb);
  inv_notified : notified_ok (OnStateChange (config cb)) (notified cb) (state cb);
}.

(** ** Lemmas on the steps *)

Ltac cb_unfold :=
  unfold GetState, Metrics, Reset, afterRequest, beforeRequest, currentStateLocked,
    setState, notify, with_state, with_failures, with_successes, with_lastFailure,
    with_halfOpenCount in *; simpl in *.

(** Opens the breaker [cb], splits on its state and on the tests of the step. *)
Ltac cb_cases cb :=
  let s := fresh "s" in
  destruct cb as [? ? s ? ? ? ? ?]; destruct s; simpl; cb_unfold;
  repeat (match goal with
    | |- context [bool_decide ?P] =>
        first [rewrite (bool_decide_true P) by done | rewrite (bool_decide_false P) by congruence]
    | |- context [if ?b then _ else _] =>
        lazymatch b with OnStateChange _ => fail | _ => let E := fresh "E" in destruct b eqn:E end
    end; simpl in * ); zbool.

Lemma notified_ok_snoc on l s1 s2 :
  notified_ok on l s1 → transition s1 s2 →
  notified_ok on (called on l s1 s2) s2.
Proof. destruct on; simpl; [by econstructor | done]. Qed.

Lemma new_inv cfg : int64_config cfg → inv (NewCircuitBreaker cfg).
Proof.
  intros (? & ? & ?). unfold NewCircuitBreaker, Second, int64_config, is_int64 in *.
  split; simpl; try (solve_bounds; unfold int64_max; lia); try done.
  destruct (OnStateChange cfg); [constructor | done].
Qed.

Lemma step_config e cb : config (step e cb) = config cb ∧ isFailure (step e cb) = isFailure cb.
Proof.
  destruct e; unfold step, GetState, Metrics, Reset, afterRequest, beforeRequest,
    currentStateLocked, setState; simpl; repeat case_match; done.
Qed.

Lemma wrap64_counter n m : 0 ≤ n < m → m ≤ int64_max → wrap64 (n + 1) = n + 1.
Proof. intros. apply wrap64_id. unfold is_int64, int64_min, int64_max in *. lia. Qed.

#[local] Hint Resolve notified_ok_snoc : core.

Lemma step_inv e cb : inv cb → inv (step e cb).
Proof.
  intros [Hmax Hreset Hhalf Hf Hc Hs Hn Hl].
  destruct e; cb_cases cb; try specialize (Hc eq_refl);
    (split; simpl; try assumption; try lia; try discriminate;
     try (by apply notified_ok_snoc));
    (erewrite wrap64_counter; [|split; [|eassumption]|]; lia).
Qed.

Lemma reachable_inv cfg cb : int64_config cfg → reachable cfg cb → inv cb.
Proof.
  intros Hc [es ->]. apply run_steps_ind; [apply step_inv | by apply new_inv].
Qed.

#[export] Hint Resolve new_inv step_inv reachable_inv : toolops_inv.

(** *** The closed state *)

(** The reports of a list of finished operations. *)
Definition reports (outs : list (Time * option error)) : list event :=
  (λ '(t, err), EvAfter t err) <$> outs.

Lemma after_open now err cb : state cb = StateOpen → afterRequest now err cb = cb.
Proof. intros H. unfold afterRequest. rewrite H. simpl. by case_bool_decide. Qed.

Lemma reports_open outs cb :
  state cb = StateOpen → run_steps step (reports outs) cb = cb.
Proof.
  intros H. induction outs as [|[t err] outs IH]; simpl; [done|].
  by rewrite after_open.
Qed.

Lemma after_closed now err cb :
  inv cb → state cb = StateClosed →
  let cb' := afterRequest now err cb in
  if isFailure cb err
  then if MaxFailures (config cb) <=? failures cb + 1
       then state cb' = StateOpen ∧ lastFailure cb' = now
       else state cb' = StateClosed ∧ failures cb' = failures cb + 1
  else state cb' = StateClosed ∧ failures cb' = 0.
Proof.
  intros [Hmax _ _ Hf Hc _ _ _] Hst. specialize (Hc Hst).
  unfold afterRequest. rewrite Hst. destruct (isFailure cb err); simpl.
  - rewrite (wrap64_counter _ (MaxFailures (config cb))) by lia.
    unfold setState. simpl. destruct (_ <=? _); simpl; rewrite ?Hst; split; first [done | by rewrite Hst].
  - rewrite Hst. split; first [done | by rewrite Hst].
Qed.

Lemma reports_closed outs cb :
  inv cb → state cb = StateClosed →
  state (run_steps step (reports outs) cb) =
  if reaches (isFailure cb ∘ snd) (Z.to_nat (MaxFailures (config cb)))
       (Z.to_nat (failures cb)) outs
  then StateOpen else StateClosed.
Proof.
  revert cb. induction outs as [|[t err] outs IH]; intros cb Hinv Hst; [done|].
  change (reports ((t, err) :: outs)) with (EvAfter t err :: reports outs).
  rewrite run_steps_cons. simpl.
  pose proof (step_inv (EvAfter t err) cb Hinv) as Hinv'.
  pose proof (step_config (EvAfter t err) cb) as [Hcfg Hf].
  pose proof (after_closed t err cb Hinv Hst) as Hstep.
  pose proof (inv_max _ Hinv). pose proof (inv_failures _ Hinv).
  simpl in *. destruct (isFailure cb err).
  - destruct (MaxFailures (config cb) <=? failures cb + 1) eqn:E; zbool;
      destruct Hstep as [Hst' Hfail].
    + rewrite (proj2 (Nat.leb_le _ _)) by lia. simpl.
      by rewrite (reports_open _ _ Hst').
    + rewrite IH by done. rewrite Hcfg, Hf, Hfail.
      rewrite (proj2 (Nat.leb_gt _ _)) by lia.
      by replace (Z.to_nat (failures cb + 1)) with (S (Z.to_nat (failures cb))) by lia.
  - destruct Hstep as [Hst' Hfail]. rewrite IH by done. by rewrite Hcfg, Hf, Hfail.
Qed.

(** From a closed breaker with no failure counted, the outcomes of the operations
    that finish open the circuit exactly when [MaxFailures] consecutive ones are
    failures; otherwise it stays closed. *)
Theorem opens_iff_consecutive_failures cb outs :
  inv cb → state cb = StateClosed → failures cb = 0 →
  let run := has_run (isFailure cb ∘ snd) (Z.to_nat (MaxFailures (config cb))) outs in
  let cb' := run_steps step (reports outs) cb in
  (run → state cb' = StateOpen) ∧ (¬ run → state cb' = StateClosed).
Proof.
  intros Hinv Hst Hf run cb'. unfold cb', run. rewrite reports_closed by done.
  pose proof (inv_max _ Hinv). rewrite Hf. simpl.
  pose proof (reaches_spec (isFailure cb ∘ snd) (Z.to_nat (MaxFailures (config cb))) 0 outs
    ltac:(lia)) as Hr.
  pose proof (has_run_lead (isFailure cb ∘ snd) (Z.to_nat (MaxFailures (config cb))) outs).
  destruct (reaches _ _ _ _); intuition congruence.
Qed.

(** *** The open state *)

(** A step that takes place before the reset timeout of a breaker opened at [since]
    is over, and is not a manual [Reset]. *)
Definition early (since : Time) (timeout : Duration) (e : event) : Prop :=
  match e with
  | EvBefore now | EvState now | EvMetrics now => time_Since now since < timeout
  | EvAfter _ _ => True
  | EvReset => False
  end.

Lemma current_early now cb :
  state cb ≠ StateOpen ∨ time_Since now (lastFailure cb) < ResetTimeout (config cb) →
  currentStateLocked now cb = (state cb, cb).
Proof.
  intros H. unfold currentStateLocked.
  destruct (bool_decide_reflect (state cb = StateOpen)); simpl; [|done].
  rewrite (proj2 (Z.leb_gt _ _)); [done | by destruct H].
Qed.

Lemma before_early now cb :
  state cb = StateOpen → time_Since now (lastFailure cb) < ResetTimeout (config cb) →
  beforeRequest now cb = (Some ErrCircuitOpen, cb).
Proof. intros Hst H. unfold beforeRequest. rewrite current_early by auto. by rewrite Hst. Qed.

Lemma step_early e cb :
  state cb = StateOpen → early (lastFailure cb) (ResetTimeout (config cb)) e → step e cb = cb.
Proof.
  intros Hst He. destruct e as [now|now err|now|now|]; unfold step, early in *; [| | | |done].
  - by rewrite before_early.
  - by apply after_open.
  - unfold GetState. by rewrite current_early by auto.
  - unfold Metrics. by rewrite current_early by auto.
Qed.

(** When the reset timeout is over, the first request finds the breaker half-open,
    is let through, and is the only one counted. *)
Theorem recovery_after_timeout now cb :
  inv cb → state cb = StateOpen → ResetTimeout (config cb) ≤ time_Since now (lastFailure cb) →
  let '(err, cb') := beforeRequest now cb in
  err = None ∧ state cb' = StateHalfOpen ∧ halfOpenCount cb' = 1 ∧ inv cb'.
Proof.
  intros Hinv Hst Ht. pose proof (step_inv (EvBefore now) cb Hinv) as Hinv'. simpl in Hinv'.
  revert Hinv'. unfold beforeRequest, currentStateLocked.
  rewrite Hst, (proj2 (Z.leb_le _ _)) by done. simpl.
  rewrite (proj2 (Z.leb_gt _ _)) by (destruct Hinv; lia). done.
Qed.

(** C34. Until [ResetTimeout] after the last failure an open breaker rejects every request, and
    nothing but [Reset] changes it; and then, when the timeout is over, the first request is
    let through, as the only probe of a half-open breaker. *)
Theorem open_blocks cb es :
  inv cb → state cb = StateOpen →
  Forall (early (lastFailure cb) (ResetTimeout (config cb))) es →
  run_steps step es cb = cb ∧
  (∀ now, EvBefore now ∈ es → beforeRequest now cb = (Some ErrCircuitOpen, cb)) ∧
  ∀ now, ResetTimeout (config cb) ≤ time_Since now (lastFailure cb) →
    let '(err, cb') := beforeRequest now (run_steps step es cb) in
    err = None ∧ state cb' = StateHalfOpen ∧ halfOpenCount cb' = 1 ∧ inv cb'.
Proof.
  intros Hinv Hst Hes.
  assert (run_steps step es cb = cb) as Hrun.
  { induction Hes as [|e es He _ IH]; [done|]. by rewrite run_steps_cons, step_early. }
  split; [done|]. split.
  - intros now Hin. rewrite Forall_forall in Hes. specialize (Hes _ Hin).
    by apply before_early.
  - intros now Ht. rewrite Hrun. by apply recovery_after_timeout.
Qed.

(** *** The half-open state *)

(** The requests let through by [es] while the breaker stays half-open. *)
Fixpoint probes (es : list event) (cb : CircuitBreaker) : nat :=
  match es with
  | [] => 0
  | e :: es =>
      let cb' := step e cb in
      if bool_decide (state cb' = StateHalfOpen) then
        (match e with
         | EvBefore now => if is_err (beforeRequest now cb).1 then 0 else 1
         | _ => 0
         end + probes es cb')%nat
      else 0
  end.

Lemma before_half now cb :
  inv cb → state cb = StateHalfOpen →
  beforeRequest now cb =
    if HalfOpenMaxRequests (config cb) <=? halfOpenCount cb
    then (Some ErrCircuitOpen, cb)
    else (None, with_halfOpenCount (halfOpenCount cb + 1) cb).
Proof.
  intros [_ _ Hh _ _ _ Hn _] Hst. unfold beforeRequest.
  rewrite current_early by (left; congruence). rewrite Hst.
  destruct (_ <=? _) eqn:E; zbool; [done|].
  by rewrite (wrap64_counter _ (HalfOpenMaxRequests (config cb))) by lia.
Qed.

Lemma half_step_count e cb :
  inv cb → state cb = StateHalfOpen → state (step e cb) = StateHalfOpen →
  halfOpenCount (step e cb) = halfOpenCount cb +
    match e with
    | EvBefore now => if is_err (beforeRequest now cb).1 then 0 else 1
    | _ => 0
    end.
Proof.
  intros Hinv Hst Hst'.
  destruct e as [now|now err|now|now|]; unfold step in *.
  - rewrite before_half by done. destruct (_ <=? _); simpl; lia.
  - revert Hst'. unfold afterRequest. rewrite Hst.
    destruct (isFailure cb err); simpl; try case_bool_decide; simpl; done.
  - unfold GetState. rewrite current_early by (left; congruence). simpl. lia.
  - unfold Metrics. rewrite current_early by (left; congruence). simpl. lia.
  - revert Hst'. unfold Reset. rewrite Hst. simpl. done.
Qed.

(** C10. A half-open breaker lets through at most [HalfOpenMaxRequests] requests, counting
    those already let through, along every interleaving of steps, until it leaves the
    half-open state. *)
Theorem half_open_bound cb es :
  inv cb → state cb = StateHalfOpen →
  halfOpenCount cb + Z.of_nat (probes es cb) ≤ HalfOpenMaxRequests (config cb).
Proof.
  revert cb. induction es as [|e es IH]; intros cb Hinv Hst.
  { simpl. destruct Hinv. lia. }
  simpl. case_bool_decide as Hst'.
  - pose proof (half_step_count e cb Hinv Hst Hst') as Hn.
    specialize (IH (step e cb) (step_inv e cb Hinv) Hst').
    rewrite (proj1 (step_config e cb)) in IH.
    destruct e; try case_match; simpl in *; lia.
  - destruct Hinv. lia.
Qed.

(** *** Counters and callbacks *)

(** In every reachable state the counters are within the configured limits, so that
    no increment overflows, and [successes] reads 0. *)
Theorem counters_bounded cfg cb :
  int64_config cfg → reachable cfg cb →
  0 ≤ failures cb ≤ MaxFailures (config cb) ∧
  (state cb = StateClosed → failures cb < MaxFailures (config cb)) ∧
  0 ≤ halfOpenCount cb ≤ HalfOpenMaxRequests (config cb) ∧
  MaxFailures (config cb) ≤ int64_max ∧ HalfOpenMaxRequests (config cb) ≤ int64_max ∧
  successes cb = 0.
Proof. intros Hc Hr. destruct (reachable_inv _ _ Hc Hr). split_and!; first [done | lia]. Qed.

Lemma reachable_config cfg cb :
  reachable cfg cb → config cb = config (NewCircuitBreaker cfg).
Proof.
  intros [es ->]. apply (run_steps_ind step
    (λ cb, config cb = config (NewCircuitBreaker cfg))); [|done].
  intros e cb IH. by rewrite (proj1 (step_config e cb)).
Qed.

(** When the callback is set, its calls, in order, are a path of the state machine
    that starts at closed and ends at the current state: no change of state goes
    unreported, none is reported twice, and none is illegal. *)
Theorem callbacks_trace_the_state cfg cb :
  int64_config cfg → OnStateChange cfg = true → reachable cfg cb →
  transitions StateClosed (notified cb) (state cb).
Proof.
  intros Hc Hon Hr. pose proof (inv_notified _ (reachable_inv _ _ Hc Hr)) as Hl.
  rewrite (reachable_config _ _ Hr) in Hl. simpl in Hl. by rewrite Hon in Hl.
Qed.

(** *** Execute *)

Section ExecuteProofs.
Context {W : Type} `{GoEnv W} (p : Ptr W CircuitBreaker) `{!EnvFrame p}.

Lemma Execute_unfold op w :
  Execute p op w =
    let '(now, w1) := env_now w in
    let '(rejected, cb) := beforeRequest now (load p w1) in
    match rejected with
    | Some err => (Val (Some err), store p cb w1)
    | None =>
        match op (store p cb w1) with
        | (Val err, w2) =>
            let '(now', w3) := env_now w2 in
            (Val err, store p (afterRequest now' err (load p w3)) w3)
        | (Panic msg, w2) => (Panic msg, w2)
        | (OutOfFuel, w2) => (OutOfFuel, w2)
        end
    end.
Proof.
  unfold Execute, time_Now, locked, go_lift, mbind, go_bind, mret, go_ret.
  destruct (env_now w) as [now w1]. destruct (beforeRequest now (load p w1)) as [[err|] cb]; [done|].
  destruct (op (store p cb w1)) as [[err|msg|] w2]; [|done..].
  by destruct (env_now w2).
Qed.

(** While the circuit is open and the timeout not over, [Execute] returns
    [ErrCircuitOpen] without running the operation and leaves the breaker as it was. *)
Theorem Execute_fails_fast op w now w' :
  state (load p w) = StateOpen → env_now w = (now, w') →
  time_Since now (lastFailure (load p w)) < ResetTimeout (config (load p w)) →
  Execute p op w = (Val (Some ErrCircuitOpen), w').
Proof.
  intros Hst Hnow Ht. rewrite Execute_unfold, Hnow.
  assert (load p w' = load p w) as Hl by (pose proof (frame_now w) as Hf; by rewrite Hnow in Hf).
  rewrite Hl, (before_early _ _ Hst Ht), <- Hl. by rewrite store_load.
Qed.

(** What [Execute] does with an accepted operation: it returns the operation's own
    result and reports that result to the breaker; an operation that panics is never
    reported, so that its slot of a half-open breaker stays taken. *)
Theorem Execute_reports op w now w1 cb :
  env_now w = (now, w1) → beforeRequest now (load p w) = (None, cb) →
  match op (store p cb w1) with
  | (Val err, w2) =>
      ∃ w3, Execute p op w = (Val err, w3) ∧
      load p w3 = afterRequest (env_now w2).1 err (load p w2)
  | (Panic msg, w2) => Execute p op w = (Panic msg, w2)
  | (OutOfFuel, w2) => Execute p op w = (OutOfFuel, w2)
  end.
Proof.
  intros Hnow Hb. rewrite Execute_unfold, Hnow.
  assert (load p w1 = load p w) as Hl by (pose proof (frame_now w) as Hf; by rewrite Hnow in Hf).
  rewrite Hl, Hb. destruct (op (store p cb w1)) as [[err|msg|] w2]; [|done..].
  pose proof (frame_now w2) as Hf2. destruct (env_now w2) as [now' w3]. simpl in *.
  eexists. split; [done|]. by rewrite load_store, Hf2.
Qed.
End ExecuteProofs.

Lemma breaker_total {W} `{GoEnv W} (p : Ptr W CircuitBreaker) op : total op → total (Execute p op).
Proof. intros Hop. unfold Execute. total. Qed.

#[global] Instance Execute_layer {W} `{GoEnv W} (p : Ptr W CircuitBreaker) :
  Layer (Execute p) (apart p).
Proof.
  split.
  - intros op1 op2 Hop. unfold Execute. f_equiv. intros now. f_equiv. intros [err|]; [done|].
    by f_equiv.
  - intros S I q op [Hd Hf] Hop. unfold Execute. keeps.
Qed.

(** *** The wedged half-open state *)

(** Steps other than the completion of a request and the manual [Reset]. *)
Definition arrival (e : event) : Prop :=
  match e with EvAfter _ _ | EvReset => False | _ => True end.

(** A half-open breaker whose slots are all taken by operations that never report (as
    after a panic) rejects every later request at any time: no timeout leads out of the
    half-open state. *)
Theorem half_open_wedged cb es :
  inv cb → state cb = StateHalfOpen → halfOpenCount cb = HalfOpenMaxRequests (config cb) →
  Forall arrival es →
  run_steps step es cb = cb ∧ ∀ now, beforeRequest now cb = (Some ErrCircuitOpen, cb).
Proof.
  intros Hinv Hst Hn Hes.
  assert (∀ now, beforeRequest now cb = (Some ErrCircuitOpen, cb)) as Hb.
  { intros now. rewrite before_half by done. by rewrite (proj2 (Z.leb_le _ _)) by lia. }
  split; [|done]. induction Hes as [|e es He _ IH]; [done|]. rewrite run_steps_cons.
  replace (step e cb) with cb; [done|].
  destruct e; unfold step, GetState, Metrics; try done; [by rewrite Hb | |];
    by rewrite current_early by (left; congruence).
Qed.

(** ** Abstract specification and refinement *)

(** The contract of a circuit breaker: closed with a count of consecutive failures, open
    since the last failure, or probing with a count of the requests let through. *)
Inductive breaker :=
| Closed (consecutive : Z)
| Opened (since : Time)
| Probing (let_through : Z).

Inductive reply :=
| Answer (rejected : option error)
| InState (s : State)
| NoReply.

Section Spec.
Context (maxFailures halfOpenMax : Z) (resetTimeout : Duration) (fails : option error → bool).

Definition spec_state (b : breaker) : State :=
  match b with
  | Closed _ => StateClosed
  | Opened _ => StateOpen
  | Probing _ => StateHalfOpen
  end.

(** The reset timeout, seen by every step that looks at the clock. *)
Definition spec_tick (now : Time) (b : breaker) : breaker :=
  match b with
  | Opened since => if decide (resetTimeout ≤ time_Since now since) then Probing 0 else b
  | _ => b
  end.

Definition spec_step (e : event) (b : breaker) : reply * breaker :=
  match e with
  | EvBefore now =>
      match spec_tick now b with
      | Closed n => (Answer None, Closed n)
      | Opened since => (Answer (Some ErrCircuitOpen), Opened since)
      | Probing n =>
          if decide (n < halfOpenMax) then (Answer None, Probing (n + 1))
          else (Answer (Some ErrCircuitOpen), Probing n)
      end
  | EvAfter now err =>
      (NoReply,
       match b with
       | Closed n =>
           if fails err
           then if decide (n + 1 < maxFailures) then Closed (n + 1) else Opened now
           else Closed 0
       | Opened since => Opened since
       | Probing _ => if fails err then Opened now else Closed 0
       end)
  | EvState now | EvMetrics now =>
      let b := spec_tick now b in
      (InState (spec_state b), b)
  | EvReset => (NoReply, Closed 0)
  end.
End Spec.

(** What a caller sees of a step of the code. *)
Definition reply_of (e : event) (cb : CircuitBreaker) : reply :=
  match e with
  | EvBefore now => Answer (beforeRequest now cb).1
  | EvAfter _ _ | EvReset => NoReply
  | EvState now => InState (GetState now cb).1
  | EvMetrics now => InState (m_State (Metrics now cb).1)
  end.

(** The abstraction function. *)
Definition abs (cb : CircuitBreaker) : breaker :=
  match state cb with
  | StateClosed => Closed (failures cb)
  | StateOpen => Opened (lastFailure cb)
  | StateHalfOpen => Probing (halfOpenCount cb)
  end.

Definition spec_of (cb : CircuitBreaker) :=
  spec_step (MaxFailures (config cb)) (HalfOpenMaxRequests (config cb))
    (ResetTimeout (config cb)) (isFailure cb).

Lemma current_abs now cb :
  abs (currentStateLocked now cb).2 = spec_tick (ResetTimeout (config cb)) now (abs cb) ∧
  (currentStateLocked now cb).1 = state (currentStateLocked now cb).2.
Proof.
  unfold currentStateLocked, abs, spec_tick. split; [|done].
  destruct (state cb) eqn:Hst; simpl; rewrite ?Hst; [done | | done].
  destruct (_ <=? _) eqn:E; zbool; case_decide; simpl; rewrite ?Hst; done || lia.
Qed.

Lemma abs_state cb : spec_state (abs cb) = state cb.
Proof. unfold abs. by destruct (state cb). Qed.

Lemma before_spec now cb :
  inv cb → spec_of cb (EvBefore now) (abs cb) =
    (Answer (beforeRequest now cb).1, abs (beforeRequest now cb).2).
Proof.
  intros Hinv. pose proof (step_inv (EvState now) cb Hinv) as Hinv'.
  pose proof (step_config (EvState now) cb) as [Hcfg _].
  destruct (current_abs now cb) as [Habs Hst]. unfold step, GetState in *.
  unfold spec_of, spec_step, beforeRequest. rewrite <- Habs.
  destruct (currentStateLocked now cb) as [st cb']. simpl in *. rewrite <- Hcfg. subst st.
  unfold abs. destruct (state cb') eqn:E; simpl; rewrite ?E; [done..|].
  destruct (_ <=? _) eqn:Ec; zbool; case_decide; try lia; simpl; rewrite ?E; [done|].
  by rewrite (wrap64_counter _ (HalfOpenMaxRequests (config cb'))) by (destruct Hinv'; lia).
Qed.

Lemma after_spec now err cb :
  inv cb → spec_of cb (EvAfter now err) (abs cb) = (NoReply, abs (afterRequest now err cb)).
Proof.
  intros Hinv. unfold spec_of, spec_step. f_equal. unfold abs at 1.
  destruct (state cb) eqn:Hst.
  - pose proof (after_closed now err cb Hinv Hst) as Ha. simpl in Ha. unfold abs.
    destruct (isFailure cb err); [|by destruct Ha as [-> ->]].
    destruct (_ <=? _) eqn:E; zbool; destruct Ha as [-> ->]; case_decide; done || lia.
  - rewrite after_open by done. unfold abs. by rewrite Hst.
  - unfold afterRequest, abs. rewrite Hst. by destruct (isFailure cb err).
Qed.

Lemma step_spec e cb :
  inv cb → spec_of cb e (abs cb) = (reply_of e cb, abs (step e cb)).
Proof.
  intros Hinv. destruct e as [now|now err|now|now|].
  - by apply before_spec.
  - by apply after_spec.
  - unfold spec_of, spec_step, reply_of, step, GetState.
    destruct (current_abs now cb) as [<- ->]. by rewrite abs_state.
  - unfold spec_of, spec_step, reply_of, step, Metrics.
    destruct (current_abs now cb) as [<- Hs].
    destruct (currentStateLocked now cb) as [st cb']. simpl in *.
    by rewrite Hs, <- abs_state.
  - by unfold reply_of, step, Reset; case_bool_decide.
Qed.

Lemma step_spec_of e cb : spec_of (step e cb) = spec_of cb.
Proof. unfold spec_of. by destruct (step_config e cb) as [-> ->]. Qed.

(** The answers of the code, and of the abstract breaker [spec], along a run. *)
Fixpoint replies (es : list event) (cb : CircuitBreaker) : list reply :=
  match es with
  | [] => []
  | e :: es => reply_of e cb :: replies es (step e cb)
  end.

Fixpoint spec_replies (spec : event → breaker → reply * breaker) (es : list event)
    (b : breaker) : list reply :=
  match es with
  | [] => []
  | e :: es => (spec e b).1 :: spec_replies spec es (spec e b).2
  end.

(** C1. Refinement: along every interleaving of calls, a new breaker gives the answers of
    the abstract breaker and ends in the state it abstracts to. *)
Theorem breaker_refines cfg es :
  int64_config cfg →
  let cb := NewCircuitBreaker cfg in
  replies es cb = spec_replies (spec_of cb) es (Closed 0) ∧
  abs (run_steps step es cb) = run_steps (λ e b, (spec_of cb e b).2) es (Closed 0).
Proof.
  intros Hcfg cb. change (Closed 0) with (abs cb).
  generalize (new_inv cfg Hcfg). fold cb. clearbody cb.
  revert cb. induction es as [|e es IH]; intros cb Hinv; [done|].
  rewrite !run_steps_cons. simpl. rewrite step_spec by done. simpl.
  destruct (IH (step e cb) (step_inv e cb Hinv)) as [-> ->].
  by rewrite !step_spec_of.
Qed.

(** *** Completions of earlier requests *)

(** In the half-open state every completion counts as the probe's: here a request that was let
    through before the circuit opened decides, when no probe has been let through, whether the
    circuit closes or opens again. *)
Lemma late_completion_decides :
  let cb := run_steps step [EvBefore 0; EvBefore 0; EvAfter 1 (Some ErrCircuitOpen); EvState Minute]
    (NewCircuitBreaker (MkConfig 1 Second 1 false None)) in
  state cb = StateHalfOpen ∧ halfOpenCount cb = 0 ∧
  state (afterRequest (Minute + 1) None cb) = StateClosed ∧
  state (afterRequest (Minute + 1) (Some ErrCircuitOpen) cb) = StateOpen.
Proof. vm_compute. done. Qed.

(** ** Witnesses *)

Definition demo_cfg : CircuitBreakerConfig := MkConfig 2 100 1 true None.
Definition demo : CircuitBreaker := NewCircuitBreaker demo_cfg.
Definition boom : option error := Some (Foreign 0).
Definition opening : list event := [EvAfter 10 boom; EvAfter 20 boom].
Definition demo_open : CircuitBreaker := run_steps step opening demo.
Definition demo_half : CircuitBreaker := run_steps step (opening ++ [EvBefore 120]) demo.

Lemma demo_int64 : int64_config demo_cfg.
Proof. unfold int64_config, is_int64, int64_min, int64_max. simpl. lia. Qed.

Lemma demo_inv es : inv (run_steps step es demo).
Proof. apply run_steps_ind; [apply step_inv | apply new_inv, demo_int64]. Qed.

Lemma opens_iff_consecutive_failures_witness :
  state (run_steps step (reports [(5, None); (10, boom); (20, boom)]) demo) = StateOpen ∧
  state (run_steps step (reports [(10, boom); (15, None); (20, boom)]) demo) = StateClosed.
Proof.
  split.
  - refine (proj1 (opens_iff_consecutive_failures demo
      [(5, None); (10, boom); (20, boom)] (new_inv _ demo_int64) eq_refl eq_refl) _).
    exists [(5, None)], [(10, boom); (20, boom)], []. repeat constructor.
  - refine (proj2 (opens_iff_consecutive_failures demo
      [(10, boom); (15, None); (20, boom)] (new_inv _ demo_int64) eq_refl eq_refl) _).
    intros H. pose proof (proj2 (reaches_spec (isFailure demo ∘ snd)
      (Z.to_nat (MaxFailures (config demo))) 0 _ (Nat.lt_0_succ 1)) (or_intror H)) as Hr.
    discriminate Hr.
Defined.

Lemma open_blocks_witness :
  let es := [EvBefore 30; EvAfter 40 None; EvMetrics 110; EvBefore 119] in
  run_steps step es demo_open = demo_open ∧
  (∀ now, EvBefore now ∈ es → beforeRequest now demo_open = (Some ErrCircuitOpen, demo_open)) ∧
  (beforeRequest 120 demo_open).1 = None.
Proof.
  intros es. destruct (open_blocks demo_open es) as (H1 & H2 & H3);
    [apply demo_inv | done | by repeat constructor |].
  split; [exact H1|]. split; [exact H2|].
  specialize (H3 120 ltac:(vm_compute; discriminate)). rewrite H1 in H3.
  destruct (beforeRequest 120 demo_open). apply H3.
Defined.

Lemma half_open_bound_witness :
  halfOpenCount demo_half + Z.of_nat (probes [EvBefore 121; EvState 122; EvBefore 123] demo_half) ≤ 1.
Proof. apply (half_open_bound demo_half); [apply demo_inv | done]. Defined.

Lemma recovery_after_timeout_witness :
  let '(err, cb') := beforeRequest 120 demo_open in
  err = None ∧ state cb' = StateHalfOpen ∧ halfOpenCount cb' = 1 ∧ inv cb'.
Proof.
  apply (recovery_after_timeout 120 demo_open); [apply demo_inv | done | vm_compute; discriminate].
Defined.

Lemma counters_bounded_witness :
  0 ≤ failures demo_half ≤ 2 ∧ (state demo_half = StateClosed → failures demo_half < 2) ∧
  0 ≤ halfOpenCount demo_half ≤ 1 ∧ 2 ≤ int64_max ∧ 1 ≤ int64_max ∧ successes demo_half = 0.
Proof.
  apply (counters_bounded demo_cfg demo_half); [apply demo_int64|].
  by exists (opening ++ [EvBefore 120]).
Defined.

Lemma callbacks_trace_the_state_witness :
  transitions StateClosed [(StateClosed, StateOpen); (StateOpen, StateHalfOpen)] StateHalfOpen.
Proof.
  apply (callbacks_trace_the_state demo_cfg demo_half); [apply demo_int64 | done|].
  by exists (opening ++ [EvBefore 120]).
Defined.

Definition demo_world (t : Time) (cb : CircuitBreaker) : World CircuitBreaker :=
  MkWorld t 1 [] [] 0 [] cb.

Lemma Execute_fails_fast_witness :
  Execute cell (go_panic "never run") (demo_world 50 demo_open)
  = (Val (Some ErrCircuitOpen), demo_world 51 demo_open).
Proof. by apply (Execute_fails_fast cell _ (demo_world 50 demo_open) 50). Defined.

Lemma Execute_reports_witness :
  Execute cell (go_panic "boom") (demo_world 120 demo_open)
  = (Panic "boom", store cell demo_half (demo_world 121 demo_open)).
Proof.
  refine (Execute_reports cell (go_panic "boom") (demo_world 120 demo_open) 120
    (demo_world 121 demo_open) demo_half _ _); vm_compute; reflexivity.
Defined.

Lemma half_open_wedged_witness :
  run_steps step [EvBefore 1000000; EvState 2000000; EvBefore 3000000] demo_half = demo_half ∧
  ∀ now, beforeRequest now demo_half = (Some ErrCircuitOpen, demo_half).
Proof.
  apply (half_open_wedged demo_half); [apply demo_inv | done | done | by repeat constructor].
Defined.

Lemma breaker_refines_witness :
  replies [EvAfter 10 boom; EvAfter 20 boom; EvBefore 50; EvBefore 120; EvBefore 121] demo
  = [NoReply; NoReply; Answer (Some ErrCircuitOpen); Answer None; Answer (Some ErrCircuitOpen)].
Proof.
  destruct (breaker_refines demo_cfg
    [EvAfter 10 boom; EvAfter 20 boom; EvBefore 50; EvBefore 120; EvBefore 121] demo_int64) as [H _].
  exact H.
Defined.

End CB.
