(* ===== verification/RateLimiter.v ===== *)
(** * resilience/ratelimit.go: the token bucket

    [tokens] and [Rate] are float64.  The theorems here are on an integral rate and whole
    seconds, where the arithmetic is exact, and on the values that break it; those for any rate
    and any clock are in [RateLimiterBounds.v].  Every access to the bucket takes the mutex, so
    that an interleaving of goroutines is a sequence of the operations below; [now] is
    the reading of [time.Now] inside an operation. *)

From S2P Require Import Prelude.
From S2P Require Import GoRuntime.
From S2P Require Import GoFloat.
Local Open Scope Z_scope.

Module RL.

(** ** Data *)

Record RateLimiterConfig := MkConfig {
  Rate : float64;
  Burst : Z;
  WaitOnLimit : bool;
  MaxWait : Duration;
}.

Record RateLimiter := MkRL {
  config : RateLimiterConfig;
  tokens : float64;
  lastRefresh : Time;
}.

Definition ErrRateLimitExceeded : error := Sentinel "resilience: rate limit exceeded".

(** ** Operations *)

Definition NewRateLimiter (cfg : RateLimiterConfig) (now : Time) : RateLimiter :=
  let rate := if fleb (Rate cfg) f_zero then f_of_Z 100 else Rate cfg in
  let burst := if Burst cfg <=? 0 then 10 else Burst cfg in
  let maxWait := if MaxWait cfg <=? 0 then Second else MaxWait cfg in
  MkRL (MkConfig rate burst (WaitOnLimit cfg) maxWait) (f_of_Z burst) now.

Definition refillLocked (now : Time) (rl : RateLimiter) : RateLimiter :=
  let elapsed := time_Sub now (lastRefresh rl) in
  let tokensToAdd := fmul (Duration_Seconds elapsed) (Rate (config rl)) in
  let toks := fadd (tokens rl) tokensToAdd in
  let toks := if fltb (f_of_Z (Burst (config rl))) toks
              then f_of_Z (Burst (config rl)) else toks in
  MkRL (config rl) toks now.

Definition AllowN (now : Time) (n : Z) (rl : RateLimiter) : bool * RateLimiter :=
  let rl := refillLocked now rl in
  if fleb (f_of_Z n) (tokens rl)
  then (true, MkRL (config rl) (fsub (tokens rl) (f_of_Z n)) (lastRefresh rl))
  else (false, rl).

Definition Allow (now : Time) (rl : RateLimiter) : bool * RateLimiter := AllowN now 1 rl.

Definition Tokens (now : Time) (rl : RateLimiter) : float64 * RateLimiter :=
  let rl := refillLocked now rl in (tokens rl, rl).

Definition Reset (now : Time) (rl : RateLimiter) : RateLimiter :=
  MkRL (config rl) (f_of_Z (Burst (config rl))) now.

(** The time [WaitN] sleeps for [n] tokens, capped at [MaxWait]. *)
Definition waitTime (a : arch) (n : Z) (rl : RateLimiter) : Duration :=
  let tokensNeeded := fsub (f_of_Z n) (tokens rl) in
  let d := int64_of_f a (fmul (fdiv tokensNeeded (Rate (config rl))) (f_of_Z Second)) in
  if MaxWait (config rl) <? d then MaxWait (config rl) else d.

Section Blocking.
Context {W : Type} `{GoEnv W} (a : arch) (p : Ptr W RateLimiter).

Definition go_AllowN (n : Z) : Go W bool := now ← time_Now; locked p (AllowN now n).

Definition WaitN (n : Z) : Go W (option error) :=
  done ← ctx_Done;
  match done with
  | Some err => mret (Some err)
  | None =>
      ok ← go_AllowN n;
      if (ok : bool) then mret None
      else
        d ← go_get (λ w, waitTime a n (load p w));
        done ← select_After d;
        match done with
        | Some err => mret (Some err)
        | None =>
            ok ← go_AllowN n;
            mret (if (ok : bool) then None else Some ErrRateLimitExceeded)
        end
  end.

Definition Wait : Go W (option error) := WaitN 1.

Definition Execute (op : Go W (option error)) : Go W (option error) :=
  limited ←
    (cfg ← go_get (λ w, config (load p w));
     if WaitOnLimit cfg then Wait
     else
       ok ← go_AllowN 1;
       mret (if (ok : bool) then None else Some ErrRateLimitExceeded));
  match limited with
  | Some err => mret (Some err)
  | None => op
  end.
End Blocking.

(** ** The bucket with an integral rate

    At a rate of [r] tokens per second, and with clock readings whole seconds apart,
    every float64 of the bucket is an integer below 2^53 and the arithmetic is exact. *)

(** [rl] is an integral bucket of rate [r], capacity [b] and content [k], refilled up to the
    time [t]. *)
Record bucket (r b k : Z) (t : Time) (rl : RateLimiter) : Prop := {
  bucket_rate : Rate (config rl) = f_of_Z r;
  bucket_burst : Burst (config rl) = b;
  bucket_tokens : tokens rl = f_of_Z k;
  bucket_range : 0 ≤ k ≤ b;
  bucket_b : exact_int b;
  bucket_r : exact_int r;
  bucket_time : lastRefresh rl = t;
}.

(** The reference token bucket. *)
Definition spec_refill (r b s k : Z) : Z := Z.min (k + r * s) b.
Definition spec_allow (r b s n k : Z) : bool * Z :=
  let k := spec_refill r b s k in
  if n <=? k then (true, k - n) else (false, k).

(** A call [s] seconds after the previous one, for [n] tokens, within exact range. *)
Definition exact_call (r b : Z) (c : Z * Z) : Prop :=
  let '(s, n) := c in
  0 ≤ s ∧ s * Second ≤ int64_max ∧ b + r * s < 2 ^ 53 ∧ exact_int n ∧ exact_int s.

Lemma refill_exact r b k s t rl :
  bucket r b k t rl → exact_call r b (s, 0) →
  bucket r b (spec_refill r b s k) (t + s * Second) (refillLocked (t + s * Second) rl).
Proof.
  intros [Hr Hb Hk Hkr He Her Ht] (Hs & Hi & Hx & _ & Hes).
  assert (0 ≤ r * s) by (unfold exact_int in *; nia).
  assert (exact_int (r * s) ∧ exact_int k ∧ exact_int (k + r * s)) as (? & ? & ?)
    by (unfold exact_int in *; lia).
  assert (0 ≤ spec_refill r b s k ≤ b) by (unfold spec_refill; lia).
  split; try done.
  unfold refillLocked. simpl.
  assert (time_Sub (t + s * Second) (lastRefresh rl) = s * Second) as ->.
  { rewrite Ht. unfold time_Sub. rewrite sat64_id; [lia|]. unfold is_int64, int64_min, Second in *. lia. }
  rewrite Duration_Seconds_whole, Hr, Hk, Hb by done.
  rewrite f_mul_int by (rewrite ?(Z.mul_comm s); done).
  rewrite (Z.mul_comm s), f_add_int by done. by rewrite f_cap_int by done.
Qed.

Lemma AllowN_exact r b k s n t rl :
  bucket r b k t rl → exact_call r b (s, n) →
  (AllowN (t + s * Second) n rl).1 = (spec_allow r b s n k).1 ∧
  bucket r b (spec_allow r b s n k).2 (t + s * Second) (AllowN (t + s * Second) n rl).2.
Proof.
  intros Hb (Hs & Hi & Hx & Hn & Hes).
  assert (exact_call r b (s, 0)) as H0 by (repeat split; unfold exact_int in *; simpl; lia).
  pose proof (refill_exact r b k s t rl Hb H0) as Hb'.
  unfold AllowN, spec_allow. set (rl' := refillLocked _ rl) in *.
  set (k' := spec_refill r b s k) in *.
  destruct Hb' as [Hr' Hbb' Hk' Hkr' He' Her' Ht'].
  assert (exact_int k') by (unfold exact_int in *; lia).
  rewrite Hk', f_leb_int by done.
  destruct (n <=? k') eqn:E; zbool; simpl; (split; [done|]); (split; simpl; try done).
  - by rewrite f_sub_int by done.
  - unfold exact_int in *. lia.
Qed.

(** The tokens granted by calls of [AllowN], each some seconds after the one before, with the
    clock at [t] before the first. *)
Fixpoint granted (t : Time) (calls : list (Z * Z)) (rl : RateLimiter) : Z :=
  match calls with
  | [] => 0
  | (s, n) :: calls =>
      let t := t + s * Second in
      let '(ok, rl') := AllowN t n rl in
      (if ok then n else 0) + granted t calls rl'
  end.

Fixpoint spec_granted (r b : Z) (calls : list (Z * Z)) (k : Z) : Z :=
  match calls with
  | [] => 0
  | (s, n) :: calls =>
      let '(ok, k') := spec_allow r b s n k in
      (if ok then n else 0) + spec_granted r b calls k'
  end.

Definition seconds (calls : list (Z * Z)) : Z := foldr (λ '(s, _) acc, s + acc) 0 calls.

Lemma granted_exact r b k t calls rl :
  bucket r b k t rl → Forall (exact_call r b) calls →
  granted t calls rl = spec_granted r b calls k.
Proof.
  intros Hb Hc. revert k t rl Hb. induction Hc as [|[s n] calls Hc _ IH]; intros k t rl Hb; [done|].
  simpl. destruct (AllowN_exact r b k s n t rl Hb Hc) as [H1 H2].
  destruct (AllowN _ _ _) as [ok rl']. destruct (spec_allow _ _ _ _ _) as [ok' k'].
  simpl in *. subst ok'. by rewrite (IH k' (t + s * Second) rl').
Qed.

Lemma spec_granted_bound r b calls k :
  0 ≤ r → 0 ≤ k ≤ b → Forall (exact_call r b) calls →
  0 ≤ spec_granted r b calls k ≤ k + r * seconds calls.
Proof.
  intros Hr Hk Hc. revert k Hk. induction Hc as [|[s n] calls Hc _ IH]; intros k Hk; simpl; [lia|].
  destruct Hc as (Hs & _ & _ & [Hn _] & _).
  unfold spec_allow, spec_refill.
  assert (0 ≤ r * s) by nia.
  destruct (n <=? Z.min (k + r * s) b) eqn:E; zbool.
  - specialize (IH (Z.min (k + r * s) b - n) ltac:(lia)). lia.
  - specialize (IH (Z.min (k + r * s) b) ltac:(lia)). lia.
Qed.

(** The limiter grants at most what the bucket held plus what the elapsed time refilled,
    over any sequence of requests: [granted <= content + rate * seconds]. *)
Theorem granted_within_rate r b k t calls rl :
  bucket r b k t rl → Forall (exact_call r b) calls →
  0 ≤ granted t calls rl ≤ k + r * seconds calls.
Proof.
  intros Hb Hc. rewrite (granted_exact r b k) by done.
  destruct Hb. apply spec_granted_bound; [unfold exact_int in *; lia | done | done].
Qed.

(** C29. Each call of [AllowN] decides as the reference bucket does: refill by the elapsed
    seconds, cap at the burst, grant exactly when enough is there, and take the tokens. *)
Theorem AllowN_refines_bucket r b k s n t rl :
  bucket r b k t rl → exact_call r b (s, n) →
  (AllowN (t + s * Second) n rl).1 = (n <=? Z.min (k + r * s) b) ∧
  bucket r b
    (if n <=? Z.min (k + r * s) b then Z.min (k + r * s) b - n else Z.min (k + r * s) b)
    (t + s * Second) (AllowN (t + s * Second) n rl).2.
Proof.
  intros Hb Hc. destruct (AllowN_exact r b k s n t rl Hb Hc) as [H1 H2].
  unfold spec_allow, spec_refill in *. destruct (n <=? _); done.
Qed.

(** ** A bucket that is not a number *)

Lemma refill_nan now rl : tokens rl = f_nan → tokens (refillLocked now rl) = f_nan.
Proof.
  intros H. unfold refillLocked. simpl. rewrite H. simpl.
  unfold fltb, SFltb, f_nan. by destruct (f_of_Z _).
Qed.

Lemma AllowN_nan now n rl :
  tokens rl = f_nan →
  (AllowN now n rl).1 = false ∧ tokens (AllowN now n rl).2 = f_nan.
Proof.
  intros H. unfold AllowN. rewrite refill_nan by done.
  assert (fleb (f_of_Z n) f_nan = false) as -> by (unfold fleb, SFleb; by destruct (f_of_Z n)).
  split; [done|]. by apply refill_nan.
Qed.

Definition run_calls (calls : list (Time * Z)) (rl : RateLimiter) : RateLimiter :=
  run_steps (λ '(now, n) rl, (AllowN now n rl).2) calls rl.

(** An infinite rate multiplied by no elapsed time makes the content NaN: when the
    first call reads the clock of the construction, it and every later request, at any
    time and for any number of tokens, are denied. *)
Theorem infinite_rate_denies_forever cfg t calls now n :
  Rate cfg = f_inf →
  let rl := (AllowN t 1 (NewRateLimiter cfg t)).2 in
  (AllowN t 1 (NewRateLimiter cfg t)).1 = false ∧
  (AllowN now n (run_calls calls rl)).1 = false.
Proof.
  intros Hr rl. assert (tokens (refillLocked t (NewRateLimiter cfg t)) = f_nan) as H0.
  { unfold refillLocked, NewRateLimiter. simpl. rewrite Hr.
    assert (time_Sub t t = 0) as -> by (unfold time_Sub; by rewrite Z.sub_diag).
    replace (fmul (Duration_Seconds 0) _) with f_nan by done.
    assert (∀ f, fadd f f_nan = f_nan) as -> by (by intros [| | |]).
    unfold fltb, SFltb, f_nan. by destruct (f_of_Z _). }
  assert ((AllowN t 1 (NewRateLimiter cfg t)).1 = false ∧ tokens rl = f_nan) as [H1 H2].
  { unfold rl, AllowN. rewrite H0. done. }
  split; [done|]. apply AllowN_nan. unfold run_calls.
  apply (run_steps_ind _ (λ rl, tokens rl = f_nan)); [|done].
  intros [now' n'] rl' H'. by apply AllowN_nan.
Qed.

(** ** A wait that falls short *)

(** The wait is cut to whole nanoseconds: three tokens per second refill one in a third of a
    second, [WaitN] sleeps 333333333 ns, and the content is then just below 1.  A goroutine that
    wakes exactly then, with nobody else at the bucket, gets [ErrRateLimitExceeded]. *)
Lemma wait_falls_short :
  let rl := MkRL (MkConfig (f_of_Z 3) 10 true Second) f_zero 0 in
  let d := waitTime AMD64 1 rl in
  d = 333333333 ∧ d < MaxWait (config rl) ∧
  (AllowN d 1 rl).1 = false ∧ (AllowN (d + 1) 1 rl).1 = true.
Proof. vm_compute. done. Qed.

(** ** Blocking calls *)

Lemma waitTime_capped a n rl : waitTime a n rl ≤ MaxWait (config rl).
Proof. unfold waitTime. destruct (_ <? _) eqn:E; zbool; lia. Qed.

#[local] Opaque AllowN waitTime.

Section BlockingProofs.
Context {W : Type} `{GoEnv W} (a : arch) (p : Ptr W RateLimiter).

(** The two ways a gate in front of an operation can end: an error that does not depend on
    the operation, or a token taken from the bucket. *)
Definition gate (g : Go W (option error)) (w : W) : Prop :=
  (∃ err w', g w = (Val (Some err), w')) ∨
  (∃ now rl w', (AllowN now 1 rl).1 = true ∧ load p w' = (AllowN now 1 rl).2 ∧
     g w = (Val None, w')).

Lemma go_AllowN_spec n w :
  ∃ now rl w', go_AllowN p n w = (Val (AllowN now n rl).1, w') ∧
    load p w' = (AllowN now n rl).2.
Proof.
  unfold go_AllowN, locked, time_Now, go_lift, mbind, go_bind.
  destruct (env_now w) as [now w1]. exists now, (load p w1).
  destruct (AllowN now n (load p w1)) as [ok rl] eqn:E. eexists. split; [done|].
  simpl. by rewrite load_store.
Qed.

Lemma gate_bind_val {A} (m : Go W A) k w x w1 :
  m w = (Val x, w1) → gate (k x) w1 → gate (m ≫= k) w.
Proof. intros Hm. unfold gate. by rewrite !(go_bind_val m k w x w1 Hm). Qed.

Lemma gate_err err w : gate (mret (Some err)) w.
Proof. left. exists err, w. done. Qed.

Lemma allow_gate_bind (k : bool → Go W (option error)) w :
  k true = mret None → (∀ w', gate (k false) w') → gate (go_AllowN p 1 ≫= k) w.
Proof.
  intros Ht Hf. destruct (go_AllowN_spec 1 w) as (now & rl & w' & H1 & H2).
  destruct (AllowN now 1 rl).1 eqn:E.
  - right. exists now, rl, w'. rewrite (go_bind_val _ _ _ _ _ H1), Ht. done.
  - apply (gate_bind_val _ _ _ _ _ H1). apply Hf.
Qed.

Lemma Wait_gate w : gate (Wait a p) w.
Proof.
  unfold Wait, WaitN. destruct (env_ctx w) as [done w1] eqn:E.
  apply (gate_bind_val _ _ _ done w1); [unfold ctx_Done, go_lift; by rewrite E|].
  destruct done as [err|]; [apply gate_err|].
  apply allow_gate_bind; [done|]. intros w2. eapply gate_bind_val; [reflexivity|].
  destruct (env_wait (waitTime a 1 (load p w2)) w2) as [done w3] eqn:E2.
  apply (gate_bind_val _ _ _ done w3); [unfold select_After, go_lift; by rewrite E2|].
  destruct done as [err|]; [apply gate_err|].
  apply allow_gate_bind; [done|]. intros. apply gate_err.
Qed.

Lemma Execute_split w :
  (∃ err w', ∀ op, Execute a p op w = (Val (Some err), w')) ∨
  (∃ now rl w', (AllowN now 1 rl).1 = true ∧ load p w' = (AllowN now 1 rl).2 ∧
     ∀ op, Execute a p op w = op w').
Proof.
  set (g := (cfg ← go_get (λ w, config (load p w));
     if WaitOnLimit cfg then Wait a p
     else ok ← go_AllowN p 1;
       mret (if (ok : bool) then None else Some ErrRateLimitExceeded))).
  assert (gate g w) as [(err & w' & Hg) | (now & rl & w' & H1 & H2 & Hg)].
  { eapply gate_bind_val; [reflexivity|]. destruct (WaitOnLimit _); [apply Wait_gate|].
    apply allow_gate_bind; [done | intros; apply gate_err]. }
  - left. exists err, w'. intros op. etransitivity; [exact (go_bind_val g _ w _ _ Hg) | done].
  - right. exists now, rl, w'. split; [done|]. split; [done|]. intros op.
    etransitivity; [exact (go_bind_val g _ w _ _ Hg) | done].
Qed.

(** [Execute] either fails with an error, without running the operation and whatever
    the operation is, or has taken a token from the bucket and runs the operation. *)
Theorem Execute_gate w :
  (∃ err w', ∀ op, Execute a p op w = (Val (Some err), w')) ∨
  (∃ now rl w', (AllowN now 1 rl).1 = true ∧ load p w' = (AllowN now 1 rl).2 ∧
     ∀ op, Execute a p op w = op w').
Proof. apply Execute_split. Qed.
End BlockingProofs.

Lemma limiter_total {W} `{GoEnv W} a (p : Ptr W RateLimiter) op : total op → total (Execute a p op).
Proof. intros Hop. unfold Execute, Wait, WaitN, go_AllowN. total. Qed.

#[global] Instance Execute_layer {W} `{GoEnv W} a (p : Ptr W RateLimiter) :
  Layer (Execute a p) (apart p).
Proof.
  split.
  - intros op1 op2 Hop. unfold Execute. f_equiv. by intros [err|].
  - intros S I q op [Hd Hf] Hop. unfold Execute, Wait, WaitN, go_AllowN. keeps.
Qed.

#[global] Instance Execute_once {W} `{GoEnv W} a (p : Ptr W RateLimiter) :
  OnceLayer (Execute a p) (apart p).
Proof.
  intros S q op w o w' Hf HE Ho.
  destruct (Execute_split a p w) as [(err & w1 & H1) | (now & rl & w1 & _ & _ & H1)];
    pose proof (H1 (mret None)) as H2; rewrite H1 in HE.
  - left. simplify_eq. by eapply layer_untouched.
  - right. exists w1, o, w'. split_and!; [|done..]. by eapply layer_untouched.
Qed.

#[local] Transparent AllowN waitTime.

(** ** Witnesses *)

(** 2 tokens per second, at most 3. *)
Definition demo : RateLimiter := NewRateLimiter (MkConfig (f_of_Z 2) 3 false 0) 1000.
Definition demo_calls : list (Z * Z) := [(0, 1); (0, 1); (0, 1); (0, 1); (1, 1); (5, 3)].

Lemma demo_bucket : bucket 2 3 3 1000 demo.
Proof. by split. Qed.

Lemma demo_exact : Forall (exact_call 2 3) demo_calls.
Proof. repeat constructor; done. Qed.

Lemma granted_within_rate_witness : 0 ≤ granted 1000 demo_calls demo ≤ 3 + 2 * seconds demo_calls.
Proof. apply (granted_within_rate 2 3 3); [apply demo_bucket | apply demo_exact]. Defined.

Lemma AllowN_refines_bucket_witness :
  (AllowN (1000 + 0 * Second) 4 demo).1 = false ∧ bucket 2 3 3 (1000 + 0 * Second) (AllowN (1000 + 0 * Second) 4 demo).2.
Proof.
  apply (AllowN_refines_bucket 2 3 3 0 4 1000 demo); [apply demo_bucket | by repeat split].
Defined.

Lemma infinite_rate_denies_forever_witness :
  let rl := (AllowN 7 1 (NewRateLimiter (MkConfig f_inf 10 false 0) 7)).2 in
  (AllowN 7 1 (NewRateLimiter (MkConfig f_inf 10 false 0) 7)).1 = false ∧
  (AllowN (7 + Hour) 1 (run_calls [(8, 1); (Minute, 2)] rl)).1 = false.
Proof. by apply infinite_rate_denies_forever. Defined.

End RL.
