(* ===== verification/RateLimiterBounds.v ===== *)
(** * resilience/ratelimit.go: the rounding of the token bucket

    The bucket of [RateLimiter.v] for any finite rate and any reading of the clock, in
    nanoseconds: what a step of the float64 arithmetic may differ from the real one, the
    invariant of the content, the bound on the tokens granted, and that a request is granted
    once its tokens are refilled. *)

From Stdlib Require Import Reals Lra.
From S2P Require Import Prelude.
From S2P Require Import GoRuntime.
From S2P Require Import GoFloat.
From S2P Require Import GoFloatReal.
From S2P Require Import RateLimiter.
Local Open Scope Z_scope.

Module RLB.
Import RL.

(** ** The invariant *)

(** A bucket with a finite rate that is not negative, a capacity that is an exact float64, and
    a content between none and the capacity. *)
Record in_order (rl : RateLimiter) : Prop := {
  ord_rate : nonneg (Rate (config rl));
  ord_finite : Rate (config rl) ≠ f_inf;
  ord_burst : 1 ≤ Burst (config rl) < 2 ^ 53;
  ord_tokens : nonneg (tokens rl);
  ord_cap : (rval (tokens rl) ≤ IZR (Burst (config rl)))%R;
}.

(** What a configuration needs for this; [NewRateLimiter] replaces what is not positive. *)
Definition valid_config (cfg : RateLimiterConfig) : Prop :=
  nonneg (Rate cfg) ∧ Rate cfg ≠ f_inf ∧ Burst cfg < 2 ^ 53.

(** The tokens that the elapsed time is worth. *)
Definition worth (rl : RateLimiter) (d : Z) : R := (rval (Rate (config rl)) * seconds_of d)%R.

(** What one call may be off by: [2^-47] of the capacity. *)
Definition slack (b : Z) : R := ((IZR b + 1) * bpow (-47))%R.

Lemma slack_eq b : slack b = ((IZR b + 1) * (64 * eps))%R.
Proof.
  unfold slack, eps. replace 64%R with (bpow 6) by (unfold bpow; simpl; lra).
  by rewrite <- bpow_add.
Qed.

Lemma NewRateLimiter_in_order cfg now : valid_config cfg → in_order (NewRateLimiter cfg now).
Proof.
  intros (Hr & Hf & Hb). unfold NewRateLimiter.
  assert (1 ≤ (if Burst cfg <=? 0 then 10 else Burst cfg) < 2 ^ 53) as Hb'
    by (destruct (Z.leb_spec (Burst cfg) 0); lia).
  set (b := if Burst cfg <=? 0 then 10 else Burst cfg) in *. clearbody b.
  destruct (f_of_Z_value b ltac:(unfold exact_int; lia)) as (H1 & H2 & _).
  destruct (f_of_Z_value 100 ltac:(unfold exact_int; lia)) as (H3 & _ & H4).
  split; cbn [config Rate Burst tokens]; [by destruct (fleb _ _)|by destruct (fleb _ _)|done|done|lra].
Qed.

(** ** A refill *)

Lemma cap_value b x :
  exact_int b → nonneg x →
  let y := if fltb (f_of_Z b) x then f_of_Z b else x in nonneg y ∧ rval y = Rmin (IZR b) (rval x).
Proof.
  intros Hb Hx. destruct (f_of_Z_value b Hb) as (H1 & H2 & _). cbv zeta.
  destruct (fltb (f_of_Z b) x) eqn:E.
  - rewrite fltb_rval, H2 in E by done. split; [done|]. rewrite H2, Rmin_left; [done | lra].
  - rewrite <- not_true_iff_false, fltb_rval, H2 in E by done. split; [done|].
    rewrite Rmin_right; [done | lra].
Qed.

(** The float64 sum of the content and of the elapsed time's worth. *)
Lemma refilled_near c r d :
  nonneg c → nonneg r → r ≠ f_inf → 0 ≤ d ≤ int64_max →
  let y := (rval r * seconds_of d)%R in
  let x := fadd c (fmul (Duration_Seconds d) r) in
  nonneg x ∧
  (rval x ≤ (rval c + y) * (1 + 8 * eps) + 24 * eps)%R ∧
  (x = f_inf ∨ ((rval c + y) * (1 - 8 * eps) - 24 * eps ≤ rval x))%R.
Proof.
  intros Hc Hr Hri Hd y x. destruct (Duration_Seconds_near d Hd) as (Hs & Hsi & Hs1 & Hs2).
  pose proof (rval_nonneg c Hc). pose proof (rval_nonneg r Hr).
  pose proof (seconds_of_nonneg d (proj1 Hd)). pose proof (eta_product r Hr Hri) as Hre.
  destruct (fmul_near _ r Hs Hr Hsi Hri) as [Ha Hav].
  set (s := Duration_Seconds d) in *. clearbody s.
  assert (y * (1 - 3 * eps) - 12 * eps ≤ rval s * rval r ≤ y * (1 + 3 * eps) + 12 * eps)%R as Hsr
    by (unfold y; rewrite eps_eq in *; split; nra).
  assert (fmul s r = f_inf → x = f_inf) as Hinf.
  { unfold x. intros ->. by destruct c as [|[]| |]. }
  destruct (fadd_near c _ Hc Ha) as [Hx Hxv]. fold x in Hx, Hxv. split; [done|].
  assert (0 ≤ y)%R as Hy by (unfold y; nra). clearbody y.
  set (a := fmul s r) in *. clearbody a x. pose proof eta_bounds. unfold near in *.
  destruct Hav as [Ha1 Ha2]. destruct Hxv as [Hx1 Hx2]. rewrite eps_eq in *. split; [lra|].
  destruct Hx2 as [Hx2|Hx2]; [by left|]. destruct Ha2 as [Ha2|Ha2]; [left; by apply Hinf|right; lra].
Qed.

(** The saturation of [Sub] counts less than the time that has passed. *)
Lemma time_Sub_between last now :
  last ≤ now → 0 ≤ time_Sub now last ≤ int64_max ∧ time_Sub now last ≤ now - last.
Proof. intros H. unfold time_Sub, sat64, int64_max, int64_min. lia. Qed.

Lemma worth_nonneg rl d : in_order rl → 0 ≤ d → (0 ≤ worth rl d)%R.
Proof.
  intros Ho Hd. apply Rmult_le_pos; [apply rval_nonneg, Ho | by apply seconds_of_nonneg].
Qed.

Lemma worth_le rl a b : in_order rl → a ≤ b → (worth rl a ≤ worth rl b)%R.
Proof.
  intros Ho H. apply Rmult_le_compat_l; [apply rval_nonneg, Ho | by apply seconds_of_le].
Qed.

Lemma in_order_cap_bounds rl : in_order rl → (1 ≤ IZR (Burst (config rl)) ≤ 9007199254740992)%R.
Proof. intros [_ _ H _ _]. split; apply IZR_le; lia. Qed.

(** A refill keeps the bucket in order; it adds what the elapsed time is worth, up to the
    capacity and to half of the slack. *)
Lemma refill_in_order now rl :
  in_order rl → lastRefresh rl ≤ now →
  let d := time_Sub now (lastRefresh rl) in
  let c := rval (tokens rl) in
  let b := Burst (config rl) in
  let rl' := refillLocked now rl in
  in_order rl' ∧
  (rval (tokens rl') ≤ c + worth rl d + slack b / 2)%R ∧
  (Rmin (IZR b) (c + worth rl d - slack b / 2) ≤ rval (tokens rl'))%R.
Proof.
  intros Ho Hle d c b rl'. pose proof Ho as [Hr Hri Hb Ht Hc].
  destruct (time_Sub_between _ _ Hle) as [Hd _]. fold d in Hd. fold b in Hb, Hc. fold c in Hc.
  pose proof (in_order_cap_bounds rl Ho) as Hbr. fold b in Hbr.
  destruct (refilled_near (tokens rl) (Rate (config rl)) d) as (Hx & Hx1 & Hx2); [done..|].
  fold c (worth rl d) in Hx1, Hx2.
  destruct (cap_value b _ ltac:(unfold exact_int; lia) Hx) as [Hy Hyv].
  assert (tokens rl' = if fltb (f_of_Z b) (fadd (tokens rl) (fmul (Duration_Seconds d) (Rate (config rl))))
    then f_of_Z b else fadd (tokens rl) (fmul (Duration_Seconds d) (Rate (config rl)))) as E by done.
  rewrite <- E in Hy, Hyv. clear E.
  pose proof (worth_nonneg rl d Ho ltac:(lia)) as Hw. pose proof (rval_nonneg _ Ht) as Hc0. fold c in Hc0.
  set (x := fadd _ _) in *. set (y := worth rl d) in *. clearbody x y c.
  rewrite slack_eq, Hyv. rewrite eps_eq in *. pose proof (Rmin_l (IZR b) (rval x)).
  split; [|split].
  - split; try done. change (config rl') with (config rl). fold b. lra.
  - destruct (Rle_dec (IZR b) y); [lra|]. pose proof (Rmin_r (IZR b) (rval x)). lra.
  - set (z := (c + y - _)%R). apply Rmin_glb; [apply Rmin_l|].
    pose proof (Rmin_l (IZR b) z). pose proof (Rmin_r (IZR b) z). destruct Hx2 as [->|Hx2].
    + pose proof bpow_1024_large as Hbig. change (2 ^ 64) with 18446744073709551616 in Hbig.
      change (rval f_inf) with (bpow 1024). lra.
    + destruct (Rle_dec (2 * IZR b) y); unfold z in *; lra.
Qed.

(** ** A call *)

Lemma fsub_zero x : nonneg x → nonneg (fsub x (f_of_Z 0)) ∧ rval (fsub x (f_of_Z 0)) = rval x.
Proof. destruct x as [[]|[]| |[] m e]; intros Hx; done. Qed.

(** Taking [n] tokens: the content stays below the capacity, whatever the rounding. *)
Lemma take_tokens x n b :
  nonneg x → 1 ≤ b < 2 ^ 53 → exact_int n → (IZR n ≤ rval x ≤ IZR b)%R →
  let y := fsub x (f_of_Z n) in
  nonneg y ∧ (rval y ≤ IZR b)%R ∧
  (rval x - IZR n - slack b / 2 ≤ rval y ≤ rval x - IZR n + slack b / 2)%R.
Proof.
  intros Hx Hb Hn [Hle Hc] y.
  assert (1 ≤ IZR b ≤ 9007199254740992)%R as Hbr by (split; apply IZR_le; lia).
  rewrite slack_eq, eps_eq. destruct (Z.eq_dec n 0) as [->|Hn0].
  { destruct (fsub_zero x Hx) as [Hy Hyv]. subst y. rewrite Hyv. split_and!; [done|lra..]. }
  destruct (f_of_Z_value n Hn) as (Hf & Hfv & _).
  assert (1 ≤ IZR n)%R as Hn1 by (apply IZR_le; unfold exact_int in *; lia).
  pose proof bpow_1024_large as Hbig. change (2 ^ 64) with 18446744073709551616 in Hbig.
  assert (x ≠ f_inf) as Hxi by (intros ->; change (rval f_inf) with (bpow 1024) in *; lra).
  destruct (fsub_near x _ Hx Hf Hxi ltac:(lra)) as [Hy Hyv]. fold y in Hy, Hyv. rewrite Hfv in Hyv.
  pose proof eta_bounds. clearbody y. rewrite eps_eq in *. split; [done|].
  assert (y ≠ f_inf) as Hyi by (apply (near_finite _ _ Hyv); rewrite eps_eq; lra).
  destruct Hyv as [Hy1 [Hy2|Hy2]]; [done|]. rewrite eps_eq in *. split_and!; lra.
Qed.

(** A call keeps the bucket in order, and what it grants and leaves is what it found and what
    was refilled, up to the slack. *)
Lemma AllowN_in_order now n rl :
  in_order rl → lastRefresh rl ≤ now → exact_int n →
  let d := time_Sub now (lastRefresh rl) in
  let rl' := (AllowN now n rl).2 in
  in_order rl' ∧ config rl' = config rl ∧ lastRefresh rl' = now ∧
  ((if (AllowN now n rl).1 then IZR n else 0) + rval (tokens rl')
    ≤ rval (tokens rl) + worth rl d + slack (Burst (config rl)))%R.
Proof.
  intros Ho Hle Hn d rl'. destruct (refill_in_order now rl Ho Hle) as (Ho' & Hup & _). fold d in Hup.
  unfold rl', AllowN. set (r := refillLocked now rl) in *.
  assert (config r = config rl) as Hcfg by done. assert (lastRefresh r = now) as Hlast by done.
  clearbody r. destruct (f_of_Z_value n Hn) as (Hf & Hfv & _). pose proof (in_order_cap_bounds rl Ho).
  assert (0 ≤ slack (Burst (config rl)))%R as Hsl by (rewrite slack_eq, eps_eq; lra).
  destruct (fleb (f_of_Z n) (tokens r)) eqn:E.
  - destruct Ho' as [Hr Hri Hb Ht Hc]. rewrite fleb_rval, Hfv in E by done.
    destruct (take_tokens (tokens r) n (Burst (config r)) Ht Hb Hn) as (Hy & Hyb & _ & Hy2); [done|].
    rewrite Hcfg in Hy2. cbn [fst snd]. split_and!; [|done..|].
    + by split.
    + cbn [tokens]. lra.
  - cbn [fst snd]. split_and!; [done..|]. lra.
Qed.

(** ** Sequences of calls *)

(** The tokens granted by the calls [(now, n)] of [AllowN]. *)
Fixpoint granted_at (calls : list (Time * Z)) (rl : RateLimiter) : Z :=
  match calls with
  | [] => 0
  | (now, n) :: calls =>
      let '(ok, rl') := AllowN now n rl in
      (if ok then n else 0) + granted_at calls rl'
  end.

(** The readings of the clock do not go back, and the numbers of tokens are exact. *)
Fixpoint ordered_calls (t : Time) (calls : list (Time * Z)) : Prop :=
  match calls with
  | [] => True
  | (now, n) :: calls => t ≤ now ∧ exact_int n ∧ ordered_calls now calls
  end.

Fixpoint last_reading (t : Time) (calls : list (Time * Z)) : Time :=
  match calls with
  | [] => t
  | (now, _) :: calls => last_reading now calls
  end.

Lemma last_reading_ge t calls : ordered_calls t calls → t ≤ last_reading t calls.
Proof.
  revert t. induction calls as [|[now n] calls IH]; intros t Hc; [done|].
  destruct Hc as (Hle & _ & Hc). simpl. specialize (IH now Hc). lia.
Qed.

Lemma run_calls_in_order calls rl :
  in_order rl → ordered_calls (lastRefresh rl) calls →
  let rl' := run_calls calls rl in
  in_order rl' ∧ config rl' = config rl ∧ lastRefresh rl' = last_reading (lastRefresh rl) calls.
Proof.
  revert rl. induction calls as [|[now n] calls IH]; intros rl Ho Hc; [done|].
  destruct Hc as (Hle & Hn & Hc). destruct (AllowN_in_order now n rl Ho Hle Hn) as (Ho' & Hcf & Hl & _).
  destruct (IH (AllowN now n rl).2 Ho') as (H1 & H2 & H3); [by rewrite Hl|].
  rewrite Hl in H3. rewrite <- Hcf, <- H2. done.
Qed.

Lemma granted_at_nonneg calls rl : ordered_calls (lastRefresh rl) calls → 0 ≤ granted_at calls rl.
Proof.
  revert rl. induction calls as [|[now n] calls IH]; intros rl Hc; [done|].
  destruct Hc as (Hle & [Hn _] & Hc). simpl. specialize (IH (AllowN now n rl).2).
  assert (lastRefresh (AllowN now n rl).2 = now) as Hl by (unfold AllowN; by destruct (fleb _ _)).
  rewrite Hl in IH. destruct (AllowN now n rl) as [ok rl']. specialize (IH Hc). simpl in *.
  destruct ok; lia.
Qed.

Lemma granted_at_bound calls rl :
  in_order rl → ordered_calls (lastRefresh rl) calls →
  (IZR (granted_at calls rl) + rval (tokens (run_calls calls rl)) ≤ rval (tokens rl)
    + worth rl (last_reading (lastRefresh rl) calls - lastRefresh rl)
    + INR (length calls) * slack (Burst (config rl)))%R.
Proof.
  revert rl. induction calls as [|[now n] calls IH]; intros rl Ho Hc.
  { simpl. unfold worth, seconds_of. rewrite Z.sub_diag. lra. }
  destruct Hc as (Hle & Hn & Hc).
  destruct (AllowN_in_order now n rl Ho Hle Hn) as (Ho' & Hcf & Hl & Hb).
  specialize (IH _ Ho'). rewrite Hcf, Hl in IH. specialize (IH Hc).
  destruct (time_Sub_between _ _ Hle) as [_ Hsub].
  pose proof (worth_le rl _ _ Ho Hsub) as Hw.
  assert (worth rl (last_reading now calls - lastRefresh rl)
    = worth rl (now - lastRefresh rl) + worth rl (last_reading now calls - now))%R as Hsplit.
  { unfold worth. rewrite <- Rmult_plus_distr_l, <- seconds_of_add. do 2 f_equal. lia. }
  cbn [last_reading length]. rewrite Hsplit, S_INR.
  unfold worth in *. rewrite Hcf in IH. change (run_calls ((now, n) :: calls) rl)
    with (run_calls calls (AllowN now n rl).2). cbn [granted_at].
  destruct (AllowN now n rl) as [ok rl']. cbn [fst snd] in *.
  rewrite plus_IZR. destruct ok; lra.
Qed.

(** The state after some calls of a new limiter. *)
Lemma history cfg t before :
  valid_config cfg → ordered_calls t before →
  let rl := run_calls before (NewRateLimiter cfg t) in
  in_order rl ∧ config rl = config (NewRateLimiter cfg t) ∧ lastRefresh rl = last_reading t before.
Proof. intros Hv Hb. apply run_calls_in_order; [by apply NewRateLimiter_in_order | done]. Qed.

(** C8. Over any window of calls, after any history, with any finite rate and any
    clock that does not go back, the limiter grants at most what the bucket held, which is
    between nothing and the burst, plus what the window refills, plus the slack of each call. *)
Theorem granted_bound cfg t before calls :
  valid_config cfg → ordered_calls t before → ordered_calls (last_reading t before) calls →
  let rl := run_calls before (NewRateLimiter cfg t) in
  let b := Burst (config rl) in
  (0 ≤ rval (tokens rl) ≤ IZR b)%R ∧ 0 ≤ granted_at calls rl ∧
  (IZR (granted_at calls rl) ≤ rval (tokens rl)
    + worth rl (last_reading (lastRefresh rl) calls - lastRefresh rl)
    + INR (length calls) * slack b)%R.
Proof.
  intros Hv Hb Hc rl b. destruct (history cfg t before Hv Hb) as (Ho & _ & Hl).
  fold rl in Ho, Hl. rewrite <- Hl in Hc. pose proof Ho as [_ _ _ Ht Hcap].
  split; [split; [by apply rval_nonneg | done]|]. split; [by apply granted_at_nonneg|].
  pose proof (granted_at_bound calls rl Ho Hc) as H.
  pose proof (rval_nonneg _ (ord_tokens _ (proj1 (run_calls_in_order calls rl Ho Hc)))).
  fold b in H. lra.
Qed.

(** C26. After any history, a request for at most the burst is granted as soon as the
    time since the last call is worth its tokens and the slack, however empty the bucket is. *)
Theorem refilled_request_granted cfg t before now n :
  valid_config cfg → ordered_calls t before →
  let rl := run_calls before (NewRateLimiter cfg t) in
  let b := Burst (config rl) in
  0 ≤ n ≤ b → 0 ≤ now - last_reading t before ≤ int64_max →
  (IZR n + slack b ≤ worth rl (now - last_reading t before))%R →
  (AllowN now n rl).1 = true.
Proof.
  intros Hv Hb rl b Hn Hd Hw. destruct (history cfg t before Hv Hb) as (Ho & _ & Hl).
  fold rl in Ho, Hl. rewrite <- Hl in Hd, Hw. pose proof Ho as [_ _ Hbb Ht _].
  destruct (refill_in_order now rl Ho ltac:(lia)) as ([_ _ _ Ht' _] & _ & Hlow).
  assert (time_Sub now (lastRefresh rl) = now - lastRefresh rl) as Hs.
  { unfold time_Sub. apply sat64_id. unfold is_int64, int64_min in *. lia. }
  rewrite Hs in Hlow. pose proof (rval_nonneg _ Ht). pose proof (in_order_cap_bounds rl Ho) as Hbr.
  assert (exact_int n) as Hne by (unfold exact_int; lia).
  destruct (f_of_Z_value n Hne) as (Hf & Hfv & _).
  unfold AllowN. rewrite (proj2 (fleb_rval _ _ Hf Ht')); [done|]. rewrite Hfv.
  eapply Rle_trans; [|exact Hlow]. fold b in Hbr |- *.
  assert (0 ≤ slack b)%R by (rewrite slack_eq, eps_eq; lra).
  apply Rmin_glb; [apply IZR_le; lia | lra].
Qed.

(** ** Witnesses *)

(** Three tokens per second, a burst of two. *)
Definition three : RateLimiterConfig := MkConfig (f_of_Z 3) 2 false 0.

Lemma three_valid : valid_config three.
Proof. by destruct (f_of_Z_value 3 ltac:(unfold exact_int; lia)) as (? & _ & ?). Qed.

(** The bucket is emptied at once, and asked again 0.1 s and 0.35 s later. *)
Definition three_calls : list (Time * Z) := [(0, 2); (100000000, 1); (350000000, 1)].

(** And once more. *)
Definition three_next : list (Time * Z) := [(700000000, 1)].

Example three_grants :
  granted_at three_calls (NewRateLimiter three 0) = 3 ∧
  granted_at three_next (run_calls three_calls (NewRateLimiter three 0)) = 1.
Proof. split; vm_compute; reflexivity. Qed.

Lemma three_ordered : ordered_calls 0 three_calls.
Proof. simpl. unfold exact_int. lia. Qed.

Lemma granted_bound_witness :
  let rl := run_calls three_calls (NewRateLimiter three 0) in
  let b := Burst (config rl) in
  (0 ≤ rval (tokens rl) ≤ IZR b)%R ∧ 0 ≤ granted_at three_next rl ∧
  (IZR (granted_at three_next rl) ≤ rval (tokens rl)
    + worth rl (last_reading (lastRefresh rl) three_next - lastRefresh rl)
    + INR (length three_next) * slack b)%R.
Proof.
  apply (granted_bound three 0 three_calls three_next);
    [exact three_valid | exact three_ordered | simpl; unfold exact_int; lia].
Defined.

Lemma refilled_request_granted_witness :
  (AllowN 900000000 1 (run_calls three_calls (NewRateLimiter three 0))).1 = true.
Proof.
  apply (refilled_request_granted three 0 three_calls 900000000 1);
    [exact three_valid | exact three_ordered | by vm_compute | by vm_compute|].
  change (Burst _) with 2. change (last_reading 0 three_calls) with 350000000.
  unfold worth, seconds_of. change (Rate _) with (f_of_Z 3).
  destruct (f_of_Z_value 3 ltac:(unfold exact_int; lia)) as (_ & -> & _).
  rewrite slack_eq, eps_eq. change (900000000 - 350000000) with 550000000. lra.
Defined.

End RLB.
