(* ===== verification/Retry.v ===== *)
(** * resilience/retry.go: retries with backoff

    The loop of [Execute] is a fixpoint whose fuel is [MaxAttempts]; its body is the
    body of the loop.  [RetryIf] is a function of the error, [OnRetry] a computation. *)

From S2P Require Import Prelude.
From S2P Require Import GoRuntime.
From S2P Require Import GoFloat.
Local Open Scope Z_scope.

Module RT.

(** ** Data *)

(** [BackoffStrategy] is an [int] with three [iota] constants; another value is possible. *)
Definition BackoffExponential : Z := 0.
Definition BackoffLinear : Z := 1.
Definition BackoffConstant : Z := 2.

Record RetryConfig (W : Type) := MkConfig {
  MaxAttempts : Z;
  InitialDelay : Duration;
  MaxDelay : Duration;
  Multiplier : float64;
  Strategy : Z;
  Jitter : bool;
  RetryIf : option (option error → bool);
  OnRetry : option (Z → error → Duration → Go W unit);
}.
Arguments MkConfig {W} _ _ _ _ _ _ _ _.
Arguments MaxAttempts {W} _.
Arguments InitialDelay {W} _.
Arguments MaxDelay {W} _.
Arguments Multiplier {W} _.
Arguments Strategy {W} _.
Arguments Jitter {W} _.
Arguments RetryIf {W} _.
Arguments OnRetry {W} _.

(** [retryIf] is [config.RetryIf] after the constructor's defaulting. *)
Record Retry (W : Type) := MkRetry {
  config : RetryConfig W;
  retryIf : option error → bool;
}.
Arguments MkRetry {W} _ _.
Arguments config {W} _.
Arguments retryIf {W} _.

Definition ErrMaxRetriesExceeded : error := Sentinel "resilience: max retries exceeded".

(** ** Operations *)

Definition NewRetry {W} (cfg : RetryConfig W) : Retry W :=
  let maxAttempts := if MaxAttempts cfg <=? 0 then 3 else MaxAttempts cfg in
  let initialDelay := if InitialDelay cfg <=? 0 then 100 * Millisecond else InitialDelay cfg in
  let maxDelay := if MaxDelay cfg <=? 0 then 30 * Second else MaxDelay cfg in
  let multiplier := if fleb (Multiplier cfg) f_zero then f_of_Z 2 else Multiplier cfg in
  let retryIf := match RetryIf cfg with None => is_err | Some f => f end in
  MkRetry (MkConfig maxAttempts initialDelay maxDelay multiplier (Strategy cfg) (Jitter cfg)
    (Some retryIf) (OnRetry cfg)) retryIf.

(** The delay before the jitter, as the [switch] computes it and the cap limits it. *)
Definition baseDelay {W} (a : arch) (cfg : RetryConfig W) (attempt : Z) : Duration :=
  let delay :=
    if Strategy cfg =? BackoffConstant then InitialDelay cfg
    else if Strategy cfg =? BackoffLinear then wrap64 (InitialDelay cfg * attempt)
    else if Strategy cfg =? BackoffExponential then
      let multiplier := math_Pow (Multiplier cfg) (attempt - 1) in
      int64_of_f a (fmul (f_of_Z (InitialDelay cfg)) multiplier)
    else 0 in
  if MaxDelay cfg <? delay then MaxDelay cfg else delay.

Section Execute.
Context {W : Type} `{GoEnv W} (a : arch) (r : Retry W).

Definition calculateDelay (attempt : Z) : Go W Duration :=
  let delay := baseDelay a (config r) attempt in
  if Jitter (config r) && (0 <? delay) then
    jitter ← rand_Int64N (Z.quot delay 4);
    mret (wrap64 (delay + jitter))
  else mret delay.

(** The loop, entered with [attempt <= MaxAttempts] tested first. *)
Fixpoint loop (fuel : nat) (op : Go W (option error)) (attempt : Z) (lastErr : option error)
    : Go W (option error) :=
  match fuel with
  | O => λ w, (OutOfFuel, w)
  | S fuel =>
      if attempt <=? MaxAttempts (config r) then
        err ← op;
        match err with
        | None => mret None
        | Some e =>
            if negb (retryIf r (Some e)) then mret (Some e)
            else if MaxAttempts (config r) <=? attempt then mret (Some e)
            else
              delay ← calculateDelay attempt;
              _ ← match OnRetry (config r) with
                  | Some f => f attempt e delay
                  | None => mret ()
                  end;
              done ← select_After delay;
              match done with
              | Some ctxErr => mret (Some ctxErr)
              | None => loop fuel op (wrap64 (attempt + 1)) (Some e)
              end
        end
      else mret lastErr
  end.

Definition Execute (op : Go W (option error)) : Go W (option error) :=
  loop (Z.to_nat (MaxAttempts (config r))) op 1 None.
End Execute.

Definition Config {W} (r : Retry W) : RetryConfig W := config r.

(** ** Specification of the loop

    [attempts n w res w' k]: from the [n]-th attempt in the world [w], [k] calls of the
    operation are made and the result is [res] in [w']. *)
Section Spec.
Context {W : Type} `{GoEnv W} (a : arch) (r : Retry W) (op : Go W (option error)).

(** What happens between a failed attempt and the next one: the delay, the callback and
    the wait; the answer says whether the context was done. *)
Definition pause (attempt : Z) (e : error) : Go W (option error) :=
  delay ← calculateDelay a r attempt;
  _ ← match OnRetry (config r) with
      | Some f => f attempt e delay
      | None => mret ()
      end;
  select_After delay.

(** A failed computation, whatever the type of its values. *)
Definition crash {A B} (o : outcome A) : option (outcome B) :=
  match o with
  | Val _ => None
  | Panic msg => Some (Panic msg)
  | OutOfFuel => Some OutOfFuel
  end.

Inductive attempts : Z → W → outcome (option error) → W → nat → Prop :=
| attempts_success n w w' :
    op w = (Val None, w') → attempts n w (Val None) w' 1
| attempts_permanent n w e w' :
    op w = (Val (Some e), w') → retryIf r (Some e) = false →
    attempts n w (Val (Some e)) w' 1
| attempts_last n w e w' :
    op w = (Val (Some e), w') → MaxAttempts (config r) ≤ n →
    attempts n w (Val (Some e)) w' 1
| attempts_cancelled n w e w1 ctxErr w' :
    op w = (Val (Some e), w1) → retryIf r (Some e) = true → n < MaxAttempts (config r) →
    pause n e w1 = (Val (Some ctxErr), w') →
    attempts n w (Val (Some ctxErr)) w' 1
| attempts_retry n w e w1 w2 res w' k :
    op w = (Val (Some e), w1) → retryIf r (Some e) = true → n < MaxAttempts (config r) →
    pause n e w1 = (Val None, w2) →
    attempts (n + 1) w2 res w' k →
    attempts n w res w' (S k)
| attempts_crash n w o w' res :
    op w = (o, w') → crash o = Some res → attempts n w res w' 1
| attempts_pause_crash n w e w1 o w' res :
    op w = (Val (Some e), w1) → retryIf r (Some e) = true → n < MaxAttempts (config r) →
    pause n e w1 = (o, w') → crash o = Some res → attempts n w res w' 1.
End Spec.

(** ** Lemmas *)

(** What the constructor establishes. *)
Record inv {W} (r : Retry W) : Prop := {
  inv_attempts : 0 < MaxAttempts (config r) ≤ int64_max;
  inv_initial : 0 < InitialDelay (config r) ≤ int64_max;
  inv_maxDelay : 0 < MaxDelay (config r) ≤ int64_max;
}.

Definition int64_config {W} (cfg : RetryConfig W) : Prop :=
  is_int64 (MaxAttempts cfg) ∧ is_int64 (InitialDelay cfg) ∧ is_int64 (MaxDelay cfg).

Lemma new_retry_inv {W} (cfg : RetryConfig W) : int64_config cfg → inv (NewRetry cfg).
Proof.
  intros (? & ? & ?). unfold is_int64, NewRetry, Second, Millisecond in *.
  split; simpl; solve_bounds; unfold int64_max; lia.
Qed.

#[export] Hint Resolve new_retry_inv : toolops_inv.

#[local] Opaque baseDelay.

Section LoopProofs.
Context {W : Type} `{GoEnv W} (a : arch) (r : Retry W) (op : Go W (option error)).

Lemma loop_unfold fuel n last w :
  n ≤ MaxAttempts (config r) →
  loop a r (S fuel) op n last w =
    match op w with
    | (Val None, w1) => (Val None, w1)
    | (Val (Some e), w1) =>
        if negb (retryIf r (Some e)) then (Val (Some e), w1)
        else if MaxAttempts (config r) <=? n then (Val (Some e), w1)
        else
          match pause a r n e w1 with
          | (Val (Some c), w2) => (Val (Some c), w2)
          | (Val None, w2) => loop a r fuel op (wrap64 (n + 1)) (Some e) w2
          | (Panic msg, w2) => (Panic msg, w2)
          | (OutOfFuel, w2) => (OutOfFuel, w2)
          end
    | (Panic msg, w1) => (Panic msg, w1)
    | (OutOfFuel, w1) => (OutOfFuel, w1)
    end.
Proof.
  intros Hn. simpl. rewrite (proj2 (Z.leb_le _ _)) by done.
  unfold pause, mbind, go_bind, mret, go_ret.
  destruct (op w) as [[[e|]|msg|] w1]; [|done..].
  destruct (negb _); [done|]. destruct (_ <=? _); [done|].
  destruct (calculateDelay a r n w1) as [[d|msg|] w2]; [|done..].
  destruct (OnRetry (config r)) as [f|].
  - destruct (f n e d w2) as [[[]|msg|] w3]; [|done..].
    by destruct (select_After d w3) as [[[c|]|msg|] w4].
  - by destruct (select_After d w2) as [[[c|]|msg|] w4].
Qed.

Lemma loop_attempts fuel n last w :
  1 ≤ n ≤ MaxAttempts (config r) → MaxAttempts (config r) ≤ int64_max →
  MaxAttempts (config r) - n < Z.of_nat fuel →
  ∃ res w' k, loop a r fuel op n last w = (res, w') ∧
    attempts a r op n w res w' k ∧ 1 ≤ Z.of_nat k ≤ MaxAttempts (config r) - n + 1.
Proof.
  intros Hn Hmax. revert n last w Hn. induction fuel as [|fuel IH]; intros n last w Hn Hfuel; [lia|].
  rewrite loop_unfold by lia.
  destruct (op w) as [[[e|]|msg|] w1] eqn:Hop.
  - destruct (retryIf r (Some e)) eqn:Hr; simpl.
    2: { eexists _, _, 1%nat. split_and!; [done | by eapply attempts_permanent | lia..]. }
    destruct (_ <=? n) eqn:E; zbool.
    { eexists _, _, 1%nat. split_and!; [done | by eapply attempts_last | lia..]. }
    destruct (pause a r n e w1) as [[[c|]|msg|] w2] eqn:Hp.
    + eexists _, _, 1%nat. split_and!; [done | by eapply attempts_cancelled | lia..].
    + rewrite wrap64_id by (unfold is_int64, int64_min, int64_max in *; lia).
      destruct (IH (n + 1) (Some e) w2 ltac:(lia) ltac:(lia)) as (res & w' & k & H1 & H2 & H3).
      exists res, w', (S k). split_and!; [done | by eapply attempts_retry | lia..].
    + eexists _, _, 1%nat. split_and!; [done | by eapply attempts_pause_crash | lia..].
    + eexists _, _, 1%nat. split_and!; [done | by eapply attempts_pause_crash | lia..].
  - eexists _, _, 1%nat. split_and!; [done | by eapply attempts_success | lia..].
  - eexists _, _, 1%nat. split_and!; [done | by eapply attempts_crash | lia..].
  - eexists _, _, 1%nat. split_and!; [done | by eapply attempts_crash | lia..].
Qed.

Lemma pause_total n e :
  (∀ f, OnRetry (config r) = Some f → ∀ x, total (f n e x)) → total (pause a r n e).
Proof.
  intros Hf. unfold pause, calculateDelay. total. by apply Hf.
Qed.

Lemma attempts_total n w res w' k :
  attempts a r op n w res w' k →
  total op → (∀ f, OnRetry (config r) = Some f → ∀ n e x, total (f n e x)) → res ≠ OutOfFuel.
Proof.
  intros Hat Hop Hf. induction Hat as [| | | |? ? ? ? ? ? ? ? ? ? ? ? ? IH|? ? o ? ? Ho Hc|
    ? ? e ? o ? ? _ _ _ Hp Hc]; try done.
  - destruct o; simplify_eq/=; [done|]. by destruct (Hop _ _ Ho).
  - destruct o; simplify_eq/=; [done|].
    destruct (pause_total _ _ (λ f Hof, Hf f Hof _ _) _ _ Hp).
Qed.
End LoopProofs.

(** C7. [Execute] performs the attempts of the specification: it calls the operation at
    least once and at most [MaxAttempts] times, stops at the first success, at the first
    error [RetryIf] refuses and when the context is done, and returns the error of the
    last call; and it ends whenever the operation and the callback do. *)
Theorem Execute_attempts {W} `{GoEnv W} a (r : Retry W) op w :
  inv r →
  ∃ res w' k, Execute a r op w = (res, w') ∧ attempts a r op 1 w res w' k ∧
    1 ≤ Z.of_nat k ≤ MaxAttempts (config r) ∧
    (total op → (∀ f, OnRetry (config r) = Some f → ∀ n e x, total (f n e x)) →
     res ≠ OutOfFuel).
Proof.
  intros Hr. destruct (inv_attempts _ Hr) as [Hlo Hhi].
  destruct (loop_attempts a r op (Z.to_nat (MaxAttempts (config r))) 1 None w)
    as (res & w' & k & H1 & H2 & H3); [lia..|].
  exists res, w', k. split_and!; [done.. | lia | lia |].
  intros Hop Hf. by eapply attempts_total.
Qed.

Definition callback_total {W} (r : Retry W) : Prop :=
  ∀ f, OnRetry (config r) = Some f → ∀ n e x, total (f n e x).

Lemma retry_total {W} `{GoEnv W} a (r : Retry W) op :
  inv r → callback_total r → total op → total (Execute a r op).
Proof.
  intros Hr Hf Hop w w' HE. destruct (inv_attempts _ Hr) as [Hlo Hhi].
  destruct (loop_attempts a r op (Z.to_nat (MaxAttempts (config r))) 1 None w)
    as (res & w1 & k & H1 & H2 & _); [lia..|].
  apply attempts_total in H2; [|done..]. unfold Execute in HE. congruence.
Qed.

(** The error a retry returns, never [ErrMaxRetriesExceeded] of its own. *)
Definition last_error {W} (a : arch) `{GoEnv W} (r : Retry W) (op : Go W (option error))
    (e : error) : Prop :=
  (∃ w w', op w = (Val (Some e), w')) ∨
  (∃ n e' w w', pause a r n e' w = (Val (Some e), w')).

(** An error that [Execute] returns is one the operation returned, or the context's:
    exhausting the attempts adds no error of its own. *)
Theorem Execute_error_source {W} `{GoEnv W} a (r : Retry W) op w e w' :
  inv r → Execute a r op w = (Val (Some e), w') → last_error a r op e.
Proof.
  intros Hr HE. destruct (inv_attempts _ Hr) as [Hlo Hhi].
  destruct (loop_attempts a r op (Z.to_nat (MaxAttempts (config r))) 1 None w)
    as (res & w'' & k & H1 & H2 & _); [lia..|].
  assert (res = Val (Some e)) as Eres by (unfold Execute in HE; congruence).
  clear HE H1. unfold last_error.
  induction H2 as [| | | | |? ? o ? ? ? Hc|? ? ? ? o ? ? ? ? ? ? Hc]; simplify_eq; eauto 10;
    by destruct o.
Qed.

(** The callback, too, leaves a foreign object alone. *)
Definition foreign {W} `{GoEnv W} (r : Retry W) : ∀ S, Ptr W S → Prop := λ S q,
  EnvFrame q ∧ ∀ f, OnRetry (config r) = Some f → ∀ I n e d, keeps I q (f n e d).

#[global] Instance Execute_layer {W} `{GoEnv W} a (r : Retry W) :
  Layer (Execute a r) (foreign r).
Proof.
  split.
  - intros op1 op2 Hop. unfold Execute. generalize (@None error).
    generalize 1. induction (Z.to_nat _) as [|fuel IH]; intros n last; [done|].
    simpl. destruct (_ <=? _); [|done]. f_equiv; [|done]. intros [e|]; [|done].
    destruct (negb _); [done|]. destruct (_ <=? _); [done|].
    f_equiv. intros d. f_equiv. intros _. f_equiv. intros [c|]; [done|]. apply IH.
  - intros S I q op [Hf Hcb] Hop. unfold Execute. generalize (@None error).
    generalize 1. induction (Z.to_nat _) as [|fuel IH]; intros n last; [apply keeps_fuel|].
    simpl. unfold calculateDelay. keeps; by first [apply Hcb | apply IH].
Qed.

(** ** Delays *)

#[local] Transparent baseDelay.

Lemma baseDelay_capped {W} a (cfg : RetryConfig W) n : baseDelay a cfg n ≤ MaxDelay cfg.
Proof. unfold baseDelay. case_match eqn:E; zbool; lia. Qed.

(** The constant and the linear backoff, capped; the linear one as long as the product fits. *)
Lemma baseDelay_simple {W} a (cfg : RetryConfig W) n :
  (Strategy cfg = BackoffConstant → baseDelay a cfg n = Z.min (InitialDelay cfg) (MaxDelay cfg)) ∧
  (Strategy cfg = BackoffLinear → is_int64 (InitialDelay cfg * n) →
     baseDelay a cfg n = Z.min (InitialDelay cfg * n) (MaxDelay cfg)).
Proof.
  unfold baseDelay. split; intros ->; simpl; [|intros Hi; rewrite wrap64_id by done];
    case_match eqn:E; zbool; lia.
Qed.

(** The exponential backoff doubles, exactly, as long as the product fits in 53 bits. *)
Lemma baseDelay_doubles {W} a (cfg : RetryConfig W) n :
  Strategy cfg = BackoffExponential → Multiplier cfg = f_of_Z 2 → 1 ≤ n ≤ 53 → 0 ≤ InitialDelay cfg →
  exact_int (InitialDelay cfg * 2 ^ (n - 1)) →
  baseDelay a cfg n = Z.min (InitialDelay cfg * 2 ^ (n - 1)) (MaxDelay cfg).
Proof.
  intros Hs Hm Hn Hi Hx. unfold baseDelay. rewrite Hs, Hm. simpl.
  assert (1 ≤ 2 ^ (n - 1) < 2 ^ 53) as Hp
    by (split; [apply (Z.pow_le_mono_r 2 0); lia | apply Z.pow_lt_mono_r; lia]).
  rewrite math_Pow_2, f_mul_int, int64_of_f_int by (done || unfold exact_int in *; nia).
  case_match eqn:E; zbool; lia.
Qed.

#[local] Opaque baseDelay.

(** C31. The delay before a retry: the capped backoff (constant, linear or, with the multiplier of
    the default, doubling at each attempt), plus, with jitter, less than a
    quarter of it; so at most five quarters of [MaxDelay], and nothing overflows when
    that fits.  With jitter the computation panics exactly when the capped backoff is
    positive and under 4 ns, as [rand.Int64N] is then called with 0. *)
Theorem calculateDelay_range {W} `{GoEnvSpec W} a (r : Retry W) n w :
  let d := baseDelay a (config r) n in
  MaxDelay (config r) + MaxDelay (config r) / 4 ≤ int64_max →
  d ≤ MaxDelay (config r) ∧
  (Strategy (config r) = BackoffConstant → d = Z.min (InitialDelay (config r)) (MaxDelay (config r))) ∧
  (Strategy (config r) = BackoffLinear → is_int64 (InitialDelay (config r) * n) →
     d = Z.min (InitialDelay (config r) * n) (MaxDelay (config r))) ∧
  (Strategy (config r) = BackoffExponential → Multiplier (config r) = f_of_Z 2 → 1 ≤ n ≤ 53 →
     0 ≤ InitialDelay (config r) → exact_int (InitialDelay (config r) * 2 ^ (n - 1)) →
     d = Z.min (InitialDelay (config r) * 2 ^ (n - 1)) (MaxDelay (config r))) ∧
  (Jitter (config r) = false → calculateDelay a r n w = (Val d, w)) ∧
  (d ≤ 0 → calculateDelay a r n w = (Val d, w)) ∧
  (Jitter (config r) = true → 0 < d < 4 →
     calculateDelay a r n w = (Panic "invalid argument to Int64N", w)) ∧
  (Jitter (config r) = true → 4 ≤ d →
     ∃ d' w', calculateDelay a r n w = (Val d', w') ∧ d ≤ d' < d + d / 4 ∧
       d' ≤ MaxDelay (config r) + MaxDelay (config r) / 4).
Proof.
  intros d Hmax. pose proof (baseDelay_capped a (config r) n) as Hcap. fold d in Hcap.
  unfold calculateDelay, rand_Int64N. fold d.
  split; [done|]. destruct (baseDelay_simple a (config r) n) as [Hc Hl]. split; [done|]. split; [done|]. clear Hc Hl.
  split; [apply baseDelay_doubles|].
  split_and!.
  - intros ->. done.
  - intros Hd. rewrite (proj2 (Z.ltb_ge _ _)) by done. by rewrite andb_false_r.
  - intros -> Hd. rewrite (proj2 (Z.ltb_lt _ _)) by lia. simpl.
    rewrite (Z.quot_small d 4) by lia. done.
  - intros -> Hd. rewrite (proj2 (Z.ltb_lt _ _)) by lia. simpl.
    rewrite Z.quot_div_nonneg by lia.
    assert (1 ≤ d / 4 ≤ MaxDelay (config r) / 4) as Hq.
    { split; [apply Z.div_le_lower_bound; lia | apply Z.div_le_mono; lia]. }
    rewrite (proj2 (Z.leb_gt _ _)) by lia.
    pose proof (env_rand_range (d / 4) w ltac:(lia)) as Hj.
    unfold mbind, go_bind, go_lift. destruct (env_rand (d / 4) w) as [j w'].
    simpl in Hj. eexists _, w'. split; [done|].
    rewrite wrap64_id by (unfold is_int64, int64_min, int64_max in *; lia). lia.
Qed.

#[local] Transparent baseDelay.

(** The default configuration. *)
Definition default_config (W : Type) : RetryConfig W :=
  MkConfig 0 0 0 f_zero BackoffExponential false None None.

Definition default_retry (W : Type) : Retry W := NewRetry (default_config W).

Definition doubling_ok (a : arch) (k : nat) : bool :=
  baseDelay a (config (default_retry unit)) (Z.of_nat k + 1) =?
  Z.min (100 * Millisecond * 2 ^ Z.of_nat k) (30 * Second).

(** The default backoff doubles from 100 ms at each attempt and is capped at 30 s:
    exactly, in float64, up to the 37th attempt, on every architecture. *)
Theorem default_backoff_doubles a n :
  1 ≤ n ≤ 37 →
  baseDelay a (config (default_retry unit)) n = Z.min (100 * Millisecond * 2 ^ (n - 1)) (30 * Second).
Proof.
  intros Hn. assert (forallb (doubling_ok a) (seq 0 37) = true) as Hall
    by (destruct a; vm_compute; reflexivity).
  rewrite forallb_forall in Hall.
  specialize (Hall (Z.to_nat (n - 1)) ltac:(apply in_seq; lia)).
  unfold doubling_ok in Hall. zbool.
  by replace (Z.of_nat (Z.to_nat (n - 1))) with (n - 1) in Hall by lia;
    replace (n - 1 + 1) with n in Hall by lia.
Qed.

Definition overflow_delay (k : nat) : bool :=
  baseDelay AMD64 (config (default_retry unit)) (Z.of_nat k) =? int64_min.

(** From the 38th attempt on (tried up to 500) the default backoff overflows: the
    conversion to an integer gives, on amd64, the most negative duration, which the cap
    lets through; the wait is then over at once. *)
Theorem default_backoff_overflows n :
  38 ≤ n ≤ 500 →
  baseDelay AMD64 (config (default_retry unit)) n = int64_min.
Proof.
  intros Hn. assert (forallb overflow_delay (seq 38 463) = true) as Hall
    by (vm_compute; reflexivity).
  rewrite forallb_forall in Hall.
  specialize (Hall (Z.to_nat n) ltac:(apply in_seq; lia)).
  unfold overflow_delay in Hall. zbool. by rewrite Z2Nat.id in Hall by lia.
Qed.

(** ** Witnesses *)

(** An operation whose results are read from the cell of the world. *)
Definition scripted {S} : Go (World (list (option error) * S)) (option error) := λ w,
  let '(x, l) := pop (w_cell w).1 in
  (Val x, store cell (l, (w_cell w).2) w).

Lemma scripted_total {S} : total (@scripted S).
Proof. intros w w'. unfold scripted. by destruct (pop _). Qed.

Definition demo_world (script : list (option error)) : World (list (option error) * unit) :=
  MkWorld 0 0 [] [] 7 [] (script, ()).

Definition demo : Retry (World (list (option error) * unit)) :=
  NewRetry (MkConfig 3 1 Second f_one BackoffConstant false None None).

Lemma demo_retry_inv : inv demo.
Proof. apply new_retry_inv. by vm_compute. Qed.

Definition down : error := Foreign 1.

Lemma Execute_attempts_witness :
  ∃ res w' k, Execute AMD64 demo scripted (demo_world [Some down; Some down; None]) = (res, w') ∧
    attempts AMD64 demo scripted 1 (demo_world [Some down; Some down; None]) res w' k ∧
    1 ≤ Z.of_nat k ≤ 3 ∧ res = Val None.
Proof.
  destruct (Execute_attempts AMD64 demo scripted (demo_world [Some down; Some down; None]) demo_retry_inv)
    as (res & w' & k & H1 & H2 & H3 & _).
  exists res, w', k. split; [done|]. split; [done|]. split; [done|].
  vm_compute in H1. congruence.
Defined.

Lemma Execute_error_source_witness :
  last_error AMD64 demo scripted down.
Proof.
  assert (Execute AMD64 demo scripted (demo_world [Some down; Some down; Some down])
    = (Val (Some down), MkWorld 2 0 [] [] 7 [] ([], ()))) as H by (vm_compute; reflexivity).
  exact (Execute_error_source AMD64 demo scripted _ _ _ demo_retry_inv H).
Defined.

(** A jittered delay of one second, and one of 3 ns. *)
Definition jittery (d : Duration) : Retry (World (list (option error) * unit)) :=
  NewRetry (MkConfig 3 d Second f_one BackoffConstant true None None).

Lemma calculateDelay_range_witness :
  calculateDelay AMD64 (jittery 3) 1 (demo_world []) =
    (Panic "invalid argument to Int64N", demo_world []) ∧
  (∃ d' w', calculateDelay AMD64 (jittery Second) 1 (demo_world []) = (Val d', w') ∧
    Second ≤ d' < Second + Second / 4 ∧ d' ≤ Second + Second / 4) ∧
  baseDelay AMD64 (config (default_retry (World unit))) 4 = 800 * Millisecond.
Proof.
  split_and!.
  - by apply (calculateDelay_range AMD64 (jittery 3) 1 (demo_world [])).
  - by apply (calculateDelay_range AMD64 (jittery Second) 1 (demo_world [])).
  - by apply (calculateDelay_range (W:=World unit) AMD64 (default_retry _) 4 (MkWorld 0 0 [] [] 0 [] ())).
Defined.

Lemma default_backoff_doubles_witness :
  baseDelay ARM64 (config (default_retry unit)) 9 = 25600 * Millisecond.
Proof. apply (default_backoff_doubles ARM64 9). lia. Defined.

Lemma default_backoff_overflows_witness :
  baseDelay AMD64 (config (default_retry unit)) 40 < 0.
Proof. rewrite (default_backoff_overflows 40) by lia. by vm_compute. Defined.

End RT.
