(* ===== verification/Bulkhead.v ===== *)
(** * resilience/bulkhead.go: the bulkhead

    [sem] is the number of tokens in the buffered channel, whose capacity is
    [MaxConcurrent].  A send or receive on the channel and a block under the mutex are
    separate atomic actions, between which other goroutines run.  The file has the
    operations as the code composes them, over a world ([Acquire], [Release],
    [Execute]), and a step relation on the program counters of a set of goroutines
    that call [Execute] ([step]), for every interleaving of the atomic actions. *)

From stdpp Require Import relations.
From S2P Require Import Prelude.
From S2P Require Import GoRuntime.
Local Open Scope Z_scope.

Module BH.

(** ** Data *)

Record BulkheadConfig := MkConfig {
  MaxConcurrent : Z;
  MaxWait : Duration;
}.

Record Bulkhead := MkBH {
  config : BulkheadConfig;
  sem : Z;
  active : Z;
  maxActive : Z;
  rejected : Z;
}.

Record BulkheadMetrics := MkMetrics {
  m_Active : Z;
  m_MaxActive : Z;
  m_Available : Z;
  m_MaxConcurrent : Z;
  m_Rejected : Z;
}.

Definition ErrBulkheadFull : error := Sentinel "resilience: bulkhead at capacity".

(** ** Atomic actions *)

Definition NewBulkhead (cfg : BulkheadConfig) : Bulkhead :=
  let maxConcurrent := if MaxConcurrent cfg <=? 0 then 10 else MaxConcurrent cfg in
  MkBH (MkConfig maxConcurrent (MaxWait cfg)) 0 0 0 0.

(** [select { case b.sem <- struct{}{}: ...; default: }]: [None] when the channel is full. *)
Definition trySend (b : Bulkhead) : option Bulkhead :=
  if sem b <? MaxConcurrent (config b)
  then Some (MkBH (config b) (sem b + 1) (active b) (maxActive b) (rejected b))
  else None.

(** The block under the mutex after a send. *)
Definition acquired (b : Bulkhead) : Bulkhead :=
  let active := wrap64 (active b + 1) in
  let maxActive := if maxActive b <? active then active else maxActive b in
  MkBH (config b) (sem b) active maxActive (rejected b).

(** [b.rejected++] under the mutex. *)
Definition reject (b : Bulkhead) : Bulkhead :=
  MkBH (config b) (sem b) (active b) (maxActive b) (wrap64 (rejected b + 1)).

(** [select { case <-b.sem: ...; default: }]: [None] when the channel is empty. *)
Definition tryRecv (b : Bulkhead) : option Bulkhead :=
  if 0 <? sem b
  then Some (MkBH (config b) (sem b - 1) (active b) (maxActive b) (rejected b))
  else None.

(** [b.active--] under the mutex. *)
Definition released (b : Bulkhead) : Bulkhead :=
  MkBH (config b) (sem b) (wrap64 (active b - 1)) (maxActive b) (rejected b).

Definition Metrics (b : Bulkhead) : BulkheadMetrics :=
  MkMetrics (active b) (maxActive b) (wrap64 (MaxConcurrent (config b) - active b))
    (MaxConcurrent (config b)) (rejected b).

(** ** Operations *)

Section Operations.
Context {W : Type} `{GoEnv W} (p : Ptr W Bulkhead).

Definition update (f : Bulkhead → Bulkhead) : Go W unit :=
  go_modify (λ w, store p (f (load p w)) w).

(** A non-blocking channel operation. *)
Definition attempt (f : Bulkhead → option Bulkhead) : Go W bool :=
  go_lift (λ w, match f (load p w) with
    | Some b => (true, store p b w)
    | None => (false, w)
    end).

(** The blocking [select] between the send, a timer of [d] and [ctx.Done()].  The send is part
    of its case, which the runtime takes only when the channel has room: when [env_select] names
    it and there is none, the goroutine sleeps on until the timer. *)
Definition select_slot (d : Duration) : Go W select_result :=
  go_lift (λ w,
    let '(res, w) := env_select d w in
    match res with
    | SendReady => match trySend (load p w) with
                   | Some b => (SendReady, store p b w)
                   | None => (TimerFired, w)
                   end
    | _ => (res, w)
    end).

Definition Acquire : Go W (option error) :=
  sent ← attempt trySend;
  if (sent : bool) then (_ ← update acquired; mret None)
  else
    cfg ← go_get (λ w, config (load p w));
    if MaxWait cfg <=? 0 then (_ ← update reject; mret (Some ErrBulkheadFull))
    else
      res ← select_slot (MaxWait cfg);
      match res with
      | SendReady => _ ← update acquired; mret None
      | TimerFired => _ ← update reject; mret (Some ErrBulkheadFull)
      | SelectDone err => mret (Some err)
      end.

Definition Release : Go W unit :=
  received ← attempt tryRecv;
  if (received : bool) then update released else mret ().

Definition Execute (op : Go W (option error)) : Go W (option error) :=
  err ← Acquire;
  match err with
  | Some err => mret (Some err)
  | None => go_defer Release op
  end.
End Operations.

(** ** Goroutines that call [Execute]

    The points of a call at which another goroutine can run. *)

Inductive pc :=
| Idle          (* outside of a call *)
| Sent          (* the token is sent, [b.active++] still to come *)
| Waiting       (* in the blocking select *)
| Rejecting     (* [b.rejected++] still to come *)
| Running       (* inside the operation *)
| Releasing.    (* the token is received, [b.active--] still to come *)

#[export] Instance pc_eq_dec : EqDecision pc.
Proof. solve_decision. Defined.

(** The bulkhead and the program counter of every goroutine. *)
Abbreviation sys := (Bulkhead * list pc)%type (only parsing).

Inductive step : relation sys :=
| step_send b b' ths i :
    ths !! i = Some Idle → trySend b = Some b' →
    step (b, ths) (b', <[i:=Sent]> ths)
| step_full b ths i :
    ths !! i = Some Idle → trySend b = None → MaxWait (config b) ≤ 0 →
    step (b, ths) (b, <[i:=Rejecting]> ths)
| step_wait b ths i :
    ths !! i = Some Idle → trySend b = None → 0 < MaxWait (config b) →
    step (b, ths) (b, <[i:=Waiting]> ths)
| step_slot b b' ths i :
    ths !! i = Some Waiting → trySend b = Some b' →
    step (b, ths) (b', <[i:=Sent]> ths)
| step_timer b ths i :
    ths !! i = Some Waiting → step (b, ths) (b, <[i:=Rejecting]> ths)
| step_ctx b ths i :
    ths !! i = Some Waiting → step (b, ths) (b, <[i:=Idle]> ths)
| step_acquired b ths i :
    ths !! i = Some Sent → step (b, ths) (acquired b, <[i:=Running]> ths)
| step_reject b ths i :
    ths !! i = Some Rejecting → step (b, ths) (reject b, <[i:=Idle]> ths)
| step_recv b b' ths i :
    ths !! i = Some Running → tryRecv b = Some b' →
    step (b, ths) (b', <[i:=Releasing]> ths)
| step_empty b ths i :
    ths !! i = Some Running → tryRecv b = None → step (b, ths) (b, <[i:=Idle]> ths)
| step_released b ths i :
    ths !! i = Some Releasing → step (b, ths) (released b, <[i:=Idle]> ths).

(** [n] goroutines on a new bulkhead. *)
Definition init (cfg : BulkheadConfig) (n : nat) : sys := (NewBulkhead cfg, replicate n Idle).

Definition reachable (cfg : BulkheadConfig) (n : nat) (s : sys) : Prop := rtc step (init cfg n) s.

(** ** Invariant *)

Definition holds_token (t : pc) : bool := bool_decide (t = Sent ∨ t = Running).
Definition counted (t : pc) : bool := bool_decide (t = Running ∨ t = Releasing).
Definition is_running (t : pc) : bool := bool_decide (t = Running).

Record inv (cfg : BulkheadConfig) (n : nat) (s : sys) : Prop := {
  inv_config : config s.1 = config (NewBulkhead cfg);
  inv_threads : length s.2 = n;
  inv_sem : sem s.1 = Z.of_nat (count_if holds_token s.2);
  inv_room : sem s.1 ≤ MaxConcurrent (config s.1);
  inv_active : active s.1 = Z.of_nat (count_if counted s.2);
  inv_max : active s.1 ≤ maxActive s.1 ≤ Z.of_nat n;
}.

Lemma trySend_Some b b' :
  trySend b = Some b' →
  sem b < MaxConcurrent (config b) ∧
  b' = MkBH (config b) (sem b + 1) (active b) (maxActive b) (rejected b).
Proof. unfold trySend. intros H. case_match; zbool; simplify_eq. done. Qed.

Lemma tryRecv_Some b b' :
  tryRecv b = Some b' →
  0 < sem b ∧ b' = MkBH (config b) (sem b - 1) (active b) (maxActive b) (rejected b).
Proof. unfold tryRecv. intros H. case_match; zbool; simplify_eq. done. Qed.

Lemma bulkhead_init_inv cfg n : inv cfg n (init cfg n).
Proof.
  split; simpl; rewrite ?length_replicate, ?count_if_replicate; simpl; try done; try lia.
  case_match; zbool; lia.
Qed.

(** The counts after a goroutine moves from [x] to [y]. *)
Ltac counts ths i x y :=
  pose proof (count_if_insert holds_token ths i x y ltac:(done));
  pose proof (count_if_insert counted ths i x y ltac:(done));
  pose proof (count_if_length counted (<[i:=y]> ths));
  rewrite length_insert in *; simpl in *.

Lemma bulkhead_step_inv cfg n s s' : Z.of_nat n ≤ int64_max → inv cfg n s → step s s' → inv cfg n s'.
Proof.
  intros Hn Hi Hs. destruct Hi as [Hc Hl Hsem Hroom Hact Hmax].
  destruct Hs as [b b' ths i Hi Hsend|b ths i Hi|b ths i Hi|b b' ths i Hi Hsend|b ths i Hi|b ths i Hi|
    b ths i Hi|b ths i Hi|b b' ths i Hi Hrecv|b ths i Hi Hrecv|b ths i Hi]; simpl in *;
    try (apply trySend_Some in Hsend as [? ->]); try (apply tryRecv_Some in Hrecv as [? ->]).
  - counts ths i Idle Sent. split; simpl; rewrite ?length_insert; try done; lia.
  - counts ths i Idle Rejecting. split; simpl; rewrite ?length_insert; try done; lia.
  - counts ths i Idle Waiting. split; simpl; rewrite ?length_insert; try done; lia.
  - counts ths i Waiting Sent. split; simpl; rewrite ?length_insert; try done; lia.
  - counts ths i Waiting Rejecting. split; simpl; rewrite ?length_insert; try done; lia.
  - counts ths i Waiting Idle. split; simpl; rewrite ?length_insert; try done; lia.
  - counts ths i Sent Running.
    assert (wrap64 (active b + 1) = active b + 1) as Hw
      by (apply wrap64_id; unfold is_int64, int64_min, int64_max in *; lia).
    split; simpl; rewrite ?length_insert, ?Hw; try done; try lia.
    destruct (maxActive b <? active b + 1) eqn:E; zbool; lia.
  - counts ths i Rejecting Idle. split; simpl; rewrite ?length_insert; try done; lia.
  - counts ths i Running Releasing. split; simpl; rewrite ?length_insert; try done; lia.
  - exfalso. pose proof (count_if_lookup holds_token ths i Running Hi eq_refl).
    unfold tryRecv in Hrecv. case_match; zbool; [done | lia].
  - counts ths i Releasing Idle.
    assert (wrap64 (active b - 1) = active b - 1) as Hw
      by (apply wrap64_id; unfold is_int64, int64_min, int64_max in *; lia).
    split; simpl; rewrite ?length_insert, ?Hw; try done; lia.
Qed.

Lemma bulkhead_reachable_inv cfg n s : Z.of_nat n ≤ int64_max → reachable cfg n s → inv cfg n s.
Proof.
  intros Hn. apply rtc_preserved; [|apply bulkhead_init_inv].
  intros s1 s2. by apply bulkhead_step_inv.
Qed.

#[export] Hint Resolve bulkhead_init_inv bulkhead_step_inv bulkhead_reachable_inv : toolops_inv.

(** C5. Along every interleaving of [n] goroutines that call [Execute]: at most
    [MaxConcurrent] operations run at once; every token of the channel belongs to a
    goroutine between its send and its receive, so that none leaks; [active] counts the
    goroutines between the two blocks under the mutex, and never exceeds [maxActive]. *)
Theorem bulkhead_limits_concurrency cfg n b ths :
  Z.of_nat n ≤ int64_max → reachable cfg n (b, ths) →
  Z.of_nat (count_if is_running ths) ≤ MaxConcurrent (config b) ∧
  sem b = Z.of_nat (count_if holds_token ths) ∧
  active b = Z.of_nat (count_if counted ths) ∧ active b ≤ maxActive b.
Proof.
  intros Hn Hr. destruct (bulkhead_reachable_inv _ _ _ Hn Hr) as [Hc Hl Hsem Hroom Hact Hmax].
  simpl in *. split_and!; [|done|done|lia].
  pose proof (count_if_mono is_running holds_token ths).
  assert (count_if is_running ths ≤ count_if holds_token ths)%nat; [|lia].
  apply count_if_mono. intros [] Hx; vm_compute in Hx |- *; done.
Qed.

(** ** Every call comes to its end *)

(** A step of a call that is under way, not one that starts a call. *)
Definition finishing (s s' : sys) : Prop :=
  step s s' ∧ ∀ i, s.2 !! i = Some Idle → s'.2 !! i = Some Idle.

(** The steps a call has left at most. *)
Definition steps_left (t : pc) : nat :=
  match t with
  | Idle => 0 | Rejecting | Releasing => 1 | Running => 2 | Sent => 3 | Waiting => 4
  end.

Definition left (s : sys) : nat := sum_list_with steps_left s.2.

Lemma finishing_left s s' : finishing s s' → (left s' < left s)%nat.
Proof.
  intros [Hs Hidle]. unfold left.
  assert (∀ b b' ths i x y, s = (b, ths) → s' = (b', <[i:=y]> ths) → ths !! i = Some x →
    (steps_left y < steps_left x)%nat ∨ x = Idle ∧ y ≠ Idle →
    (sum_list_with steps_left s'.2 < sum_list_with steps_left s.2)%nat) as Hm.
  { intros b b' ths i x y -> -> Hi [Hlt|[-> Hy]]; simpl in *.
    - pose proof (sum_insert steps_left ths i x y Hi). lia.
    - specialize (Hidle i Hi). rewrite list_lookup_insert_eq in Hidle by (by eapply lookup_lt_Some).
      congruence. }
  destruct Hs; (eapply Hm; [reflexivity|reflexivity|eassumption|simpl; first [left; lia | by right]]).
Qed.

Lemma finishing_insert b b' ths i x y :
  ths !! i = Some x → x ≠ Idle → step (b, ths) (b', <[i:=y]> ths) →
  finishing (b, ths) (b', <[i:=y]> ths).
Proof.
  intros Hi Hx Hs. split; [done|]. intros j Hj. simpl in *.
  rewrite list_lookup_insert_ne; [done | congruence].
Qed.

(** A goroutine inside a call can take a step: none waits for another for ever. *)
Lemma call_moves b ths i x : ths !! i = Some x → x ≠ Idle → ∃ s', finishing (b, ths) s'.
Proof.
  intros Hi Hx. destruct x; [done|..].
  - eexists. by eapply finishing_insert, step_acquired.
  - eexists. by eapply finishing_insert, step_timer.
  - eexists. by eapply finishing_insert, step_reject.
  - destruct (tryRecv b) eqn:E; eexists; [by eapply finishing_insert, step_recv|].
    by eapply finishing_insert, step_empty.
  - eexists. by eapply finishing_insert, step_released.
Qed.

(** Nobody is in a call, every slot is free, and the next call gets one. *)
Definition drained (s : sys) : Prop :=
  Forall (λ t, t = Idle) s.2 ∧ sem s.1 = 0 ∧ active s.1 = 0 ∧ trySend s.1 ≠ None.

Lemma all_idle_drained cfg n s : inv cfg n s → Forall (λ t, t = Idle) s.2 → drained s.
Proof.
  intros [Hc _ Hsem _ Hact _] Hall. split; [done|].
  assert (∀ f, f Idle = false → count_if f s.2 = 0%nat) as Hz.
  { intros f Hf. clear -Hall Hf. induction Hall as [|t ths -> _ IH]; simpl; [done|]. by rewrite Hf. }
  rewrite Hz in Hsem, Hact by done. split; [done|]. split; [done|].
  unfold trySend. rewrite Hsem, Hc. unfold NewBulkhead. simpl.
  destruct (Z.leb_spec (MaxConcurrent cfg) 0); rewrite (proj2 (Z.ltb_lt _ _)); done || lia.
Qed.

(** C27. From every reachable state, the calls under way end in a bounded number of
    steps when their operations return: at most four for each goroutine, whatever the order;
    and when no call can go on, none is left, all the slots are free again, and the next call
    gets one. *)
Theorem bulkhead_drains cfg n s k s' :
  Z.of_nat n ≤ int64_max → reachable cfg n s → nsteps finishing k s s' →
  (k ≤ 4 * n)%nat ∧ (drained s' ∨ ∃ s'', finishing s' s'').
Proof.
  intros Hn Hr Hk.
  assert (inv cfg n s) as Hi by (by apply bulkhead_reachable_inv).
  assert (inv cfg n s') as Hi'.
  { apply (rtc_preserved finishing (inv cfg n) s); [|done|by eapply rtc_nsteps_2].
    intros s1 s2 H1 [H2 _]. by eapply bulkhead_step_inv. }
  split.
  - pose proof (nsteps_measure finishing left k s s' finishing_left Hk).
    pose proof (sum_bound steps_left 4 s.2) as Hb. rewrite (inv_threads _ _ _ Hi) in Hb.
    assert (left s ≤ 4 * n)%nat; [|lia]. apply Hb. intros []; simpl; lia.
  - destruct s' as [b ths]. destruct (decide (Forall (λ t, t = Idle) ths)) as [Hall|Hsome].
    + left. by eapply all_idle_drained.
    + right. apply not_Forall_Exists in Hsome; [|apply _].
      apply Exists_exists in Hsome as (x & Hin & Hx). apply list_elem_of_lookup in Hin as [i Hi0].
      by eapply call_moves.
Qed.

(** ** Metrics *)

(** A goroutine outside of the small windows between a channel operation and the block
    under the mutex. *)
Definition settled (t : pc) : bool := negb (bool_decide (t = Sent ∨ t = Releasing)).

(** When no goroutine is between its channel operation and its block under the mutex,
    the metrics are exact: [Active] is the number of operations that run, and
    [Available] the number of further calls that would be let in, which is not
    negative. *)
Theorem metrics_when_settled cfg n b ths :
  is_int64 (MaxConcurrent cfg) → Z.of_nat n ≤ int64_max →
  reachable cfg n (b, ths) → Forall (λ t, settled t = true) ths →
  m_Active (Metrics b) = Z.of_nat (count_if is_running ths) ∧
  m_Available (Metrics b) = MaxConcurrent (config b) - sem b ∧ 0 ≤ m_Available (Metrics b).
Proof.
  intros Hcfg Hn Hr Hs. destruct (bulkhead_reachable_inv _ _ _ Hn Hr) as [Hc Hl Hsem Hroom Hact Hmax].
  simpl in *.
  assert (count_if counted ths = count_if is_running ths ∧
    count_if holds_token ths = count_if is_running ths) as [H1 H2].
  { clear -Hs. induction Hs as [|t ths Ht _ [IH1 IH2]]; simpl; [done|].
    rewrite IH1, IH2. by destruct t. }
  unfold Metrics. simpl. rewrite H1 in Hact. rewrite H2 in Hsem.
  rewrite wrap64_id; [lia|]. unfold is_int64, int64_min, int64_max in *.
  rewrite Hc in *. simpl in *. case_match; zbool; lia.
Qed.

(** Between those windows they are not: with [MaxConcurrent] of 1 the metrics can
    report 2 active operations, a maximum of 2 and -1 available. *)
Theorem metrics_overshoot :
  ∃ b ths, reachable (MkConfig 1 0) 2 (b, ths) ∧
    Metrics b = MkMetrics 2 2 (-1) 1 0.
Proof.
  assert (∃ s, reachable (MkConfig 1 0) 2 s ∧ Metrics s.1 = MkMetrics 2 2 (-1) 1 0)
    as ([b ths] & Hr & Hm); [|by exists b, ths].
  eexists. split.
  - eapply rtc_l; [by eapply (step_send _ _ _ 0)|].
    eapply rtc_l; [by eapply (step_acquired _ _ 0)|].
    eapply rtc_l; [by eapply (step_recv _ _ _ 0)|].
    eapply rtc_l; [by eapply (step_send _ _ _ 1)|].
    eapply rtc_l; [by eapply (step_acquired _ _ 1)|].
    apply rtc_refl.
  - vm_compute. reflexivity.
Qed.

(** ** A single call *)

Section ExecuteProofs.
Context {W : Type} `{GoEnv W} (p : Ptr W Bulkhead).

(** What [Release] does to the bulkhead. *)
Definition release (b : Bulkhead) : Bulkhead :=
  match tryRecv b with Some b => released b | None => b end.

Lemma Release_spec w : Release p w = (Val (), store p (release (load p w)) w).
Proof.
  unfold Release, attempt, update, go_lift, go_modify, mbind, go_bind, mret, go_ret, release.
  destruct (tryRecv (load p w)) as [b|]; [by rewrite load_store, store_store | by rewrite store_load].
Qed.

(** A call that finds the bulkhead full and may not wait fails with [ErrBulkheadFull],
    without running the operation; it changes only the count of rejections. *)
Theorem Execute_full op w :
  let b := load p w in
  sem b = MaxConcurrent (config b) → MaxWait (config b) ≤ 0 →
  Execute p op w = (Val (Some ErrBulkheadFull), store p (reject b) w).
Proof.
  intros b Hfull Hwait.
  unfold Execute, Acquire, attempt, update, go_lift, go_get, go_modify, mbind, go_bind, mret, go_ret,
    trySend. fold b.
  rewrite (proj2 (Z.ltb_ge _ _)) by lia. fold b. by rewrite (proj2 (Z.leb_le _ _)) by done.
Qed.

(** A call that finds room takes a token, runs the operation and gives the token back
    when the operation returns and when it panics, with the operation's own outcome. *)
Theorem Execute_releases op w o w' b :
  trySend (load p w) = Some b → op (store p (acquired b) w) = (o, w') → o ≠ OutOfFuel →
  Execute p op w = (o, store p (release (load p w')) w').
Proof.
  intros Hs Hop Ho.
  unfold Execute, Acquire, attempt, update, go_lift, go_modify.
  unfold mbind, go_bind, mret, go_ret. rewrite Hs, load_store, store_store.
  unfold go_defer. rewrite Hop, Release_spec. by destruct o.
Qed.

(** The bulkhead that a call finds: as it is, or, when there was no room and the call waits, as
    the other goroutines have left it at the end of the wait. *)
Definition found (w : W) (b : Bulkhead) : Prop :=
  b = load p w ∨
  (trySend (load p w) = None ∧ 0 < MaxWait (config (load p w)) ∧
    b = load p (env_select (MaxWait (config (load p w))) w).2).

(** The tokens and the count of active operations are the same. *)
Definition same_slots (b b' : Bulkhead) : Prop :=
  config b' = config b ∧ sem b' = sem b ∧ active b' = active b.

(** One more operation can be counted. *)
Definition countable (b : Bulkhead) : Prop := 0 ≤ sem b ∧ is_int64 (active b) ∧ is_int64 (active b + 1).

Lemma release_acquired b b1 :
  countable b → trySend b = Some b1 → same_slots b (release (acquired b1)).
Proof.
  intros (Hk & Hn & Hn1) Hb1. apply trySend_Some in Hb1 as [_ ->].
  unfold release, tryRecv, acquired, same_slots, released. simpl.
  rewrite (proj2 (Z.ltb_lt _ _)) by lia. simpl. rewrite (wrap64_id (active b + 1)) by done.
  replace (active b + 1 - 1) with (active b) by lia. rewrite wrap64_id by done. split_and!; done || lia.
Qed.

(** What [Acquire] does to the bulkhead it finds, on every branch. *)
Lemma Acquire_run w :
  ∃ b, found w b ∧
    match Acquire p w with
    | (Val (Some _), w1) => same_slots b (load p w1)
    | (Val None, w1) => ∃ b1, trySend b = Some b1 ∧ load p w1 = acquired b1
    | _ => False
    end.
Proof.
  unfold Acquire, attempt, select_slot, update, go_lift, go_modify, go_get, found.
  unfold mbind, go_bind, mret, go_ret.
  destruct (trySend (load p w)) as [b|] eqn:Es.
  { exists (load p w). split; [by left|]. exists b. by rewrite !load_store. }
  destruct (Z.leb_spec (MaxWait (config (load p w))) 0) as [Hw|Hw].
  { exists (load p w). split; [by left|]. by rewrite load_store. }
  destruct (env_select (MaxWait (config (load p w))) w) as [res w1] eqn:E.
  exists (load p w1). split; [by right|].
  destruct res as [| |err]; [|by rewrite load_store|done].
  destruct (trySend (load p w1)) as [b|] eqn:Es1; [|by rewrite load_store].
  exists b. by rewrite !load_store.
Qed.

Lemma Execute_slots op w o w' :
  (∀ I, keeps I p op) → (∀ b, found w b → countable b) →
  Execute p op w = (o, w') → o ≠ OutOfFuel →
  ∃ b, found w b ∧ same_slots b (load p w').
Proof.
  intros Hop Hc HE Ho. destruct (Acquire_run w) as (b & Hb & Hacq). exists b. split; [done|].
  unfold Execute in HE. rewrite go_bind_run in HE.
  destruct (Acquire p w) as [[[err|]|msg|] w1]; [|..|done|done]; [by injection HE as _ <-|].
  destruct Hacq as (b1 & Hb1 & Hl). unfold go_defer in HE.
  destruct (op w1) as [r w2] eqn:Eop.
  assert (r ≠ OutOfFuel → same_slots b (load p (store p (release (load p w2)) w2))) as Hr.
  { intros Hr. rewrite load_store.
    rewrite (Hop (λ s, s = acquired b1) _ _ _ Eop Hr Hl). apply release_acquired; auto. }
  destruct r as [r|msg|]; [rewrite Release_spec in HE..|by injection HE as <- <-];
    injection HE as <- <-; by apply Hr.
Qed.
End ExecuteProofs.

Lemma bulkhead_total {W} `{GoEnv W} (p : Ptr W Bulkhead) op : total op → total (Execute p op).
Proof. intros Hop. unfold Execute, Acquire, Release, attempt, select_slot, update. total. Qed.

(** An object apart from the bulkhead, and that other goroutines leave alone meanwhile. *)
Definition foreign {W} `{GoEnv W} (p : Ptr W Bulkhead) : ∀ S, Ptr W S → Prop := λ S q,
  apart p S q ∧ SelectFrame q.

#[global] Instance Execute_layer {W} `{GoEnv W} (p : Ptr W Bulkhead) :
  Layer (Execute p) (foreign p).
Proof.
  split.
  - intros op1 op2 Hop. unfold Execute. f_equiv. intros [err|]; [done|]. by f_equiv.
  - intros S I q op [[[Hd _] Hf] Hsel] Hop.
    assert (∀ f, keeps I q (update p f)) as Hu.
    { intros f w o w' E _. unfold update, go_modify in E. simplify_eq. by rewrite Hd. }
    assert (∀ f, keeps I q (attempt p f)) as Ha.
    { intros f. apply keeps_lift. intros w. destruct (f (load p w)); simpl; [apply Hd | done]. }
    assert (∀ d, keeps I q (select_slot p d)) as Hs.
    { intros d. apply keeps_lift. intros w. specialize (Hsel d w).
      destruct (env_select d w) as [[| |err] w1]; [|exact Hsel..].
      destruct (trySend (load p w1)); simpl; [by rewrite Hd | exact Hsel]. }
    unfold Execute, Acquire, Release. keeps; by first [apply Hu | apply Ha | apply Hs].
Qed.

#[global] Instance Execute_once {W} `{GoEnv W} (p : Ptr W Bulkhead) :
  OnceLayer (Execute p) (foreign p).
Proof.
  intros S q op w o w' Hf HE Ho.
  pose proof (λ o w', layer_untouched (L:=Execute p) q None w o w' Hf) as Hu.
  unfold Execute in HE, Hu. unfold mbind, go_bind in HE, Hu.
  destruct (Acquire p w) as [[[err|]|msg|] w1]; simplify_eq; try (left; by eapply Hu).
  unfold go_defer in HE, Hu. unfold mret, go_ret in Hu. rewrite Release_spec in Hu.
  assert (∀ b w, load q (store p b w) = load q w) as Hst by (intros; apply Hf).
  specialize (Hu _ _ eq_refl ltac:(done)). rewrite Hst in Hu.
  right. exists w1. destruct (op w1) as [r w2] eqn:E. exists r, w2.
  destruct r as [r|msg|]; [rewrite Release_spec in HE..|by simplify_eq];
    simplify_eq; split_and!; try done; by rewrite Hst.
Qed.

(** ** Witnesses *)

Lemma bulkhead_limits_concurrency_witness :
  ∃ b ths, reachable (MkConfig 2 0) 3 (b, ths) ∧ count_if is_running ths = 1%nat ∧
    Z.of_nat (count_if is_running ths) ≤ MaxConcurrent (config b).
Proof.
  assert (∃ s, reachable (MkConfig 2 0) 3 s ∧ s.2 = [Running; Sent; Idle]) as ([b ths] & Hr & Hs).
  { eexists. split.
    - eapply rtc_l; [by eapply (step_send _ _ _ 0)|].
      eapply rtc_l; [by eapply (step_acquired _ _ 0)|].
      eapply rtc_l; [by eapply (step_send _ _ _ 1)|]. apply rtc_refl.
    - reflexivity. }
  simpl in Hs. exists b, ths. split; [done|]. split; [by subst|].
  exact (proj1 (bulkhead_limits_concurrency (MkConfig 2 0) 3 b ths ltac:(done) Hr)).
Defined.

(** The operation of a call returns: two steps later the bulkhead is drained. *)
Lemma bulkhead_drains_witness :
  ∃ s s', reachable (MkConfig 1 0) 2 s ∧ s.2 = [Running; Idle] ∧ nsteps finishing 2 s s' ∧
    (drained s' ∨ ∃ s'', finishing s' s'').
Proof.
  assert (reachable (MkConfig 1 0) 2 (MkBH (MkConfig 1 0) 1 1 1 0, [Running; Idle])) as Hr.
  { eapply rtc_l; [by eapply (step_send _ _ _ 0)|].
    eapply rtc_l; [by eapply (step_acquired _ _ 0)|]. apply rtc_refl. }
  assert (nsteps finishing 2 (MkBH (MkConfig 1 0) 1 1 1 0, [Running; Idle])
    (MkBH (MkConfig 1 0) 0 0 1 0, [Idle; Idle])) as Hk.
  { eapply nsteps_l; [by eapply (finishing_insert _ _ [Running; Idle] 0), step_recv|].
    eapply nsteps_l; [by eapply (finishing_insert _ _ [Releasing; Idle] 0), step_released|].
    apply nsteps_O. }
  eexists _, _. split; [exact Hr|]. split; [done|]. split; [exact Hk|].
  exact (proj2 (bulkhead_drains (MkConfig 1 0) 2 _ 2 _ ltac:(done) Hr Hk)).
Defined.

Lemma metrics_when_settled_witness :
  ∃ b, reachable (MkConfig 2 0) 3 (b, [Running; Idle; Idle]) ∧ m_Available (Metrics b) = 1 ∧
    0 ≤ m_Available (Metrics b).
Proof.
  assert (reachable (MkConfig 2 0) 3 (MkBH (MkConfig 2 0) 1 1 1 0, [Running; Idle; Idle])) as Hr.
  { eapply rtc_l; [by eapply (step_send _ _ _ 0)|].
    eapply rtc_l; [by eapply (step_acquired _ _ 0)|]. apply rtc_refl. }
  eexists. split; [exact Hr|]. split; [reflexivity|].
  apply (metrics_when_settled (MkConfig 2 0) 3 _ [Running; Idle; Idle]);
    [by vm_compute | by vm_compute | exact Hr | by repeat constructor].
Defined.

Definition demo_world (n : Z) : World Bulkhead :=
  MkWorld 0 0 [] [] 0 [] (MkBH (MkConfig 2 0) n n n 0).

Lemma Execute_full_witness :
  Execute cell (go_panic "not run") (demo_world 2)
  = (Val (Some ErrBulkheadFull), store cell (MkBH (MkConfig 2 0) 2 2 2 1) (demo_world 2)).
Proof. by apply (Execute_full cell (go_panic "not run") (demo_world 2)). Defined.

Lemma Execute_releases_witness :
  Execute cell (go_panic "boom") (demo_world 1)
  = (Panic "boom", store cell (MkBH (MkConfig 2 0) 1 1 2 0) (demo_world 1)).
Proof. by apply (Execute_releases cell (go_panic "boom") (demo_world 1) (Panic "boom") _ _ eq_refl eq_refl). Defined.

End BH.
