(* ===== verification/Timeout.v ===== *)
(** * resilience/timeout.go: the timeout

    The operation runs in a goroutine under a context with a timeout, and the caller
    selects between its result and the context: [env_race].  A panic in that goroutine
    ends the process; the outcome [Panic] stands for that.  The second half shows, on the
    steps of [GoRace], that every interleaving of the two goroutines, the timer and the
    parent context has an outcome that [Execute] has, and what becomes of an operation
    whose caller has left. *)

From stdpp Require Import relations.
From S2P Require Import Prelude.
From S2P Require Import GoRuntime.
From S2P Require Import GoRace.
Local Open Scope Z_scope.

Module TO.

Record TimeoutConfig := MkConfig { limit : Duration }.
Record Timeout := MkTO { config : TimeoutConfig }.

Definition ErrTimeout : error := Sentinel "resilience: operation timed out".

Definition NewTimeout (cfg : TimeoutConfig) : Timeout :=
  MkTO (if limit cfg <=? 0 then MkConfig (30 * Second) else cfg).

Definition Config (t : Timeout) : TimeoutConfig := config t.

(** The cases of the [select]. *)
Definition select_answer (res : race_result (option error)) : option error :=
  match res with
  | OpDone err => err
  | CtxDone e => if bool_decide (e = context_DeadlineExceeded) then Some ErrTimeout else Some e
  end.

Section Execute.
Context {W : Type} `{GoEnv W}.

Definition Execute (t : Timeout) (op : Go W (option error)) : Go W (option error) :=
  res ← env_race (Some (limit (config t))) op;
  mret (select_answer res).

Definition ExecuteWithTimeout (timeout : Duration) (op : Go W (option error))
    : Go W (option error) :=
  Execute (NewTimeout (MkConfig timeout)) op.
End Execute.

Section Proofs.
Context {W : Type} `{GoEnvSpec W}.

Lemma timeout_split t op w :
  Execute t op w = op (env_start (Some (limit (config t))) w) ∨
  ∃ e w', Execute t op w = (Val (Some e), w') ∧ e ≠ context_DeadlineExceeded.
Proof.
  unfold Execute. destruct (env_race_cases _ (Some (limit (config t))) op w) as [Hr | (e & w' & Hr)].
  - left. unfold mbind, go_bind. rewrite Hr. unfold mbind, go_bind.
    by destruct (op _) as [[err|msg|] w1].
  - right. unfold mbind, go_bind. rewrite Hr. simpl. case_bool_decide; by eexists _, w'.
Qed.

(** [Execute] either has the outcome of the operation, run under the context with the
    timeout, or fails with [ErrTimeout] or the error of a context that was cancelled,
    which is never [context.DeadlineExceeded]. *)
Theorem Execute_cases t op w :
  Execute t op w = op (env_start (Some (limit (config t))) w) ∨
  ∃ e w', Execute t op w = (Val (Some e), w') ∧ e ≠ context_DeadlineExceeded.
Proof. apply timeout_split. Qed.

Lemma timeout_total t op : total op → total (Execute t op).
Proof.
  intros Hop w w' HE. destruct (timeout_split t op w) as [Hr | (e & w1 & Hr & _)].
  - rewrite Hr in HE. by destruct (Hop _ _ HE).
  - by rewrite Hr in HE.
Qed.

#[global] Instance Execute_layer t : Layer (Execute t) (λ S q, EnvFrame q).
Proof.
  split.
  - intros op1 op2 Hop. unfold Execute. apply go_bind_proper; [by intros r | by apply env_race_proper].
  - intros S I q op Hf Hop. unfold Execute. apply keeps_bind; [by apply frame_race|].
    intros r. apply keeps_ret.
Qed.
End Proofs.

(** ** The goroutines

    [context.WithTimeout] at the time [now], whose parent may be done with the errors
    [parent_err]. *)

Section Goroutines.
Context {S : Type} (t : Timeout) (parent_err : error → Prop).
Context (op : RC.act (World S) (option error)) (now : Time) (w : World S).

Definition deadline : Time := time_Add now (limit (config t)).
Definition race_step := RC.step (A:=option error) (W:=World S) deadline parent_err.
Definition race_init := RC.init op now w.

(** The world [w], before the runtime answers [x] to the race that follows. *)
Definition before (x : race_result (option error)) : World S :=
  MkWorld (w_clock w) (w_tick w) (w_ctx w) (w_wait w) (w_rand w)
    (match x with OpDone _ => None | CtxDone e => Some e end :: w_race w) (w_cell w).

Lemma Execute_before x :
  Execute t (RC.run op) (before x) =
  match x with
  | OpDone _ => (r ← RC.run op; mret r) w
  | CtxDone e => (Val (select_answer x), w)
  end.
Proof.
  unfold Execute, before. rewrite go_bind_run. destruct w. destruct x as [r|e]; [|done]. simpl.
  rewrite !go_bind_run. by destruct (RC.run op _) as [[v|msg|] w'].
Qed.

(** C11. In every interleaving of the caller, the operation's goroutine, the timer and the
    parent context, what the caller returns is an answer of [Execute]: the operation's own
    result, in the world the operation leaves, or the error of a context that is done
    because the timeout has passed or because its parent is done. *)
Theorem timeout_refines s x :
  rtc race_step race_init s → RC.caller s = Some x →
  (Execute t (RC.run op) (before x)).1 = Val (select_answer x) ∧
  match x with
  | OpDone r => Execute t (RC.run op) (before x) = (Val r, RC.world s)
  | CtxDone e =>
      (e = context_DeadlineExceeded ∧ select_answer x = Some ErrTimeout ∧
         time_Add now (limit (config t)) ≤ RC.clock s) ∨
      parent_err e
  end.
Proof.
  intros Hr Hx. destruct (RC.race_reachable_inv _ _ _ _ _ _ Hr) as [Hw _ Hl _].
  rewrite Execute_before. destruct x as [r|e]; simpl.
  - unfold RC.worker_inv, RC.delivered in Hw. rewrite Hx in Hw.
    destruct (RC.worker s); [by destruct Hw as (_ & _ & ?)| |by destruct Hw].
    destruct Hw as (r' & Hrun & <- & _). rewrite go_bind_run, Hrun. done.
  - split; [done|]. destruct (Hl e Hx) as [[-> Hd]|Hp]; [left | by right].
    split_and!; [done | by rewrite bool_decide_true | done].
Qed.

(** C12. The goroutines end in every interleaving.  When nothing can go on the caller has
    returned, and the operation has been carried to its end even if the caller left before
    (the channel has room for its result): only a panic of it, which ends the process,
    leaves the caller without an answer.  If the operation blocks for ever, then the
    caller has returned with the error of the context. *)
Theorem timeout_ends :
  sn race_step race_init ∧
  ∀ s, rtc race_step race_init s → nf race_step s →
  match RC.run op w with
  | (Val r, w') => RC.worker s = RC.Exited ∧ RC.world s = w' ∧ RC.caller s ≠ None
  | (Panic msg, w') => RC.worker s = RC.Crashed msg ∧ RC.world s = w'
  | (OutOfFuel, w') => RC.world s = w' ∧ ∃ err, RC.caller s = Some (CtxDone err)
  end.
Proof.
  split; [apply RC.sn_working|]. intros s Hr Hend.
  pose proof (RC.final_state _ _ _ _ _ (RC.race_reachable_inv _ _ _ _ _ _ Hr)
    (λ s' Hs, Hend (ex_intro _ s' Hs))) as Hf.
  destruct (RC.worker s) as [q| |msg].
  - by destruct Hf as (_ & -> & Hc).
  - by destruct Hf as [Hc [a ->]].
  - by rewrite Hf.
Qed.
End Goroutines.

(** ** Witnesses *)

Definition demo_world (race : list (option error)) : World unit := MkWorld 0 0 [] [] 0 race ().

(** An operation that writes twice to an object and succeeds. *)
Definition write (n : Z) (w : World Z) : unit * World Z := ((), store cell n w).
Definition slow : RC.act (World Z) (option error) :=
  RC.Do (write 1) (λ _, RC.Do (write 2) (λ _, RC.Done None)).
Definition slow_world (n : Z) : World Z := MkWorld 0 0 [] [] 0 [] n.
Definition one_second : Timeout := NewTimeout (MkConfig Second).

(** The timeout passes between the two writes. *)
Definition abandoned : RC.sys (World Z) (option error) :=
  RC.MkSys (Some (CtxDone context_DeadlineExceeded)) (RC.Working (RC.Do (write 2) (λ _, RC.Done None))) None
    (Some context_DeadlineExceeded) Second (slow_world 1).
Definition carried_on : RC.sys (World Z) (option error) :=
  RC.MkSys (Some (CtxDone context_DeadlineExceeded)) RC.Exited (Some None)
    (Some context_DeadlineExceeded) Second (slow_world 2).

Lemma abandoned_reachable parent_err :
  rtc (race_step one_second parent_err 0) (race_init slow 0 (slow_world 0)) abandoned.
Proof.
  eapply rtc_l; [by eapply (RC.step_act _ _ _ (write 1)) with (t' := 0)|].
  eapply rtc_l; [by apply (RC.step_timer) with (t' := Second)|].
  eapply rtc_l; [by apply RC.step_ctx|]. apply rtc_refl.
Qed.

Lemma carried_on_reachable parent_err :
  rtc (race_step one_second parent_err 0) (race_init slow 0 (slow_world 0)) carried_on.
Proof.
  etrans; [apply abandoned_reachable|].
  eapply rtc_l; [by eapply (RC.step_act _ _ _ (write 2)) with (t' := Second)|].
  eapply rtc_l; [by apply RC.step_send|]. apply rtc_refl.
Qed.

(** The caller has [ErrTimeout] while the operation still runs, and writes after that. *)
Lemma operation_outlives_call :
  ∃ s s', rtc (race_step one_second (λ _, False) 0) (race_init slow 0 (slow_world 0)) s ∧
    select_answer <$> RC.caller s = Some (Some ErrTimeout) ∧ w_cell (RC.world s) = 1 ∧
    rtc (race_step one_second (λ _, False) 0) s s' ∧ w_cell (RC.world s') = 2.
Proof.
  exists abandoned, carried_on. split; [apply abandoned_reachable|]. split; [done|]. split; [done|]. split; [|done].
  eapply rtc_l; [by eapply (RC.step_act _ _ _ (write 2)) with (t' := Second)|].
  eapply rtc_l; [by apply RC.step_send|]. apply rtc_refl.
Qed.

Lemma timeout_refines_witness :
  ∃ s : RC.sys (World Z) (option error),
    (Execute one_second (RC.run slow) (before (slow_world 0) (CtxDone context_DeadlineExceeded))).1
      = Val (Some ErrTimeout) ∧ Second ≤ RC.clock s.
Proof.
  exists abandoned.
  destruct (timeout_refines one_second (λ _, False) slow 0 (slow_world 0) abandoned
    (CtxDone context_DeadlineExceeded)) as [H1 [(_ & _ & H2)|[]]]; [apply abandoned_reachable | done |].
  split; [exact H1 | exact H2].
Defined.

Lemma timeout_ends_witness :
  nf (race_step one_second (λ _, False) 0) carried_on ∧ RC.worker carried_on = RC.Exited.
Proof.
  assert (nf (race_step one_second (λ _, False) 0) carried_on) as Hend by (intros [s' Hs]; inversion Hs).
  split; [exact Hend|].
  pose proof (proj2 (timeout_ends one_second (λ _, False) slow 0 (slow_world 0)) carried_on
    (carried_on_reachable _) Hend) as H. exact (proj1 H).
Defined.

Lemma Execute_cases_witness :
  ∃ e w', ExecuteWithTimeout Second (mret None) (demo_world [Some context_DeadlineExceeded])
    = (Val (Some e), w') ∧ e ≠ context_DeadlineExceeded.
Proof.
  destruct (Execute_cases (NewTimeout (MkConfig Second)) (mret None)
    (demo_world [Some context_DeadlineExceeded])) as [Hr | Hr]; [by vm_compute in Hr | exact Hr].
Defined.

End TO.
