(* ===== verification/Executor.v ===== *)
(** * resilience/executor.go: the composition of the patterns

    A pattern that is a pointer to shared state ([CircuitBreaker], [RateLimiter],
    [Bulkhead]) is a pointer into the world; [Retry] and [Timeout] are immutable. *)

From S2P Require Import Prelude.
From S2P Require Import GoRuntime.
From S2P Require Import GoFloat.
From S2P Require Import CircuitBreaker.
From S2P Require Import RateLimiter.
From S2P Require Import Retry.
From S2P Require Import Bulkhead.
From S2P Require Import Timeout.
Local Open Scope Z_scope.

Module EX.

(** ** Data and construction *)

Record Executor (W : Type) := MkEX {
  circuitBreaker : option (Ptr W CB.CircuitBreaker);
  retry : option (RT.Retry W);
  rateLimiter : option (Ptr W RL.RateLimiter);
  bulkhead : option (Ptr W BH.Bulkhead);
  timeout : option TO.Timeout;
}.
Arguments MkEX {W} _ _ _ _ _.
Arguments circuitBreaker {W} _.
Arguments retry {W} _.
Arguments rateLimiter {W} _.
Arguments bulkhead {W} _.
Arguments timeout {W} _.

Definition ExecutorOption (W : Type) : Type := Executor W → Executor W.

Section Options.
Context {W : Type}.

Definition NewExecutor (opts : list (ExecutorOption W)) : Executor W :=
  foldl (λ e opt, opt e) (MkEX None None None None None) opts.

Definition WithCircuitBreaker (cb : Ptr W CB.CircuitBreaker) : ExecutorOption W := λ e,
  MkEX (Some cb) (retry e) (rateLimiter e) (bulkhead e) (timeout e).
Definition WithRetry (r : RT.Retry W) : ExecutorOption W := λ e,
  MkEX (circuitBreaker e) (Some r) (rateLimiter e) (bulkhead e) (timeout e).
Definition WithRateLimiter (rl : Ptr W RL.RateLimiter) : ExecutorOption W := λ e,
  MkEX (circuitBreaker e) (retry e) (Some rl) (bulkhead e) (timeout e).
Definition WithBulkhead (b : Ptr W BH.Bulkhead) : ExecutorOption W := λ e,
  MkEX (circuitBreaker e) (retry e) (rateLimiter e) (Some b) (timeout e).
Definition WithTimeout (d : Duration) : ExecutorOption W := λ e,
  MkEX (circuitBreaker e) (retry e) (rateLimiter e) (bulkhead e)
    (Some (TO.NewTimeout (TO.MkConfig d))).
Definition WithTimeoutConfig (t : TO.Timeout) : ExecutorOption W := λ e,
  MkEX (circuitBreaker e) (retry e) (rateLimiter e) (bulkhead e) (Some t).
End Options.

(** ** Execution *)

Section Execute.
Context {W : Type} `{GoEnv W} (a : arch).

Definition Execute (e : Executor W) (op : Go W (option error)) : Go W (option error) :=
  let execute := op in
  let execute := match timeout e with Some t => TO.Execute t execute | None => execute end in
  let execute := match retry e with Some r => RT.Execute a r execute | None => execute end in
  let execute := match circuitBreaker e with
                 | Some cb => CB.Execute cb execute | None => execute end in
  let execute := match bulkhead e with Some b => BH.Execute b execute | None => execute end in
  match rateLimiter e with Some rl => RL.Execute a rl execute | None => execute end.
End Execute.

(** ** Options commute *)

(** The kind of pattern an option sets. *)
Inductive kind := KBreaker | KRetry | KLimiter | KBulkhead | KTimeout.

#[export] Instance kind_eq_dec : EqDecision kind.
Proof. solve_decision. Defined.

Inductive option_of {W} : kind → ExecutorOption W → Prop :=
| of_breaker cb : option_of KBreaker (WithCircuitBreaker cb)
| of_retry r : option_of KRetry (WithRetry r)
| of_limiter rl : option_of KLimiter (WithRateLimiter rl)
| of_bulkhead b : option_of KBulkhead (WithBulkhead b)
| of_timeout d : option_of KTimeout (WithTimeout d)
| of_timeout_config t : option_of KTimeout (WithTimeoutConfig t).

Lemma options_commute {W} k1 k2 (o1 o2 : ExecutorOption W) e :
  option_of k1 o1 → option_of k2 o2 → k1 ≠ k2 → o1 (o2 e) = o2 (o1 e).
Proof. intros [] [] Hk; done. Qed.

Lemma options_absorb {W} k (o1 o2 : ExecutorOption W) e :
  option_of k o1 → option_of k o2 → o1 (o2 e) = o1 e.
Proof. intros H1 H2. destruct H1; inversion H2; done. Qed.

(** The order of the options does not matter as long as each pattern is set once, and
    of two options for the same pattern the later one wins. *)
Theorem options_order_irrelevant {W} (opts opts' : list (kind * ExecutorOption W)) :
  Forall (λ x, option_of x.1 x.2) opts → NoDup opts.*1 → opts ≡ₚ opts' →
  NewExecutor opts.*2 = NewExecutor opts'.*2.
Proof.
  intros Hk Hnd Hp. unfold NewExecutor. generalize (@MkEX W None None None None None).
  induction Hp as [|[k o] l l' Hp IH|[k1 o1] [k2 o2] l|l1 l2 l3 H12 IH1 H23 IH2]; intros e; simpl.
  - done.
  - inversion Hk. inversion Hnd. by apply IH.
  - inversion Hk as [|? ? H1 Hk']; inversion Hk' as [|? ? H2 _]. f_equal. simpl in *.
    apply (options_commute k1 k2); [done..|]. intros ->. apply NoDup_cons in Hnd as [Hn _].
    apply Hn. constructor.
  - rewrite IH1 by done. apply IH2.
    + by rewrite <- H12.
    + by rewrite <- H12.
Qed.

(** ** The layers *)

(** A pattern that may be absent. *)
Definition optional {W P} (L : P → Go W (option error) → Go W (option error)) (x : option P)
    (op : Go W (option error)) : Go W (option error) :=
  match x with Some p => L p op | None => op end.

Definition optional_foreign {W P} (foreign : P → ∀ S, Ptr W S → Prop) (x : option P)
    (S : Type) (q : Ptr W S) : Prop :=
  match x with Some p => foreign p S q | None => True end.

#[export] Instance optional_layer {W P} L foreign (x : option P) :
  (∀ p, Layer (W:=W) (L p) (foreign p)) → Layer (optional L x) (optional_foreign foreign x).
Proof.
  intros HL. destruct x as [p|]; simpl.
  - exact (HL p).
  - split; [by intros ? ? ? | done].
Qed.

#[export] Instance optional_once {W P} L foreign (x : option P) :
  (∀ p, OnceLayer (W:=W) (L p) (foreign p)) → OnceLayer (optional L x) (optional_foreign foreign x).
Proof.
  intros HL S q op w o w' Hf HE Ho. destruct x as [p|]; simpl in *; [by eapply HL|].
  right. by exists w, o, w'.
Qed.

Section Layers.
Context {W : Type} `{GoEnvSpec W} (a : arch) (e : Executor W).

(** The part of the chain inside the circuit breaker, inside the bulkhead, and the part
    outside of each. *)
Definition attempts_layer (op : Go W (option error)) : Go W (option error) :=
  optional (RT.Execute a) (retry e) (optional TO.Execute (timeout e) op).
Definition breaker_layer (op : Go W (option error)) : Go W (option error) :=
  optional CB.Execute (circuitBreaker e) (attempts_layer op).
Definition outer_layer (op : Go W (option error)) : Go W (option error) :=
  optional (RL.Execute a) (rateLimiter e) (optional BH.Execute (bulkhead e) op).

Lemma Execute_layers op : Execute a e op = outer_layer (breaker_layer op).
Proof. done. Qed.

(** [q] is none of the objects the executor's patterns use. *)
Definition no_limiter {S} (q : Ptr W S) : Prop :=
  optional_foreign apart (rateLimiter e) S q.
Definition no_bulkhead {S} (q : Ptr W S) : Prop :=
  optional_foreign BH.foreign (bulkhead e) S q.
Definition no_breaker {S} (q : Ptr W S) : Prop :=
  optional_foreign apart (circuitBreaker e) S q.
Definition no_attempts {S} (q : Ptr W S) : Prop :=
  optional_foreign RT.foreign (retry e) S q ∧
  optional_foreign (λ _ S q, EnvFrame q) (timeout e) S q.

Lemma attempts_keeps {S} (I : S → Prop) (q : Ptr W S) op :
  no_attempts q → keeps I q op → keeps I q (attempts_layer op).
Proof.
  intros [H1 H2] Hop. unfold attempts_layer.
  apply (layer_keeps (foreign:=optional_foreign RT.foreign (retry e))); [exact H1|].
  by apply (layer_keeps (foreign:=optional_foreign (λ _ S q, EnvFrame q) (timeout e))).
Qed.

Lemma breaker_keeps {S} (I : S → Prop) (q : Ptr W S) op :
  no_breaker q → no_attempts q → keeps I q op → keeps I q (breaker_layer op).
Proof.
  intros H1 H2 Hop. unfold breaker_layer.
  apply (layer_keeps (foreign:=optional_foreign apart (circuitBreaker e))); [exact H1|].
  by apply attempts_keeps.
Qed.
End Layers.

#[export] Instance Execute_proper {W} `{GoEnvSpec W} a (e : Executor W) :
  Proper ((≡) ==> (≡)) (Execute a e).
Proof.
  intros op1 op2 Hop. rewrite !Execute_layers.
  unfold outer_layer, breaker_layer, attempts_layer.
  eapply (layer_proper (L:=optional (RL.Execute a) (rateLimiter e))).
  eapply (layer_proper (L:=optional BH.Execute (bulkhead e))).
  eapply (layer_proper (L:=optional CB.Execute (circuitBreaker e))).
  eapply (layer_proper (L:=optional (RT.Execute a) (retry e))).
  by eapply (layer_proper (L:=optional TO.Execute (timeout e))).
Qed.

(** The pattern with a loop is as the constructor makes it, and its callback ends. *)
Definition attempts_end {W} (e : Executor W) : Prop :=
  ∀ r, retry e = Some r → RT.inv r ∧ RT.callback_total r.

Lemma optional_total {W P} (L : P → Go W (option error) → Go W (option error)) (x : option P) op :
  (∀ p op, x = Some p → total op → total (L p op)) → total op → total (optional L x op).
Proof. intros HL Hop. destruct x as [p|]; simpl; [by apply HL | done]. Qed.

Lemma executor_total {W} `{GoEnvSpec W} a (e : Executor W) op :
  attempts_end e → total op → total (Execute a e op).
Proof.
  intros Hr Hop. rewrite Execute_layers. unfold outer_layer, breaker_layer, attempts_layer.
  apply optional_total; [intros; by apply RL.limiter_total|].
  apply optional_total; [intros; by apply BH.bulkhead_total|].
  apply optional_total; [intros; by apply CB.breaker_total|].
  apply optional_total; [intros r op' E; destruct (Hr _ E); by apply RT.retry_total|].
  apply optional_total; [intros; by apply TO.timeout_total | done].
Qed.

(** ** The executor's contract *)

Section Contract.
Context {W : Type} `{GoEnvSpec W} (a : arch) (e : Executor W).

(** The bulkhead a call finds: as it is when the call starts, since what comes before leaves it
    alone, or as others have left it at the end of the wait for a slot. *)
Definition offered (p : Ptr W BH.Bulkhead) (w : W) (b : BH.Bulkhead) : Prop :=
  ∃ w1, load p w1 = load p w ∧ BH.found p w1 b.

(** C9. A slot of the bulkhead is given back by every call, whatever the other patterns do and
    however the call ends: success, error, panic, rejection at once or after a wait for a slot, a
    context that is over during the wait.  The tokens and the count of active operations are
    those of the bulkhead that the call found: as it was at the start, or, when it had to wait,
    as other goroutines left it at the end of the wait.  The operation itself does not touch the
    bulkhead, and the counter is not at the end of its 64 bits.  The call ends whenever the
    operation does. *)
Theorem Execute_returns_slot p op w o w' :
  bulkhead e = Some p → no_limiter e p → no_breaker e p → no_attempts e p →
  (∀ I, keeps I p op) → (∀ b, offered p w b → BH.countable b) → Execute a e op w = (o, w') →
  (o ≠ OutOfFuel → ∃ b, offered p w b ∧ BH.same_slots b (load p w')) ∧
  (attempts_end e → total op → o ≠ OutOfFuel).
Proof.
  intros Hb Hl Hcb Hat Hop Hc HE. split; [intros Ho|].
  2: { intros He Ht ->. by destruct (executor_total a e op He Ht w w'). }
  rewrite Execute_layers in HE. unfold outer_layer in HE. rewrite Hb in HE. simpl in HE.
  destruct (layer_once (foreign:=optional_foreign apart (rateLimiter e)) _ p _ w o w' Hl HE Ho)
    as [Hw|(w1 & o1 & w2 & Hw1 & HE1 & Ho1 & ->)].
  - exists (load p w). split; [by exists w; split; [|left]|]. by rewrite Hw.
  - destruct (BH.Execute_slots p (breaker_layer a e op) w1 o1 w2) as (b & Hf & Hs); [| |done..|].
    + intros I. by apply breaker_keeps.
    + intros b Hf. apply Hc. by exists w1.
    + exists b. split; [by exists w1 | done].
Qed.

(** What one request does to a breaker: nothing (it did not arrive), [beforeRequest] alone
    (it was rejected, or the operation panicked), or [beforeRequest] and [afterRequest]. *)
Definition one_request (cb cb' : CB.CircuitBreaker) : Prop :=
  cb' = cb ∨ (∃ now, cb' = (CB.beforeRequest now cb).2) ∨
  (∃ now now' err, (CB.beforeRequest now cb).1 = None ∧
     cb' = CB.afterRequest now' err (CB.beforeRequest now cb).2).

Lemma breaker_one_request p op w o w' :
  EnvFrame p → (∀ I, keeps I p op) → CB.Execute p op w = (o, w') → o ≠ OutOfFuel →
  one_request (load p w) (load p w').
Proof.
  intros Hf Hop. rewrite CB.Execute_unfold. intros HE Ho.
  pose proof (frame_now w) as Hl. destruct (env_now w) as [now w1]. simpl in Hl.
  rewrite <- Hl. destruct (CB.beforeRequest now (load p w1)) as [[err|] cb] eqn:Eb.
  { simplify_eq. right. left. exists now. by rewrite load_store, Eb. }
  destruct (op (store p cb w1)) as [r w2] eqn:Eop.
  assert (r ≠ OutOfFuel → load p w2 = cb) as Hcb.
  { intros Hr. apply (Hop (λ s, s = cb) _ _ _ Eop Hr). by rewrite load_store. }
  destruct r as [err|msg|]; [|simplify_eq..].
  - pose proof (frame_now w2) as Hl2. destruct (env_now w2) as [now' w3]. simpl in Hl2.
    simplify_eq. right. right. exists now, now', err.
    by rewrite Eb, load_store, Hl2, Hcb by done.
  - right. left. exists now. by rewrite Eb, Hcb by done.
Qed.

(** C30. However many attempts the retries inside it make, the circuit breaker sees one
    request per call of the executor, and none when an outer pattern rejects the call. The
    call ends whenever the operation does. *)
Theorem Execute_is_one_request p op w o w' :
  circuitBreaker e = Some p → EnvFrame p → no_limiter e p → no_bulkhead e p → no_attempts e p →
  (∀ I, keeps I p op) → Execute a e op w = (o, w') →
  (o ≠ OutOfFuel → one_request (load p w) (load p w')) ∧
  (attempts_end e → total op → o ≠ OutOfFuel).
Proof.
  intros Hcb Hf Hl Hb Hat Hop HE. split; [intros Ho|].
  2: { intros He Ht ->. by destruct (executor_total a e op He Ht w w'). }
  rewrite Execute_layers in HE. unfold outer_layer in HE.
  destruct (layer_once (foreign:=optional_foreign apart (rateLimiter e)) _ p _ w o w' Hl HE Ho)
    as [-> | (w1 & o1 & w2 & Hw1 & HE1 & Ho1 & ->)]; [by left|].
  destruct (layer_once (foreign:=optional_foreign BH.foreign (bulkhead e)) _ p _ w1 o1 w2 Hb HE1 Ho1)
    as [-> | (w3 & o3 & w4 & Hw3 & HE3 & Ho3 & ->)]; [left; congruence|].
  rewrite <- Hw1, <- Hw3. unfold breaker_layer in HE3. rewrite Hcb in HE3. simpl in HE3.
  eapply breaker_one_request; [done | | done..].
  intros I. by apply attempts_keeps.
Qed.

(** A call the rate limiter rejects reaches no other pattern: its result does not depend
    on the operation, and every object but the limiter is as before. *)
Theorem Execute_limited p op w err w' :
  rateLimiter e = Some p → EnvFrame p →
  RL.Execute a p (go_panic "reached") w = (Val (Some err), w') →
  Execute a e op w = (Val (Some err), w') ∧
  ∀ S (q : Ptr W S), ptr_disjoint p q → EnvFrame q → load q w' = load q w.
Proof.
  intros Hp Hf HE. destruct (RL.Execute_split a p w) as [(err' & w1 & H1)|(? & ? & w1 & _ & _ & H1)].
  - rewrite H1 in HE. simplify_eq. split.
    + rewrite Execute_layers. unfold outer_layer. rewrite Hp. simpl. apply H1.
    + intros S q Hd Hq. by apply (layer_untouched (L:=RL.Execute a p) (foreign:=apart p)
        q None w _ _ (conj Hd Hq) (H1 _)).
  - rewrite H1 in HE. done.
Qed.
End Contract.

(** ** Witnesses *)

(** A world with a limiter, a bulkhead, a breaker and the script of an operation. *)
Abbreviation state := (list (option error) * (RL.RateLimiter * (BH.Bulkhead * CB.CircuitBreaker)))%type
  (only parsing).

Definition p_limiter : Ptr (World state) RL.RateLimiter := ptr_fst (ptr_snd cell).
Definition p_bulkhead : Ptr (World state) BH.Bulkhead := ptr_fst (ptr_snd (ptr_snd cell)).
Definition p_breaker : Ptr (World state) CB.CircuitBreaker := ptr_snd (ptr_snd (ptr_snd cell)).

Definition demo : Executor (World state) :=
  NewExecutor [WithTimeout Second;
    WithRetry (RT.NewRetry (RT.MkConfig 3 1 Second f_one RT.BackoffConstant false None None));
    WithCircuitBreaker p_breaker; WithBulkhead p_bulkhead; WithRateLimiter p_limiter].

Definition bulk_config : BH.BulkheadConfig := BH.MkConfig 2 0.

Definition demo_world (burst : Z) (script : list (option error)) : World state :=
  MkWorld 1000 0 [] [] 0 []
    (script,
     (RL.NewRateLimiter (RL.MkConfig f_one burst false 0) 1000,
      (BH.NewBulkhead bulk_config,
       CB.NewCircuitBreaker (CB.MkConfig 1 0 0 false None)))).

(** The scripted operation touches nothing but its script. *)
Lemma scripted_keeps {S} (I : S → Prop) : keeps I (ptr_snd cell) (@RT.scripted S).
Proof. intros w o w' HE _. unfold RT.scripted in HE. destruct (pop _). by simplify_eq. Qed.

(** The pointers into the cell are frames and disjoint. *)
Lemma p_frames : EnvFrame p_limiter ∧ EnvFrame p_bulkhead ∧ EnvFrame p_breaker.
Proof. unfold p_limiter, p_bulkhead, p_breaker. split_and!; apply _. Qed.

Lemma p_disjoint :
  ptr_disjoint p_limiter p_bulkhead ∧ ptr_disjoint p_limiter p_breaker ∧
  ptr_disjoint p_bulkhead p_breaker ∧ ptr_disjoint p_breaker p_bulkhead.
Proof. split_and!; split; done. Qed.

Lemma scripted_keeps_bulkhead I : keeps I p_bulkhead RT.scripted.
Proof. exact (scripted_keeps (λ s, I s.2.1)). Qed.

Lemma scripted_keeps_breaker I : keeps I p_breaker RT.scripted.
Proof. exact (scripted_keeps (λ s, I s.2.2)). Qed.

Definition oops : error := Foreign 7.

Lemma options_order_irrelevant_witness :
  NewExecutor [WithBulkhead p_bulkhead; WithTimeout Second; WithRateLimiter p_limiter]
  = NewExecutor [WithRateLimiter p_limiter; WithBulkhead p_bulkhead; WithTimeout Second].
Proof.
  apply (options_order_irrelevant
    [(KBulkhead, WithBulkhead p_bulkhead); (KTimeout, WithTimeout Second);
     (KLimiter, WithRateLimiter p_limiter)]
    [(KLimiter, WithRateLimiter p_limiter); (KBulkhead, WithBulkhead p_bulkhead);
     (KTimeout, WithTimeout Second)]).
  - repeat constructor.
  - apply (bool_decide_unpack (NoDup [KBulkhead; KTimeout; KLimiter])). by vm_compute.
  - symmetry. exact (Permutation_middle [_; _] [] _).
Defined.

Lemma p_selects : SelectFrame p_limiter ∧ SelectFrame p_breaker.
Proof. unfold p_limiter, p_breaker. split; apply _. Qed.

Lemma demo_no_limiter : no_limiter demo p_bulkhead ∧ no_limiter demo p_breaker.
Proof. destruct p_frames as (? & ? & ?). destruct p_disjoint as (? & ? & ? & ?). split; (split; assumption). Qed.

Lemma demo_no_attempts : no_attempts demo p_bulkhead ∧ no_attempts demo p_breaker.
Proof.
  destruct p_frames as (? & ? & ?). unfold no_attempts. simpl.
  unfold RT.foreign. simpl. split_and!; try assumption; discriminate.
Qed.

Definition failing_run : outcome (option error) * World state :=
  Execute AMD64 demo RT.scripted (demo_world 1 [Some oops; Some oops; Some oops]).

Lemma failing_run_eq :
  Execute AMD64 demo RT.scripted (demo_world 1 [Some oops; Some oops; Some oops])
  = (failing_run.1, failing_run.2).
Proof. unfold failing_run. apply surjective_pairing. Qed.

Lemma demo_ends : attempts_end demo.
Proof.
  intros r [= <-]. split; [|by intros f [=]]. apply RT.new_retry_inv.
  by vm_compute.
Qed.

(** A runtime in which another goroutine gives its slot back while a call waits. *)
Definition handing_over : GoEnv (World state) := {|
  env_now := @env_now _ (World_env state);
  env_ctx := @env_ctx _ (World_env state);
  env_wait := @env_wait _ (World_env state);
  env_select d w := (SendReady, store p_bulkhead (BH.release (load p_bulkhead w)) w);
  env_rand := @env_rand _ (World_env state);
  env_start := @env_start _ (World_env state);
  env_race A := @env_race _ (World_env state) A;
|}.

Lemma handing_over_spec : @GoEnvSpec (World state) handing_over.
Proof. destruct (World_env_spec state). by split. Qed.

Lemma handing_over_frame {S} (q : Ptr (World state) S) :
  EnvFrame q → @EnvFrame _ _ handing_over q.
Proof. intros []. by split. Qed.

(** A bulkhead for one call at a time, taken, and calls that wait. *)
Definition p_waiting : Executor (World state) := NewExecutor [WithCircuitBreaker p_breaker; WithBulkhead p_bulkhead].
Definition taken : BH.Bulkhead := BH.MkBH (BH.MkConfig 1 Second) 1 1 1 0.
Definition waiting_world : World state := store p_bulkhead taken (demo_world 1 [Some oops]).
Definition waiting_run : outcome (option error) * World state :=
  @Execute _ handing_over AMD64 p_waiting RT.scripted waiting_world.

(** A call that fails after three attempts, and one that waits for the slot of another. *)
Lemma Execute_returns_slot_witness :
  (∃ b, offered p_bulkhead (demo_world 1 []) b ∧ BH.same_slots b (load p_bulkhead failing_run.2)) ∧
  (∃ b, @offered _ handing_over p_bulkhead waiting_world b ∧ BH.same_slots b (load p_bulkhead waiting_run.2)) ∧
  waiting_run.1 = Val (Some oops) ∧ BH.sem (load p_bulkhead waiting_run.2) = 0.
Proof.
  destruct p_frames as (? & ? & ?). destruct p_disjoint as (? & ? & ? & ?). split; [|split; [|by split]].
  - edestruct (Execute_returns_slot AMD64 demo p_bulkhead RT.scripted
      (demo_world 1 [Some oops; Some oops; Some oops]) failing_run.1 failing_run.2
      eq_refl (proj1 demo_no_limiter)) as [Hr He];
      [by split | apply demo_no_attempts | exact scripted_keeps_bulkhead | | exact failing_run_eq |].
    + intros b (w1 & Hw & [->|(Hs & _)]); rewrite Hw in *; [by vm_compute | by vm_compute in Hs].
    + exact (Hr (He demo_ends RT.scripted_total)).
  - edestruct (@Execute_returns_slot _ handing_over handing_over_spec AMD64 p_waiting p_bulkhead RT.scripted
      waiting_world waiting_run.1 waiting_run.2 eq_refl) as [Hr _];
      [done | by split; [|apply handing_over_frame] | by split | exact scripted_keeps_bulkhead | | |].
    + intros b (w1 & Hw & [->|(_ & _ & ->)]); [rewrite Hw; by vm_compute|].
      assert (∀ d, load p_bulkhead (@env_select _ handing_over d w1).2 = BH.release (load p_bulkhead w1)) as ->
        by (intros d; apply load_store).
      rewrite Hw. by vm_compute.
    + unfold waiting_run. apply surjective_pairing.
    + apply Hr. by vm_compute.
Defined.

Lemma Execute_is_one_request_witness :
  one_request (load p_breaker (demo_world 1 [])) (load p_breaker failing_run.2).
Proof.
  destruct p_frames as (? & ? & ?). destruct p_disjoint as (? & ? & ? & ?).
  edestruct (Execute_is_one_request AMD64 demo p_breaker RT.scripted
    (demo_world 1 [Some oops; Some oops; Some oops]) failing_run.1 failing_run.2
    eq_refl) as [Hr He]; [assumption | apply demo_no_limiter | split; [by split | apply p_selects]
    | apply demo_no_attempts | apply scripted_keeps_breaker | exact failing_run_eq |].
  exact (Hr (He demo_ends RT.scripted_total)).
Defined.

(** A limiter whose bucket is empty after one call. *)
Definition spent : World state :=
  (Execute AMD64 demo RT.scripted (demo_world 1 [None])).2.

Lemma Execute_limited_witness :
  Execute AMD64 demo (go_panic "reached") spent = (Val (Some RL.ErrRateLimitExceeded),
    (RL.Execute AMD64 p_limiter (go_panic "reached") spent).2) ∧
  load p_breaker (RL.Execute AMD64 p_limiter (go_panic "reached") spent).2 = load p_breaker spent.
Proof.
  destruct p_frames as (? & ? & ?). destruct p_disjoint as (? & ? & ? & ?).
  assert (RL.Execute AMD64 p_limiter (go_panic "reached") spent =
    (Val (Some RL.ErrRateLimitExceeded), (RL.Execute AMD64 p_limiter (go_panic "reached") spent).2))
    as HE by (vm_compute; reflexivity).
  destruct (Execute_limited AMD64 demo p_limiter (go_panic "reached") spent _ _ eq_refl ltac:(done) HE)
    as [HE1 HE2].
  split; [exact HE1 | by apply HE2].
Defined.

End EX.
