(* ===== verification/ExecutorConcurrent.v ===== *)
(** * resilience/executor.go: overlapping calls of [Execute]

    The patterns as programs of [GoConc], with the critical sections of the component files as
    their atomic actions, composed as [Executor.Execute] composes them; what the actions of each
    pattern leave alone, and how a call follows the protocol of the bulkhead.  [ExecutorPool] has
    the theorems on the goroutines that call one executor. *)

From stdpp Require Import relations.
From S2P Require Import Prelude.
From S2P Require Import GoRuntime.
From S2P Require Import GoConc.
From S2P Require Import GoFloat.
From S2P Require Import CircuitBreaker.
From S2P Require Import RateLimiter.
From S2P Require Import Retry.
From S2P Require Import Bulkhead.
From S2P Require Import Timeout.
From S2P Require Import Executor.
Local Open Scope Z_scope.
Local Open Scope stdpp_scope.

Module EC.
Import GC.

(** The channels of the timeouts, each with room for one result. *)
Abbreviation channels := (list (option (option error))) (only parsing).

(** ** Programs *)

Section Programs.
Context {W : Type} `{GoEnv W} (a : arch).
(** The callback before a retry; what the context of a timeout that ends at a time can be done
    with; the channels. *)
Context (on_retry : Z → error → Duration → prog W unit)
  (ctx_err : Time → W → error → Prop) (ch : Ptr W channels).

Abbreviation op := (prog W (option error)) (only parsing).

Definition rl_WaitN (p : Ptr W RL.RateLimiter) (n : Z) : op :=
  done ← atomic ctx_Done;
  match done with
  | Some err => mret (Some err)
  | None =>
      ok ← atomic (RL.go_AllowN p n);
      if (ok : bool) then mret None
      else
        d ← atomic (go_get (λ w, RL.waitTime a n (load p w)));
        done ← atomic (select_After d);
        match done with
        | Some err => mret (Some err)
        | None =>
            ok ← atomic (RL.go_AllowN p n);
            mret (if (ok : bool) then None else Some RL.ErrRateLimitExceeded)
        end
  end.

Definition rl_Execute (p : Ptr W RL.RateLimiter) (body : op) : op :=
  limited ←
    (cfg ← atomic (go_get (λ w, RL.config (load p w)));
     if RL.WaitOnLimit cfg then rl_WaitN p 1
     else
       ok ← atomic (RL.go_AllowN p 1);
       mret (if (ok : bool) then None else Some RL.ErrRateLimitExceeded));
  match limited with
  | Some err => mret (Some err)
  | None => body
  end.

Definition bh_Acquire (p : Ptr W BH.Bulkhead) : op :=
  sent ← atomic (BH.attempt p BH.trySend);
  if (sent : bool) then (_ ← atomic (BH.update p BH.acquired); mret None)
  else
    cfg ← atomic (go_get (λ w, BH.config (load p w)));
    if BH.MaxWait cfg <=? 0 then (_ ← atomic (BH.update p BH.reject); mret (Some BH.ErrBulkheadFull))
    else
      res ← atomic (BH.select_slot p (BH.MaxWait cfg));
      match res with
      | SendReady => _ ← atomic (BH.update p BH.acquired); mret None
      | TimerFired => _ ← atomic (BH.update p BH.reject); mret (Some BH.ErrBulkheadFull)
      | SelectDone err => mret (Some err)
      end.

Definition bh_Release (p : Ptr W BH.Bulkhead) : prog W unit :=
  received ← atomic (BH.attempt p BH.tryRecv);
  if (received : bool) then atomic (BH.update p BH.released) else mret ().

Definition bh_Execute (p : Ptr W BH.Bulkhead) (body : op) : op :=
  err ← bh_Acquire p;
  match err with
  | Some err => mret (Some err)
  | None => defer (bh_Release p) body
  end.

(** [beforeRequest] and [afterRequest], which read the clock under the mutex. *)
Definition cb_before (p : Ptr W CB.CircuitBreaker) : Go W (option error) :=
  now ← time_Now; locked p (CB.beforeRequest now).
Definition cb_after (p : Ptr W CB.CircuitBreaker) (err : option error) : Go W unit :=
  now ← time_Now; locked p (λ cb, ((), CB.afterRequest now err cb)).

Definition cb_Execute (p : Ptr W CB.CircuitBreaker) (body : op) : op :=
  rejected ← atomic (cb_before p);
  match rejected with
  | Some err => mret (Some err)
  | None => err ← body; _ ← atomic (cb_after p err); mret err
  end.

Fixpoint rt_loop (r : RT.Retry W) (fuel : nat) (body : op) (attempt : Z) (lastErr : option error) : op :=
  match fuel with
  | O => mret lastErr
  | S fuel =>
      if attempt <=? RT.MaxAttempts (RT.config r) then
        err ← body;
        match err with
        | None => mret None
        | Some e =>
            if negb (RT.retryIf r (Some e)) then mret (Some e)
            else if RT.MaxAttempts (RT.config r) <=? attempt then mret (Some e)
            else
              delay ← atomic (RT.calculateDelay a r attempt);
              _ ← match RT.OnRetry (RT.config r) with
                  | Some _ => on_retry attempt e delay
                  | None => mret ()
                  end;
              done ← atomic (select_After delay);
              match done with
              | Some ctxErr => mret (Some ctxErr)
              | None => rt_loop r fuel body (wrap64 (attempt + 1)) (Some e)
              end
        end
      else mret lastErr
  end.

Definition rt_Execute (r : RT.Retry W) (body : op) : op :=
  rt_loop r (Z.to_nat (RT.MaxAttempts (RT.config r))) body 1 None.

(** [make(chan error, 1)], the send, and the [select] of the caller. *)
Definition make_chan : Go W nat :=
  go_lift (λ w, (length (load ch w), store ch (load ch w ++ [None]) w)).
Definition chan_send (c : nat) (err : option error) : Go W unit :=
  go_modify (λ w, store ch (<[c := Some err]> (load ch w)) w).
Definition to_select (c : nat) (deadline : Time) (w : W) (res : race_result (option error)) (w' : W) : Prop :=
  match res with
  | OpDone err => load ch w !! c = Some (Some err) ∧ w' = store ch (<[c := None]> (load ch w)) w
  | CtxDone e => ctx_err deadline w e ∧ w' = w
  end.

Definition to_Execute (t : TO.Timeout) (body : op) : op :=
  now ← atomic time_Now;
  let deadline := time_Add now (TO.limit (TO.config t)) in
  c ← atomic make_chan;
  _ ← go (err ← body; atomic (chan_send c err));
  res ← Act (to_select c deadline) mret;
  mret (TO.select_answer res).

Definition Execute (e : EX.Executor W) (body : op) : op :=
  let execute := body in
  let execute := match EX.timeout e with Some t => to_Execute t execute | None => execute end in
  let execute := match EX.retry e with Some r => rt_Execute r execute | None => execute end in
  let execute := match EX.circuitBreaker e with Some cb => cb_Execute cb execute | None => execute end in
  let execute := match EX.bulkhead e with Some b => bh_Execute b execute | None => execute end in
  match EX.rateLimiter e with Some rl => rl_Execute rl execute | None => execute end.

(** A goroutine that calls the executor for one operation after the other. *)
Fixpoint caller (e : EX.Executor W) (ops : list op) : prog W unit :=
  match ops with
  | [] => mret ()
  | body :: ops => _ ← Execute e body; caller e ops
  end.
End Programs.

(** ** What an action leaves alone

    [obs] is what is looked at: the object behind a pointer, or two of them. *)

Section Observers.
Context {W : Type} `{GoEnv W} {O : Type} (obs : W → O).

(** The action, the computation, the accesses to an object and the runtime leave [obs] as it is. *)
Definition stays (B : Type) (R : W → B → W → Prop) : Prop := ∀ w b w', R w b w' → obs w' = obs w.
Definition blind {B} (m : Go W B) : Prop := ∀ w, obs (m w).2 = obs w.
Definition unseen {S} (p : Ptr W S) : Prop := ∀ s w, obs (store p s w) = obs w.

Record runtime_unseen : Prop := {
  unseen_now w : obs (env_now w).2 = obs w;
  unseen_ctx w : obs (env_ctx w).2 = obs w;
  unseen_wait d w : obs (env_wait d w).2 = obs w;
  unseen_select d w : obs (env_select d w).2 = obs w;
  unseen_rand n w : obs (env_rand n w).2 = obs w;
}.

Lemma blind_bind {A B} (m : Go W A) (k : A → Go W B) :
  blind m → (∀ x, blind (k x)) → blind (m ≫= k).
Proof.
  intros Hm Hk w. rewrite go_bind_run. specialize (Hm w).
  destruct (m w) as [[x|msg|] w1]; simpl in *; [by rewrite Hk | done..].
Qed.

Lemma blind_ret {A} (x : A) : blind (mret x).
Proof. intros w. done. Qed.

Lemma blind_lift {A} (f : W → A * W) : (∀ w, obs (f w).2 = obs w) → blind (go_lift f).
Proof. intros Hf w. unfold go_lift. specialize (Hf w). by destruct (f w). Qed.

Lemma blind_locked {A S} (p : Ptr W S) (f : S → A * S) : unseen p → blind (locked p f).
Proof. intros Hp. apply blind_lift. intros w. destruct (f (load p w)). apply Hp. Qed.

Lemma blind_get {A} (f : W → A) : blind (go_get f).
Proof. intros w. done. Qed.

Context (Henv : runtime_unseen).

Lemma blind_now : blind time_Now.
Proof. apply blind_lift, Henv. Qed.

Lemma blind_ctx : blind ctx_Done.
Proof. apply blind_lift, Henv. Qed.

Lemma blind_after d : blind (select_After d).
Proof. apply blind_lift, Henv. Qed.

Lemma blind_AllowN p n : unseen p → blind (RL.go_AllowN p n).
Proof. intros Hp. apply blind_bind; [apply blind_now | intros now; by apply blind_locked]. Qed.

Lemma blind_before p : unseen p → blind (cb_before p).
Proof. intros Hp. apply blind_bind; [apply blind_now | intros now; by apply blind_locked]. Qed.

Lemma blind_after_request p err : unseen p → blind (cb_after p err).
Proof. intros Hp. apply blind_bind; [apply blind_now | intros now; by apply blind_locked]. Qed.

Lemma blind_delay a (r : RT.Retry W) n : blind (RT.calculateDelay a r n).
Proof.
  unfold RT.calculateDelay. destruct (_ && _); [|apply blind_ret].
  apply blind_bind; [|intros; apply blind_ret]. unfold rand_Int64N.
  destruct (_ <=? 0); [by intros w|]. apply blind_lift, Henv.
Qed.

Lemma blind_attempt p f : unseen p → blind (BH.attempt p f).
Proof. intros Hp. apply blind_lift. intros w. destruct (f (load p w)); [apply Hp | done]. Qed.

Lemma blind_update p f : unseen p → blind (BH.update p f).
Proof. intros Hp w. apply Hp. Qed.

Lemma blind_select p d : unseen p → blind (BH.select_slot p d).
Proof.
  intros Hp. apply blind_lift. intros w. pose proof (unseen_select Henv d w) as Hs.
  destruct (env_select d w) as [[| |err] w1]; [|exact Hs..].
  destruct (BH.trySend (load p w1)); simpl in *; [by rewrite Hp | done].
Qed.
End Observers.

Create HintDb blind.
#[export] Hint Resolve blind_ret blind_get blind_now blind_ctx blind_after blind_AllowN blind_before
  blind_after_request blind_delay blind_attempt blind_update blind_select : blind.

(** ** The patterns and the properties of actions *)

Section Layers.
Context {W : Type} `{GoEnv W} (a : arch).
Context (on_retry : Z → error → Duration → prog W unit)
  (ctx_err : Time → W → error → Prop) (ch : Ptr W channels).
Context {O : Type} (obs : W → O) (Henv : runtime_unseen obs).
Context (K : ∀ B, (W → B → W → Prop) → Prop) (HK : ∀ B R, stays obs B R → K B R).

Abbreviation op := (prog W (option error)) (only parsing).

Lemma acts_blind {B} (m : Go W B) : blind obs m → acts K (atomic m).
Proof.
  intros Hm. apply acts_atomic, HK. intros w o w' [HE _]. specialize (Hm w). by rewrite HE in Hm.
Qed.

(** Goes through a program whose actions are blind. *)
Ltac go_acts :=
  repeat first
    [ assumption
    | apply acts_blind; solve [eauto with blind]
    | apply acts_bind; [|intros ?]
    | apply acts_defer
    | progress cbv beta iota
    | match goal with
      | |- acts _ (match ?x with _ => _ end) => destruct x
      | |- acts _ (mret _) => exact I
      end ].

Lemma rl_acts p (body : op) : unseen obs p → acts K body → acts K (rl_Execute a p body).
Proof. intros Hp Hb. unfold rl_Execute, rl_WaitN. go_acts. Qed.

Lemma cb_acts p (body : op) : unseen obs p → acts K body → acts K (cb_Execute p body).
Proof. intros Hp Hb. unfold cb_Execute. go_acts. Qed.

Lemma bh_acts p (body : op) : unseen obs p → acts K body → acts K (bh_Execute p body).
Proof. intros Hp Hb. unfold bh_Execute, bh_Acquire, bh_Release. go_acts. Qed.

Lemma rt_acts r (body : op) :
  (∀ n e d, acts K (on_retry n e d)) → acts K body → acts K (rt_Execute a on_retry r body).
Proof.
  intros Hon Hb. unfold rt_Execute. generalize 1, (@None error). induction (Z.to_nat _) as [|fuel IH];
    intros n last; cbn [rt_loop]; go_acts; first [apply Hon | apply IH].
Qed.

Lemma to_acts t (body : op) : unseen obs ch → acts K body → acts K (to_Execute ctx_err ch t body).
Proof.
  intros Hc Hb. unfold to_Execute, go. go_acts.
  - apply acts_blind, blind_lift. intros w. apply Hc.
  - split; [|done]. go_acts. apply acts_blind. intros w. apply Hc.
  - split; [|done]. apply HK. intros w [err|e] w' [_ ->]; [apply Hc | done].
Qed.
End Layers.

(** ** The bulkhead's protocol

    The ghost value of a caller is its program counter in [BH.step], and whether it is inside of
    the operation.  [J] is what else is to hold. *)

Section Bulkhead.
Context {W : Type} `{GoEnv W} (p : Ptr W BH.Bulkhead) (cfg : BH.BulkheadConfig) (n : nat).
Context {O : Type} (obs : W → O) (Henv : runtime_unseen obs).
Context (Hobs : ∀ w w', obs w' = obs w → load p w' = load p w).
Context (J : W → list (BH.pc * bool) → Prop).
Context (J_obs : ∀ w w' gs, obs w' = obs w → J w gs → J w' gs).
Context (J_moves : ∀ w b gs i g g', gs !! i = Some (g, false) → J w gs →
  J (store p b w) (<[i := (g', false)]> gs)).
Context (Hn : Z.of_nat n ≤ int64_max).

Abbreviation op := (prog W (option error)) (only parsing).

Definition protocol (w : W) (gs : list (BH.pc * bool)) : Prop :=
  BH.reachable cfg n (load p w, gs.*1) ∧ J w gs.

Lemma stays_quiet B (R : W → B → W → Prop) : stays obs B R → quiet protocol B R.
Proof.
  intros HR w gs b w' [H1 H2] Hb. apply HR in Hb. split; [by rewrite (Hobs _ _ Hb) | by eapply J_obs].
Qed.

(** A step of the bulkhead, in a world that differs from the one before by what [obs] does not
    see. *)
Lemma protocol_step w w1 gs i g g' b :
  gs !! i = Some (g, false) → protocol w gs → obs w1 = obs w →
  BH.step (load p w, gs.*1) (b, <[i := g']> gs.*1) →
  protocol (store p b w1) (<[i := (g', false)]> gs).
Proof.
  intros Hi [H1 H2] Ho Hst. split; [|by eapply J_moves, J_obs].
  rewrite load_store, list_fmap_insert. by eapply rtc_r.
Qed.

Lemma protocol_stay w w1 gs i g g' :
  gs !! i = Some (g, false) → protocol w gs → obs w1 = obs w →
  BH.step (load p w, gs.*1) (load p w, <[i := g']> gs.*1) →
  protocol w1 (<[i := (g', false)]> gs).
Proof.
  intros Hi HI Ho Hst. assert (store p (load p w) w1 = w1) as <- by (rewrite <- (Hobs _ _ Ho); apply store_load).
  by eapply protocol_step.
Qed.

Lemma pc_lookup (gs : list (BH.pc * bool)) i g x : gs !! i = Some (g, x) → gs.*1 !! i = Some g.
Proof. intros Hi. by rewrite list_lookup_fmap, Hi. Qed.

Lemma protocol_config w gs : protocol w gs → BH.config (load p w) = BH.config (BH.NewBulkhead cfg).
Proof. intros [Hr _]. exact (BH.inv_config _ _ _ (BH.bulkhead_reachable_inv _ _ _ Hn Hr)). Qed.

(** Where a caller is when it found the bulkhead full. *)
Definition turned_away : BH.pc := if BH.MaxWait cfg <=? 0 then BH.Rejecting else BH.Waiting.

Lemma update_ok f g g' (E : BH.pc * bool → Prop) :
  (∀ b ths i, ths !! i = Some g → BH.step (b, ths) (f b, <[i := g']> ths)) →
  ok protocol (λ _ x, x = (g', false)) E (g, false) (atomic (BH.update p f)).
Proof.
  intros Hst. apply ok_atomic. intros w gs i o w' Hi HI HE _. injection HE as <- <-.
  exists (g', false). split; [|done]. eapply protocol_step; [done..|]. by eapply Hst, pc_lookup.
Qed.

Lemma send_ok (E : BH.pc * bool → Prop) :
  ok protocol (λ sent x, x = (if sent : bool then BH.Sent else turned_away, false)) E (BH.Idle, false)
    (atomic (BH.attempt p BH.trySend)).
Proof.
  apply ok_atomic. intros w gs i o w' Hi HI HE _. pose proof (protocol_config _ _ HI) as Hcfg.
  unfold BH.attempt, go_lift in HE. destruct (BH.trySend (load p w)) as [b|] eqn:Es; injection HE as <- <-.
  - eexists. split; [|reflexivity]. eapply protocol_step; [done..|]. by eapply BH.step_send; [eapply pc_lookup|].
  - eexists. split; [|reflexivity]. eapply protocol_stay; [done..|]. unfold turned_away.
    assert (BH.MaxWait (BH.config (load p w)) = BH.MaxWait cfg) as Hm by (by rewrite Hcfg).
    destruct (Z.leb_spec (BH.MaxWait cfg) 0).
    + eapply BH.step_full; [by eapply pc_lookup | done | by rewrite Hm].
    + eapply BH.step_wait; [by eapply pc_lookup | done | by rewrite Hm].
Qed.

Lemma config_ok g (E : BH.pc * bool → Prop) :
  ok protocol (λ c x, c = BH.config (BH.NewBulkhead cfg) ∧ x = g) E g
    (atomic (go_get (λ w, BH.config (load p w)))).
Proof.
  apply ok_atomic. intros w gs i o w' Hi HI HE _. injection HE as <- <-. exists g.
  rewrite list_insert_id by done. split; [done|]. split; [by eapply protocol_config | done].
Qed.

Lemma select_ok d (E : BH.pc * bool → Prop) :
  ok protocol (λ res x, x = (match res with
    | SendReady => BH.Sent | TimerFired => BH.Rejecting | SelectDone _ => BH.Idle end, false)) E
    (BH.Waiting, false) (atomic (BH.select_slot p d)).
Proof.
  apply ok_atomic. intros w gs i o w' Hi HI HE _. unfold BH.select_slot, go_lift in HE.
  pose proof (unseen_select obs Henv d w) as Ho. destruct (env_select d w) as [res w1]. simpl in Ho.
  destruct res as [| |err]; [destruct (BH.trySend (load p w1)) as [b|] eqn:Hb|..];
    injection HE as <- <-; (eexists; split; [|reflexivity]).
  - eapply protocol_step; [done..|]. eapply BH.step_slot; [by eapply pc_lookup|]. by rewrite <- (Hobs _ _ Ho).
  - eapply protocol_stay; [done..|]. by eapply BH.step_timer, pc_lookup.
  - eapply protocol_stay; [done..|]. by eapply BH.step_timer, pc_lookup.
  - eapply protocol_stay; [done..|]. by eapply BH.step_ctx, pc_lookup.
Qed.

Lemma recv_ok (E : BH.pc * bool → Prop) :
  ok protocol (λ received x, x = (if received : bool then BH.Releasing else BH.Idle, false)) E
    (BH.Running, false) (atomic (BH.attempt p BH.tryRecv)).
Proof.
  apply ok_atomic. intros w gs i o w' Hi HI HE _.
  unfold BH.attempt, go_lift in HE. destruct (BH.tryRecv (load p w)) as [b|] eqn:Es; injection HE as <- <-;
    (eexists; split; [|reflexivity]).
  - eapply protocol_step; [done..|]. by eapply BH.step_recv; [eapply pc_lookup|].
  - eapply protocol_stay; [done..|]. by eapply BH.step_empty; [eapply pc_lookup|].
Qed.

(** Takes the first part of a [bind] by its lemma. *)
Ltac next lem := apply ok_bind; eapply ok_mono; [|intros ? Hx; exact Hx|apply lem].

Lemma Acquire_ok (E : BH.pc * bool → Prop) :
  ok protocol (λ err x, x = (if is_err err then BH.Idle else BH.Running, false)) E (BH.Idle, false)
    (bh_Acquire p).
Proof.
  unfold bh_Acquire. next send_ok. intros [] x ->.
  { next (update_ok BH.acquired BH.Sent BH.Running E BH.step_acquired). by intros [] x ->. }
  next config_ok. intros c x [-> ->]. change (BH.MaxWait (BH.config (BH.NewBulkhead cfg))) with (BH.MaxWait cfg).
  unfold turned_away. destruct (BH.MaxWait cfg <=? 0).
  { next (update_ok BH.reject BH.Rejecting BH.Idle E BH.step_reject). by intros [] x ->. }
  next select_ok. intros [| |err] x ->.
  - next (update_ok BH.acquired BH.Sent BH.Running E BH.step_acquired). by intros [] x ->.
  - next (update_ok BH.reject BH.Rejecting BH.Idle E BH.step_reject). by intros [] x ->.
  - done.
Qed.

Lemma Release_ok (E : BH.pc * bool → Prop) :
  ok protocol (λ _ x, x = (BH.Idle, false)) E (BH.Running, false) (bh_Release p).
Proof.
  unfold bh_Release. next recv_ok. intros [] x ->; [|done].
  eapply ok_mono; [|intros ? Hx; exact Hx|apply (update_ok BH.released BH.Releasing BH.Idle E BH.step_released)].
  by intros [] x ->.
Qed.

(** A call takes its slot and gives it back, also when the operation panics. *)
Lemma bh_returns (body : op) :
  returns protocol (BH.Running, false) body → returns protocol (BH.Idle, false) (bh_Execute p body).
Proof.
  intros Hb. unfold returns, bh_Execute. next Acquire_ok. intros [err|] x ->; [done|].
  apply ok_defer. eapply ok_mono; [| |exact Hb].
  - intros r x ->. apply Release_ok.
  - intros x ->. apply Release_ok.
Qed.

(** *** The other patterns stay where they are *)

Context (a : arch) (on_retry : Z → error → Duration → prog W unit)
  (ctx_err : Time → W → error → Prop) (ch : Ptr W channels).

Lemma returns_blind {B : Type} g (m : Go W B) : blind obs m → returns protocol g (atomic m).
Proof. intros Hm. apply returns_quiet. by apply (acts_blind obs (quiet protocol) stays_quiet). Qed.

Ltac go_returns :=
  repeat first
    [ assumption
    | apply returns_blind; solve [eauto with blind]
    | apply returns_bind; [|intros ?]
    | progress cbv beta iota
    | match goal with
      | |- returns _ _ (match ?x with _ => _ end) => destruct x
      | |- returns _ _ (mret _) => apply returns_ret
      end ].

Lemma rl_returns g pl (body : op) :
  unseen obs pl → returns protocol g body → returns protocol g (rl_Execute a pl body).
Proof. intros Hp Hb. unfold rl_Execute, rl_WaitN. go_returns. Qed.

Lemma cb_returns g pc (body : op) :
  unseen obs pc → returns protocol g body → returns protocol g (cb_Execute pc body).
Proof. intros Hp Hb. unfold cb_Execute. go_returns. Qed.

Lemma rt_returns g r (body : op) :
  (∀ k e d, returns protocol g (on_retry k e d)) → returns protocol g body →
  returns protocol g (rt_Execute a on_retry r body).
Proof.
  intros Hon Hb. unfold rt_Execute. generalize 1, (@None error). induction (Z.to_nat _) as [|fuel IH];
    intros k last; cbn [rt_loop]; go_returns; first [apply Hon | apply IH].
Qed.

Lemma to_returns g t (body : op) :
  unseen obs ch → acts (quiet protocol) body → returns protocol g (to_Execute ctx_err ch t body).
Proof. intros Hc Hb. apply returns_quiet. by apply (to_acts ctx_err ch obs Henv _ stays_quiet). Qed.
End Bulkhead.
End EC.
