(* ===== verification/ExecutorPool.v ===== *)
(** * resilience/executor.go: goroutines that call one executor

    [pool_is_components]: every interleaving is, seen from each pattern, one of the pattern's own;
    [operations_limited]: no more than [MaxConcurrent] operations run at once when there is no
    timeout; [run_alone]: a call that nobody disturbs is the sequential [EX.Execute]. *)

From stdpp Require Import relations.
From S2P Require Import Prelude.
From S2P Require Import GoRuntime.
From S2P Require Import GoConc.
From S2P Require Import GoFloat.
From S2P Require Import CircuitBreaker.
From S2P Require Import RateLimiter.
From S2P Require Import Retry.
From S2P Require Import Bulkhead.
From S2P Require Import Timeout.
From S2P Require Import Executor.
From S2P Require Import ExecutorConcurrent.
Local Open Scope Z_scope.
Local Open Scope stdpp_scope.

Module EP.
Import GC EC.

(** ** What each pattern sees of a pool *)

Section Projections.
Context {W : Type} `{GoEnv W} (a : arch).
Context (on_retry : Z → error → Duration → prog W unit)
  (ctx_err : Time → W → error → Prop) (ch : Ptr W channels).
Context (e : EX.Executor W).

Abbreviation op := (prog W (option error)) (only parsing).

(** The runtime, the channels, the callback and the operations leave [obs] alone. *)
Record private {O : Type} (obs : W → O) (callers : list (list op)) : Prop := {
  private_env : runtime_unseen obs;
  private_ch : unseen obs ch;
  private_callback n err d : acts (stays obs) (on_retry n err d);
  private_ops : Forall (Forall (acts (stays obs))) callers;
}.

(** The part of the executor behind a pointer leaves [obs] alone, when there is one. *)
Definition part_unseen {O S : Type} (obs : W → O) (part : option (Ptr W S)) : Prop :=
  ∀ p, part = Some p → unseen obs p.

Lemma unseen_disjoint {S T : Type} (p : Ptr W S) (q : Ptr W T) :
  ptr_disjoint p q → unseen (load q) p ∧ unseen (load p) q.
Proof. intros [H1 H2]. by split. Qed.

(** A call has a property of actions when each of its patterns has it. *)
Lemma Execute_acts (K : ∀ B, (W → B → W → Prop) → Prop) (body : op) :
  (∀ p x, EX.rateLimiter e = Some p → acts K x → acts K (rl_Execute a p x)) →
  (∀ p x, EX.bulkhead e = Some p → acts K x → acts K (bh_Execute p x)) →
  (∀ p x, EX.circuitBreaker e = Some p → acts K x → acts K (cb_Execute p x)) →
  (∀ r x, EX.retry e = Some r → acts K x → acts K (rt_Execute a on_retry r x)) →
  (∀ t x, EX.timeout e = Some t → acts K x → acts K (to_Execute ctx_err ch t x)) →
  acts K body → acts K (Execute a on_retry ctx_err ch e body).
Proof.
  intros Hl Hb Hc Hr Ht Hbody. unfold Execute.
  assert (∀ P (part : option P) (f : P → op → op) x, (∀ p x, part = Some p → acts K x → acts K (f p x)) →
    acts K x → acts K (match part with Some p => f p x | None => x end)) as Hopt.
  { intros P [p|] f x Hf Hx; [by apply Hf | done]. }
  by apply (Hopt _ _ (rl_Execute a)), (Hopt _ _ bh_Execute), (Hopt _ _ cb_Execute),
    (Hopt _ _ (rt_Execute a on_retry)), (Hopt _ _ (to_Execute ctx_err ch)).
Qed.

Lemma caller_acts (K : ∀ B, (W → B → W → Prop) → Prop) (ops : list op) :
  Forall (λ body, acts K (Execute a on_retry ctx_err ch e body)) ops →
  acts K (caller a on_retry ctx_err ch e ops).
Proof. induction 1 as [|body ops Hb _ IH]; simpl; [done|]. by apply acts_bind. Qed.

(** An action on the object behind [x] is a step of it. *)
Lemma own_keeping {S : Type} (x : Ptr W S) (I : S → Prop) {B : Type} (f : W → Time * W) (g : Time → S → B * S) :
  (∀ w, load x (f w).2 = load x w) → (∀ now s, I s → I (g now s).2) →
  keeping (λ w, I (load x w)) _ (ends_in (now ← go_lift f; locked x (g now))).
Proof.
  intros Hf Hg w o w' HI [HE _]. rewrite go_bind_run in HE. unfold go_lift in HE.
  specialize (Hf w). destruct (f w) as [now w1]. simpl in Hf. unfold locked, go_lift in HE.
  rewrite Hf in HE. specialize (Hg now _ HI). destruct (g now (load x w)) as [b s].
  injection HE as <- <-. by rewrite load_store.
Qed.

Lemma stays_keeping {S : Type} (x : Ptr W S) (I : S → Prop) B (R : W → B → W → Prop) :
  stays (load x) B R → keeping (λ w, I (load x w)) B R.
Proof. intros HR w b w' HI Hb. by rewrite (HR _ _ _ Hb). Qed.

(** The events of a breaker that calls make. *)
Definition call_event (ev : CB.event) : Prop :=
  match ev with CB.EvBefore _ | CB.EvAfter _ _ => True | _ => False end.

Definition breaker_run (cb0 cb : CB.CircuitBreaker) : Prop :=
  ∃ es, Forall call_event es ∧ cb = run_steps CB.step es cb0.

Definition limiter_run (rl0 rl : RL.RateLimiter) : Prop :=
  ∃ calls, Forall (λ c, c.2 = 1) calls ∧ rl = RL.run_calls calls rl0.

Lemma breaker_run_step cb0 cb ev : call_event ev → breaker_run cb0 cb → breaker_run cb0 (CB.step ev cb).
Proof.
  intros Hev (es & Hes & ->). exists (es ++ [ev]). rewrite run_steps_app. split; [|done].
  apply Forall_app. split; [done | by apply Forall_singleton].
Qed.

Lemma limiter_run_step rl0 rl now : limiter_run rl0 rl → limiter_run rl0 (RL.AllowN now 1 rl).2.
Proof.
  intros (cs & Hcs & ->). exists (cs ++ [(now, 1)]). unfold RL.run_calls. rewrite run_steps_app. split; [|done].
  apply Forall_app. split; [done | by apply Forall_singleton].
Qed.

Lemma own_stays {S B : Type} (x : Ptr W S) (I : S → Prop) (m : Go W B) :
  blind (load x) m → acts (keeping (λ w, I (load x w))) (atomic m).
Proof. intros Hm. by apply (acts_blind (load x) _ (stays_keeping x I)). Qed.

Lemma breaker_calls p (I : CB.CircuitBreaker → Prop) (body : op) :
  runtime_unseen (load p) → (∀ ev cb, call_event ev → I cb → I (CB.step ev cb)) →
  acts (keeping (λ w, I (load p w))) body → acts (keeping (λ w, I (load p w))) (cb_Execute p body).
Proof.
  intros Henv HI Hb. unfold cb_Execute. apply acts_bind.
  - apply acts_atomic, own_keeping; [apply Henv|]. intros now cb. by apply (HI (CB.EvBefore now)).
  - intros [err|]; [done|]. apply acts_bind; [done|]. intros err. apply acts_bind; [|done].
    apply acts_atomic, own_keeping; [apply Henv|]. intros now cb. by apply (HI (CB.EvAfter now err)).
Qed.

Lemma limiter_calls p (I : RL.RateLimiter → Prop) (body : op) :
  runtime_unseen (load p) → (∀ now rl, I rl → I (RL.AllowN now 1 rl).2) →
  acts (keeping (λ w, I (load p w))) body → acts (keeping (λ w, I (load p w))) (rl_Execute a p body).
Proof.
  intros Henv HI Hb. unfold rl_Execute, rl_WaitN.
  assert (acts (keeping (λ w, I (load p w))) (atomic (RL.go_AllowN p 1))) as Hallow.
  { apply acts_atomic, own_keeping; [apply Henv|]. intros now rl. apply HI. }
  repeat first [assumption | apply own_stays; solve [eauto with blind]
    | apply acts_bind; [|intros ?] | progress cbv beta iota
    | match goal with
      | |- acts _ (match ?y with _ => _ end) => destruct y
      | |- acts _ (mret _) => exact Logic.I
      end].
Qed.

Lemma private_acts {O : Type} (obs : W → O) callers (K : ∀ B, (W → B → W → Prop) → Prop) :
  private obs callers → (∀ B R, stays obs B R → K B R) →
  (∀ n err d, acts K (on_retry n err d)) ∧ Forall (Forall (acts K)) callers.
Proof.
  intros Hp HK. split.
  - intros n err d. eapply acts_mono; [exact HK|]. by eapply private_callback.
  - eapply Forall_impl; [by eapply private_ops|]. intros ops Hops. eapply Forall_impl; [exact Hops|].
    intros body. by apply acts_mono.
Qed.

(** The callers of the executor keep an invariant of the object behind [x] when the part that
    owns [x] does. *)
Lemma callers_keep {S : Type} (x : Ptr W S) (I : S → Prop) callers w s :
  private (load x) callers →
  let K := keeping (λ w, I (load x w)) in
  (∀ p b, EX.rateLimiter e = Some p → acts K b → acts K (rl_Execute a p b)) →
  (∀ p b, EX.bulkhead e = Some p → acts K b → acts K (bh_Execute p b)) →
  (∀ p b, EX.circuitBreaker e = Some p → acts K b → acts K (cb_Execute p b)) →
  rtc pstep (caller a on_retry ctx_err ch e <$> callers, w) s → I (load x w) → I (load x s.2).
Proof.
  intros Hp K Hl Hb Hc Hr HI. pose proof (stays_keeping x I) as HK.
  pose proof (private_acts _ _ K Hp HK) as [Hon Hops]. destruct Hp as [Henv Hch _ _].
  apply (pool_keeps (λ w, I (load x w)) _ _ Hr); [|done]. simpl. apply Forall_fmap.
  eapply Forall_impl; [exact Hops|]. intros ops Ho. apply caller_acts.
  eapply Forall_impl; [exact Ho|]. intros body Hbody. apply Execute_acts; [done..| | |done].
  - intros r b _ Hx. by apply (rt_acts a on_retry (load x) Henv K HK).
  - intros t b _ Hx. by apply (to_acts ctx_err ch (load x) Henv K HK).
Qed.

(** [callers] goroutines on the bulkhead follow its protocol. *)
Lemma callers_return p cfg n {O : Type} (obs : W → O) J callers :
  EX.bulkhead e = Some p → runtime_unseen obs → part_unseen obs (EX.rateLimiter e) →
  part_unseen obs (EX.circuitBreaker e) →
  (∀ w w', obs w' = obs w → load p w' = load p w) →
  (∀ w w' gs, obs w' = obs w → J w gs → J w' gs) →
  (∀ w b gs i g g', gs !! i = Some (g, false) → J w gs → J (store p b w) (<[i := (g', false)]> gs)) →
  Z.of_nat n ≤ int64_max →
  (∀ k err d, acts (stays obs) (on_retry k err d)) →
  let running := returns (protocol p cfg n J) (BH.Running, false) in
  Forall (Forall (λ body, running
    (match EX.timeout e with Some t => to_Execute ctx_err ch t body | None => body end))) callers →
  Forall (returns (protocol p cfg n J) (BH.Idle, false)) (caller a on_retry ctx_err ch e <$> callers).
Proof.
  intros Hb Henv Hl Hc Hobs J_obs J_moves Hn Hon running Hcs. apply Forall_fmap.
  eapply Forall_impl; [exact Hcs|]. intros ops. induction 1 as [|body ops Hbody _ IH]; [done|].
  simpl. apply returns_bind; [|done]. unfold Execute. rewrite Hb.
  assert (∀ x, running x → returns (protocol p cfg n J) (BH.Idle, false) (bh_Execute p x)) as Hbulk
    by (intros x; by apply (bh_returns p cfg n obs)).
  assert (∀ x, running x → running (match EX.circuitBreaker e with Some cb => cb_Execute cb x | None => x end)) as Hbr.
  { intros x. destruct (EX.circuitBreaker e) eqn:E; [|done]. apply (cb_returns p cfg n obs); auto. }
  assert (∀ x, running x → running (match EX.retry e with Some r => rt_Execute a on_retry r x | None => x end)) as Hre.
  { intros x. destruct (EX.retry e); [|done]. apply (rt_returns p cfg n obs); try done.
    intros k err d. apply returns_quiet. eapply acts_mono; [|apply Hon]. by apply (stays_quiet p cfg n obs). }
  destruct (EX.rateLimiter e) eqn:E; [apply (rl_returns p cfg n obs); auto|]; auto.
Qed.

(** The patterns of the executor are distinct objects. *)
Record distinct_parts : Prop := {
  limiter_bulkhead p q : EX.rateLimiter e = Some p → EX.bulkhead e = Some q → ptr_disjoint p q;
  limiter_breaker p q : EX.rateLimiter e = Some p → EX.circuitBreaker e = Some q → ptr_disjoint p q;
  bulkhead_breaker p q : EX.bulkhead e = Some p → EX.circuitBreaker e = Some q → ptr_disjoint p q;
}.

(** Every caller is through with its calls. *)
Definition all_finished (n : nat) (s : pool W) : Prop :=
  ∀ i p, s.1 !! i = Some p → (i < n)%nat → finished p = true.

(** C2. Any number of goroutines call one executor at the same time, whichever of its patterns
    are on, and an operation that the timeout has given up may still run.  The operations and the
    callback do not touch the patterns themselves.  Whatever the interleaving, the
    bulkhead is in a state that [BH.step] reaches with a program counter for each caller, so
    that at most [MaxConcurrent] slots are taken, and when the callers are through, however
    their calls ended, all slots are free and the next call gets one; the breaker has gone
    through a sequence of [beforeRequest] and [afterRequest], the limiter through one of requests
    for one token each. *)
Theorem pool_is_components callers w s :
  distinct_parts → Z.of_nat (length callers) ≤ int64_max →
  rtc pstep (caller a on_retry ctx_err ch e <$> callers, w) s →
  (∀ p cfg, EX.bulkhead e = Some p → private (load p) callers → load p w = BH.NewBulkhead cfg →
    ∃ pcs, BH.reachable cfg (length callers) (load p s.2, pcs) ∧
      0 ≤ BH.sem (load p s.2) ≤ BH.MaxConcurrent (BH.config (BH.NewBulkhead cfg)) ∧
      (all_finished (length callers) s → BH.drained (load p s.2, pcs))) ∧
  (∀ p, EX.circuitBreaker e = Some p → private (load p) callers → breaker_run (load p w) (load p s.2)) ∧
  (∀ p, EX.rateLimiter e = Some p → private (load p) callers → limiter_run (load p w) (load p s.2)).
Proof.
  intros [Hlb Hlc Hbc] Hn Hr. split_and!.
  - intros p cfg Hb Hp Hw. set (n := length callers) in *.
    destruct (pool_sound (protocol p cfg n (λ _ _, True)) (BH.Idle, false)
      (caller a on_retry ctx_err ch e <$> callers) w s) as (gs & Hl & [Hreach _] & Hfin); [| |done|].
    + apply (callers_return p cfg n (load p)); try done; try apply Hp.
      * intros q Hq. by apply (unseen_disjoint q p), Hlb.
      * intros q Hq. by apply (unseen_disjoint p q), Hbc.
      * eapply Forall_impl; [apply Hp|]. intros ops Hops. eapply Forall_impl; [exact Hops|].
        intros body Hbody. assert (acts (quiet (protocol p cfg n (λ _ _, True))) body) as Hq.
        { eapply acts_mono; [|exact Hbody]. by apply (stays_quiet p cfg n (load p)). }
        destruct (EX.timeout e); [|by apply returns_quiet].
        apply (to_returns p cfg n (load p)); try done; apply Hp.
    + split; [|done]. rewrite length_fmap, fmap_replicate, Hw. apply rtc_refl.
    + rewrite length_fmap in Hl, Hfin. exists gs.*1. split; [done|].
      pose proof (BH.bulkhead_reachable_inv _ _ _ Hn Hreach) as Hi. split.
      * destruct Hi as [Hc _ Hs Hroom _ _]. rewrite <- Hc. simpl in *. lia.
      * intros Hall. eapply BH.all_idle_drained; [done|]. simpl. apply Forall_fmap, Forall_lookup.
        intros i [g x] Hg. pose proof (lookup_lt_Some _ _ _ Hg) as Hlt. rewrite Hl in Hlt.
        destruct (Hfin i Hlt) as (q & Hq & Hgq). rewrite (Hgq (Hall _ _ Hq Hlt)) in Hg. by simplify_eq.
  - intros p Hc Hp. apply (callers_keep p (breaker_run (load p w)) callers w s Hp); [| | |done|by exists []].
    + intros q b Hq. by apply (rl_acts a (load p) (private_env _ _ Hp) _ (stays_keeping p _)), (unseen_disjoint q p), Hlc.
    + intros q b Hq. by apply (bh_acts (load p) (private_env _ _ Hp) _ (stays_keeping p _)), (unseen_disjoint q p), Hbc.
    + intros q b Hq. replace q with p by congruence. apply breaker_calls; [apply Hp|]. intros ev cb. apply breaker_run_step.
  - intros p Hc Hp. apply (callers_keep p (limiter_run (load p w)) callers w s Hp); [| | |done|by exists []].
    + intros q b Hq. replace q with p by congruence. apply limiter_calls; [apply Hp|]. intros now rl. apply limiter_run_step.
    + intros q b Hq. by apply (bh_acts (load p) (private_env _ _ Hp) _ (stays_keeping p _)), (unseen_disjoint p q), Hlb.
    + intros q b Hq. by apply (cb_acts (load p) (private_env _ _ Hp) _ (stays_keeping p _)), (unseen_disjoint p q), Hlc.
Qed.

(** ** How many operations run at once *)

(** An operation that counts itself in while it runs. *)
Definition tracked (q : Ptr W Z) (body : op) : op :=
  _ ← atomic (go_modify (λ w, store q (load q w + 1) w));
  defer (atomic (go_modify (λ w, store q (load q w - 1) w))) body.

Definition all_tracked (q : Ptr W Z) (callers : list (list op)) : list (list op) :=
  (λ ops : list op, tracked q <$> ops) <$> callers.

(** The count is that of the callers inside of the operation, which hold a slot. *)
Definition inside (q : Ptr W Z) (w : W) (gs : list (BH.pc * bool)) : Prop :=
  load q w = Z.of_nat (count_if snd gs) ∧ Forall (λ g, g.2 = true → g.1 = BH.Running) gs.

Lemma inside_limited q w gs : inside q w gs → 0 ≤ load q w ≤ Z.of_nat (count_if BH.holds_token gs.*1).
Proof.
  intros [-> Hall]. split; [lia|]. apply inj_le. induction Hall as [|[g x] gs Hg _ IH]; [done|].
  rewrite fmap_cons. cbn [count_if fst snd] in *. destruct x; [rewrite Hg by done; simpl; lia|].
  destruct (BH.holds_token g); lia.
Qed.

Lemma inside_moves (p : Ptr W BH.Bulkhead) q w b gs i g g' :
  ptr_disjoint p q → gs !! i = Some (g, false) → inside q w gs →
  inside q (store p b w) (<[i := (g', false)]> gs).
Proof.
  intros [Hd _] Hi [Hq Hall]. split; [|by apply Forall_insert].
  rewrite Hd, Hq. pose proof (count_if_insert snd gs i (g, false) (g', false) Hi). simpl in *. f_equal. lia.
Qed.

(** Going in and out. *)
Lemma count_ok (p : Ptr W BH.Bulkhead) cfg n q (x : bool) (Q : () → BH.pc * bool → Prop) E :
  ptr_disjoint p q → Q () (BH.Running, x) →
  ok (protocol p cfg n (inside q)) Q E (BH.Running, negb x)
    (atomic (go_modify (λ w, store q (if x then load q w + 1 else load q w - 1) w))).
Proof.
  intros [_ Hd] HQ. apply ok_atomic. intros w gs i o w' Hi [Hr [Hq Hall]] HE _. injection HE as <- <-.
  exists (BH.Running, x). split; [|done]. split; [|split].
  - rewrite Hd, list_fmap_insert. simpl. rewrite list_insert_id; [done|]. by eapply pc_lookup.
  - rewrite load_store, Hq. pose proof (count_if_insert snd gs i _ (BH.Running, x) Hi) as Hc.
    destruct x; simpl in Hc; lia.
  - by apply Forall_insert.
Qed.

Lemma tracked_returns (p : Ptr W BH.Bulkhead) cfg n q body :
  ptr_disjoint p q → acts (quiet (protocol p cfg n (inside q))) body →
  returns (protocol p cfg n (inside q)) (BH.Running, false) (tracked q body).
Proof.
  intros Hd Hb. unfold tracked. apply ok_bind. apply (count_ok p cfg n q true); [done|].
  apply ok_defer. eapply ok_mono; [| |by apply returns_quiet].
  - intros r g ->. by apply (count_ok p cfg n q false).
  - intros g ->. by apply (count_ok p cfg n q false).
Qed.

(** C4. An executor with a bulkhead and without a timeout never lets more than [MaxConcurrent]
    operations run at the same time, however many goroutines call it, whatever the other
    patterns do (attempts that are repeated, waits for the limiter) and however the operations
    end.  [q] counts the operations that run; nothing else touches it or the bulkhead. *)
Theorem operations_limited p cfg q (callers : list (list op)) w s :
  EX.bulkhead e = Some p → EX.timeout e = None → distinct_parts → ptr_disjoint p q →
  part_unseen (load q) (EX.rateLimiter e) → part_unseen (load q) (EX.circuitBreaker e) →
  private (λ w, (load p w, load q w)) callers →
  Z.of_nat (length callers) ≤ int64_max → load p w = BH.NewBulkhead cfg → load q w = 0 →
  rtc pstep (caller a on_retry ctx_err ch e <$> all_tracked q callers, w) s →
  0 ≤ load q s.2 ≤ BH.MaxConcurrent (BH.config (BH.NewBulkhead cfg)).
Proof.
  intros Hb Ht [Hlb _ Hbc] Hd Hql Hqc Hp Hn Hw Hq Hr. set (n := length callers) in *.
  set (obs := λ w, (load p w, load q w)) in *.
  set (callers' := all_tracked q callers) in *.
  assert (∀ w w', obs w' = obs w → load p w' = load p w) as Hobs by (intros ?? [= ? _]; done).
  assert (∀ w w' gs, obs w' = obs w → inside q w gs → inside q w' gs) as HJ
    by (intros ??? [= _ He] [??]; by split; [rewrite He|]).
  destruct (pool_sound (protocol p cfg n (inside q)) (BH.Idle, false)
    (caller a on_retry ctx_err ch e <$> callers') w s) as (gs & _ & [Hreach Hin] & _); [| |done|].
  - apply (callers_return p cfg n obs); try done; try apply Hp.
    + intros x Hx b w0. unfold obs. by rewrite (proj1 (Hlb _ _ Hx Hb)), (Hql _ Hx).
    + intros x Hx b w0. unfold obs. by rewrite (proj2 (Hbc _ _ Hb Hx)), (Hqc _ Hx).
    + intros w0 b gs i g g'. by apply inside_moves.
    + rewrite Ht. unfold callers', all_tracked. apply Forall_fmap. eapply Forall_impl; [apply Hp|]. intros ops Hops.
      apply Forall_fmap. eapply Forall_impl; [exact Hops|]. intros body Hbody.
      apply tracked_returns; [done|]. eapply acts_mono; [|exact Hbody]. by apply (stays_quiet p cfg n obs).
  - unfold protocol, callers', all_tracked. rewrite !length_fmap, fmap_replicate, Hw. split; [apply rtc_refl|].
    split; [|by apply Forall_replicate]. rewrite Hq, count_if_replicate. done.
  - pose proof (inside_limited _ _ _ Hin). destruct (BH.bulkhead_reachable_inv _ _ _ Hn Hreach) as [Hc _ Hs Hroom _ _].
    rewrite <- Hc. simpl in *. lia.
Qed.
End Projections.

(** ** A call that nobody disturbs *)

Section Alone.
Context {W : Type} `{GoEnv W} (a : arch).
Context (on_retry : Z → error → Duration → prog W unit)
  (ctx_err : Time → W → error → Prop) (ch : Ptr W channels).

Abbreviation op := (prog W (option error)) (only parsing).

(** The part of a program that a [sim] proof is at. *)
Ltac go_sim :=
  repeat first
    [ assumption
    | apply sim_atomic
    | apply sim_ret
    | apply sim_fuel
    | apply sim_bind; [|intros ?]
    | apply sim_defer
    | progress cbv beta iota
    | match goal with |- sim (match ?x with _ => _ end) _ => destruct x end ].

(** The same for [deterministic]. *)
Ltac go_det :=
  repeat first
    [ assumption
    | match goal with Hm : ∀ B m, acts deterministic (atomic m) |- _ => apply Hm end
    | apply acts_bind; [|intros ?]
    | apply acts_defer
    | progress cbv beta iota
    | match goal with
      | |- acts _ (match ?x with _ => _ end) => destruct x
      | |- acts _ (mret _) => exact I
      end ].

Lemma sim_equiv {A : Type} (m m' : Go W A) p : m ≡ m' → sim m p → sim m' p.
Proof. intros Hm Hs w o w' HE. apply Hs. by rewrite (Hm w). Qed.

Lemma rl_alone p m body : sim m body → sim (RL.Execute a p m) (rl_Execute a p body).
Proof. intros Hb. unfold RL.Execute, rl_Execute, RL.Wait, RL.WaitN, rl_WaitN. go_sim. Qed.

Lemma cb_alone p m body : sim m body → sim (CB.Execute p m) (cb_Execute p body).
Proof.
  intros Hb. eapply (sim_equiv (rejected ← cb_before p;
    match rejected with
    | Some err => mret (Some err)
    | None => err ← m; _ ← cb_after p err; mret err
    end)); [|unfold cb_Execute; go_sim].
  intros w. unfold CB.Execute, cb_before, cb_after. rewrite (go_bind_assoc _ _ _ w).
  unfold mbind, go_bind. destruct (time_Now w) as [[now|msg|] w1]; [|done..].
  destruct (locked p (CB.beforeRequest now) w1) as [[[err|]|msg|] w2]; [done| |done..].
  destruct (m w2) as [[err|msg|] w3]; [|done..]. destruct (time_Now w3) as [[now'|msg|] w4]; done.
Qed.

Lemma rt_alone r m body :
  (∀ f n err d, RT.OnRetry (RT.config r) = Some f → sim (f n err d) (on_retry n err d)) →
  sim m body → sim (RT.Execute a r m) (rt_Execute a on_retry r body).
Proof.
  intros Hon Hb. unfold RT.Execute, rt_Execute. generalize 1, (@None error).
  induction (Z.to_nat _) as [|fuel IH]; intros n last; cbn [rt_loop RT.loop]; [apply sim_fuel|]. go_sim.
  all: first [by apply Hon | apply IH].
Qed.

Lemma bh_alone p m body : sim m body → sim (BH.Execute p m) (bh_Execute p body).
Proof.
  intros Hb. unfold BH.Execute, bh_Execute, BH.Acquire, bh_Acquire, BH.Release, bh_Release. go_sim.
Qed.

(** Nothing in a call but the timeout leaves a choice. *)
Lemma Execute_deterministic (e : EX.Executor W) (body : op) :
  EX.timeout e = None → (∀ n err d, acts deterministic (on_retry n err d)) →
  acts deterministic body → acts deterministic (Execute a on_retry ctx_err ch e body).
Proof.
  intros Ht Hon Hb.
  assert (∀ B (m : Go W B), acts deterministic (atomic m)) as Hm
    by (intros B m; apply acts_atomic, deterministic_ends_in).
  apply Execute_acts; [| | | |by rewrite Ht|done]; clear Hb body.
  - intros p body _ Hb. unfold rl_Execute, rl_WaitN. go_det.
  - intros p body _ Hb. unfold bh_Execute, bh_Acquire, bh_Release. go_det.
  - intros p body _ Hb. unfold cb_Execute. go_det.
  - intros r body _ Hb. unfold rt_Execute. generalize 1, (@None error).
    induction (Z.to_nat _) as [|fuel IH]; intros n last; cbn [rt_loop]; go_det; first [apply Hon | apply IH].
Qed.

(** [p], when nobody disturbs it, has the outcome of [m], in all its runs, which end when [m]
    does. *)
Definition alone_as {A : Type} (m : Go W A) (p : prog W A) : Prop := ∀ w o w',
  m w = (o, w') →
  match o with
  | Val x => settles p w (Ret x) w'
  | Panic msg => settles p w (Throw msg) w'
  | OutOfFuel => True
  end.

(** A call that no other goroutine disturbs is the sequential [EX.Execute]: all its runs do
    the same to the world, return the same error or panic with the same message, for every
    combination of patterns but the timeout, whose operation is a goroutine of its own.  They
    end when the operation does. *)
Theorem run_alone `{!GoEnvSpec W} (e : EX.Executor W) (m : Go W (option error)) (body : op) :
  EX.timeout e = None →
  (∀ r f n err d, EX.retry e = Some r → RT.OnRetry (RT.config r) = Some f →
    sim (f n err d) (on_retry n err d)) →
  (∀ n err d, acts deterministic (on_retry n err d)) → acts deterministic body → sim m body →
  alone_as (EX.Execute a e m) (Execute a on_retry ctx_err ch e body) ∧
  (EX.attempts_end e → total m → total (EX.Execute a e m)).
Proof.
  intros Ht Hon Hond Hbd Hb. split; [|by apply EX.executor_total].
  assert (sim (EX.Execute a e m) (Execute a on_retry ctx_err ch e body)) as Hs.
  { unfold EX.Execute, Execute. rewrite Ht.
    destruct (EX.rateLimiter e) as [pl|]; [apply rl_alone|];
      (destruct (EX.bulkhead e) as [pb|]; [apply bh_alone|]);
      (destruct (EX.circuitBreaker e) as [pc|]; [apply cb_alone|]);
      (destruct (EX.retry e) as [r|]; [apply rt_alone; [intros; by eapply Hon|]|]); exact Hb. }
  pose proof (Execute_deterministic e body Ht Hond Hbd) as Hd.
  intros w o w' HE. specialize (Hs w o w' HE).
  destruct o as [err|msg|]; [by apply deterministic_settles..|done].
Qed.
End Alone.

(** ** Witnesses *)

(** A world with channels, a counter and the patterns of an executor. *)
Abbreviation shared := ((channels * Z) * (RL.RateLimiter * (BH.Bulkhead * CB.CircuitBreaker)))%type
  (only parsing).

Definition p_chan : Ptr (World shared) channels := ptr_fst (ptr_fst cell).
Definition p_count : Ptr (World shared) Z := ptr_snd (ptr_fst cell).
Definition p_limiter : Ptr (World shared) RL.RateLimiter := ptr_fst (ptr_snd cell).
Definition p_bulkhead : Ptr (World shared) BH.Bulkhead := ptr_fst (ptr_snd (ptr_snd cell)).
Definition p_breaker : Ptr (World shared) CB.CircuitBreaker := ptr_snd (ptr_snd (ptr_snd cell)).

Definition one_slot : BH.BulkheadConfig := BH.MkConfig 1 0.

(** Every reading of the clock takes an hour. *)
Definition slow_world (count : Z) : World shared :=
  MkWorld 1000 Hour [] [] 0 []
    (([], count),
     (RL.NewRateLimiter (RL.MkConfig f_one 5 false 0) 1000,
      (BH.NewBulkhead one_slot, CB.NewCircuitBreaker (CB.MkConfig 1 0 0 false None)))).

Definition patterns : list (EX.ExecutorOption (World shared)) :=
  [EX.WithRetry (RT.NewRetry (RT.MkConfig 3 1 Second f_one RT.BackoffConstant false None None));
   EX.WithCircuitBreaker p_breaker; EX.WithBulkhead p_bulkhead; EX.WithRateLimiter p_limiter].

Definition no_callback (n : Z) (err : error) (d : Duration) : prog (World shared) unit := mret ().
Definition late (deadline : Time) (w : World shared) (err : error) : Prop :=
  deadline ≤ w_clock w ∧ err = context_DeadlineExceeded.

Definition quick : prog (World shared) (option error) := mret None.

Definition demo (e : EX.Executor (World shared)) (callers : list (list (prog (World shared) (option error)))) :
    pool (World shared) :=
  (caller AMD64 no_callback late p_chan e <$> callers, slow_world 0).

(** Two goroutines, each with one operation. *)
Definition two (body : prog (World shared) (option error)) : list (list (prog (World shared) (option error))) :=
  [[body]; [body]].

(** The next action of a goroutine, or its [go] statement. *)
Ltac run_atomic :=
  split;
  [ match goal with |- ?m ?w = _ => let v := eval vm_compute in (m w) in exact (eq_refl v <: m w = v) end
  | discriminate ].
Ltac run i :=
  eapply rtc_l;
  [ first
    [ eapply (pstep_act _ i); [reflexivity | run_atomic]
    | eapply (pstep_spawn _ i); reflexivity ]
  | cbn [insert list_insert] ].

(** The context of the timeout ends first. *)
Ltac run_late i :=
  eapply rtc_l;
  [ eapply (pstep_act _ i _ _ _ _ (CtxDone context_DeadlineExceeded));
    [reflexivity | split; [split; [vm_compute; discriminate | reflexivity] | reflexivity]]
  | cbn [insert list_insert] ].

(** The result of the operation comes first. *)
Ltac run_done i :=
  eapply rtc_l;
  [ eapply (pstep_act _ i _ _ _ _ (OpDone None)); [reflexivity | split; [reflexivity|]];
    match goal with |- _ = ?x => let v := eval vm_compute in x in exact (eq_refl v <: v = x) end
  | cbn [insert list_insert] ].

(** The first goroutine is inside of its operation; the second finds the bulkhead full and is
    through. *)
Lemma one_inside :
  ∃ s, rtc pstep (demo (EX.NewExecutor patterns) (all_tracked p_count (two quick))) s ∧
    load p_count s.2 = 1 ∧ BH.rejected (load p_bulkhead s.2) = 1 ∧ (finished <$> s.1) = [false; true].
Proof.
  eexists. split.
  - do 6 run 0%nat. do 5 run 1%nat. apply rtc_refl.
  - split_and!; vm_compute; reflexivity.
Qed.

(** With a timeout, two operations run at the same time in a bulkhead for one: the first has been
    given up, and its slot given back. *)
Lemma timeout_exceeds_limit :
  ∃ s, rtc pstep (demo (EX.NewExecutor [EX.WithTimeout Second; EX.WithBulkhead p_bulkhead])
      (all_tracked p_count (two quick))) s ∧
    load p_count s.2 = 2 ∧ BH.MaxConcurrent (BH.config (load p_bulkhead s.2)) = 1.
Proof.
  eexists. split.
  - do 5 run 0%nat. run 2%nat. run_late 0%nat. do 2 run 0%nat. do 5 run 1%nat. run 3%nat. apply rtc_refl.
  - split; vm_compute; reflexivity.
Qed.

(** All patterns on: the timeout gives up three attempts of the first call, and their operations
    still run when both calls are through, with all slots free; the second call succeeds, as the
    probe of the breaker that the first has opened. *)
Definition everything : EX.Executor (World shared) := EX.NewExecutor (EX.WithTimeout Second :: patterns).

Lemma abandoned_attempts :
  ∃ s, rtc pstep (demo everything (all_tracked p_count (two quick))) s ∧
    load p_count s.2 = 3 ∧ CB.state (load p_breaker s.2) = CB.StateClosed ∧
    finished <$> s.1 = [true; true; false; false; false; true].
Proof.
  eexists. split.
  - do 8 run 0%nat. run 2%nat. run_late 0%nat. do 5 run 0%nat. run 3%nat. run_late 0%nat.
    do 5 run 0%nat. run 4%nat. run_late 0%nat. do 3 run 0%nat.
    do 8 run 1%nat. do 3 run 5%nat. run_done 1%nat. do 3 run 1%nat. apply rtc_refl.
  - split_and!; vm_compute; reflexivity.
Qed.

Lemma frame_unseen {W S : Type} `{GoEnv W} (p : Ptr W S) : EnvFrame p → SelectFrame p → runtime_unseen (load p).
Proof. intros Hp Hs. split; intros; first [apply Hp | apply Hs]. Qed.

Lemma pair_unseen {W O O' : Type} `{GoEnv W} (f : W → O) (g : W → O') :
  runtime_unseen f → runtime_unseen g → runtime_unseen (λ w, (f w, g w)).
Proof. intros [] []. split; intros; f_equal; auto. Qed.

Lemma demo_unseen : runtime_unseen (load p_limiter) ∧ runtime_unseen (load p_bulkhead) ∧
  runtime_unseen (load p_breaker) ∧ runtime_unseen (load p_count).
Proof. split_and!; apply frame_unseen; unfold p_limiter, p_bulkhead, p_breaker, p_count; apply _. Qed.

(** What is looked at in the demonstration is behind other pointers than the channels and the
    counter. *)
Lemma demo_private {O : Type} (obs : World shared → O) :
  runtime_unseen obs → unseen obs p_chan → unseen obs p_count →
  private no_callback p_chan obs (all_tracked p_count (two quick)).
Proof.
  intros Henv Hch Hcount. split; [done..|].
  assert (acts (stays obs) (tracked p_count quick)) as Hop.
  { apply acts_bind; [|intros _; apply acts_defer; [|done]];
      (apply acts_atomic; intros w o w' [HE _]; injection HE as _ <-; apply Hcount). }
  repeat constructor; apply Hop.
Qed.

Lemma demo_distinct (l : list (EX.ExecutorOption (World shared))) (Hl : l = patterns ∨ l = EX.WithTimeout Second :: patterns) :
  distinct_parts (EX.NewExecutor l).
Proof. destruct Hl as [-> | ->]; split; intros p q [= <-] [= <-]; split; done. Qed.

Lemma pool_is_components_witness :
  ∃ s, rtc pstep (demo everything (all_tracked p_count (two quick))) s ∧ load p_count s.2 = 3 ∧
    (∃ pcs, BH.reachable one_slot 2 (load p_bulkhead s.2, pcs) ∧ BH.drained (load p_bulkhead s.2, pcs)) ∧
    breaker_run (load p_breaker (slow_world 0)) (load p_breaker s.2) ∧
    limiter_run (load p_limiter (slow_world 0)) (load p_limiter s.2).
Proof.
  destruct abandoned_attempts as (s & Hr & Hcount & _ & Hfin). exists s. destruct demo_unseen as (H1 & H2 & H3 & _).
  destruct (pool_is_components AMD64 no_callback late p_chan everything
    (all_tracked p_count (two quick)) (slow_world 0) s) as (Hb & Hc & Hl).
  - apply demo_distinct. by right.
  - vm_compute. discriminate.
  - exact Hr.
  - split_and!; [done..| | |].
    + destruct (Hb p_bulkhead one_slot) as (pcs & Hreach & _ & Hdrained); [done|by apply demo_private|done|].
      exists pcs. split; [exact Hreach|]. apply Hdrained. intros i q Hq Hi.
      apply (f_equal (.!! i)) in Hfin. rewrite list_lookup_fmap, Hq in Hfin.
      destruct i as [|[|i]]; simpl in Hi; [by injection Hfin..|lia].
    + apply (Hc p_breaker); [done | by apply demo_private].
    + apply (Hl p_limiter); [done | by apply demo_private].
Defined.

Lemma operations_limited_witness :
  ∃ s, rtc pstep (demo (EX.NewExecutor patterns) (all_tracked p_count (two quick))) s ∧
    load p_count s.2 = 1 ∧ 0 ≤ load p_count s.2 ≤ 1.
Proof.
  destruct one_inside as (s & Hr & Hcount & _). exists s. destruct demo_unseen as (_ & H2 & _ & H4).
  split; [exact Hr|]. split; [exact Hcount|].
  apply (operations_limited AMD64 no_callback late p_chan (EX.NewExecutor patterns) p_bulkhead one_slot p_count
    (two quick) (slow_world 0) s); try done.
  - apply demo_distinct. by left.
  - by intros p [= <-].
  - by intros p [= <-].
  - split; [by apply pair_unseen | done | done | repeat constructor].
Defined.

(** An operation that fails as often as the counter says. *)
Definition countdown : Go (World shared) (option error) := go_lift (λ w,
  if 0 <? load p_count w then (Some EX.oops, store p_count (load p_count w - 1) w) else (None, w)).

Lemma run_alone_witness :
  settles (Execute AMD64 no_callback late p_chan (EX.NewExecutor patterns) (atomic countdown)) (slow_world 2)
    (Ret None) (EX.Execute AMD64 (EX.NewExecutor patterns) countdown (slow_world 2)).2 ∧
  total (EX.Execute AMD64 (EX.NewExecutor patterns) countdown).
Proof.
  destruct (run_alone AMD64 no_callback late p_chan (EX.NewExecutor patterns) countdown (atomic countdown))
    as [Hrun Htotal].
  - done.
  - intros r f n err d [= <-] [=].
  - done.
  - apply acts_atomic, deterministic_ends_in.
  - apply sim_atomic.
  - split.
    + apply (Hrun (slow_world 2) (Val None)).
      assert ((EX.Execute AMD64 (EX.NewExecutor patterns) countdown (slow_world 2)).1 = Val None) as <-
        by (vm_compute; reflexivity).
      apply surjective_pairing.
    + apply Htotal.
      * intros r [= <-]. split; [|by intros f [=]]. apply RT.new_retry_inv. by vm_compute.
      * intros w w'. unfold countdown, go_lift. by destruct (0 <? load p_count w).
Defined.
End EP.
