(* ===== verification/Cache.v ===== *)
(** * cache/cache.go, policy.go, memory.go, middleware.go: the result cache

    [Cache] and [Keyer] are the interfaces of the Go package, as records of operations;
    [CacheSpec] states what the middleware may rely on, and [MemoryCache] implements it.
    A cached value is a slice, a reference to bytes that its callers share ([slice]).
    [Get] of the memory cache takes its mutex twice: the section [Interleavings] has its
    steps apart. *)

From S2P Require Import Prelude.
From S2P Require Import GoRuntime.
From S2P Require Import GoString.
Local Open Scope Z_scope.
Local Open Scope stdpp_scope.

Module CA.

(** ** Keys *)

Definition MaxKeyLength : nat := 512.

Definition ErrNilCache : error := Sentinel "cache: cache is nil".
Definition ErrInvalidKey : error := Sentinel "cache: key is invalid".
Definition ErrKeyTooLong : error := Sentinel "cache: key exceeds max length".

Definition ValidateKey (key : string) : option error :=
  if bool_decide (key = "") || bool_decide (TrimSpace key = "") then Some ErrInvalidKey
  else if (MaxKeyLength <? String.length key)%nat then Some ErrKeyTooLong
  else if ContainsAny key (utf8 [10; 13]%nat) then Some ErrInvalidKey
  else None.

(** ** Slices

    A [[]byte] is a reference: the array it points into, and the part of it.  The package passes
    slices on; it neither copies one nor reads or writes through it. *)

Record slice := MkSlice { array : nat; lo : nat; len : nat }.

(** The arrays of the program, and the bytes a slice shows. *)
Abbreviation heap := (gmap nat (list Byte.byte)) (only parsing).

Definition contents (h : heap) (s : slice) : list Byte.byte :=
  take (len s) (drop (lo s) (default [] (h !! array s))).

(** [s[i] = b] *)
Definition assign (s : slice) (i : nat) (b : Byte.byte) (h : heap) : heap :=
  alter (λ a, <[(lo s + i)%nat := b]> a) (array s) h.

(** ** Policy *)

Record Policy := MkPolicy {
  DefaultTTL : Duration;
  MaxTTL : Duration;
  AllowUnsafe : bool;
}.

Definition DefaultPolicy : Policy := MkPolicy (5 * Minute) (1 * Hour) false.
Definition NoCachePolicy : Policy := MkPolicy 0 0 false.

Definition ShouldCache (p : Policy) : bool := 0 <? DefaultTTL p.

Definition EffectiveTTL (p : Policy) (override : Duration) : Duration :=
  let ttl := override in
  let ttl := if ttl <=? 0 then DefaultTTL p else ttl in
  if (0 <? MaxTTL p) && (MaxTTL p <? ttl) then MaxTTL p else ttl.

(** ** The interface *)

Record Cache (W : Type) := MkCache {
  Get : string → Go W (option slice);
  Set_ : string → slice → Duration → Go W (option error);
  Delete : string → Go W (option error);
}.
Arguments MkCache {W} _ _ _.
Arguments Get {W} _ _.
Arguments Set_ {W} _ _ _ _.
Arguments Delete {W} _ _.

(** What a client relies on: [holds k v exp w] says that in [w] the cache holds [v] for
    the key [k] until [exp]. *)
Class CacheSpec {W : Type} `{GoEnv W} (c : Cache W) := {
  holds : string → slice → Time → W → Prop;
  set_holds k v ttl w :
    0 < ttl → ∃ w', Set_ c k v ttl w = (Val None, w') ∧
      holds k v (time_Add (env_now w).1 ttl) w';
  get_hit k v exp w :
    holds k v exp w → (env_now w).1 ≤ exp →
    ∃ w', Get c k w = (Val (Some v), w') ∧ holds k v exp w';
  get_found k v w w' : Get c k w = (Val (Some v), w') → ∃ exp, holds k v exp w';
  get_total k w : ∃ r w', Get c k w = (Val r, w');
}.

(** ** The memory cache *)

Record cacheEntry := MkEntry { value : slice; expiresAt : Time }.

Record MemoryCache := MkMC {
  entries : gmap string cacheEntry;
  policy : Policy;
}.

Definition NewMemoryCache (p : Policy) : MemoryCache := MkMC ∅ p.

(** Assignments to the map. *)
Definition put (key : string) (e : cacheEntry) (mc : MemoryCache) : MemoryCache :=
  MkMC (<[key:=e]> (entries mc)) (policy mc).
Definition remove (key : string) (mc : MemoryCache) : MemoryCache :=
  MkMC (delete key (entries mc)) (policy mc).

Section MemoryCache.
Context {W : Type} `{GoEnv W} (p : Ptr W MemoryCache).

Definition mc_Get (key : string) : Go W (option slice) :=
  entry ← go_get (λ w, entries (load p w) !! key);
  match entry with
  | None => mret None
  | Some e =>
      now ← time_Now;
      if time_After now (expiresAt e) then
        _ ← locked p (λ mc, ((), remove key mc));
        mret None
      else mret (Some (value e))
  end.

Definition mc_Set (key : string) (v : slice) (ttl : Duration) : Go W (option error) :=
  if ttl <=? 0 then mret None
  else
    now ← time_Now;
    _ ← locked p (λ mc, ((), put key (MkEntry v (time_Add now ttl)) mc));
    mret None.

Definition mc_Delete (key : string) : Go W (option error) :=
  _ ← locked p (λ mc, ((), remove key mc));
  mret None.

Definition MemoryCache_Cache : Cache W := MkCache mc_Get mc_Set mc_Delete.

Lemma mc_Get_unfold key w :
  mc_Get key w =
    match entries (load p w) !! key with
    | None => (Val None, w)
    | Some e =>
        let '(now, w1) := env_now w in
        if time_After now (expiresAt e) then (Val None, store p (remove key (load p w1)) w1)
        else (Val (Some (value e)), w1)
    end.
Proof.
  unfold mc_Get, go_get, time_Now, locked, go_lift, mbind, go_bind, mret, go_ret.
  destruct (entries (load p w) !! key) as [e|]; [|done].
  destruct (env_now w) as [now w1]. by destruct (time_After now (expiresAt e)).
Qed.

Lemma mc_Set_unfold key v ttl w :
  0 < ttl →
  mc_Set key v ttl w =
    let '(now, w1) := env_now w in
    (Val None, store p (put key (MkEntry v (time_Add now ttl)) (load p w1)) w1).
Proof.
  intros Ht. unfold mc_Set. rewrite (proj2 (Z.leb_gt _ _)) by done.
  unfold time_Now, locked, go_lift, mbind, go_bind, mret, go_ret. by destruct (env_now w).
Qed.
End MemoryCache.

(** The memory cache has the promised behaviour. *)
#[global] Instance MemoryCache_spec {W} `{GoEnv W} (p : Ptr W MemoryCache) :
  EnvFrame p → CacheSpec (MemoryCache_Cache p).
Proof.
  intros Hf.
  refine {| holds k v exp w := entries (load p w) !! k = Some (MkEntry v exp) |}; simpl.
  - intros k v ttl w Ht. rewrite mc_Set_unfold by done.
    destruct (env_now w) as [now w1]. eexists. split; [done|].
    rewrite load_store. simpl. by rewrite lookup_insert_eq.
  - intros k v exp w Hh Hnow. rewrite mc_Get_unfold, Hh.
    pose proof (frame_now w) as Hw. destruct (env_now w) as [now w1]. simpl in *.
    unfold time_After. rewrite (proj2 (Z.ltb_ge _ _)) by done. eexists. split; [done|].
    by rewrite Hw.
  - intros k v w w'. rewrite mc_Get_unfold.
    destruct (entries (load p w) !! k) as [[v' exp]|] eqn:E; [|done].
    pose proof (frame_now w) as Hw. destruct (env_now w) as [now w1]. simpl in *.
    destruct (time_After now exp); [done|]. intros. simplify_eq. exists exp. by rewrite Hw.
  - intros k w. rewrite mc_Get_unfold.
    destruct (entries (load p w) !! k) as [e|]; [|eauto].
    destruct (env_now w) as [now w1]. destruct (time_After now (expiresAt e)); eauto.
Defined.

(** ** The middleware *)

Definition UnsafeTags : list string := ["write"; "danger"; "unsafe"; "mutation"; "delete"].

Definition DefaultSkipRule (toolID : string) (tags : list string) : bool :=
  existsb (λ tag, let tagLower := ToLower tag in
    existsb (λ unsafe, bool_decide (tagLower = unsafe)) UnsafeTags) tags.

Section Middleware.
Context {W any : Type}.

Definition ExecutorFunc : Type := string → any → Go W (slice * option error).

(** The interface [Keyer]. *)
Definition Keyer : Type := string → any → string + error.

Record CacheMiddleware := MkCM {
  cache : Cache W;
  keyer : Keyer;
  cm_policy : Policy;
  skipRule : string → list string → bool;
}.

Definition NewCacheMiddleware (c : Cache W) (k : Keyer) (p : Policy)
    (rule : option (string → list string → bool)) : CacheMiddleware :=
  MkCM c k p (match rule with None => DefaultSkipRule | Some r => r end).

Definition Execute (m : CacheMiddleware) (toolID : string) (input : any) (tags : list string)
    (executor : ExecutorFunc) : Go W (slice * option error) :=
  if negb (AllowUnsafe (cm_policy m)) && skipRule m toolID tags then executor toolID input
  else if negb (ShouldCache (cm_policy m)) then executor toolID input
  else
    match keyer m toolID input with
    | inr err => executor toolID input
    | inl key =>
        cached ← Get (cache m) key;
        match cached with
        | Some v => mret (v, None)
        | None =>
            res ← executor toolID input;
            let '(result, err) := res in
            match err with
            | Some _ => mret (result, err)
            | None =>
                let ttl := EffectiveTTL (cm_policy m) 0 in
                _ ← (if 0 <? ttl then Set_ (cache m) key result ttl else mret None);
                mret (result, None)
            end
        end
    end.
End Middleware.
Arguments ExecutorFunc : clear implicits.
Arguments Keyer : clear implicits.
Arguments CacheMiddleware : clear implicits.

(** ** Slices *)

Lemma assign_contents s i b h a :
  h !! array s = Some a → (i < len s)%nat →
  contents (assign s i b h) s = <[i := b]> (contents h s).
Proof.
  intros Ha Hi. unfold contents, assign. rewrite lookup_alter_eq, Ha. simpl.
  rewrite drop_insert_ge by lia. replace (lo s + i - lo s)%nat with i by lia.
  by rewrite take_insert_lt.
Qed.

(** Slices of other arrays do not change. *)
Lemma assign_apart s s' i b h : array s ≠ array s' → contents (assign s i b h) s' = contents h s'.
Proof. intros Hne. unfold contents, assign. by rewrite lookup_alter_ne. Qed.

(** ** Policies *)

Lemma EffectiveTTL_range p override :
  0 < DefaultTTL p →
  0 < EffectiveTTL p override ∧ (0 < MaxTTL p → EffectiveTTL p override ≤ MaxTTL p).
Proof.
  intros Hd. unfold EffectiveTTL. destruct (override <=? 0) eqn:E; zbool;
  destruct (0 <? MaxTTL p) eqn:E1; simpl; zbool; try destruct (MaxTTL p <? _) eqn:E2; zbool; lia.
Qed.

Lemma DefaultSkipRule_spec toolID tags :
  DefaultSkipRule toolID tags = true ↔ ∃ tag, tag ∈ tags ∧ ToLower tag ∈ UnsafeTags.
Proof.
  unfold DefaultSkipRule. rewrite existsb_true_iff.
  setoid_rewrite existsb_true_iff. setoid_rewrite bool_decide_eq_true.
  split; [intros (tag & Ht & u & Hu & <-) | intros (tag & Ht & Hu)]; eauto.
Qed.

(** ** The contract of the middleware *)

Section Contract.
Context {W any : Type} `{GoEnv W} (m : CacheMiddleware W any) `{!CacheSpec (cache m)}.

(** The middleware uses its cache for a call. *)
Definition cacheable (toolID : string) (input : any) (tags : list string) (key : string) : Prop :=
  (AllowUnsafe (cm_policy m) = true ∨ skipRule m toolID tags = false) ∧
  0 < DefaultTTL (cm_policy m) ∧ keyer m toolID input = inl key.

Lemma Execute_cacheable toolID input tags key ex w :
  cacheable toolID input tags key →
  Execute m toolID input tags ex w =
    match Get (cache m) key w with
    | (Val (Some v), w1) => (Val (v, None), w1)
    | (Val None, w1) =>
        match ex toolID input w1 with
        | (Val (result, Some err), w2) => (Val (result, Some err), w2)
        | (Val (result, None), w2) =>
            match Set_ (cache m) key result (EffectiveTTL (cm_policy m) 0) w2 with
            | (Val _, w3) => (Val (result, None), w3)
            | (Panic msg, w3) => (Panic msg, w3)
            | (OutOfFuel, w3) => (OutOfFuel, w3)
            end
        | (Panic msg, w2) => (Panic msg, w2)
        | (OutOfFuel, w2) => (OutOfFuel, w2)
        end
    | (Panic msg, w1) => (Panic msg, w1)
    | (OutOfFuel, w1) => (OutOfFuel, w1)
    end.
Proof.
  intros (Hskip & Hd & Hk). unfold Execute.
  assert (negb (AllowUnsafe (cm_policy m)) && skipRule m toolID tags = false) as ->
    by (destruct Hskip as [-> | ->]; [done | by rewrite andb_false_r]).
  unfold ShouldCache. rewrite (proj2 (Z.ltb_lt _ _)) by done. simpl. rewrite Hk.
  unfold mbind at 1, go_bind at 1. destruct (Get (cache m) key w) as [[[v|]|msg|] w1]; try done.
  unfold mbind at 1, go_bind at 1. destruct (ex toolID input w1) as [[[r [e|]]|msg|] w2]; try done.
  rewrite (proj2 (Z.ltb_lt _ _)) by (by apply EffectiveTTL_range).
  unfold mbind, go_bind. by destruct (Set_ _ _ _ _ _) as [[x|msg|] w3].
Qed.

(** C6. A successful result is stored, and later calls for the same tool and input return
    it without running the executor, until it expires, as long as the entry is there. *)
Theorem cached_result_reused toolID input tags key ex w r w1 :
  cacheable toolID input tags key →
  Execute m toolID input tags ex w = (Val (r, None), w1) →
  ∃ exp, holds key r exp w1 ∧
    ∀ ex' w2, holds key r exp w2 → (env_now w2).1 ≤ exp →
      ∃ w3, Execute m toolID input tags ex' w2 = (Val (r, None), w3) ∧ holds key r exp w3.
Proof.
  intros Hc. rewrite (Execute_cacheable _ _ _ key) by done. intros HE.
  assert (∃ exp, holds key r exp w1) as [exp Hh].
  { destruct (Get (cache m) key w) as [[[v|]|msg|] w0] eqn:EG; simplify_eq.
    - by eapply get_found.
    - destruct (ex toolID input w0) as [[[r' [e|]]|msg|] w2] eqn:EX; simplify_eq.
      destruct (set_holds (c:=cache m) key r' (EffectiveTTL (cm_policy m) 0) w2) as (w' & HS & Hh).
      { apply EffectiveTTL_range. apply Hc. }
      rewrite HS in HE. simplify_eq. eauto. }
  exists exp. split; [done|]. intros ex' w2 Hh2 Hnow.
  destruct (get_hit (c:=cache m) key r exp w2 Hh2 Hnow) as (w3 & HG & Hh3).
  exists w3. rewrite (Execute_cacheable _ _ _ key), HG by done. done.
Qed.

(** Every hit answers with the stored slice itself, not with a copy: what one caller assigns
    to a byte of its result, all later ones read, until the entry expires. *)
Lemma hits_share_result toolID input tags key ex r exp w a h i b :
  cacheable toolID input tags key → holds key r exp w → (env_now w).1 ≤ exp →
  h !! array r = Some a → (i < len r)%nat →
  ∃ w', Execute m toolID input tags ex w = (Val (r, None), w') ∧
    contents (assign r i b h) r = <[i := b]> (contents h r).
Proof.
  intros Hc Hh Hnow Ha Hi. destruct (get_hit (c:=cache m) key r exp w Hh Hnow) as (w' & HG & _).
  exists w'. rewrite (Execute_cacheable _ _ _ key), HG by done. split; [done|]. by eapply assign_contents.
Qed.

(** An error is returned as the executor gave it and stores nothing: after the lookup,
    the call is the executor's. *)
Theorem errors_not_cached toolID input tags key ex w r err w' :
  cacheable toolID input tags key →
  Execute m toolID input tags ex w = (Val (r, Some err), w') →
  ∃ w1, Get (cache m) key w = (Val None, w1) ∧ ex toolID input w1 = (Val (r, Some err), w').
Proof.
  intros Hc. rewrite (Execute_cacheable _ _ _ key) by done. intros HE.
  destruct (Get (cache m) key w) as [[[v|]|msg|] w1]; simplify_eq. exists w1. split; [done|].
  destruct (ex toolID input w1) as [[[r' [e|]]|msg|] w2]; simplify_eq; [done|].
  by destruct (Set_ _ _ _ _ _) as [[x|msg|] w3].
Qed.
End Contract.

(** A tool with an unsafe tag is never cached by default: the call is the executor's,
    whatever the cache holds; so it is when the policy disables caching, and when the key
    cannot be made. *)
Theorem uncached_is_executor {W any} (m : CacheMiddleware W any) toolID input tags ex :
  (AllowUnsafe (cm_policy m) = false ∧ skipRule m = DefaultSkipRule ∧
     ∃ tag, tag ∈ tags ∧ ToLower tag ∈ UnsafeTags)
  ∨ DefaultTTL (cm_policy m) ≤ 0 ∨ (∃ err, keyer m toolID input = inr err) →
  Execute m toolID input tags ex ≡ ex toolID input.
Proof.
  intros Hc w. unfold Execute, ShouldCache.
  destruct Hc as [(Ha & Hs & Ht) | [Hd | [err Hk]]].
  - rewrite Ha, Hs. by rewrite (proj2 (DefaultSkipRule_spec toolID tags) Ht).
  - rewrite (proj2 (Z.ltb_ge _ _)) by done. by destruct (_ && _).
  - rewrite Hk. by destruct (negb (AllowUnsafe (cm_policy m)) && skipRule m toolID tags),
      (negb (0 <? DefaultTTL (cm_policy m))).
Qed.

(** ** The memory cache as a sequence of operations *)

(** The last write to [k]: a [Set] that stores, or a [Delete]. *)
Inductive op :=
| OSet (now : Time) (k : string) (v : slice) (ttl : Duration)
| ODelete (k : string)
| OGet (now : Time) (k : string).

Definition last_write (k : string) (ops : list op) : option cacheEntry :=
  foldl (λ acc o,
    match o with
    | OSet now k' v ttl =>
        if bool_decide (k' = k) && (0 <? ttl) then Some (MkEntry v (time_Add now ttl)) else acc
    | ODelete k' => if bool_decide (k' = k) then None else acc
    | OGet _ _ => acc
    end) None ops.

Lemma last_write_snoc k ops o :
  last_write k (ops ++ [o]) =
    match o with
    | OSet now k' v ttl =>
        if bool_decide (k' = k) && (0 <? ttl) then Some (MkEntry v (time_Add now ttl))
        else last_write k ops
    | ODelete k' => if bool_decide (k' = k) then None else last_write k ops
    | OGet _ _ => last_write k ops
    end.
Proof. unfold last_write. by rewrite foldl_app. Qed.

(** One operation, run to its end, with the clock at [now]. *)
Definition get_at (now : Time) (k : string) (mc : MemoryCache) : option slice * MemoryCache :=
  match entries mc !! k with
  | None => (None, mc)
  | Some e => if time_After now (expiresAt e) then (None, remove k mc) else (Some (value e), mc)
  end.

Definition op_step (o : op) (mc : MemoryCache) : MemoryCache :=
  match o with
  | OSet now k v ttl => if ttl <=? 0 then mc else put k (MkEntry v (time_Add now ttl)) mc
  | ODelete k => remove k mc
  | OGet now k => (get_at now k mc).2
  end.

(** These are the operations of the program. *)
Lemma mc_Get_at {W} `{GoEnv W} (p : Ptr W MemoryCache) k w :
  EnvFrame p →
  let '(r, mc) := get_at (env_now w).1 k (load p w) in
  ∃ w', mc_Get p k w = (Val r, w') ∧ load p w' = mc.
Proof.
  intros Hf. rewrite mc_Get_unfold. unfold get_at.
  destruct (entries (load p w) !! k) as [e|]; [|by eexists].
  pose proof (frame_now w) as Hw. destruct (env_now w) as [now w1]. simpl in *.
  destruct (time_After now (expiresAt e)); eexists; (split; [done|]); [|done].
  by rewrite load_store, Hw.
Qed.

Definition op_time (o : op) : option Time :=
  match o with OSet now _ _ _ | OGet now _ => Some now | ODelete _ => None end.

(** The clock readings do not decrease, and none is later than [t]. *)
Inductive clocked : list op → Time → Prop :=
| clocked_nil t : clocked [] t
| clocked_snoc ops o t t' :
    clocked ops t → t ≤ t' → (∀ now, op_time o = Some now → t ≤ now ≤ t') →
    clocked (ops ++ [o]) t'.

(** The map against the history: an entry is the last write, and a write that is missing
    from the map has expired. *)
Definition tracks (ops : list op) (t : Time) (mc : MemoryCache) : Prop := ∀ k,
  match last_write k ops with
  | Some e => entries mc !! k = Some e ∨ (entries mc !! k = None ∧ expiresAt e < t)
  | None => entries mc !! k = None
  end.

Lemma op_step_tracks ops t o t' mc :
  tracks ops t mc → t ≤ t' → (∀ now, op_time o = Some now → t ≤ now ≤ t') →
  tracks (ops ++ [o]) t' (op_step o mc).
Proof.
  intros Hmc Ht Ho k. rewrite last_write_snoc. specialize (Hmc k) as Hk.
  assert (match last_write k ops with
    | Some e => entries mc !! k = Some e ∨ (entries mc !! k = None ∧ expiresAt e < t')
    | None => entries mc !! k = None
    end) as Hk' by (destruct (last_write k ops); [|done]; destruct Hk as [?|[? ?]]; [auto | right; split; [done|lia]]).
  destruct o as [now k' v ttl|k'|now k']; simpl.
  - destruct (Z.leb_spec ttl 0).
    { rewrite (proj2 (Z.ltb_ge _ _)) by done. by rewrite andb_false_r. }
    rewrite (proj2 (Z.ltb_lt _ _)) by done. rewrite andb_true_r. unfold put. simpl.
    case_bool_decide; subst; [left; by rewrite lookup_insert_eq | by rewrite lookup_insert_ne].
  - unfold remove. simpl.
    case_bool_decide; subst; [by rewrite lookup_delete_eq | by rewrite lookup_delete_ne].
  - unfold get_at. destruct (entries mc !! k') as [e|] eqn:E; [|done].
    destruct (time_After now (expiresAt e)) eqn:Ea; [|done]. unfold time_After, remove in *. zbool. simpl.
    destruct (decide (k' = k)) as [->|Hne]; [|by rewrite lookup_delete_ne].
    rewrite lookup_delete_eq. destruct (last_write k ops) as [e'|]; [|done]. right. split; [done|].
    specialize (Ho now eq_refl). destruct Hk as [?|[? ?]]; [simplify_eq; lia | lia].
Qed.

Lemma run_tracks pol ops t :
  clocked ops t → tracks ops t (run_steps op_step ops (NewMemoryCache pol)).
Proof.
  induction 1 as [t | ops o t t' _ IH Ht Ho]; [by intros k|].
  rewrite run_steps_app. simpl. by eapply op_step_tracks.
Qed.

(** C33. After any sequence of operations with a clock that does not go back, a lookup
    answers with the last value stored for the key, exactly when nothing deleted it since
    and it has not expired. *)
Theorem Get_answers_last_write pol ops t now k :
  clocked ops t → t ≤ now →
  (get_at now k (run_steps op_step ops (NewMemoryCache pol))).1 =
    match last_write k ops with
    | Some e => if now <=? expiresAt e then Some (value e) else None
    | None => None
    end.
Proof.
  intros Hc Ht. pose proof (run_tracks pol ops t Hc k) as Hk. unfold get_at.
  destruct (last_write k ops) as [e|]; [|by rewrite Hk].
  destruct Hk as [-> | [-> He]]; simpl.
  - unfold time_After. destruct (expiresAt e <? now) eqn:E, (now <=? expiresAt e) eqn:E'; zbool; first [done | lia].
  - rewrite (proj2 (Z.leb_gt _ _)) by lia. done.
Qed.

(** ** Interleavings

    [Get] looks the entry up under the read lock, tests its expiry outside of any lock, and
    deletes an expired entry under the write lock. *)

(** A goroutine inside [Get]. *)
Inductive pc :=
| Found (k : string) (e : cacheEntry)
| Expired (k : string).

Inductive event :=
| EvOp (o : op)                        (* [Set] and [Delete]: one critical section *)
| EvLookup (i : nat) (k : string)
| EvTest (i : nat) (now : Time)
| EvClean (i : nat).

Record sys := MkSys { mc : MemoryCache; gets : gmap nat pc }.

Definition ev_step (e : event) (s : sys) : sys :=
  match e with
  | EvOp o => match o with OGet _ _ => s | _ => MkSys (op_step o (mc s)) (gets s) end
  | EvLookup i k =>
      match entries (mc s) !! k with
      | Some e => MkSys (mc s) (<[i:=Found k e]> (gets s))
      | None => MkSys (mc s) (delete i (gets s))
      end
  | EvTest i now =>
      match gets s !! i with
      | Some (Found k e) =>
          if time_After now (expiresAt e) then MkSys (mc s) (<[i:=Expired k]> (gets s))
          else MkSys (mc s) (delete i (gets s))
      | _ => s
      end
  | EvClean i =>
      match gets s !! i with
      | Some (Expired k) => MkSys (remove k (mc s)) (delete i (gets s))
      | _ => s
      end
  end.

(** The writes of a history. *)
Definition writes (es : list event) : list op :=
  omap (λ e, match e with EvOp o => Some o | _ => None end) es.

Definition run (pol : Policy) (es : list event) : sys :=
  run_steps ev_step es (MkSys (NewMemoryCache pol) ∅).

Lemma run_snoc pol es e : run pol (es ++ [e]) = ev_step e (run pol es).
Proof. unfold run. by rewrite run_steps_app. Qed.

Lemma writes_snoc es e :
  writes (es ++ [e]) = writes es ++ match e with EvOp o => [o] | _ => [] end.
Proof. unfold writes. rewrite omap_app. by destruct e. Qed.

Lemma entries_are_last_writes pol es k e :
  entries (mc (run pol es)) !! k = Some e → last_write k (writes es) = Some e.
Proof.
  revert k e. induction es as [|ev es IH] using rev_ind; intros k e; [done|].
  rewrite run_snoc, writes_snoc. destruct ev as [o|i k'|i now|i]; simpl; rewrite ?app_nil_r.
  - rewrite last_write_snoc. destruct o as [now k' v ttl|k'|now k']; simpl; [| |by apply IH].
    + destruct (Z.leb_spec ttl 0).
      { rewrite (proj2 (Z.ltb_ge _ _)), andb_false_r by done. apply IH. }
      rewrite (proj2 (Z.ltb_lt _ _)), andb_true_r by done. unfold put. simpl.
      case_bool_decide; subst; [by rewrite lookup_insert_eq | rewrite lookup_insert_ne by done; apply IH].
    + unfold remove. simpl.
      case_bool_decide; subst; [by rewrite lookup_delete_eq | rewrite lookup_delete_ne by done; apply IH].
  - destruct (entries _ !! k'); apply IH.
  - destruct (gets _ !! i) as [[k' e'|k']|]; [|apply IH..].
    destruct (time_After _ _); apply IH.
  - destruct (gets _ !! i) as [[k' e'|k']|]; [apply IH| |apply IH].
    simpl. intros [_ ?]%lookup_delete_Some. by apply IH.
Qed.

(** In every interleaving, an entry that a lookup finds is the last one written for its
    key before the lookup: no [Get] returns a value that was overwritten or deleted
    before it began. *)
Theorem Get_finds_last_write pol es i k e :
  gets (run pol (es ++ [EvLookup i k])) !! i = Some (Found k e) →
  last_write k (writes es) = Some e.
Proof.
  rewrite run_snoc. simpl. destruct (entries _ !! k) as [e'|] eqn:E; simpl.
  - rewrite lookup_insert_eq. intros. simplify_eq. by eapply entries_are_last_writes.
  - by rewrite lookup_delete_eq.
Qed.

(** Slices for the examples: the first byte of an array. *)
Definition demo_slice (n : nat) : slice := MkSlice n 0 1.

(** The cleaning of an expired entry is not atomic with its lookup: a value stored in
    between is deleted with it, although it has not expired and nobody deleted it. *)
Theorem clean_loses_fresh_entry :
  ∃ es, last_write "k" (writes es) = Some (MkEntry (demo_slice 2) 1000)
    ∧ entries (mc (run DefaultPolicy es)) !! "k" = None
    ∧ ∀ e, e ∈ es → match e with
        | EvOp (OSet now _ _ _) | EvTest _ now => now ≤ 100
        | EvOp (ODelete _) => False
        | _ => True
        end.
Proof.
  exists [EvOp (OSet 0 "k" (demo_slice 1) 10); EvLookup 1 "k"; EvTest 1 100;
    EvOp (OSet 100 "k" (demo_slice 2) 900); EvClean 1].
  split; [done|]. split; [by vm_compute|].
  apply Forall_forall. repeat constructor; lia.
Qed.

(** ** Witnesses *)

Abbreviation state := MemoryCache (only parsing).

(** A keyer that answers with the tool's name. *)
Definition demo_mw (ttl : Duration) : CacheMiddleware (World MemoryCache) unit :=
  NewCacheMiddleware (MemoryCache_Cache cell) (λ id _, inl id) (MkPolicy ttl 0 false) None.

Definition demo_world : World MemoryCache := MkWorld 1000 1 [] [] 0 [] (NewMemoryCache DefaultPolicy).

Definition answer (r : slice * option error) : ExecutorFunc (World MemoryCache) unit :=
  λ _ _, mret r.

Lemma demo_cacheable ttl : 0 < ttl → cacheable (demo_mw ttl) "tool" () ["read"] "tool".
Proof. split; [by right | done]. Qed.

Lemma cached_result_reused_witness :
  ∃ w1 w3, Execute (demo_mw Second) "tool" () ["read"] (answer (demo_slice 1, None)) demo_world
      = (Val (demo_slice 1, None), w1) ∧
    Execute (demo_mw Second) "tool" () ["read"] (answer (demo_slice 2, None)) w1 = (Val (demo_slice 1, None), w3).
Proof.
  destruct (Execute (demo_mw Second) "tool" () ["read"] (answer (demo_slice 1, None)) demo_world)
    as [o w1] eqn:E.
  assert (o = Val (demo_slice 1, None)) as -> by (apply (f_equal fst) in E; vm_compute in E; done).
  destruct (cached_result_reused (demo_mw Second) "tool" () ["read"] "tool" _ _ _ _
    (demo_cacheable Second ltac:(by vm_compute)) E) as (exp & Hh & Hre).
  destruct (Hre (answer (demo_slice 2, None)) w1 Hh) as (w3 & H3 & _).
  - simpl in Hh. apply (f_equal snd) in E. simpl in E. subst w1.
    vm_compute in Hh |- *. simplify_eq. done.
  - by exists w1, w3.
Defined.

Lemma errors_not_cached_witness :
  ∃ w1, Get (cache (demo_mw Second)) "tool" demo_world = (Val None, w1) ∧
    answer (demo_slice 0, Some (Foreign 1)) "tool" () w1 =
      Execute (demo_mw Second) "tool" () ["read"] (answer (demo_slice 0, Some (Foreign 1))) demo_world.
Proof.
  destruct (Execute (demo_mw Second) "tool" () ["read"] (answer (demo_slice 0, Some (Foreign 1))) demo_world)
    as [o w1] eqn:E.
  assert (o = Val (demo_slice 0, Some (Foreign 1))) as -> by (apply (f_equal fst) in E; vm_compute in E; done).
  exact (errors_not_cached (demo_mw Second) "tool" () ["read"] "tool" _ _ _ _ _
    (demo_cacheable Second ltac:(by vm_compute)) E).
Defined.

Lemma uncached_is_executor_witness :
  Execute (demo_mw Second) "tool" () ["read"; "DELETE"] (answer (demo_slice 1, None)) demo_world
  = (Val (demo_slice 1, None), demo_world).
Proof.
  apply (uncached_is_executor (demo_mw Second) "tool" () ["read"; "DELETE"] (answer (demo_slice 1, None))).
  left. split; [done|]. split; [done|]. exists "DELETE".
  split; [by apply (bool_decide_unpack _) | by apply (bool_decide_unpack _)].
Defined.

Definition demo_ops : list op := [OSet 5 "k" (demo_slice 1) 100; OSet 6 "j" (demo_slice 2) 3; OGet 20 "j"; ODelete "j"].

Lemma demo_clocked : clocked demo_ops 20.
Proof.
  apply (clocked_snoc [OSet 5 "k" (demo_slice 1) 100; OSet 6 "j" (demo_slice 2) 3; OGet 20 "j"] _ 20 20); [|lia|done].
  apply (clocked_snoc [OSet 5 "k" (demo_slice 1) 100; OSet 6 "j" (demo_slice 2) 3] _ 6 20); [|lia|intros; simplify_eq/=; lia].
  apply (clocked_snoc [OSet 5 "k" (demo_slice 1) 100] _ 5 6); [|lia|intros; simplify_eq/=; lia].
  apply (clocked_snoc [] _ 0 5); [constructor|lia|intros; simplify_eq/=; lia].
Qed.

Lemma Get_answers_last_write_witness :
  (get_at 105 "k" (run_steps op_step demo_ops (NewMemoryCache DefaultPolicy))).1 = Some (demo_slice 1) ∧
  (get_at 106 "k" (run_steps op_step demo_ops (NewMemoryCache DefaultPolicy))).1 = None.
Proof.
  split.
  - by apply (Get_answers_last_write DefaultPolicy demo_ops 20 105 "k" demo_clocked).
  - by apply (Get_answers_last_write DefaultPolicy demo_ops 20 106 "k" demo_clocked).
Defined.

Lemma Get_finds_last_write_witness :
  last_write "k" (writes [EvOp (OSet 0 "k" (demo_slice 1) 10); EvOp (OSet 1 "k" (demo_slice 2) 10)])
  = Some (MkEntry (demo_slice 2) 11).
Proof.
  apply (Get_finds_last_write DefaultPolicy _ 1%nat "k" (MkEntry (demo_slice 2) 11)). by vm_compute.
Defined.

End CA.
