(* ===== verification/Keyer.v ===== *)
(** * cache/keyer.go: deterministic cache keys

    A value of type [any] is given with the iteration order of its maps, which Go leaves
    open; the canonical form does not depend on it.  The hash function is an argument. *)

From stdpp Require Import pretty.
From Stdlib Require Import Ascii.
From S2P Require Import Prelude.
From S2P Require Import GoRuntime.
From S2P Require Import GoString.
From S2P Require Import Cache.
Local Open Scope Z_scope.
Local Open Scope stdpp_scope.

Module KY.

(** ** JSON *)

(** The length of the UTF-8 sequence of the first rune of [s], when it is valid. *)
Definition cont (lo hi : nat) (c : ascii) : bool :=
  ((lo <=? nat_of_ascii c) && (nat_of_ascii c <=? hi))%nat.

Definition rune_len (s : string) : option nat :=
  match s with
  | String a (String b r) =>
      let n := nat_of_ascii a in
      if cont 194 223 a && cont 128 191 b then Some 2%nat
      else
        match r with
        | String c r =>
            if (bool_decide (n = 224%nat) && cont 160 191 b
                || cont 225 236 a && cont 128 191 b
                || bool_decide (n = 237%nat) && cont 128 159 b
                || cont 238 239 a && cont 128 191 b) && cont 128 191 c then Some 3%nat
            else
              match r with
              | String d _ =>
                  if (bool_decide (n = 240%nat) && cont 144 191 b
                      || cont 241 243 a && cont 128 191 b
                      || bool_decide (n = 244%nat) && cont 128 143 b)
                     && cont 128 191 c && cont 128 191 d then Some 4%nat
                  else None
              | EmptyString => None
              end
        | EmptyString => None
        end
  | _ => None
  end.

(** The escape of an ASCII character by [encoding/json] (with HTML escaping). *)
Definition json_ascii (c : ascii) : string :=
  let n := nat_of_ascii c in
  if bool_decide (n = 34%nat) || bool_decide (n = 92%nat) then backslash +:+ String c ""
  else if bool_decide (n = 8%nat) then backslash +:+ "b"
  else if bool_decide (n = 12%nat) then backslash +:+ "f"
  else if bool_decide (n = 10%nat) then backslash +:+ "n"
  else if bool_decide (n = 13%nat) then backslash +:+ "r"
  else if bool_decide (n = 9%nat) then backslash +:+ "t"
  else if (n <? 32)%nat || bool_decide (n = 60%nat) || bool_decide (n = 62%nat) || bool_decide (n = 38%nat)
  then backslash +:+ "u00" +:+ String (hex_digit (n / 16)) (String (hex_digit (n mod 16)) "")
  else String c "".

Fixpoint json_chars (fuel : nat) (s : string) : string :=
  match fuel, s with
  | S fuel, String c s' =>
      if (nat_of_ascii c <? 128)%nat then json_ascii c +:+ json_chars fuel s'
      else
        match rune_len s with
        | None => backslash +:+ "ufffd" +:+ json_chars fuel s'
        | Some n =>
            (match strip (utf8 [226; 128; 168]%nat) s, strip (utf8 [226; 128; 169]%nat) s with
             | Some _, _ => backslash +:+ "u2028"
             | _, Some _ => backslash +:+ "u2029"
             | None, None => string_take n s
             end) +:+ json_chars fuel (string_drop n s)
        end
  | _, _ => ""
  end.

(** [json.Marshal] of a string; every step consumes a byte. *)
Definition json_string (s : string) : bytes := quote +:+ json_chars (String.length s) s +:+ quote.

(** ** Values *)

#[local] Set Warnings "-register-all".

Inductive any : Type :=
| ANil
| ABool (b : bool)
| AInt (n : Z)
| AString (s : string)
| ASlice (l : list any)
| AMap (m : list (string * any))
| AOther (marshalled : bytes + error).   (* any other value: what [json.Marshal] makes of it *)

Definition json_Marshal (v : any) : bytes + error :=
  match v with
  | ABool b => inl (if b then "true" else "false")
  | AInt n => inl (pretty n)
  | AString s => inl (json_string s)
  | AOther r => r
  | _ => inl "null"
  end.

(** ** Canonical form *)

(** The loop over the sorted keys; [vals] is the map with its values made canonical. *)
Fixpoint map_loop (keys : list string) (vals : gmap string (bytes + error)) (first : bool)
    (result : bytes) : bytes + error :=
  match keys with
  | [] => inl (result +:+ "}")
  | k :: keys =>
      let result := if first then result else result +:+ "," in
      let result := result +:+ json_string k +:+ ":" in
      match default (inl "null") (vals !! k) with
      | inr err => inr err
      | inl valBytes => map_loop keys vals false (result +:+ valBytes)
      end
  end.

Definition canonicalizeMap (m : list (string * (bytes + error))) : bytes + error :=
  map_loop (sort_Strings m.*1) (list_to_map m) true "{".

Fixpoint slice_loop (l : list (bytes + error)) (first : bool) (result : bytes) : bytes + error :=
  match l with
  | [] => inl (result +:+ "]")
  | v :: l =>
      let result := if first then result else result +:+ "," in
      match v with
      | inr err => inr err
      | inl valBytes => slice_loop l false (result +:+ valBytes)
      end
  end.

Definition canonicalizeSlice (l : list (bytes + error)) : bytes + error := slice_loop l true "[".

Fixpoint canonicalize (v : any) : bytes + error :=
  match v with
  | ANil => inl "null"
  | AMap m => canonicalizeMap (map (λ '(k, v), (k, canonicalize v)) m)
  | ASlice l => canonicalizeSlice (map canonicalize l)
  | _ => json_Marshal v
  end.

Section Key.
Context (sha256_Sum256 : bytes → bytes).

Definition Key (toolID : string) (input : any) : string + error :=
  match canonicalize input with
  | inr err => inr (ErrorfW "cache: failed to canonicalize input: %w" [] err)
  | inl canonical =>
      let hash := sha256_Sum256 canonical in
      let hashStr := hex_EncodeToString (string_take 8 hash) in
      inl ("cache:" +:+ toolID +:+ ":" +:+ hashStr)
  end.

Definition DefaultKeyer : CA.Keyer any := Key.
End Key.

(** ** Values that differ in the order of their maps only *)

Inductive any_equiv : any → any → Prop :=
| equiv_refl v : any_equiv v v
| equiv_slice l1 l2 : Forall2 any_equiv l1 l2 → any_equiv (ASlice l1) (ASlice l2)
| equiv_map m1 m m2 :
    NoDup m1.*1 → m1 ≡ₚ m → Forall2 (λ x y, x.1 = y.1 ∧ any_equiv x.2 y.2) m m2 →
    any_equiv (AMap m1) (AMap m2).

#[export] Instance any_Equiv : Equiv any := any_equiv.

(** A map's canonical form depends on its set of bindings. *)
Lemma canonicalizeMap_perm m1 m2 :
  NoDup m1.*1 → m1 ≡ₚ m2 → canonicalizeMap m1 = canonicalizeMap m2.
Proof.
  intros Hnd Hp. unfold canonicalizeMap.
  rewrite (list_to_map_proper m1 m2) by done. by rewrite Hp.
Qed.

Lemma map_fst_keys (m : list (string * any)) :
  (map (λ '(k, v), (k, canonicalize v)) m).*1 = m.*1.
Proof. induction m as [|[k v] m IH]; simpl; [done | by f_equal]. Qed.

Lemma canonicalize_equiv : ∀ v1 v2, any_equiv v1 v2 → canonicalize v1 = canonicalize v2.
Proof.
  fix IH 3. intros v1 v2 [v|l1 l2 Hl|m1 m m2 Hnd Hp Hm]; simpl; [done| |].
  - f_equal. induction Hl as [|x y l1 l2 Hxy _ IHl]; simpl; [done|].
    f_equal; [by apply IH | done].
  - rewrite (canonicalizeMap_perm _ (map (λ '(k, v), (k, canonicalize v)) m)).
    + f_equal. clear Hnd Hp. induction Hm as [|[k v] [k' v'] m m2 [Hk Hv] _ IHm]; simpl; [done|].
      simpl in *. subst. f_equal; [|done]. f_equal. by apply IH.
    + by rewrite map_fst_keys.
    + by rewrite Hp.
Qed.

#[export] Instance canonicalize_proper : Proper ((≡) ==> (=)) canonicalize.
Proof. intros v1 v2. apply canonicalize_equiv. Qed.

(** C32. The key of a call is the same whatever the iteration order of the maps in its
    input, at every depth. *)
Theorem Key_deterministic sha toolID v1 v2 :
  v1 ≡ v2 → Key sha toolID v1 = Key sha toolID v2.
Proof. intros Hv. unfold Key. by rewrite Hv. Qed.

(** Sixteen hexadecimal digits. *)
Lemma length_hash (sha : bytes → bytes) :
  (∀ b, String.length (sha b) = 32%nat) →
  ∀ c, String.length (hex_EncodeToString (string_take 8 (sha c))) = 16%nat.
Proof. intros Hsha c. by rewrite length_hex, length_string_take by (rewrite Hsha; lia). Qed.

(** Keys of different tools differ; keys of one tool differ as far as the first eight
    bytes of the hashes of the canonical inputs do. *)
Theorem Key_injective sha t1 t2 v1 v2 k :
  (∀ b, String.length (sha b) = 32%nat) →
  Key sha t1 v1 = inl k → Key sha t2 v2 = inl k →
  t1 = t2 ∧ ∃ c1 c2, canonicalize v1 = inl c1 ∧ canonicalize v2 = inl c2 ∧
    hex_EncodeToString (string_take 8 (sha c1)) = hex_EncodeToString (string_take 8 (sha c2)).
Proof.
  intros Hsha. unfold Key.
  destruct (canonicalize v1) as [c1|e1]; [|done]. destruct (canonicalize v2) as [c2|e2]; [|done].
  intros <-%(inj inl) H%(inj inl). apply (inj (String.app "cache:")) in H.
  pose proof (length_hash sha Hsha) as Hlen.
  destruct (append_inj_r _ _ _ _ H) as [-> Hh].
  { rewrite !length_append, !Hlen. done. }
  apply (inj (String.app ":")) in Hh. split; [done|]. by exists c1, c2.
Qed.

Lemma length_app_lower (s t : string) : (String.length s ≤ String.length (s +:+ t))%nat.
Proof. rewrite length_append. lia. Qed.

(** The keyer does not keep its keys valid: a tool name of more than 489 bytes gives a
    key that [ValidateKey] refuses, whatever the input and the hash. *)
Theorem Key_too_long sha toolID v k :
  (∀ b, String.length (sha b) = 32%nat) → (489 < String.length toolID)%nat →
  Key sha toolID v = inl k → is_err (CA.ValidateKey k) = true.
Proof.
  intros Hsha Hl. unfold Key. destruct (canonicalize v) as [c|e]; [|done]. intros <-%(inj inl).
  unfold CA.ValidateKey, CA.MaxKeyLength. destruct (_ || _); [done|].
  rewrite (proj2 (Nat.ltb_lt _ _)); [done|].
  rewrite !length_append, length_hash by done. simpl. lia.
Qed.

(** ** Witnesses *)

(** A hash function for the examples: the first 32 bytes, padded. *)
Definition demo_sha (b : bytes) : bytes :=
  string_take 32 (b +:+ "00000000000000000000000000000000").

Lemma demo_sha_length b : String.length (demo_sha b) = 32%nat.
Proof. apply length_string_take. rewrite length_append. simpl. lia. Qed.

Definition demo_in1 : any := AMap [("b", AInt 1); ("a", ASlice [AMap [("x", ANil); ("y", AString "<")]])].
Definition demo_in2 : any := AMap [("a", ASlice [AMap [("y", AString "<"); ("x", ANil)]]); ("b", AInt 1)].

Lemma demo_equiv : demo_in1 ≡ demo_in2.
Proof.
  eapply equiv_map.
  - by apply (bool_decide_unpack _).
  - apply perm_swap.
  - repeat constructor. simpl. eapply equiv_map; [by apply (bool_decide_unpack _) | apply perm_swap|].
    repeat constructor.
Qed.

Lemma Key_deterministic_witness :
  Key demo_sha "tool" demo_in1 = Key demo_sha "tool" demo_in2 ∧
  canonicalize demo_in1 = inl ("{" +:+ quote +:+ "a" +:+ quote +:+ ":[{" +:+ quote +:+ "x" +:+ quote
    +:+ ":null," +:+ quote +:+ "y" +:+ quote +:+ ":" +:+ quote +:+ backslash +:+ "u003c" +:+ quote
    +:+ "}]," +:+ quote +:+ "b" +:+ quote +:+ ":1}").
Proof.
  split; [apply (Key_deterministic demo_sha "tool" _ _ demo_equiv) | by vm_compute].
Defined.

Lemma Key_injective_witness :
  ∃ k, Key demo_sha "tool" demo_in1 = inl k ∧
    ∃ c1 c2, canonicalize demo_in1 = inl c1 ∧ canonicalize demo_in2 = inl c2 ∧
    hex_EncodeToString (string_take 8 (demo_sha c1)) = hex_EncodeToString (string_take 8 (demo_sha c2)).
Proof.
  destruct (Key demo_sha "tool" demo_in1) as [k|] eqn:E; [|by vm_compute in E].
  exists k. split; [done|]. 
  assert (Key demo_sha "tool" demo_in2 = inl k) as E2 by (rewrite <- E; by vm_compute).
  exact (proj2 (Key_injective demo_sha "tool" "tool" demo_in1 demo_in2 k demo_sha_length E E2)).
Defined.

Definition long_name : string := Nat.iter 490 (String "x") "".

Lemma Key_too_long_witness :
  ∃ k, Key demo_sha long_name ANil = inl k ∧ is_err (CA.ValidateKey k) = true.
Proof.
  eexists. split; [reflexivity|].
  apply (Key_too_long demo_sha long_name ANil _ demo_sha_length); [|reflexivity].
  apply Nat.ltb_lt. by vm_compute.
Defined.

End KY.
