(* ===== verification/Auth.v ===== *)
(** * auth/identity.go, authenticator.go, authorizer.go, context.go, errors.go: the types
    of package [auth]

    A nil [*Identity] is [None].  An [Authenticator] is a record of operations over a
    world; a request's headers are the map of [http.Header]. *)

From S2P Require Import Prelude.
From S2P Require Import GoRuntime.
From S2P Require Import GoFloat.
From S2P Require Import GoString.
Local Open Scope Z_scope.
Local Open Scope stdpp_scope.

Module AU.

(** ** Identities *)

(** [AuthMethod] is a string type. *)
Definition AuthMethodNone : string := "none".
Definition AuthMethodJWT : string := "jwt".
Definition AuthMethodAPIKey : string := "api_key".
Definition AuthMethodOAuth2 : string := "oauth2".
Definition AuthMethodBasic : string := "basic".
Definition AuthMethodAnonymous : string := "anonymous".
Definition AuthMethodComposite : string := "composite".

(** A value of a claim, as [encoding/json] decodes it into an [any]. *)
#[local] Set Warnings "-register-all".

Inductive claim : Type :=
| CNull
| CBool (b : bool)
| CNumber (f : float64)
| CString (s : string)
| CArray (l : list claim)
| CObject (m : list (string * claim)).

Abbreviation Claims := (gmap string claim) (only parsing).

Record Identity := MkIdentity {
  Principal : string;
  TenantID : string;
  Roles : list string;
  Permissions : list string;
  Method : string;
  IdClaims : Claims;
  ExpiresAt : Time;
  IssuedAt : Time;
}.

Definition HasRole (id : Identity) (role : string) : bool :=
  existsb (λ r, bool_decide (r = role)) (Roles id).

Definition HasPermission (id : Identity) (perm : string) : bool :=
  existsb (λ p, bool_decide (p = perm)) (Permissions id).

(** [IsExpired], with the clock at [now]. *)
Definition IsExpired (now : Time) (id : Identity) : bool :=
  if time_IsZero (ExpiresAt id) then false else time_After now (ExpiresAt id).

Definition IsAnonymous (id : Identity) : bool :=
  bool_decide (Method id = AuthMethodAnonymous) || bool_decide (Principal id = "").

Definition AnonymousIdentity : Identity :=
  MkIdentity "anonymous" "" [] [] AuthMethodAnonymous ∅ 0 0.

(** ** Type assertions on claims *)

Definition as_string (c : option claim) : option string :=
  match c with Some (CString s) => Some s | _ => None end.
Definition as_array (c : option claim) : option (list claim) :=
  match c with Some (CArray l) => Some l | _ => None end.
Definition as_number (c : option claim) : option float64 :=
  match c with Some (CNumber f) => Some f | _ => None end.
Definition as_bool (c : option claim) : option bool :=
  match c with Some (CBool b) => Some b | _ => None end.

(** The strings of an array, as the loops that collect roles do. *)
Definition strings_of (l : list claim) : list string := omap (λ c, as_string (Some c)) l.

(** ** Requests and results *)

Record AuthRequest := MkRequest {
  Headers : gmap string (list string);
  Resource : string;
}.

Definition GetHeader (r : AuthRequest) (key : string) : string :=
  match Headers r !! key with
  | Some (v :: _) => v
  | _ => ""
  end.

Record AuthResult := MkResult {
  Authenticated : bool;
  ResIdentity : option Identity;
  Error : option error;
  ResMethod : string;
}.

Definition AuthSuccess (id : Identity) : AuthResult := MkResult true (Some id) None (Method id).
Definition AuthFailure (err : error) (method : string) : AuthResult :=
  MkResult false None (Some err) method.

(** ** Errors *)

Definition ErrMissingCredentials : error := Sentinel "auth: missing credentials".
Definition ErrInvalidCredentials : error := Sentinel "auth: invalid credentials".
Definition ErrTokenExpired : error := Sentinel "auth: token expired".
Definition ErrTokenMalformed : error := Sentinel "auth: token malformed".
Definition ErrTokenInactive : error := Sentinel "auth: token inactive".
Definition ErrIntrospectionFailed : error := Sentinel "auth: introspection failed".
Definition ErrKeyNotFound : error := Sentinel "auth: signing key not found".
Definition ErrForbidden : error := Sentinel "auth: access denied".

(** ** The interfaces *)

(** [Authenticate] returns a result, or an internal error. *)
Record Authenticator (W : Type) := MkAuthenticator {
  Name : string;
  Supports : AuthRequest → bool;
  Authenticate : AuthRequest → Go W (AuthResult + error);
}.
Arguments MkAuthenticator {W} _ _ _.
Arguments Name {W} _.
Arguments Supports {W} _ _.
Arguments Authenticate {W} _ _.

Definition NewAuthenticatorFunc {W} (name : string) (supports : AuthRequest → bool)
    (auth : AuthRequest → Go W (AuthResult + error)) : Authenticator W :=
  MkAuthenticator name supports auth.

(** The contract of [Authenticate]: a result is a success with an identity, or a failure
    with an error. *)
Definition well_formed (r : AuthResult) : Prop :=
  (Authenticated r = true ∧ is_Some (ResIdentity r) ∧ Error r = None) ∨
  (Authenticated r = false ∧ ResIdentity r = None ∧ is_Some (Error r)).

Lemma AuthSuccess_well_formed id : well_formed (AuthSuccess id).
Proof. left. by repeat split. Qed.

Lemma AuthFailure_well_formed err m : well_formed (AuthFailure err m).
Proof. right. by repeat split. Qed.

#[export] Hint Resolve AuthSuccess_well_formed AuthFailure_well_formed : toolops_inv.

(** *** The contract as an interface

    A result is typed when it is well formed and, if it is a success, the identity carries the
    method the result names, one of [methods].  An authenticator that may keep identities
    in an object behind [p] keeps the invariant [I] of that object. *)
Definition typed (methods : list string) (r : AuthResult) : Prop :=
  well_formed r ∧ ∀ id, ResIdentity r = Some id → ResMethod r = Method id ∧ Method id ∈ methods.

Class Contract {W S : Type} (p : Ptr W S) (I : S → Prop) (methods : list string)
    (a : Authenticator W) : Prop := {
  contract_keeps req : keeps I p (Authenticate a req);
  contract_result req w r w' :
    I (load p w) → Authenticate a req w = (Val (inl r), w') → typed methods r;
}.

Lemma typed_success methods id : Method id ∈ methods → typed methods (AuthSuccess id).
Proof. intros Hm. split; [apply AuthSuccess_well_formed|]. by intros ? [= <-]. Qed.

Lemma typed_failure methods err m : typed methods (AuthFailure err m).
Proof. split; [apply AuthFailure_well_formed | done]. Qed.

Lemma typed_mono methods methods' r : methods ⊆ methods' → typed methods r → typed methods' r.
Proof. intros Hm [Hw Hr]. split; [done|]. intros id Hid. destruct (Hr id Hid). auto. Qed.

Lemma contract_mono {W S} (p : Ptr W S) I methods methods' a :
  methods ⊆ methods' → Contract p I methods a → Contract p I methods' a.
Proof.
  intros Hm Ha. split; [apply contract_keeps|]. intros req w r w' HI HE.
  by eapply typed_mono, contract_result.
Qed.

#[export] Hint Resolve typed_success typed_failure : toolops_inv.

(** ** Values in a context *)

(** The two keys of the package in the values of a [context.Context]. *)
Record context := MkContext {
  ctx_identity : option (option Identity);
  ctx_headers : option (gmap string (list string));
}.

Definition WithIdentity (c : context) (id : option Identity) : context :=
  MkContext (Some id) (ctx_headers c).
Definition WithHeaders (c : context) (h : gmap string (list string)) : context :=
  MkContext (ctx_identity c) (Some h).
Definition IdentityFromContext (c : context) : option Identity :=
  default None (ctx_identity c).
Definition PrincipalFromContext (c : context) : string :=
  match IdentityFromContext c with Some id => Principal id | None => "" end.
Definition TenantIDFromContext (c : context) : string :=
  match IdentityFromContext c with Some id => TenantID id | None => "" end.
Definition HeadersFromContext (c : context) : gmap string (list string) :=
  default ∅ (ctx_headers c).
Definition ctx_GetHeader (c : context) (key : string) : string :=
  match HeadersFromContext c !! key with Some (v :: _) => v | _ => "" end.

(** [WithAuthHeaders]: the handler runs in the context with the request's headers. *)
Definition WithAuthHeaders {A} (next : context → A) (c : context) (header : gmap string (list string)) : A :=
  next (WithHeaders c header).

Lemma GetHeader_context (r : AuthRequest) c key :
  WithAuthHeaders (λ c, ctx_GetHeader c key) c (Headers r) = GetHeader r key.
Proof. done. Qed.

End AU.
