(* ===== verification/Rbac.v ===== *)
(** * auth/authorizer.go, rbac.go: role-based access control

    [collectRoles] is the worklist loop of the code, with fuel; a lemma shows that the
    fuel is enough for every configuration. *)

From Stdlib Require Import Ascii.
From S2P Require Import Prelude.
From S2P Require Import GoRuntime.
From S2P Require Import GoString.
From S2P Require Import Auth.
Local Open Scope nat_scope.
Local Open Scope stdpp_scope.

Module RB.

(** ** Requests and errors *)

Record AuthzRequest := MkAuthz {
  Subject : option AU.Identity;
  Resource : string;
  Action : string;
  ResourceType : string;
}.

Definition ToolName (r : AuthzRequest) : string :=
  match CutPrefix (Resource r) "tool:" with
  | Some name => name
  | None => Resource r
  end.

Record AuthzError := MkAuthzError {
  ErrSubject : string;
  ErrResource : string;
  ErrAction : string;
  Reason : string;
  Cause : option error;
}.

(** An [error] returned by [Authorize]. *)
Inductive authz_error :=
| Denied (e : AuthzError)
| Internal (e : error).

Definition Unwrap (e : AuthzError) : option error := Cause e.

(** The text of the error: a format and its arguments. *)
Definition AuthzError_Error (e : AuthzError) : error :=
  Errorf "authorization denied: subject=%q resource=%q action=%q reason=%q"
    [ErrSubject e; ErrResource e; ErrAction e; Reason e].

Definition AuthzError_Is (e : AuthzError) (target : error) : bool :=
  bool_decide (target = AU.ErrForbidden).

(** [errors.Is(e, target)] for a sentinel [target]: the error's [Is], then its [Unwrap]. *)
Definition authz_Is (e : authz_error) (target : error) : bool :=
  match e with
  | Denied e =>
      AuthzError_Is e target ||
      match Unwrap e with Some c => errors_Is c target | None => false end
  | Internal e => errors_Is e target
  end.

Definition Authorizer : Type := AuthzRequest → option authz_error.

Definition AuthorizerFunc (f : AuthzRequest → option authz_error) : Authorizer := λ req, f req.

Definition AllowAllAuthorizer : Authorizer := λ _, None.

Definition DenyAllAuthorizer : Authorizer := λ req,
  let subject := match Subject req with Some id => AU.Principal id | None => "" end in
  Some (Denied (MkAuthzError subject (Resource req) (Action req) "all requests denied" None)).

(** ** Configuration *)

Record RoleConfig := MkRole {
  Permissions : list string;
  Inherits : list string;
  AllowedTools : list string;
  DeniedTools : list string;
  AllowedActions : list string;
}.

Record RBACConfig := MkRBAC {
  Roles : gmap string RoleConfig;
  DefaultRole : string;
}.

(** ** Matching *)

Definition matchPattern (pattern value : string) : bool :=
  if bool_decide (pattern = "*") then true
  else if HasSuffix pattern "*" then HasPrefix value (TrimSuffix pattern "*")
  else bool_decide (pattern = value).

Definition star_or (part value : string) : bool :=
  bool_decide (part = "*") || bool_decide (part = value).

Definition matchPermission (perm : string) (req : AuthzRequest) : bool :=
  match Split perm ":" with
  | [action] => star_or action (Action req)
  | [resource; action] =>
      let resourceMatch := star_or resource (Resource req) || matchPattern resource (ToolName req) in
      resourceMatch && star_or action (Action req)
  | [resourceType; resource; action] =>
      let typeMatch := star_or resourceType (ResourceType req) in
      let resourceMatch := star_or resource (Resource req) || matchPattern resource (ToolName req) in
      typeMatch && resourceMatch && star_or action (Action req)
  | _ => false
  end.

Definition is_nil {A} (l : list A) : bool := match l with [] => true | _ => false end.

Definition rolePermits (role : RoleConfig) (req : AuthzRequest) : bool :=
  let toolName := ToolName req in
  if existsb (λ denied, matchPattern denied toolName) (DeniedTools role) then false
  else if negb (is_nil (AllowedTools role))
          && negb (existsb (λ allowed, matchPattern allowed toolName) (AllowedTools role)) then false
  else if negb (is_nil (AllowedActions role))
          && negb (existsb (λ action, star_or action (Action req)) (AllowedActions role)) then false
  else if existsb (λ perm, matchPermission perm req) (Permissions role) then true
  else negb (is_nil (AllowedTools role)).

(** ** Roles and inheritance *)

Section Authorizer.
Context (config : RBACConfig).

(** The roles [name] inherits from directly. *)
Definition parents (name : string) : list string :=
  match Roles config !! name with Some role => Inherits role | None => [] end.

(** The worklist loop; [None] is lack of fuel. *)
Fixpoint collect (fuel : nat) (rolesToProcess : list string) (seen : gset string)
    (result : list string) : option (list string) :=
  match fuel with
  | O => None
  | S fuel =>
      match rolesToProcess with
      | [] => Some result
      | current :: rolesToProcess =>
          if bool_decide (current ∈ seen) then collect fuel rolesToProcess seen result
          else
            let seen := {[current]} ∪ seen in
            let result := result ++ [current] in
            let inherited := filter (λ r, r ∉ seen) (parents current) in
            collect fuel (rolesToProcess ++ inherited) seen result
      end
  end.

Definition start (subject : AU.Identity) : list string :=
  if is_nil (AU.Roles subject) && negb (bool_decide (DefaultRole config = ""))
  then [DefaultRole config] else AU.Roles subject.

(** The roles still to be added through roles not seen yet. *)
Definition unseen (seen : gset string) (kr : string * RoleConfig) : nat :=
  if bool_decide (kr.1 ∈ seen) then 0 else length (Inherits kr.2).
Definition weight (seen : gset string) : nat :=
  sum_list (unseen seen <$> map_to_list (Roles config)).

Definition collectRoles (subject : AU.Identity) : option (list string) :=
  let rolesToProcess := start subject in
  collect (S (length rolesToProcess + weight ∅)) rolesToProcess ∅ [].

Definition Authorize : Authorizer := λ req,
  match Subject req with
  | None => Some (Denied (MkAuthzError "" (Resource req) (Action req) "no identity provided" None))
  | Some subject =>
      let roles := default [] (collectRoles subject) in
      if existsb (λ roleName,
           match Roles config !! roleName with
           | Some role => rolePermits role req
           | None => false
           end) roles
      then None
      else Some (Denied (MkAuthzError (AU.Principal subject) (Resource req) (Action req)
                   "no role permits this action" None))
  end.

(** ** The collected roles *)

(** [r] is one of the roles [from], or inherited from one, at any depth. *)
Inductive reachable (from : list string) : string → Prop :=
| reachable_start r : r ∈ from → reachable from r
| reachable_inherit r r' : reachable from r → r' ∈ parents r → reachable from r'.

Lemma weight_mono seen k :
  k ∉ seen → weight ({[k]} ∪ seen) + length (parents k) = weight seen.
Proof.
  intros Hk. unfold weight, parents.
  assert (∀ m : list (string * RoleConfig), (∀ r, (k, r) ∉ m) →
    unseen ({[k]} ∪ seen) <$> m = unseen seen <$> m) as Hsame.
  { intros m. induction m as [|[k' r'] m IH]; intros Hm; [done|]. simpl. f_equal.
    - unfold unseen. simpl. assert (k' ≠ k) by (intros ->; apply (Hm r'); by constructor).
      rewrite (bool_decide_ext (k' ∈ {[k]} ∪ seen) (k' ∈ seen)); [done|]. rewrite elem_of_union, elem_of_singleton. intuition congruence.
    - apply IH. intros r Hr. apply (Hm r). by constructor. }
  destruct (Roles config !! k) as [role|] eqn:E.
  - rewrite <- (map_to_list_delete _ _ _ E). simpl.
    rewrite Hsame.
    2: { intros r Hr%elem_of_map_to_list. by rewrite lookup_delete_eq in Hr. }
    assert (unseen ({[k]} ∪ seen) (k, role) = 0) as ->
      by (unfold unseen; by rewrite bool_decide_true by set_solver).
    assert (unseen seen (k, role) = length (Inherits role)) as ->
      by (unfold unseen; by rewrite bool_decide_false).
    apply Nat.add_comm.
  - rewrite Hsame; [simpl; lia|]. intros r Hr%elem_of_map_to_list. congruence.
Qed.

(** The invariant of the loop. *)
Record collect_inv (from queue : list string) (seen : gset string) (result : list string) : Prop := {
  ci_seen r : r ∈ seen ↔ r ∈ result;
  ci_nodup : NoDup result;
  ci_reachable r : r ∈ result ∨ r ∈ queue → reachable from r;
  ci_from r : r ∈ from → r ∈ result ∨ r ∈ queue;
  ci_closed r r' : r ∈ result → r' ∈ parents r → r' ∈ result ∨ r' ∈ queue;
}.

Lemma collect_spec from fuel queue seen result :
  collect_inv from queue seen result → length queue + weight seen < fuel →
  ∃ roles, collect fuel queue seen result = Some roles ∧ NoDup roles ∧
    ∀ r, r ∈ roles ↔ reachable from r.
Proof.
  revert queue seen result. induction fuel as [|fuel IH]; intros queue seen result Hi Hf; [lia|].
  destruct Hi as [Hs Hn Hr Hfrom Hc]. destruct queue as [|current queue]; simpl.
  - exists result. split_and!; [done..|]. intros r. split; [by eauto|].
    intros Hre. induction Hre as [r Hin | r r' _ IHr Hin].
    + destruct (Hfrom r Hin) as [?|H]; [done | by apply elem_of_nil in H].
    + destruct (Hc r r' IHr Hin) as [?|H]; [done | by apply elem_of_nil in H].
  - case_bool_decide as Hin.
    + apply IH; [|simpl in Hf; lia]. apply Hs in Hin. split; try done.
      * intros r [?|?]; apply Hr; [by left | right; by constructor].
      * intros r Hrf. destruct (Hfrom r Hrf) as [?|[->|?]%elem_of_cons]; auto.
      * intros r r' H1 H2. destruct (Hc r r' H1 H2) as [?|[->|?]%elem_of_cons]; auto.
    + apply IH.
      * split.
        -- intros r. rewrite elem_of_union, elem_of_singleton, elem_of_app, list_elem_of_singleton, Hs. tauto.
        -- rewrite NoDup_app. split_and!; [done| |by apply NoDup_singleton].
           intros r H1 H2%list_elem_of_singleton. subst. by apply Hin, Hs.
        -- assert (reachable from current) as Hcur by (apply Hr; right; by constructor).
           intros r. rewrite !elem_of_app, list_elem_of_singleton, list_elem_of_filter.
           intros [[?| ->]|[?|[_ ?]]]; [by apply Hr; left | done | apply Hr; right; by constructor |].
           by eapply reachable_inherit.
        -- intros r Hrf. rewrite !elem_of_app, list_elem_of_singleton.
           destruct (Hfrom r Hrf) as [?|[->|?]%elem_of_cons]; auto.
        -- intros r r'. rewrite !elem_of_app, !list_elem_of_singleton, list_elem_of_filter.
           intros [H1| ->] H2.
           ++ destruct (Hc r r' H1 H2) as [?|[->|?]%elem_of_cons]; auto.
           ++ destruct (decide (r' ∈ {[current]} ∪ seen)) as [Hi|]; [|by auto].
              left. apply elem_of_union in Hi as [->%elem_of_singleton|?%Hs]; auto.
      * simpl in Hf. pose proof (weight_mono seen current Hin). rewrite length_app.
        pose proof (length_filter (λ r, r ∉ {[current]} ∪ seen) (parents current)). lia.
Qed.

Lemma collectRoles_spec subject :
  ∃ roles, collectRoles subject = Some roles ∧ NoDup roles ∧
    ∀ r, r ∈ roles ↔ reachable (start subject) r.
Proof.
  apply collect_spec; [|lia]. split.
  - intros r. split; intros H; [by apply elem_of_empty in H | by apply elem_of_nil in H].
  - constructor.
  - intros r [H|H]; [by apply elem_of_nil in H | by constructor].
  - intros r ?. by right.
  - intros r r' H. by apply elem_of_nil in H.
Qed.
End Authorizer.

(** ** Matching *)

(** A pattern with a final star matches the strings it is a prefix of; another pattern
    matches itself. *)
Definition pattern_matches (pattern value : string) : Prop :=
  (∃ q r, pattern = q +:+ "*" ∧ value = q +:+ r) ∨ pattern = value.

Lemma matchPattern_spec pattern value :
  matchPattern pattern value = true ↔ pattern_matches pattern value.
Proof.
  unfold matchPattern, pattern_matches. case_bool_decide as E.
  { subst. split; [intros _; left; by exists "", value | done]. }
  destruct (HasSuffix pattern "*") eqn:Es.
  - apply HasSuffix_spec in Es as [q ->]. rewrite TrimSuffix_append, HasPrefix_spec.
    split; [intros [r ->]; left; by exists q, r|].
    intros [(q' & r & Hq & ->)| <-]; [|by exists "*"].
    apply append_inj_r in Hq as [-> _]; [by exists r | done].
  - rewrite bool_decide_eq_true. split; [by right|].
    intros [(q & r & Hq & _)|?]; [|done].
    assert (HasSuffix pattern "*" = true) as Ht by (apply HasSuffix_spec; eauto). congruence.
Qed.

Lemma star_or_spec part value : star_or part value = true ↔ part = "*" ∨ part = value.
Proof. unfold star_or. by rewrite orb_true_iff, !bool_decide_eq_true. Qed.

(** Permission strings, by their number of colons. *)
Lemma Split_cons a b c : without c a = true →
  Split (a +:+ String c b) (String c "") = a :: split_go (String.length (a +:+ String c b) - 1) (String c "") b.
Proof.
  intros Ha. unfold Split.
  assert (String.length (a +:+ String c b) = S (String.length (a +:+ String c b) - 1)) as Hl
    by (rewrite length_append; simpl; lia).
  rewrite Hl at 1. simpl. by rewrite cut_byte.
Qed.

Lemma split_go_last fuel c s : without c s = true → split_go fuel (String c "") s = [s].
Proof. intros Hs. destruct fuel; simpl; [done|]. by rewrite cut_byte_none. Qed.

Lemma split_go_cons fuel c a b : without c a = true →
  split_go (S fuel) (String c "") (a +:+ String c b) = a :: split_go fuel (String c "") b.
Proof. intros Ha. simpl. by rewrite cut_byte. Qed.

Lemma Split_three t r a :
  without ":"%char t = true → without ":"%char r = true → without ":"%char a = true →
  Split (t +:+ String ":"%char (r +:+ String ":"%char a)) ":" = [t; r; a].
Proof.
  intros Ht Hr Ha. rewrite Split_cons by done. f_equal.
  destruct (_ - 1) as [|n] eqn:E.
  { rewrite !length_append in E. simpl in E. rewrite length_append in E. simpl in E. lia. }
  rewrite split_go_cons by done. by rewrite split_go_last.
Qed.

(** A permission of three parts grants the action on the resource. *)
Lemma matchPermission_three t r a req :
  without ":"%char t = true → without ":"%char r = true → without ":"%char a = true →
  matchPermission (t +:+ String ":"%char (r +:+ String ":"%char a)) req = true ↔
  (t = "*" ∨ t = ResourceType req) ∧ (r = Resource req ∨ pattern_matches r (ToolName req)) ∧
  (a = "*" ∨ a = Action req).
Proof.
  intros Ht Hr Ha. unfold matchPermission. rewrite Split_three by done.
  rewrite !andb_true_iff, orb_true_iff, !star_or_spec, matchPattern_spec.
  split; [intros [[H1 H2] H3]; split_and!; try done | intros (H1 & H2 & H3); split_and!; try done].
  - destruct H2 as [[->|?]|?]; auto. right. left. by exists "", (ToolName req).
  - destruct H2; auto.
Qed.

(** ** What a role permits *)

Definition permits (role : RoleConfig) (req : AuthzRequest) : Prop :=
  (∀ d, d ∈ DeniedTools role → ¬ pattern_matches d (ToolName req)) ∧
  (AllowedTools role = [] ∨ ∃ t, t ∈ AllowedTools role ∧ pattern_matches t (ToolName req)) ∧
  (AllowedActions role = [] ∨ ∃ a, a ∈ AllowedActions role ∧ (a = "*" ∨ a = Action req)) ∧
  (AllowedTools role ≠ [] ∨ ∃ perm, perm ∈ Permissions role ∧ matchPermission perm req = true).

Lemma existsb_pattern l v :
  existsb (λ p, matchPattern p v) l = true ↔ ∃ p, p ∈ l ∧ pattern_matches p v.
Proof. rewrite existsb_true_iff. by setoid_rewrite matchPattern_spec. Qed.

(** A test [l nonempty and no element matches] of the code, when it fails. *)
Lemma passes {A} (l : list A) b :
  negb (is_nil l) && negb b = false ↔ l = [] ∨ b = true.
Proof. destruct l, b; simpl; intuition congruence. Qed.

Lemma rolePermits_spec role req : rolePermits role req = true ↔ permits role req.
Proof.
  unfold rolePermits, permits.
  pose proof (existsb_pattern (DeniedTools role) (ToolName req)) as Hd.
  pose proof (passes (AllowedTools role) (existsb (λ a, matchPattern a (ToolName req)) (AllowedTools role))) as Ht.
  rewrite existsb_pattern in Ht.
  pose proof (passes (AllowedActions role) (existsb (λ a, star_or a (Action req)) (AllowedActions role))) as Ha.
  rewrite existsb_true_iff in Ha. setoid_rewrite star_or_spec in Ha.
  pose proof (existsb_true_iff (λ perm, matchPermission perm req) (Permissions role)) as Hp.
  destruct (existsb _ (DeniedTools role)).
  { split; [done|]. intros (H & _). destruct Hd as [Hd _]. destruct (Hd eq_refl) as (d & Hin & Hm).
    by destruct (H d Hin Hm). }
  destruct (negb (is_nil (AllowedTools role)) && _).
  { split; [done|]. intros (_ & H & _). by apply Ht in H. }
  destruct (negb (is_nil (AllowedActions role)) && _).
  { split; [done|]. intros (_ & _ & H & _). by apply Ha in H. }
  assert (∀ d, d ∈ DeniedTools role → ¬ pattern_matches d (ToolName req)) as Hd'.
  { intros d ? ?. assert (false = true) by (apply Hd; eauto). done. }
  pose proof (proj1 Ht eq_refl). pose proof (proj1 Ha eq_refl).
  destruct (existsb _ (Permissions role)).
  - split; [|done]. intros _. split_and!; try done. right. by apply Hp.
  - assert (¬ ∃ perm, perm ∈ Permissions role ∧ matchPermission perm req = true) as Hn
      by (intros H'; by apply Hp in H').
    destruct (AllowedTools role); simpl.
    + split; [done|]. intros (_ & _ & _ & [?|?]); done.
    + split; [intros _; split_and!; auto | done].
Qed.

(** ** Authorization *)

(** A role the subject comes with: one of its own, or the default one when it has none. *)
Definition comes_with (config : RBACConfig) (subject : AU.Identity) (r : string) : Prop :=
  r ∈ AU.Roles subject ∨ (AU.Roles subject = [] ∧ DefaultRole config ≠ "" ∧ r = DefaultRole config).

(** A role the subject holds: it comes with it, or inherits it at any depth. *)
Inductive holds (config : RBACConfig) (subject : AU.Identity) : string → Prop :=
| holds_own r : comes_with config subject r → holds config subject r
| holds_inherited r role r' :
    holds config subject r → Roles config !! r = Some role → r' ∈ Inherits role → holds config subject r'.

Lemma start_spec config subject r : r ∈ start config subject ↔ comes_with config subject r.
Proof.
  unfold start, comes_with. destruct (AU.Roles subject) as [|r0 l]; simpl; [|by intuition].
  case_bool_decide as E; simpl.
  - rewrite elem_of_nil. intuition congruence.
  - rewrite list_elem_of_singleton, elem_of_nil. intuition.
Qed.

Lemma reachable_holds config subject r :
  reachable config (start config subject) r ↔ holds config subject r.
Proof.
  split.
  - induction 1 as [r Hr | r r' _ IH Hr]; [by apply holds_own, start_spec|].
    unfold parents in Hr. destruct (Roles config !! r) as [role|] eqn:E; [|by apply elem_of_nil in Hr].
    by eapply holds_inherited.
  - induction 1 as [r Hr | r role r' _ IH Hl Hr]; [by apply reachable_start, start_spec|].
    eapply reachable_inherit; [done|]. unfold parents. by rewrite Hl.
Qed.

(** The declarative policy: some role the subject holds is configured and permits the
    request. *)
Definition allowed (config : RBACConfig) (req : AuthzRequest) : Prop :=
  ∃ subject name role, Subject req = Some subject ∧ holds config subject name ∧
    Roles config !! name = Some role ∧ permits role req.

Lemma Authorize_cases config req :
  (Authorize config req = None ∧ allowed config req) ∨
  (∃ e, Authorize config req = Some (Denied e) ∧ ¬ allowed config req).
Proof.
  unfold Authorize, allowed. destruct (Subject req) as [subject|].
  2: { right. eexists. split; [done|]. by intros (? & ? & ? & ? & _). }
  destruct (collectRoles_spec config subject) as (roles & -> & _ & Hroles). simpl.
  setoid_rewrite reachable_holds in Hroles.
  pose proof (existsb_true_iff (λ roleName, match Roles config !! roleName with
    | Some role => rolePermits role req | None => false end) roles) as He.
  destruct (existsb _ roles).
  - left. split; [done|]. destruct (proj1 He eq_refl) as (name & Hin & Hp).
    destruct (Roles config !! name) as [role|] eqn:E; [|done].
    exists subject, name, role. split_and!; [done | by apply Hroles | done | by apply rolePermits_spec].
  - right. eexists. split; [done|]. intros (s & name & role & [= <-] & Hre & Hl & Hp).
    assert (false = true); [|done]. apply He. exists name. rewrite Hl.
    split; [by apply Hroles | by apply rolePermits_spec].
Qed.

(** C3. A request is authorized exactly when the policy allows it: the worklist loop visits
    the roles reachable by inheritance, cycles included, and no others. *)
Theorem Authorize_decides_policy config req :
  Authorize config req = None ↔ allowed config req.
Proof. destruct (Authorize_cases config req) as [[-> ?] | (e & -> & ?)]; intuition congruence. Qed.

(** Every denial is an [AuthzError], and it is [ErrForbidden] for [errors.Is]. *)
Theorem Authorize_denial_is_forbidden config req e :
  Authorize config req = Some e →
  authz_Is e AU.ErrForbidden = true ∧ ¬ allowed config req.
Proof.
  destruct (Authorize_cases config req) as [[-> ?] | (e' & -> & Hn)]; [done|].
  intros [= <-]. split; [|done]. done.
Qed.

(** C35. The worklist loop ends on every configuration, cyclic inheritance included, with
    each reachable role exactly once. *)
Theorem collectRoles_complete config subject :
  ∃ roles, collectRoles config subject = Some roles ∧ NoDup roles ∧
    ∀ r, r ∈ roles ↔ holds config subject r.
Proof.
  destruct (collectRoles_spec config subject) as (roles & H1 & H2 & H3). exists roles.
  split; [done|]. split; [done|]. intros r. by rewrite H3, reachable_holds.
Qed.

Lemma holds_mono config id id' r :
  (∀ r, comes_with config id r → comes_with config id' r) → holds config id r → holds config id' r.
Proof. intros Hf. induction 1; [by apply holds_own, Hf | by eapply holds_inherited]. Qed.

Definition with_subject (req : AuthzRequest) (id : AU.Identity) : AuthzRequest :=
  MkAuthz (Some id) (Resource req) (Action req) (ResourceType req).

Lemma permits_subject role req id : permits role (with_subject req id) ↔ permits role req.
Proof. done. Qed.

(** Roles only add rights: what is authorized with some roles is authorized with more
    of them, so that the denied tools of one role do not restrict another role. *)
Theorem Authorize_monotone config req id id' :
  AU.Roles id ≠ [] → AU.Roles id ⊆ AU.Roles id' →
  Authorize config (with_subject req id) = None →
  Authorize config (with_subject req id') = None.
Proof.
  intros Hne Hsub H.
  destruct (Authorize_cases config (with_subject req id)) as [[_ (s & name & role & Hs & Hr & Hl & Hp)] | (e & He & _)];
    [|congruence].
  destruct (Authorize_cases config (with_subject req id')) as [[? _] | (e & _ & Hn)]; [done|].
  exfalso. apply Hn. exists id', name, role. simpl in Hs. injection Hs as <-. split_and!; try done.
  eapply holds_mono; [|done]. intros r [Hin|[? _]]; [left; by apply Hsub | done].
Qed.

(** A role with allowed tools permits any action on them, whatever its explicit
    permissions are: they restrict nothing. *)
Lemma allowed_tools_override_permissions role req :
  DeniedTools role = [] → AllowedActions role = [] →
  (∃ t, t ∈ AllowedTools role ∧ pattern_matches t (ToolName req)) → permits role req.
Proof.
  intros Hd Ha (t & Ht & Hm). unfold permits. rewrite Hd, Ha. split_and!; eauto.
  - intros d H. by apply elem_of_nil in H.
  - left. intros E. rewrite E in Ht. by apply elem_of_nil in Ht.
Qed.

(** A tool name with a colon cannot be named in a permission of the form
    [type:resource:action]: the string has four parts. *)
Lemma colon_in_tool_name id :
  matchPermission "tool:fs:read:call" (MkAuthz (Some id) "tool:fs:read" "call" "tool") = false.
Proof. by vm_compute. Qed.

(** ** Witnesses *)

Definition alice (roles : list string) : AU.Identity :=
  AU.MkIdentity "alice" "" roles [] AU.AuthMethodJWT ∅ 0 0.

(** [dev] and [ops] inherit from each other; [ops] may call every tool but the secret ones. *)
Definition demo_config : RBACConfig := MkRBAC
  (<["dev" := MkRole [] ["ops"] [] [] []]>
   (<["ops" := MkRole ["tool:*:call"] ["dev"] [] ["secret*"] []]>
    (<["admin" := MkRole ["*"] [] [] [] []]> ∅))) "guest".

Definition demo_req (roles : list string) (tool : string) : AuthzRequest :=
  MkAuthz (Some (alice roles)) ("tool:" +:+ tool) "call" "tool".

Lemma Authorize_denial_is_forbidden_witness :
  ∃ e, Authorize demo_config (demo_req ["dev"] "secret_dump") = Some e ∧
    authz_Is e AU.ErrForbidden = true ∧ ¬ allowed demo_config (demo_req ["dev"] "secret_dump").
Proof.
  destruct (Authorize demo_config (demo_req ["dev"] "secret_dump")) as [e|] eqn:E; [|by vm_compute in E].
  exists e. split; [done|]. by apply Authorize_denial_is_forbidden.
Defined.

Lemma Authorize_monotone_witness :
  Authorize demo_config (with_subject (demo_req [] "search") (alice ["ops"; "admin"])) = None.
Proof.
  apply (Authorize_monotone demo_config (demo_req [] "search") (alice ["ops"])); [done | | by vm_compute].
  intros r. simpl. rewrite list_elem_of_singleton. intros ->. by constructor.
Defined.

End RB.
