(* ===== verification/Composite.v ===== *)
(** * auth/composite.go: trying authenticators in sequence

    The loop carries the last result and the first success, as the code does;
    [collect_results] and [pick] separate what is run from what is answered. *)

From S2P Require Import Prelude.
From S2P Require Import GoRuntime.
From S2P Require Import GoString.
From S2P Require Import Auth.
Local Open Scope stdpp_scope.

Module CO.

Record CompositeAuthenticator (W : Type) := MkComposite {
  Authenticators : list (AU.Authenticator W);
  StopOnFirst : bool;
}.
Arguments MkComposite {W} _ _.
Arguments Authenticators {W} _.
Arguments StopOnFirst {W} _.

Definition NewCompositeAuthenticator {W} (auths : list (AU.Authenticator W))
    : CompositeAuthenticator W := MkComposite auths true.

Section Composite.
Context {W : Type} (c : CompositeAuthenticator W) (req : AU.AuthRequest).

Definition Supports : bool := existsb (λ auth, AU.Supports auth req) (Authenticators c).

Definition missing : AU.AuthResult := AU.AuthFailure AU.ErrMissingCredentials "".

Fixpoint loop (auths : list (AU.Authenticator W)) (lastResult firstSuccess : option AU.AuthResult)
    : Go W (AU.AuthResult + error) :=
  match auths with
  | [] =>
      mret (inl match firstSuccess with
        | Some r => r
        | None => match lastResult with Some r => r | None => missing end
        end)
  | auth :: auths =>
      if negb (AU.Supports auth req) then loop auths lastResult firstSuccess
      else
        res ← AU.Authenticate auth req;
        match res with
        | inr err => mret (inr err)
        | inl result =>
            if AU.Authenticated result then
              if StopOnFirst c then mret (inl result)
              else
                loop auths (Some result)
                  (match firstSuccess with None => Some result | Some r => Some r end)
            else loop auths (Some result) firstSuccess
        end
  end.

Definition Authenticate : Go W (AU.AuthResult + error) :=
  match Authenticators c with
  | [] => mret (inl missing)
  | auths => loop auths None None
  end.

(** ** What is run, and what is answered *)

(** The results of the authenticators that support the request, in order, up to an internal
    error or, with [StopOnFirst], a success. *)
Fixpoint collect_results (auths : list (AU.Authenticator W)) : Go W (list (AU.AuthResult + error)) :=
  match auths with
  | [] => mret []
  | auth :: auths =>
      if negb (AU.Supports auth req) then collect_results auths
      else
        res ← AU.Authenticate auth req;
        match res with
        | inr err => mret [inr err]
        | inl r =>
            if AU.Authenticated r && StopOnFirst c then mret [inl r]
            else (rs ← collect_results auths; mret (inl r :: rs))
        end
  end.

(** The first success, else the last result, else [ErrMissingCredentials]; an internal
    error overrides them. *)
Fixpoint pick (rs : list (AU.AuthResult + error)) (lastResult firstSuccess : option AU.AuthResult)
    : AU.AuthResult + error :=
  match rs with
  | [] => inl match firstSuccess with
              | Some r => r
              | None => match lastResult with Some r => r | None => missing end
              end
  | inr err :: _ => inr err
  | inl r :: rs =>
      pick rs (Some r)
        (match firstSuccess with
         | Some s => Some s
         | None => if AU.Authenticated r then Some r else None
         end)
  end.

Lemma loop_collect auths last first :
  (StopOnFirst c = true → first = None) →
  loop auths last first ≡ (rs ← collect_results auths; mret (pick rs last first)).
Proof.
  revert last first. induction auths as [|auth auths IH]; intros last first Hfirst w; [done|].
  simpl. destruct (negb (AU.Supports auth req)); [by apply IH|].
  rewrite (go_bind_assoc _ _ _ w), !(go_bind_run (AU.Authenticate auth req)).
  destruct (AU.Authenticate auth req w) as [[[r|err]|msg|] w1]; [|done..].
  assert (∀ last' first', (StopOnFirst c = true → first' = None) →
    (∀ rs, pick (inl r :: rs) last first = pick rs last' first') →
    loop auths last' first' w1 =
    ((rs ← collect_results auths; mret (inl r :: rs)) ≫= λ rs, mret (pick rs last first)) w1) as Hgo.
  { intros last' first' Hf' Hp. rewrite (IH last' first' Hf' w1), (go_bind_assoc _ _ _ w1).
    apply go_bind_proper; [|done]. intros rs w2. rewrite go_bind_run. simpl. by rewrite <- Hp. }
  destruct (AU.Authenticated r) eqn:Ea, (StopOnFirst c) eqn:Es; simpl.
  - rewrite Hfirst by done. rewrite go_bind_run. simpl. by rewrite Ea.
  - apply Hgo; [done|]. intros. simpl. rewrite Ea. by destruct first.
  - apply Hgo; [done|]. intros. simpl. rewrite Ea. by destruct first.
  - apply Hgo; [done|]. intros. simpl. rewrite Ea. by destruct first.
Qed.

(** C19. The composite runs the supporting authenticators in order, up to an internal error
    or the first success, and answers with the first success, else the last failure,
    else [ErrMissingCredentials]. *)
Theorem Authenticate_picks :
  Authenticate ≡ (rs ← collect_results (Authenticators c); mret (pick rs None None)).
Proof.
  unfold Authenticate. destruct (Authenticators c) as [|a l] eqn:E; [done|].
  rewrite <- E. by apply loop_collect.
Qed.

Lemma loop_source auths last first w r w' :
  (∀ s, first = Some s → AU.Authenticated s = true →
     ∃ a w1 w2, a ∈ Authenticators c ∧ AU.Supports a req = true ∧
       AU.Authenticate a req w1 = (Val (inl s), w2)) →
  (∀ s, last = Some s → first = None → AU.Authenticated s = false) →
  auths ⊆ Authenticators c →
  loop auths last first w = (Val (inl r), w') → AU.Authenticated r = true →
  ∃ a w1 w2, a ∈ Authenticators c ∧ AU.Supports a req = true ∧
    AU.Authenticate a req w1 = (Val (inl r), w2).
Proof.
  revert last first w. induction auths as [|auth auths IH]; intros last first w Hf Hl Hsub HE Hr.
  - simpl in HE. unfold mret, go_ret in HE. simplify_eq.
    destruct first as [s|]; [by apply Hf|]. destruct last as [s|]; [|done].
    by rewrite (Hl s eq_refl eq_refl) in Hr.
  - assert (auth ∈ Authenticators c) as Hin by (apply Hsub; by constructor).
    assert (auths ⊆ Authenticators c) as Hsub' by (intros x ?; apply Hsub; by constructor).
    simpl in HE. destruct (AU.Supports auth req) eqn:Es; simpl in HE; [|by eapply IH].
    unfold mbind, go_bind in HE.
    destruct (AU.Authenticate auth req w) as [[[s|err]|msg|] w1] eqn:Ea; try done.
    destruct (AU.Authenticated s) eqn:Eas.
    + destruct (StopOnFirst c).
      * unfold mret, go_ret in HE. simplify_eq. eauto 10.
      * eapply (IH (Some s)); [| |done|exact HE|done].
        -- intros s' Hs' Hau. destruct first as [f|]; simplify_eq; [by apply Hf | by eauto 10].
        -- by destruct first.
    + eapply (IH (Some s)); [exact Hf| |done|exact HE|done]. by intros s' [= <-].
Qed.
End Composite.

(** A success of the composite is the success of one of its authenticators, on this
    request: the composite never makes one up. *)
Theorem Authenticate_sound {W} (c : CompositeAuthenticator W) req w r w' :
  Authenticate c req w = (Val (inl r), w') → AU.Authenticated r = true →
  ∃ a w1 w2, a ∈ Authenticators c ∧ AU.Supports a req = true ∧
    AU.Authenticate a req w1 = (Val (inl r), w2).
Proof.
  unfold Authenticate. destruct (Authenticators c) as [|a l] eqn:E.
  - intros HE Hr. unfold mret, go_ret in HE. by simplify_eq.
  - rewrite <- E. intros HE Hr.
    eapply (loop_source c req (Authenticators c) None None w); [done..| by intros x Hx | exact HE | done].
Qed.

Definition Composite_Authenticator {W} (c : CompositeAuthenticator W) : AU.Authenticator W :=
  AU.MkAuthenticator "composite" (Supports c) (Authenticate c).

Lemma subset_cons {A} (x : A) l l' : x :: l ⊆ l' → x ∈ l' ∧ l ⊆ l'.
Proof. intros Hs. split; [apply Hs; constructor|]. intros y Hy. apply Hs. by constructor. Qed.

(** The composite keeps the contract of its authenticators, in both modes. *)
Lemma composite_contract {W S} (p : Ptr W S) (I : S → Prop) methods (c : CompositeAuthenticator W) :
  (∀ a, a ∈ Authenticators c → AU.Contract p I methods a) →
  AU.Contract p I methods (Composite_Authenticator c).
Proof.
  intros Hc.
  assert (∀ req auths last first, auths ⊆ Authenticators c → keeps I p (loop c req auths last first)) as Hk.
  { intros req auths. induction auths as [|a auths IH]; intros last first Hsub; simpl; [apply keeps_ret|].
    destruct (subset_cons _ _ _ Hsub) as [Hin Hsub'].
    destruct (negb _); [by apply IH|]. apply keeps_bind; [exact (AU.contract_keeps (Contract:=Hc a Hin) req)|].
    intros [r|err]; [|apply keeps_ret]. destruct (AU.Authenticated r); [|by apply IH].
    destruct (StopOnFirst c); [apply keeps_ret | by apply IH]. }
  assert (∀ req auths last first w r w', auths ⊆ Authenticators c →
    (∀ s, last = Some s → AU.typed methods s) → (∀ s, first = Some s → AU.typed methods s) →
    I (load p w) → loop c req auths last first w = (Val (inl r), w') → AU.typed methods r) as Hr.
  { intros req auths. induction auths as [|a auths IH]; intros last first w r w' Hsub Hl Hf HI; simpl.
    - intros [= <- _]. destruct first; [by apply Hf|]. destruct last; [by apply Hl | apply AU.typed_failure].
    - destruct (subset_cons _ _ _ Hsub) as [Hin Hsub'].
      destruct (negb _); [by eapply IH|]. rewrite go_bind_run.
      destruct (AU.Authenticate a req w) as [[[s|err]|msg|] w1] eqn:Ea; [|done..].
      pose proof (AU.contract_result (Contract:=Hc a Hin) req w s w1 HI Ea) as Hs.
      pose proof (AU.contract_keeps (Contract:=Hc a Hin) req w _ _ Ea ltac:(done) HI) as HI1.
      destruct (AU.Authenticated s); [destruct (StopOnFirst c); [by intros [= <- _]|]|];
        (eapply IH; [done| | |done]; [by intros ? [= <-]|]); [destruct first|]; naive_solver. }
  split.
  - intros req. simpl. unfold Authenticate.
    pose proof (Hk req (Authenticators c) None None ltac:(done)) as Hl.
    destruct (Authenticators c); [apply keeps_ret | exact Hl].
  - intros req w r w' HI. simpl. unfold Authenticate.
    pose proof (Hr req (Authenticators c) None None w r w' ltac:(done) ltac:(done) ltac:(done) HI) as Hl.
    destruct (Authenticators c); [intros [= <- _]; apply AU.typed_failure | exact Hl].
Qed.

(** ** Witnesses *)

Definition accept (name : string) : AU.Authenticator unit :=
  AU.NewAuthenticatorFunc name (λ _, true)
    (λ _, mret (inl (AU.AuthSuccess (AU.MkIdentity name "" [] [] "jwt" ∅ 0 0)))).
Definition reject : AU.Authenticator unit :=
  AU.NewAuthenticatorFunc "reject" (λ _, true)
    (λ _, mret (inl (AU.AuthFailure AU.ErrInvalidCredentials "x"))).

Lemma Authenticate_sound_witness :
  ∃ a w1 w2, a ∈ [reject; accept "a"; accept "b"] ∧ AU.Supports a (AU.MkRequest ∅ "") = true ∧
    AU.Authenticate a (AU.MkRequest ∅ "") w1 =
      (Val (inl (AU.AuthSuccess (AU.MkIdentity "a" "" [] [] "jwt" ∅ 0 0))), w2).
Proof.
  by apply (Authenticate_sound (NewCompositeAuthenticator [reject; accept "a"; accept "b"])
    (AU.MkRequest ∅ "") () _ ()).
Defined.

End CO.
