(* ===== verification/ApiKey.v ===== *)
(** * auth/apikey.go: API keys

    The store is an interface ([APIKeyStore]); [MemoryAPIKeyStore] implements it.  SHA-256
    is an argument of the model. *)

From S2P Require Import Prelude.
From S2P Require Import GoRuntime.
From S2P Require Import GoString.
From S2P Require Import Auth.
Local Open Scope Z_scope.
Local Open Scope stdpp_scope.

Module AK.

Record APIKeyConfig := MkConfig {
  HeaderName : string;
  HashAlgorithm : string;
}.

Record APIKeyInfo := MkInfo {
  ID : string;
  KeyHash : string;
  Principal : string;
  TenantID : string;
  Roles : list string;
  ExpiresAt : Time;
  Metadata : AU.Claims;       (* a nil map has no bindings either *)
}.

(** The interface of a store: [Lookup] returns nil for an unknown hash. *)
Record APIKeyStore (W : Type) := MkStore {
  Lookup : string → Go W (option APIKeyInfo + error);
}.
Arguments MkStore {W} _.
Arguments Lookup {W} _ _.

Record APIKeyAuthenticator (W : Type) := MkAK {
  config : APIKeyConfig;
  store : APIKeyStore W;
}.
Arguments MkAK {W} _ _.
Arguments config {W} _.
Arguments store {W} _.

Definition NewAPIKeyAuthenticator {W} (cfg : APIKeyConfig) (s : APIKeyStore W)
    : APIKeyAuthenticator W :=
  MkAK (MkConfig
    (if bool_decide (HeaderName cfg = "") then "X-API-Key" else HeaderName cfg)
    (if bool_decide (HashAlgorithm cfg = "") then "sha256" else HashAlgorithm cfg)) s.

(** [ConstantTimeCompare]: the comparison, without its timing. *)
Definition ConstantTimeCompare (a b : string) : bool := bool_decide (a = b).

Section ApiKey.
Context (sha256_Sum256 : bytes → bytes).

Definition HashAPIKey (key : string) : string := hex_EncodeToString (sha256_Sum256 key).

Section Authenticator.
Context {W : Type} `{GoEnv W} (a : APIKeyAuthenticator W).

Definition hashKey (key : string) : string :=
  if bool_decide (HashAlgorithm (config a) = "plain") then key
  else if bool_decide (HashAlgorithm (config a) = "sha256")
          || bool_decide (HashAlgorithm (config a) = "")
  then hex_EncodeToString (sha256_Sum256 key)
  else hex_EncodeToString (sha256_Sum256 key).

Definition Supports (req : AU.AuthRequest) : bool :=
  negb (bool_decide (AU.GetHeader req (HeaderName (config a)) = "")).

(** The identity of a key: the metadata, then the key's own name, as claims. *)
Definition identity_of (info : APIKeyInfo) : AU.Identity :=
  AU.MkIdentity (Principal info) (TenantID info) (Roles info) [] AU.AuthMethodAPIKey
    (<["key_id" := AU.CString (ID info)]> (Metadata info)) (ExpiresAt info) 0.

Definition Authenticate (req : AU.AuthRequest) : Go W (AU.AuthResult + error) :=
  let apiKey := AU.GetHeader req (HeaderName (config a)) in
  if bool_decide (apiKey = "") then mret (inl (AU.AuthFailure AU.ErrMissingCredentials "api_key"))
  else
    let apiKey := TrimSpace apiKey in
    let keyHash := hashKey apiKey in
    found ← Lookup (store a) keyHash;
    match found with
    | inr err => mret (inr err)
    | inl None => mret (inl (AU.AuthFailure AU.ErrInvalidCredentials "api_key"))
    | inl (Some info) =>
        (* [time.Now] is read only when the key has an expiry *)
        expired ← (if negb (time_IsZero (ExpiresAt info))
                   then now ← time_Now; mret (time_After now (ExpiresAt info))
                   else mret false);
        if (expired : bool) then mret (inl (AU.AuthFailure AU.ErrTokenExpired "api_key"))
        else mret (inl (AU.AuthSuccess (identity_of info)))
    end.

Definition APIKey_Authenticator : AU.Authenticator W :=
  AU.MkAuthenticator "api_key" Supports Authenticate.
End Authenticator.

(** *** Its contract: over any store that keeps the invariant *)
Lemma apikey_contract {W S} `{GoEnv W} (q : Ptr W S) (I : S → Prop) (a : APIKeyAuthenticator W) :
  EnvFrame q → (∀ h, keeps I q (Lookup (store a) h)) →
  AU.Contract q I [AU.AuthMethodAPIKey] (APIKey_Authenticator a).
Proof.
  intros Hf Hs. split.
  - intros req. simpl. unfold Authenticate. case_bool_decide; [apply keeps_ret|].
    apply keeps_bind; [apply Hs|]. intros [[info|]|err]; [|apply keeps_ret..].
    apply keeps_bind.
    + case_match; [|apply keeps_ret]. apply keeps_bind; [|intros; apply keeps_ret].
      by apply keeps_services.
    + intros []; apply keeps_ret.
  - intros req w r w' _. simpl. unfold Authenticate.
    case_bool_decide; [intros [= <- _]; apply AU.typed_failure|].
    rewrite go_bind_run. destruct (Lookup (store a) _ w) as [[[[info|]|err]|msg|] w1]; [|by intros [= <- _]; apply AU.typed_failure|done..].
    rewrite go_bind_run. destruct (_ w1) as [[[]|msg|] w2]; [| |done..]; intros [= <- _];
      [apply AU.typed_failure | apply AU.typed_success; constructor].
Qed.

(** ** The memory store *)

Section Store.
Context {W : Type} (p : Ptr W (gmap string APIKeyInfo)).

Definition NewMemoryAPIKeyStore : gmap string APIKeyInfo := ∅.

Definition mem_Lookup (keyHash : string) : Go W (option APIKeyInfo + error) :=
  go_get (λ w, inl (load p w !! keyHash)).
Definition mem_Add (info : APIKeyInfo) : Go W (option error) :=
  locked p (λ keys, (None, <[KeyHash info := info]> keys)).
Definition mem_Remove (keyHash : string) : Go W (option error) :=
  locked p (λ keys, (None, delete keyHash keys)).

Definition MemoryAPIKeyStore : APIKeyStore W := MkStore mem_Lookup.
End Store.

(** ** The decision *)

Section Decision.
Context {W : Type} `{GoEnv W} (p : Ptr W (gmap string APIKeyInfo)) (cfg : APIKeyConfig).

Definition auth : APIKeyAuthenticator W := NewAPIKeyAuthenticator cfg (MemoryAPIKeyStore p).

(** The hash a key is looked up by: itself when keys are stored in the clear, else its SHA-256. *)
Definition lookup_hash (key : string) : string :=
  if decide (HashAlgorithm cfg = "plain") then key else HashAPIKey key.

Lemma hashKey_lookup key : hashKey auth key = lookup_hash key.
Proof.
  unfold hashKey, lookup_hash, HashAPIKey. simpl.
  destruct (decide (HashAlgorithm cfg = "plain")) as [->|Hp]; [done|].
  destruct (decide (HashAlgorithm cfg = "")) as [->|He]; [done|].
  rewrite (bool_decide_false (HashAlgorithm cfg = "")), (bool_decide_false (HashAlgorithm cfg = "plain")) by done.
  by case_match.
Qed.

(** The information the store has for the key of a request. *)
Definition key_info (req : AU.AuthRequest) (w : W) : option APIKeyInfo :=
  load p w !! lookup_hash (TrimSpace (AU.GetHeader req (HeaderName (config auth)))).

Definition live (now : Time) (info : APIKeyInfo) : Prop :=
  ExpiresAt info = 0 ∨ now ≤ ExpiresAt info.

Lemma Authenticate_run req w :
  ∃ w', (w' = w ∨ w' = (env_now w).2) ∧ Authenticate auth req w =
    (Val (inl
      (if bool_decide (AU.GetHeader req (HeaderName (config auth)) = "")
       then AU.AuthFailure AU.ErrMissingCredentials "api_key"
       else
         match key_info req w with
         | None => AU.AuthFailure AU.ErrInvalidCredentials "api_key"
         | Some info =>
             if negb (time_IsZero (ExpiresAt info)) && time_After (env_now w).1 (ExpiresAt info)
             then AU.AuthFailure AU.ErrTokenExpired "api_key"
             else AU.AuthSuccess (identity_of info)
         end)), w').
Proof.
  unfold Authenticate, key_info. rewrite <- hashKey_lookup.
  destruct (bool_decide (AU.GetHeader req (HeaderName (config auth)) = "")); [by eauto|].
  rewrite go_bind_run. simpl. unfold mem_Lookup, go_get.
  destruct (load p w !! _) as [info|]; [|by eauto].
  rewrite go_bind_run. destruct (time_IsZero (ExpiresAt info)); simpl; [by eauto|].
  rewrite go_bind_run. unfold time_Now, go_lift. destruct (env_now w) as [now w1]. simpl.
  exists w1. split; [by right|]. by destruct (time_After now (ExpiresAt info)).
Qed.

(** The identity of a key: who it belongs to, the method, and the metadata as claims, among
    which [key_id] is the key's own identifier, whatever the metadata says. *)
Definition identifies (info : APIKeyInfo) (id : AU.Identity) : Prop :=
  AU.Principal id = Principal info ∧ AU.TenantID id = TenantID info ∧ AU.Roles id = Roles info ∧
  AU.Method id = AU.AuthMethodAPIKey ∧ AU.ExpiresAt id = ExpiresAt info ∧
  AU.IdClaims id !! "key_id" = Some (AU.CString (ID info)) ∧
  ∀ k, k ≠ "key_id" → AU.IdClaims id !! k = Metadata info !! k.

Lemma identity_identifies info : identifies info (identity_of info).
Proof. unfold identifies. simpl. rewrite lookup_insert_eq. split_and!; try done. intros k Hk. by rewrite lookup_insert_ne. Qed.

(** A refusal that names [err], and an acceptance. *)
Definition refused (r : AU.AuthResult) (err : error) : Prop := r = AU.MkResult false None (Some err) "api_key".
Definition accepted (r : AU.AuthResult) (info : APIKeyInfo) : Prop :=
  ∃ id, r = AU.MkResult true (Some id) None "api_key" ∧ identifies info id.

(** C13. A request has one of four outcomes, and its key and the store decide which.  Without a
    key in the header the credentials are missing; a key that, trimmed and hashed, is not in the
    store is invalid; one that is there and has expired is reported as expired; any other is
    accepted, with the identity stored for it.  The authenticator fails with no other error, and
    leaves the store as it is. *)
Theorem Authenticate_iff_stored req w o w' :
  Authenticate auth req w = (o, w') →
  (EnvFrame p → load p w' = load p w) ∧
  ∃ r, o = Val (inl r) ∧
    (AU.GetHeader req (HeaderName (config auth)) = "" → refused r AU.ErrMissingCredentials) ∧
    (AU.GetHeader req (HeaderName (config auth)) ≠ "" →
      (key_info req w = None → refused r AU.ErrInvalidCredentials) ∧
      ∀ info, key_info req w = Some info →
        (live (env_now w).1 info → accepted r info) ∧
        (¬ live (env_now w).1 info → refused r AU.ErrTokenExpired)).
Proof.
  intros HE. destruct (Authenticate_run req w) as (w1 & Hw1 & Hr). rewrite Hr in HE.
  clear Hr. injection HE as <- <-. split; [by intros Hf; destruct Hw1 as [->| ->]; [|apply Hf]|].
  eexists. split; [reflexivity|]. case_bool_decide as Eh; [split; [intros _; reflexivity|intros Hne; by destruct Hne]|]. split; [done|]. intros _.
  destruct (key_info req w) as [info|]; [|done]. split; [done|]. intros info' [= <-].
  unfold live, time_IsZero, time_After, accepted.
  destruct (ExpiresAt info =? 0) eqn:Ez; [|destruct (ExpiresAt info <? (env_now w).1) eqn:Ee]; simpl; zbool.
  - split; [|tauto]. intros _. eexists. split; [reflexivity|]. apply identity_identifies.
  - split; [lia | done].
  - split; [|lia]. intros _. eexists. split; [reflexivity|]. apply identity_identifies.
Qed.

(** A key that is added authenticates as its principal, from any request that carries
    it, until it expires; once removed it is refused. *)
Theorem Add_then_Authenticate key info req w :
  HashAlgorithm cfg ≠ "plain" → KeyHash info = HashAPIKey key →
  AU.GetHeader req (HeaderName (config auth)) = key → key ≠ "" → TrimSpace key = key →
  ∃ w1, mem_Add p info w = (Val None, w1) ∧
    (live (env_now w1).1 info →
      ∃ w2, Authenticate auth req w1 = (Val (inl (AU.AuthSuccess (identity_of info))), w2)) ∧
    ∃ w3 w4, mem_Remove p (HashAPIKey key) w1 = (Val None, w3) ∧
      Authenticate auth req w3 =
        (Val (inl (AU.AuthFailure AU.ErrInvalidCredentials "api_key")), w4).
Proof.
  intros Halg Hk Hh Hne Ht.
  assert (∀ w, key_info req w = load p w !! HashAPIKey key) as Hki.
  { intros w0. unfold key_info, lookup_hash. by rewrite Hh, Ht, decide_False. }
  set (w1 := GoRuntime.store p (<[KeyHash info := info]> (load p w)) w).
  exists w1. split; [done|]. split.
  - intros Hl. destruct (Authenticate_run req w1) as (w2 & _ & Hr). exists w2. rewrite Hr.
    rewrite bool_decide_false by (by rewrite Hh). rewrite Hki. unfold w1 at 1.
    rewrite load_store, Hk, lookup_insert_eq.
    unfold live, time_IsZero, time_After in *. destruct (ExpiresAt info =? 0) eqn:Ez; simpl; [done|].
    zbool. rewrite (proj2 (Z.ltb_ge _ _)) by (destruct Hl; lia). done.
  - set (w3 := GoRuntime.store p (delete (HashAPIKey key) (load p w1)) w1).
    destruct (Authenticate_run req w3) as (w4 & _ & Hr). exists w3, w4. split; [done|].
    rewrite Hr, bool_decide_false by (by rewrite Hh). rewrite Hki. unfold w3 at 1.
    by rewrite load_store, lookup_delete_eq.
Qed.
End Decision.
End ApiKey.

(** ** Witnesses *)

Definition demo_info : APIKeyInfo :=
  MkInfo "k1" (HashAPIKey id "s3cret") "bob" "t" ["ops"] 2000 ∅.
Definition demo_world (keys : gmap string APIKeyInfo) : World (gmap string APIKeyInfo) :=
  MkWorld 1000 0 [] [] 0 [] keys.
Definition demo_req (key : string) : AU.AuthRequest :=
  AU.MkRequest {["X-API-Key" := [key]]} "".
Definition demo_cfg : APIKeyConfig := MkConfig "" "".

(** The outcome for the demonstration key, at a time. *)
Definition demo_outcome (now : Time) (key : string) : outcome (AU.AuthResult + error) :=
  (Authenticate id (auth cell demo_cfg) (demo_req key) (w_set_clock now (demo_world {[KeyHash demo_info := demo_info]}))).1.

Lemma Authenticate_iff_stored_witness :
  (∃ r, demo_outcome 1000 " s3cret " = Val (inl r) ∧ accepted r demo_info) ∧
  (∃ r, demo_outcome 3000 "s3cret" = Val (inl r) ∧ refused r AU.ErrTokenExpired) ∧
  (∃ r, demo_outcome 1000 "guess" = Val (inl r) ∧ refused r AU.ErrInvalidCredentials) ∧
  ∃ r, demo_outcome 1000 "" = Val (inl r) ∧ refused r AU.ErrMissingCredentials.
Proof.
  unfold demo_outcome. split_and!.
  - destruct (Authenticate_iff_stored id cell demo_cfg _ _ _ _ (surjective_pairing (Authenticate id (auth cell demo_cfg)
      (demo_req " s3cret ") (w_set_clock 1000 (demo_world {[KeyHash demo_info := demo_info]})))))
      as (_ & r & HE & _ & Hr). exists r. split; [exact HE|].
    apply Hr; [by vm_compute | by vm_compute | right; by vm_compute].
  - destruct (Authenticate_iff_stored id cell demo_cfg _ _ _ _ (surjective_pairing (Authenticate id (auth cell demo_cfg)
      (demo_req "s3cret") (w_set_clock 3000 (demo_world {[KeyHash demo_info := demo_info]})))))
      as (_ & r & HE & _ & Hr). exists r. split; [exact HE|].
    destruct (Hr ltac:(by vm_compute)) as [_ Hi].
    apply (Hi demo_info); [by vm_compute | intros [Hl|Hl]; by vm_compute in Hl].
  - destruct (Authenticate_iff_stored id cell demo_cfg _ _ _ _ (surjective_pairing (Authenticate id (auth cell demo_cfg)
      (demo_req "guess") (w_set_clock 1000 (demo_world {[KeyHash demo_info := demo_info]})))))
      as (_ & r & HE & _ & Hr). exists r. split; [exact HE|]. apply Hr; by vm_compute.
  - destruct (Authenticate_iff_stored id cell demo_cfg _ _ _ _ (surjective_pairing (Authenticate id (auth cell demo_cfg)
      (demo_req "") (w_set_clock 1000 (demo_world {[KeyHash demo_info := demo_info]})))))
      as (_ & r & HE & Hr & _). exists r. split; [exact HE|]. apply Hr. by vm_compute.
Defined.

Lemma Add_then_Authenticate_witness :
  ∃ w1, mem_Add cell demo_info (demo_world ∅) = (Val None, w1) ∧
    ∃ w2, Authenticate id (auth cell demo_cfg) (demo_req "s3cret") w1 =
      (Val (inl (AU.AuthSuccess (identity_of demo_info))), w2).
Proof.
  destruct (Add_then_Authenticate id cell demo_cfg "s3cret" demo_info (demo_req "s3cret")
    (demo_world ∅)) as (w1 & H1 & H2 & _); [by vm_compute..|].
  exists w1. split; [done|]. apply H2. right.
  assert (w1 = (mem_Add cell demo_info (demo_world ∅)).2) as -> by (by rewrite H1).
  by vm_compute.
Defined.

End AK.
