(* ===== verification/Jwt.v ===== *)
(** * auth/jwt.go: JWT authentication

    [jwt.Parse] of golang-jwt is an argument: given the text of a token and the function
    that finds the key for the token's header, it answers with a token or an error, of
    which the code looks at the text. *)

From S2P Require Import Prelude.
From S2P Require Import GoRuntime.
From S2P Require Import GoFloat.
From S2P Require Import GoString.
From S2P Require Import GoEncoding.
From S2P Require Import Auth.
Local Open Scope Z_scope.
Local Open Scope stdpp_scope.

Module JW.

Record JWTConfig := MkConfig {
  Issuer : string;
  Audience : string;
  HeaderName : string;
  TokenPrefix : string;
  PrincipalClaim : string;
  TenantClaim : string;
  RolesClaim : string;
}.

(** [KeyProvider]; [K] is the type of keys. *)
Record KeyProvider (W K : Type) := MkProvider {
  GetKey : string → Go W (K + error);
}.
Arguments MkProvider {W K} _.
Arguments GetKey {W K} _ _.

Definition StaticKeyProvider {W K} (key : K) : KeyProvider W K := MkProvider (λ _, mret (inl key)).

(** A parsed token: whether it is valid, and its claims when they are a [MapClaims]. *)
Record token := MkToken {
  Valid : bool;
  TokenClaims : option AU.Claims;
}.

Definition orElse (s default : string) : string := if bool_decide (s = "") then default else s.

Definition NewConfig (cfg : JWTConfig) : JWTConfig :=
  MkConfig (Issuer cfg) (Audience cfg) (orElse (HeaderName cfg) "Authorization")
    (orElse (TokenPrefix cfg) "Bearer ") (orElse (PrincipalClaim cfg) "sub")
    (TenantClaim cfg) (RolesClaim cfg).

Record JWTAuthenticator (W K : Type) := MkJWT {
  config : JWTConfig;
  keyProvider : KeyProvider W K;
}.
Arguments MkJWT {W K} _ _.
Arguments config {W K} _.
Arguments keyProvider {W K} _.

Definition NewJWTAuthenticator {W K} (cfg : JWTConfig) (kp : KeyProvider W K) : JWTAuthenticator W K :=
  MkJWT (NewConfig cfg) kp.

(** ** Claims *)

Definition getAudience (claims : AU.Claims) : list string :=
  match claims !! "aud" with
  | Some (AU.CString s) => [s]
  | Some (AU.CArray l) => AU.strings_of l
  | _ => []
  end.

Definition containsAudience (audiences : list string) (target : string) : bool :=
  existsb (λ aud, bool_decide (aud = target)) audiences.

Definition buildIdentity (a : arch) (cfg : JWTConfig) (claims : AU.Claims) : AU.Identity :=
  let principal := default "" (AU.as_string (claims !! PrincipalClaim cfg)) in
  let tenant :=
    if bool_decide (TenantClaim cfg = "") then ""
    else default "" (AU.as_string (claims !! TenantClaim cfg)) in
  let roles :=
    if bool_decide (RolesClaim cfg = "") then []
    else match AU.as_array (claims !! RolesClaim cfg) with
         | Some l => AU.strings_of l
         | None => []
         end in
  let instant name :=
    match AU.as_number (claims !! name) with
    | Some f => time_Unix (int64_of_f a f)
    | None => 0
    end in
  AU.MkIdentity principal tenant roles [] AU.AuthMethodJWT claims (instant "exp") (instant "iat").

(** ** Authentication *)

Section Authenticator.
Context {W K : Type} (arch : arch).
Context (jwt_Parse : string → (AU.Claims → Go W (K + error)) → Go W (token + string)).
Context (a : JWTAuthenticator W K).

Definition Supports (req : AU.AuthRequest) : bool :=
  HasPrefix (AU.GetHeader req (HeaderName (config a))) (TokenPrefix (config a)).

(** The function passed to [jwt.Parse]: the key for the [kid] of the token's header. *)
Definition keyfunc (header : AU.Claims) : Go W (K + error) :=
  GetKey (keyProvider a) (default "" (AU.as_string (header !! "kid"))).

Definition failure (err : error) : AU.AuthResult + error := inl (AU.AuthFailure err "jwt").

Definition Authenticate (req : AU.AuthRequest) : Go W (AU.AuthResult + error) :=
  let header := AU.GetHeader req (HeaderName (config a)) in
  if bool_decide (header = "") then mret (failure AU.ErrMissingCredentials)
  else
    let tokenString := TrimPrefix header (TokenPrefix (config a)) in
    if bool_decide (tokenString = header) then mret (failure AU.ErrMissingCredentials)
    else
      let tokenString := TrimSpace tokenString in
      parsed ← jwt_Parse tokenString keyfunc;
      mret
        match parsed with
        | inr text =>
            if Contains text "expired" then failure AU.ErrTokenExpired
            else failure AU.ErrTokenMalformed
        | inl token =>
            if negb (Valid token) then failure AU.ErrInvalidCredentials
            else
              match TokenClaims token with
              | None => failure AU.ErrTokenMalformed
              | Some claims =>
                  if negb (bool_decide (Issuer (config a) = ""))
                     && negb (bool_decide (AU.as_string (claims !! "iss") = Some (Issuer (config a))))
                  then failure AU.ErrInvalidCredentials
                  else if negb (bool_decide (Audience (config a) = ""))
                          && negb (containsAudience (getAudience claims) (Audience (config a)))
                  then failure AU.ErrInvalidCredentials
                  else inl (AU.AuthSuccess (buildIdentity arch (config a) claims))
              end
        end.

Definition JWT_Authenticator : AU.Authenticator W := AU.MkAuthenticator "jwt" Supports Authenticate.

(** The checks the code makes on the claims of a valid token. *)
Definition claims_ok (claims : AU.Claims) : Prop :=
  (Issuer (config a) ≠ "" → claims !! "iss" = Some (AU.CString (Issuer (config a)))) ∧
  (Audience (config a) ≠ "" → Audience (config a) ∈ getAudience claims).

Lemma as_string_Some c s : AU.as_string c = Some s ↔ c = Some (AU.CString s).
Proof. destruct c as [[]|]; simpl; split; congruence. Qed.

(** C14. A token authenticates only if it follows the configured prefix, [jwt.Parse] accepts
    it as valid with the provider's keys, and its issuer and audience are the configured
    ones; the identity is built from the claims of that token. *)
Theorem Authenticate_only_validated req w r w' :
  Authenticate req w = (Val (inl r), w') → AU.Authenticated r = true →
  ∃ rest token claims,
    AU.GetHeader req (HeaderName (config a)) = TokenPrefix (config a) +:+ rest ∧
    jwt_Parse (TrimSpace rest) keyfunc w = (Val (inl token), w') ∧ Valid token = true ∧
    TokenClaims token = Some claims ∧ claims_ok claims ∧
    AU.ResIdentity r = Some (buildIdentity arch (config a) claims).
Proof.
  unfold Authenticate. set (header := AU.GetHeader _ _). intros HE Hr.
  case_bool_decide as E1; [unfold mret, go_ret in HE; by simplify_eq|].
  unfold TrimPrefix in HE. destruct (strip (TokenPrefix (config a)) header) as [rest|] eqn:Es; simpl in HE.
  2: { rewrite bool_decide_true in HE by done. unfold mret, go_ret in HE. by simplify_eq. }
  case_bool_decide as E2; [unfold mret, go_ret in HE; by simplify_eq|].
  rewrite go_bind_run in HE.
  destruct (jwt_Parse (TrimSpace rest) keyfunc w) as [[[token|text]|msg|] w1] eqn:Ep; try done;
    unfold mret, go_ret in HE.
  2: { destruct (Contains text "expired"); by simplify_eq. }
  destruct (Valid token) eqn:Ev; simpl in HE; [|by simplify_eq].
  destruct (TokenClaims token) as [claims|] eqn:Ec; [|by simplify_eq].
  destruct (negb _ && _) eqn:Ei; [by simplify_eq|].
  destruct (negb (bool_decide (Audience (config a) = "")) && _) eqn:Ea; [by simplify_eq|].
  injection HE as <- <-. exists rest, token, claims. apply strip_spec in Es. split_and!; try done.
  split; intros Hne.
  - rewrite bool_decide_false in Ei by done. simpl in Ei. zbool. by apply as_string_Some.
  - rewrite bool_decide_false in Ea by done. simpl in Ea. zbool.
    apply existsb_true_iff in Ea as (x & Hx & Hd). zbool. by subst.
Qed.

(** Conversely, a token that passes these checks authenticates; and the outcomes for
    the others are failures with the error of their kind. *)
Theorem Authenticate_outcomes req w rest :
  let header := AU.GetHeader req (HeaderName (config a)) in
  header = TokenPrefix (config a) +:+ rest → TokenPrefix (config a) ≠ "" →
  match jwt_Parse (TrimSpace rest) keyfunc w with
  | (Val (inl token), w') =>
      (∀ claims, Valid token = true → TokenClaims token = Some claims → claims_ok claims →
        Authenticate req w =
          (Val (inl (AU.AuthSuccess (buildIdentity arch (config a) claims))), w')) ∧
      (Valid token = false → Authenticate req w = (Val (failure AU.ErrInvalidCredentials), w'))
  | (Val (inr text), w') =>
      Authenticate req w = (Val (failure (if Contains text "expired" then AU.ErrTokenExpired
                                          else AU.ErrTokenMalformed)), w')
  | (Panic msg, w') => Authenticate req w = (Panic msg, w')
  | (OutOfFuel, w') => Authenticate req w = (OutOfFuel, w')
  end.
Proof.
  intros header Hh Hp. unfold Authenticate. fold header.
  assert (header ≠ "") as Hne by (rewrite Hh; by destruct (TokenPrefix (config a))).
  rewrite bool_decide_false by done. unfold TrimPrefix. rewrite Hh, strip_append. simpl.
  rewrite bool_decide_false.
  2: { intros E. apply (f_equal String.length) in E. rewrite length_append in E.
       destruct (TokenPrefix (config a)); [done | simpl in E; lia]. }
  rewrite go_bind_run.
  destruct (jwt_Parse (TrimSpace rest) keyfunc w) as [[[token|text]|msg|] w1]; [| |done..].
  - split; [|by intros ->]. intros claims -> -> [Hi Ha]. simpl.
    assert (negb (bool_decide (Issuer (config a) = ""))
      && negb (bool_decide (AU.as_string (claims !! "iss") = Some (Issuer (config a)))) = false) as ->.
    { case_bool_decide; [done|]. rewrite Hi by done. simpl. by rewrite bool_decide_true. }
    assert (negb (bool_decide (Audience (config a) = ""))
      && negb (containsAudience (getAudience claims) (Audience (config a))) = false) as ->; [|done].
    case_bool_decide as E; [done|]. simpl. apply negb_false_iff, existsb_true_iff.
    exists (Audience (config a)). split; [by apply Ha | by apply bool_decide_true].
  - by destruct (Contains text "expired").
Qed.
End Authenticator.

(** ** Its contract, over a parser that touches nothing but what the key function touches *)
Definition parser_frame {W K S} (jwt_Parse : string → (AU.Claims → Go W (K + error)) → Go W (token + string))
    (p : Ptr W S) (I : S → Prop) : Prop :=
  ∀ text kf, (∀ h, keeps I p (kf h)) → keeps I p (jwt_Parse text kf).

Lemma jwt_contract {W K S} arch jwt_Parse (p : Ptr W S) (I : S → Prop) (a : JWTAuthenticator W K) :
  parser_frame jwt_Parse p I → (∀ kid, keeps I p (GetKey (keyProvider a) kid)) →
  AU.Contract p I [AU.AuthMethodJWT] (JWT_Authenticator arch jwt_Parse a).
Proof.
  intros Hp Hk. split.
  - intros req. simpl. unfold Authenticate. do 2 (case_bool_decide; [apply keeps_ret|]).
    apply keeps_bind; [apply Hp; intros h; apply Hk | intros; apply keeps_ret].
  - intros req w r w' _. simpl. unfold Authenticate, failure.
    do 2 (case_bool_decide; [intros [= <- _]; apply AU.typed_failure|]).
    rewrite go_bind_run. destruct (jwt_Parse _ _ w) as [[[tok|text]|msg|] w1]; [| |done..].
    + unfold mret, go_ret. repeat case_match; intros; simplify_eq; try apply AU.typed_failure.
      apply AU.typed_success. constructor.
    + unfold mret, go_ret. case_match; intros; simplify_eq; apply AU.typed_failure.
Qed.

(** ** Witnesses *)

(** A parser that accepts one text with given claims, and asks for its key. *)
Definition demo_parse (claims : AU.Claims) (text : string)
    (key : AU.Claims → Go unit (nat + error)) : Go unit (token + string) :=
  k ← key ∅;
  mret match k with
  | inl _ => if bool_decide (text = "abc") then inl (MkToken true (Some claims))
             else inr "token is expired"
  | inr _ => inr "no key"
  end.

Definition demo_claims : AU.Claims :=
  {["iss" := AU.CString "me"; "sub" := AU.CString "alice"; "aud" := AU.CArray [AU.CString "x"; AU.CString "y"]]}.

Definition demo : JWTAuthenticator unit nat :=
  NewJWTAuthenticator (MkConfig "me" "y" "" "" "" "" "") (StaticKeyProvider 7%nat).

Definition demo_req (h : string) : AU.AuthRequest := AU.MkRequest {["Authorization" := [h]]} "".

Lemma Authenticate_only_validated_witness :
  ∃ rest token claims, "Bearer abc" = "Bearer " +:+ rest ∧
    demo_parse demo_claims (TrimSpace rest) (keyfunc demo) () = (Val (inl token), ()) ∧
    TokenClaims token = Some claims ∧ claims_ok demo claims.
Proof.
  destruct (Authenticate_only_validated AMD64 (demo_parse demo_claims) demo (demo_req "Bearer abc") ()
    (AU.AuthSuccess (buildIdentity AMD64 (config demo) demo_claims)) ())
    as (rest & token & claims & H1 & H2 & _ & H3 & H4 & _); [by vm_compute | done |].
  by exists rest, token, claims.
Defined.

Lemma Authenticate_outcomes_witness :
  Authenticate AMD64 (demo_parse demo_claims) demo (demo_req "Bearer old") () =
    (Val (failure AU.ErrTokenExpired), ()).
Proof. exact (Authenticate_outcomes AMD64 (demo_parse demo_claims) demo (demo_req "Bearer old") () "old" eq_refl ltac:(done)). Defined.

End JW.
