(* ===== verification/Jwks.v ===== *)
(** * auth/jwks.go: signing keys from a JWKS endpoint

    The HTTP exchange is an argument (a status and the decoded body, or an error); so is
    the key that Go's random map iteration meets first ([first]).  The definitions here are
    one call, from its start to its answer; calls that overlap are in [JwksConcurrent]. *)

From S2P Require Import Prelude.
From S2P Require Import GoRuntime.
From S2P Require Import GoString.
From S2P Require Import GoEncoding.
From S2P Require Import Auth.
From S2P Require Import Jwt.
From stdpp Require Import pretty.
Local Open Scope Z_scope.
Local Open Scope stdpp_scope.

Module JK.

(** ** Keys *)

Record jwkKey := MkJwk {
  Kty : string;
  Kid : string;
  Use : string;
  Alg : string;
  jN : string;
  jE : string;
}.

Record PublicKey := MkRSA { rsa_N : Z; rsa_E : Z }.

#[export] Instance PublicKey_eq_dec : EqDecision PublicKey.
Proof. solve_decision. Defined.

(** The error of the decoder, without the offset it names. *)
Definition base64_CorruptInputError : error := Sentinel "illegal base64 data".

Definition parseRSAPublicKey (jwk : jwkKey) : PublicKey + error :=
  if bool_decide (jN jwk = "") then inr (Errorf "missing n parameter" [])
  else if bool_decide (jE jwk = "") then inr (Errorf "missing e parameter" [])
  else
    match base64_RawURL_Decode (jN jwk) with
    | None => inr (ErrorfW "decode n: %w" [] base64_CorruptInputError)
    | Some nBytes =>
        match base64_RawURL_Decode (jE jwk) with
        | None => inr (ErrorfW "decode e: %w" [] base64_CorruptInputError)
        | Some eBytes => inl (MkRSA (big_SetBytes nBytes) (wrap64 (big_SetBytes eBytes)))
        end
    end.

(** ** The provider *)

Record JWKSConfig := MkConfig { URL : string; CacheTTL : Duration }.

Record JWKSKeyProvider := MkJWKS {
  config : JWKSConfig;
  keys : gmap string PublicKey;
  cacheTime : Time;
  lastFetched : gmap string PublicKey;
}.

Definition NewJWKSKeyProvider (cfg : JWKSConfig) : JWKSKeyProvider :=
  MkJWKS (MkConfig (URL cfg) (if CacheTTL cfg =? 0 then Hour else CacheTTL cfg)) ∅ 0 ∅.

(** The answer of the endpoint: [jwksResponse] has one field, the keys. *)
Record http_response := MkResponse { StatusCode : Z; Body : list jwkKey + error }.

(** The keys of a response: the RSA keys that parse, the last one for each [kid]. *)
Definition parse_keys (jwks : list jwkKey) : gmap string PublicKey :=
  foldl (λ acc jwk,
    if negb (bool_decide (Kty jwk = "RSA")) then acc
    else match parseRSAPublicKey jwk with
         | inl k => <[Kid jwk := k]> acc
         | inr _ => acc
         end) ∅ jwks.

Section Provider.
Context {W : Type} `{GoEnv W} (p : Ptr W JWKSKeyProvider).
Context (http_NewRequest : string → option error) (http_Get : string → Go W (http_response + error)).
Context (first : gmap string PublicKey → option PublicKey).

Definition lookup_in (m : gmap string PublicKey) (keyID : string) : option PublicKey :=
  if bool_decide (keyID = "") then first m else m !! keyID.

Definition lookupKeyLocked (keyID : string) (s : JWKSKeyProvider) : option PublicKey :=
  lookup_in (keys s) keyID.
Definition lookupFromBackupLocked (keyID : string) (s : JWKSKeyProvider) : option PublicKey :=
  lookup_in (lastFetched s) keyID.

(** The new keys replace the cached ones; the backup keeps every key ever fetched. *)
Definition update (ks : gmap string PublicKey) (now : Time) (s : JWKSKeyProvider) : JWKSKeyProvider :=
  MkJWKS (config s) ks now (ks ∪ lastFetched s).

(** The first half of [refresh]: the request, up to the decoded keys. *)
Definition fetch : Go W (list jwkKey + error) :=
  s ← go_get (load p);
  let url := URL (config s) in
  match http_NewRequest url with
  | Some err => mret (inr (ErrorfW "create request: %w" [] err))
  | None =>
      resp ← http_Get url;
      mret
        match resp with
        | inr err => inr (ErrorfW "fetch JWKS: %w" [] err)
        | inl resp =>
            if negb (StatusCode resp =? 200)
            then inr (Errorf "unexpected status: %d" [pretty (StatusCode resp)])
            else
              match Body resp with
              | inr err => inr (ErrorfW "decode JWKS: %w" [] err)
              | inl keys => inl keys
              end
        end
  end.

Definition refresh : Go W (option error) :=
  jwks ← fetch;
  match jwks with
  | inr err => mret (Some err)
  | inl l =>
      now ← time_Now;
      _ ← locked p (λ s, ((), update (parse_keys l) now s));
      mret None
  end.

Definition GetKey (keyID : string) : Go W (PublicKey + error) :=
  now ← time_Now;
  s ← go_get (load p);
  let cacheValid := time_Since now (cacheTime s) <? CacheTTL (config s) in
  match (if cacheValid then lookupKeyLocked keyID s else None) with
  | Some key => mret (inl key)
  | None =>
      err ← refresh;
      s ← go_get (load p);
      match err with
      | Some err =>
          match lookupKeyLocked keyID s with
          | Some key => mret (inl key)
          | None =>
              match lookupFromBackupLocked keyID s with
              | Some key => mret (inl key)
              | None => mret (inr err)
              end
          end
      | None =>
          match lookupKeyLocked keyID s with
          | Some key => mret (inl key)
          | None => mret (inr AU.ErrKeyNotFound)
          end
      end
  end.

(** The provider as the JWT authenticator uses it. *)
Definition JWKS_KeyProvider : JW.KeyProvider W PublicKey := JW.MkProvider GetKey.

(** ** What [GetKey] answers *)

(** Some binding of the map, or nothing when there is none. *)
Definition iterates : Prop :=
  ∀ m, match first m with
       | Some k => ∃ kid, m !! kid = Some k
       | None => m = ∅
       end.

Lemma lookup_in_member m keyID k :
  iterates → lookup_in m keyID = Some k → ∃ kid, m !! kid = Some k ∧ (keyID ≠ "" → kid = keyID).
Proof.
  intros Hf. unfold lookup_in. case_bool_decide as E; [|by exists keyID].
  intros Hm. specialize (Hf m). rewrite Hm in Hf. destruct Hf as [kid ?]. by exists kid.
Qed.

Context `{!EnvFrame p}.

(** The request does not touch the provider. *)
Definition http_frame : Prop := ∀ url, preserves p (http_Get url).

Lemma fetch_frame : http_frame → preserves p fetch.
Proof.
  intros Hh. unfold fetch. apply preserves_bind; [by intros w|]. intros s.
  destruct (http_NewRequest _); [by intros w|]. apply preserves_bind; [apply Hh|].
  intros [[status body]|err]; [|by intros w]. destruct (negb _); [by intros w|]. by destruct body; intros w.
Qed.

Lemma refresh_run w :
  match fetch w with
  | (Val (inl l), w1) =>
      ∃ w2, refresh w = (Val None, w2) ∧ load p w2 = update (parse_keys l) (env_now w1).1 (load p w1)
  | (Val (inr err), w1) => refresh w = (Val (Some err), w1)
  | (Panic msg, w1) => refresh w = (Panic msg, w1)
  | (OutOfFuel, w1) => refresh w = (OutOfFuel, w1)
  end.
Proof.
  unfold refresh. rewrite go_bind_run. destruct (fetch w) as [[[l|err]|msg|] w1]; [|done..].
  rewrite go_bind_run. unfold time_Now, go_lift. pose proof (frame_now w1) as Hn.
  destruct (env_now w1) as [now w2]. simpl in Hn. rewrite go_bind_run. unfold locked, go_lift.
  simpl. eexists. split; [done|]. by rewrite load_store, Hn.
Qed.

Definition fresh (now : Time) (s : JWKSKeyProvider) : Prop :=
  time_Since now (cacheTime s) < CacheTTL (config s).

(** A key that is cached and fresh is answered without a request. *)
Theorem GetKey_cached keyID k w :
  fresh (env_now w).1 (load p w) → lookupKeyLocked keyID (load p w) = Some k →
  ∃ w', GetKey keyID w = (Val (inl k), w') ∧ w' = (env_now w).2.
Proof.
  intros Hf Hk. unfold GetKey. rewrite go_bind_run. unfold time_Now, go_lift.
  pose proof (frame_now w) as Hn. unfold fresh in Hf. destruct (env_now w) as [now w1]. simpl in *.
  rewrite go_bind_run. unfold go_get. rewrite Hn, (proj2 (Z.ltb_lt _ _)) by done. rewrite Hk.
  by eexists.
Qed.

(** A lookup that needs a request. *)
Lemma GetKey_miss keyID w :
  ¬ (fresh (env_now w).1 (load p w) ∧ is_Some (lookupKeyLocked keyID (load p w))) →
  GetKey keyID w =
    (err ← refresh;
     s ← go_get (load p);
     match err with
     | Some err =>
         match lookupKeyLocked keyID s with
         | Some key => mret (inl key)
         | None =>
             match lookupFromBackupLocked keyID s with
             | Some key => mret (inl key)
             | None => mret (inr err)
             end
         end
     | None =>
         match lookupKeyLocked keyID s with
         | Some key => mret (inl key)
         | None => mret (inr AU.ErrKeyNotFound)
         end
     end) (env_now w).2.
Proof.
  intros Hm. unfold GetKey. rewrite go_bind_run. unfold time_Now, go_lift.
  pose proof (frame_now w) as Hn. unfold fresh in Hm. destruct (env_now w) as [now w1]. simpl in *.
  rewrite go_bind_run. unfold go_get at 1. rewrite Hn.
  destruct (_ <? _) eqn:E; [|done]. zbool.
  destruct (lookupKeyLocked keyID (load p w)) eqn:Ek; [|done]. exfalso. apply Hm. eauto.
Qed.

(** C17. When the cache has not the key or is stale, the endpoint decides if it answers: a
    key is returned exactly when the response has it, under the asked identifier; when
    the request fails, a key fetched before is served instead, else the request's error. *)
Theorem GetKey_refreshes keyID w :
  iterates → http_frame →
  ¬ (fresh (env_now w).1 (load p w) ∧ is_Some (lookupKeyLocked keyID (load p w))) →
  match fetch (env_now w).2 with
  | (Val (inl l), w1) =>
      ∃ w2, GetKey keyID w =
        (Val (match lookup_in (parse_keys l) keyID with
              | Some k => inl k
              | None => inr AU.ErrKeyNotFound
              end), w2) ∧
        load p w2 = update (parse_keys l) (env_now w1).1 (load p w) ∧
        ∀ k, lookup_in (parse_keys l) keyID = Some k →
          ∃ kid, parse_keys l !! kid = Some k ∧ (keyID ≠ "" → kid = keyID)
  | (Val (inr err), w1) =>
      GetKey keyID w =
        (Val (match lookupKeyLocked keyID (load p w) with
              | Some k => inl k
              | None => match lookupFromBackupLocked keyID (load p w) with
                        | Some k => inl k
                        | None => inr err
                        end
              end), w1)
  | (Panic msg, w1) => GetKey keyID w = (Panic msg, w1)
  | (OutOfFuel, w1) => GetKey keyID w = (OutOfFuel, w1)
  end.
Proof.
  intros Hit Hframe Hm. rewrite (GetKey_miss keyID w Hm), go_bind_run.
  pose proof (refresh_run (env_now w).2) as Hr. pose proof (fetch_frame Hframe (env_now w).2) as Hl.
  pose proof (frame_now w) as Hn.
  destruct (fetch (env_now w).2) as [[[l|err]|msg|] w1]; simpl in Hl.
  - destruct Hr as (w2 & -> & Hw2). rewrite go_bind_run. unfold go_get.
    exists w2. rewrite Hw2, Hl, Hn. unfold lookupKeyLocked. simpl. split_and!; [|done|].
    + by destruct (lookup_in (parse_keys l) keyID).
    + intros k. by apply lookup_in_member.
  - rewrite Hr, go_bind_run. unfold go_get. rewrite Hl, Hn.
    destruct (lookupKeyLocked keyID (load p w)); [done|].
    by destruct (lookupFromBackupLocked keyID (load p w)).
  - by rewrite Hr.
  - by rewrite Hr.
Qed.

(** [GetKey] leaves other objects to the request. *)
Lemma GetKey_keeps {S} (q : Ptr W S) (I : S → Prop) keyID :
  EnvFrame q → ptr_disjoint p q → (∀ url, keeps I q (http_Get url)) → keeps I q (GetKey keyID).
Proof. intros Hq Hd Hh. unfold GetKey, refresh, fetch. keeps; apply Hh. Qed.
End Provider.

(** An empty identifier is answered with some key also when there are several. *)
Lemma empty_kid_any_key first m :
  iterates first → m ≠ ∅ → ∃ k, lookup_in first m "" = Some k.
Proof.
  intros Hit Hm. unfold lookup_in. simpl. specialize (Hit m).
  destruct (first m) as [k|]; [by exists k | done].
Qed.

(** ** Witnesses *)

Definition demo_first (m : gmap string PublicKey) : option PublicKey :=
  match map_to_list m with (_, k) :: _ => Some k | [] => None end.

Lemma demo_iterates : iterates demo_first.
Proof.
  intros m. unfold demo_first. destruct (map_to_list m) as [|[kid k] l] eqn:E.
  - by apply map_to_list_empty_iff.
  - exists kid. apply elem_of_map_to_list. rewrite E. by constructor.
Qed.

(** The answers of the endpoint come from a script. *)
Abbreviation state := (list (option (list jwkKey)) * JWKSKeyProvider)%type (only parsing).

Definition demo_Get (url : string) : Go (World state) (http_response + error) := λ w,
  let '(x, l) := pop (w_cell w).1 in
  (Val match x with Some ks => inl (MkResponse 200 (inl ks)) | None => inr (Foreign 5) end,
   store cell (l, (w_cell w).2) w).

Definition demo_New (url : string) : option error := None.

Definition provider : Ptr (World state) JWKSKeyProvider := ptr_snd cell.

Lemma demo_http_frame : http_frame provider demo_Get.
Proof. intros url w. unfold demo_Get. by destruct (pop _). Qed.

(** n = 35, e = 65537, in base64url. *)
Definition rsa (kid : string) : jwkKey := MkJwk "RSA" kid "sig" "RS256" "Iw" "AQAB".

Definition demo_world (script : list (option (list jwkKey))) : World state :=
  MkWorld (100 * Hour) Second [] [] 0 [] (script, NewJWKSKeyProvider (MkConfig "https://idp/jwks" 0)).

Lemma provider_frame : EnvFrame provider.
Proof. unfold provider. apply _. Qed.

Lemma GetKey_refreshes_witness :
  (GetKey provider demo_New demo_Get demo_first "a" (demo_world [Some [rsa "a"; rsa "b"]])).1
  = Val (inl (MkRSA 35 65537)).
Proof.
  pose proof provider_frame as Hf.
  destruct (GetKey_refreshes provider demo_New demo_Get demo_first "a" (demo_world [Some [rsa "a"; rsa "b"]])
    demo_iterates demo_http_frame) as (w2 & HG & _).
  - intros [Hfr _]. by vm_compute in Hfr.
  - rewrite HG. by vm_compute.
Defined.

(** After one request the key is cached. *)
Definition warm : World state :=
  (GetKey provider demo_New demo_Get demo_first "a" (demo_world [Some [rsa "a"; rsa "b"]; None; Some []])).2.

Lemma GetKey_cached_witness :
  (GetKey provider demo_New demo_Get demo_first "b" warm).1 = Val (inl (MkRSA 35 65537)).
Proof.
  pose proof provider_frame as Hf.
  destruct (GetKey_cached provider demo_New demo_Get demo_first "b" (MkRSA 35 65537) warm)
    as (w' & HG & _); [by vm_compute | by vm_compute | by rewrite HG].
Defined.

(** A key the endpoint has withdrawn is served again when a later request fails: the
    backup never forgets a key.  Here [a] is published, then withdrawn (so that it is not
    found), and then answered because the endpoint is down. *)
Theorem withdrawn_key_served_on_failure :
  ∃ w0, let get := GetKey provider demo_New demo_Get demo_first "a" in
  let w1 := (get w0).2 in
  let w2 := (get (w_set_clock (w_clock w1 + 2 * Hour) w1)).2 in
  (get w0).1 = Val (inl (MkRSA 35 65537)) ∧
  (get (w_set_clock (w_clock w1 + 2 * Hour) w1)).1 = Val (inr AU.ErrKeyNotFound) ∧
  (get w2).1 = Val (inl (MkRSA 35 65537)).
Proof.
  exists (demo_world [Some [rsa "a"]; Some [rsa "b"]; None]).
  split; [by vm_compute | split; by vm_compute].
Qed.

End JK.
