(* ===== verification/JwksConcurrent.v ===== *)
(** * auth/jwks.go: overlapping calls of [GetKey]

    The parts of [GetKey] and [refresh] between two accesses to the lock, to the group of
    [singleflight] or to the network are the steps of a relation; other goroutines run
    between them.  The group is not part of the repository: when it runs the function for a
    caller, and when it hands a caller the result of another one, are arguments, and that
    it runs one function at a time is a hypothesis of the one claim that needs it. *)

From stdpp Require Import relations.
From S2P Require Import Prelude.
From S2P Require Import GoRuntime.
From S2P Require Import GoString.
From S2P Require Import Auth.
From S2P Require Import Jwks.
Local Open Scope Z_scope.
Local Open Scope stdpp_scope.

Module JC.

Abbreviation keyset := (gmap string JK.PublicKey) (only parsing).

(** The points of a call of [GetKey]: before it, in [sfGroup.Do], in [refresh] with the keys of
    a response but before the lock, after [Do], and with the answer. *)
Inductive pc :=
| Calling (kid : string)
| InDo (kid : string)
| Fetched (kid : string) (ks : keyset)
| Shared (kid : string) (err : option error)
| Answered (kid : string) (ans : JK.PublicKey + error).

(** The goroutines, with three histories, newest first: the key sets of the responses, those
    that were installed in the provider, and the results of [refresh]. *)
Record sys (W : Type) := MkSys {
  world : W;
  callers : list pc;
  responses : list keyset;
  installed : list keyset;
  outcomes : list (option error);
}.
Arguments MkSys {W} _ _ _ _ _.
Arguments world {W} _.
Arguments callers {W} _.
Arguments responses {W} _.
Arguments installed {W} _.
Arguments outcomes {W} _.

Section Calls.
Context {W : Type} `{GoEnv W} (p : Ptr W JK.JWKSKeyProvider).
Context (http_NewRequest : string → option error)
  (http_Get : string → Go W (JK.http_response + error)).
Context (first : keyset → option JK.PublicKey).
Context (sf_runs : sys W → nat → Prop) (sf_shares : sys W → nat → option error → Prop).

Abbreviation fetch := (JK.fetch p http_NewRequest http_Get).

(** The first block under the lock: the cached key, when the cache is fresh. *)
Definition cached (kid : string) (now : Time) (s : JK.JWKSKeyProvider) : option JK.PublicKey :=
  if time_Since now (JK.cacheTime s) <? JK.CacheTTL (JK.config s)
  then JK.lookupKeyLocked first kid s else None.

(** The last block under the lock, after [Do] has returned [err]. *)
Definition answer (kid : string) (err : option error) (s : JK.JWKSKeyProvider) : JK.PublicKey + error :=
  match JK.lookupKeyLocked first kid s with
  | Some k => inl k
  | None =>
      match err with
      | Some err =>
          match JK.lookupFromBackupLocked first kid s with
          | Some k => inl k
          | None => inr err
          end
      | None => inr AU.ErrKeyNotFound
      end
  end.

Inductive step : relation (sys W) :=
| step_call w cs i kid rs ins outs :
    cs !! i = Some (Calling kid) →
    step (MkSys w cs rs ins outs)
      (MkSys (env_now w).2
         (<[i := match cached kid (env_now w).1 (load p w) with
                 | Some k => Answered kid (inl k)
                 | None => InDo kid
                 end]> cs) rs ins outs)
| step_fetch w w' cs i kid l rs ins outs :
    cs !! i = Some (InDo kid) → sf_runs (MkSys w cs rs ins outs) i →
    fetch w = (Val (inl l), w') →
    step (MkSys w cs rs ins outs)
      (MkSys w' (<[i := Fetched kid (JK.parse_keys l)]> cs) (JK.parse_keys l :: rs) ins outs)
| step_fail w w' cs i kid err rs ins outs :
    cs !! i = Some (InDo kid) → sf_runs (MkSys w cs rs ins outs) i →
    fetch w = (Val (inr err), w') →
    step (MkSys w cs rs ins outs)
      (MkSys w' (<[i := Shared kid (Some err)]> cs) rs ins (Some err :: outs))
| step_install w cs i kid ks rs ins outs :
    cs !! i = Some (Fetched kid ks) →
    step (MkSys w cs rs ins outs)
      (MkSys (store p (JK.update ks (env_now w).1 (load p w)) (env_now w).2)
         (<[i := Shared kid None]> cs) rs (ks :: ins) (None :: outs))
| step_share w cs i kid err rs ins outs :
    cs !! i = Some (InDo kid) → sf_shares (MkSys w cs rs ins outs) i err →
    step (MkSys w cs rs ins outs) (MkSys w (<[i := Shared kid err]> cs) rs ins outs)
| step_answer w cs i kid err rs ins outs :
    cs !! i = Some (Shared kid err) →
    step (MkSys w cs rs ins outs)
      (MkSys w (<[i := Answered kid (answer kid err (load p w))]> cs) rs ins outs)
(* the rest of the program, which does not touch the provider *)
| step_other w w' cs rs ins outs :
    load p w' = load p w → step (MkSys w cs rs ins outs) (MkSys w' cs rs ins outs).

(** Calls on a new provider. *)
Definition start (cfg : JK.JWKSConfig) (kids : list string) (s : sys W) : Prop :=
  load p (world s) = JK.NewJWKSKeyProvider cfg ∧
  s = MkSys (world s) (Calling <$> kids) [] [] [].

(** ** The invariant *)

(** The key is the one of a response that was installed, under the asked identifier. *)
Definition published (s : sys W) (kid : string) (k : JK.PublicKey) : Prop :=
  ∃ ks kid', ks ∈ installed s ∧ ks !! kid' = Some k ∧ (kid ≠ "" → kid' = kid).

Definition caller_ok (s : sys W) (c : pc) : Prop :=
  match c with
  | Shared _ (Some err) => Some err ∈ outcomes s
  | Answered kid (inl k) => published s kid k
  | Answered _ (inr err) => err = AU.ErrKeyNotFound ∨ Some err ∈ outcomes s
  | _ => True
  end.

Record inv (s : sys W) : Prop := {
  inv_keys : JK.keys (load p (world s)) = default ∅ (head (installed s));
  inv_backup : JK.lastFetched (load p (world s)) = ⋃ (installed s);
  inv_callers : ∀ c, c ∈ callers s → caller_ok s c;
}.

(** What the group relies on: it hands out results of the function only. *)
Definition shares_outcomes : Prop := ∀ s i err, sf_shares s i err → err ∈ outcomes s.

(** It runs the function for one caller at a time. *)
Definition one_at_a_time : Prop :=
  ∀ s i, sf_runs s i → ∀ kid ks, Fetched kid ks ∉ callers s.

Definition in_flight (c : pc) : option keyset := match c with Fetched _ ks => Some ks | _ => None end.

Lemma caller_ok_mono s s' c :
  (∀ ks, ks ∈ installed s → ks ∈ installed s') → (∀ o, o ∈ outcomes s → o ∈ outcomes s') →
  caller_ok s c → caller_ok s' c.
Proof.
  intros Hi Ho. destruct c as [| | |kid [err|]|kid [k|err]]; simpl; try done; eauto.
  - intros (ks & kid' & ? & ?). exists ks, kid'. eauto.
  - intros [?|?]; eauto.
Qed.

(** One caller moves, the others stay. *)
Lemma callers_insert (P : pc → Prop) (cs : list pc) (i : nat) c :
  (∀ c, c ∈ cs → P c) → P c → ∀ c', c' ∈ <[i:=c]> cs → P c'.
Proof.
  intros Hcs Hc c' [j Hj]%list_elem_of_lookup. apply list_lookup_insert_Some in Hj
    as [(-> & -> & _)|[_ Hj]]; [done|]. apply Hcs. by eapply list_elem_of_lookup_2.
Qed.

Context `{!EnvFrame p}.
Hypothesis Hfirst : JK.iterates first.
Hypothesis Hhttp : JK.http_frame p http_Get.
Hypothesis Hshares : shares_outcomes.

Lemma lookup_published s kid k :
  inv s → JK.lookupKeyLocked first kid (load p (world s)) = Some k → published s kid k.
Proof.
  intros Hs (kid' & Hk & Hkid)%(JK.lookup_in_member first); [|done].
  rewrite (inv_keys _ Hs) in Hk. destruct (installed s) as [|ks ins] eqn:E; [done|].
  exists ks, kid'. rewrite E. split; [constructor|]. done.
Qed.

Lemma backup_published s kid k :
  inv s → JK.lookupFromBackupLocked first kid (load p (world s)) = Some k → published s kid k.
Proof.
  intros Hs (kid' & Hk & Hkid)%(JK.lookup_in_member first); [|done].
  rewrite (inv_backup _ Hs) in Hk.
  assert (∃ ks, ks ∈ installed s ∧ ks !! kid' = Some k) as (ks & Hin & Hks); [|by exists ks, kid'].
  clear -Hk. induction (installed s) as [|ks ins IH]; [done|]. simpl in Hk.
  apply lookup_union_Some_raw in Hk as [Hk|[_ Hk]].
  - exists ks. split; [constructor|done].
  - destruct (IH Hk) as (ks' & ? & ?). exists ks'. split; [by constructor|done].
Qed.

Lemma answer_ok s kid err :
  inv s → caller_ok s (Shared kid err) → caller_ok s (Answered kid (answer kid err (load p (world s)))).
Proof.
  intros Hs He. unfold answer.
  destruct (JK.lookupKeyLocked first kid (load p (world s))) eqn:Ek; [by apply lookup_published|].
  destruct err as [err|]; [|by left].
  destruct (JK.lookupFromBackupLocked first kid (load p (world s))) eqn:Eb; [by apply backup_published|].
  by right.
Qed.

Lemma provider_step_inv s s' : inv s → step s s' → inv s'.
Proof.
  intros Hs Hst. destruct Hst as [w cs i kid rs ins outs Hi|w w' cs i kid l rs ins outs Hi Hr Hf|
    w w' cs i kid err rs ins outs Hi Hr Hf|w cs i kid ks rs ins outs Hi|w cs i kid err rs ins outs Hi Hsh|
    w cs i kid err rs ins outs Hi|w w' cs rs ins outs Hw]; pose proof Hs as [Hk Hb Hc]; simpl in *.
  - split; simpl; rewrite ?frame_now; try done. apply callers_insert; [done|].
    unfold cached. case_match; [|done]. case_match; [|done]. simplify_eq.
    by apply (lookup_published (MkSys w cs rs ins outs)).
  - pose proof (JK.fetch_frame p http_NewRequest http_Get Hhttp w) as Hw. rewrite Hf in Hw. simpl in Hw.
    split; simpl; rewrite ?Hw; try done. by apply callers_insert.
  - pose proof (JK.fetch_frame p http_NewRequest http_Get Hhttp w) as Hw. rewrite Hf in Hw. simpl in Hw.
    split; simpl; rewrite ?Hw; try done. apply callers_insert; [|constructor].
    intros c Hin. eapply caller_ok_mono, Hc; [done| |done]. simpl. intros. by constructor.
  - split; simpl; rewrite ?load_store; simpl; [done|by rewrite Hb|]. apply callers_insert; [|done].
    intros c Hin. eapply caller_ok_mono, Hc; [| |done]; simpl; intros; by constructor.
  - split; simpl; try done. apply callers_insert; [done|]. destruct err as [err|]; [|done].
    simpl. by apply Hshares in Hsh.
  - split; simpl; try done. apply callers_insert; [done|].
    apply (answer_ok (MkSys w cs rs ins outs)); [done|]. apply Hc. by eapply list_elem_of_lookup_2.
  - split; simpl; rewrite ?Hw; done.
Qed.

Lemma provider_start_inv cfg kids s : start cfg kids s → inv s.
Proof.
  intros [Hp ->]. split; simpl; rewrite ?Hp; try done.
  intros c (kid & -> & _)%list_elem_of_fmap. done.
Qed.

(** The responses are those installed, after the one that is in flight. *)
Definition in_order (s : sys W) : Prop :=
  ∃ pending, pending = omap in_flight (callers s) ∧ (length pending ≤ 1)%nat ∧
    responses s = pending ++ installed s.

Lemma step_in_order s s' : one_at_a_time → in_order s → step s s' → in_order s'.
Proof.
  intros Hone (pending & Hp & Hle & Hr) Hst.
  destruct Hst as [w cs i kid rs ins outs Hi|w w' cs i kid l rs ins outs Hi Hrun Hf|
    w w' cs i kid err rs ins outs Hi Hrun Hf|w cs i kid ks rs ins outs Hi|w cs i kid err rs ins outs Hi Hsh|
    w cs i kid err rs ins outs Hi|w w' cs rs ins outs Hw]; simpl in *.
  - exists pending. split_and!; [|done|done]. simpl.
    rewrite (omap_insert_same in_flight _ _ _ _ Hi); [done|]. by destruct (cached _ _ _).
  - pose proof (omap_insert_new in_flight cs i _ (Fetched kid (JK.parse_keys l)) _ Hi eq_refl eq_refl) as Hn.
    assert (omap in_flight cs = []) as He.
    { apply omap_none. intros c Hc. specialize (Hone _ _ Hrun). simpl in Hone.
      destruct c; try done. by destruct (Hone _ _ Hc). }
    rewrite He in Hn, Hp. apply Permutation_singleton_r in Hn. subst pending.
    exists [JK.parse_keys l]. simpl in *. by rewrite Hr.
  - exists pending. split_and!; [|done|done]. simpl.
    by rewrite (omap_insert_same in_flight _ _ _ (Shared kid (Some err)) Hi).
  - pose proof (omap_insert_gone in_flight cs i _ (Shared kid None) _ Hi eq_refl eq_refl) as Hg.
    rewrite <- Hp in Hg. exists []. simpl in *. destruct pending as [|x [|y l]]; simpl in Hle; [| |lia].
    + by apply Permutation_nil_cons in Hg.
    + apply Permutation_singleton_l in Hg. injection Hg as -> <-. rewrite Hr. auto.
  - exists pending. split_and!; [|done|done]. simpl.
    by rewrite (omap_insert_same in_flight _ _ _ (Shared kid err) Hi).
  - exists pending. split_and!; [|done|done]. simpl.
    by rewrite (omap_insert_same in_flight _ _ _ (Answered kid (answer kid err (load p w))) Hi).
  - by exists pending.
Qed.

(** ** Theorems *)

(** C18. However calls of [GetKey] overlap, and whether they share the requests of others or
    not: every key that is answered is one the endpoint published, under the asked
    identifier, and every error is [ErrKeyNotFound] or the error of a request that failed;
    the cached keys are the last ones installed, and the backup is all of them, newer ones
    first. If the requests are made one at a time the responses are installed in the order
    in which they came, and at most one is still to be. *)
Theorem GetKey_concurrent cfg kids s0 s :
  start cfg kids s0 → rtc step s0 s →
  (∀ i kid ans, callers s !! i = Some (Answered kid ans) →
     match ans with
     | inl k => ∃ ks kid', ks ∈ installed s ∧ ks !! kid' = Some k ∧ (kid ≠ "" → kid' = kid)
     | inr err => err = AU.ErrKeyNotFound ∨ Some err ∈ outcomes s
     end) ∧
  JK.keys (load p (world s)) = default ∅ (head (installed s)) ∧
  JK.lastFetched (load p (world s)) = ⋃ (installed s) ∧
  (one_at_a_time → ∃ pending, (length pending ≤ 1)%nat ∧ responses s = pending ++ installed s).
Proof.
  intros Hs0 Hr. pose proof (rtc_preserved step inv s0 s provider_step_inv (provider_start_inv _ _ _ Hs0) Hr) as [Hk Hb Hc].
  split_and!; [|done|done|].
  - intros i kid ans Hi. apply list_elem_of_lookup_2 in Hi. by destruct ans; apply (Hc _ Hi).
  - intros Hone. destruct (rtc_preserved step in_order s0 s) as (pending & _ & ? & ?); [|..|done|by exists pending].
    + intros ? ?. by apply step_in_order.
    + destruct Hs0 as [_ ->]. exists []. split_and!; simpl; [|lia|done]. symmetry. apply omap_none.
      intros c (kid & -> & _)%list_elem_of_fmap. done.
Qed.

Lemma refresh_fetched w l w1 :
  fetch w = (Val (inl l), w1) →
  JK.refresh p http_NewRequest http_Get w =
    (Val None, store p (JK.update (JK.parse_keys l) (env_now w1).1 (load p w1)) (env_now w1).2).
Proof.
  intros Hf. unfold JK.refresh. rewrite go_bind_run, Hf, go_bind_run. unfold time_Now, go_lift.
  pose proof (frame_now w1) as Hn. destruct (env_now w1) as [now w2]. simpl in *.
  rewrite go_bind_run. unfold locked, go_lift. simpl. by rewrite Hn.
Qed.

(** The steps are those of [GetKey]: a call that is alone, and for which the group runs the
    function, takes them to the answer and the world of [JK.GetKey]. *)
Theorem GetKey_alone kid w ans w' :
  (∀ w, sf_runs (MkSys w [InDo kid] [] [] []) 0) →
  JK.GetKey p http_NewRequest http_Get first kid w = (Val ans, w') →
  ∃ rs ins outs, rtc step (MkSys w [Calling kid] [] [] []) (MkSys w' [Answered kid ans] rs ins outs).
Proof.
  intros Hrun HE. unfold JK.GetKey in HE. rewrite go_bind_run in HE. unfold time_Now, go_lift in HE.
  pose proof (frame_now w) as Hn. pose proof (step_call w [Calling kid] 0 kid [] [] [] eq_refl) as Hcall.
  unfold cached in Hcall. simpl in Hcall.
  destruct (env_now w) as [now w1]. simpl in *. rewrite go_bind_run in HE. unfold go_get at 1 in HE.
  rewrite Hn in HE. destruct (if _ <? _ then _ else _) as [k|].
  { unfold mret, go_ret in HE. simplify_eq. exists [], [], []. by apply rtc_once. }
  rewrite go_bind_run in HE. pose proof (JK.refresh_run p http_NewRequest http_Get w1) as Href.
  destruct (fetch w1) as [[[l|err]|msg|] w2] eqn:Ef; [| |by rewrite Href in HE..].
  - rewrite (refresh_fetched _ _ _ Ef), go_bind_run in HE. unfold go_get in HE.
    eexists _, _, _. eapply rtc_l; [exact Hcall|].
    eapply rtc_l; [by eapply (step_fetch w1 w2 _ 0); [|apply Hrun|]|].
    eapply rtc_l; [by apply (step_install w2 _ 0)|].
    eapply rtc_l; [by apply (step_answer _ _ 0)|]. simpl. unfold answer.
    case_match; unfold mret, go_ret in HE; simplify_eq; apply rtc_refl.
  - rewrite Href, go_bind_run in HE. unfold go_get in HE.
    eexists _, _, _. eapply rtc_l; [exact Hcall|].
    eapply rtc_l; [by eapply (step_fail w1 w2 _ 0); [|apply Hrun|]|].
    eapply rtc_l; [by apply (step_answer _ _ 0)|]. simpl. unfold answer.
    case_match; [|case_match]; unfold mret, go_ret in HE; simplify_eq; apply rtc_refl.
Qed.
End Calls.

(** ** Witnesses *)

(** A group that keeps its promises: it runs the function when nobody does, and hands out any
    result. *)
Definition demo_runs (s : sys (World JK.state)) (i : nat) : Prop :=
  ∀ kid ks, Fetched kid ks ∉ callers s.
Definition demo_shares (s : sys (World JK.state)) (i : nat) (err : option error) : Prop :=
  err ∈ outcomes s.

Abbreviation demo_step :=
  (step JK.provider JK.demo_New JK.demo_Get JK.demo_first demo_runs demo_shares) (only parsing).

Definition demo_w : World JK.state := JK.demo_world [Some [JK.rsa "a"; JK.rsa "b"]].
Definition demo_start : sys (World JK.state) := MkSys demo_w (Calling <$> ["a"; "b"; "c"]) [] [] [].

Lemma demo_started : start JK.provider (JK.MkConfig "https://idp/jwks" 0) ["a"; "b"; "c"] demo_start.
Proof. split; [by vm_compute | done]. Qed.

(** Three callers share the request of the first; the key of the third is not published. *)
Lemma demo_overlap :
  ∃ s, rtc demo_step demo_start s ∧
    callers s = [Answered "a" (inl (JK.MkRSA 35 65537)); Answered "b" (inl (JK.MkRSA 35 65537));
                 Answered "c" (inr AU.ErrKeyNotFound)].
Proof.
  eexists. split.
  - eapply rtc_l; [by apply (step_call _ _ _ _ _ _ _ _ 0 "a")|].
    eapply rtc_l; [by apply (step_call _ _ _ _ _ _ _ _ 1 "b")|].
    eapply rtc_l; [by apply (step_call _ _ _ _ _ _ _ _ 2 "c")|].
    eapply rtc_l; [eapply (step_fetch _ _ _ _ _ _ _ _ _ 0 "a")|]; [by vm_compute| |vm_compute; reflexivity|].
    { intros kid ks. vm_compute. intros Hin. repeat (apply elem_of_cons in Hin as [[=]|Hin]).
      by apply elem_of_nil in Hin. }
    eapply rtc_l; [eapply (step_install _ _ _ _ _ _ _ _ 0 "a"); by vm_compute|].
    eapply rtc_l; [eapply (step_share _ _ _ _ _ _ _ _ 1 "b" None); [by vm_compute|by constructor]|].
    eapply rtc_l; [eapply (step_share _ _ _ _ _ _ _ _ 2 "c" None); [by vm_compute|by constructor]|].
    eapply rtc_l; [eapply (step_answer _ _ _ _ _ _ _ _ 0 "a"); by vm_compute|].
    eapply rtc_l; [eapply (step_answer _ _ _ _ _ _ _ _ 1 "b"); by vm_compute|].
    eapply rtc_l; [eapply (step_answer _ _ _ _ _ _ _ _ 2 "c"); by vm_compute|].
    apply rtc_refl.
  - by vm_compute.
Qed.

Lemma GetKey_concurrent_witness :
  ∃ s, rtc demo_step demo_start s ∧
    (∃ ks, ks ∈ installed s ∧ ks !! "b" = Some (JK.MkRSA 35 65537)) ∧
    ∃ pending, (length pending ≤ 1)%nat ∧ responses s = pending ++ installed s.
Proof.
  destruct demo_overlap as (s & Hr & Hc). exists s. split; [exact Hr|].
  pose proof JK.provider_frame as Hf.
  destruct (GetKey_concurrent JK.provider JK.demo_New JK.demo_Get JK.demo_first demo_runs demo_shares
    JK.demo_iterates JK.demo_http_frame (λ s i err H, H) _ _ _ s demo_started Hr) as (Hans & _ & _ & Hone).
  split.
  - destruct (Hans 1%nat "b" (inl (JK.MkRSA 35 65537))) as (ks & kid & Hin & Hk & Hkid); [by rewrite Hc|].
    exists ks. rewrite Hkid in Hk by done. exact (conj Hin Hk).
  - apply Hone. intros s' i Hrun. exact Hrun.
Defined.

End JC.
