(* ===== verification/OAuth2.v ===== *)
(** * auth/oauth2_introspection.go: token introspection with a cache

    The HTTP exchange is an argument: it takes the request the code builds and answers
    with a status and the decoded JSON object, or an error.  SHA-256 is an argument. *)

From S2P Require Import Prelude.
From S2P Require Import GoRuntime.
From S2P Require Import GoFloat.
From S2P Require Import GoString.
From S2P Require Import GoEncoding.
From S2P Require Import Auth.
From stdpp Require Import pretty.
Local Open Scope Z_scope.
Local Open Scope stdpp_scope.

Module OA.

Record OAuth2Config := MkConfig {
  IntrospectionEndpoint : string;
  ClientID : string;
  ClientSecret : string;
  ClientAuthMethod : string;
  CacheTTL : Duration;
  Timeout : Duration;
  PrincipalClaim : string;
  TenantClaim : string;
  RolesClaim : string;
  ScopesClaim : string;
}.

Definition orElse (s default : string) : string := if bool_decide (s = "") then default else s.

(** The defaults of [NewOAuth2IntrospectionAuthenticator]. *)
Definition NewConfig (cfg : OAuth2Config) : OAuth2Config :=
  MkConfig (IntrospectionEndpoint cfg) (ClientID cfg) (ClientSecret cfg)
    (orElse (ClientAuthMethod cfg) "client_secret_basic")
    (if CacheTTL cfg =? 0 then 5 * Minute else CacheTTL cfg)
    (if Timeout cfg =? 0 then 10 * Second else Timeout cfg)
    (orElse (PrincipalClaim cfg) "sub") (TenantClaim cfg) (RolesClaim cfg)
    (orElse (ScopesClaim cfg) "scope").

(** ** The cache *)

Record oauth2CacheEntry := MkEntry { identity : AU.Identity; expiresAt : Time }.
Abbreviation oauth2TokenCache := (gmap string oauth2CacheEntry) (only parsing).

Definition newOAuth2TokenCache : oauth2TokenCache := ∅.

Record introspectionResult := MkResult {
  Active : bool;
  Sub : string;
  Scope : string;
  Exp : Z;
  Iat : Z;
  rClientID : string;
  RClaims : AU.Claims;
}.

(** A request of the authenticator, and the answer. *)
Record http_request := MkHTTP {
  url : string;
  form : list (string * string);
  header : list (string * string);
}.

Record http_response := MkResponse {
  StatusCode : Z;
  Body : AU.Claims + error;
}.

(** ** Bearer tokens *)

Definition extractBearerToken (h : string) : option string :=
  if bool_decide (h = "") then None
  else if (String.length h <? 7)%nat then None
  else if negb (bool_decide (ToLower (string_take 7 h) = "bearer ")) then None
  else
    let token := TrimSpace (string_drop 7 h) in
    if bool_decide (token = "") then None else Some token.

(** ** Identities *)

Definition buildIdentity (cfg : OAuth2Config) (r : introspectionResult) : AU.Identity :=
  let claims := RClaims r in
  let principal :=
    if bool_decide (PrincipalClaim cfg = "") then ""
    else default "" (AU.as_string (claims !! PrincipalClaim cfg)) in
  let tenant :=
    if bool_decide (TenantClaim cfg = "") then ""
    else default "" (AU.as_string (claims !! TenantClaim cfg)) in
  let roles :=
    if bool_decide (RolesClaim cfg = "") then []
    else match AU.as_array (claims !! RolesClaim cfg) with
         | Some l => AU.strings_of l
         | None => []
         end in
  let permissions :=
    if bool_decide (ScopesClaim cfg = "") then []
    else match AU.as_string (claims !! ScopesClaim cfg) with
         | Some scope => if bool_decide (scope = "") then [] else Split scope " "
         | None => []
         end in
  AU.MkIdentity principal tenant roles permissions AU.AuthMethodOAuth2 claims
    (if 0 <? Exp r then time_Unix (Exp r) else 0)
    (if 0 <? Iat r then time_Unix (Iat r) else 0).

(** The fields read from a decoded response. *)
Definition parse_response (a : arch) (raw : AU.Claims) : introspectionResult :=
  MkResult (default false (AU.as_bool (raw !! "active")))
    (default "" (AU.as_string (raw !! "sub")))
    (default "" (AU.as_string (raw !! "scope")))
    (match AU.as_number (raw !! "exp") with Some f => int64_of_f a f | None => 0 end)
    (match AU.as_number (raw !! "iat") with Some f => int64_of_f a f | None => 0 end)
    (default "" (AU.as_string (raw !! "client_id")))
    raw.

Section Authenticator.
Context {W : Type} `{GoEnv W} (arch : arch) (sha256_Sum256 : bytes → bytes).
(** The text of an error ([Error()]), and the error of [http.NewRequestWithContext] on the
    URL of the endpoint. *)
Context (error_text : error → string) (http_NewRequest : string → option error).
Context (http_Do : http_request → Go W (http_response + error)).
Context (config : OAuth2Config) (p : Ptr W oauth2TokenCache).

Definition hashTokenForCache (token : string) : string :=
  hex_EncodeToString (sha256_Sum256 token).

Definition cache_Get (tokenHash : string) : Go W (option AU.Identity) :=
  c ← go_get (load p);
  match c !! tokenHash with
  | None => mret None
  | Some e =>
      now ← time_Now;
      mret (if time_After now (expiresAt e) then None else Some (identity e))
  end.

Definition cache_Set (tokenHash : string) (id : AU.Identity) (ttl : Duration) : Go W unit :=
  now ← time_Now;
  locked p (λ c, ((), <[tokenHash := MkEntry id (time_Add now ttl)]> c)).

(** The request: the token in the form, and the client's credentials in the form or in
    the [Authorization] header. *)
Definition request (token : string) : http_request :=
  let form := [("token", token)] in
  let form :=
    if bool_decide (ClientAuthMethod config = "client_secret_post")
    then form ++ [("client_id", ClientID config); ("client_secret", ClientSecret config)]
    else form in
  let header := [("Content-Type", "application/x-www-form-urlencoded"); ("Accept", "application/json")] in
  let header :=
    if bool_decide (ClientAuthMethod config = "client_secret_basic")
    then header ++ [("Authorization",
           "Basic " +:+ base64_Std (ClientID config +:+ ":" +:+ ClientSecret config))]
    else header in
  MkHTTP (IntrospectionEndpoint config) form header.

Definition introspect (token : string) : Go W (introspectionResult + error) :=
  match http_NewRequest (IntrospectionEndpoint config) with
  | Some err => mret (inr (ErrorfW "create request: %w" [] err))
  | None =>
      resp ← http_Do (request token);
      mret
        match resp with
        | inr err => inr (ErrorfW "%w: %v" [error_text err] AU.ErrIntrospectionFailed)
        | inl resp =>
            if negb (StatusCode resp =? 200)
            then inr (ErrorfW "%w: status %d" [pretty (StatusCode resp)] AU.ErrIntrospectionFailed)
            else
              match Body resp with
              | inr err => inr (ErrorfW "%w: decode error: %v" [error_text err] AU.ErrIntrospectionFailed)
              | inl raw => inl (parse_response arch raw)
              end
        end
  end.

Definition Supports (req : AU.AuthRequest) : bool :=
  bool_decide (is_Some (extractBearerToken (AU.GetHeader req "Authorization"))).

Definition Authenticate (req : AU.AuthRequest) : Go W (AU.AuthResult + error) :=
  match extractBearerToken (AU.GetHeader req "Authorization") with
  | None => mret (inl (AU.AuthFailure AU.ErrMissingCredentials "Bearer"))
  | Some token =>
      let tokenHash := hashTokenForCache token in
      cached ← cache_Get tokenHash;
      match cached with
      | Some id => mret (inl (AU.AuthSuccess id))
      | None =>
          res ← introspect token;
          match res with
          | inr err => mret (inr err)
          | inl r =>
              if negb (Active r) then mret (inl (AU.AuthFailure AU.ErrTokenInactive "Bearer"))
              else
                let id := buildIdentity config r in
                _ ← cache_Set tokenHash id (CacheTTL config);
                mret (inl (AU.AuthSuccess id))
          end
      end
  end.

Definition OAuth2_Authenticator : AU.Authenticator W :=
  AU.MkAuthenticator "oauth2_introspection" Supports Authenticate.

(** ** Bearer tokens: the specification *)

Lemma extractBearerToken_spec h token :
  extractBearerToken h = Some token ↔
  ∃ prefix rest, h = prefix +:+ rest ∧ String.length prefix = 7%nat ∧
    ToLower prefix = "bearer " ∧ token = TrimSpace rest ∧ token ≠ "".
Proof.
  unfold extractBearerToken. split.
  - case_bool_decide as E0; [done|]. destruct (Nat.ltb_spec (String.length h) 7); [done|].
    case_bool_decide as E1; [|done]. simpl. case_bool_decide as E2; [done|]. intros [= <-].
    exists (string_take 7 h), (string_drop 7 h). rewrite take_drop_string. split_and!; try done.
    apply length_string_take. lia.
  - intros (prefix & rest & -> & Hl & Hp & -> & Hne).
    rewrite bool_decide_false by (by destruct prefix).
    rewrite (proj2 (Nat.ltb_ge _ _)) by (rewrite length_append; lia).
    rewrite <- Hl, string_take_app, string_drop_app, Hp. simpl.
    by rewrite bool_decide_false.
Qed.

(** ** The decision *)

Context `{!EnvFrame p}.

(** A cached identity for the token, still live at [now]. *)
Definition cached (token : string) (now : Time) (w : W) (id : AU.Identity) : Prop :=
  ∃ exp, load p w !! hashTokenForCache token = Some (MkEntry id exp) ∧ now ≤ exp.

Lemma cache_Get_run h w :
  ∃ w', cache_Get h w =
    (Val match load p w !! h with
         | Some e => if time_After (env_now w).1 (expiresAt e) then None else Some (identity e)
         | None => None
         end, w') ∧ load p w' = load p w.
Proof.
  unfold cache_Get. rewrite go_bind_run. unfold go_get.
  destruct (load p w !! h) as [e|]; [|by eexists].
  rewrite go_bind_run. unfold time_Now, go_lift. pose proof (frame_now w) as Hn.
  destruct (env_now w) as [now w1]. by exists w1.
Qed.

(** A token with a live entry in the cache is authenticated as the cached identity, and
    the endpoint is not asked. *)
Theorem cached_token_accepted req token id w :
  extractBearerToken (AU.GetHeader req "Authorization") = Some token →
  cached token (env_now w).1 w id →
  ∃ w', Authenticate req w = (Val (inl (AU.AuthSuccess id)), w') ∧ load p w' = load p w.
Proof.
  intros Ht (exp & Hl & Hnow). unfold Authenticate. rewrite Ht.
  destruct (cache_Get_run (hashTokenForCache token) w) as (w' & HG & Hw').
  rewrite Hl in HG. simpl in HG. unfold time_After in HG. rewrite (proj2 (Z.ltb_ge _ _)) in HG by done.
  exists w'. by rewrite go_bind_run, HG.
Qed.

(** C15. A token that is not cached is authenticated only if the endpoint answers, with
    status 200 and a JSON object, that it is active; the identity is built from that
    answer and is cached for the token. *)
Theorem Authenticate_only_active req w r w' :
  (∀ token id, extractBearerToken (AU.GetHeader req "Authorization") = Some token →
     ¬ cached token (env_now w).1 w id) →
  (∀ q, preserves p (http_Do q)) →
  Authenticate req w = (Val (inl r), w') →
  if AU.Authenticated r then
    ∃ token raw w1 w2, extractBearerToken (AU.GetHeader req "Authorization") = Some token ∧
      http_Do (request token) w1 = (Val (inl (MkResponse 200 (inl raw))), w2) ∧
      raw !! "active" = Some (AU.CBool true) ∧
      r = AU.AuthSuccess (buildIdentity config (parse_response arch raw)) ∧
      load p w' = <[hashTokenForCache token :=
        MkEntry (buildIdentity config (parse_response arch raw))
          (time_Add (env_now w2).1 (CacheTTL config))]> (load p w)
  else load p w' = load p w.
Proof.
  intros Hc Hframe HE. unfold Authenticate in HE.
  destruct (extractBearerToken _) as [token|]; [|unfold mret, go_ret in HE; by simplify_eq].
  specialize (λ id, Hc token id eq_refl). rewrite go_bind_run in HE.
  destruct (cache_Get_run (hashTokenForCache token) w) as (w1 & HG & Hw1). rewrite HG in HE.
  destruct (match load p w !! hashTokenForCache token with Some e => _ | None => _ end) as [id|] eqn:Ec.
  { exfalso. apply (Hc id). unfold cached. destruct (load p w !! _) as [[id' exp]|]; [|done].
    simpl in Ec. unfold time_After in Ec. destruct (exp <? _) eqn:E; [done|]. zbool.
    exists exp. split; [congruence | done]. }
  unfold introspect in HE. rewrite go_bind_run in HE.
  destruct (http_NewRequest _) as [uerr|]; [done|]. rewrite go_bind_run in HE.
  pose proof (Hframe (request token) w1) as Hw2.
  destruct (http_Do (request token) w1) as [[[[status [raw|berr]]|err]|msg|] w2] eqn:EH;
    simpl in *; try done.
  2: { destruct (negb _); done. }
  destruct (Z.eqb_spec status 200) as [->|]; [|done]. simpl in HE.
  destruct (AU.as_bool (raw !! "active")) as [[]|] eqn:Ea; simpl in HE;
    unfold mret, go_ret in HE; [|simplify_eq/=; by rewrite Hw2..].
  rewrite go_bind_run in HE. unfold cache_Set in HE. rewrite go_bind_run in HE.
  unfold time_Now, go_lift, locked in HE. pose proof (frame_now w2) as Hn.
  destruct (env_now w2) as [now w3] eqn:En. simpl in *. simplify_eq. simpl.
  exists token, raw, w1, w2. split_and!; [done|done| |done|].
  - by destruct (raw !! "active") as [[]|]; simplify_eq/=.
  - by rewrite load_store, Hn, Hw2, Hw1, En.
Qed.

(** *** Its contract: the cache holds identities of this method *)
Definition cache_typed (c : oauth2TokenCache) : Prop :=
  ∀ h e, c !! h = Some e → AU.Method (identity e) = AU.AuthMethodOAuth2.

Lemma cache_Set_keeps h id ttl :
  AU.Method id = AU.AuthMethodOAuth2 → keeps cache_typed p (cache_Set h id ttl).
Proof.
  intros Hid. apply keeps_bind; [by apply keeps_services|]. intros now w o w' HE _ HI.
  unfold locked, go_lift in HE. simplify_eq/=. rewrite load_store. intros h' e He.
  apply lookup_insert_Some in He as [[_ <-]|[_ He]]; [done | by eapply HI].
Qed.

Lemma cache_Get_keeps h : keeps cache_typed p (cache_Get h).
Proof. unfold cache_Get. keeps. Qed.

Lemma introspect_keeps token :
  (∀ q, keeps cache_typed p (http_Do q)) → keeps cache_typed p (introspect token).
Proof. intros Hh. unfold introspect. keeps; apply Hh. Qed.

Lemma oauth2_contract :
  (∀ q, keeps cache_typed p (http_Do q)) →
  AU.Contract p cache_typed [AU.AuthMethodOAuth2] OAuth2_Authenticator.
Proof.
  intros Hh. split.
  - intros req. simpl. unfold Authenticate. destruct (extractBearerToken _) as [token|]; [|apply keeps_ret].
    apply keeps_bind; [apply cache_Get_keeps|]. intros [id|]; [apply keeps_ret|].
    apply keeps_bind; [by apply introspect_keeps|]. intros [r|err]; [|apply keeps_ret].
    destruct (negb _); [apply keeps_ret|]. apply keeps_bind; [by apply cache_Set_keeps|].
    intros. apply keeps_ret.
  - intros req w r w' HI. simpl. unfold Authenticate.
    destruct (extractBearerToken _) as [token|]; [|intros [= <- _]; apply AU.typed_failure].
    destruct (cache_Get_run (hashTokenForCache token) w) as (w1 & HG & _). rewrite go_bind_run, HG.
    destruct (load p w !! hashTokenForCache token) as [e|] eqn:El; [destruct (time_After _ _)|].
    2: { intros [= <- _]. apply AU.typed_success. rewrite (HI _ _ El). constructor. }
    all: rewrite go_bind_run; destruct (introspect token w1) as [[[res|err]|msg|] w2]; [|done..];
      (destruct (negb _); [intros [= <- _]; apply AU.typed_failure|]);
      rewrite go_bind_run; destruct (cache_Set _ _ _ w2) as [[[]|msg|] w3]; [|done..];
      intros [= <- _]; apply AU.typed_success; constructor.
Qed.

(** *** Where the identities come from, over any number of calls *)

(** The endpoint has answered for the token that it is active, with the object [raw]. *)
Definition active_answer (token : string) (raw : AU.Claims) : Prop :=
  raw !! "active" = Some (AU.CBool true) ∧
  ∃ w1 w2, http_Do (request token) w1 = (Val (inl (MkResponse 200 (inl raw))), w2).

(** The identity is the one of such an answer, for a token with this hash. *)
Definition vouched (h : string) (id : AU.Identity) : Prop :=
  ∃ token raw, hashTokenForCache token = h ∧ active_answer token raw ∧
    id = buildIdentity config (parse_response arch raw).

Definition honest (c : oauth2TokenCache) : Prop := ∀ h e, c !! h = Some e → vouched h (identity e).

Lemma introspect_active token w r w' :
  introspect token w = (Val (inl r), w') → Active r = true →
  ∃ raw, active_answer token raw ∧ r = parse_response arch raw.
Proof.
  unfold introspect. destruct (http_NewRequest _); [done|]. rewrite go_bind_run.
  destruct (http_Do (request token) w) as [[[[status [raw|berr]]|err]|msg|] w2] eqn:EH; try done;
    [|by simpl; destruct (negb _)].
  simpl. destruct (Z.eqb_spec status 200) as [->|Hs]; simpl.
  - intros [= <- <-] Ha. exists raw. split; [|done]. split; [|by exists w, w2].
    simpl in Ha. by destruct (raw !! "active") as [[]|]; simplify_eq/=.
  - done.
Qed.

Lemma cache_Set_honest h id ttl : vouched h id → keeps honest p (cache_Set h id ttl).
Proof.
  intros Hid. apply keeps_bind; [by apply keeps_services|]. intros now w o w' HE _ HI.
  unfold locked, go_lift in HE. simplify_eq/=. rewrite load_store. intros h' e He.
  apply lookup_insert_Some in He as [[<- <-]|[_ He]]; [done | by apply HI].
Qed.

(** C16. Over any number of calls, starting with the empty cache, and whatever else keeps the
    cache as it is: only identities the endpoint vouched for come into the cache, and a
    request is authenticated only as the identity of an answer that its token (or one with
    the same SHA-256) is active. *)
Theorem only_vouched_identities req w o w' :
  (∀ q, keeps honest p (http_Do q)) → Authenticate req w = (o, w') → o ≠ OutOfFuel →
  honest newOAuth2TokenCache ∧
  (honest (load p w) → honest (load p w') ∧
   ∀ r id, o = Val (inl r) → AU.Authenticated r = true → AU.ResIdentity r = Some id →
     ∃ token, extractBearerToken (AU.GetHeader req "Authorization") = Some token ∧
       vouched (hashTokenForCache token) id).
Proof.
  intros Hh HE Ho. split; [by intros h e He|]. intros HI. unfold Authenticate in HE.
  destruct (extractBearerToken _) as [token|] eqn:Et; [|unfold mret, go_ret in HE; simplify_eq; split; [done|by intros ? ? [= <-]]].
  rewrite go_bind_run in HE. destruct (cache_Get_run (hashTokenForCache token) w) as (w1 & HG & Hw1).
  rewrite HG in HE. rewrite <- Hw1 in HI.
  destruct (match load p w !! hashTokenForCache token with Some e => _ | None => _ end) as [id|] eqn:Ec.
  { unfold mret, go_ret in HE. simplify_eq. split; [done|]. intros r id' [= <-] _ [= <-].
    exists token. split; [done|]. rewrite Hw1 in HI.
    destruct (load p w !! hashTokenForCache token) as [e|] eqn:El; [|done].
    destruct (time_After _ _); simplify_eq. by apply HI. }
  rewrite go_bind_run in HE.
  assert (keeps honest p (introspect token)) as Hk by (unfold introspect; keeps; apply Hh).
  destruct (introspect token w1) as [[[res|err]|msg|] w2] eqn:Ei;
    [|unfold mret, go_ret in HE; simplify_eq; (split; [by eapply Hk | by intros ? ? [=]])..|by simplify_eq].
  pose proof (Hk _ _ _ Ei ltac:(done) HI) as HI2.
  destruct (Active res) eqn:Ea; simpl in HE;
    [|unfold mret, go_ret in HE; simplify_eq; split; [done | by intros ? ? [= <-]]].
  destruct (introspect_active _ _ _ _ Ei Ea) as (raw & Hraw & ->).
  assert (vouched (hashTokenForCache token) (buildIdentity config (parse_response arch raw))) as Hv
    by (by exists token, raw).
  rewrite go_bind_run in HE.
  destruct (cache_Set _ _ _ w2) as [[[]|msg|] w3] eqn:Es; unfold mret, go_ret in HE; simplify_eq.
  - split; [by eapply (cache_Set_honest _ _ _ Hv)|]. intros r id [= <-] _ [= <-]. by exists token.
  - split; [by eapply (cache_Set_honest _ _ _ Hv)|]. by intros ? ? [=].
Qed.
End Authenticator.

(** ** Witnesses *)

(** An endpoint that knows one token, which expires at the Unix time [exp]. *)
Definition demo_Do (exp : Z) (q : http_request) : Go (World oauth2TokenCache) (http_response + error) :=
  mret (inl (MkResponse 200 (inl
    (if bool_decide (("token", "abc") ∈ form q)
     then {["active" := AU.CBool true; "sub" := AU.CString "alice"; "scope" := AU.CString "read write";
            "exp" := AU.CNumber (f_of_Z exp)]}
     else {["active" := AU.CBool false]})))).

Definition demo_config : OAuth2Config := NewConfig (MkConfig "https://idp" "id" "secret" "" 0 0 "" "" "" "").
Definition demo_req (h : string) : AU.AuthRequest := AU.MkRequest {["Authorization" := [h]]} "".
Definition demo_world (now : Time) : World oauth2TokenCache := MkWorld now 0 [] [] 0 [] ∅.

Definition demo_auth (exp : Z) : AU.AuthRequest → Go (World oauth2TokenCache) (AU.AuthResult + error) :=
  Authenticate AMD64 id (λ _, "") (λ _, None) (demo_Do exp) demo_config cell.

Lemma Authenticate_only_active_witness :
  ∃ r w', demo_auth 5000 (demo_req "bEaReR abc ") (demo_world (time_Unix 1000)) = (Val (inl r), w') ∧
    AU.Authenticated r = true ∧ (load cell w' : oauth2TokenCache) !! hashTokenForCache id "abc" ≠ None.
Proof.
  destruct (demo_auth 5000 (demo_req "bEaReR abc ") (demo_world (time_Unix 1000))) as [o w'] eqn:E.
  assert (∃ r, o = Val (inl r) ∧ AU.Authenticated r = true) as (r & -> & Hr).
  { apply (f_equal fst) in E. vm_compute in E. subst. by eexists. }
  exists r, w'. split; [done|]. split; [done|].
  pose proof (Authenticate_only_active AMD64 id (λ _, "") (λ _, None) (demo_Do 5000) demo_config cell
    (demo_req "bEaReR abc ") (demo_world (time_Unix 1000)) r w') as Hx.
  rewrite Hr in Hx. destruct Hx as (token & raw & w1 & w2 & Ht & _ & _ & _ & Hw'); [ | done | done |].
  - intros token i _ (exp & Hl & _). 
    change ((∅ : oauth2TokenCache) !! hashTokenForCache id token = Some (MkEntry i exp)) in Hl.
    by rewrite lookup_empty in Hl.
  - vm_compute in Ht. injection Ht as <-. rewrite Hw'. by rewrite lookup_insert_eq.
Defined.

Lemma only_vouched_identities_witness :
  ∃ r i w', demo_auth 5000 (demo_req "Bearer abc") (demo_world (time_Unix 1000)) = (Val (inl r), w') ∧
    AU.ResIdentity r = Some i ∧
    ∃ token, token = "abc" ∧
      vouched AMD64 id (demo_Do 5000) demo_config (hashTokenForCache id token) i.
Proof.
  destruct (demo_auth 5000 (demo_req "Bearer abc") (demo_world (time_Unix 1000))) as [o w'] eqn:E.
  assert (∃ r i, o = Val (inl r) ∧ AU.Authenticated r = true ∧ AU.ResIdentity r = Some i)
    as (r & i & Ho & Hr & Hi).
  { apply (f_equal fst) in E. vm_compute in E. subst o. by eexists _, _. }
  exists r, i, w'. rewrite Ho. split; [done|]. split; [done|].
  destruct (only_vouched_identities AMD64 id (λ _, "") (λ _, None) (demo_Do 5000) demo_config cell
    (demo_req "Bearer abc") (demo_world (time_Unix 1000)) o w') as [H0 H1];
    [intros q; apply keeps_ret | exact E | by rewrite Ho |].
  destruct (proj2 (H1 H0) r i Ho Hr Hi) as (token & Ht & Hv). exists token. split; [|exact Hv].
  vm_compute in Ht. by injection Ht.
Defined.

(** The world after the token was introspected, one minute later. *)
Definition later (exp : Z) : World oauth2TokenCache :=
  w_set_clock (time_Unix 1060) (demo_auth exp (demo_req "Bearer abc") (demo_world (time_Unix 1000))).2.

Lemma cached_token_accepted_witness :
  ∃ id, (demo_auth 1001 (demo_req "Bearer abc") (later 1001)).1 = Val (inl (AU.AuthSuccess id)) ∧
    AU.IsExpired (time_Unix 1060) id = true.
Proof.
  destruct ((load cell (later 1001) : oauth2TokenCache) !! hashTokenForCache id "abc") as [[i exp]|] eqn:E;
    [|by vm_compute in E].
  exists i. split.
  - destruct (cached_token_accepted AMD64 id (λ _, "") (λ _, None) (demo_Do 1001) demo_config cell (demo_req "Bearer abc") "abc" i
      (later 1001)) as (w' & HA & _); [by vm_compute | | by unfold demo_auth; rewrite HA].
    exists exp. split; [exact E|]. vm_compute in E. injection E as <- <-. by vm_compute.
  - vm_compute in E. injection E as <- <-. by vm_compute.
Defined.

(** The cached identity. *)
Definition late_id : AU.Identity :=
  match (load cell (later 1001) : oauth2TokenCache) !! hashTokenForCache id "abc" with
  | Some e => identity e
  | None => AU.AnonymousIdentity
  end.

(** The cache outlives the token: a token whose own expiry has passed is authenticated
    from the cache, as an identity that is expired. *)
Theorem expired_token_served_from_cache :
  ∃ id, (demo_auth 1001 (demo_req "Bearer abc") (later 1001)).1 = Val (inl (AU.AuthSuccess id)) ∧
    AU.IsExpired (time_Unix 1060) id = true.
Proof. exists late_id. split; by vm_compute. Qed.

End OA.
