(* ===== verification/AuthRegistry.v ===== *)
(** * auth/factory.go: the registry of factories and the built-in ones

    A configuration is a [map[string]any]. A factory gives the configuration of the object
    it makes, with the contents of the stores it creates: the object itself is the one of
    the component's file, over that store. The keys of an object value are distinct, as
    they are in a Go map. *)

From S2P Require Import Prelude.
From S2P Require Import GoRuntime.
From S2P Require Import GoFloat.
From S2P Require Import GoString.
From S2P Require Import GoTime.
From S2P Require Import Auth.
From S2P Require Import Rbac.
From S2P Require Import ApiKey.
From S2P Require Import Jwt.
From S2P Require Import Jwks.
From S2P Require Import OAuth2.
From S2P Require Import Composite.
Local Open Scope Z_scope.
Local Open Scope stdpp_scope.

Module AR.

(** ** The registry *)

(** [A] and [Z] are the types of the results of the factories. *)
Record Registry (A B : Type) := MkRegistry {
  authenticators : gmap string (AU.Claims → A + error);
  authorizers : gmap string (AU.Claims → B + error);
}.
Arguments MkRegistry {A B} _ _.
Arguments authenticators {A B} _.
Arguments authorizers {A B} _.

Definition NewRegistry {A B} : Registry A B := MkRegistry ∅ ∅.

Section Registry.
Context {A B : Type}.
Implicit Types r : Registry A B.

Definition RegisterAuthenticator (name : string) (factory : option (AU.Claims → A + error)) r
    : option error * Registry A B :=
  match factory with
  | None => (Some (Errorf "invalid authenticator registration" []), r)
  | Some f =>
      if bool_decide (name = "") then (Some (Errorf "invalid authenticator registration" []), r)
      else
        match authenticators r !! name with
        | Some _ => (Some (Errorf "authenticator %q already registered" [name]), r)
        | None => (None, MkRegistry (<[name := f]> (authenticators r)) (authorizers r))
        end
  end.

Definition RegisterAuthorizer (name : string) (factory : option (AU.Claims → B + error)) r
    : option error * Registry A B :=
  match factory with
  | None => (Some (Errorf "invalid authorizer registration" []), r)
  | Some f =>
      if bool_decide (name = "") then (Some (Errorf "invalid authorizer registration" []), r)
      else
        match authorizers r !! name with
        | Some _ => (Some (Errorf "authorizer %q already registered" [name]), r)
        | None => (None, MkRegistry (authenticators r) (<[name := f]> (authorizers r)))
        end
  end.

Definition CreateAuthenticator (name : string) (cfg : AU.Claims) r : A + error :=
  match authenticators r !! name with
  | None => inr (Errorf "authenticator %q not found" [name])
  | Some factory => factory cfg
  end.

Definition CreateAuthorizer (name : string) (cfg : AU.Claims) r : B + error :=
  match authorizers r !! name with
  | None => inr (Errorf "authorizer %q not found" [name])
  | Some factory => factory cfg
  end.

Definition ListAuthenticators r : list string := sort_Strings (map_to_list (authenticators r)).*1.
Definition ListAuthorizers r : list string := sort_Strings (map_to_list (authorizers r)).*1.
End Registry.

(** ** Reading a configuration *)

(** [if s, ok := cfg[key].(string); ok { field = s }] on a field that is empty. *)
Definition str (cfg : AU.Claims) (key : string) : string := default "" (AU.as_string (cfg !! key)).

Definition as_object (c : option AU.claim) : option AU.Claims :=
  match c with Some (AU.CObject m) => Some (list_to_map m) | _ => None end.

(** The strings of [cfg[key].([]any)]. *)
Definition strs (cfg : AU.Claims) (key : string) : list string :=
  match AU.as_array (cfg !! key) with Some l => AU.strings_of l | None => [] end.

(** A duration that parses, else the field's zero. *)
Definition dur (cfg : AU.Claims) (key : string) : Duration :=
  match AU.as_string (cfg !! key) with
  | Some s => default 0 (ParseDuration s)
  | None => 0
  end.

(** ** The built-in factories *)

(** Where the JWT factory takes its keys from. *)
Inductive key_source :=
| FromJWKS (cfg : JK.JWKSConfig)
| FromSecret (secret : string).

Definition jwt_config (cfg : AU.Claims) : JW.JWTConfig :=
  JW.MkConfig (str cfg "issuer") (str cfg "audience") (str cfg "header_name") (str cfg "token_prefix")
    (str cfg "principal_claim") (str cfg "tenant_claim") (str cfg "roles_claim").

Definition jwt_keys (cfg : AU.Claims) : key_source :=
  match AU.as_string (cfg !! "jwks_url") with
  | Some url => FromJWKS (JK.MkConfig url (dur cfg "cache_ttl"))
  | None =>
      match AU.as_string (cfg !! "secret") with
      | Some secret => FromSecret secret
      | None => FromSecret ""
      end
  end.

Definition apikey_config (cfg : AU.Claims) : AK.APIKeyConfig :=
  AK.MkConfig (str cfg "header_name") (str cfg "hash_algorithm").

Definition apikey_info (m : AU.Claims) : AK.APIKeyInfo :=
  AK.MkInfo (str m "id") (str m "hash") (str m "principal") (str m "tenant_id") (strs m "roles") 0 ∅.

(** The store after the keys of the configuration were added in order. *)
Definition apikey_store (cfg : AU.Claims) : gmap string AK.APIKeyInfo :=
  match AU.as_array (cfg !! "keys") with
  | Some keys =>
      foldl (λ store k,
        match as_object (Some k) with
        | Some m => let info := apikey_info m in <[AK.KeyHash info := info]> store
        | None => store
        end) AK.NewMemoryAPIKeyStore keys
  | None => AK.NewMemoryAPIKeyStore
  end.

Definition role_config (roleData : AU.claim) : RB.RoleConfig :=
  match as_object (Some roleData) with
  | Some rd =>
      RB.MkRole (strs rd "permissions") (strs rd "inherits") (strs rd "allowed_tools")
        (strs rd "denied_tools") (strs rd "allowed_actions")
  | None => RB.MkRole [] [] [] [] []
  end.

Definition rbac_config (cfg : AU.Claims) : RB.RBACConfig :=
  RB.MkRBAC
    (match as_object (cfg !! "roles") with Some roles => role_config <$> roles | None => ∅ end)
    (str cfg "default_role").

Definition oauth2_config (cfg : AU.Claims) : OA.OAuth2Config :=
  OA.MkConfig (str cfg "introspection_endpoint") (str cfg "client_id") (str cfg "client_secret")
    (str cfg "client_auth_method") (dur cfg "cache_ttl") (dur cfg "timeout")
    (str cfg "principal_claim") (str cfg "tenant_claim") (str cfg "roles_claim") (str cfg "scopes_claim").

(** What the built-in factories make: the constructor of the component, with its arguments
    and the contents of the store it creates; [CustomAuth] is an object of another factory. *)
Inductive authenticator :=
| JWTAuth (cfg : JW.JWTConfig) (keys : key_source)
| APIKeyAuth (cfg : AK.APIKeyConfig) (store : gmap string AK.APIKeyInfo)
| OAuth2Auth (cfg : OA.OAuth2Config)
| CustomAuth (id : nat).

Definition jwt_factory (cfg : AU.Claims) : authenticator + error :=
  inl (JWTAuth (jwt_config cfg) (jwt_keys cfg)).
Definition apikey_factory (cfg : AU.Claims) : authenticator + error :=
  inl (APIKeyAuth (apikey_config cfg) (apikey_store cfg)).
Definition oauth2_factory (cfg : AU.Claims) : authenticator + error :=
  inl (OAuth2Auth (oauth2_config cfg)).
Definition rbac_factory (cfg : AU.Claims) : RB.Authorizer + error := inl (RB.Authorize (rbac_config cfg)).
Definition allow_all_factory (cfg : AU.Claims) : RB.Authorizer + error := inl RB.AllowAllAuthorizer.
Definition deny_all_factory (cfg : AU.Claims) : RB.Authorizer + error := inl RB.DenyAllAuthorizer.

(** The registrations of [init], whose errors are dropped. *)
Definition DefaultRegistry : Registry authenticator RB.Authorizer :=
  let r := NewRegistry in
  let r := (RegisterAuthenticator "jwt" (Some jwt_factory) r).2 in
  let r := (RegisterAuthenticator "api_key" (Some apikey_factory) r).2 in
  let r := (RegisterAuthorizer "simple_rbac" (Some rbac_factory) r).2 in
  let r := (RegisterAuthorizer "allow_all" (Some allow_all_factory) r).2 in
  let r := (RegisterAuthorizer "deny_all" (Some deny_all_factory) r).2 in
  (RegisterAuthenticator "oauth2_introspection" (Some oauth2_factory) r).2.

(** ** The objects *)

(** The key of a JWT: an HMAC secret or an RSA key. *)
Inductive jwt_key := HMACKey (secret : string) | RSAKey (k : JK.PublicKey).

Section Objects.
Context {W : Type} `{GoEnv W} (arch : arch) (sha256_Sum256 : bytes → bytes).
Context (error_text : error → string) (http_NewRequest : string → option error).
Context (jwks_Get : string → Go W (JK.http_response + error))
  (first : gmap string JK.PublicKey → option JK.PublicKey).
Context (jwt_Parse : string → (AU.Claims → Go W (jwt_key + error)) → Go W (JW.token + string)).
Context (http_Do : OA.http_request → Go W (OA.http_response + error)).

(** The key provider of the JWT factory; a JWKS provider is the one behind [p]. *)
Definition key_provider (p : Ptr W JK.JWKSKeyProvider) (src : key_source) : JW.KeyProvider W jwt_key :=
  match src with
  | FromJWKS _ =>
      JW.MkProvider (λ kid,
        k ← JK.GetKey p http_NewRequest jwks_Get first kid;
        mret match k with inl k => inl (RSAKey k) | inr err => inr err end)
  | FromSecret secret => JW.StaticKeyProvider (HMACKey secret)
  end.

(** The object a factory has made, over the stores it created behind the pointers. *)
Definition object (pk : Ptr W JK.JWKSKeyProvider) (ps : Ptr W (gmap string AK.APIKeyInfo))
    (pc : Ptr W (gmap string OA.oauth2CacheEntry)) (a : authenticator) : option (AU.Authenticator W) :=
  match a with
  | JWTAuth cfg keys =>
      Some (JW.JWT_Authenticator arch jwt_Parse (JW.NewJWTAuthenticator cfg (key_provider pk keys)))
  | APIKeyAuth cfg _ => Some (AK.APIKey_Authenticator sha256_Sum256 (AK.auth ps cfg))
  | OAuth2Auth cfg =>
      Some (OA.OAuth2_Authenticator arch sha256_Sum256 error_text http_NewRequest http_Do (OA.NewConfig cfg) pc)
  | CustomAuth _ => None
  end.

(** The stores at their creation. *)
Definition created (pk : Ptr W JK.JWKSKeyProvider) (ps : Ptr W (gmap string AK.APIKeyInfo))
    (pc : Ptr W (gmap string OA.oauth2CacheEntry)) (a : authenticator) (w : W) : Prop :=
  match a with
  | JWTAuth _ (FromJWKS c) => load pk w = JK.NewJWKSKeyProvider c
  | APIKeyAuth _ store => load ps w = store
  | OAuth2Auth _ => load pc w = OA.newOAuth2TokenCache
  | _ => True
  end.
End Objects.

(** ** The contract of the objects *)

Lemma method_in (m : string) l : m ∈ l → [m] ⊆ l.
Proof. by intros Hm ? ->%list_elem_of_singleton. Qed.

(** C20. Whatever authenticators the built-in factories make, and in whatever combination
    they are composed, every result is of one of two kinds: a success with an identity and no
    error, whose method is one of the three and the one the result names, or a failure with
    an error and no identity. The token cache keeps holding identities of its own method. *)
Theorem authenticators_typed {W} `{GoEnv W} arch sha256 error_text new_request
    (jwks_Get : string → Go W (JK.http_response + error)) first
    (jwt_Parse : string → (AU.Claims → Go W (jwt_key + error)) → Go W (JW.token + string))
    (http_Do : OA.http_request → Go W (OA.http_response + error))
    (pk : Ptr W JK.JWKSKeyProvider) (ps : Ptr W (gmap string AK.APIKeyInfo))
    (pc : Ptr W (gmap string OA.oauth2CacheEntry)) (made : list authenticator) stop req w r w' :
  let build := object arch sha256 error_text new_request jwks_Get first jwt_Parse http_Do pk ps pc in
  let composite := CO.MkComposite (omap build made) stop in
  EnvFrame pc → ptr_disjoint pk pc →
  (∀ url, keeps OA.cache_typed pc (jwks_Get url)) → (∀ q, keeps OA.cache_typed pc (http_Do q)) →
  JW.parser_frame jwt_Parse pc OA.cache_typed →
  OA.cache_typed (load pc w) → CO.Authenticate composite req w = (Val (inl r), w') →
  AU.typed [AU.AuthMethodJWT; AU.AuthMethodAPIKey; AU.AuthMethodOAuth2] r ∧
  OA.cache_typed (load pc w').
Proof.
  intros build composite Hf Hd Hjwks Hdo Hparse Hc HE.
  assert (AU.Contract pc OA.cache_typed [AU.AuthMethodJWT; AU.AuthMethodAPIKey; AU.AuthMethodOAuth2]
    (CO.Composite_Authenticator composite)) as [Hk Hr].
  { apply CO.composite_contract. intros a Ha. simpl in Ha.
    apply list_elem_of_omap in Ha as (x & _ & Hx). destruct x as [cfg keys|cfg st|cfg|id]; simplify_eq/=.
    - apply (AU.contract_mono _ _ [AU.AuthMethodJWT]); [by apply method_in, (bool_decide_unpack _)|]. apply JW.jwt_contract; [done|].
      intros kid. destruct keys as [c|secret]; simpl; [|apply keeps_ret].
      apply keeps_bind; [by apply JK.GetKey_keeps|]. intros []; apply keeps_ret.
    - apply (AU.contract_mono _ _ [AU.AuthMethodAPIKey]); [by apply method_in, (bool_decide_unpack _)|].
      apply AK.apikey_contract; [done|]. intros h. apply keeps_get.
    - apply (AU.contract_mono _ _ [AU.AuthMethodOAuth2]); [by apply method_in, (bool_decide_unpack _)|]. by apply OA.oauth2_contract. }
  split; [by eapply Hr | by eapply (Hk req)].
Qed.

(** ** Registrations *)

Inductive reg_op (A B : Type) :=
| OpAuthenticator (name : string) (f : option (AU.Claims → A + error))
| OpAuthorizer (name : string) (f : option (AU.Claims → B + error)).
Arguments OpAuthenticator {A B} _ _.
Arguments OpAuthorizer {A B} _ _.

Definition reg_step {A B} (o : reg_op A B) (r : Registry A B) : Registry A B :=
  match o with
  | OpAuthenticator name f => (RegisterAuthenticator name f r).2
  | OpAuthorizer name f => (RegisterAuthorizer name f r).2
  end.

(** Every factory of the first registry is in the second. *)
Definition extends {A B} (r r' : Registry A B) : Prop :=
  authenticators r ⊆ authenticators r' ∧ authorizers r ⊆ authorizers r'.

Lemma reg_step_extends {A B} (r0 : Registry A B) o r : extends r0 r → extends r0 (reg_step o r).
Proof.
  intros [H1 H2]. destruct o as [name [f|]|name [f|]]; simpl; try done;
    (case_bool_decide; [done|]); destruct (_ !! name) eqn:E; try done; split; simpl; try done;
    (etransitivity; [done|]); by apply insert_subseteq.
Qed.

Lemma run_extends {A B} (ops : list (reg_op A B)) r : extends r (run_steps reg_step ops r).
Proof. by apply (run_steps_ind reg_step (extends r)); [apply reg_step_extends|]. Qed.

(** No later registration replaces a built-in factory: whatever is registered afterwards,
    each built-in name still makes its own object from a configuration. *)
Theorem builtins_cannot_be_replaced (ops : list (reg_op authenticator RB.Authorizer)) cfg :
  let r := run_steps reg_step ops DefaultRegistry in
  CreateAuthenticator "jwt" cfg r = inl (JWTAuth (jwt_config cfg) (jwt_keys cfg)) ∧
  CreateAuthenticator "api_key" cfg r = inl (APIKeyAuth (apikey_config cfg) (apikey_store cfg)) ∧
  CreateAuthenticator "oauth2_introspection" cfg r = inl (OAuth2Auth (oauth2_config cfg)) ∧
  CreateAuthorizer "simple_rbac" cfg r = inl (RB.Authorize (rbac_config cfg)) ∧
  CreateAuthorizer "allow_all" cfg r = inl RB.AllowAllAuthorizer ∧
  CreateAuthorizer "deny_all" cfg r = inl RB.DenyAllAuthorizer.
Proof.
  intros r. destruct (run_extends ops DefaultRegistry) as [H1 H2]. fold r in H1, H2.
  unfold CreateAuthenticator, CreateAuthorizer.
  assert (∀ n f, authenticators DefaultRegistry !! n = Some f → authenticators r !! n = Some f) as Ha
    by (intros; by eapply lookup_weaken).
  assert (∀ n f, authorizers DefaultRegistry !! n = Some f → authorizers r !! n = Some f) as Hz
    by (intros; by eapply lookup_weaken).
  rewrite (Ha "jwt" jwt_factory), (Ha "api_key" apikey_factory),
    (Ha "oauth2_introspection" oauth2_factory), (Hz "simple_rbac" rbac_factory),
    (Hz "allow_all" allow_all_factory), (Hz "deny_all" deny_all_factory) by reflexivity.
  by repeat split.
Qed.

(** ** What a factory reads back

    The configurations a component can be given: how one is written, and that the reader of
    the factory gives it back. *)

Class Configurable (C : Type) := {
  to_config : C → AU.Claims;
  of_config : AU.Claims → C;
  valid_config : C → Prop;
  of_to_config c : valid_config c → of_config (to_config c) = c;
}.

(** *** A policy *)

Definition encode_strings (l : list string) : AU.claim := AU.CArray (AU.CString <$> l).

Definition encode_role (r : RB.RoleConfig) : AU.claim :=
  AU.CObject [("permissions", encode_strings (RB.Permissions r)); ("inherits", encode_strings (RB.Inherits r));
    ("allowed_tools", encode_strings (RB.AllowedTools r)); ("denied_tools", encode_strings (RB.DeniedTools r));
    ("allowed_actions", encode_strings (RB.AllowedActions r))].

Definition encode_rbac (c : RB.RBACConfig) : AU.Claims :=
  {["default_role" := AU.CString (RB.DefaultRole c);
    "roles" := AU.CObject (map_to_list (encode_role <$> RB.Roles c))]}.

Lemma strings_of_encode l : AU.strings_of (AU.CString <$> l) = l.
Proof. induction l as [|s l IH]; [done|]. exact (f_equal (cons s) IH). Qed.

Lemma role_config_encode r : role_config (encode_role r) = r.
Proof.
  destruct r as [ps ins ts ds acts]. unfold role_config, encode_role, strs. simpl.
  unfold encode_strings.
  simplify_map_eq. by rewrite !strings_of_encode.
Qed.

Lemma rbac_config_roundtrip (c : RB.RBACConfig) : rbac_config (encode_rbac c) = c.
Proof.
  unfold rbac_config, encode_rbac, str. simplify_map_eq. unfold as_object.
  rewrite list_to_map_to_list, <- map_fmap_compose.
  destruct c as [roles def]. simpl. f_equal. rewrite <- (map_fmap_id roles) at 2.
  apply map_fmap_ext. intros n r _. apply role_config_encode.
Qed.

#[global, refine] Instance RBACConfig_configurable : Configurable RB.RBACConfig := {
  to_config := encode_rbac;
  of_config := rbac_config;
  valid_config _ := True;
}.
Proof. intros c _. apply rbac_config_roundtrip. Defined.

(** *** Tokens: a JWT configuration with its keys, and an introspection endpoint

    A duration is written as its text. *)

Definition encode_keys_of (src : key_source) : AU.Claims :=
  match src with
  | FromJWKS c => {["jwks_url" := AU.CString (JK.URL c); "cache_ttl" := AU.CString (Duration_String (JK.CacheTTL c))]}
  | FromSecret secret => {["secret" := AU.CString secret]}
  end.

Definition encode_jwt (c : JW.JWTConfig) (src : key_source) : AU.Claims :=
  {["issuer" := AU.CString (JW.Issuer c); "audience" := AU.CString (JW.Audience c);
    "header_name" := AU.CString (JW.HeaderName c); "token_prefix" := AU.CString (JW.TokenPrefix c);
    "principal_claim" := AU.CString (JW.PrincipalClaim c); "tenant_claim" := AU.CString (JW.TenantClaim c);
    "roles_claim" := AU.CString (JW.RolesClaim c)]} ∪ encode_keys_of src.

Definition encode_oauth2 (c : OA.OAuth2Config) : AU.Claims :=
  {["introspection_endpoint" := AU.CString (OA.IntrospectionEndpoint c); "client_id" := AU.CString (OA.ClientID c);
    "client_secret" := AU.CString (OA.ClientSecret c); "client_auth_method" := AU.CString (OA.ClientAuthMethod c);
    "cache_ttl" := AU.CString (Duration_String (OA.CacheTTL c)); "timeout" := AU.CString (Duration_String (OA.Timeout c));
    "principal_claim" := AU.CString (OA.PrincipalClaim c); "tenant_claim" := AU.CString (OA.TenantClaim c);
    "roles_claim" := AU.CString (OA.RolesClaim c); "scopes_claim" := AU.CString (OA.ScopesClaim c)]}.

Lemma dur_text cfg key d :
  cfg !! key = Some (AU.CString (Duration_String d)) → is_int64 d → dur cfg key = d.
Proof. intros E Hd. unfold dur. rewrite E. simpl. by rewrite Duration_String_roundtrip. Qed.

Definition keys_valid (src : key_source) : Prop :=
  match src with FromJWKS c => is_int64 (JK.CacheTTL c) | FromSecret _ => True end.

Lemma jwt_keys_encode c src : keys_valid src → jwt_keys (encode_jwt c src) = src.
Proof.
  intros Hv. unfold jwt_keys, encode_jwt. destruct src as [[url ttl]|secret]; simpl in *; simplify_map_eq; [|done].
  do 2 f_equal. by apply dur_text; simplify_map_eq.
Qed.

#[global, refine] Instance JWT_configurable : Configurable (JW.JWTConfig * key_source) := {
  to_config x := encode_jwt x.1 x.2;
  of_config cfg := (jwt_config cfg, jwt_keys cfg);
  valid_config x := keys_valid x.2;
}.
Proof.
  intros [c src] Hv. simpl in *. rewrite jwt_keys_encode by done. f_equal.
  by destruct c, src.
Defined.

#[global, refine] Instance OAuth2_configurable : Configurable OA.OAuth2Config := {
  to_config := encode_oauth2;
  of_config := oauth2_config;
  valid_config c := is_int64 (OA.CacheTTL c) ∧ is_int64 (OA.Timeout c);
}.
Proof.
  intros c [Hc Ht]. unfold oauth2_config.
  rewrite (dur_text (encode_oauth2 c) "cache_ttl" (OA.CacheTTL c)), (dur_text (encode_oauth2 c) "timeout" (OA.Timeout c))
    by first [done | by destruct c].
  by destruct c.
Defined.

(** C39. What a component can be configured with can be written as a configuration, its
    durations as text, and the factory of the component reads the same back: policies, JWT
    configurations with the source of their keys, introspection endpoints. *)
Theorem config_roundtrip (c : RB.RBACConfig) (j : JW.JWTConfig * key_source) (o : OA.OAuth2Config) :
  valid_config j → valid_config o →
  CreateAuthorizer "simple_rbac" (to_config c) DefaultRegistry = inl (RB.Authorize c) ∧
  CreateAuthenticator "jwt" (to_config j) DefaultRegistry = inl (JWTAuth j.1 j.2) ∧
  CreateAuthenticator "oauth2_introspection" (to_config o) DefaultRegistry = inl (OAuth2Auth o).
Proof.
  intros Hj Ho. pose proof (of_to_config c I) as Hc. apply of_to_config in Hj, Ho. split_and!.
  - transitivity (inl (A:=RB.Authorizer) (B:=error) (RB.Authorize (of_config (to_config c)))); [done | by rewrite Hc].
  - rewrite <- Hj at 2 3. done.
  - rewrite <- Ho at 2. done.
Qed.

(** ** Keys as a configuration *)

Definition key_fields (i : AK.APIKeyInfo) : list (string * AU.claim) :=
  [("id", AU.CString (AK.ID i)); ("hash", AU.CString (AK.KeyHash i));
   ("principal", AU.CString (AK.Principal i)); ("tenant_id", AU.CString (AK.TenantID i));
   ("roles", encode_strings (AK.Roles i))].

Definition encode_keys (c : AK.APIKeyConfig) (infos : list AK.APIKeyInfo) : AU.Claims :=
  {["header_name" := AU.CString (AK.HeaderName c); "hash_algorithm" := AU.CString (AK.HashAlgorithm c);
    "keys" := AU.CArray ((λ i, AU.CObject (key_fields i)) <$> infos)]}.

(** What a configuration can say of a key: it has neither an expiry nor metadata. *)
Definition expressible (i : AK.APIKeyInfo) : Prop := AK.ExpiresAt i = 0 ∧ AK.Metadata i = ∅.

Lemma apikey_info_encode i : expressible i → apikey_info (list_to_map (key_fields i)) = i.
Proof.
  intros [He Hm]. destruct i as [id hash pr ten roles exp meta]. simpl in *. subst.
  unfold apikey_info, str, strs, key_fields, encode_strings. simpl. simplify_map_eq. by rewrite strings_of_encode.
Qed.

Lemma apikey_store_encode c infos :
  Forall expressible infos →
  apikey_store (encode_keys c infos) = foldl (λ m i, <[AK.KeyHash i := i]> m) ∅ infos.
Proof.
  intros Hi. unfold apikey_store, encode_keys. simplify_map_eq. unfold AK.NewMemoryAPIKeyStore.
  generalize (∅ : gmap string AK.APIKeyInfo). induction Hi as [|i infos Hx _ IH]; intros m; [done|].
  rewrite fmap_cons. cbn [foldl]. rewrite <- IH. f_equal.
  set (info := apikey_info (list_to_map (key_fields i))).
  change (<[AK.KeyHash info := info]> m = <[AK.KeyHash i := i]> m).
  unfold info. by rewrite apikey_info_encode.
Qed.

(** C38. An authenticator configured with a list of keys lets in exactly the requests whose
    trimmed and hashed key is in the list, as the identity of the last entry with that hash. *)
Theorem configured_keys_authenticate {W} `{GoEnv W} sha256 c infos (ps : Ptr W (gmap string AK.APIKeyInfo)) req w :
  Forall expressible infos → load ps w = apikey_store (encode_keys c infos) →
  CreateAuthenticator "api_key" (encode_keys c infos) DefaultRegistry
    = inl (APIKeyAuth c (apikey_store (encode_keys c infos))) ∧
  ∃ r w', AK.Authenticate sha256 (AK.auth ps c) req w = (Val (inl r), w') ∧
    let key := AU.GetHeader req (AK.HeaderName (AK.config (AK.auth ps c))) in
    let entry := last (filter (λ i, AK.KeyHash i = AK.lookup_hash sha256 c (TrimSpace key)) infos) in
    r = if decide (key = "") then AU.AuthFailure AU.ErrMissingCredentials "api_key"
        else match entry with
             | Some info => AU.AuthSuccess (AK.identity_of info)
             | None => AU.AuthFailure AU.ErrInvalidCredentials "api_key"
             end.
Proof.
  intros Hi Hw. split.
  { transitivity (inl (A:=authenticator) (B:=error)
      (APIKeyAuth (apikey_config (encode_keys c infos)) (apikey_store (encode_keys c infos)))); [done|].
    do 2 f_equal. unfold apikey_config, str, encode_keys. simplify_map_eq. by destruct c. }
  destruct (AK.Authenticate_run sha256 ps c req w) as (w' & _ & Hr). eexists _, w'. split; [exact Hr|].
  unfold AK.key_info. rewrite Hw, apikey_store_encode, lookup_foldl_insert by done. cbv zeta.
  destruct (decide (AU.GetHeader req (AK.HeaderName (AK.config (AK.auth ps c))) = "")) as [E|E];
    [by rewrite bool_decide_true by done|]. rewrite bool_decide_false by done.
  destruct (last _) as [info|] eqn:El; [|done].
  assert (AK.ExpiresAt info = 0) as ->; [|done].
  apply last_Some_elem_of, list_elem_of_filter in El as [_ Hin].
  rewrite Forall_forall in Hi. by apply Hi.
Qed.

(** ** Configurations that leave something out *)

(** Without a key source every token is checked against the empty HMAC secret. *)
Lemma unset_secret_is_empty_key {W} `{GoEnv W} http_NewRequest jwks_Get first pk cfg header w :
  AU.as_string (cfg !! "jwks_url") = None → AU.as_string (cfg !! "secret") = None →
  JW.keyfunc (JW.NewJWTAuthenticator (jwt_config cfg)
    (key_provider (W:=W) http_NewRequest jwks_Get first pk (jwt_keys cfg))) header w
  = (Val (inl (HMACKey "")), w).
Proof. intros Hu Hs. unfold jwt_keys. by rewrite Hu, Hs. Qed.

(** A key without a hash, in a configuration that stores keys in the clear. *)
Definition unhashed_config : AU.Claims :=
  {["hash_algorithm" := AU.CString "plain";
    "keys" := AU.CArray [AU.CObject [("id", AU.CString "k1"); ("principal", AU.CString "admin")]]]}.

(** Then a header of blanks is authenticated: it is not empty, and is trimmed to the hash of
    that key. *)
Lemma blank_key_authenticates :
  let w : World (gmap string AK.APIKeyInfo) := MkWorld 1000 0 [] [] 0 [] (apikey_store unhashed_config) in
  ∃ id, (AK.Authenticate (λ b, b) (AK.auth cell (apikey_config unhashed_config))
           (AU.MkRequest {["X-API-Key" := ["  "]]} "") w).1 = Val (inl (AU.AuthSuccess id)) ∧
    AU.Principal id = "admin".
Proof.
  exists (AK.identity_of (AK.MkInfo "k1" "" "admin" "" [] 0 ∅)). split; vm_compute; reflexivity.
Qed.

(** ** Witnesses *)

Definition demo_oauth2 : OA.OAuth2Config :=
  OA.MkConfig "https://idp/introspect" "id" "secret" "client_secret_post" (90 * Minute) (2500 * Millisecond) "sub" "" "" "scope".

Lemma config_roundtrip_witness :
  CreateAuthenticator "oauth2_introspection" (to_config demo_oauth2) DefaultRegistry = inl (OAuth2Auth demo_oauth2) ∧
  encode_oauth2 demo_oauth2 !! "timeout" = Some (AU.CString "2.5s") ∧
  encode_oauth2 demo_oauth2 !! "cache_ttl" = Some (AU.CString "1h30m0s").
Proof.
  split_and!; [|vm_compute; reflexivity..].
  apply (config_roundtrip (RB.MkRBAC ∅ "guest")
    (JW.MkConfig "iss" "aud" "" "" "" "" "", FromJWKS (JK.MkConfig "https://idp/jwks" (5 * Minute))) demo_oauth2).
  - vm_compute. split; discriminate.
  - vm_compute. repeat split; discriminate.
Defined.

(** A world with the three stores, and a composite of one authenticator of each kind. *)
Abbreviation state := (JK.JWKSKeyProvider * (gmap string AK.APIKeyInfo * gmap string OA.oauth2CacheEntry))%type
  (only parsing).
Definition p_jwks : Ptr (World state) JK.JWKSKeyProvider := ptr_fst cell.
Definition p_keys : Ptr (World state) (gmap string AK.APIKeyInfo) := ptr_fst (ptr_snd cell).
Definition p_cache : Ptr (World state) (gmap string OA.oauth2CacheEntry) := ptr_snd (ptr_snd cell).

(** The answers of an endpoint that knows the token [abc]. *)
Definition demo_Do (q : OA.http_request) : Go (World state) (OA.http_response + error) :=
  mret (inl (OA.MkResponse 200 (inl {["active" := AU.CBool (bool_decide (("token", "abc") ∈ OA.form q));
                                      "sub" := AU.CString "alice"]}))).
Definition demo_jwks (url : string) : Go (World state) (JK.http_response + error) := mret (inr (Foreign 1)).
(** A parser that asks for the key and rejects every token. *)
Definition demo_parse (text : string) (kf : AU.Claims → Go (World state) (jwt_key + error))
    : Go (World state) (JW.token + string) := _ ← kf ∅; mret (inr "malformed").

Definition demo_keys : AU.Claims :=
  {["hash_algorithm" := AU.CString "plain";
    "keys" := AU.CArray [AU.CObject [("id", AU.CString "k1"); ("hash", AU.CString "s3cret"); ("principal", AU.CString "bob")]]]}.

Definition demo_made : list authenticator :=
  omap (λ x : string * AU.Claims,
    match CreateAuthenticator x.1 x.2 DefaultRegistry with inl a => Some a | inr _ => None end)
    [("jwt", {["secret" := AU.CString "hmac"]}); ("api_key", demo_keys); ("oauth2_introspection", ∅); ("saml", ∅)].

Definition demo_state : World state :=
  MkWorld 1000 0 [] [] 0 [] (JK.NewJWKSKeyProvider (JK.MkConfig "" 0), (apikey_store demo_keys, ∅)).

Definition demo_composite : CO.CompositeAuthenticator (World state) :=
  CO.MkComposite (omap (object AMD64 id (λ _, "") (λ _, None) demo_jwks JK.demo_first demo_parse demo_Do
    p_jwks p_keys p_cache) demo_made) true.

Lemma demo_parse_frame {S} (q : Ptr (World state) S) I : JW.parser_frame demo_parse q I.
Proof. intros text kf Hk. apply keeps_bind; [apply Hk | intros; apply keeps_ret]. Qed.

(** The token is no JWT, and is accepted by introspection. *)
Lemma authenticators_typed_witness :
  ∃ r w', CO.Authenticate demo_composite (AU.MkRequest {["Authorization" := ["Bearer abc"]]} "") demo_state
      = (Val (inl r), w') ∧
    AU.Authenticated r = true ∧ AU.typed [AU.AuthMethodJWT; AU.AuthMethodAPIKey; AU.AuthMethodOAuth2] r.
Proof.
  destruct (CO.Authenticate demo_composite (AU.MkRequest {["Authorization" := ["Bearer abc"]]} "") demo_state)
    as [o w'] eqn:E.
  assert (∃ r, o = Val (inl r) ∧ AU.Authenticated r = true) as (r & -> & Hr).
  { apply (f_equal fst) in E. vm_compute in E. subst o. by eexists. }
  exists r, w'. split; [done|]. split; [done|].
  assert (EnvFrame p_cache) as Hf by (unfold p_cache; apply _).
  refine (proj1 (authenticators_typed AMD64 id (λ _, "") (λ _, None) demo_jwks JK.demo_first demo_parse demo_Do
    p_jwks p_keys p_cache demo_made true _ _ r w' Hf _ _ _ (demo_parse_frame _ _) _ E)).
  - by split.
  - intros url. apply keeps_ret.
  - intros q. apply keeps_ret.
  - intros h e He. vm_compute in He. done.
Defined.

Definition demo_infos : list AK.APIKeyInfo :=
  [AK.MkInfo "1" "k1" "ann" "" [] 0 ∅; AK.MkInfo "2" "k2" "bob" "" [] 0 ∅].

Lemma configured_keys_authenticate_witness :
  let c := AK.MkConfig "" "plain" in
  ∃ r w', AK.Authenticate id (AK.auth cell c) (AU.MkRequest {["X-API-Key" := [" k2 "]]} "")
      (MkWorld 1000 0 [] [] 0 [] (apikey_store (encode_keys c demo_infos))) = (Val (inl r), w') ∧
    AU.Authenticated r = true ∧ (AU.Principal <$> AU.ResIdentity r) = Some "bob".
Proof.
  intros c.
  destruct (configured_keys_authenticate id c demo_infos cell (AU.MkRequest {["X-API-Key" := [" k2 "]]} "")
    (MkWorld 1000 0 [] [] 0 [] (apikey_store (encode_keys c demo_infos)))) as (_ & r & w' & HE & Hr).
  - repeat constructor.
  - reflexivity.
  - exists r, w'. split; [exact HE|]. rewrite Hr. split; vm_compute; reflexivity.
Defined.

End AR.
