(* ===== verification/Health.v ===== *)
(** * health: checkers, the aggregator, its HTTP handlers and the memory checker

    A checker is a computation over a world.  A context is its timeout, if it has one.
    [CheckAll] gets two arguments from outside the program, each a list of the bindings of
    the map in some order: the order of Go's map iteration, and the order in which the
    scheduler runs the checks of the parallel mode, one after the other; that the goroutines in
    any interleaving do so is shown in [HealthParallel].  The durations in the details of the
    aggregate and in a response are their text, as [GoTime.Duration_String] writes it. *)

From S2P Require Import Prelude.
From S2P Require Import GoRuntime.
From S2P Require Import GoFloat.
From S2P Require Import GoString.
From S2P Require Import GoTime.
Local Open Scope Z_scope.
Local Open Scope stdpp_scope.

Module HL.

(** ** checker.go *)

(** [Status] is an [int] with three [iota] constants. *)
Definition StatusHealthy : Z := 0.
Definition StatusDegraded : Z := 1.
Definition StatusUnhealthy : Z := 2.

Definition String (s : Z) : string :=
  if s =? StatusHealthy then "healthy"
  else if s =? StatusDegraded then "degraded"
  else if s =? StatusUnhealthy then "unhealthy"
  else "unknown".

(** A value of [Details]. *)
Inductive detail :=
| DCheck (status message duration : string)
| DFloat (f : float64)
| DInt (n : Z).

Record Result := MkResult {
  Status : Z;
  Message : string;
  Details : gmap string detail;
  RDuration : Duration;
  Timestamp : Time;
  Error : option error;
}.

Definition ErrCheckFailed : error := Sentinel "health: check failed".
Definition ErrCheckTimeout : error := Sentinel "health: check timeout".
Definition ErrCheckerNotFound : error := Sentinel "health: checker not found".
Definition ErrNoCheckers : error := Sentinel "health: no checkers registered".

Definition WithDetails (r : Result) (d : gmap string detail) : Result :=
  MkResult (Status r) (Message r) d (RDuration r) (Timestamp r) (Error r).
Definition WithDuration (r : Result) (d : Duration) : Result :=
  MkResult (Status r) (Message r) (Details r) d (Timestamp r) (Error r).
Definition with_timestamp (r : Result) (t : Time) : Result :=
  MkResult (Status r) (Message r) (Details r) (RDuration r) t (Error r).

Section Constructors.
Context {W : Type} `{GoEnv W}.
Definition Healthy (message : string) : Go W Result :=
  now ← time_Now; mret (MkResult StatusHealthy message ∅ 0 now None).
Definition Degraded (message : string) : Go W Result :=
  now ← time_Now; mret (MkResult StatusDegraded message ∅ 0 now None).
Definition Unhealthy (message : string) (err : option error) : Go W Result :=
  now ← time_Now; mret (MkResult StatusUnhealthy message ∅ 0 now err).
End Constructors.

Record Checker (W : Type) := MkChecker { Name : string; Check : Go W Result }.
Arguments MkChecker {W} _ _.
Arguments Name {W} _.
Arguments Check {W} _.

Definition NewCheckerFunc {W} (name : string) (fn : Go W Result) : Checker W := MkChecker name fn.

(** ** aggregator.go *)

Record AggregatorConfig := MkConfig { Timeout : Duration; Parallel : bool }.

Record Aggregator (W : Type) := MkAgg {
  config : AggregatorConfig;
  checkers : gmap string (Checker W);
  order : list string;
}.
Arguments MkAgg {W} _ _ _.
Arguments config {W} _.
Arguments checkers {W} _.
Arguments order {W} _.

(** The optional argument of the variadic constructor. *)
Definition NewAggregator {W} (cfg : option AggregatorConfig) : Aggregator W :=
  let cfg :=
    match cfg with
    | None => MkConfig (10 * Second) true
    | Some c => if Timeout c <=? 0 then MkConfig (10 * Second) (Parallel c) else c
    end in
  MkAgg cfg ∅ [].

Definition Register {W} (name : string) (c : Checker W) (a : Aggregator W) : Aggregator W :=
  let order := match checkers a !! name with
               | Some _ => order a
               | None => order a ++ [name]
               end in
  MkAgg (config a) (<[name := c]> (checkers a)) order.

(** The first occurrence goes. *)
Fixpoint remove_first (name : string) (l : list string) : list string :=
  match l with
  | [] => []
  | n :: l => if bool_decide (n = name) then l else n :: remove_first name l
  end.

Definition Unregister {W} (name : string) (a : Aggregator W) : Aggregator W :=
  MkAgg (config a) (delete name (checkers a)) (remove_first name (order a)).

Definition CheckerNames {W} (a : Aggregator W) : list string := order a.

Definition OverallStatus (results : gmap string Result) : Z :=
  let l := (map_to_list results).*2 in
  if existsb (λ r, Status r =? StatusUnhealthy) l then StatusUnhealthy
  else if existsb (λ r, Status r =? StatusDegraded) l then StatusDegraded
  else StatusHealthy.

(** [context.WithTimeout]: the earlier deadline counts. *)
Definition ctx_WithTimeout (parent : option Duration) (d : Duration) : option Duration :=
  Some (match parent with Some p => Z.min p d | None => d end).

Section Checks.
Context {W : Type} `{GoEnv W}.

(** What the goroutine of a check sends: the result with its duration and a timestamp. *)
Definition stamped (start now : Time) (result : Result) : Result :=
  let result := WithDuration result (time_Since now start) in
  if time_IsZero (Timestamp result) then with_timestamp result start else result.

(** The check runs in a goroutine under the context. *)
Definition runCheck (ctx : option Duration) (c : Checker W) : Go W Result :=
  start ← time_Now;
  res ← env_race ctx
    (result ← Check c;
     now ← time_Now;
     mret (stamped start now result));
  match res with
  | OpDone result => mret result
  | CtxDone _ =>
      now ← time_Now;
      mret (MkResult StatusUnhealthy "check timed out" ∅ (time_Since now start) start
              (Some ErrCheckTimeout))
  end.

Definition agg_Check (ctx : option Duration) (name : string) (a : Aggregator W) : Go W (Result + error) :=
  match checkers a !! name with
  | None => mret (inr ErrCheckerNotFound)
  | Some c => r ← runCheck ctx c; mret (inl r)
  end.

(** The checks, in the order in which they run, and the map of their results. *)
Fixpoint run_all (ctx : option Duration) (l : list (string * Checker W)) (results : gmap string Result)
    : Go W (gmap string Result) :=
  match l with
  | [] => mret results
  | (name, c) :: l =>
      r ← runCheck ctx c;
      run_all ctx l (<[name := r]> results)
  end.

Context (iteration schedule : gmap string (Checker W) → list (string * Checker W)).

Definition CheckAll (ctx : option Duration) (a : Aggregator W) : Go W (gmap string Result) :=
  if bool_decide (checkers a = ∅) then mret ∅
  else
    let ctx := ctx_WithTimeout ctx (Timeout (config a)) in
    if Parallel (config a) then run_all ctx (schedule (checkers a)) ∅
    else run_all ctx (iteration (checkers a)) ∅.

(** The aggregator as a checker. *)
Definition aggregate_Check (ctx : option Duration) (a : Aggregator W) : Go W Result :=
  results ← CheckAll ctx a;
  let status := OverallStatus results in
  let details :=
    (λ r, DCheck (String (Status r)) (Message r) (Duration_String (RDuration r))) <$> results in
  let message :=
    if status =? StatusHealthy then "all checks passed"
    else if status =? StatusDegraded then "some checks degraded"
    else if status =? StatusUnhealthy then "some checks failed"
    else "" in
  now ← time_Now;
  mret (MkResult status message details 0 now None).

Definition aggregatorChecker (ctx : option Duration) (a : Aggregator W) : Checker W :=
  MkChecker "aggregate" (aggregate_Check ctx a).

(** ** http.go *)

(** A response: the status, the content type and the body. *)
Record CheckResponse := MkCheckResponse {
  cr_Status : string;
  cr_Message : string;
  cr_Duration : string;
  cr_Details : gmap string detail;
  cr_Error : option error;
}.

Inductive body :=
| Text (s : string)
| Single (c : CheckResponse)
| Detailed (status : string) (timestamp : Time) (checks : gmap string CheckResponse)
| NotFound (err : error).

Record response := MkResponse { code : Z; content_type : string; payload : body }.

Definition StatusOK : Z := 200.
Definition StatusNotFound : Z := 404.
Definition StatusServiceUnavailable : Z := 503.

(** The [switch] of the handlers. *)
Definition http_code (status : Z) : Z :=
  if status =? StatusHealthy then StatusOK
  else if status =? StatusDegraded then StatusOK
  else StatusServiceUnavailable.

Definition LivenessHandler : Go W response := mret (MkResponse StatusOK "text/plain" (Text "OK")).

Definition ReadinessHandler (ctx : option Duration) (a : Aggregator W) : Go W response :=
  results ← CheckAll (ctx_WithTimeout ctx (5 * Second)) a;
  let status := OverallStatus results in
  mret
    (if status =? StatusHealthy then MkResponse StatusOK "text/plain" (Text "OK")
     else if status =? StatusDegraded then MkResponse StatusOK "text/plain" (Text "DEGRADED")
     else MkResponse StatusServiceUnavailable "text/plain" (Text "UNHEALTHY")).

Definition check_response (r : Result) : CheckResponse :=
  MkCheckResponse (String (Status r)) (Message r) (Duration_String (RDuration r)) (Details r) (Error r).

Definition DetailedHandler (ctx : option Duration) (a : Aggregator W) : Go W response :=
  results ← CheckAll (ctx_WithTimeout ctx (10 * Second)) a;
  let status := OverallStatus results in
  now ← time_Now;
  mret (MkResponse (http_code status) "application/json"
          (Detailed (String status) now (check_response <$> results))).

Definition SingleCheckHandler (ctx : option Duration) (a : Aggregator W) (name : string) : Go W response :=
  res ← agg_Check (ctx_WithTimeout ctx (5 * Second)) name a;
  mret
    match res with
    | inr err => MkResponse StatusNotFound "application/json" (NotFound err)
    | inl r => MkResponse (http_code (Status r)) "application/json" (Single (check_response r))
    end.

(** [RegisterHandlers]: the handler that a path of the mux runs, with the request's context. *)
Definition RegisterHandlers (a : Aggregator W) : gmap string (option Duration → Go W response) :=
  <["/healthz" := λ _, LivenessHandler]> (
  <["/readyz" := λ ctx, ReadinessHandler ctx a]> (
  <["/health" := λ ctx, DetailedHandler ctx a]> ∅)).
End Checks.

(** ** memory.go *)

Record MemoryCheckerConfig := MkMemConfig {
  WarningThreshold : float64;
  CriticalThreshold : float64;
  MaxAlloc : Z;
}.

Definition NewMemoryChecker (c : MemoryCheckerConfig) : MemoryCheckerConfig :=
  let warning :=
    if fleb (WarningThreshold c) f_zero || fleb f_one (WarningThreshold c)
    then f_lit 8 10 else WarningThreshold c in
  let critical :=
    if fleb (CriticalThreshold c) f_zero || fleb f_one (CriticalThreshold c)
    then f_lit 95 100 else CriticalThreshold c in
  let critical :=
    if fltb critical warning then
      let critical := fadd warning (f_lit 1 10) in
      if fltb f_one critical then f_lit 99 100 else critical
    else critical in
  MkMemConfig warning critical (MaxAlloc c).

(** The fields of [runtime.MemStats] that the checker reads. *)
Record MemStats := MkMemStats {
  Alloc : Z;
  TotalAlloc : Z;
  Sys : Z;
  NumGC : Z;
  HeapAlloc : Z;
  HeapSys : Z;
  HeapIdle : Z;
  HeapInuse : Z;
  HeapReleased : Z;
  HeapObjects : Z;
  StackInuse : Z;
  StackSys : Z;
  PauseTotalNs : Z;
}.

Definition unavailable_details (s : MemStats) : gmap string detail :=
  {["alloc" := DInt (Alloc s); "total_alloc" := DInt (TotalAlloc s); "sys" := DInt (Sys s);
    "num_gc" := DInt (NumGC s)]}.

Definition details (s : MemStats) (maxAlloc : Z) (usageRatio : float64) (goroutines : Z)
    : gmap string detail :=
  {["alloc_bytes" := DInt (Alloc s);
    "alloc_mb" := DFloat (fdiv (f_of_Z (Alloc s)) (f_of_Z (1024 * 1024)));
    "max_alloc" := DInt maxAlloc;
    "usage_percent" := DFloat (fmul usageRatio (f_of_Z 100));
    "heap_alloc" := DInt (HeapAlloc s);
    "heap_sys" := DInt (HeapSys s);
    "heap_idle" := DInt (HeapIdle s);
    "heap_in_use" := DInt (HeapInuse s);
    "heap_released" := DInt (HeapReleased s);
    "heap_objects" := DInt (HeapObjects s);
    "stack_in_use" := DInt (StackInuse s);
    "stack_sys" := DInt (StackSys s)]}
  ∪ {["gc_pause_total" := DInt (PauseTotalNs s);
      "num_gc" := DInt (NumGC s);
      "goroutines" := DInt goroutines]}.

Section Memory.
Context {W : Type} `{GoEnv W} (ReadMemStats : Go W MemStats) (NumGoroutine : Go W Z).

Definition mem_Check (c : MemoryCheckerConfig) : Go W Result :=
  done ← ctx_Done;
  match done with
  | Some err => Unhealthy "context cancelled" (Some err)
  | None =>
      stats ← ReadMemStats;
      let maxAlloc := if MaxAlloc c =? 0 then Sys stats else MaxAlloc c in
      if maxAlloc =? 0 then
        r ← Healthy "memory stats unavailable"; mret (WithDetails r (unavailable_details stats))
      else
        let usageRatio := fdiv (f_of_Z (Alloc stats)) (f_of_Z maxAlloc) in
        let percent := fmt_1f (fmul usageRatio (f_of_Z 100)) in
        goroutines ← NumGoroutine;
        let details := details stats maxAlloc usageRatio goroutines in
        if fleb (CriticalThreshold c) usageRatio then
          r ← Unhealthy ("memory usage critical: " +:+ percent +:+ "%") (Some ErrCheckFailed);
          mret (WithDetails r details)
        else if fleb (WarningThreshold c) usageRatio then
          r ← Degraded ("memory usage high: " +:+ percent +:+ "%");
          mret (WithDetails r details)
        else
          r ← Healthy ("memory usage normal: " +:+ percent +:+ "%");
          mret (WithDetails r details)
  end.

Definition MemoryChecker (c : MemoryCheckerConfig) : Checker W := MkChecker "memory" (mem_Check c).
End Memory.

(** ** The registry of checkers *)

Record inv {W} (a : Aggregator W) : Prop := {
  inv_nodup : NoDup (order a);
  inv_dom n : n ∈ order a ↔ is_Some (checkers a !! n);
}.

Lemma remove_first_spec name l :
  NoDup l → NoDup (remove_first name l) ∧ ∀ n, n ∈ remove_first name l ↔ n ∈ l ∧ n ≠ name.
Proof.
  induction 1 as [|x l Hx Hl [IH1 IH2]]; simpl.
  - split; [constructor|]. intros n. rewrite !elem_of_nil. tauto.
  - case_bool_decide as E.
    + subst. split; [done|]. intros n. rewrite elem_of_cons. split.
      * intros Hn. split; [by right|]. by intros ->.
      * by intros [[?|?] ?].
    + split.
      * constructor; [rewrite IH2; tauto | done].
      * intros n. rewrite !elem_of_cons, IH2. split.
        -- intros [->|[??]]; auto.
        -- intros [[?|?] ?]; auto.
Qed.

Inductive agg_op (W : Type) :=
| OpRegister (name : string) (c : Checker W)
| OpUnregister (name : string).
Arguments OpRegister {W} _ _.
Arguments OpUnregister {W} _.

Definition agg_step {W} (o : agg_op W) (a : Aggregator W) : Aggregator W :=
  match o with
  | OpRegister name c => Register name c a
  | OpUnregister name => Unregister name a
  end.

Lemma agg_step_inv {W} (o : agg_op W) a : inv a → inv (agg_step o a).
Proof.
  intros [Hn Hd]. destruct o as [name c|name]; simpl; split; simpl.
  - destruct (checkers a !! name) eqn:E; [done|]. apply NoDup_app. split_and!; [done| |apply NoDup_singleton].
    intros x Hx ->%list_elem_of_singleton. apply Hd in Hx as [? ?]. congruence.
  - intros n. rewrite lookup_insert_is_Some'. destruct (checkers a !! name) eqn:E.
    + rewrite Hd. split; [by right|]. intros [<-|?]; [by rewrite E | done].
    + rewrite elem_of_app, list_elem_of_singleton, Hd. intuition auto.
  - by apply remove_first_spec.
  - intros n. rewrite (proj2 (remove_first_spec name (order a) Hn)), Hd, lookup_delete_is_Some.
    intuition auto.
Qed.

(** The checkers after a sequence of registrations: the last one for each name counts. *)
Definition registered {W} (ops : list (agg_op W)) (n : string) : option (Checker W) :=
  foldl (λ acc o,
    match o with
    | OpRegister name c => if bool_decide (name = n) then Some c else acc
    | OpUnregister name => if bool_decide (name = n) then None else acc
    end) None ops.

(** After any sequence of registrations and removals, the names are listed once each,
    in an order of first registration, and are exactly those whose last operation is a
    registration; each has the checker registered last. *)
Theorem registry_tracks_registrations {W} cfg (ops : list (agg_op W)) :
  let a := run_steps agg_step ops (NewAggregator cfg) in
  NoDup (CheckerNames a) ∧
  (∀ n, checkers a !! n = registered ops n) ∧
  (∀ n, n ∈ CheckerNames a ↔ is_Some (registered ops n)).
Proof.
  intros a. assert (inv a) as [Hn Hd].
  { apply (run_steps_ind agg_step inv); [apply agg_step_inv|].
    split; simpl; [constructor|]. intros n. rewrite elem_of_nil, lookup_empty.
    split; [done | by intros [? ?]]. }
  assert (∀ n, checkers a !! n = registered ops n) as Hc.
  { intros n. unfold a. clear. induction ops as [|o ops IH] using rev_ind; [done|].
    rewrite run_steps_app. unfold registered. rewrite foldl_app. fold (registered ops n). simpl.
    destruct o as [name c|name]; simpl; case_bool_decide; subst;
      by rewrite ?lookup_insert_eq, ?lookup_delete_eq, ?lookup_insert_ne, ?lookup_delete_ne by done. }
  split_and!; [done..|]. intros n. rewrite <- Hc. apply Hd.
Qed.

(** ** The overall status *)

Lemma OverallStatus_spec results :
  (OverallStatus results = StatusUnhealthy ↔ ∃ n r, results !! n = Some r ∧ Status r = StatusUnhealthy) ∧
  (OverallStatus results = StatusDegraded ↔
    (∃ n r, results !! n = Some r ∧ Status r = StatusDegraded) ∧
    ¬ ∃ n r, results !! n = Some r ∧ Status r = StatusUnhealthy) ∧
  (OverallStatus results = StatusHealthy ∨ OverallStatus results = StatusDegraded
   ∨ OverallStatus results = StatusUnhealthy).
Proof.
  assert (∀ s, existsb (λ r, Status r =? s) (map_to_list results).*2 = true ↔
    ∃ n r, results !! n = Some r ∧ Status r = s) as Hs.
  { intros s. rewrite existsb_true_iff. split.
    - intros (r & ([n r'] & -> & Hin)%list_elem_of_fmap & Hr). apply elem_of_map_to_list in Hin.
      exists n, r'. split; [done|]. by apply Z.eqb_eq.
    - intros (n & r & Hl & Hr). exists r. split; [|by apply Z.eqb_eq].
      apply list_elem_of_fmap. exists (n, r). split; [done|]. by apply elem_of_map_to_list. }
  pose proof (Hs StatusUnhealthy) as Hu. pose proof (Hs StatusDegraded) as Hd.
  unfold OverallStatus.
  destruct (existsb (λ r, Status r =? StatusUnhealthy) _), (existsb (λ r, Status r =? StatusDegraded) _);
    split_and!; unfold StatusHealthy, StatusDegraded, StatusUnhealthy in *; intuition first [congruence | lia].
Qed.

(** ** Running the checks *)

Section ChecksProofs.
Context {W : Type} `{GoEnvSpec W}.

(** The checker's own result, but for the duration and a missing timestamp. *)
Definition own_result (c : Checker W) (r : Result) : Prop :=
  ∃ r0 w0 w1, Check c w0 = (Val r0, w1) ∧ Status r = Status r0 ∧ Message r = Message r0 ∧
    Details r = Details r0 ∧ Error r = Error r0 ∧ (Timestamp r0 ≠ 0 → Timestamp r = Timestamp r0).

(** The result of a check that its context stopped. *)
Definition timed_out (r : Result) : Prop :=
  Status r = StatusUnhealthy ∧ Message r = "check timed out" ∧ Error r = Some ErrCheckTimeout.

(** The result is one of a run of the checker [c] under the context. *)
Definition result_of (ctx : option Duration) (c : Checker W) (r : Result) : Prop :=
  (∃ w w', runCheck ctx c w = (Val r, w')) ∧ (own_result c r ∨ timed_out r).

Lemma runCheck_result ctx c w r w' : runCheck ctx c w = (Val r, w') → result_of ctx c r.
Proof.
  intros HE. split; [by exists w, w'|]. unfold runCheck in HE. rewrite go_bind_run in HE.
  unfold time_Now, go_lift in HE. destruct (env_now w) as [start w1]. rewrite go_bind_run in HE.
  match type of HE with context [env_race ctx ?op w1] =>
    destruct (env_race_cases Result ctx op w1) as [Hrun|(e & w2 & Hrun)] end; rewrite Hrun in HE.
  - left. rewrite !go_bind_run in HE.
    destruct (Check c (env_start ctx w1)) as [[r0|msg|] w2] eqn:Ec; try done.
    rewrite go_bind_run in HE. destruct (env_now w2) as [now w3]. unfold mret, go_ret in HE. simplify_eq.
    exists r0, (env_start ctx w1), w2. split; [done|]. unfold stamped, time_IsZero. simpl.
    destruct (Timestamp r0 =? 0) eqn:Ez; zbool; by repeat split.
  - right. rewrite go_bind_run in HE. destruct (env_now w2) as [now w3]. unfold mret, go_ret in HE. by simplify_eq.
Qed.

(** The checker always comes back with a result, its own or that of its timeout. *)
Definition returns (ctx : option Duration) (c : Checker W) : Prop :=
  ∀ w, ∃ r w', runCheck ctx c w = (Val r, w').

Lemma run_all_spec d l acc w results w' :
  NoDup l.*1 → (∀ n, n ∈ l.*1 → acc !! n = None) →
  run_all d l acc w = (Val results, w') →
  ∀ n, match results !! n with
       | Some r => acc !! n = Some r ∨ ∃ c, (n, c) ∈ l ∧ result_of d c r
       | None => acc !! n = None ∧ n ∉ l.*1
       end.
Proof.
  revert acc w. induction l as [|[name c] l IH]; intros acc w Hnd Hacc HE n; simpl in HE.
  - unfold mret, go_ret in HE. simplify_eq. destruct (results !! n); [by left|].
    split; [done|]. apply not_elem_of_nil.
  - rewrite go_bind_run in HE. destruct (runCheck d c w) as [[r|msg|] w1] eqn:Er; try done.
    simpl in Hnd. apply NoDup_cons in Hnd as [Hn Hnd].
    assert (∀ n', n' ∈ l.*1 → <[name:=r]> acc !! n' = None) as Hacc'.
    { intros n' Hn'. rewrite lookup_insert_ne by (by intros ->). apply Hacc. by right. }
    specialize (IH _ _ Hnd Hacc' HE n). destruct (results !! n) as [r'|].
    + destruct IH as [Hi|(c' & Hin & Hr')].
      * apply lookup_insert_Some in Hi as [[-> ->]|[_ ?]]; [|by left].
        right. exists c. split; [constructor|]. by eapply runCheck_result.
      * right. exists c'. split; [by constructor|done].
    + destruct IH as [[Ha Hne]%lookup_insert_None Hnl]. split; [done|].
      simpl. rewrite elem_of_cons. intros [->|?]; done.
Qed.

Lemma run_all_returns d l acc w :
  (∀ n c, (n, c) ∈ l → returns d c) → ∃ results w', run_all d l acc w = (Val results, w').
Proof.
  revert acc w. induction l as [|[name c] l IH]; intros acc w Hl; simpl; [by eexists _, _|].
  destruct (Hl name c ltac:(constructor) w) as (r & w1 & Hr). rewrite go_bind_run, Hr.
  apply IH. intros n c' Hin. apply (Hl n). by constructor.
Qed.

Context (iteration schedule : gmap string (Checker W) → list (string * Checker W)).

(** Every binding, in some order. *)
Definition iterates (f : gmap string (Checker W) → list (string * Checker W)) : Prop :=
  ∀ m, f m ≡ₚ map_to_list m.

Lemma iterates_nodup f m : iterates f → NoDup (f m).*1.
Proof. intros Hf. rewrite (Hf m). apply NoDup_fst_map_to_list. Qed.

Lemma iterates_elem f m n c : iterates f → (n, c) ∈ f m ↔ m !! n = Some c.
Proof. intros Hf. rewrite (Hf m). apply elem_of_map_to_list. Qed.

(** Outside of the empty case both modes are [run_all] over the bindings in some order. *)
Lemma CheckAll_run_all ctx a w :
  iterates iteration → iterates schedule →
  ∃ f, iterates f ∧ CheckAll iteration schedule ctx a w =
    run_all (ctx_WithTimeout ctx (Timeout (config a))) (f (checkers a)) ∅ w.
Proof.
  intros Hi Hs. unfold CheckAll. case_bool_decide as E.
  - exists iteration. split; [done|]. rewrite E. pose proof (Hi ∅) as Hp.
    rewrite map_to_list_empty in Hp. apply Permutation_nil_r in Hp. by rewrite Hp.
  - destruct (Parallel (config a)); [by exists schedule | by exists iteration].
Qed.

(** C22. In both modes, and whatever order the checks run in, [CheckAll] has one result for
    each registered checker and none else: that checker's own result, or an unhealthy one
    with the error of a timeout, from a run under the context limited by the aggregator's
    timeout; and it returns when every checker comes back. *)
Theorem CheckAll_covers ctx a w :
  iterates iteration → iterates schedule →
  let ctx' := ctx_WithTimeout ctx (Timeout (config a)) in
  (∀ results w', CheckAll iteration schedule ctx a w = (Val results, w') →
   ∀ n, match results !! n, checkers a !! n with
        | Some r, Some c => result_of ctx' c r
        | None, None => True
        | _, _ => False
        end) ∧
  ((∀ n c, checkers a !! n = Some c → returns ctx' c) →
   ∃ results w', CheckAll iteration schedule ctx a w = (Val results, w')).
Proof.
  intros Hi Hs ctx'. destruct (CheckAll_run_all ctx a w Hi Hs) as (f & Hf & ->). fold ctx'. split.
  - intros results w' HE n.
    pose proof (run_all_spec _ _ _ _ _ _ (iterates_nodup f _ Hf) (λ n _, lookup_empty n) HE n) as Hr.
    destruct (results !! n) as [r|].
    + destruct Hr as [Hr|(c & Hc & Hr)]; [by rewrite lookup_empty in Hr|].
      apply (iterates_elem f _ _ _ Hf) in Hc. by rewrite Hc.
    + destruct Hr as [_ Hr]. destruct (checkers a !! n) as [c|] eqn:E; [|done].
      apply Hr. apply list_elem_of_fmap. exists (n, c). split; [done|]. by apply iterates_elem.
  - intros Hc. apply run_all_returns. intros n c Hin. apply (Hc n). by apply (iterates_elem f).
Qed.

(** Some check came out with the status. *)
Definition some_check (results : gmap string Result) (status : Z) : Prop :=
  ∃ n r, results !! n = Some r ∧ Status r = status.

Lemma http_code_spec results :
  let code := http_code (OverallStatus results) in
  (code = StatusServiceUnavailable ↔ some_check results StatusUnhealthy) ∧
  (code = StatusOK ∨ code = StatusServiceUnavailable).
Proof.
  destruct (OverallStatus_spec results) as (Hu & _ & Hc). unfold some_check. rewrite <- Hu. simpl.
  unfold http_code. by destruct Hc as [E|[E|E]]; rewrite E; vm_compute; intuition.
Qed.

(** The readiness and the detailed endpoint answer 503 exactly when a check came out
    unhealthy within 5 and within 10 seconds, and 200 otherwise; the readiness text tells a
    degraded service from a healthy one; the detailed answer has an entry for every check. *)
Theorem handlers_report_unhealthy ctx a w :
  (∀ results w', CheckAll iteration schedule (ctx_WithTimeout ctx (5 * Second)) a w = (Val results, w') →
   ∃ r, ReadinessHandler iteration schedule ctx a w = (Val r, w') ∧
     (code r = StatusServiceUnavailable ↔ some_check results StatusUnhealthy) ∧
     (code r = StatusOK ∨ code r = StatusServiceUnavailable) ∧
     (payload r = Text "DEGRADED" ↔
       some_check results StatusDegraded ∧ ¬ some_check results StatusUnhealthy)) ∧
  (∀ results w', CheckAll iteration schedule (ctx_WithTimeout ctx (10 * Second)) a w = (Val results, w') →
   ∃ r w'', DetailedHandler iteration schedule ctx a w = (Val r, w'') ∧
     (code r = StatusServiceUnavailable ↔ some_check results StatusUnhealthy) ∧
     (code r = StatusOK ∨ code r = StatusServiceUnavailable) ∧
     ∃ status now, payload r = Detailed status now (check_response <$> results)).
Proof.
  split; intros results w' HE; destruct (http_code_spec results) as [H503 Hcases].
  - unfold ReadinessHandler. rewrite go_bind_run, HE.
    destruct (OverallStatus_spec results) as (Hu & Hd & _). fold (some_check results StatusUnhealthy) in *.
    fold (some_check results StatusDegraded) in *.
    eexists. split; [done|]. unfold http_code in *. rewrite <- Hd.
    destruct (OverallStatus results =? StatusHealthy) eqn:E1;
      [|destruct (OverallStatus results =? StatusDegraded) eqn:E2]; zbool; simpl in *;
      (split; [done|]); (split; [done|]); rewrite ?E1, ?E2; split; (done || by intros ?).
  - unfold DetailedHandler. rewrite go_bind_run, HE, go_bind_run. unfold time_Now, go_lift.
    destruct (env_now w') as [now w2]. eexists _, _. split; [done|]. split; [done|].
    split; [done|]. by eexists _, _.
Qed.
End ChecksProofs.

(** The thresholds of a memory checker can come out in the wrong order: with a warning at
    99.5% and a critical threshold below, the critical one becomes 99%. *)
Lemma memory_thresholds_inverted :
  let c := NewMemoryChecker (MkMemConfig (f_lit 995 1000) (f_lit 5 10) 0) in
  fltb (CriticalThreshold c) (WarningThreshold c) = true.
Proof. by vm_compute. Qed.

(** For thresholds given in order between 0 and 1 the constructor keeps them, and the
    memory check is unhealthy from the critical ratio on, degraded from the warning ratio
    on, and healthy below, with the details of the reading; it is unhealthy, with the
    context's error, when the context is done. *)
Theorem mem_Check_by_threshold {W} `{GoEnv W} (ReadMemStats : Go W MemStats) (NumGoroutine : Go W Z) c w :
  fltb f_zero (WarningThreshold c) = true → fltb (WarningThreshold c) f_one = true →
  fltb f_zero (CriticalThreshold c) = true → fltb (CriticalThreshold c) f_one = true →
  fltb (CriticalThreshold c) (WarningThreshold c) = false → MaxAlloc c ≠ 0 →
  let run := mem_Check ReadMemStats NumGoroutine (NewMemoryChecker c) w in
  NewMemoryChecker c = c ∧
  match env_ctx w with
  | (Some err, w1) => ∃ r w', run = (Val r, w') ∧ Status r = StatusUnhealthy ∧ Error r = Some err
  | (None, w1) => ∀ stats w2 n w3,
      ReadMemStats w1 = (Val stats, w2) → NumGoroutine w2 = (Val n, w3) →
      let ratio := fdiv (f_of_Z (Alloc stats)) (f_of_Z (MaxAlloc c)) in
      ∃ r w', run = (Val r, w') ∧ Details r = details stats (MaxAlloc c) ratio n ∧
        Status r = (if fleb (CriticalThreshold c) ratio then StatusUnhealthy
                    else if fleb (WarningThreshold c) ratio then StatusDegraded else StatusHealthy)
  end.
Proof.
  intros Hw0 Hw1 Hc0 Hc1 Hwc Hm run.
  assert (∀ x y, fltb x y = true → fleb y x = false) as Hlt.
  { intros x y Hxy. unfold fltb in Hxy. unfold fleb.
    rewrite SFleb_ltb; [by rewrite Hxy| |]; intros ->; unfold SFltb in Hxy; [by destruct x | done]. }
  assert (NewMemoryChecker c = c) as Hc.
  { unfold NewMemoryChecker. rewrite !Hlt by done. simpl. rewrite Hwc. by destruct c. }
  split; [done|]. unfold run. rewrite Hc. unfold mem_Check. rewrite go_bind_run.
  unfold ctx_Done, go_lift, Unhealthy, Degraded, Healthy, time_Now.
  destruct (env_ctx w) as [[err|] w1].
  { rewrite go_bind_run. unfold go_lift. destruct (env_now w1) as [now w2]. by eexists _, _. }
  intros stats w2 n w3 Hstats Hn. set (ratio := fdiv _ (f_of_Z (MaxAlloc c))).
  rewrite go_bind_run, Hstats, !(proj2 (Z.eqb_neq (MaxAlloc c) 0)) by done. fold ratio.
  rewrite go_bind_run, Hn. unfold go_lift, mbind, go_bind, mret, go_ret.
  destruct (fleb (CriticalThreshold c) ratio), (fleb (WarningThreshold c) ratio);
    destruct (env_now w3) as [now w4]; by eexists _, _.
Qed.

(** ** Witnesses *)

Definition ok : Checker (World unit) := NewCheckerFunc "ok" (Healthy "fine").
Definition bad : Checker (World unit) := NewCheckerFunc "bad" (Unhealthy "down" (Some (Foreign 3))).

Definition demo : Aggregator (World unit) := Register "db" bad (Register "api" ok (NewAggregator None)).
Definition demo_world : World unit := MkWorld 1000 1 [] [] 0 [] ().

Lemma demo_map_iterates : iterates (W:=World unit) map_to_list.
Proof. by intros m. Qed.

Abbreviation demo_CheckAll ctx := (CheckAll (W:=World unit) map_to_list map_to_list ctx demo) (only parsing).

(** The results and the world after the run. *)
Definition demo_results (ctx : option Duration) : gmap string Result :=
  match demo_CheckAll ctx demo_world with (Val r, _) => r | _ => ∅ end.

Definition is_val {A} (o : outcome A) : bool := match o with Val _ => true | _ => false end.

Lemma demo_checks_run ctx :
  is_val (demo_CheckAll ctx demo_world).1 = true →
  demo_CheckAll ctx demo_world = (Val (demo_results ctx), (demo_CheckAll ctx demo_world).2).
Proof.
  unfold demo_results. destruct (demo_CheckAll ctx demo_world) as [[r|m|] w']; done.
Qed.

Lemma demo_db ctx :
  (Status <$> demo_results ctx !! "db") = Some StatusUnhealthy →
  ∃ r, demo_results ctx !! "db" = Some r ∧ Status r = StatusUnhealthy.
Proof. intros (r & Hr & Hs)%fmap_Some. exists r. exact (conj Hr (eq_sym Hs)). Qed.

Lemma CheckAll_covers_witness :
  ∃ r, demo_results None !! "db" = Some r ∧ result_of (Some (10 * Second)) bad r.
Proof.
  destruct (CheckAll_covers map_to_list map_to_list None demo demo_world demo_map_iterates demo_map_iterates)
    as [Hc _].
  assert (is_val (demo_CheckAll None demo_world).1 = true) as Hv by (vm_compute; reflexivity).
  specialize (Hc _ _ (demo_checks_run None Hv) "db").
  pose proof (demo_db None ltac:(vm_compute; reflexivity)) as (r & Hr & _).
  rewrite Hr in Hc. exists r. exact (conj Hr Hc).
Defined.

Lemma handlers_report_unhealthy_witness :
  ∃ r1 w1, ReadinessHandler map_to_list map_to_list None demo demo_world = (Val r1, w1) ∧ code r1 = 503.
Proof.
  destruct (handlers_report_unhealthy map_to_list map_to_list None demo demo_world) as [Hr _].
  assert (is_val (demo_CheckAll (ctx_WithTimeout None (5 * Second)) demo_world).1 = true) as Hv
    by (vm_compute; reflexivity).
  destruct (Hr _ _ (demo_checks_run _ Hv)) as (r & HE & Hc & _).
  eexists r, _. split; [exact HE|]. apply Hc. unfold some_check.
  exists "db". exact (demo_db _ ltac:(vm_compute; reflexivity)).
Defined.

Definition demo_stats : MemStats := MkMemStats 85 900 128 3 80 100 10 80 5 1000 4 8 77.

Lemma mem_Check_by_threshold_witness :
  let c := MkMemConfig (f_lit 8 10) (f_lit 9 10) 100 in
  ∃ r w', mem_Check (mret demo_stats) (mret 7) (NewMemoryChecker c) demo_world = (Val r, w') ∧
    Status r = StatusDegraded.
Proof.
  destruct (mem_Check_by_threshold (mret demo_stats) (mret 7) (MkMemConfig (f_lit 8 10) (f_lit 9 10) 100)
    demo_world) as [_ Hr]; [by vm_compute..|].
  destruct (Hr demo_stats demo_world 7 demo_world eq_refl eq_refl) as (r & w' & HE & _ & Hs).
  exists r, w'. split; [exact HE|]. rewrite Hs. by vm_compute.
Defined.

End HL.
