(* ===== verification/HealthParallel.v ===== *)
(** * health/aggregator.go: the goroutines of the parallel mode of [CheckAll]

    The loop that starts one goroutine for each checker, the goroutines, and the wait for
    them are a step relation: between any two steps any other goroutine may run.  A
    goroutine runs its check, stores the result under the mutex, then leaves the wait
    group.  The theorems show that every interleaving is the sequence of checks that
    [HL.CheckAll] is in some order, and that every interleaving ends.

    There the check of a goroutine is one step.  Inside it [runCheck] races a goroutine of
    its own against the context: the last section shows that every interleaving of these
    two is an outcome of [HL.runCheck]. *)

From stdpp Require Import relations.
From S2P Require Import Prelude.
From S2P Require Import GoRuntime.
From S2P Require Import GoFloat.
From S2P Require Import GoRace.
From S2P Require Import Health.
Local Open Scope Z_scope.
Local Open Scope stdpp_scope.

Module HP.

Section Parallel.
Context {W : Type} `{GoEnvSpec W} (ctx : option Duration).

(** ** The steps *)

(** The points of a goroutine: before its check ends, with the result, after
    [results[name] = result], after [wg.Done]. *)
Inductive pc :=
| Running
| Got (r : HL.Result)
| Stored (r : HL.Result)
| Finished (r : HL.Result).

Record goroutine := MkG { name : string; checker : HL.Checker W; at_pc : pc }.

(** The points of [CheckAll] itself: in the loop with the checkers still to start, in
    [wg.Wait], after it; or the process ended by a panic of a check. *)
Inductive caller :=
| Spawning (rest : list (string * HL.Checker W))
| Waiting
| Returned
| Crashed (msg : string).

Record sys := MkSys {
  main : caller;
  threads : list goroutine;
  results : gmap string HL.Result;
  wg : Z;
  world : W;
}.

Definition alive (m : caller) : Prop := match m with Spawning _ | Waiting => True | _ => False end.

Inductive step : relation sys :=
| step_go n c rest ths res k w :
    step (MkSys (Spawning ((n, c) :: rest)) ths res k w)
         (MkSys (Spawning rest) (ths ++ [MkG n c Running]) res (k + 1) w)
| step_loop_end ths res k w :
    step (MkSys (Spawning []) ths res k w) (MkSys Waiting ths res k w)
| step_check m ths i n c r res k w w' :
    alive m → ths !! i = Some (MkG n c Running) → HL.runCheck ctx c w = (Val r, w') →
    step (MkSys m ths res k w) (MkSys m (<[i:=MkG n c (Got r)]> ths) res k w')
| step_panic m ths i n c msg res k w w' :
    alive m → ths !! i = Some (MkG n c Running) → HL.runCheck ctx c w = (Panic msg, w') →
    step (MkSys m ths res k w) (MkSys (Crashed msg) ths res k w')
| step_store m ths i n c r res k w :
    alive m → ths !! i = Some (MkG n c (Got r)) →
    step (MkSys m ths res k w) (MkSys m (<[i:=MkG n c (Stored r)]> ths) (<[n:=r]> res) k w)
| step_done m ths i n c r res k w :
    alive m → ths !! i = Some (MkG n c (Stored r)) →
    step (MkSys m ths res k w) (MkSys m (<[i:=MkG n c (Finished r)]> ths) res (k - 1) w)
| step_wait ths res w :
    step (MkSys Waiting ths res 0 w) (MkSys Returned ths res 0 w).

(** [CheckAll] in the world [w], with the checkers in the order of the map iteration. *)
Definition init (l : list (string * HL.Checker W)) (w : W) : sys := MkSys (Spawning l) [] ∅ 0 w.

(** ** The invariant: a sequential run of the checks that are over *)

Definition unfinished (t : goroutine) : bool :=
  match at_pc t with Finished _ => false | _ => true end.

Definition binding (t : goroutine) : string * HL.Checker W := (name t, checker t).

(** The result a goroutine has, and the one it has stored. *)
Definition got (t : goroutine) : option (string * HL.Result) :=
  match at_pc t with Running => None | Got r | Stored r | Finished r => Some (name t, r) end.
Definition stored (t : goroutine) : option (string * HL.Result) :=
  match at_pc t with Running | Got _ => None | Stored r | Finished r => Some (name t, r) end.
(** The checkers that ran, and those that did not. *)
Definition ran (t : goroutine) : option (string * HL.Checker W) :=
  match at_pc t with Running => None | _ => Some (binding t) end.
Definition pending (t : goroutine) : option (string * HL.Checker W) :=
  match at_pc t with Running => Some (binding t) | _ => None end.

Definition rest (m : caller) : list (string * HL.Checker W) :=
  match m with Spawning l => l | _ => [] end.

Record inv (l : list (string * HL.Checker W)) (w0 : W) (s : sys) : Prop := {
  inv_names : (binding <$> threads s) ++ rest (main s) = l;
  inv_wg : wg s = Z.of_nat (count_if unfinished (threads s));
  inv_results : results s = list_to_map (omap stored (threads s));
  inv_returned : main s = Returned → wg s = 0;
  inv_order : ∃ order res, order ≡ₚ omap ran (threads s) ∧
    HL.run_all ctx order ∅ w0 = (Val res, world s) ∧ res = list_to_map (omap got (threads s));
}.

(** A panic is the one of a sequential run, too. *)
Definition sound (l : list (string * HL.Checker W)) (w0 : W) (s : sys) : Prop :=
  match main s with
  | Crashed msg => ∃ order, order ≡ₚ l ∧ HL.run_all ctx order ∅ w0 = (Panic msg, world s)
  | _ => inv l w0 s
  end.

Lemma run_all_app l1 l2 acc w :
  HL.run_all ctx (l1 ++ l2) acc w = (HL.run_all ctx l1 acc ≫= HL.run_all ctx l2) w.
Proof.
  revert acc w. induction l1 as [|[n c] l1 IH]; intros acc w; [done|]. simpl.
  rewrite !go_bind_run. destruct (HL.runCheck ctx c w) as [[r|msg|] w1]; [|done..].
  rewrite IH, go_bind_run. done.
Qed.

Lemma ran_pending (ths : list goroutine) : binding <$> ths ≡ₚ omap ran ths ++ omap pending ths.
Proof.
  induction ths as [|[n c p] ths IH]; [done|]. unfold ran, pending in *. simpl.
  destruct p; simpl; rewrite IH; try done. apply Permutation_middle.
Qed.

Lemma inv_init l w : inv l w (init l w).
Proof. split; simpl; try done. by exists [], ∅. Qed.

Lemma binding_insert (ths : list goroutine) (i : nat) n c p p' :
  ths !! i = Some (MkG n c p) → binding <$> (<[i:=MkG n c p']> ths) = binding <$> ths.
Proof.
  intros Hi. rewrite list_fmap_insert. apply list_insert_id. by rewrite list_lookup_fmap, Hi.
Qed.

Section Step.
Context (l : list (string * HL.Checker W)) (w0 : W).
Hypothesis Hl : NoDup l.*1.

Lemma names_nodup s : inv l w0 s → NoDup (name <$> threads s).
Proof.
  intros Hs. assert (name <$> threads s = (binding <$> threads s).*1) as ->
    by by rewrite <- list_fmap_compose.
  rewrite <- (inv_names _ _ _ Hs), fmap_app in Hl. by apply NoDup_app in Hl as [? _].
Qed.

Lemma got_insert (ths : list goroutine) (i : nat) n c r :
  NoDup (name <$> ths) → ths !! i = Some (MkG n c Running) →
  list_to_map (omap got (<[i:=MkG n c (Got r)]> ths)) = <[n:=r]> (list_to_map (omap got ths) : gmap string HL.Result).
Proof.
  intros Hnd Hi. symmetry. change (<[n:=r]> (list_to_map (omap got ths))) with
    (list_to_map ((n, r) :: omap got ths) : gmap string HL.Result).
  pose proof (omap_insert_new got ths i _ (MkG n c (Got r)) (n, r) Hi eq_refl eq_refl) as Hp.
  symmetry. apply list_to_map_proper; [|done].
  eapply (NoDup_omap_fst _ name); [intros [n' c' []] n'' r'; cbn; congruence|].
  rewrite list_fmap_insert, list_insert_id; [done|]. by rewrite list_lookup_fmap, Hi.
Qed.

Lemma stored_insert (ths : list goroutine) (i : nat) n c r :
  NoDup (name <$> ths) → ths !! i = Some (MkG n c (Got r)) →
  list_to_map (omap stored (<[i:=MkG n c (Stored r)]> ths)) = <[n:=r]> (list_to_map (omap stored ths) : gmap string HL.Result).
Proof.
  intros Hnd Hi. change (<[n:=r]> (list_to_map (omap stored ths))) with
    (list_to_map ((n, r) :: omap stored ths) : gmap string HL.Result).
  pose proof (omap_insert_new stored ths i _ (MkG n c (Stored r)) (n, r) Hi eq_refl eq_refl) as Hp.
  apply list_to_map_proper; [|done].
  eapply (NoDup_omap_fst _ name); [intros [n' c' []] n'' r'; cbn; congruence|].
  rewrite list_fmap_insert, list_insert_id; [done|]. by rewrite list_lookup_fmap, Hi.
Qed.

Lemma step_sound s s' : sound l w0 s → step s s' → sound l w0 s'.
Proof.
  intros Hs Hst. destruct Hst as [n c rs ths res k w|ths res k w|m ths i n c r res k w w' Hm Hi Hr|
    m ths i n c msg res k w w' Hm Hi Hr|m ths i n c r res k w Hm Hi|m ths i n c r res k w Hm Hi|ths res w].
  - destruct Hs as [Hn Hw Hres _ Ho]. split; simpl in *; try done.
    + rewrite fmap_app, <- app_assoc. done.
    + rewrite count_if_app. simpl. lia.
    + by rewrite omap_app, app_nil_r.
    + by rewrite !omap_app, !app_nil_r.
  - destruct Hs as [Hn Hw Hres _ Ho]. by split.
  - assert (inv l w0 (MkSys m ths res k w)) as Hinv by (by destruct m).
    cut (inv l w0 (MkSys m (<[i:=MkG n c (Got r)]> ths) res k w')); [by destruct m|].
    pose proof (names_nodup _ Hinv) as Hnd.
    destruct Hinv as [Hn Hw Hres Hret (order & rs & Hp & Ho & Hrs)]. split; simpl in *.
    + by erewrite binding_insert.
    + pose proof (count_if_insert unfinished _ _ _ (MkG n c (Got r)) Hi). simpl in *. lia.
    + by erewrite omap_insert_same.
    + done.
    + exists (order ++ [(n, c)]), (<[n:=r]> rs). split_and!.
      * etrans; [|symmetry; exact (omap_insert_new ran ths i _ (MkG n c (Got r)) (n, c) Hi eq_refl eq_refl)].
        rewrite Hp. apply Permutation_app_comm.
      * rewrite run_all_app, go_bind_run, Ho. simpl. by rewrite go_bind_run, Hr.
      * by rewrite got_insert, Hrs.
  - assert (inv l w0 (MkSys m ths res k w)) as Hinv by (by destruct m).
    destruct Hinv as [Hn Hw Hres Hret (order & rs & Hp & Ho & Hrs)]. simpl in *.
    assert (∃ pend, omap pending ths ≡ₚ (n, c) :: pend) as [pend Hpend].
    { eexists. by apply (omap_insert_gone pending ths i _ (MkG n c (Got (HL.MkResult 0 "" ∅ 0 0 None))) _ Hi). }
    unfold sound. simpl. exists (order ++ (n, c) :: (pend ++ rest m)). split.
    + rewrite <- Hn, ran_pending, Hpend, Hp, <- app_assoc. done.
    + rewrite run_all_app, go_bind_run, Ho. simpl. by rewrite go_bind_run, Hr.
  - assert (inv l w0 (MkSys m ths res k w)) as Hinv by (by destruct m).
    cut (inv l w0 (MkSys m (<[i:=MkG n c (Stored r)]> ths) (<[n:=r]> res) k w)); [by destruct m|].
    pose proof (names_nodup _ Hinv) as Hnd.
    destruct Hinv as [Hn Hw Hres Hret Ho]. split; simpl in *.
    + by erewrite binding_insert.
    + pose proof (count_if_insert unfinished _ _ _ (MkG n c (Stored r)) Hi). simpl in *. lia.
    + by rewrite stored_insert, Hres.
    + done.
    + by rewrite (omap_insert_same ran _ _ _ (MkG n c (Stored r)) Hi eq_refl), (omap_insert_same got _ _ _ (MkG n c (Stored r)) Hi eq_refl).
  - assert (inv l w0 (MkSys m ths res k w)) as Hinv by (by destruct m).
    cut (inv l w0 (MkSys m (<[i:=MkG n c (Finished r)]> ths) res (k - 1) w)); [by destruct m|].
    destruct Hinv as [Hn Hw Hres Hret Ho]. split; simpl in *.
    + by erewrite binding_insert.
    + pose proof (count_if_insert unfinished _ _ _ (MkG n c (Finished r)) Hi). simpl in *. lia.
    + by erewrite omap_insert_same.
    + by intros ->.
    + by rewrite (omap_insert_same ran _ _ _ (MkG n c (Finished r)) Hi eq_refl), (omap_insert_same got _ _ _ (MkG n c (Finished r)) Hi eq_refl).
  - destruct Hs as [Hn Hw Hres _ Ho]. by split.
Qed.

Lemma reachable_sound s : rtc step (init l w0) s → sound l w0 s.
Proof. apply rtc_preserved; [apply step_sound | apply inv_init]. Qed.

(** When [CheckAll] returns, every goroutine is through. *)
Lemma returned_finished s t : inv l w0 s → main s = Returned → t ∈ threads s → unfinished t = false.
Proof.
  intros Hs Hm. apply count_if_zero. pose proof (inv_wg _ _ _ Hs) as Hw.
  rewrite (inv_returned _ _ _ Hs Hm) in Hw. lia.
Qed.

Lemma got_stored (ths : list goroutine) :
  (∀ t, t ∈ ths → unfinished t = false) → omap got ths = omap stored ths.
Proof.
  induction ths as [|t ths IH]; intros Hf; [done|]. simpl.
  assert (got t = stored t) as ->.
  { specialize (Hf t ltac:(constructor)). unfold unfinished, got, stored in *. by destruct (at_pc t). }
  destruct (stored t); [f_equal|]; apply IH; intros u Hu; apply Hf; by constructor.
Qed.

Lemma returned_run s :
  inv l w0 s → main s = Returned →
  ∃ order, order ≡ₚ l ∧ HL.run_all ctx order ∅ w0 = (Val (results s), world s).
Proof.
  intros Hs Hm. destruct (inv_order _ _ _ Hs) as (order & res & Hp & Ho & Hr).
  pose proof (λ t, returned_finished s t Hs Hm) as Hf.
  exists order. split.
  - rewrite Hp, (omap_total ran binding).
    + rewrite <- (inv_names _ _ _ Hs), Hm. simpl. by rewrite app_nil_r.
    + intros t Ht. specialize (Hf t Ht). unfold unfinished, ran in *. by destruct (at_pc t).
  - by rewrite Ho, Hr, (inv_results _ _ _ Hs), (got_stored _ Hf).
Qed.
End Step.

(** ** Termination *)

(** The steps a goroutine has left. *)
Definition steps_left (t : goroutine) : nat :=
  match at_pc t with Running => 3 | Got _ => 2 | Stored _ => 1 | Finished _ => 0 end.

Definition main_left (m : caller) : nat :=
  match m with Spawning l => 4 * length l + 3 | Waiting => 2 | Returned => 1 | Crashed _ => 0 end.

Definition left (s : sys) : nat := main_left (main s) + sum_list_with steps_left (threads s).

Lemma step_left s s' : step s s' → (left s' < left s)%nat.
Proof.
  intros Hst. destruct Hst as [n c rs ths res k w|ths res k w|m ths i n c r res k w w' Hm Hi Hr|
    m ths i n c msg res k w w' Hm Hi Hr|m ths i n c r res k w Hm Hi|m ths i n c r res k w Hm Hi|ths res w];
    unfold left; simpl.
  - rewrite sum_list_with_app. simpl. lia.
  - lia.
  - pose proof (sum_insert steps_left _ _ _ (MkG n c (Got r)) Hi) as Hsum. cbn [steps_left at_pc] in Hsum. lia.
  - destruct m; simpl in *; try done; lia.
  - pose proof (sum_insert steps_left _ _ _ (MkG n c (Stored r)) Hi) as Hsum. cbn [steps_left at_pc] in Hsum. lia.
  - pose proof (sum_insert steps_left _ _ _ (MkG n c (Finished r)) Hi) as Hsum. cbn [steps_left at_pc] in Hsum. lia.
  - lia.
Qed.

Lemma nsteps_left k s s' : nsteps step k s s' → (k + left s' ≤ left s)%nat.
Proof. apply nsteps_measure, step_left. Qed.

(** A goroutine that is not through can move, when its check comes back. *)
Lemma goroutine_moves s i t :
  alive (main s) → threads s !! i = Some t → unfinished t = true → HL.returns ctx (checker t) →
  ∃ s', step s s'.
Proof.
  intros Hm Hi Hu Hc. destruct s as [m ths res k w], t as [n c [|r|r|r]]; simpl in *; [| | |done].
  - destruct (Hc w) as (r & w' & Hr). eexists. by eapply step_check.
  - eexists. by eapply step_store.
  - eexists. by eapply step_done.
Qed.

(** ** Theorems *)

Lemma sequential_run l w s :
  NoDup l.*1 → rtc step (init l w) s →
  ∃ order, order ≡ₚ l ∧
    match main s with
    | Returned => HL.run_all ctx order ∅ w = (Val (results s), world s)
    | Crashed msg => HL.run_all ctx order ∅ w = (Panic msg, world s)
    | _ => True
    end.
Proof.
  intros Hl Hr. pose proof (reachable_sound l w Hl s Hr) as Hs. unfold sound in Hs.
  destruct (main s) eqn:E; [by exists l..| |done]. by apply (returned_run l w).
Qed.

(** C24. The parallel mode ends: no interleaving has more than four steps for each checker and
    two of its own, and one that can go no further has returned, when every check comes back
    (none is stuck in [wg.Wait], and none panics). *)
Theorem parallel_ends l w :
  NoDup l.*1 → (∀ n c, (n, c) ∈ l → HL.returns ctx c) →
  (∀ k s, nsteps step k (init l w) s → (k ≤ 4 * length l + 2)%nat) ∧
  (∀ s, rtc step (init l w) s → (∀ s', ¬ step s s') → main s = Returned).
Proof.
  intros Hl Hc. assert (∀ s, rtc step (init l w) s → match main s with Crashed _ => False | _ => inv l w s end)
    as Hinv.
  { intros s Hr. pose proof (reachable_sound l w Hl s Hr) as Hs. unfold sound in Hs.
    destruct (main s); [done..|]. destruct Hs as (order & Hp & Ho).
    destruct (HL.run_all_returns ctx order ∅ w) as (res & w' & Ho'); [|congruence].
    intros n c Hin. apply (Hc n). by rewrite <- Hp. }
  split.
  - intros k s Hk. pose proof (nsteps_left _ _ _ Hk) as Hle. pose proof (rtc_nsteps_2 _ _ _ Hk) as Hr.
    specialize (Hinv s Hr). unfold left, init in Hle. simpl in Hle. destruct (main s); simpl in Hle; try lia; done.
  - intros s Hr Hend. specialize (Hinv s Hr).
    assert (∀ t, t ∈ threads s → HL.returns ctx (checker t)) as Hck.
    { intros t Ht. destruct (main s) eqn:E; try done; apply (Hc (name t));
        rewrite <- (inv_names _ _ _ Hinv), elem_of_app; left; apply list_elem_of_fmap; by exists t. }
    destruct (main s) as [[|[n c] rs]| | |] eqn:E; [| | |done|done].
    + destruct s; simplify_eq/=. destruct (Hend _ (step_loop_end _ _ _ _)).
    + destruct s; simplify_eq/=. destruct (Hend _ (step_go _ _ _ _ _ _ _)).
    + destruct (decide (wg s = 0)) as [Hz|Hz].
      * destruct s; simplify_eq/=. destruct (Hend _ (step_wait _ _ _)).
      * rewrite (inv_wg _ _ _ Hinv) in Hz.
        destruct (count_if_pos unfinished (threads s)) as (i & t & Hi & Hu); [lia|].
        destruct (goroutine_moves s i t) as [s' Hs']; [by rewrite E|done|done| |by destruct (Hend s')].
        apply Hck. by eapply list_elem_of_lookup_2.
Qed.
End Parallel.

(** C23. The parallel mode of [CheckAll] is what [HL.CheckAll] says it is: in any interleaving
    of its goroutines, when it returns, there is an order of the checkers in which the
    checks one after the other give the same map of results and end in the same world, and
    when a check panics, so they do in some order. *)
Theorem parallel_is_sequential {W} `{GoEnvSpec W} parent (a : HL.Aggregator W) l w s :
  let ctx := HL.ctx_WithTimeout parent (HL.Timeout (HL.config a)) in
  HL.Parallel (HL.config a) = true → HL.checkers a ≠ ∅ → l ≡ₚ map_to_list (HL.checkers a) →
  rtc (step ctx) (init l w) s →
  ∃ order, order ≡ₚ map_to_list (HL.checkers a) ∧
    ∀ iteration schedule, schedule (HL.checkers a) = order →
    match main s with
    | Returned => HL.CheckAll iteration schedule parent a w = (Val (results s), world s)
    | Crashed msg => HL.CheckAll iteration schedule parent a w = (Panic msg, world s)
    | _ => True
    end.
Proof.
  intros ctx Hpar Hne Hp Hr.
  assert (NoDup l.*1) as Hnd by (rewrite Hp; apply NoDup_fst_map_to_list).
  destruct (sequential_run ctx l w s Hnd Hr) as (order & Ho & Hs). exists order.
  split; [by rewrite Ho|]. intros iteration schedule Hsch. unfold HL.CheckAll.
  rewrite bool_decide_false, Hpar, Hsch by done. by destruct (main s).
Qed.

(** ** One check: the goroutine of [runCheck] *)

Section OneCheck.
Context {S : Type} (d : Duration) (parent_err : error → Prop).
Context (cname : string) (check : RC.act (World S) HL.Result) (w : World S).

Definition op_checker : HL.Checker (World S) := HL.MkChecker cname (RC.run check).

(** The goroutine: the check, its duration and timestamp. *)
Definition check_op (start : Time) : RC.act (World S) HL.Result :=
  RC.then_do check (λ r, RC.Do env_now (λ now, RC.Done (HL.stamped start now r))).

(** The world at the call, when the race that follows is answered [x]. *)
Definition check_before (x : race_result HL.Result) : World S :=
  MkWorld (w_clock w) (w_tick w) (w_ctx w) (w_wait w) (w_rand w)
    (match x with OpDone _ => None | CtxDone e => Some e end :: w_race w) (w_cell w).

(** The two goroutines, from the world after [start := time.Now()]. *)
Definition check_step := RC.step (W:=World S) (A:=HL.Result) (time_Add (w_clock w) d) parent_err.
Definition check_init := RC.init (check_op (w_clock w)) (w_clock w) (env_now w).2.

Lemma runCheck_before x :
  HL.runCheck (Some d) op_checker (check_before x) =
  match x with
  | OpDone _ => RC.run (check_op (w_clock w)) (env_now w).2
  | CtxDone _ =>
      (Val (HL.MkResult HL.StatusUnhealthy "check timed out" ∅
             (time_Since (w_clock w + w_tick w) (w_clock w)) (w_clock w) (Some HL.ErrCheckTimeout)),
       w_set_clock (w_clock w + w_tick w + w_tick w) w)
  end.
Proof.
  unfold HL.runCheck, check_before, check_op. destruct w as [t k cs ws r race c]. destruct x as [v|e]; [|done].
  rewrite RC.run_then_do. unfold mbind, go_bind. simpl. unfold mbind, go_bind, w_set_clock. simpl.
  by destruct (RC.run check _) as [[r0|msg|] w'].
Qed.

(** What the caller of [runCheck] gets, in any interleaving, is what [HL.runCheck] answers:
    the check's own result, or the one of a check that timed out. *)
Lemma check_race s x :
  rtc check_step check_init s → RC.caller s = Some x →
  ∃ r w', HL.runCheck (Some d) op_checker (check_before x) = (Val r, w') ∧
    match x with
    | OpDone r' => r' = r ∧ RC.world s = w'
    | CtxDone _ => HL.timed_out r
    end.
Proof.
  intros Hr Hx. destruct (RC.race_reachable_inv _ _ _ _ _ _ Hr) as [Hw _ _ _]. rewrite runCheck_before.
  unfold RC.worker_inv, RC.delivered in Hw. rewrite Hx in Hw. destruct x as [r'|e].
  - destruct (RC.worker s); [by destruct Hw as (_ & _ & ?)| |by destruct Hw].
    destruct Hw as (r & Hrun & <- & _). by exists r', (RC.world s).
  - by eexists _, _.
Qed.
End OneCheck.

(** ** Witnesses *)

Definition demo_ctx : option Duration := Some (10 * Second).
Definition demo_list : list (string * HL.Checker (World unit)) := [("api", HL.ok); ("db", HL.bad)].

(** The check of the second checker ends first. *)
Definition after (c : HL.Checker (World unit)) (w : World unit) : HL.Result * World unit :=
  match HL.runCheck demo_ctx c w with
  | (Val r, w') => (r, w')
  | (_, w') => (HL.MkResult 0 "" ∅ 0 0 None, w')
  end.
Definition demo_db : HL.Result * World unit := after HL.bad HL.demo_world.
Definition demo_api : HL.Result * World unit := after HL.ok demo_db.2.
Definition demo_end : sys (W:=World unit) :=
  MkSys Returned [MkG "api" HL.ok (Finished demo_api.1); MkG "db" HL.bad (Finished demo_db.1)]
    (<["api" := demo_api.1]> (<["db" := demo_db.1]> ∅)) 0 demo_api.2.

Lemma demo_interleaving : rtc (step demo_ctx) (init demo_list HL.demo_world) demo_end.
Proof.
  eapply rtc_l; [apply step_go|]. eapply rtc_l; [apply step_go|]. eapply rtc_l; [apply step_loop_end|].
  eapply rtc_l; [apply (step_check _ _ _ 1 "db" HL.bad demo_db.1 _ _ _ demo_db.2); [done..|vm_compute; reflexivity]|].
  eapply rtc_l; [apply (step_store _ _ _ 1 "db" HL.bad demo_db.1); done|].
  eapply rtc_l; [apply (step_check _ _ _ 0 "api" HL.ok demo_api.1 _ _ _ demo_api.2); [done..|vm_compute; reflexivity]|].
  eapply rtc_l; [apply (step_store _ _ _ 0 "api" HL.ok demo_api.1); done|].
  eapply rtc_l; [apply (step_done _ _ _ 0 "api" HL.ok demo_api.1); done|].
  eapply rtc_l; [apply (step_done _ _ _ 1 "db" HL.bad demo_db.1); done|].
  eapply rtc_l; [apply step_wait|]. apply rtc_refl.
Qed.

Lemma demo_list_bindings : demo_list ≡ₚ map_to_list (HL.checkers HL.demo).
Proof.
  change (HL.checkers HL.demo) with (<["db" := HL.bad]> (<["api" := HL.ok]> ∅) : gmap string (HL.Checker (World unit))).
  rewrite !map_to_list_insert, map_to_list_empty by (by vm_compute). apply Permutation_swap.
Qed.

Lemma demo_returns c : c = HL.ok ∨ c = HL.bad → HL.returns demo_ctx c.
Proof.
  intros Hc [t k cs ws r [|[e|] race] []]; destruct Hc as [->| ->];
    unfold HL.runCheck; rewrite go_bind_run; eexists _, _; reflexivity.
Qed.

Lemma parallel_is_sequential_witness :
  ∃ order, order ≡ₚ map_to_list (HL.checkers HL.demo) ∧
    ∀ schedule, schedule (HL.checkers HL.demo) = order →
    HL.CheckAll map_to_list schedule None HL.demo HL.demo_world = (Val (results demo_end), world demo_end).
Proof.
  destruct (parallel_is_sequential None HL.demo demo_list HL.demo_world demo_end)
    as (order & Hp & Ho); [done|by vm_compute| |exact demo_interleaving|].
  - exact demo_list_bindings.
  - exists order. split; [exact Hp|]. intros schedule. apply Ho.
Defined.

(** The interleaving above has ten steps, as many as there can be. *)
Lemma parallel_ends_witness :
  ∃ k, nsteps (step demo_ctx) k (init demo_list HL.demo_world) demo_end ∧ (k ≤ 10)%nat.
Proof.
  destruct (rtc_nsteps_1 _ _ demo_interleaving) as [k Hk]. exists k. split; [exact Hk|].
  eapply (parallel_ends demo_ctx demo_list HL.demo_world); [| |exact Hk].
  - apply (bool_decide_unpack _). by vm_compute.
  - intros n c Hin. apply demo_returns.
    repeat (apply elem_of_cons in Hin as [[= _ ->]|Hin]; [auto|]). by apply elem_of_nil in Hin.
Defined.

End HP.
