(* ===== verification/Secret.v ===== *)
(** * secret: environment expansion, secret references, the resolver and the registry

    The environment is a map.  The two regular expressions of the package and [os.Expand]
    are written as the scanners they denote ([env_vars], [find_inline]); [SecretEnv] and
    [SecretInline] show what they find, without them.  A resolver's providers are records of
    operations over a world; a nil resolver is [None]. *)

From Stdlib Require Import Ascii.
From S2P Require Import Prelude.
From S2P Require Import GoRuntime.
From S2P Require Import GoString.
Local Open Scope nat_scope.
Local Open Scope stdpp_scope.

Module SE.

(** ** os.Expand *)

Definition in_class (lo hi : nat) (c : ascii) : bool :=
  (lo <=? nat_of_ascii c) && (nat_of_ascii c <=? hi).
Definition is_digit (c : ascii) : bool := in_class 48 57 c.
Definition is_alpha (c : ascii) : bool := in_class 65 90 c || in_class 97 122 c || bool_decide (c = "_"%char).
Definition isAlphaNum (c : ascii) : bool := is_digit c || is_alpha c.
Definition isShellSpecialVar (c : ascii) : bool :=
  string_any (λ d, bool_decide (c = d)) "*#$@!?-" || is_digit c.

(** The longest prefix of bytes that satisfy [f], and the rest. *)
Fixpoint span (f : ascii → bool) (s : string) : string * string :=
  match s with
  | String c s' =>
      if f c then let '(a, b) := span f s' in (String c a, b) else ("", s)
  | EmptyString => ("", "")
  end.

(** What follows a dollar sign: the name, whether any byte was consumed, and the rest. *)
Definition getShellName (s : string) : string * bool * string :=
  match s with
  | String "{"%char r =>
      match r with
      | String c (String "}"%char r') =>
          if isShellSpecialVar c then (String c "", true, r')
          else if bool_decide (c = "}"%char) then ("", true, String "}"%char r') else (String c "", true, r')
      | _ =>
          match cut "}" r with
          | Some (name, r') => (name, true, r')
          | None => ("", true, r)
          end
      end
  | String c r =>
      if isShellSpecialVar c then (String c "", true, r)
      else let '(name, r') := span isAlphaNum s in (name, negb (bool_decide (name = "")), r')
  | EmptyString => ("", false, "")
  end.

(** Every turn consumes a byte. *)
Fixpoint expand_go (fuel : nat) (mapping : string → string) (s : string) : string :=
  match fuel, s with
  | S fuel, String c r =>
      if bool_decide (c = "$"%char) && negb (bool_decide (r = "")) then
        let '(name, eaten, r') := getShellName r in
        if bool_decide (name = "") then
          if eaten then expand_go fuel mapping r' else String c (expand_go fuel mapping r)
        else mapping name +:+ expand_go fuel mapping r'
      else String c (expand_go fuel mapping r)
  | _, _ => s
  end.

Definition os_Expand (s : string) (mapping : string → string) : string :=
  expand_go (String.length s) mapping s.

(** ** ExpandEnvStrict *)

(** A match of [envVarPattern] (a name in braces after a dollar sign) at the head: the name
    and the rest. *)
Definition match_env_var (s : string) : option (string * string) :=
  match strip "${" s with
  | Some (String c r) =>
      if is_alpha c then
        let '(name, r') := span isAlphaNum r in
        match r' with
        | String "}"%char r'' => Some (String c name, r'')
        | _ => None
        end
      else None
  | _ => None
  end.

(** The names of all matches, from the left, without overlap. *)
Fixpoint env_vars (fuel : nat) (s : string) : list string :=
  match fuel, s with
  | S fuel, String _ r =>
      match match_env_var s with
      | Some (name, r') => name :: env_vars fuel r'
      | None => env_vars fuel r
      end
  | _, _ => []
  end.

Definition dollarSentinel : string :=
  String (byte 0) ("TOOLOPS_SECRET_DOLLAR" +:+ String (byte 0) "").

Section Env.
Context (env : gmap string string).

Definition LookupEnv (key : string) : option string := env !! key.
Definition Getenv (key : string) : string := default "" (env !! key).

(** The names that are missing, as a set, then sorted. *)
Definition missing_vars (s : string) : list string :=
  sort_Strings (elements (list_to_set
    (filter (λ key, LookupEnv key = None) (env_vars (String.length s) s)) : gset string)).

Definition ExpandEnvStrict (s : string) : string + error :=
  let s := ReplaceAll s "$$" dollarSentinel in
  match missing_vars s with
  | [] => inl (ReplaceAll (os_Expand s Getenv) dollarSentinel "$")
  | keys => inr (Errorf "missing required environment variables: %s" [Join keys ", "])
  end.
End Env.

(** ** References *)

(** [Some (provider, ref)] for a full reference. *)
Definition ParseSecretRef (value : string) : option (string * string) :=
  if negb (HasPrefix value "secretref:") then None
  else
    match SplitN2 (TrimPrefix value "secretref:") ":" with
    | [p; r] => if bool_decide (p = "") || bool_decide (r = "") then None else Some (p, r)
    | _ => None
    end.

(** [\s] of the regular expression. *)
Definition is_s (c : ascii) : bool :=
  string_any (λ d, bool_decide (c = d)) (utf8 [9; 10; 12; 13; 32]).

(** A match of [inlineSecretRefPattern] at the head: provider, reference and rest. *)
Definition match_inline (s : string) : option (string * string * string) :=
  match strip "secretref:" s with
  | Some r =>
      let '(p, r1) := span (λ c, negb (is_s c) && negb (bool_decide (c = ":"%char))) r in
      match r1 with
      | String ":"%char r2 =>
          let '(ref, r3) := span (λ c, negb (is_s c)) r2 in
          if bool_decide (p = "") || bool_decide (ref = "") then None else Some (p, ref, r3)
      | _ => None
      end
  | None => None
  end.

(** The indexes of a match, as [FindAllStringSubmatchIndex] gives them: of the whole match, of
    the provider and of the reference. *)
Record submatch := MkMatch {
  m_start : nat; m_end : nat;
  p_start : nat; p_end : nat;
  r_start : nat; r_end : nat;
}.

(** All matches in what is left of the value from [pos] on, from the left, without overlap. *)
Fixpoint find_inline (fuel pos : nat) (s : string) : list submatch :=
  match fuel, s with
  | S fuel, String _ r =>
      match match_inline s with
      | Some (p, ref, r') =>
          let p0 := pos + 10 in
          let p1 := p0 + String.length p in
          let r0 := p1 + 1 in
          let r1 := r0 + String.length ref in
          MkMatch pos r1 p0 p1 r0 r1 :: find_inline fuel r1 r'
      | None => find_inline fuel (S pos) r
      end
  | _, _ => []
  end.

Definition FindAllStringSubmatchIndex (value : string) : list submatch :=
  find_inline (String.length value) 0 value.

(** ** The resolver *)

Record Provider (W : Type) := MkProvider {
  Name : string;
  Resolve : string → Go W (string + error);
}.
Arguments MkProvider {W} _ _.
Arguments Name {W} _.
Arguments Resolve {W} _ _.

Record Resolver (W : Type) := MkResolver {
  providers : gmap string (Provider W);
  strict : bool;
}.
Arguments MkResolver {W} _ _.
Arguments providers {W} _.
Arguments strict {W} _.

(** Nil providers are skipped. *)
Definition NewResolver {W} (strict : bool) (ps : list (option (Provider W))) : Resolver W :=
  MkResolver (foldl (λ m p, match p with Some p => <[Name p := p]> m | None => m end) ∅ ps) strict.

Definition Register {W} (p : option (Provider W)) (r : option (Resolver W)) : option (Resolver W) :=
  match r, p with
  | Some r, Some p => Some (MkResolver (<[Name p := p]> (providers r)) (strict r))
  | _, _ => r
  end.

Section Resolve.
Context {W : Type} (env : gmap string string) (r : Resolver W).

Definition resolveSingle (providerName ref : string) : Go W (string + error) :=
  if bool_decide (TrimSpace providerName = "") then
    mret (inr (Errorf "secret provider name is required" []))
  else if bool_decide (TrimSpace ref = "") then mret (inr (Errorf "secret ref is required" []))
  else
    match providers r !! providerName with
    | None => mret (inr (Errorf "secret provider %q is not registered" [providerName]))
    | Some p =>
        resolved ← Resolve p ref;
        mret match resolved with
             | inr err => inr err
             | inl v =>
                 if strict r && bool_decide (v = "")
                 then inr (Errorf "secret provider %q returned empty value" [providerName])
                 else inl v
             end
    end.

(** [s[lo:hi]] *)
Definition slice (s : string) (lo hi : nat) : Go W string :=
  if (lo <=? hi) && (hi <=? String.length s) then mret (string_take (hi - lo) (string_drop lo s))
  else go_panic "slice bounds out of range".

(** The loop over the matches, which are given from the last to the first, so that the indexes
    of those to come stay valid in [out]. *)
Fixpoint splice (matches : list submatch) (out : string) : Go W (string + error) :=
  match matches with
  | [] => mret (inl out)
  | m :: matches =>
      providerName ← slice out (p_start m) (p_end m);
      ref ← slice out (r_start m) (r_end m);
      resolved ← resolveSingle providerName ref;
      match resolved with
      | inr err => mret (inr err)
      | inl resolved =>
          before ← slice out 0 (m_start m);
          after ← slice out (m_end m) (String.length out);
          splice matches (before +:+ resolved +:+ after)
      end
  end.

Definition resolveInline (value : string) : Go W (string + error) :=
  match FindAllStringSubmatchIndex value with
  | [] => mret (inl value)
  | matches => splice (rev matches) value
  end.
End Resolve.

Section ResolveValue.
Context {W : Type} (env : gmap string string) (r : option (Resolver W)).

Definition ResolveValue (value : string) : Go W (string + error) :=
  match ExpandEnvStrict env value with
  | inr err => mret (inr err)
  | inl expanded =>
      match r with
      | None => mret (inl expanded)
      | Some r =>
          match ParseSecretRef expanded with
          | Some (p, ref) => resolveSingle r p ref
          | None => resolveInline r expanded
          end
      end
  end.

Fixpoint ResolveSlice (values : list string) : Go W (list string + error) :=
  match values with
  | [] => mret (inl [])
  | v :: values =>
      out ← ResolveValue v;
      match out with
      | inr err => mret (inr err)
      | inl out =>
          rest ← ResolveSlice values;
          mret match rest with inl rest => inl (out :: rest) | inr err => inr err end
      end
  end.

(** The bindings of the map in the order of its iteration. *)
Fixpoint resolve_bindings (l : list (string * string)) (out : gmap string string)
    : Go W (gmap string string + error) :=
  match l with
  | [] => mret (inl out)
  | (k, v) :: l =>
      resolved ← ResolveValue v;
      match resolved with
      | inr err => mret (inr (ErrorfW "resolve %q: %w" [k] err))
      | inl v => resolve_bindings l (<[k := v]> out)
      end
  end.

Definition ResolveMap (iteration : list (string * string)) : Go W (gmap string string + error) :=
  resolve_bindings iteration ∅.
End ResolveValue.

(** ** The registry *)

Section Registry.
Context {factory : Type}.

Definition Registry : Type := gmap string factory.

Definition reg_Register (name : string) (f : option factory) (r : Registry) : option error * Registry :=
  match f with
  | None => (Some (Errorf "invalid provider registration" []), r)
  | Some f =>
      if bool_decide (TrimSpace name = "") then (Some (Errorf "invalid provider registration" []), r)
      else
        let name := TrimSpace name in
        match r !! name with
        | Some _ => (Some (Errorf "secret provider %q already registered" [name]), r)
        | None => (None, <[name := f]> r)
        end
  end.

(** The factory that [Create] calls, or its error. *)
Definition reg_Create (name : string) (r : Registry) : factory + error :=
  let name := TrimSpace name in
  if bool_decide (name = "") then inr (Errorf "provider name is required" [])
  else
    match r !! name with
    | None => inr (Errorf "secret provider %q is not registered" [name])
    | Some f => inl f
    end.

Definition List (r : Registry) : list string := sort_Strings (map_to_list r).*1.
End Registry.
Arguments Registry : clear implicits.

(** ** Strings without a byte *)

Lemma without_app c s t : without c (s +:+ t) = without c s && without c t.
Proof.
  unfold without. induction s as [|d s IH]; [done|].
  change (String d s +:+ t) with (String d (s +:+ t)). simpl. by rewrite IH, andb_assoc.
Qed.

Lemma strip_without c sep s : without c s = true → strip (String c sep) s = None.
Proof.
  unfold without. destruct s as [|d s]; [done|]. simpl. intros [Hd _]%andb_true_iff. zbool.
  by rewrite bool_decide_false by congruence.
Qed.

(** Cutting at a separator whose first byte the text before it does not have. *)
Lemma cut_first c sep a b :
  without c a = true → cut (String c sep) (a +:+ String c sep +:+ b) = Some (a, b).
Proof.
  induction a as [|d a IH]; intros Ha.
  - change ("" +:+ String c sep +:+ b) with (String c sep +:+ b).
    assert (strip (String c sep) (String c sep +:+ b) = Some b) as Hs by apply strip_append.
    change (String c sep +:+ b) with (String c (sep +:+ b)) in *.
    simpl in *. by rewrite Hs.
  - unfold without in *. simpl in Ha. apply andb_true_iff in Ha as [Hd Ha]. zbool.
    change (String d a +:+ String c sep +:+ b) with (String d (a +:+ String c sep +:+ b)).
    simpl. rewrite IH by done. by rewrite bool_decide_false by congruence.
Qed.

Lemma cut_without c sep s : without c s = true → cut (String c sep) s = None.
Proof.
  induction s as [|d s IH]; intros Hs; [done|].
  unfold without in *. simpl in *. apply andb_true_iff in Hs as [Hd Hs]. zbool.
  rewrite IH by done. by rewrite bool_decide_false by congruence.
Qed.

(** Text that a separator put after it is the first one to cut. *)
Definition uncut (sep s : string) : Prop :=
  cut sep s = None ∧ ∀ b, cut sep (s +:+ sep +:+ b) = Some (s, b).

Lemma without_uncut c sep s : without c s = true → uncut (String c sep) s.
Proof. intros Hs. split; [by apply cut_without|]. intros b. by apply cut_first. Qed.

(** Splitting undoes joining. *)
Lemma split_go_Join sep l fuel :
  l ≠ [] → Forall (uncut sep) l → length l ≤ S fuel → split_go fuel sep (Join l sep) = l.
Proof.
  intros Hl Hw. revert fuel Hl. induction Hw as [|s l [Hn Hc] Hw IH]; intros fuel Hl Hf; [done|].
  destruct l as [|s' l].
  - simpl. destruct fuel; simpl; [done|]. by rewrite Hn.
  - rewrite Join_cons by done. simpl in Hf. destruct fuel as [|fuel]; [lia|].
    change (split_go (S fuel) sep (s +:+ sep +:+ Join (s' :: l) sep))
      with (match cut sep (s +:+ sep +:+ Join (s' :: l) sep) with
            | Some (a, b) => a :: split_go fuel sep b
            | None => [s +:+ sep +:+ Join (s' :: l) sep]
            end).
    rewrite Hc. f_equal. apply IH; [done | simpl; lia].
Qed.

Lemma length_Join sep l : sep ≠ "" → l ≠ [] → length l ≤ S (String.length (Join l sep)).
Proof.
  intros Hs Hl. induction l as [|s l IH]; [done|]. destruct l as [|s' l]; [simpl; lia|].
  rewrite Join_cons, !length_append by done. destruct sep; [done|].
  specialize (IH ltac:(done)). simpl in *. lia.
Qed.

Lemma ReplaceAll_uncut sep l new :
  sep ≠ "" → l ≠ [] → Forall (uncut sep) l → ReplaceAll (Join l sep) sep new = Join l new.
Proof.
  intros Hs Hl Hw. unfold ReplaceAll, Split. by rewrite split_go_Join by (auto using length_Join).
Qed.

Lemma ReplaceAll_Join c sep l new :
  l ≠ [] → Forall (λ s, without c s = true) l →
  ReplaceAll (Join l (String c sep)) (String c sep) new = Join l new.
Proof.
  intros Hl Hw. apply ReplaceAll_uncut; [done..|]. eapply Forall_impl; [exact Hw|].
  intros s. apply without_uncut.
Qed.

Lemma cut_byte_before c s a b : cut (String c "") s = Some (a, b) → without c a = true.
Proof.
  revert a. induction s as [|d s IH]; intros a H; simpl in H; [done|].
  case_bool_decide as E; simplify_eq; [done|].
  destruct (cut (String c "") s) as [[a' b']|]; [|done]. simplify_eq.
  unfold without in *. simpl. rewrite IH by done. by rewrite bool_decide_false by congruence.
Qed.

Lemma cut_byte_None c s : cut (String c "") s = None → without c s = true.
Proof.
  induction s as [|d s IH]; intros H; simpl in H; [done|].
  case_bool_decide as E; [done|]. destruct (cut (String c "") s) as [[a' b']|]; [done|].
  unfold without in *. simpl. rewrite IH by done. by rewrite bool_decide_false by congruence.
Qed.

Lemma split_go_without c fuel s :
  String.length s ≤ fuel → Forall (λ p, without c p = true) (split_go fuel (String c "") s).
Proof.
  revert s. induction fuel as [|fuel IH]; intros s Hf.
  - destruct s; simpl in *; [by repeat constructor | lia].
  - simpl. destruct (cut (String c "") s) as [[a b]|] eqn:E.
    + constructor; [by eapply cut_byte_before|]. apply IH. apply cut_spec in E. subst.
      rewrite !length_append in Hf. simpl in Hf. lia.
    + constructor; [by apply cut_byte_None | constructor].
Qed.

Lemma Join_without c l sep :
  Forall (λ s, without c s = true) l → without c sep = true → without c (Join l sep) = true.
Proof.
  intros Hl Hs. induction Hl as [|s l Hw Hl IH]; [done|]. destruct l as [|s' l]; [done|].
  rewrite Join_cons, !without_app by done. by rewrite Hw, Hs, IH.
Qed.

(** ** Expansion *)

Lemma expand_without fuel mapping s : without "$"%char s = true → expand_go fuel mapping s = s.
Proof.
  revert s. induction fuel as [|fuel IH]; intros [|c s] Hs; [done..|].
  unfold without in *. simpl in *. apply andb_true_iff in Hs as [Hc Hs]. zbool.
  rewrite bool_decide_false by done. simpl. by rewrite IH.
Qed.

Lemma env_vars_without fuel s : without "$"%char s = true → env_vars fuel s = [].
Proof.
  revert s. induction fuel as [|fuel IH]; intros [|c s] Hs; [done..|].
  pose proof Hs as Hs'. unfold without in Hs'. simpl in Hs'. apply andb_true_iff in Hs' as [Hc Hs'].
  simpl. unfold match_env_var. change "${" with (String "$"%char "{"). rewrite strip_without by done.
  by apply IH.
Qed.

(** The escape of dollar signs: a text whose dollars are doubled expands to itself, in
    any environment, whatever it holds, a zero byte apart. *)
Theorem dollar_escape env s :
  without (byte 0) s = true → ExpandEnvStrict env (ReplaceAll s "$" "$$") = inl s.
Proof.
  intros H0. unfold ReplaceAll at 1. set (l := Split s "$").
  assert (l ≠ []) as Hne by apply split_go_nonempty.
  assert (Forall (λ p, without "$"%char p = true) l) as Hw by (by apply split_go_without).
  assert (s = Join l "$") as Hs by (symmetry; apply Join_Split).
  assert (Forall (λ p, without (byte 0) p = true) l) as Hw0.
  { clearbody l. subst s. clear Hw. induction l as [|p l IH]; [constructor|].
    destruct l as [|p' l]; [by repeat constructor|].
    rewrite Join_cons, !without_app in H0 by done.
    apply andb_true_iff in H0 as [H1 H2]. apply andb_true_iff in H2 as [_ H2].
    constructor; [done|]. by apply IH. }
  unfold ExpandEnvStrict.
  change "$$" with (String "$"%char "$") at 2. rewrite (ReplaceAll_Join "$"%char "$") by done.
  assert (without "$"%char (Join l dollarSentinel) = true) as Hj by (by apply Join_without).
  unfold missing_vars. rewrite env_vars_without by done. simpl.
  unfold os_Expand. rewrite expand_without by done. unfold dollarSentinel.
  rewrite (ReplaceAll_Join (byte 0)) by done. by rewrite <- Hs.
Qed.

(** The byte where [span] stops does not satisfy its class. *)
Definition stops (f : ascii → bool) (s : string) : Prop :=
  match s with String c _ => f c = false | EmptyString => True end.

Lemma span_spec f s a b : span f s = (a, b) → s = a +:+ b ∧ string_all f a = true ∧ stops f b.
Proof.
  revert a b. induction s as [|c s IH]; intros a b H; simpl in H; [by simplify_eq|].
  destruct (f c) eqn:E; [|by simplify_eq].
  destruct (span f s) as [a' b']. simplify_eq. destruct (IH a' b eq_refl) as (-> & ? & ?).
  split; [done|]. simpl. by rewrite E.
Qed.

Lemma span_app f a b : string_all f a = true → stops f b → span f (a +:+ b) = (a, b).
Proof.
  intros Ha Hb. induction a as [|c a IH].
  - change ("" +:+ b) with b. destruct b as [|d b]; [done|]. simpl in *. by rewrite Hb.
  - simpl in Ha. apply andb_true_iff in Ha as [Hc Ha].
    change (String c a +:+ b) with (String c (a +:+ b)). simpl. by rewrite Hc, IH.
Qed.

(** ** References *)

(** A full reference is [secretref:<provider>:<ref>] with a provider without a colon and
    neither part empty; the reference itself may have colons. *)
Theorem ParseSecretRef_spec value p r :
  ParseSecretRef value = Some (p, r) ↔
  value = "secretref:" +:+ p +:+ ":" +:+ r ∧ p ≠ "" ∧ r ≠ "" ∧ without ":"%char p = true.
Proof.
  unfold ParseSecretRef, HasPrefix, TrimPrefix, SplitN2.
  destruct (strip "secretref:" value) as [rest|] eqn:E.
  - rewrite bool_decide_true by (by eexists). simpl. apply strip_spec in E. subst value.
    destruct (cut ":" rest) as [[a b]|] eqn:Ec.
    + pose proof (cut_byte_before ":"%char rest a b Ec) as Hw. apply cut_spec in Ec. subst rest.
      split.
      * destruct (bool_decide (a = "")) eqn:Ea, (bool_decide (b = "")) eqn:Eb; simpl; intros; simplify_eq.
        zbool. done.
      * intros (Hv & Hp & Hr & Hwp). apply (inj (String.app "secretref:")) in Hv.
        pose proof (cut_first ":"%char "" a b Hw) as H1.
        pose proof (cut_first ":"%char "" p r Hwp) as H2.
        change (String ":" "") with ":" in *. rewrite Hv, H2 in H1. simplify_eq.
        by rewrite !bool_decide_false.
    + split; [done|]. intros (Hv & _ & _ & Hwp). apply (inj (String.app "secretref:")) in Hv. subst.
      pose proof (cut_first ":"%char "" p r Hwp) as H2. change (String ":" "") with ":" in *. congruence.
  - rewrite bool_decide_false by (by intros [? ?]). simpl. split; [done|].
    intros (-> & _). by rewrite strip_append in E.
Qed.


(** ** The registry *)

(** A registration takes effect exactly when the name is not blank and not taken, and
    then [Create] finds its factory under any spelling of the name that trims to it; a
    refused one changes nothing. [List] has every registered name once, sorted. *)
Theorem registry_first_registration_wins {F} name (f : F) (r : Registry F) :
  let '(err, r') := reg_Register name (Some f) r in
  (err = None ↔ TrimSpace name ≠ "" ∧ r !! TrimSpace name = None) ∧
  (err = None → ∀ name', TrimSpace name' = TrimSpace name → reg_Create name' r' = inl f) ∧
  (err ≠ None → r' = r) ∧
  (∀ n, n ∈ List r' ↔ is_Some (r' !! n)) ∧ NoDup (List r') ∧ StronglySorted String.le (List r').
Proof.
  unfold Registry in *. assert (∀ m : gmap string F, (∀ n, n ∈ List m ↔ is_Some (m !! n)) ∧ NoDup (List m) ∧
    StronglySorted String.le (List m)) as Hl.
  { intros m. unfold List, Registry. split_and!; [| |apply sort_Strings_sorted].
    - intros n. rewrite (sort_Strings_perm _), list_elem_of_fmap. split.
      + intros ([n' x] & -> & Hin). apply (elem_of_map_to_list (M:=gmap string)) in Hin. by eexists.
      + intros [x Hx]. exists (n, x). split; [done|]. by apply (elem_of_map_to_list (M:=gmap string)).
    - rewrite (sort_Strings_perm _). apply NoDup_fst_map_to_list. }
  unfold reg_Register, Registry. case_bool_decide as E.
  { split; [split; [done|by intros [? _]]|]. split; [done|]. split; [done|]. apply Hl. }
  destruct (r !! TrimSpace name) as [g|] eqn:Er.
  { split; [split; [done|by intros [_ ?]]|]. split; [done|]. split; [done|]. apply Hl. }
  split; [by repeat split|]. split; [|split; [done|apply Hl]].
  intros _ name' Hn. unfold reg_Create, Registry. rewrite Hn, bool_decide_false by done.
  by rewrite lookup_insert_eq.
Qed.

End SE.
