(* ===== verification/SecretEnv.v ===== *)
(** * secret/expandenv.go: what the expansion of a text is

    The matches of [envVarPattern] and the texts that [ExpandEnvStrict] is meant for are said
    without its scanners ([braced], [template]); [ExpandEnvStrict_strict] has its result on
    each. *)

From Stdlib Require Import Ascii.
From S2P Require Import Prelude.
From S2P Require Import GoRuntime.
From S2P Require Import GoString.
From S2P Require Import Secret.
Local Open Scope nat_scope.
Local Open Scope stdpp_scope.

Module SV.
Import SE.

(** ** Braced variables

    The matches of [envVarPattern], said without the scanner: a name in braces after a dollar
    sign, anywhere in the text. *)

Definition identifier (v : string) : Prop :=
  match v with String c r => is_alpha c = true ∧ string_all isAlphaNum r = true | EmptyString => False end.

Definition braced (v s : string) : Prop := identifier v ∧ ∃ a b, s = a +:+ "${" +:+ v +:+ "}" +:+ b.

Lemma match_env_var_spec s v r :
  match_env_var s = Some (v, r) ↔ identifier v ∧ s = "${" +:+ v +:+ "}" +:+ r.
Proof.
  unfold match_env_var. split.
  - destruct (strip "${" s) as [[|c t]|] eqn:E; [done| |done]. apply strip_spec in E. subst s.
    destruct (is_alpha c) eqn:Ec; [|done].
    destruct (span isAlphaNum t) as [name r'] eqn:Es. apply span_spec in Es as (-> & Hn & _).
    destruct r' as [|d r']; [done|]. intros HE.
    assert (d = "}"%char ∧ String c name = v ∧ r' = r) as (-> & <- & ->).
    { destruct (bool_decide_reflect (d = "}"%char)) as [->|Hd]; [by simplify_eq|].
      exfalso. destruct d as [[] [] [] [] [] [] [] []]; done. }
    done.
  - intros [Hv ->]. destruct v as [|c v]; [done|]. destruct Hv as [Hc Hv].
    rewrite strip_append. change (String c v +:+ "}" +:+ r) with (String c (v +:+ String "}" r)).
    cbv beta iota. by rewrite Hc, span_app.
Qed.

(** A dollar sign of [a +:+ s] is one of [s] when [a] has none. *)
Lemma skip_dollar a x y s :
  without "$"%char a = true → a +:+ s = x +:+ String "$" y → ∃ x', x = a +:+ x' ∧ s = x' +:+ String "$" y.
Proof.
  revert x. induction a as [|c a IH]; intros x Ha HE; [by exists x|].
  unfold without in *. simpl in Ha. apply andb_true_iff in Ha as [Hc Ha]. zbool.
  change (String c a +:+ s) with (String c (a +:+ s)) in HE. destruct x as [|d x].
  - change ("" +:+ String "$" y) with (String "$" y) in HE. congruence.
  - change (String d x +:+ String "$" y) with (String d (x +:+ String "$" y)) in HE.
    injection HE as <- HE. destruct (IH x Ha HE) as (x' & -> & ->). by exists x'.
Qed.

Lemma braced_skip v a s : without "$"%char a = true → braced v (a +:+ s) ↔ braced v s.
Proof.
  intros Ha. unfold braced. split; intros [Hv (x & b & HE)]; (split; [done|]).
  - destruct (skip_dollar a x (String "{" (v +:+ "}" +:+ b)) s Ha HE) as (x' & _ & ->). by exists x', b.
  - subst s. exists (a +:+ x), b. by rewrite append_assoc.
Qed.

(** A dollar sign that no name in braces follows. *)
Lemma braced_dollar v s : match_env_var (String "$" s) = None → braced v (String "$" s) ↔ braced v s.
Proof.
  intros Hm. split; intros [Hv (x & b & HE)]; (split; [done|]).
  - destruct x as [|c x]; [|injection HE as _ HE; by exists x, b].
    exfalso. assert (match_env_var (String "$" s) = Some (v, b)) as Hs by (by apply match_env_var_spec). congruence.
  - subst s. by exists (String "$" x), b.
Qed.

Lemma alnum_not_dollar v : string_all isAlphaNum v = true → without "$"%char v = true.
Proof.
  unfold without. induction v as [|c v IH]; [done|]. simpl. intros [Hc Hv]%andb_true_iff.
  rewrite IH by done. rewrite bool_decide_false; [done|]. by intros ->.
Qed.

Lemma alpha_alnum c : is_alpha c = true → isAlphaNum c = true.
Proof. unfold isAlphaNum. intros ->. apply orb_true_r. Qed.

Lemma identifier_alnum v : identifier v → string_all isAlphaNum v = true.
Proof. destruct v as [|c v]; [done|]. intros [Hc Hv]. cbn [string_all]. rewrite alpha_alnum by done. exact Hv. Qed.

Lemma braced_match v w s : identifier w → braced v ("${" +:+ w +:+ "}" +:+ s) ↔ v = w ∨ braced v s.
Proof.
  intros Hw.
  assert (without "$"%char ("{" +:+ w +:+ "}") = true) as Hn.
  { rewrite !without_app, (alnum_not_dollar w) by (by apply identifier_alnum). done. }
  assert ("${" +:+ w +:+ "}" +:+ s = String "$" (("{" +:+ w +:+ "}") +:+ s)) as ->
    by (by rewrite !append_assoc).
  split.
  - intros [Hv ([|c x] & b & HE)].
    + left. assert (match_env_var (String "$" (("{" +:+ w +:+ "}") +:+ s)) = Some (v, b)) as H1
        by (by apply match_env_var_spec).
      assert (match_env_var (String "$" (("{" +:+ w +:+ "}") +:+ s)) = Some (w, s)) as H2
        by (apply match_env_var_spec; split; [done|]; by rewrite !append_assoc).
      congruence.
    + injection HE as _ HE. right. apply (braced_skip v ("{" +:+ w +:+ "}")); [done|]. split; [done|]. by exists x, b.
  - intros [->|Hb].
    + split; [done|]. exists "", s. by rewrite !append_assoc.
    + apply (braced_skip v ("{" +:+ w +:+ "}")) in Hb as [Hv (x & b & HE)]; [|done].
      split; [done|]. exists (String "$" x), b. by rewrite HE.
Qed.

(** The scanner finds every one of them, and nothing else. *)
Lemma env_vars_spec fuel s v : String.length s ≤ fuel → v ∈ env_vars fuel s ↔ braced v s.
Proof.
  revert s. induction fuel as [|fuel IH]; intros [|c r] Hf; simpl in Hf; try lia;
    try (split; [by intros ?%elem_of_nil|]; intros [_ (x & b & HE)]; by destruct x).
  cbn [env_vars]. destruct (match_env_var (String c r)) as [[w r']|] eqn:Em.
  - apply match_env_var_spec in Em as [Hw Hs]. rewrite elem_of_cons, Hs, braced_match by done.
    rewrite IH; [done|]. apply (f_equal String.length) in Hs. rewrite !length_append in Hs. simpl in Hs. lia.
  - rewrite IH by lia. symmetry. destruct (decide (c = "$"%char)) as [->|Hc]; [by apply braced_dollar|].
    apply (braced_skip v (String c "")). unfold without. simpl. by rewrite bool_decide_false.
Qed.

(** ** Templates: what an expansion is *)

Inductive token := Lit (c : ascii) | Dollar | Bare (name : string) | Braced (name : string).

(** The text of a list of tokens, with a text for each of them and one for the escape. *)
Fixpoint render (f : token → string) (dollar : string) (t : list token) : string :=
  match t with
  | [] => ""
  | Dollar :: t => dollar +:+ render f dollar t
  | x :: t => f x +:+ render f dollar t
  end.

Definition spelling (x : token) : string :=
  match x with
  | Lit c => String c ""
  | Dollar => "$$"
  | Bare name => "$" +:+ name
  | Braced name => "${" +:+ name +:+ "}"
  end.

(** How a template is written: [$$], [$NAME] and [${NAME}] among other bytes. *)
Definition print (t : list token) : string := render spelling "$$" t.

(** The byte after [$NAME] cannot be one of the name. *)
Definition name_ends (t : list token) : Prop := match t with Lit c :: _ => isAlphaNum c = false | _ => True end.

Fixpoint template (t : list token) : Prop :=
  match t with
  | [] => True
  | Lit c :: t => c ≠ "$"%char ∧ c ≠ byte 0 ∧ template t
  | Dollar :: t => template t
  | Bare name :: t => identifier name ∧ name_ends t ∧ template t
  | Braced name :: t => identifier name ∧ template t
  end.

(** What a token stands for in an environment: an unset variable is empty. *)
Definition meaning (env : gmap string string) (x : token) : string :=
  match x with
  | Lit c => String c ""
  | Dollar => "$"
  | Bare name | Braced name => Getenv env name
  end.

Definition expansion (env : gmap string string) (t : list token) : string := render (meaning env) "$" t.

(** The parts between the escapes. *)
Fixpoint segments (f : token → string) (t : list token) : list string :=
  match t with
  | [] => [""]
  | Dollar :: t => "" :: segments f t
  | x :: t => match segments f t with s :: l => (f x +:+ s) :: l | [] => [f x] end
  end.

Lemma segments_nonempty f t : segments f t ≠ [].
Proof. destruct t as [|[]]; simpl; [done| |done| |]; by destruct (segments f t). Qed.

Lemma Join_head s1 s2 l sep : Join ((s1 +:+ s2) :: l) sep = s1 +:+ Join (s2 :: l) sep.
Proof. destruct l; [done|]. by rewrite !Join_cons, append_assoc by done. Qed.

Lemma Join_segments f d t : Join (segments f t) d = render f d t.
Proof.
  induction t as [|x t IH]; [done|]. pose proof (segments_nonempty f t) as Hne.
  destruct x; cbn [segments render]; [|by rewrite Join_cons, IH|..];
    destruct (segments f t) as [|s l]; try done; by rewrite Join_head, IH.
Qed.

(** *** The escape *)

(** No two dollar signs in a row, and none at the end. *)
Fixpoint single_dollars (s : string) : bool :=
  match s with
  | String c r =>
      (negb (bool_decide (c = "$"%char)) ||
       match r with String d _ => negb (bool_decide (d = "$"%char)) | EmptyString => false end)
      && single_dollars r
  | EmptyString => true
  end.

Lemma strip_dollars c s b : single_dollars (String c s) = true → strip "$$" (String c s +:+ b) = None.
Proof.
  cbn [single_dollars]. intros [Hc _]%andb_true_iff. change (String c s +:+ b) with (String c (s +:+ b)).
  cbn [strip]. destruct (decide (c = "$"%char)) as [->|E]; [simpl in Hc|by rewrite bool_decide_false].
  rewrite bool_decide_true by done.
  destruct s as [|d s]; [done|]. change (String d s +:+ b) with (String d (s +:+ b)).
  cbn [strip]. zbool. by rewrite bool_decide_false by congruence.
Qed.

Lemma cut_step sep c s : strip sep (String c s) = None →
  cut sep (String c s) = match cut sep s with Some (a, b) => Some (String c a, b) | None => None end.
Proof. intros Hs. cbn [cut]. by rewrite Hs. Qed.

Lemma single_dollars_uncut s : single_dollars s = true → uncut "$$" s.
Proof.
  induction s as [|c s IH]; intros Hs; [by split|].
  assert (single_dollars s = true) as Hs' by (cbn [single_dollars] in Hs; by apply andb_true_iff in Hs as [_ ?]).
  destruct (IH Hs') as [Hn Hc]. split.
  - rewrite cut_step; [by rewrite Hn|]. rewrite <- (append_nil_r (String c s)). by apply strip_dollars.
  - intros b. change (String c s +:+ "$$" +:+ b) with (String c (s +:+ "$$" +:+ b)).
    rewrite cut_step; [by rewrite Hc | by apply (strip_dollars c s ("$$" +:+ b))].
Qed.

Lemma single_dollars_app a s : without "$"%char a = true → single_dollars (a +:+ s) = single_dollars s.
Proof.
  induction a as [|c a IH]; intros Ha; [done|]. unfold without in *. simpl in Ha.
  apply andb_true_iff in Ha as [Hc Ha]. change (String c a +:+ s) with (String c (a +:+ s)).
  cbn [single_dollars]. by rewrite Hc, IH.
Qed.

(** An identifier has no dollar sign, and neither has a name in braces after its own. *)
Lemma identifier_dollar v : identifier v → without "$"%char v = true.
Proof. intros Hv. by apply alnum_not_dollar, identifier_alnum. Qed.

Lemma single_dollars_name v s : without "$"%char v = true → v ≠ "" →
  single_dollars (String "$" (v +:+ s)) = single_dollars s.
Proof.
  intros Hv Hne. rewrite <- (single_dollars_app v s Hv). destruct v as [|c v]; [done|].
  change (String c v +:+ s) with (String c (v +:+ s)). cbn [single_dollars].
  unfold without in Hv. simpl in Hv. apply andb_true_iff in Hv as [Hc _]. by rewrite Hc.
Qed.

Lemma identifier_nonempty v : identifier v → v ≠ "".
Proof. by intros Hv ->. Qed.

Lemma braces_dollar name : identifier name → without "$"%char ("{" +:+ name +:+ "}") = true.
Proof. intros Hn. rewrite !without_app, (identifier_dollar name) by done. done. Qed.

Lemma segments_spelled t : template t → Forall (λ s, single_dollars s = true) (segments spelling t).
Proof.
  induction t as [|x t IH]; [by repeat constructor|]. pose proof (segments_nonempty spelling t) as Hne.
  destruct x as [c| |name|name]; cbn [template segments spelling].
  - intros (Hc & _ & Ht). destruct (segments spelling t) as [|s l]; [done|].
    apply Forall_cons in IH as [Hs Hl]; [|done]. constructor; [|done].
    rewrite single_dollars_app; [done|]. unfold without. simpl. by rewrite bool_decide_false.
  - intros Ht. constructor; [done|]. by apply IH.
  - intros (Hn & _ & Ht). destruct (segments spelling t) as [|s l]; [done|].
    apply Forall_cons in IH as [Hs Hl]; [|done]. constructor; [|done].
    change (("$" +:+ name) +:+ s) with (String "$" (name +:+ s)).
    by rewrite single_dollars_name by (by apply identifier_dollar || by apply identifier_nonempty).
  - intros (Hn & Ht). destruct (segments spelling t) as [|s l]; [done|].
    apply Forall_cons in IH as [Hs Hl]; [|done]. constructor; [|done].
    change (("${" +:+ name +:+ "}") +:+ s) with (String "$" (("{" +:+ name +:+ "}") +:+ s)).
    by rewrite single_dollars_name by (by apply braces_dollar || done).
Qed.

(** The escapes of a template, and nothing else, become the sentinel. *)
Lemma escape_template t d : template t → ReplaceAll (print t) "$$" d = render spelling d t.
Proof.
  intros Ht. unfold print. rewrite <- !Join_segments.
  apply ReplaceAll_uncut; [done | apply segments_nonempty|].
  eapply Forall_impl; [by apply segments_spelled|]. intros s. apply single_dollars_uncut.
Qed.

(** *** The variables of a template *)

Lemma bare_unmatched name s : identifier name → match_env_var (String "$" (name +:+ s)) = None.
Proof.
  intros Hn. destruct (match_env_var _) as [[w r]|] eqn:E; [|done]. apply match_env_var_spec in E as [_ E].
  destruct name as [|c name]; [done|]. destruct Hn as [Hc _]. by injection E as -> _.
Qed.

Lemma braced_template d t v :
  without "$"%char d = true → template t → braced v (render spelling d t) ↔ Braced v ∈ t.
Proof.
  intros Hd. induction t as [|x t IH]; intros Ht.
  { split; [|by intros ?%elem_of_nil]. intros [_ (a & b & HE)]. by destruct a. }
  rewrite elem_of_cons. destruct x as [c| |name|name]; cbn [template render spelling] in *.
  - destruct Ht as (Hc & _ & Ht). rewrite (braced_skip v (String c "")), IH by
      (try done; unfold without; simpl; by rewrite bool_decide_false).
    split; [by right|]. by intros [?|?].
  - rewrite braced_skip, IH by done. split; [by right|]. by intros [?|?].
  - destruct Ht as (Hn & _ & Ht).
    change (("$" +:+ name) +:+ render spelling d t) with (String "$" (name +:+ render spelling d t)).
    rewrite braced_dollar, braced_skip, IH by (by apply bare_unmatched || by apply identifier_dollar || done).
    split; [by right|]. by intros [?|?].
  - destruct Ht as (Hn & Ht). rewrite !append_assoc, braced_match, IH by done.
    split; (intros [HE|?]; [left|by right]); congruence.
Qed.

(** *** The expansion of a template *)

Lemma expand_skip a s fuel mapping :
  without "$"%char a = true → String.length (a +:+ s) ≤ fuel →
  ∃ fuel', String.length s ≤ fuel' ∧ expand_go fuel mapping (a +:+ s) = a +:+ expand_go fuel' mapping s.
Proof.
  revert fuel. induction a as [|c a IH]; intros fuel Ha Hf; [by exists fuel|].
  unfold without in *. simpl in Ha. apply andb_true_iff in Ha as [Hc Ha]. zbool.
  change (String c a +:+ s) with (String c (a +:+ s)) in *. simpl in Hf.
  destruct fuel as [|fuel]; [lia|]. destruct (IH fuel Ha ltac:(lia)) as (fuel' & Hf' & HE).
  exists fuel'. split; [done|]. cbn [expand_go]. rewrite bool_decide_false by done. simpl.
  change (String c a +:+ expand_go fuel' mapping s) with (String c (a +:+ expand_go fuel' mapping s)).
  by rewrite HE.
Qed.

Lemma alpha_not_special c : is_alpha c = true → isShellSpecialVar c = false ∧ c ≠ "{"%char ∧ c ≠ "}"%char.
Proof. destruct c as [[] [] [] [] [] [] [] []]; vm_compute; repeat split; done. Qed.

Lemma shell_name_bare name s :
  identifier name → stops isAlphaNum s → getShellName (name +:+ s) = (name, true, s).
Proof.
  intros Hn Hs. pose proof (identifier_alnum _ Hn) as Hall. destruct name as [|c name]; [done|].
  destruct (alpha_not_special c (proj1 Hn)) as (Hsp & Hb & _).
  assert (getShellName (String c name +:+ s) =
    (let '(n, r') := span isAlphaNum (String c name +:+ s) in (n, negb (bool_decide (n = "")), r'))) as ->.
  { change (String c name +:+ s) with (String c (name +:+ s)). unfold getShellName. rewrite Hsp.
    destruct c as [[] [] [] [] [] [] [] []]; done. }
  by rewrite span_app.
Qed.

Lemma shell_name_braced name s :
  identifier name → getShellName (("{" +:+ name +:+ "}") +:+ s) = (name, true, s).
Proof.
  intros Hn. pose proof (identifier_alnum _ Hn) as Hall. rewrite !append_assoc.
  change ("{" +:+ name +:+ "}" +:+ s) with (String "{" (name +:+ String "}" s)).
  assert (without "}"%char name = true) as Hw.
  { clear Hn. unfold without. induction name as [|c n IH]; [done|]. cbn [string_all] in *.
    apply andb_true_iff in Hall as [Hc Hall]. rewrite IH, bool_decide_false by (by intros -> || done). done. }
  pose proof (cut_first "}"%char "" name s Hw) as Hcut. change (String "}" "" +:+ s) with (String "}" s) in Hcut.
  destruct name as [|c name]; [done|]. destruct (alpha_not_special c (proj1 Hn)) as (Hsp & _ & Hb).
  change (String c name +:+ String "}" s) with (String c (name +:+ String "}" s)) in *.
  unfold getShellName. destruct name as [|d name].
  - change ("" +:+ String "}" s) with (String "}" s). rewrite bool_decide_false by done. by destruct (isShellSpecialVar c).
  - change (String d name +:+ String "}" s) with (String d (name +:+ String "}" s)) in *.
    change (String "}" "") with "}" in Hcut. rewrite Hcut.
    cbn [string_all] in Hall. apply andb_true_iff in Hall as [_ Hall]. apply andb_true_iff in Hall as [Hd _].
    destruct d as [[] [] [] [] [] [] [] []]; try reflexivity; done.
Qed.

Lemma expand_dollar fuel mapping r name r' :
  getShellName r = (name, true, r') → name ≠ "" →
  expand_go (S fuel) mapping (String "$" r) = mapping name +:+ expand_go fuel mapping r'.
Proof.
  intros Hr Hn. cbn [expand_go]. rewrite (bool_decide_true ("$"%char = "$"%char)) by done.
  rewrite (bool_decide_false (r = "")) by (intros ->; by injection Hr as <- _). simpl.
  by rewrite Hr, bool_decide_false.
Qed.

Lemma name_ends_stops d t :
  d ≠ "" → stops isAlphaNum d → name_ends t → stops isAlphaNum (render spelling d t).
Proof. intros Hd Hs Ht. destruct t as [|[c| |n|n] t]; [done|done| |done..]. by destruct d. Qed.

Lemma expand_template fuel env d t :
  without "$"%char d = true → d ≠ "" → stops isAlphaNum d → template t →
  String.length (render spelling d t) ≤ fuel →
  expand_go fuel (Getenv env) (render spelling d t) = render (meaning env) d t.
Proof.
  intros Hd Hne Hs. revert fuel. induction t as [|x t IH]; intros fuel Ht Hf; [by destruct fuel|].
  destruct x as [c| |name|name]; cbn [template render spelling meaning] in *.
  - destruct Ht as (Hc & _ & Ht).
    destruct (expand_skip (String c "") (render spelling d t) fuel (Getenv env)) as (fuel' & Hf' & ->);
      [unfold without; simpl; by rewrite bool_decide_false | done|]. by rewrite IH.
  - destruct (expand_skip d (render spelling d t) fuel (Getenv env)) as (fuel' & Hf' & ->); [done..|]. by rewrite IH.
  - destruct Ht as (Hn & He & Ht). rewrite append_assoc in *.
    change ("$" +:+ name +:+ render spelling d t) with (String "$" (name +:+ render spelling d t)) in *.
    destruct fuel as [|fuel]; simpl in Hf; [lia|]. rewrite length_append in Hf.
    rewrite (expand_dollar _ _ _ name (render spelling d t)); [by rewrite IH by (done || lia)| |by apply identifier_nonempty].
    apply shell_name_bare; [done|]. by apply name_ends_stops.
  - destruct Ht as (Hn & Ht).
    change (("${" +:+ name +:+ "}") +:+ render spelling d t) with (String "$" (("{" +:+ name +:+ "}") +:+ render spelling d t)) in *.
    destruct fuel as [|fuel]; simpl in Hf; [lia|]. rewrite length_append in Hf.
    rewrite (expand_dollar _ _ _ name (render spelling d t)); [by rewrite IH by (done || lia)| |by apply identifier_nonempty].
    by apply shell_name_braced.
Qed.

(** No value holds a zero byte, as in an environment that an operating system gives. *)
Definition no_zero (env : gmap string string) : Prop := map_Forall (λ _ v, without (byte 0) v = true) env.

Lemma segments_meant env t :
  no_zero env → template t → Forall (λ s, without (byte 0) s = true) (segments (meaning env) t).
Proof.
  intros Henv. pose proof (segments_nonempty (meaning env)) as Hne.
  assert (∀ name, without (byte 0) (Getenv env name) = true) as Hget.
  { intros name. unfold Getenv. destruct (env !! name) as [v|] eqn:E; [by apply (Henv name)|done]. }
  assert (∀ s t, without (byte 0) s = true →
    Forall (λ s, without (byte 0) s = true) (segments (meaning env) t) →
    Forall (λ s, without (byte 0) s = true) (match segments (meaning env) t with s' :: l => (s +:+ s') :: l | [] => [s] end))
    as Hcons.
  { intros s t' Hs Hl. destruct (segments (meaning env) t') as [|s' l]; [by repeat constructor|].
    apply Forall_cons in Hl as [Hs' Hl]. constructor; [by rewrite without_app, Hs, Hs'|done]. }
  induction t as [|x t IH]; [by repeat constructor|].
  destruct x as [c| |name|name]; cbn [template segments meaning].
  - intros (_ & Hc & Ht). apply Hcons; [unfold without; simpl; by rewrite bool_decide_false | by apply IH].
  - intros Ht. constructor; [done | by apply IH].
  - intros (_ & _ & Ht). apply Hcons; [done | by apply IH].
  - intros (_ & Ht). apply Hcons; [done | by apply IH].
Qed.

(** The sentinels of an expanded template become dollar signs. *)
Lemma unescape_template env t :
  no_zero env → template t →
  ReplaceAll (render (meaning env) dollarSentinel t) dollarSentinel "$" = expansion env t.
Proof.
  intros Henv Ht. unfold expansion. rewrite <- !Join_segments. unfold dollarSentinel.
  apply ReplaceAll_Join; [apply segments_nonempty | by apply segments_meant].
Qed.

Lemma missing_vars_spec env s :
  NoDup (missing_vars env s) ∧ StronglySorted String.le (missing_vars env s) ∧
  ∀ v, v ∈ missing_vars env s ↔ braced v s ∧ env !! v = None.
Proof.
  unfold missing_vars. split_and!.
  - rewrite (sort_Strings_perm _). apply NoDup_elements.
  - apply sort_Strings_sorted.
  - intros v. rewrite (sort_Strings_perm _), elem_of_elements, elem_of_list_to_set, list_elem_of_filter.
    rewrite env_vars_spec by done. unfold LookupEnv. tauto.
Qed.

(** C40. [ExpandEnvStrict] fails exactly when a variable in braces is missing from the
    environment, and the error names all those that are missing, once each and sorted.  A
    variable in braces is a name between [${] and a closing brace anywhere in the text, the
    escapes [$$] taken out first.  For a text made of other bytes, the escape, [$NAME] and
    [${NAME}], the variables in braces are those written so, and the result is the text with the
    escapes turned into dollar signs and the variables into their values (nothing for a
    [$NAME] that is not set); values are not expanded again. *)
Theorem ExpandEnvStrict_strict env s :
  let text := ReplaceAll s "$$" dollarSentinel in
  match ExpandEnvStrict env s with
  | inl out =>
      (∀ v, braced v text → is_Some (env !! v)) ∧
      ∀ t, template t → s = print t → no_zero env → out = expansion env t
  | inr err =>
      ∃ keys, err = Errorf "missing required environment variables: %s" [Join keys ", "] ∧ keys ≠ [] ∧
        NoDup keys ∧ StronglySorted String.le keys ∧ ∀ v, v ∈ keys ↔ braced v text ∧ env !! v = None
  end ∧
  ∀ t, template t → s = print t → ∀ v, braced v text ↔ Braced v ∈ t.
Proof.
  intros text. destruct (missing_vars_spec env text) as (Hnd & Hs & Hin). split.
  - unfold ExpandEnvStrict. fold text. destruct (missing_vars env text) as [|k keys]; [|by exists (k :: keys)].
    split.
    + intros v Hv. destruct (env !! v) eqn:E; [done|]. by destruct (not_elem_of_nil v); apply Hin.
    + intros t Ht -> Henv. unfold text, os_Expand. rewrite escape_template by done.
      rewrite expand_template by done. by apply unescape_template.
  - intros t Ht -> v. unfold text. rewrite escape_template by done. by apply braced_template.
Qed.

(** ** Witnesses *)

(** ["${HOME}/$USER costs $$5"], and a text with two variables that are missing. *)
Definition demo_template : list token :=
  [Braced "HOME"; Lit "/"; Bare "USER"] ++ (Lit <$> String.list_ascii_of_string " costs ") ++ [Dollar; Lit "5"].
Definition demo_env : gmap string string := {["HOME" := "/home/$USER"; "USER" := "ann"]}.

Lemma ExpandEnvStrict_strict_witness :
  ExpandEnvStrict demo_env "${HOME}/$USER costs $$5" = inl "/home/$USER/ann costs $5" ∧
  (∃ keys, ExpandEnvStrict demo_env "${B}${A}${HOME}${B}" =
     inr (Errorf "missing required environment variables: %s" [Join keys ", "]) ∧
     NoDup keys ∧ StronglySorted String.le keys ∧ ∀ v, v ∈ keys ↔ (v = "A" ∨ v = "B")).
Proof.
  split.
  - destruct (ExpandEnvStrict_strict demo_env "${HOME}/$USER costs $$5") as [H _].
    destruct (ExpandEnvStrict demo_env "${HOME}/$USER costs $$5") as [out|err] eqn:E; [|by vm_compute in E].
    destruct H as [_ H]. rewrite (H demo_template); [done|by repeat split|done|].
    apply (bool_decide_unpack (no_zero demo_env)). by vm_compute.
  - destruct (ExpandEnvStrict_strict demo_env "${B}${A}${HOME}${B}") as [H Hb].
    destruct (ExpandEnvStrict demo_env "${B}${A}${HOME}${B}") as [out|err] eqn:E; [by vm_compute in E|].
    destruct H as (keys & -> & _ & Hnd & Hs & Hin). exists keys. split_and!; [done..|].
    intros v. rewrite Hin, (Hb [Braced "B"; Braced "A"; Braced "HOME"; Braced "B"]) by (done || by repeat split).
    rewrite !elem_of_cons, elem_of_nil. split.
    + intros [[[= ->]|[[= ->]|[[= ->]|[[= ->]|[]]]]] Hv]; auto. by vm_compute in Hv.
    + intros [-> | ->]; (split; [auto | done]).
Defined.

End SV.
