(* ===== verification/SecretInline.v ===== *)
(** * secret/resolver.go: inline references

    The matches of [inlineSecretRefPattern] are said without the scanner ([scanned]);
    [resolveInline_substitutes] shows what the substitution by indexes, from the last match to the
    first, makes of a value. *)

From Stdlib Require Import Ascii.
From S2P Require Import Prelude.
From S2P Require Import GoRuntime.
From S2P Require Import GoString.
From S2P Require Import Secret.
Local Open Scope nat_scope.
Local Open Scope stdpp_scope.

Module SI.
Import SE.

(** *** Inline references

    The matches of [inlineSecretRefPattern], said without the scanner. *)

Definition provider_byte (c : ascii) : bool := negb (is_s c) && negb (bool_decide (c = ":"%char)).
Definition ref_byte (c : ascii) : bool := negb (is_s c).

(** The text of a reference, and what its parts may be. *)
Definition inline_ref (p ref : string) : string := "secretref:" +:+ p +:+ ":" +:+ ref.
Definition reference (p ref : string) : Prop :=
  p ≠ "" ∧ ref ≠ "" ∧ string_all provider_byte p = true ∧ string_all ref_byte ref = true.

(** A piece of a value: a byte of text or a reference. *)
Inductive piece := Text (c : ascii) | Ref (provider ref : string).

(** A value cut into its pieces: a reference wherever one begins, as long as it gets, and text
    only where none begins. *)
Inductive scanned : string → list piece → Prop :=
| scanned_end : scanned "" []
| scanned_text c s l :
    (∀ p ref r, reference p ref → String c s ≠ inline_ref p ref +:+ r) →
    scanned s l → scanned (String c s) (Text c :: l)
| scanned_ref p ref s l :
    reference p ref → stops ref_byte s → scanned s l → scanned (inline_ref p ref +:+ s) (Ref p ref :: l).

Lemma inline_ref_app p ref s : inline_ref p ref +:+ s = "secretref:" +:+ p +:+ String ":" (ref +:+ s).
Proof. unfold inline_ref. by rewrite !append_assoc. Qed.

Lemma match_inline_spec s p ref r :
  match_inline s = Some (p, ref, r) ↔ reference p ref ∧ stops ref_byte r ∧ s = inline_ref p ref +:+ r.
Proof.
  rewrite inline_ref_app. unfold match_inline. fold provider_byte ref_byte. split.
  - destruct (strip "secretref:" s) as [t|] eqn:E; [|done]. apply strip_spec in E. subst s.
    destruct (span _ t) as [p' r1] eqn:E1. apply span_spec in E1 as (-> & Hp & _).
    destruct r1 as [|c r2]; [done|].
    destruct (bool_decide_reflect (c = ":"%char)) as [->|Hc].
    + destruct (span _ r2) as [ref' r3] eqn:E2. apply span_spec in E2 as (-> & Hr & Hs).
      destruct (bool_decide (p' = "")) eqn:Ep, (bool_decide (ref' = "")) eqn:Er; simpl; intros; simplify_eq.
      zbool. done.
    + intros H. exfalso. destruct c as [[] [] [] [] [] [] [] []]; done.
  - intros ((Hp & Hr & Hpb & Hrb) & Hs & ->). rewrite strip_append.
    rewrite (span_app provider_byte p) by done. rewrite (span_app ref_byte ref) by done.
    by rewrite !bool_decide_false by done.
Qed.

(** Where the scanner finds no match none begins. *)
Lemma match_inline_none s p ref r :
  match_inline s = None → reference p ref → s ≠ inline_ref p ref +:+ r.
Proof.
  intros Hm (Hp & Hr & Hpb & Hrb) ->. destruct (span ref_byte r) as [ref' r'] eqn:E.
  apply span_spec in E as (-> & Hrb' & Hs).
  assert (match_inline (inline_ref p ref +:+ ref' +:+ r') = Some (p, ref +:+ ref', r')) as HE; [|congruence].
  apply match_inline_spec. split_and!; [|done|unfold inline_ref; by rewrite !append_assoc].
  split_and!; [done| |done|].
  - by destruct ref.
  - clear -Hrb Hrb'. induction ref as [|c ref IH]; [done|].
    change (String c ref +:+ ref') with (String c (ref +:+ ref')). cbn [string_all] in *.
    apply andb_true_iff in Hrb as [-> Hrb]. by apply IH.
Qed.

(** The pieces that the scanner finds. *)
Fixpoint pieces_go (fuel : nat) (s : string) : list piece :=
  match fuel, s with
  | S fuel, String c r =>
      match match_inline s with
      | Some (p, ref, r') => Ref p ref :: pieces_go fuel r'
      | None => Text c :: pieces_go fuel r
      end
  | _, _ => []
  end.

Lemma length_inline p ref s :
  String.length (inline_ref p ref +:+ s) = 11 + String.length p + String.length ref + String.length s.
Proof. rewrite inline_ref_app, !length_append. simpl. rewrite length_append. lia. Qed.

Lemma pieces_scanned fuel s : String.length s ≤ fuel → scanned s (pieces_go fuel s).
Proof.
  revert s. induction fuel as [|fuel IH]; intros [|c s] Hf; simpl in Hf; try lia; try constructor.
  cbn [pieces_go]. destruct (match_inline (String c s)) as [[[p ref] r]|] eqn:E.
  - apply match_inline_spec in E as (Href & Hs & HE). rewrite HE. constructor; [done..|]. apply IH.
    apply (f_equal String.length) in HE. rewrite length_inline in HE. simpl in HE. lia.
  - constructor; [|apply IH; lia]. intros p ref r. by apply match_inline_none.
Qed.

Lemma scanned_pieces fuel s l : scanned s l → String.length s ≤ fuel → l = pieces_go fuel s.
Proof.
  intros Hs. revert fuel. induction Hs as [|c s l Hn _ IH|p ref s l Href He _ IH]; intros fuel Hf.
  - by destruct fuel.
  - simpl in Hf. destruct fuel as [|fuel]; [lia|]. cbn [pieces_go].
    destruct (match_inline (String c s)) as [[[p ref] r]|] eqn:E; [|f_equal; apply IH; lia].
    apply match_inline_spec in E as (Href & _ & HE). by destruct (Hn _ _ _ Href HE).
  - rewrite length_inline in Hf. destruct fuel as [|fuel]; [lia|].
    assert (match_inline (inline_ref p ref +:+ s) = Some (p, ref, s)) as Hm by (by apply match_inline_spec).
    destruct (inline_ref p ref +:+ s) as [|c r] eqn:E; [done|]. cbn [pieces_go]. rewrite Hm. f_equal. apply IH. lia.
Qed.

(** A value is cut in one way. *)
Lemma scanned_functional s l1 l2 : scanned s l1 → scanned s l2 → l1 = l2.
Proof. intros H1 H2. by rewrite (scanned_pieces _ _ _ H1 (le_n _)), (scanned_pieces _ _ _ H2 (le_n _)). Qed.

(** *** Substitution by indexes *)

(** The value of a list of pieces, with a text for each reference. *)
Fixpoint substitute (res : string → string → string) (l : list piece) : string :=
  match l with
  | [] => ""
  | Text c :: l => String c (substitute res l)
  | Ref p ref :: l => res p ref +:+ substitute res l
  end.

Lemma substitute_app res l1 l2 : substitute res (l1 ++ l2) = substitute res l1 +:+ substitute res l2.
Proof.
  induction l1 as [|[c|p ref] l1 IH]; simpl; [done| |by rewrite IH, append_assoc].
  rewrite IH. done.
Qed.

Lemma scanned_text_of s l : scanned s l → substitute inline_ref l = s.
Proof. induction 1 as [|c s l _ _ IH|p ref s l _ _ _ IH]; simpl; by rewrite ?IH. Qed.

(** The indexes of the references in a list of pieces that begins at [pos]. *)
Definition match_at (pos : nat) (p ref : string) : submatch :=
  MkMatch pos (pos + 10 + String.length p + 1 + String.length ref) (pos + 10) (pos + 10 + String.length p)
    (pos + 10 + String.length p + 1) (pos + 10 + String.length p + 1 + String.length ref).

Fixpoint offsets (pos : nat) (l : list piece) : list submatch :=
  match l with
  | [] => []
  | Text c :: l => offsets (S pos) l
  | Ref p ref :: l => match_at pos p ref :: offsets (m_end (match_at pos p ref)) l
  end.

Lemma find_offsets fuel pos s : find_inline fuel pos s = offsets pos (pieces_go fuel s).
Proof.
  revert pos s. induction fuel as [|fuel IH]; intros pos [|c s]; [done..|].
  cbn [find_inline pieces_go]. destruct (match_inline (String c s)) as [[[p ref] r]|]; cbn [offsets]; by rewrite IH.
Qed.

Lemma offsets_snoc pos l p ref :
  offsets pos (l ++ [Ref p ref]) =
  offsets pos l ++ [match_at (pos + String.length (substitute inline_ref l)) p ref].
Proof.
  revert pos. induction l as [|[c|p' ref'] l IH]; intros pos; cbn [app offsets substitute].
  - by rewrite Nat.add_0_r.
  - rewrite IH. cbn [String.length]. by rewrite Nat.add_succ_r.
  - rewrite IH, length_inline. cbn [app m_end match_at]. do 4 f_equal. lia.
Qed.

Lemma offsets_text pos l c : offsets pos (l ++ [Text c]) = offsets pos l.
Proof. revert pos. induction l as [|[d|p ref] l IH]; intros pos; simpl; [done|apply IH|by rewrite IH]. Qed.

(** The resolver has a provider for the reference, which answers [v], and a strict resolver
    does not refuse [v]. *)
Definition answers {W} (r : Resolver W) (p ref v : string) : Prop :=
  TrimSpace p ≠ "" ∧ TrimSpace ref ≠ "" ∧ (strict r = true → v ≠ "") ∧
  ∃ pv, providers r !! p = Some pv ∧ ∀ w, Resolve pv ref w = (Val (inl v), w).

(** Why a reference is refused, with the error for it. *)
Inductive refuses {W} (r : Resolver W) (p ref : string) : error → Prop :=
| refuses_name : TrimSpace p = "" → refuses r p ref (Errorf "secret provider name is required" [])
| refuses_ref : TrimSpace p ≠ "" → TrimSpace ref = "" → refuses r p ref (Errorf "secret ref is required" [])
| refuses_unknown :
    TrimSpace p ≠ "" → TrimSpace ref ≠ "" → providers r !! p = None →
    refuses r p ref (Errorf "secret provider %q is not registered" [p])
| refuses_provider pv err :
    TrimSpace p ≠ "" → TrimSpace ref ≠ "" → providers r !! p = Some pv →
    (∀ w, Resolve pv ref w = (Val (inr err), w)) → refuses r p ref err
| refuses_empty pv :
    TrimSpace p ≠ "" → TrimSpace ref ≠ "" → providers r !! p = Some pv → strict r = true →
    (∀ w, Resolve pv ref w = (Val (inl ""), w)) →
    refuses r p ref (Errorf "secret provider %q returned empty value" [p]).

Lemma resolveSingle_answers {W} (r : Resolver W) p ref v w :
  answers r p ref v → resolveSingle r p ref w = (Val (inl v), w).
Proof.
  intros (Hp & Hr & Hs & pv & Hl & Ha). unfold resolveSingle.
  rewrite bool_decide_false by done. rewrite bool_decide_false by done.
  rewrite Hl, go_bind_run, Ha. destruct (strict r); [|done].
  rewrite bool_decide_false by auto. done.
Qed.

Lemma resolveSingle_refuses {W} (r : Resolver W) p ref err w :
  refuses r p ref err → resolveSingle r p ref w = (Val (inr err), w).
Proof.
  unfold resolveSingle. intros [Hp|Hp Hr|Hp Hr Hl|pv err' Hp Hr Hl Ha|pv Hp Hr Hl Hs Ha].
  - by rewrite (bool_decide_true (TrimSpace p = "")).
  - by rewrite (bool_decide_false (TrimSpace p = "")), (bool_decide_true (TrimSpace ref = "")).
  - by rewrite !bool_decide_false, Hl.
  - by rewrite !bool_decide_false, Hl, go_bind_run, Ha by done.
  - by rewrite !bool_decide_false, Hl, go_bind_run, Ha, Hs by done.
Qed.

Lemma slice_part {W} a b c (w : W) :
  slice (a +:+ b +:+ c) (String.length a) (String.length a + String.length b) w = (Val b, w).
Proof.
  unfold slice. rewrite !length_append, (proj2 (Nat.leb_le _ _)), (proj2 (Nat.leb_le _ _)) by lia. simpl.
  rewrite string_drop_app. replace (String.length a + String.length b - String.length a) with (String.length b) by lia.
  by rewrite string_take_app.
Qed.

Lemma slice_at {W} s a b c lo hi (w : W) :
  s = a +:+ b +:+ c → lo = String.length a → hi = String.length a + String.length b →
  slice s lo hi w = (Val b, w).
Proof. intros -> -> ->. apply slice_part. Qed.

(** One turn of the loop, at a reference after [a] and before [s]. *)
Lemma splice_turn {W} (r : Resolver W) a p ref s ms v w w' :
  resolveSingle r p ref w = (Val v, w') →
  splice r (match_at (String.length a) p ref :: ms) (a +:+ inline_ref p ref +:+ s) w =
  match v with
  | inl v => splice r ms (a +:+ v +:+ s) w'
  | inr err => (Val (inr err), w')
  end.
Proof.
  intros Hv. cbn [splice]. rewrite go_bind_run.
  rewrite (slice_at _ (a +:+ "secretref:") p (":" +:+ ref +:+ s)).
  2: { unfold inline_ref. by rewrite !append_assoc. }
  2: { rewrite length_append. done. }
  2: { rewrite length_append. done. }
  rewrite go_bind_run, (slice_at _ (a +:+ "secretref:" +:+ p +:+ ":") ref s).
  2: { unfold inline_ref. by rewrite !append_assoc. }
  2: { rewrite !length_append. simpl. lia. }
  2: { rewrite !length_append. simpl. lia. }
  rewrite go_bind_run, Hv. destruct v as [v|err]; [|done].
  rewrite go_bind_run, (slice_at _ "" a (inline_ref p ref +:+ s)) by done.
  rewrite go_bind_run, (slice_at _ (a +:+ inline_ref p ref) s ""); [done|..].
  - by rewrite (append_nil_r s), (append_assoc a).
  - unfold inline_ref. rewrite !length_append. simpl. lia.
  - rewrite !length_append. lia.
Qed.

Lemma splice_answers {W} (r : Resolver W) res l s w :
  (∀ p ref, Ref p ref ∈ l → answers r p ref (res p ref)) →
  splice r (rev (offsets 0 l)) (substitute inline_ref l +:+ s) w = (Val (inl (substitute res l +:+ s)), w).
Proof.
  revert s. induction l as [|[c|p ref] l IH] using rev_ind; intros s Hres; [done|..].
  - rewrite offsets_text, !substitute_app, !append_assoc. apply IH. intros p ref Hin. apply Hres.
    apply elem_of_app. by left.
  - rewrite offsets_snoc, rev_app_distr, !substitute_app. cbn [rev app substitute].
    rewrite !append_assoc. simpl (0 + _).
    rewrite (splice_turn r _ p ref s _ (inl (res p ref)) w w).
    + apply IH. intros p' ref' Hin. apply Hres. apply elem_of_app. by left.
    + apply resolveSingle_answers, Hres, elem_of_app. right. by constructor.
Qed.

Lemma splice_refuses {W} (r : Resolver W) res l1 p ref l2 err s w :
  (∀ p ref, Ref p ref ∈ l2 → answers r p ref (res p ref)) → refuses r p ref err →
  splice r (rev (offsets 0 (l1 ++ Ref p ref :: l2))) (substitute inline_ref (l1 ++ Ref p ref :: l2) +:+ s) w
  = (Val (inr err), w).
Proof.
  intros Hres Hr. revert s. induction l2 as [|x l2 IH] using rev_ind; intros s.
  - rewrite offsets_snoc, rev_app_distr, substitute_app. cbn [rev app substitute].
    rewrite !append_assoc. simpl (0 + _).
    by rewrite (splice_turn r _ p ref _ _ (inr err) w w) by (by apply resolveSingle_refuses).
  - assert (l1 ++ Ref p ref :: l2 ++ [x] = (l1 ++ Ref p ref :: l2) ++ [x]) as -> by (by rewrite <- app_assoc).
    assert (∀ p ref, Ref p ref ∈ l2 → answers r p ref (res p ref)) as Hres2
      by (intros p' ref' Hin; apply Hres, elem_of_app; by left).
    destruct x as [c|p' ref'].
    + rewrite offsets_text, (substitute_app _ (l1 ++ Ref p ref :: l2)), append_assoc. by apply IH.
    + rewrite offsets_snoc, rev_app_distr, (substitute_app _ (l1 ++ Ref p ref :: l2)). cbn [rev app substitute].
      rewrite !append_assoc. simpl (0 + _).
      rewrite (splice_turn r _ p' ref' s _ (inl (res p' ref')) w w); [by apply IH|].
      apply resolveSingle_answers, Hres, elem_of_app. right. by constructor.
Qed.

Lemma resolveInline_splice {W} (r : Resolver W) value l w :
  scanned value l →
  resolveInline r value w = splice r (rev (offsets 0 l)) (substitute inline_ref l +:+ "") w.
Proof.
  intros Hs. rewrite append_nil_r, (scanned_text_of _ _ Hs).
  unfold resolveInline, FindAllStringSubmatchIndex.
  rewrite find_offsets, <- (scanned_pieces _ _ _ Hs (le_n _)). by destruct (offsets 0 l).
Qed.

Lemma resolveInline_answers {W} (r : Resolver W) res value l w :
  scanned value l → (∀ p ref, Ref p ref ∈ l → answers r p ref (res p ref)) →
  resolveInline r value w = (Val (inl (substitute res l)), w).
Proof.
  intros Hs Hres. rewrite (resolveInline_splice r value l w Hs), (splice_answers r res l "" w Hres).
  by rewrite append_nil_r.
Qed.

(** C25. Every value is cut in one way into text and inline references: a reference is
    [secretref:], a provider without a colon or white space, a colon and the whole run of bytes
    up to the next white space; it is one wherever that can be read, from the left, and the rest
    is text.  When all the references are answered the result is the text with each of them
    replaced by its secret, and a secret is not read again for references.  When one is refused
    the result is the error of the last one that is, and nothing else; the reason is a blank
    name or reference, a provider that is not registered, the provider's own error, or, in a
    strict resolver, an empty secret. *)
Theorem resolveInline_substitutes {W} (r : Resolver W) value :
  (∃ l, scanned value l ∧ ∀ l', scanned value l' → l' = l) ∧
  ∀ l w, scanned value l →
    (∀ res, (∀ p ref, Ref p ref ∈ l → answers r p ref (res p ref)) →
      resolveInline r value w = (Val (inl (substitute res l)), w)) ∧
    (∀ l1 p ref l2 res err, l = l1 ++ Ref p ref :: l2 →
      (∀ p ref, Ref p ref ∈ l2 → answers r p ref (res p ref)) → refuses r p ref err →
      resolveInline r value w = (Val (inr err), w)).
Proof.
  split.
  - exists (pieces_go (String.length value) value). split; [by apply pieces_scanned|].
    intros l' Hs. by apply scanned_pieces.
  - intros l w Hs. split.
    + intros res Hres. by apply resolveInline_answers.
    + intros l1 p ref l2 res err -> Hres Hr. rewrite (resolveInline_splice r value _ w Hs).
      by apply (splice_refuses r res).
Qed.

(** ** Whole values *)

(** Any text without a zero byte, its dollar signs doubled, is resolved literally, in any
    environment. Without a resolver it is itself. A full reference to a registered provider
    is what that provider answers for the whole rest of the text, its error included, with
    an empty secret refused when the resolver is strict. Every other text has its inline
    references replaced. *)
Theorem literal_resolves {W} env (r : Resolver W) t w :
  without (byte 0) t = true →
  let value := ReplaceAll t "$" "$$" in
  ResolveValue env (None : option (Resolver W)) value w = (Val (inl t), w) ∧
  (∀ p ref pv out w',
     t = "secretref:" +:+ p +:+ ":" +:+ ref → without ":"%char p = true →
     TrimSpace p ≠ "" → TrimSpace ref ≠ "" →
     providers r !! p = Some pv → Resolve pv ref w = (Val out, w') →
     ResolveValue env (Some r) value w =
     (Val (if decide (out = inl "" ∧ strict r = true)
           then inr (Errorf "secret provider %q returned empty value" [p]) else out), w')) ∧
  (∀ res l,
     (∀ p ref, p ≠ "" → ref ≠ "" → without ":"%char p = true →
        t ≠ "secretref:" +:+ p +:+ ":" +:+ ref) →
     scanned t l → (∀ p ref, Ref p ref ∈ l → answers r p ref (res p ref)) →
     ResolveValue env (Some r) value w = (Val (inl (substitute res l)), w)).
Proof.
  intros H0 value. unfold ResolveValue, value. rewrite dollar_escape by done.
  split; [done|]. split.
  - intros p ref pv out w' Ht Hp Hbp Hbr Hpv Ha.
    assert (ParseSecretRef t = Some (p, ref)) as ->.
    { apply ParseSecretRef_spec. split_and!; [done| | |done]; by intros ->. }
    unfold resolveSingle. rewrite !bool_decide_false by done. rewrite Hpv, go_bind_run, Ha.
    destruct out as [v|err]; [|by rewrite decide_False by (by intros [? _])].
    destruct (strict r); simpl; [|by rewrite decide_False by (by intros [_ ?])].
    case_bool_decide as Hv; [subst v; by rewrite decide_True|].
    rewrite decide_False by (intros [[= ?] _]; done). done.
  - intros res l Hnot Hl Hres. destruct (ParseSecretRef t) as [[p ref]|] eqn:E.
    + apply ParseSecretRef_spec in E as (Ht & ? & ? & ?). by destruct (Hnot p ref).
    + by apply resolveInline_answers.
Qed.

(** ** Witnesses *)

(** A provider that answers with the reference in brackets. *)
Definition demo_provider : Provider unit := MkProvider "bws" (λ ref, mret (inl ("[" +:+ ref +:+ "]"))).
Definition demo : Resolver unit := NewResolver true [Some demo_provider; None].
Definition demo_res (p ref : string) : string := "[" +:+ ref +:+ "]".
Definition demo_value : string := "Bearer secretref:bws:a/b and secretref:bws:c secretref::x".

Lemma demo_answers p ref :
  p = "bws" → TrimSpace ref ≠ "" → answers demo p ref (demo_res p ref).
Proof.
  intros -> Href. split_and!; [by vm_compute|done|done|].
  exists demo_provider. split; [by vm_compute|done].
Qed.

(** How the demonstration value is cut. *)
Definition texts (s : string) : list piece := Text <$> String.list_ascii_of_string s.
Definition demo_pieces : list piece :=
  texts "Bearer " ++ [Ref "bws" "a/b"] ++ texts " and " ++ [Ref "bws" "c"] ++ texts " secretref::x".

Lemma demo_scanned : scanned demo_value demo_pieces.
Proof. exact (pieces_scanned (String.length demo_value) demo_value (le_n _)). Qed.

Ltac answered Hin :=
  vm_compute in Hin;
  repeat (apply elem_of_cons in Hin as [Hin|Hin];
    [first [discriminate Hin | injection Hin as -> ->; by apply demo_answers]|]);
  by apply elem_of_nil in Hin.

(** Two references, with text and something that is not a reference around them; and a value whose
    first reference names a provider that is not registered. *)
Lemma resolveInline_substitutes_witness :
  resolveInline demo demo_value () = (Val (inl "Bearer [a/b] and [c] secretref::x"), ()) ∧
  resolveInline demo "secretref:vault:k secretref:bws:c" () =
    (Val (inr (Errorf "secret provider %q is not registered" ["vault"])), ()).
Proof.
  split.
  - apply (proj1 (proj2 (resolveInline_substitutes demo demo_value) demo_pieces () demo_scanned) demo_res).
    intros p ref Hin. answered Hin.
  - apply (proj2 (proj2 (resolveInline_substitutes demo "secretref:vault:k secretref:bws:c")
      ([Ref "vault" "k"] ++ texts " " ++ [Ref "bws" "c"]) ()
      (pieces_scanned 33 "secretref:vault:k secretref:bws:c" (le_n _)))
      [] "vault" "k" (texts " " ++ [Ref "bws" "c"]) demo_res); [done| |].
    + intros p ref Hin. answered Hin.
    + apply refuses_unknown; [by vm_compute | by vm_compute | by vm_compute].
Defined.

(** A full reference to the strict demonstration resolver, and a text with dollar signs. *)
Lemma literal_resolves_witness :
  ResolveValue ∅ (Some demo) "secretref:bws:a:$$1" () = (Val (inl "[a:$1]"), ()) ∧
  ResolveValue ∅ (Some demo) "$$HOME secretref:bws:c" () = (Val (inl "$HOME [c]"), ()).
Proof.
  split.
  - by apply (proj1 (proj2 (literal_resolves ∅ demo "secretref:bws:a:$1" () eq_refl))
                "bws" "a:$1" demo_provider (inl "[a:$1]") ()).
  - apply (proj2 (proj2 (literal_resolves ∅ demo "$HOME secretref:bws:c" () eq_refl)) demo_res
      (texts "$HOME " ++ [Ref "bws" "c"])).
    + intros p ref _ _ _. discriminate.
    + exact (pieces_scanned 21 "$HOME secretref:bws:c" (le_n _)).
    + intros p ref Hin. answered Hin.
Defined.

End SI.
