(* ===== verification/Observe.v ===== *)
(** * observe: configuration, exporters, tool metadata, tracer, metrics, logger, middleware

    OpenTelemetry is not part of the repository: the spans, counters and providers are
    operations the definitions take as arguments ([Otel], [SDK]).  The tracer, the metrics
    and the logger of the middleware are the interfaces of the code, as type classes, with
    their implementations as instances. *)

From S2P Require Import Prelude.
From S2P Require Import GoRuntime.
From S2P Require Import GoFloat.
From S2P Require Import GoString.
Local Open Scope Z_scope.
Local Open Scope stdpp_scope.

Module OB.

(** ** errors.go *)

Definition ErrMissingServiceName : error := Sentinel "observe: service name is required".
Definition ErrInvalidSamplePct : error := Sentinel "observe: sample percentage must be between 0.0 and 1.0".
Definition ErrInvalidTracingExporter : error := Sentinel "observe: invalid tracing exporter".
Definition ErrInvalidMetricsExporter : error := Sentinel "observe: invalid metrics exporter".
Definition ErrInvalidLogLevel : error := Sentinel "observe: invalid log level".
Definition ErrMissingToolName : error := Sentinel "observe: tool name is required".
Definition observe_ErrEndpointNotConfigured : error := Sentinel "observe: endpoint not configured".

Definition RedactedFields : list string :=
  ["input"; "inputs"; "password"; "secret"; "token"; "api_key"; "apiKey"; "credential"].

Definition MinSamplePct : float64 := f_zero.
Definition MaxSamplePct : float64 := f_one.

(** ** observe.go: the configuration *)

Record TracingConfig := MkTracing { TEnabled : bool; TExporter : string; SamplePct : float64 }.
Record MetricsConfig := MkMetricsCfg { MEnabled : bool; MExporter : string }.
Record LoggingConfig := MkLogging { LEnabled : bool; Level : string }.
Record Config := MkConfig {
  ServiceName : string;
  CVersion : string;
  Tracing : TracingConfig;
  MetricsC : MetricsConfig;
  Logging : LoggingConfig;
}.

Definition validTracingExporters : list string := ["otlp"; "jaeger"; "stdout"; "none"; ""].
Definition validMetricsExporters : list string := ["otlp"; "prometheus"; "stdout"; "none"; ""].
Definition validLogLevels : list string := ["debug"; "info"; "warn"; "error"; ""].

(** The lists the package exports; nothing in it reads them. *)
Definition ValidTracingExporters : list string := ["otlp"; "jaeger"; "stdout"; "none"; ""].
Definition ValidMetricsExporters : list string := ["otlp"; "prometheus"; "stdout"; "none"; ""].
Definition ValidLogLevels : list string := ["debug"; "info"; "warn"; "error"; ""].

(** A lookup in a [map[string]bool] whose values are all [true]. *)
Definition valid (l : list string) (s : string) : bool := bool_decide (s ∈ l).

(** The three blocks of [Validate], each skipped when its subsystem is disabled. *)
Definition validate_tracing (t : TracingConfig) : option error :=
  if negb (TEnabled t) then None
  else if negb (valid validTracingExporters (TExporter t))
  then Some (ErrorfW "%w: %q" [TExporter t] ErrInvalidTracingExporter)
  else if fltb (SamplePct t) MinSamplePct || fltb MaxSamplePct (SamplePct t)
  then Some (ErrorfW "%w: got %f" [fmt_f (SamplePct t)] ErrInvalidSamplePct)
  else None.

Definition validate_metrics (m : MetricsConfig) : option error :=
  if negb (MEnabled m) then None
  else if negb (valid validMetricsExporters (MExporter m))
  then Some (ErrorfW "%w: %q" [MExporter m] ErrInvalidMetricsExporter)
  else None.

Definition validate_logging (l : LoggingConfig) : option error :=
  if negb (LEnabled l) then None
  else if negb (valid validLogLevels (Level l))
  then Some (ErrorfW "%w: %q" [Level l] ErrInvalidLogLevel)
  else None.

Definition Validate (c : Config) : option error :=
  if bool_decide (ServiceName c = "") then Some ErrMissingServiceName
  else
    match validate_tracing (Tracing c) with
    | Some err => Some err
    | None =>
        match validate_metrics (MetricsC c) with
        | Some err => Some err
        | None => validate_logging (Logging c)
        end
    end.

(** ** tracer.go: tool metadata *)

Record ToolMeta := MkTool {
  ID : string;
  Namespace : string;
  Name : string;
  Version : string;
  Tags : list string;
  Category : string;
}.

Definition SpanName (m : ToolMeta) : string :=
  if negb (bool_decide (Namespace m = "")) then "tool.exec." +:+ Namespace m +:+ "." +:+ Name m
  else "tool.exec." +:+ Name m.

Definition ToolID (m : ToolMeta) : string :=
  if negb (bool_decide (ID m = "")) then ID m
  else if negb (bool_decide (Namespace m = "")) then Namespace m +:+ "." +:+ Name m
  else Name m.

Definition ToolMeta_Validate (m : ToolMeta) : option error :=
  if bool_decide (Name m = "") then Some ErrMissingToolName else None.

(** ** Attributes, fields and values *)

(** An [attribute.KeyValue]. *)
Inductive attribute :=
| AString (key value : string)
| ABool (key : string) (value : bool)
| AStrings (key : string) (value : list string).

(** A value of a log field; [VAny] stands for one of another type. *)
Inductive value :=
| VString (s : string)
| VFloat (f : float64)
| VAny (id : nat).

Record Field := MkField { Key : string; FValue : value }.

(** [if s != "" { attrs = append(attrs, ...) }] *)
Definition opt_attr (key s : string) : list attribute :=
  if bool_decide (s = "") then [] else [AString key s].

(** ** The interfaces *)

(** [ctx.Context] is a type of its own: the middleware passes on the one it gets from
    [StartSpan]. *)
Class Tracer (T W C S : Type) := {
  StartSpan : T → C → ToolMeta → Go W (C * S);
  EndSpan : T → S → option error → Go W unit;
}.

Class Metrics (M W C : Type) := {
  RecordExecution : M → C → ToolMeta → Duration → option error → Go W unit;
}.

(** [LogLevel] is an [int]. *)
Definition LevelDebug : Z := 0.
Definition LevelInfo : Z := 1.
Definition LevelWarn : Z := 2.
Definition LevelError : Z := 3.

(** [Debug], [Info], [Warn] and [Error] are [log] at their level. *)
Class Logger (L W C : Type) := {
  log : L → C → Z → string → list Field → Go W unit;
  WithTool : L → ToolMeta → L;
}.

(** ** The OpenTelemetry operations the implementations call *)

Inductive code := Ok | Error.

Record Otel (W C S : Type) := MkOtel {
  tracer_Start : C → string → list attribute → Go W (C * S);
  span_SetStatus : S → code → string → Go W unit;
  span_SetAttributes : S → list attribute → Go W unit;
  span_RecordError : S → error → Go W unit;
  span_End : S → Go W unit;
  totalCount_Add : C → Z → list attribute → Go W unit;
  errorCount_Add : C → Z → list attribute → Go W unit;
  durationHist_Record : C → float64 → list attribute → Go W unit;
}.
Arguments MkOtel {W C S} _ _ _ _ _ _ _ _.
Arguments tracer_Start {W C S} _ _ _ _.
Arguments span_SetStatus {W C S} _ _ _ _.
Arguments span_SetAttributes {W C S} _ _ _.
Arguments span_RecordError {W C S} _ _ _.
Arguments span_End {W C S} _ _.
Arguments totalCount_Add {W C S} _ _ _ _.
Arguments errorCount_Add {W C S} _ _ _ _.
Arguments durationHist_Record {W C S} _ _ _ _.

(** ** tracer.go: the tracer *)

Record tracerImpl (W C S : Type) := MkTracer { tracer : Otel W C S }.
Arguments MkTracer {W C S} _.
Arguments tracer {W C S} _.

Definition span_attributes (meta : ToolMeta) : list attribute :=
  [AString "tool.id" (ToolID meta); AString "tool.name" (Name meta); ABool "tool.error" false]
  ++ opt_attr "tool.namespace" (Namespace meta)
  ++ opt_attr "tool.version" (Version meta)
  ++ opt_attr "tool.category" (Category meta)
  ++ (match Tags meta with [] => [] | tags => [AStrings "tool.tags" tags] end).

Section Telemetry.
Context {W C S : Type} `{GoEnv W} (error_text : error → string).

Definition impl_StartSpan (t : tracerImpl W C S) (ctx : C) (meta : ToolMeta) : Go W (C * S) :=
  tracer_Start (tracer t) ctx (SpanName meta) (span_attributes meta).

Definition impl_EndSpan (t : tracerImpl W C S) (span : S) (err : option error) : Go W unit :=
  _ ← match err with
      | Some err =>
          _ ← span_SetStatus (tracer t) span Error (error_text err);
          _ ← span_SetAttributes (tracer t) span [ABool "tool.error" true];
          span_RecordError (tracer t) span err
      | None => span_SetStatus (tracer t) span Ok ""
      end;
  span_End (tracer t) span.

(** ** metrics.go *)

Record metricsImpl := MkMetrics { meter : Otel W C S }.

(** [duration.Milliseconds()] as a [float64]. *)
Definition duration_ms (d : Duration) : float64 := f_of_Z (Z.quot d Millisecond).

Definition metric_attributes (meta : ToolMeta) : list attribute :=
  [AString "tool.id" (ToolID meta); AString "tool.name" (Name meta)]
  ++ opt_attr "tool.namespace" (Namespace meta).

Definition impl_RecordExecution (m : metricsImpl) (ctx : C) (meta : ToolMeta) (duration : Duration)
    (err : option error) : Go W unit :=
  let opt := metric_attributes meta in
  _ ← totalCount_Add (meter m) ctx 1 opt;
  _ ← (if is_err err then errorCount_Add (meter m) ctx 1 opt else mret ());
  durationHist_Record (meter m) ctx (duration_ms duration) opt.
End Telemetry.
Arguments metricsImpl : clear implicits.
Arguments MkMetrics {W C S} _.

(** ** logger.go *)

Definition ParseLogLevel (s : string) : Z :=
  if bool_decide (s = "debug") then LevelDebug
  else if bool_decide (s = "info") then LevelInfo
  else if bool_decide (s = "warn") then LevelWarn
  else if bool_decide (s = "error") then LevelError
  else LevelInfo.

Definition LogLevel_String (l : Z) : string :=
  if l =? LevelDebug then "debug"
  else if l =? LevelInfo then "info"
  else if l =? LevelWarn then "warn"
  else if l =? LevelError then "error"
  else "info".

Record structuredLogger := MkLogger {
  level : Z;
  toolMeta : option ToolMeta;
  baseAttrs : gmap string value;
}.

(** [NewLoggerWithWriter]; the writer is an argument of [structured_log]. *)
Definition NewLoggerWithWriter (lvl : string) : structuredLogger := MkLogger (ParseLogLevel lvl) None ∅.

(** [if s != "" { attrs[key] = s }] *)
Definition set_attr (key s : string) (m : gmap string value) : gmap string value :=
  if bool_decide (s = "") then m else <[key := VString s]> m.

Definition structured_WithTool (l : structuredLogger) (meta : ToolMeta) : structuredLogger :=
  let attrs := baseAttrs l in
  let attrs := <["tool.id" := VString (ToolID meta)]> attrs in
  let attrs := <["tool.name" := VString (Name meta)]> attrs in
  let attrs := set_attr "tool.namespace" (Namespace meta) attrs in
  let attrs := set_attr "tool.version" (Version meta) attrs in
  MkLogger (level l) (Some meta) attrs.

Definition redactedKeys : list string :=
  ["input"; "inputs"; "password"; "secret"; "token"; "api_key"; "apiKey"; "credential"].

Definition isRedactedField (key : string) : bool := bool_decide (key ∈ redactedKeys).

(** One field of an entry. *)
Definition add_field (entry : gmap string value) (f : Field) : gmap string value :=
  if isRedactedField (Key f) then <[Key f := VString "[REDACTED]"]> entry
  else <[Key f := FValue f]> entry.

(** The entry: the timestamp, the level and the message, then the tool's attributes, then
    the fields. *)
Definition log_entry (l : structuredLogger) (timestamp : string) (lvl : Z) (msg : string)
    (fields : list Field) : gmap string value :=
  let entry := {["timestamp" := VString timestamp; "level" := VString (LogLevel_String lvl);
                 "msg" := VString msg]} in
  foldl add_field (baseAttrs l ∪ entry) fields.

Definition newline : string := String (byte 10) "".

Section Logging.
Context {W : Type} `{GoEnv W}.
Context (rfc3339 : Time → string) (json_Marshal : gmap string value → string + error)
  (Write : string → Go W (option error)).

Definition structured_log (l : structuredLogger) (lvl : Z) (msg : string) (fields : list Field)
    : Go W unit :=
  if lvl <? level l then mret ()
  else
    now ← time_Now;
    match json_Marshal (log_entry l (rfc3339 now) lvl msg fields) with
    | inr _ => mret ()
    | inl data =>
        err ← Write data;
        match err with
        | Some _ => mret ()
        | None => _ ← Write newline; mret ()
        end
    end.
End Logging.

(** ** The implementations of the interfaces *)

Section Instances.
Context {W C S : Type} `{GoEnv W} (error_text : error → string).
Context (rfc3339 : Time → string) (json_Marshal : gmap string value → string + error)
  (Write : string → Go W (option error)).

Definition tracerImpl_Tracer : Tracer (tracerImpl W C S) W C S := {|
  StartSpan := impl_StartSpan;
  EndSpan := impl_EndSpan error_text;
|}.

Definition metricsImpl_Metrics : Metrics (metricsImpl W C S) W C := {|
  RecordExecution := impl_RecordExecution;
|}.

Definition structuredLogger_Logger : Logger structuredLogger W C := {|
  log := λ l _, structured_log rfc3339 json_Marshal Write l;
  WithTool := structured_WithTool;
|}.

(** [noopTracer]: a span of the no-op provider [noop], without attributes or status. *)
Definition noopTracer_Tracer (noop : Otel W C S) : Tracer unit W C S := {|
  StartSpan := λ _ ctx meta, tracer_Start noop ctx (SpanName meta) [];
  EndSpan := λ _ span _, span_End noop span;
|}.

(** [noopLogger] *)
Definition noopLogger_Logger : Logger unit W C := {|
  log := λ _ _ _ _ _, mret ();
  WithTool := λ l _, l;
|}.

(** [noopMetrics] *)
Definition noopMetrics_Metrics : Metrics unit W C := {| RecordExecution := λ _ _ _ _ _, mret () |}.
End Instances.

(** ** middleware.go *)

Record Middleware (T M L : Type) := NewMiddleware { mw_tracer : T; mw_metrics : M; mw_logger : L }.
Arguments NewMiddleware {T M L} _ _ _.
Arguments mw_tracer {T M L} _.
Arguments mw_metrics {T M L} _.
Arguments mw_logger {T M L} _.

Section Wrap.
Context {W C S T M L I R : Type} `{GoEnv W, !Tracer T W C S, !Metrics M W C, !Logger L W C}.
Context (error_text : error → string).

(** [ExecuteFunc]; the result and the error are returned together. *)
Abbreviation ExecuteFunc := (C → ToolMeta → I → Go W (R * option error)) (only parsing).

(** The fields of the log line. *)
Definition log_fields (duration : Duration) (err : option error) : list Field :=
  [MkField "duration_ms" (VFloat (duration_ms duration))]
  ++ (match err with Some err => [MkField "error" (VString (error_text err))] | None => [] end).

(** What [Wrap] does after the function returned. *)
Definition record (m : Middleware T M L) (ctx : C) (span : S) (tool : ToolMeta) (duration : Duration)
    (err : option error) : Go W unit :=
  _ ← EndSpan (mw_tracer m) span err;
  _ ← RecordExecution (mw_metrics m) ctx tool duration err;
  let toolLogger := WithTool (W:=W) (C:=C) (mw_logger m) tool in
  let fields := log_fields duration err in
  match err with
  | Some _ => log toolLogger ctx LevelError "tool execution failed" fields
  | None => log toolLogger ctx LevelInfo "tool execution completed" fields
  end.

Definition Wrap (m : Middleware T M L) (fn : ExecuteFunc) : ExecuteFunc := λ ctx tool input,
  '(ctx, span) ← StartSpan (mw_tracer m) ctx tool;
  start ← time_Now;
  '(result, err) ← fn ctx tool input;
  now ← time_Now;
  let duration := time_Since now start in
  _ ← record m ctx span tool duration err;
  mret (result, err).
End Wrap.

(** ** exporters/factory.go *)

Definition ErrEndpointNotConfigured : error := Sentinel "exporters: endpoint not configured".
Definition ErrInvalidExporter : error := Sentinel "exporters: invalid exporter".

(** The exporters of the OpenTelemetry SDK that the factory constructs. *)
Inductive span_exporter := StdoutTrace | OTLPTrace | DiscardTrace.
Inductive metric_exporter := StdoutMetric | OTLPMetric | PrometheusMetric | DiscardMetric.

#[global] Instance span_exporter_eq_dec : EqDecision span_exporter.
Proof. solve_decision. Defined.

Inductive reader := PeriodicReader (e : metric_exporter) | PrometheusReader.

Inductive sampler := AlwaysSample | NeverSample | TraceIDRatioBased (fraction : float64).

Record TracerProvider := MkTP { tp_sampler : sampler; tp_exporter : span_exporter; tp_tracer : string }.
Record MeterProvider := MkMP { mp_reader : reader; mp_meter : string }.

(** The operations of the SDK. *)
Record SDK (W : Type) := MkSDK {
  resource_New : string → string → Go W (option error);
  trace_New : span_exporter → Go W (option error);
  metric_New : metric_exporter → Go W (option error);
  otel_SetTracerProvider : TracerProvider → Go W unit;
  otel_SetMeterProvider : MeterProvider → Go W unit;
  tp_Shutdown : TracerProvider → Go W (option error);
  mp_Shutdown : MeterProvider → Go W (option error);
  instrument_New : string → Go W (option error);
}.
Arguments MkSDK {W} _ _ _ _ _ _ _ _.
Arguments resource_New {W} _ _ _.
Arguments trace_New {W} _ _.
Arguments metric_New {W} _ _.
Arguments otel_SetTracerProvider {W} _ _.
Arguments otel_SetMeterProvider {W} _ _.
Arguments tp_Shutdown {W} _ _.
Arguments mp_Shutdown {W} _ _.
Arguments instrument_New {W} _ _.

Section Setup.
Context {W : Type} (env : gmap string string) (sdk : SDK W).

Definition Getenv (key : string) : string := default "" (env !! key).

(** [x, err := New(...)]: the object, or the error with the wrapping of the caller. *)
Definition constructed {A} (x : A) (wrap : error → error) (r : option error) : A + error :=
  match r with Some err => inr (wrap err) | None => inl x end.

Definition NewTracingExporter (name : string) : Go W (span_exporter + error) :=
  if bool_decide (name = "stdout") then
    r ← trace_New sdk StdoutTrace; mret (constructed StdoutTrace id r)
  else if bool_decide (name = "otlp") then
    let endpoint := Getenv "OTEL_EXPORTER_OTLP_ENDPOINT" in
    let endpoint := if bool_decide (endpoint = "") then Getenv "OTEL_EXPORTER_OTLP_TRACES_ENDPOINT"
                    else endpoint in
    if bool_decide (endpoint = "") then
      mret (inr (ErrorfW "%w: set OTEL_EXPORTER_OTLP_ENDPOINT or OTEL_EXPORTER_OTLP_TRACES_ENDPOINT" []
                   ErrEndpointNotConfigured))
    else r ← trace_New sdk OTLPTrace; mret (constructed OTLPTrace id r)
  else if bool_decide (name = "jaeger") then
    let endpoint := Getenv "OTEL_EXPORTER_JAEGER_ENDPOINT" in
    if bool_decide (endpoint = "") then
      mret (inr (ErrorfW "%w: set OTEL_EXPORTER_JAEGER_ENDPOINT" [] ErrEndpointNotConfigured))
    else r ← trace_New sdk OTLPTrace; mret (constructed OTLPTrace id r)
  else if bool_decide (name = "none") || bool_decide (name = "") then
    r ← trace_New sdk DiscardTrace; mret (constructed DiscardTrace id r)
  else mret (inr (ErrorfW "%w: %q" [name] ErrInvalidExporter)).

Definition NewMetricsReader (name : string) : Go W (reader + error) :=
  if bool_decide (name = "stdout") then
    r ← metric_New sdk StdoutMetric;
    mret (constructed (PeriodicReader StdoutMetric)
            (ErrorfW "failed to create stdout metrics exporter: %w" []) r)
  else if bool_decide (name = "otlp") then
    let endpoint := Getenv "OTEL_EXPORTER_OTLP_ENDPOINT" in
    let endpoint := if bool_decide (endpoint = "") then Getenv "OTEL_EXPORTER_OTLP_METRICS_ENDPOINT"
                    else endpoint in
    if bool_decide (endpoint = "") then
      mret (inr (ErrorfW "%w: set OTEL_EXPORTER_OTLP_ENDPOINT or OTEL_EXPORTER_OTLP_METRICS_ENDPOINT" []
                   ErrEndpointNotConfigured))
    else
      r ← metric_New sdk OTLPMetric;
      mret (constructed (PeriodicReader OTLPMetric)
              (ErrorfW "failed to create OTLP metrics exporter: %w" []) r)
  else if bool_decide (name = "prometheus") then
    r ← metric_New sdk PrometheusMetric;
    mret (constructed PrometheusReader (ErrorfW "failed to create Prometheus exporter: %w" []) r)
  else if bool_decide (name = "none") || bool_decide (name = "") then
    r ← metric_New sdk DiscardMetric; mret (constructed (PeriodicReader DiscardMetric) id r)
  else mret (inr (ErrorfW "%w: %q" [name] ErrInvalidExporter)).

(** ** observe.go: the observer *)

Definition choose_sampler (pct : float64) : sampler :=
  if fleb f_one pct then AlwaysSample
  else if fleb pct f_zero then NeverSample
  else TraceIDRatioBased pct.

Definition setupTracing (cfg : Config) : Go W (TracerProvider + error) :=
  exporter ← NewTracingExporter (TExporter (Tracing cfg));
  match exporter with
  | inr err => mret (inr (ErrorfW "failed to create trace exporter: %w" [] err))
  | inl exporter =>
      let tp := MkTP (choose_sampler (SamplePct (Tracing cfg))) exporter (ServiceName cfg) in
      _ ← otel_SetTracerProvider sdk tp;
      mret (inl tp)
  end.

Definition setupMetrics (cfg : Config) : Go W (MeterProvider + error) :=
  reader ← NewMetricsReader (MExporter (MetricsC cfg));
  match reader with
  | inr err => mret (inr (ErrorfW "failed to create metrics reader: %w" [] err))
  | inl reader =>
      let mp := MkMP reader (ServiceName cfg) in
      _ ← otel_SetMeterProvider sdk mp;
      mret (inl mp)
  end.

(** The logger of an observer: structured, or the one that does nothing ([None]).  The
    tracer and the meter are those of the providers, or no-op ones when there is none. *)
Record observer := MkObserver {
  tracerProvider : option TracerProvider;
  meterProvider : option MeterProvider;
  logger : option structuredLogger;
}.

(** [if enabled { x, err := setup(); if err != nil { return wrapped } }] *)
Definition setup_if {A} (enabled : bool) (m : Go W (A + error)) (format : string)
    : Go W (option A + error) :=
  if enabled then
    r ← m;
    mret match r with inl x => inl (Some x) | inr err => inr (ErrorfW format [] err) end
  else mret (inl None).

Definition NewObserver (cfg : Config) : Go W (observer + error) :=
  match Validate cfg with
  | Some err => mret (inr err)
  | None =>
      res ← resource_New sdk (ServiceName cfg) (CVersion cfg);
      match res with
      | Some err => mret (inr (ErrorfW "failed to create resource: %w" [] err))
      | None =>
          tp ← setup_if (TEnabled (Tracing cfg)) (setupTracing cfg) "failed to setup tracing: %w";
          match tp with
          | inr err => mret (inr err)
          | inl tp =>
              mp ← setup_if (MEnabled (MetricsC cfg)) (setupMetrics cfg) "failed to setup metrics: %w";
              match mp with
              | inr err => mret (inr err)
              | inl mp =>
                  let logger := if LEnabled (Logging cfg)
                                then Some (NewLoggerWithWriter (Level (Logging cfg))) else None in
                  mret (inl (MkObserver tp mp logger))
              end
          end
      end
  end.

(** The error of a provider's shutdown, in a list. *)
Definition shutdown {A} (p : option A) (f : A → Go W (option error)) (format : string)
    : Go W (list error) :=
  match p with
  | None => mret []
  | Some p =>
      r ← f p;
      mret match r with Some err => [ErrorfW format [] err] | None => [] end
  end.

(** The errors that [Shutdown] joins; none is a nil error. *)
Definition Shutdown (o : observer) : Go W (list error) :=
  e1 ← shutdown (tracerProvider o) (tp_Shutdown sdk) "tracer shutdown: %w";
  e2 ← shutdown (meterProvider o) (mp_Shutdown sdk) "meter shutdown: %w";
  mret (e1 ++ e2).

(** The instruments, in the order of their creation. *)
Definition newMetrics : Go W (option error) :=
  e1 ← instrument_New sdk "tool.exec.total";
  match e1 with
  | Some err => mret (Some err)
  | None =>
      e2 ← instrument_New sdk "tool.exec.errors";
      match e2 with
      | Some err => mret (Some err)
      | None => instrument_New sdk "tool.exec.duration_ms"
      end
  end.

(** The middleware over the observer's tracer, meter and logger. *)
Definition MiddlewareFromObserver {C S L} (otel : Otel W C S) (obs_Logger : L)
    : Go W (Middleware (tracerImpl W C S) (metricsImpl W C S) L + error) :=
  err ← newMetrics;
  mret match err with
       | Some err => inr err
       | None => inl (NewMiddleware (MkTracer otel) (MkMetrics otel) obs_Logger)
       end.
End Setup.
(** ** Valid configurations *)

Definition in_unit_interval (f : float64) : Prop :=
  fltb f MinSamplePct = false ∧ fltb MaxSamplePct f = false.

Record valid_config (c : Config) : Prop := {
  has_name : ServiceName c ≠ "";
  tracing_ok : TEnabled (Tracing c) = true →
    TExporter (Tracing c) ∈ validTracingExporters ∧ in_unit_interval (SamplePct (Tracing c));
  metrics_ok : MEnabled (MetricsC c) = true → MExporter (MetricsC c) ∈ validMetricsExporters;
  logging_ok : LEnabled (Logging c) = true → Level (Logging c) ∈ validLogLevels;
}.

Definition config_errors : list error :=
  [ErrMissingServiceName; ErrInvalidTracingExporter; ErrInvalidSamplePct; ErrInvalidMetricsExporter;
   ErrInvalidLogLevel].

Ltac in_config := unfold config_errors; rewrite !elem_of_cons; tauto.

(** The exported lists are the accepted values. *)
Lemma exported_lists_agree s :
  valid validTracingExporters s = bool_decide (s ∈ ValidTracingExporters) ∧
  valid validMetricsExporters s = bool_decide (s ∈ ValidMetricsExporters) ∧
  valid validLogLevels s = bool_decide (s ∈ ValidLogLevels).
Proof. done. Qed.

Lemma validate_tracing_spec t :
  match validate_tracing t with
  | None => TEnabled t = true → TExporter t ∈ validTracingExporters ∧ in_unit_interval (SamplePct t)
  | Some err => TEnabled t = true ∧
      (errors_Is err ErrInvalidTracingExporter = true ∧ TExporter t ∉ validTracingExporters ∨
       errors_Is err ErrInvalidSamplePct = true ∧ ¬ in_unit_interval (SamplePct t))
  end.
Proof.
  unfold validate_tracing, valid, in_unit_interval. destruct (TEnabled t); [|done]. simpl.
  case_bool_decide; simpl; [|split; [done|left; auto with gomonad]].
  destruct (fltb _ MinSamplePct) eqn:E1, (fltb MaxSamplePct _) eqn:E2; simpl; try done;
    (split; [done|]; right; split; [auto with gomonad | by intros [??]]).
Qed.

Lemma validate_metrics_spec m :
  match validate_metrics m with
  | None => MEnabled m = true → MExporter m ∈ validMetricsExporters
  | Some err => MEnabled m = true ∧ (MExporter m ∉ validMetricsExporters) ∧
      errors_Is err ErrInvalidMetricsExporter = true
  end.
Proof.
  unfold validate_metrics, valid. destruct (MEnabled m); [|done]. simpl.
  case_bool_decide; simpl; auto with gomonad.
Qed.

Lemma validate_logging_spec l :
  match validate_logging l with
  | None => LEnabled l = true → Level l ∈ validLogLevels
  | Some err => LEnabled l = true ∧ (Level l ∉ validLogLevels) ∧ errors_Is err ErrInvalidLogLevel = true
  end.
Proof.
  unfold validate_logging, valid. destruct (LEnabled l); [|done]. simpl.
  case_bool_decide; simpl; auto with gomonad.
Qed.

Lemma Validate_spec c :
  match Validate c with
  | None => valid_config c
  | Some err => ¬ valid_config c ∧ ∃ s, s ∈ config_errors ∧ errors_Is err s = true
  end.
Proof.
  assert (∀ s err, s ∈ config_errors → errors_Is err s = true →
    ∃ s, s ∈ config_errors ∧ errors_Is err s = true) as Hw by eauto.
  pose proof (validate_tracing_spec (Tracing c)) as Ht.
  pose proof (validate_metrics_spec (MetricsC c)) as Hm.
  pose proof (validate_logging_spec (Logging c)) as Hl.
  unfold Validate. case_bool_decide as Hn.
  { split; [by intros []|]. apply (Hw ErrMissingServiceName); [by constructor | done]. }
  destruct (validate_tracing (Tracing c)) as [err|].
  { destruct Ht as [He [[Hs Hx]|[Hs Hx]]]; (split; [intros [_ Hv _ _]; by destruct (Hv He)|]);
      (eapply Hw; [|exact Hs]); in_config. }
  destruct (validate_metrics (MetricsC c)) as [err|].
  { destruct Hm as (He & Hx & Hs). split; [intros [_ _ Hv _]; by apply Hx, Hv|].
    eapply Hw; [|exact Hs]. in_config. }
  destruct (validate_logging (Logging c)) as [err|]; [|by constructor].
  destruct Hl as (He & Hx & Hs). split; [intros [_ _ _ Hv]; by apply Hx, Hv|].
  eapply Hw; [|exact Hs]. in_config.
Qed.

(** A sampling fraction that is not a number passes for one in range, and is not. *)
Lemma nan_sampling_accepted :
  Validate (MkConfig "svc" "" (MkTracing true "stdout" f_nan) (MkMetricsCfg false "") (MkLogging false "")) = None
  ∧ choose_sampler f_nan = TraceIDRatioBased f_nan.
Proof. by split. Qed.

(** ** Building the observer *)

Section Building.
Context {W : Type} (env : gmap string string) (sdk : SDK W).

(** The constructors of the SDK return an error or none, and the setters return: the only
    thing that is assumed of them is that they do not panic. *)
Record sdk_returns : Prop := {
  returns_resource n v w : ∃ r w', resource_New sdk n v w = (Val r, w');
  returns_trace e w : ∃ r w', trace_New sdk e w = (Val r, w');
  returns_metric e w : ∃ r w', metric_New sdk e w = (Val r, w');
  returns_set_tp tp w : ∃ w', otel_SetTracerProvider sdk tp w = (Val (), w');
  returns_set_mp mp w : ∃ w', otel_SetMeterProvider sdk mp w = (Val (), w');
}.

(** A constructor that reports an error. *)
Definition raises (m : Go W (option error)) (c : error) : Prop := ∃ w w', m w = (Val (Some c), w').

Definition is_set (key : string) : Prop := Getenv env key ≠ "".

(** The exporter that each name stands for, and the environment that names the endpoint it
    needs. *)
Definition span_exporters : list (string * span_exporter) :=
  [("stdout", StdoutTrace); ("otlp", OTLPTrace); ("jaeger", OTLPTrace); ("none", DiscardTrace); ("", DiscardTrace)].
Definition metric_exporters : list (string * metric_exporter * reader) :=
  [("stdout", StdoutMetric, PeriodicReader StdoutMetric); ("otlp", OTLPMetric, PeriodicReader OTLPMetric);
   ("prometheus", PrometheusMetric, PrometheusReader); ("none", DiscardMetric, PeriodicReader DiscardMetric);
   ("", DiscardMetric, PeriodicReader DiscardMetric)].

Definition tracing_endpoint (name : string) : Prop :=
  (name = "otlp" → is_set "OTEL_EXPORTER_OTLP_ENDPOINT" ∨ is_set "OTEL_EXPORTER_OTLP_TRACES_ENDPOINT") ∧
  (name = "jaeger" → is_set "OTEL_EXPORTER_JAEGER_ENDPOINT").
Definition metrics_endpoint (name : string) : Prop :=
  name = "otlp" → is_set "OTEL_EXPORTER_OTLP_ENDPOINT" ∨ is_set "OTEL_EXPORTER_OTLP_METRICS_ENDPOINT".

(** What can go wrong: an endpoint is missing, or the constructor of the exporter or of the
    resource reports an error. *)
Inductive tracing_failure (name : string) : error → Prop :=
| no_tracing_endpoint : ¬ tracing_endpoint name → tracing_failure name ErrEndpointNotConfigured
| trace_raised e c : (name, e) ∈ span_exporters → raises (trace_New sdk e) c → tracing_failure name c.

Inductive metrics_failure (name : string) : error → Prop :=
| no_metrics_endpoint : ¬ metrics_endpoint name → metrics_failure name ErrEndpointNotConfigured
| metric_raised e rd c :
    (name, e, rd) ∈ metric_exporters → raises (metric_New sdk e) c → metrics_failure name c.

Inductive failure (cfg : Config) : error → Prop :=
| resource_failure c : raises (resource_New sdk (ServiceName cfg) (CVersion cfg)) c → failure cfg c
| in_tracing c : TEnabled (Tracing cfg) = true → tracing_failure (TExporter (Tracing cfg)) c → failure cfg c
| in_metrics c : MEnabled (MetricsC cfg) = true → metrics_failure (MExporter (MetricsC cfg)) c → failure cfg c.

(** The configuration of a provider that is built. *)
Record tracer_of (cfg : Config) (tp : TracerProvider) : Prop := {
  tracer_endpoint : tracing_endpoint (TExporter (Tracing cfg));
  tracer_exporter : (TExporter (Tracing cfg), tp_exporter tp) ∈ span_exporters;
  tracer_name : tp_tracer tp = ServiceName cfg;
  tracer_always : SamplePct (Tracing cfg) = f_one → tp_sampler tp = AlwaysSample;
  tracer_never : SamplePct (Tracing cfg) = f_zero → tp_sampler tp = NeverSample;
  tracer_ratio : fltb f_zero (SamplePct (Tracing cfg)) = true → fltb (SamplePct (Tracing cfg)) f_one = true →
    tp_sampler tp = TraceIDRatioBased (SamplePct (Tracing cfg));
}.

Record meter_of (cfg : Config) (mp : MeterProvider) : Prop := {
  meter_endpoint : metrics_endpoint (MExporter (MetricsC cfg));
  meter_reader : ∃ e, (MExporter (MetricsC cfg), e, mp_reader mp) ∈ metric_exporters;
  meter_name : mp_meter mp = ServiceName cfg;
}.

(** A part that is there, as it should be, exactly when it is enabled. *)
Definition part {A} (enabled : bool) (P : A → Prop) (x : option A) : Prop :=
  match x with Some y => enabled = true ∧ P y | None => enabled = false end.

Definition observer_of (cfg : Config) (o : observer) : Prop :=
  part (TEnabled (Tracing cfg)) (tracer_of cfg) (tracerProvider o) ∧
  part (MEnabled (MetricsC cfg)) (meter_of cfg) (meterProvider o) ∧
  part (LEnabled (Logging cfg)) (λ l, l = NewLoggerWithWriter (Level (Logging cfg))) (logger o).

(** A computation that returns a value as in [good], or an error with a cause in [bad]. *)
Definition yields {A} (good : A → Prop) (bad : error → Prop) (m : Go W (A + error)) : Prop :=
  ∀ w, ∃ r w', m w = (Val r, w') ∧
    match r with
    | inl x => good x
    | inr err => ∃ c, bad c ∧ errors_Is err c = true
    end.

Lemma yields_good {A} (good : A → Prop) bad x : good x → yields good bad (mret (inl x)).
Proof. intros Hx w. by eexists _, w. Qed.

Lemma yields_bad {A} (good : A → Prop) (bad : error → Prop) err c :
  bad c → errors_Is err c = true → yields good bad (mret (inr err)).
Proof. intros Hb He w. eexists _, w. split; [done|]. by exists c. Qed.

Lemma yields_mono {A} (good : A → Prop) (bad bad' : error → Prop) m :
  (∀ c, bad c → bad' c) → yields good bad m → yields good bad' m.
Proof.
  intros Hb Hm w. destruct (Hm w) as (r & w' & HE & Hr). exists r, w'. split; [done|].
  destruct r as [x|err]; [done|]. destruct Hr as (c & Hc & He). exists c. auto.
Qed.

(** A step that may fail, and what is done with its result. *)
Lemma yields_bind {A B} (good : A → Prop) (good' : B → Prop) bad m (k : A + error → Go W (B + error)) :
  yields good bad m →
  (∀ x, good x → yields good' bad (k (inl x))) →
  (∀ err c, bad c → errors_Is err c = true → yields good' bad (k (inr err))) →
  yields good' bad (r ← m; k r).
Proof.
  intros Hm Hk1 Hk2 w. destruct (Hm w) as (r & w1 & HE & Hr). rewrite go_bind_run, HE.
  destruct r as [x|err]; [by apply Hk1|]. destruct Hr as (c & Hc & He). by eapply Hk2.
Qed.

(** A call of a constructor. *)
Lemma yields_constructed {A} (good : A → Prop) (bad : error → Prop) m (x : A) f :
  (∀ w, ∃ r w', m w = (Val r, w')) → good x → (∀ c, raises m c → bad c) →
  (∀ c, errors_Is (f c) c = true) → yields good bad (r ← m; mret (constructed x f r)).
Proof.
  intros Hm Hx Hb Hf w. destruct (Hm w) as ([c|] & w' & HE); rewrite go_bind_run, HE; eexists _, w';
    (split; [done|]); simpl; [|done]. exists c. split; [|done]. apply Hb. by exists w, w'.
Qed.

Context (Hok : sdk_returns).

Lemma two_endpoints (a b : string) : (if bool_decide (a = "") then b else a) = "" ↔ a = "" ∧ b = "".
Proof. case_bool_decide; tauto. Qed.

Lemma NewTracingExporter_yields name :
  name ∈ validTracingExporters →
  yields (λ e, (name, e) ∈ span_exporters ∧ tracing_endpoint name) (tracing_failure name)
    (NewTracingExporter env sdk name).
Proof.
  intros Hin. unfold NewTracingExporter.
  assert (∀ e, (name, e) ∈ span_exporters → tracing_endpoint name →
    yields (λ e, (name, e) ∈ span_exporters ∧ tracing_endpoint name) (tracing_failure name)
      (r ← trace_New sdk e; mret (constructed e id r))) as Hb.
  { intros e He Hp. apply yields_constructed; [apply (returns_trace Hok) | done | | apply errors_Is_refl].
    intros c. by apply trace_raised. }
  assert (∀ f, ¬ tracing_endpoint name → yields (λ e, (name, e) ∈ span_exporters ∧ tracing_endpoint name)
    (tracing_failure name) (mret (inr (ErrorfW f [] ErrEndpointNotConfigured)))) as Hn.
  { intros f Hp. eapply yields_bad; [by apply no_tracing_endpoint|done]. }
  unfold tracing_endpoint, is_set in *. apply list_elem_of_In in Hin.
  destruct Hin as [<-|[<-|[<-|[<-|[<-|[]]]]]]; simpl.
  - case_bool_decide as E; rewrite two_endpoints in E.
    + apply Hn. intros [Hs _]. specialize (Hs eq_refl). tauto.
    + apply Hb; [by repeat constructor|]. split; [|done]. intros _.
      destruct (decide (Getenv env "OTEL_EXPORTER_OTLP_ENDPOINT" = "")); tauto.
  - case_bool_decide as E; [apply Hn; intros [_ Hs]; by apply (Hs eq_refl) | by apply Hb; [repeat constructor|]].
  - by apply Hb; [repeat constructor|].
  - by apply Hb; [repeat constructor|].
  - by apply Hb; [repeat constructor|].
Qed.

Lemma NewMetricsReader_yields name :
  name ∈ validMetricsExporters →
  yields (λ rd, (∃ e, (name, e, rd) ∈ metric_exporters) ∧ metrics_endpoint name) (metrics_failure name)
    (NewMetricsReader env sdk name).
Proof.
  intros Hin. unfold NewMetricsReader.
  assert (∀ e rd f, (name, e, rd) ∈ metric_exporters → metrics_endpoint name → (∀ c, errors_Is (f c) c = true) →
    yields (λ rd, (∃ e, (name, e, rd) ∈ metric_exporters) ∧ metrics_endpoint name) (metrics_failure name)
      (r ← metric_New sdk e; mret (constructed rd f r))) as Hb.
  { intros e rd f He Hp Hf. apply yields_constructed; [apply (returns_metric Hok) | by split; [exists e|] | | done].
    intros c. by eapply metric_raised. }
  assert (∀ f c, errors_Is (ErrorfW f [] c) c = true) as Hw by (intros; apply errors_Is_wrap, errors_Is_refl).
  unfold metrics_endpoint, is_set in *. apply list_elem_of_In in Hin.
  destruct Hin as [<-|[<-|[<-|[<-|[<-|[]]]]]]; simpl.
  - case_bool_decide as E; rewrite two_endpoints in E.
    + eapply yields_bad; [apply no_metrics_endpoint | done]. intros Hs. destruct E, (Hs eq_refl) as [Hset|Hset]; by apply Hset.
    + apply Hb; [by repeat constructor| |done]. intros _.
      destruct (decide (Getenv env "OTEL_EXPORTER_OTLP_ENDPOINT" = "")); tauto.
  - by apply Hb; [repeat constructor| |].
  - by apply Hb; [repeat constructor| |].
  - by apply Hb; [repeat constructor| |intros; apply errors_Is_refl].
  - by apply Hb; [repeat constructor| |intros; apply errors_Is_refl].
Qed.

(** One optional subsystem. *)
Lemma setup_if_yields {A} enabled (m : Go W (A + error)) format (good : A → Prop) bad :
  (enabled = true → yields good bad m) → yields (part enabled good) bad (setup_if enabled m format).
Proof.
  intros Hm. unfold setup_if. destruct enabled; [|by apply yields_good].
  eapply yields_bind; [by apply Hm| |].
  - intros x Hx. by apply yields_good.
  - intros err c Hc He. by eapply yields_bad; [|apply errors_Is_wrap].
Qed.

(** Strictly between the bounds the fraction is passed on. *)
Lemma choose_sampler_ratio pct : fltb f_zero pct = true → fltb pct f_one = true → choose_sampler pct = TraceIDRatioBased pct.
Proof. 
  intros H0 H1. assert (pct ≠ S754_nan) as Hn by (by intros ->).
  unfold choose_sampler, fleb. rewrite !SFleb_ltb by done.
  change SFltb with fltb. by rewrite H0, H1.
Qed.

Lemma setupTracing_yields cfg :
  TExporter (Tracing cfg) ∈ validTracingExporters →
  yields (tracer_of cfg) (tracing_failure (TExporter (Tracing cfg))) (setupTracing env sdk cfg).
Proof.
  intros Hin. eapply yields_bind; [by apply NewTracingExporter_yields| |].
  - intros e [He Hp] w. destruct (returns_set_tp Hok
      (MkTP (choose_sampler (SamplePct (Tracing cfg))) e (ServiceName cfg)) w) as [w' H1].
    rewrite go_bind_run, H1. eexists _, w'. split; [done|]. constructor; simpl; try done.
    + by intros ->.
    + by intros ->.
    + apply choose_sampler_ratio.
  - intros err c Hc He. by eapply yields_bad; [|apply errors_Is_wrap].
Qed.

Lemma setupMetrics_yields cfg :
  MExporter (MetricsC cfg) ∈ validMetricsExporters →
  yields (meter_of cfg) (metrics_failure (MExporter (MetricsC cfg))) (setupMetrics env sdk cfg).
Proof.
  intros Hin. eapply yields_bind; [by apply NewMetricsReader_yields| |].
  - intros rd [He Hp] w. destruct (returns_set_mp Hok (MkMP rd (ServiceName cfg)) w) as [w' H1].
    rewrite go_bind_run, H1. by eexists _, w'.
  - intros err c Hc He. by eapply yields_bad; [|apply errors_Is_wrap].
Qed.

(** C36. A configuration that [Validate] rejects builds nothing and calls nothing.  For one it
    accepts, with an SDK whose constructors may fail in any way short of a panic,
    [NewObserver] returns.  Either it returns an observer that has each enabled part and no
    other, whose providers have the exporter, the sampler and the name that are configured
    and only if the environment names the endpoint that the exporter needs; or it returns an
    error whose cause is a missing endpoint ([ErrEndpointNotConfigured]) or an error that the
    constructor of the resource, of the configured span exporter or of the configured metrics
    exporter reported.  So with the endpoints there and no error of a constructor the
    observer is built, and no exporter that passes validation is unknown to the factory. *)
Theorem NewObserver_builds cfg w :
  match Validate cfg with
  | Some err => NewObserver env sdk cfg w = (Val (inr err), w)
  | None => ∃ r w', NewObserver env sdk cfg w = (Val r, w') ∧
      match r with
      | inl o => observer_of cfg o
      | inr err => ∃ c, failure cfg c ∧ errors_Is err c = true
      end
  end.
Proof.
  unfold NewObserver. destruct (Validate cfg) as [err|] eqn:E; [done|].
  assert (valid_config cfg) as [_ Ht Hm _] by (pose proof (Validate_spec cfg) as Hv; by rewrite E in Hv).
  destruct (returns_resource Hok (ServiceName cfg) (CVersion cfg) w) as (res & w1 & H1). rewrite go_bind_run, H1.
  destruct res as [c|].
  { eexists _, w1. split; [done|]. exists c. split; [by constructor; exists w, w1|]. apply errors_Is_wrap, errors_Is_refl. }
  clear H1. revert w1. eapply yields_bind.
  { apply setup_if_yields. intros He. eapply yields_mono; [|by apply setupTracing_yields, Ht]. intros c. by apply in_tracing. }
  2: { intros err c. apply yields_bad. }
  intros tp Htp. eapply yields_bind.
  { apply setup_if_yields. intros He. eapply yields_mono; [|by apply setupMetrics_yields, Hm]. intros c. by apply in_metrics. }
  2: { intros err c. apply yields_bad. }
  intros mp Hmp. apply yields_good. split; [done|]. split; [done|]. simpl. by destruct (LEnabled (Logging cfg)).
Qed.
End Building.

(** The sentinel of package [observe] for a missing endpoint is not the one that is returned. *)
Lemma endpoint_sentinels_differ {W} (sdk : SDK W) w :
  ∃ err, NewTracingExporter ∅ sdk "otlp" w = (Val (inr err), w) ∧
    errors_Is err ErrEndpointNotConfigured = true ∧ errors_Is err observe_ErrEndpointNotConfigured = false.
Proof. by eexists. Qed.

(** The Jaeger exporter is the OTLP exporter: the endpoint it asks for is not passed on. *)
Lemma jaeger_endpoint_unused {W} (sdk : SDK W) env1 env2 w :
  is_set env1 "OTEL_EXPORTER_JAEGER_ENDPOINT" → is_set env2 "OTEL_EXPORTER_JAEGER_ENDPOINT" →
  NewTracingExporter env1 sdk "jaeger" w = NewTracingExporter env2 sdk "jaeger" w.
Proof. intros H1 H2. unfold NewTracingExporter. simpl. by rewrite !bool_decide_false. Qed.

(** ** Entries of the log *)

(** The last field with the key. *)
Definition field_value (k : string) (fields : list Field) : option value :=
  foldl (λ acc f,
    if bool_decide (Key f = k)
    then Some (if isRedactedField k then VString "[REDACTED]" else FValue f) else acc) None fields.

Lemma log_entry_lookup l ts lvl msg fields k :
  log_entry l ts lvl msg fields !! k =
  match field_value k fields with
  | Some v => Some v
  | None => log_entry l ts lvl msg [] !! k
  end.
Proof.
  induction fields as [|f fields IH] using rev_ind; [done|].
  unfold log_entry, field_value in *. rewrite !foldl_app. simpl in *.
  unfold add_field at 1. case_bool_decide as E.
  - subst k. destruct (isRedactedField (Key f)); by rewrite lookup_insert_eq.
  - destruct (isRedactedField (Key f)); by rewrite lookup_insert_ne.
Qed.

(** A logger made from a new one by [WithTool]. *)
Definition scoped_logger (lvl : string) (tools : list ToolMeta) : structuredLogger :=
  foldl structured_WithTool (NewLoggerWithWriter lvl) tools.

Lemma lookup_set_attr key s m k :
  set_attr key s m !! k = if bool_decide (key = k) && negb (bool_decide (s = "")) then Some (VString s) else m !! k.
Proof.
  unfold set_attr. repeat case_bool_decide; simplify_eq/=; try done.
  - apply lookup_insert_eq.
  - by apply lookup_insert_ne.
Qed.

(** The tool's attributes are the only keys of a scoped logger. *)
Lemma scoped_logger_keys lvl tools k :
  is_Some (baseAttrs (scoped_logger lvl tools) !! k) →
  k ∈ ["tool.id"; "tool.name"; "tool.namespace"; "tool.version"].
Proof.
  unfold scoped_logger. induction tools as [|m tools IH] using rev_ind; [by intros [? ?]|].
  rewrite foldl_app. simpl. rewrite !lookup_set_attr.
  destruct (decide (k ∈ ["tool.id"; "tool.name"; "tool.namespace"; "tool.version"])) as [|Hk]; [done|].
  rewrite !not_elem_of_cons in Hk. destruct Hk as (H1 & H2 & H3 & H4 & _).
  rewrite (bool_decide_false ("tool.version" = k)), (bool_decide_false ("tool.namespace" = k)) by congruence.
  simpl. rewrite !lookup_insert_ne by congruence. intros Hs. by apply IH in Hs.
Qed.

(** C37. Under each of the fields that errors.go lists as redacted no entry of any logger derived from a new one has anything but
    the placeholder, whatever the fields are; under any other key that a field has, the
    entry has the value of the last such field. *)
Theorem redacted_never_logged lvl tools ts l msg fields k :
  let entry := log_entry (scoped_logger lvl tools) ts l msg fields in
  (k ∈ RedactedFields → entry !! k = None ∨ entry !! k = Some (VString "[REDACTED]")) ∧
  (k ∉ RedactedFields → ∀ f before after, fields = before ++ f :: after → Key f = k →
     k ∉ Key <$> after → entry !! k = Some (FValue f)).
Proof.
  intros entry. unfold entry. rewrite log_entry_lookup. split.
  - intros Hin. assert (isRedactedField k = true) as Hr by (by apply bool_decide_eq_true). assert (field_value k fields = None ∨ field_value k fields = Some (VString "[REDACTED]")) as Hf.
    { unfold field_value. rewrite Hr. induction fields as [|f fields IH] using rev_ind; [by left|].
      rewrite foldl_app. simpl. case_bool_decide; [by right | done]. }
    destruct Hf as [->| ->]; [|by right]. left.
    assert (k ∈ redactedKeys) as Hk by (unfold isRedactedField in Hr; by apply bool_decide_eq_true in Hr).
    unfold log_entry. simpl. apply lookup_union_None. split.
    + destruct (_ !! k) eqn:E; [|done]. exfalso.
      assert (k ∈ ["tool.id"; "tool.name"; "tool.namespace"; "tool.version"]) as Ht
        by (eapply scoped_logger_keys; by rewrite E).
      apply list_elem_of_In in Hk, Ht. simpl in *. intuition congruence.
    + apply list_elem_of_In in Hk. simpl in Hk. by repeat destruct Hk as [<-|Hk]; [done..|].
  - intros Hin f before after -> Hf Ha.
    assert (isRedactedField k = false) as Hr by (by apply bool_decide_eq_false). unfold field_value. rewrite foldl_app. simpl.
    rewrite Hr, bool_decide_true by done. generalize (FValue f) as v. clear -Ha.
    induction after as [|g after IH]; intros v; simpl; [done|].
    simpl in Ha. apply not_elem_of_cons in Ha as [Hg Ha]. rewrite bool_decide_false by congruence.
    by apply IH.
Qed.

(** A field can replace the entry's own level. *)
Lemma field_replaces_level :
  log_entry (NewLoggerWithWriter "info") "t" LevelError "m" [MkField "level" (VString "debug")] !! "level"
  = Some (VString "debug").
Proof. by vm_compute. Qed.

(** A second tool without a namespace keeps the namespace of the first. *)
Lemma WithTool_keeps_namespace :
  baseAttrs (scoped_logger "info" [MkTool "" "git" "push" "" [] ""; MkTool "" "" "ping" "" [] ""])
    !! "tool.namespace" = Some (VString "git").
Proof. by vm_compute. Qed.

(** ** The middleware *)

(** An operation that always comes back. *)
Definition quiet {W} (m : Go W unit) : Prop := ∀ w, ∃ w', m w = (Val (), w').

Section Transparent.
Context {W C S T M L I R : Type} `{GoEnv W, !Tracer T W C S, !Metrics M W C, !Logger L W C}.
Context (error_text : error → string) (m : Middleware T M L).

(** Over any tracer, metrics and logger that always come back, the wrapped function is
    called once, in the span's context, and the caller gets its result and its error
    unchanged; a panic of the function is the caller's, at once: nothing is recorded then. *)
Theorem Wrap_transparent (fn : C → ToolMeta → I → Go W (R * option error)) ctx tool input w ctx' span w1 :
  (∀ span err, quiet (EndSpan (mw_tracer m) span err)) →
  (∀ ctx tool d err, quiet (RecordExecution (mw_metrics m) ctx tool d err)) →
  (∀ l ctx lvl msg fields, quiet (log (Logger:=Logger0) l ctx lvl msg fields)) →
  StartSpan (mw_tracer m) ctx tool w = (Val (ctx', span), w1) →
  match fn ctx' tool input (env_now w1).2 with
  | (Val (result, err), w2) => ∃ w', Wrap error_text m fn ctx tool input w = (Val (result, err), w')
  | (Panic msg, w2) => Wrap error_text m fn ctx tool input w = (Panic msg, w2)
  | (OutOfFuel, w2) => Wrap error_text m fn ctx tool input w = (OutOfFuel, w2)
  end.
Proof.
  intros He Hm Hl HS. unfold Wrap. rewrite go_bind_run, HS, go_bind_run. unfold time_Now, go_lift.
  destruct (env_now w1) as [start w1']. simpl. rewrite go_bind_run.
  destruct (fn ctx' tool input w1') as [[[result err]|msg|] w2]; [|done..].
  rewrite go_bind_run. destruct (env_now w2) as [now w3]. rewrite go_bind_run. unfold record.
  rewrite go_bind_run. destruct (He span err w3) as [w4 ->]. rewrite go_bind_run.
  destruct (Hm ctx' tool (time_Since now start) err w4) as [w5 ->].
  destruct err as [err|];
    [destruct (Hl (WithTool (mw_logger m) tool) ctx' LevelError "tool execution failed"
       (log_fields error_text (time_Since now start) (Some err)) w5) as [w6 ->]
    |destruct (Hl (WithTool (mw_logger m) tool) ctx' LevelInfo "tool execution completed"
       (log_fields error_text (time_Since now start) None) w5) as [w6 ->]]; by exists w6.
Qed.
End Transparent.

(** ** What the middleware records *)

(** The calls of OpenTelemetry and of the log's writer. *)
Inductive event :=
| EvStart (name : string) (attrs : list attribute)
| EvStatus (c : code) (msg : string)
| EvAttributes (attrs : list attribute)
| EvRecordError (err : error)
| EvEnd
| EvTotal (n : Z) (attrs : list attribute)
| EvErrors (n : Z) (attrs : list attribute)
| EvDuration (ms : float64) (attrs : list attribute)
| EvWrite (s : string).

Section Recorder.
Context {W I R : Type} `{GoEnv W} (p : Ptr W (list event)).
Context (error_text : error → string) (rfc3339 : Time → string)
  (json_Marshal : gmap string value → string + error).

Definition emit (e : event) : Go W unit := locked p (λ l, ((), l ++ [e])).

(** Telemetry that appends every call to the list behind [p]. *)
Definition recorder : Otel W unit unit := MkOtel
  (λ ctx name attrs, _ ← emit (EvStart name attrs); mret (ctx, ()))
  (λ _ c msg, emit (EvStatus c msg))
  (λ _ attrs, emit (EvAttributes attrs))
  (λ _ err, emit (EvRecordError err))
  (λ _, emit EvEnd)
  (λ _ n attrs, emit (EvTotal n attrs))
  (λ _ n attrs, emit (EvErrors n attrs))
  (λ _ ms attrs, emit (EvDuration ms attrs)).

Definition recorded_Write (s : string) : Go W (option error) := _ ← emit (EvWrite s); mret None.

Existing Instances metricsImpl_Metrics.
#[local] Instance recorder_Tracer : Tracer (tracerImpl W unit unit) W unit unit := tracerImpl_Tracer error_text.
#[local] Instance recorder_Logger : Logger structuredLogger W unit :=
  structuredLogger_Logger rfc3339 json_Marshal recorded_Write.

Definition recorded_middleware (l : structuredLogger)
    : Middleware (tracerImpl W unit unit) (metricsImpl W unit unit) structuredLogger :=
  NewMiddleware (MkTracer recorder) (MkMetrics recorder) l.

Definition recorded_Wrap (l : structuredLogger) (fn : unit → ToolMeta → I → Go W (R * option error)) :=
  Wrap error_text (recorded_middleware l) fn.

(** The calls that end a span, and those that count an execution. *)
Definition end_events (err : option error) : list event :=
  match err with
  | Some err => [EvStatus Error (error_text err); EvAttributes [ABool "tool.error" true]; EvRecordError err]
  | None => [EvStatus Ok ""]
  end ++ [EvEnd].

Definition metric_events (tool : ToolMeta) (d : Duration) (err : option error) : list event :=
  [EvTotal 1 (metric_attributes tool)]
  ++ (if is_err err then [EvErrors 1 (metric_attributes tool)] else [])
  ++ [EvDuration (duration_ms d) (metric_attributes tool)].

(** The line of the log, if the logger's level lets it through and it can be written. *)
Definition log_events (l : structuredLogger) (lvl : Z) (msg : string) (now : Time) (fields : list Field)
    : list event :=
  if lvl <? level l then []
  else match json_Marshal (log_entry l (rfc3339 now) lvl msg fields) with
       | inl data => [EvWrite data; EvWrite newline]
       | inr _ => []
       end.

(** A computation that appends [es] and returns [a]. *)
Definition appends {A} (m : Go W A) (a : A) (es : list event) : Prop :=
  ∀ w, ∃ w', m w = (Val a, w') ∧ load p w' = load p w ++ es.

Lemma appends_emit e : appends (emit e) () [e].
Proof. intros w. unfold emit, locked, go_lift. simpl. eexists. split; [done|]. apply load_store. Qed.

Lemma appends_ret {A} (a : A) : appends (mret a) a [].
Proof. intros w. exists w. by rewrite app_nil_r. Qed.

Lemma appends_bind {A B} (m : Go W A) (k : A → Go W B) a b es1 es2 es :
  appends m a es1 → appends (k a) b es2 → es = es1 ++ es2 → appends (m ≫= k) b es.
Proof.
  intros Hm Hk -> w. destruct (Hm w) as (w1 & H1 & L1). destruct (Hk w1) as (w2 & H2 & L2).
  exists w2. by rewrite go_bind_run, H1, H2, L2, L1, app_assoc.
Qed.

Ltac appends := repeat first [apply appends_emit | apply appends_ret | eapply appends_bind]; simpl.

Lemma StartSpan_appends ctx tool :
  appends (impl_StartSpan (MkTracer recorder) ctx tool) (ctx, ())
    [EvStart (SpanName tool) (span_attributes tool)].
Proof. unfold impl_StartSpan. appends; done. Qed.

Lemma EndSpan_appends span err : appends (impl_EndSpan error_text (MkTracer recorder) span err) () (end_events err).
Proof. destruct err; appends; done. Qed.

Lemma RecordExecution_appends ctx tool d err :
  appends (impl_RecordExecution (MkMetrics recorder) ctx tool d err) () (metric_events tool d err).
Proof. unfold impl_RecordExecution, metric_events. destruct err; appends; done. Qed.

Context `{!EnvFrame p}.

Lemma log_appends l lvl msg fields w :
  ∃ now w', structured_log rfc3339 json_Marshal recorded_Write l lvl msg fields w = (Val (), w') ∧
    load p w' = load p w ++ log_events l lvl msg now fields.
Proof.
  unfold structured_log, log_events. destruct (lvl <? level l).
  { exists 0, w. by rewrite app_nil_r. }
  exists (env_now w).1. rewrite go_bind_run. unfold time_Now, go_lift. pose proof (frame_now w) as Hn.
  destruct (env_now w) as [now w1]. simpl in *. destruct (json_Marshal _) as [data|err].
  2: { exists w1. by rewrite app_nil_r. }
  assert (appends (err ← recorded_Write data;
    match err with Some _ => mret () | None => _ ← recorded_Write newline; mret () end)
    () [EvWrite data; EvWrite newline]) as Ha.
  { unfold recorded_Write. appends; done. }
  destruct (Ha w1) as (w2 & H2 & L2). exists w2. by rewrite L2, Hn.
Qed.

(** C21. A wrapped execution that returns is one span with the tool's attributes, ended with
    the status of its error, one count, an error count exactly when it failed, one
    duration, and one line of the log, at level error exactly when it failed. *)
Theorem Wrap_records l (fn : unit → ToolMeta → I → Go W (R * option error)) tool input w :
  (∀ ctx, preserves p (fn ctx tool input)) →
  ∀ result err w', recorded_Wrap l fn () tool input w = (Val (result, err), w') →
  ∃ d now, load p w' = load p w
    ++ [EvStart (SpanName tool) (span_attributes tool)] ++ end_events err ++ metric_events tool d err
    ++ log_events (structured_WithTool l tool) (if is_err err then LevelError else LevelInfo)
         (if is_err err then "tool execution failed" else "tool execution completed") now
         (log_fields error_text d err).
Proof.
  intros Hfn result err w' HE. unfold recorded_Wrap, Wrap in HE. rewrite go_bind_run in HE.
  change (StartSpan (mw_tracer (recorded_middleware l)) () tool w)
    with (impl_StartSpan (MkTracer recorder) () tool w) in HE.
  destruct (StartSpan_appends () tool w) as (w1 & H1 & L1).
  rewrite H1, go_bind_run in HE. unfold time_Now, go_lift in HE.
  pose proof (frame_now w1) as Hn1. destruct (env_now w1) as [start w2]. rewrite go_bind_run in HE.
  specialize (Hfn () w2). destruct (fn () tool input w2) as [[[r e]|msg|] w3]; [|done..].
  simpl in *. rewrite go_bind_run in HE. pose proof (frame_now w3) as Hn3.
  destruct (env_now w3) as [now w4]. simpl in *. rewrite go_bind_run in HE. unfold record in HE. simpl in HE.
  rewrite go_bind_run in HE. destruct (EndSpan_appends () e w4) as (w5 & H5 & L5).
  rewrite H5, go_bind_run in HE.
  destruct (RecordExecution_appends () tool (time_Since now start) e w5) as (w6 & H6 & L6). rewrite H6 in HE.
  destruct (log_appends (structured_WithTool l tool) (if is_err e then LevelError else LevelInfo)
    (if is_err e then "tool execution failed" else "tool execution completed")
    (log_fields error_text (time_Since now start) e) w6) as (t & w7 & H7 & L7).
  destruct e as [e|]; simpl in *; rewrite H7 in HE; unfold mret, go_ret in HE; simplify_eq;
    exists (time_Since now start), t; rewrite L7, L6, L5, Hn3, Hfn, Hn1, L1; simpl;
    by rewrite <- !app_assoc.
Qed.
End Recorder.

(** ** Witnesses *)

Definition demo_sdk : SDK unit := MkSDK (λ _ _, mret None) (λ _, mret None) (λ _, mret None) (λ _, mret ())
  (λ _, mret ()) (λ _, mret None) (λ _, mret None) (λ _, mret None).

Definition demo_config : Config :=
  MkConfig "svc" "1" (MkTracing true "otlp" f_one) (MkMetricsCfg true "prometheus") (MkLogging true "warn").

(** An SDK whose metrics constructor fails. *)
Definition failing_sdk : SDK unit := MkSDK (λ _ _, mret None) (λ _, mret None) (λ _, mret (Some (Foreign 7)))
  (λ _, mret ()) (λ _, mret ()) (λ _, mret None) (λ _, mret None) (λ _, mret None).

Definition demo_environment : gmap string string := {["OTEL_EXPORTER_OTLP_TRACES_ENDPOINT" := "idp:4317"]}.

(** The observer is built; the endpoint is missing; the metrics constructor fails. *)
Lemma NewObserver_builds_witness :
  (∃ o w', NewObserver demo_environment demo_sdk demo_config () = (Val (inl o), w') ∧
     observer_of demo_environment demo_config o) ∧
  (∃ err w', NewObserver ∅ demo_sdk demo_config () = (Val (inr err), w') ∧
     ∃ c, failure ∅ demo_sdk demo_config c ∧ errors_Is err c = true) ∧
  (∃ err w', NewObserver demo_environment failing_sdk demo_config () = (Val (inr err), w') ∧
     ∃ c, failure demo_environment failing_sdk demo_config c ∧ errors_Is err c = true).
Proof.
  assert (sdk_returns demo_sdk) as Hok by (split; intros; by repeat eexists).
  assert (sdk_returns failing_sdk) as Hf by (split; intros; by repeat eexists).
  split_and!.
  - destruct (NewObserver_builds demo_environment demo_sdk Hok demo_config ()) as ([o|err] & w' & HE & Ho);
      [by exists o, w' | exfalso; by vm_compute in HE].
  - destruct (NewObserver_builds ∅ demo_sdk Hok demo_config ()) as ([o|err] & w' & HE & Ho);
      [exfalso; by vm_compute in HE | by exists err, w'].
  - destruct (NewObserver_builds demo_environment failing_sdk Hf demo_config ()) as ([o|err] & w' & HE & Ho);
      [exfalso; by vm_compute in HE | by exists err, w'].
Defined.

Definition demo_events : World (list event) := MkWorld 1000 Millisecond [] [] 0 [] [].
Definition demo_tool : ToolMeta := MkTool "" "git" "push" "" [] "".
Definition demo_text (e : error) : string := "boom".
Definition demo_json (m : gmap string value) : string + error := inl "line".

(** Succeeds for a positive input. *)
Definition demo_fn (ctx : unit) (tool : ToolMeta) (input : Z) : Go (World (list event)) (Z * option error) :=
  mret (if 0 <? input then (input + 1, None) else (0, Some (Foreign 1))).

Definition demo_Wrap : unit → ToolMeta → Z → Go (World (list event)) (Z * option error) :=
  recorded_Wrap cell demo_text (λ _, "now") demo_json (NewLoggerWithWriter "info") demo_fn.

Lemma Wrap_records_witness :
  ∃ d now, load cell (demo_Wrap () demo_tool 0 demo_events).2 =
    [EvStart "tool.exec.git.push" (span_attributes demo_tool)] ++ end_events demo_text (Some (Foreign 1))
    ++ metric_events demo_tool d (Some (Foreign 1))
    ++ log_events (λ _, "now") demo_json (structured_WithTool (NewLoggerWithWriter "info") demo_tool) LevelError
         "tool execution failed" now (log_fields demo_text d (Some (Foreign 1))).
Proof.
  exact (Wrap_records cell demo_text (λ _, "now") demo_json (NewLoggerWithWriter "info") demo_fn
    demo_tool 0 demo_events (λ _ _, eq_refl) 0 (Some (Foreign 1)) _ eq_refl).
Defined.

Lemma Wrap_transparent_witness :
  ∃ w', Wrap (W:=World (list event)) (C:=unit) (S:=unit) demo_text
    (Tracer0:=tracerImpl_Tracer demo_text) (Metrics0:=metricsImpl_Metrics) (Logger0:=noopLogger_Logger)
    (NewMiddleware (MkTracer (recorder cell)) (MkMetrics (recorder cell)) ()) demo_fn () demo_tool 41 demo_events
    = (Val (42, None), w').
Proof.
  refine (Wrap_transparent (Tracer0:=tracerImpl_Tracer demo_text) (Metrics0:=metricsImpl_Metrics) (Logger0:=noopLogger_Logger)
    demo_text (NewMiddleware (MkTracer (recorder cell)) (MkMetrics (recorder cell)) ()) demo_fn () demo_tool 41
    demo_events () () _ _ _ _ eq_refl).
  - intros span err w. destruct (EndSpan_appends cell demo_text span err w) as (w' & HE & _). by exists w'.
  - intros ctx tool d err w. destruct (RecordExecution_appends cell ctx tool d err w) as (w' & HE & _). by exists w'.
  - intros l ctx lvl msg fields w. by exists w.
Defined.

End OB.
