(* ===== verification/LoggerConcurrent.v ===== *)
(** * observe/logger.go: overlapping calls of [log]

    A call of [log] builds its entry, takes the mutex of its logger, marshals and writes twice:
    the line, then its newline.  Other goroutines run between these steps.  Every logger has a
    mutex of its own, one that [WithTool] derives as well; the writer is shared by the derived
    loggers. *)

From stdpp Require Import relations.
From S2P Require Import Prelude.
From S2P Require Import GoRuntime.
From S2P Require Import GoString.
From S2P Require Import Observe.
Local Open Scope Z_scope.
Local Open Scope stdpp_scope.

Module LC.

(** ** Data *)

(** A [*structuredLogger]: the address of its mutex and the other fields. *)
Record logger := MkLogger { mutex : nat; fields_of : OB.structuredLogger }.

(** [WithTool] returns a new struct, whose mutex is not the one of [l]. *)
Definition WithTool (fresh : nat) (l : logger) (meta : OB.ToolMeta) : logger :=
  MkLogger fresh (OB.structured_WithTool (fields_of l) meta).

Record call := MkCall { on : logger; lvl : Z; msg : string; fields : list OB.Field }.

(** The points of a call: before it, with the entry but not the lock, with the lock, between
    the two writes, and after it, with the line if it was written. *)
Inductive pc :=
| Calling
| Ready (entry : gmap string OB.value)
| Holding (entry : gmap string OB.value)
| Written (data : string)
| Finished (line : option string).

(** The mutexes that are locked, the calls, what the writer has got, and a history: how many
    writes have failed. *)
Record sys := MkSys {
  locked : gset nat;
  calls : list (call * pc);
  out : string;
  failed : nat;
}.

Definition mutex_of (c : call) : nat := mutex (on c).

Section Calls.
Context (rfc3339 : Time → string) (json_Marshal : gmap string OB.value → string + error).

Definition entry_of (c : call) (now : Time) : gmap string OB.value :=
  OB.log_entry (fields_of (on c)) (rfc3339 now) (lvl c) (msg c) (fields c).

(** A write that fails may have written a part of its bytes; the deferred [Unlock] runs. *)
Inductive step : relation sys :=
| step_filtered lk cs i c o f :
    cs !! i = Some (c, Calling) → lvl c < OB.level (fields_of (on c)) →
    step (MkSys lk cs o f) (MkSys lk (<[i := (c, Finished None)]> cs) o f)
| step_entry lk cs i c now o f :
    cs !! i = Some (c, Calling) → OB.level (fields_of (on c)) ≤ lvl c →
    step (MkSys lk cs o f) (MkSys lk (<[i := (c, Ready (entry_of c now))]> cs) o f)
| step_lock lk cs i c e o f :
    cs !! i = Some (c, Ready e) → mutex_of c ∉ lk →
    step (MkSys lk cs o f) (MkSys ({[mutex_of c]} ∪ lk) (<[i := (c, Holding e)]> cs) o f)
| step_unmarshalable lk cs i c e err o f :
    cs !! i = Some (c, Holding e) → json_Marshal e = inr err →
    step (MkSys lk cs o f) (MkSys (lk ∖ {[mutex_of c]}) (<[i := (c, Finished None)]> cs) o f)
| step_data lk cs i c e data o f :
    cs !! i = Some (c, Holding e) → json_Marshal e = inl data →
    step (MkSys lk cs o f) (MkSys lk (<[i := (c, Written data)]> cs) (o +:+ data) f)
| step_data_fails lk cs i c e data part rest o f :
    cs !! i = Some (c, Holding e) → json_Marshal e = inl data → data = part +:+ rest →
    step (MkSys lk cs o f)
      (MkSys (lk ∖ {[mutex_of c]}) (<[i := (c, Finished None)]> cs) (o +:+ part) (S f))
| step_newline lk cs i c data o f :
    cs !! i = Some (c, Written data) →
    step (MkSys lk cs o f)
      (MkSys (lk ∖ {[mutex_of c]}) (<[i := (c, Finished (Some data))]> cs) (o +:+ OB.newline) f)
| step_newline_fails lk cs i c data o f :
    cs !! i = Some (c, Written data) →
    step (MkSys lk cs o f)
      (MkSys (lk ∖ {[mutex_of c]}) (<[i := (c, Finished None)]> cs) o (S f)).

Definition init (cs : list call) : sys := MkSys ∅ ((λ c, (c, Calling)) <$> cs) "" 0.

(** ** What the writer should have *)

(** Whole lines, each with its newline. *)
Definition lines (order : list string) : string := foldr (λ d acc, d +:+ OB.newline +:+ acc) "" order.

Definition line_of (x : call * pc) : option string :=
  match x.2 with Finished l => l | _ => None end.

Definition begun (x : call * pc) : option string :=
  match x.2 with Written d => Some d | _ => None end.

(** The line that has no newline yet. *)
Definition partial (s : sys) : string := default "" (head (omap begun (calls s))).

(** The line [d] of the call [c]: its level passes, and [d] is its entry at some time. *)
Definition line_ok (c : call) (d : string) : Prop :=
  OB.level (fields_of (on c)) ≤ lvl c ∧ ∃ now, json_Marshal (entry_of c now) = inl d.

Definition pc_ok (x : call * pc) : Prop :=
  let '(c, p) := x in
  match p with
  | Calling | Finished None => True
  | Ready e | Holding e => OB.level (fields_of (on c)) ≤ lvl c ∧ ∃ now, e = entry_of c now
  | Written d | Finished (Some d) => line_ok c d
  end.

(** ** The mutexes *)

Definition holding (p : pc) : bool :=
  match p with Holding _ | Written _ => true | _ => false end.

Definition holds (m : nat) (x : call * pc) : bool := bool_decide (mutex_of x.1 = m) && holding x.2.

Record inv (s : sys) : Prop := {
  inv_mutex m : count_if (holds m) (calls s) = if bool_decide (m ∈ locked s) then 1%nat else 0%nat;
  inv_pcs : Forall pc_ok (calls s);
}.

Lemma log_init_inv cs : inv (init cs).
Proof.
  split.
  - intros m. simpl. induction cs as [|c cs IH]; simpl; [by rewrite bool_decide_false|].
    unfold holds at 1. simpl. by rewrite andb_false_r.
  - apply Forall_fmap, Forall_true. done.
Qed.

(** A goroutine that holds a mutex has locked it. *)
Lemma holder_locked s i c p :
  inv s → calls s !! i = Some (c, p) → holding p = true → mutex_of c ∈ locked s.
Proof.
  intros [Hm _] Hi Hp. specialize (Hm (mutex_of c)).
  pose proof (count_if_lookup (holds (mutex_of c)) (calls s) i _ Hi) as Hl. unfold holds in Hl at 1.
  simpl in Hl. rewrite bool_decide_true, Hp in Hl by done. specialize (Hl eq_refl).
  rewrite Hm in Hl. case_bool_decide; [done | lia].
Qed.

(** A step of a call from [p] to [p'] that takes or gives back as many locks as it shows. *)
Lemma inv_moves lk lk' cs i c p p' o f o' f' :
  inv (MkSys lk cs o f) → cs !! i = Some (c, p) → pc_ok (c, p') →
  (∀ m, m ≠ mutex_of c → m ∈ lk' ↔ m ∈ lk) →
  ((if bool_decide (mutex_of c ∈ lk') then 1 else 0) + (if holding p then 1 else 0)
    = (if bool_decide (mutex_of c ∈ lk) then 1 else 0) + (if holding p' then 1 else 0))%nat →
  inv (MkSys lk' (<[i := (c, p')]> cs) o' f').
Proof.
  intros [Hm Hp] Hi Hok Hlk Hself. split; [|by apply Forall_insert].
  intros m. specialize (Hm m). cbn [calls locked] in *.
  pose proof (count_if_insert (holds m) cs i _ (c, p') Hi) as Hc.
  unfold holds in Hc at 2 4. simpl in Hc. destruct (decide (mutex_of c = m)) as [<-|Hne].
  - rewrite (bool_decide_true (mutex_of c = mutex_of c)) in Hc by done. simpl in Hc. lia.
  - rewrite (bool_decide_false (mutex_of c = m)) in Hc by done. simpl in Hc.
    rewrite (bool_decide_ext _ _ (Hlk m (not_eq_sym Hne))). lia.
Qed.

Lemma inv_keeps_lock lk cs i c p p' o f o' f' :
  inv (MkSys lk cs o f) → cs !! i = Some (c, p) → pc_ok (c, p') → holding p = holding p' →
  inv (MkSys lk (<[i := (c, p')]> cs) o' f').
Proof. intros Hs Hi Hok Hp. eapply inv_moves; [done..|by rewrite Hp]. Qed.

Lemma inv_unlocks lk cs i c p p' o f o' f' :
  inv (MkSys lk cs o f) → cs !! i = Some (c, p) → pc_ok (c, p') → holding p = true → holding p' = false →
  inv (MkSys (lk ∖ {[mutex_of c]}) (<[i := (c, p')]> cs) o' f').
Proof.
  intros Hs Hi Hok Hp Hp'. pose proof (holder_locked _ _ _ _ Hs Hi Hp) as Hin. cbn [locked] in Hin.
  eapply inv_moves; [done..| |].
  - intros m Hm. rewrite elem_of_difference, elem_of_singleton. tauto.
  - rewrite Hp, Hp', bool_decide_false, bool_decide_true; [done..|].
    rewrite elem_of_difference, elem_of_singleton. tauto.
Qed.

Lemma log_step_inv s s' : inv s → step s s' → inv s'.
Proof.
  intros Hs Hst.
  destruct Hst as [lk cs i c o f Hi|lk cs i c now o f Hi Hl|lk cs i c e o f Hi Hlk|lk cs i c e err o f Hi|
    lk cs i c e data o f Hi Hd|lk cs i c e data part rest o f Hi Hd|lk cs i c data o f Hi|lk cs i c data o f Hi];
    pose proof (proj1 (Forall_lookup _ _) (inv_pcs _ Hs) _ _ Hi) as Hok;
    try (by apply (inv_unlocks _ _ _ _ _ _ _ _ _ _ Hs Hi)).
  - by apply (inv_keeps_lock _ _ _ _ _ _ _ _ _ _ Hs Hi).
  - apply (inv_keeps_lock _ _ _ _ _ _ _ _ _ _ Hs Hi); [|done]. split; [done|]. by eexists.
  - apply (inv_moves _ _ _ _ _ _ _ _ _ _ _ Hs Hi); [done| |].
    + intros m Hm. rewrite elem_of_union, elem_of_singleton. tauto.
    + rewrite bool_decide_true, (bool_decide_false (_ ∈ lk)); [done..|].
      apply elem_of_union_l, elem_of_singleton. done.
  - apply (inv_keeps_lock _ _ _ _ _ _ _ _ _ _ Hs Hi); [|done].
    destruct Hok as [Hl [now ->]]. split; [done|]. by exists now.
Qed.

Lemma log_reachable_inv cs s : rtc step (init cs) s → inv s.
Proof. apply rtc_preserved; [apply log_step_inv | apply log_init_inv]. Qed.

(** ** Loggers that share one mutex *)

(** The calls use loggers with the mutex [m]; as long as no write has failed, the writer has
    the lines of the calls that are over, each whole, and the begun line of the holder. *)
Record whole (m : nat) (s : sys) : Prop := {
  whole_inv : inv s;
  whole_mutex : Forall (λ x, mutex_of x.1 = m) (calls s);
  whole_out : failed s = 0%nat →
    ∃ order, order ≡ₚ omap line_of (calls s) ∧ out s = lines order +:+ partial s;
}.

Lemma lines_snoc order d : lines (order ++ [d]) = lines order +:+ d +:+ OB.newline.
Proof.
  induction order as [|x order IH]; [by simpl; rewrite append_nil_r|].
  simpl. by rewrite IH, !append_assoc.
Qed.

Lemma holds_own m x : mutex_of x.1 = m → holds m x = holding x.2.
Proof. intros Hx. unfold holds. by rewrite bool_decide_true. Qed.

Lemma begun_holding x : holding x.2 = false → begun x = None.
Proof. by destruct x as [c []]. Qed.

Lemma nobody_begun m cs :
  Forall (λ x, mutex_of x.1 = m) cs → count_if (holds m) cs = 0%nat → omap begun cs = [].
Proof.
  intros Hm. induction Hm as [|x cs Hx Hm IH]; intros Hc; [done|]. simpl in *.
  rewrite holds_own in Hc by done. destruct (holding x.2) eqn:E; [lia|].
  rewrite begun_holding by done. by apply IH.
Qed.

(** The holder is alone: nobody else is between its writes. *)
Lemma holder_alone m cs i x :
  Forall (λ x, mutex_of x.1 = m) cs → (count_if (holds m) cs ≤ 1)%nat →
  cs !! i = Some x → holding x.2 = true →
  omap begun cs = match begun x with Some d => [d] | None => [] end.
Proof.
  intros Hm. revert i. induction Hm as [|y cs Hy Hm IH]; intros i Hc Hi Hx; [done|].
  simpl in Hc |- *. change (list_omap _ _ begun cs) with (omap begun cs).
  rewrite holds_own in Hc by done. destruct i as [|i]; simpl in Hi.
  - injection Hi as ->. rewrite Hx in Hc. rewrite (nobody_begun m cs) by (done || lia). done.
  - assert (0 < count_if (holds m) cs)%nat.
    { apply (count_if_lookup _ _ i x Hi). rewrite holds_own; [done|].
      by apply (proj1 (Forall_lookup _ _) Hm i). }
    destruct (holding y.2) eqn:E; [lia|]. rewrite begun_holding by done. apply (IH i); [lia|done..].
Qed.


(** What is begun after the holder moved on. *)
Lemma begun_after m lk cs i c p p' o f :
  inv (MkSys lk (<[i := (c, p')]> cs) o f) → Forall (λ x, mutex_of x.1 = m) cs →
  cs !! i = Some (c, p) → omap begun cs = match begun (c, p) with Some d => [d] | None => [] end →
  omap begun (<[i := (c, p')]> cs) = match begun (c, p') with Some d => [d] | None => [] end.
Proof.
  intros Hs Hm Hi Hbefore. destruct (begun (c, p')) as [d'|] eqn:Hb'.
  - pose proof (inv_mutex _ Hs m) as Hc. cbn [calls] in Hc.
    rewrite (holder_alone m (<[i := (c, p')]> cs) i (c, p')); [by rewrite Hb'| | | |by destruct p'].
    + apply Forall_insert; [done|]. exact (proj1 (Forall_lookup _ _) Hm _ _ Hi).
    + case_bool_decide; lia.
    + apply list_lookup_insert_eq. by eapply lookup_lt_Some.
  - destruct (begun (c, p)) as [d|] eqn:Hb.
    + pose proof (omap_insert_gone begun cs i _ (c, p') d Hi Hb Hb') as Hp. rewrite Hbefore in Hp.
      apply Permutation_singleton_l in Hp. by simplify_eq.
    + by rewrite (omap_insert_same begun cs i _ (c, p') Hi) by congruence.
Qed.

Lemma log_step_whole m s s' : whole m s → step s s' → whole m s'.
Proof.
  intros [Hs Hm Ho] Hst. pose proof (log_step_inv _ _ Hs Hst) as Hs'. split; [done| |].
  { destruct Hst; (apply Forall_insert; [done|]);
      match goal with Hi : _ !! _ = Some _ |- _ => exact (proj1 (Forall_lookup _ _) Hm _ _ Hi) end. }
  pose proof (inv_mutex _ Hs m) as Hc. unfold partial in *.
  destruct Hst as [lk cs i c o f Hi|lk cs i c now o f Hi Hl|lk cs i c e o f Hi Hlk|lk cs i c e err o f Hi|
    lk cs i c e data o f Hi Hd|lk cs i c e data part rest o f Hi Hd|lk cs i c data o f Hi|lk cs i c data o f Hi];
    cbn [calls out failed] in *; intros Hf; try done; destruct (Ho Hf) as (order & Hp & Hout);
    try (exists order; rewrite (omap_insert_same line_of _ _ _ _ Hi), (omap_insert_same begun _ _ _ _ Hi) by done; done).
  all: pose proof (holder_alone m cs i _ Hm ltac:(case_bool_decide; lia) Hi eq_refl) as Hb;
    rewrite (begun_after m _ _ _ _ _ _ _ _ Hs' Hm Hi Hb), Hout, Hb; simpl; rewrite ?append_nil_r.
  - exists order. by rewrite (omap_insert_same line_of _ _ _ _ Hi).
  - exists (order ++ [data]). rewrite lines_snoc, append_nil_r, append_assoc. split; [|done].
    rewrite (omap_insert_new line_of _ _ _ (c, Finished (Some data)) data Hi), Hp by done.
    symmetry. apply Permutation_cons_append.
Qed.

(** ** Every call comes to its end *)

Definition steps_left (x : call * pc) : nat :=
  match x.2 with Calling => 4 | Ready _ => 3 | Holding _ => 2 | Written _ => 1 | Finished _ => 0 end.

Lemma log_step_left s s' :
  step s s' → (sum_list_with steps_left (calls s') < sum_list_with steps_left (calls s))%nat.
Proof.
  intros Hst. destruct Hst as [lk cs i c o f Hi|lk cs i c now o f Hi Hl|lk cs i c e o f Hi Hlk|
    lk cs i c e err o f Hi|lk cs i c e data o f Hi Hd|lk cs i c e data part rest o f Hi Hd|
    lk cs i c data o f Hi|lk cs i c data o f Hi]; cbn [calls];
    match goal with |- context [<[i := ?y]> cs] => pose proof (sum_insert steps_left cs i _ y Hi) as Hsum end;
    cbn [steps_left snd] in Hsum; lia.
Qed.

(** Who holds a mutex can go on; so the mutex a call waits for is given back. *)
Lemma holder_moves s i c p : calls s !! i = Some (c, p) → holding p = true → ∃ s', step s s'.
Proof.
  intros Hi Hp. destruct s as [lk cs o f], p as [|e|e|d|l]; try done; simpl in Hi.
  - destruct (json_Marshal e) as [data|err] eqn:E; eexists;
      [by eapply step_data | by eapply step_unmarshalable].
  - eexists. by eapply step_newline.
Qed.

Lemma call_goes_on s i c p : inv s → calls s !! i = Some (c, p) → (∀ l, p ≠ Finished l) → ∃ s', step s s'.
Proof.
  intros Hs Hi Hp. destruct p as [|e|e|d|l]; [| |by eapply holder_moves..|by destruct (Hp l)].
  - destruct s as [lk cs o f]. destruct (Z.lt_ge_cases (lvl c) (OB.level (fields_of (on c)))).
    + eexists. by eapply step_filtered.
    + eexists. by eapply (step_entry _ _ _ _ 0).
  - destruct (decide (mutex_of c ∈ locked s)) as [Hin|Hin].
    + pose proof (inv_mutex _ Hs (mutex_of c)) as Hc. rewrite bool_decide_true in Hc by done.
      destruct (count_if_pos (holds (mutex_of c)) (calls s)) as (j & [c' p'] & Hj & Hh); [lia|].
      apply andb_true_iff in Hh as [_ Hh]. by eapply holder_moves.
    + destruct s as [lk cs o f]. eexists. by eapply step_lock.
Qed.

Lemma omap_all_None {A B} (f : A → option B) l : (∀ x, x ∈ l → f x = None) → omap f l = [].
Proof.
  induction l as [|x l IH]; intros Hf; [done|]. simpl. rewrite Hf by apply list_elem_of_here.
  apply IH. intros y Hy. apply Hf. by apply list_elem_of_further.
Qed.

Lemma init_nothing {B} (f : call * pc → option B) cs :
  (∀ c, f (c, Calling) = None) → omap f (calls (init cs)) = [].
Proof. intros Hf. apply omap_all_None. intros x (c & -> & _)%list_elem_of_fmap. apply Hf. Qed.

(** C28. However goroutines log through loggers with one mutex, their calls end, after at most four
    steps each; the lines are the entries of the calls that pass the level, and while no write
    has failed the writer has them whole, each once, one after the other, and of at most one
    more the beginning; at the end there is none more. *)
Theorem log_lines_whole m cs s k :
  Forall (λ c, mutex_of c = m) cs → nsteps step k (init cs) s →
  (k ≤ 4 * length cs)%nat ∧
  (∀ c d, (c, Finished (Some d)) ∈ calls s → line_ok c d) ∧
  (failed s = 0%nat → ∃ order, order ≡ₚ omap line_of (calls s) ∧ out s = lines order +:+ partial s) ∧
  ((∀ s', ¬ step s s') → partial s = "" ∧ ∀ c p, (c, p) ∈ calls s → ∃ l, p = Finished l).
Proof.
  intros Hm Hk. assert (whole m s) as [Hs Hms Hout].
  { apply (rtc_preserved step (whole m) (init cs)); [apply log_step_whole| |by eapply rtc_nsteps_2].
    split; [apply log_init_inv|by apply Forall_fmap|]. intros _. exists [].
    unfold partial.
    rewrite (init_nothing line_of), (init_nothing begun) by done. done. }
  split; [|split; [|split; [done|]]].
  - pose proof (nsteps_measure step _ k _ _ log_step_left Hk) as Hle.
    pose proof (sum_bound steps_left 4 (calls (init cs))) as Hb. simpl in Hb, Hle.
    rewrite length_fmap in Hb. specialize (Hb ltac:(intros [c []]; unfold steps_left; simpl; lia)). lia.
  - intros c d Hin. exact (proj1 (Forall_forall _ _) (inv_pcs _ Hs) _ Hin).
  - intros Hend. assert (∀ c p, (c, p) ∈ calls s → ∃ l, p = Finished l) as Hall.
    { intros c p [i Hi]%list_elem_of_lookup. destruct p as [|e|e|d|l]; [| | | |by eexists];
        (destruct (call_goes_on s i c _ Hs Hi) as [s' Hs']; [done | by destruct (Hend s')]). }
    split; [|done]. unfold partial. rewrite omap_all_None; [done|].
    intros [c p] Hin. by destruct (Hall c p Hin) as [l ->].
Qed.

(** ** A call alone *)

Section Alone.
Context {W : Type} `{GoEnv W} (p : Ptr W string) `{!EnvFrame p}.

(** A writer that keeps what it gets. *)
Definition append_Write (data : string) : Go W (option error) :=
  _ ← go_modify (λ w, store p (load p w +:+ data) w); mret None.

(** The steps of a call that nobody disturbs are those of the sequential [structured_log]. *)
Lemma log_alone c w w' :
  OB.structured_log rfc3339 json_Marshal append_Write (fields_of (on c)) (lvl c) (msg c) (fields c) w
    = (Val (), w') →
  ∃ l, rtc step (MkSys ∅ [(c, Calling)] (load p w) 0) (MkSys ∅ [(c, Finished l)] (load p w') 0).
Proof.
  unfold OB.structured_log. destruct (Z.ltb_spec (lvl c) (OB.level (fields_of (on c)))) as [Hl|Hl].
  { intros HE. injection HE as <-. exists None. apply rtc_once. by apply (step_filtered _ [(c, Calling)] 0). }
  rewrite go_bind_run. unfold time_Now, go_lift. pose proof (frame_now w) as Hw.
  destruct (env_now w) as [now w1]. cbn [snd] in Hw. fold (entry_of c now).
  assert (({[mutex_of c]} ∪ ∅) ∖ {[mutex_of c]} = (∅ : gset nat)) as Hlk by (by rewrite union_empty_r_L, difference_diag_L).
  assert (rtc step (MkSys ∅ [(c, Calling)] (load p w) 0)
    (MkSys ({[mutex_of c]} ∪ ∅) [(c, Holding (entry_of c now))] (load p w) 0)) as Hpre.
  { eapply rtc_l; [by apply (step_entry _ [(c, Calling)] 0 c now)|].
    apply rtc_once. by apply (step_lock _ [(c, Ready (entry_of c now))] 0). }
  destruct (json_Marshal (entry_of c now)) as [data|err] eqn:E; intros HE.
  - injection HE as <-. exists (Some data). etrans; [exact Hpre|].
    eapply rtc_l; [by apply (step_data _ [(c, Holding (entry_of c now))] 0 c (entry_of c now) data)|].
    rewrite !load_store, Hw.
    pose proof (step_newline ({[mutex_of c]} ∪ ∅) [(c, Written data)] 0 c data (load p w +:+ data) 0 eq_refl)
      as Hst. rewrite Hlk in Hst. by apply rtc_once.
  - injection HE as <-. exists None. etrans; [exact Hpre|].
    pose proof (step_unmarshalable ({[mutex_of c]} ∪ ∅) [(c, Holding (entry_of c now))] 0 c _ err (load p w) 0
      eq_refl E) as Hst. rewrite Hlk in Hst. rewrite Hw. by apply rtc_once.
Qed.
End Alone.
End Calls.

(** ** Loggers that share only the writer *)

(** The message of an entry, for the examples. *)
Definition demo_Marshal (e : gmap string OB.value) : string + error :=
  match e !! "msg"%string with Some (OB.VString m) => inl m | _ => inl "" end.

Definition demo_log : logger := MkLogger 0 (OB.NewLoggerWithWriter "info").
Definition demo_tool : OB.ToolMeta := OB.MkTool "t" "" "t" "" [] "".

(** Two executions of a wrapped tool: each derives a logger for its line, as [Wrap] does. *)
Definition demo_derived : list call :=
  [MkCall (WithTool 1 demo_log demo_tool) OB.LevelInfo "a" [];
   MkCall (WithTool 2 demo_log demo_tool) OB.LevelInfo "b" []].

(** The mutexes are different, so that the second line can come between the first one and its
    newline: the output is not a line for each call, in any order. *)
Lemma derived_lines_mix :
  ∃ s, rtc (step (λ _, ""%string) demo_Marshal) (init demo_derived) s ∧ failed s = 0%nat ∧
    omap line_of (calls s) = ["a"; "b"]%string ∧
    out s = ("ab" +:+ OB.newline +:+ OB.newline)%string ∧
    out s ≠ lines ["a"; "b"]%string ∧ out s ≠ lines ["b"; "a"]%string.
Proof.
  eexists. split.
  - eapply rtc_l; [by eapply (step_entry _ _ _ _ 0 _ 0)|].
    eapply rtc_l; [by eapply (step_entry _ _ _ _ 1 _ 0)|].
    eapply rtc_l; [by eapply (step_lock _ _ _ _ 0)|].
    eapply rtc_l; [by eapply (step_lock _ _ _ _ 1)|].
    eapply rtc_l; [by eapply (step_data _ _ _ _ 0 _ _ "a")|].
    eapply rtc_l; [by eapply (step_data _ _ _ _ 1 _ _ "b")|].
    eapply rtc_l; [by eapply (step_newline _ _ _ _ 0)|].
    eapply rtc_l; [by eapply (step_newline _ _ _ _ 1)|]. apply rtc_refl.
  - vm_compute. split_and!; congruence.
Qed.

(** ** Witnesses *)

(** Two calls on one logger, whose level filters the second. *)
Definition demo_shared : list call :=
  [MkCall demo_log OB.LevelInfo "a" []; MkCall demo_log OB.LevelDebug "b" []].

Lemma log_lines_whole_witness :
  ∃ s, nsteps (step (λ _, ""%string) demo_Marshal) 5 (init demo_shared) s ∧
    out s = ("a" +:+ OB.newline)%string ∧ (5 ≤ 4 * length demo_shared)%nat ∧
    ∃ order, order ≡ₚ omap line_of (calls s) ∧ out s = lines order +:+ partial s.
Proof.
  eassert (nsteps (step (λ _, ""%string) demo_Marshal) 5 (init demo_shared) _) as Hk.
  { eapply nsteps_l; [by eapply (step_entry _ _ _ _ 0 _ 0)|].
    eapply nsteps_l; [by eapply (step_filtered _ _ _ _ 1)|].
    eapply nsteps_l; [by eapply (step_lock _ _ _ _ 0)|].
    eapply nsteps_l; [by eapply (step_data _ _ _ _ 0 _ _ "a")|].
    eapply nsteps_l; [by eapply (step_newline _ _ _ _ 0)|]. apply nsteps_O. }
  eexists. split; [exact Hk|]. split; [by vm_compute|].
  destruct (log_lines_whole _ _ 0 demo_shared _ 5 ltac:(by repeat constructor) Hk) as (H1 & _ & H3 & _).
  split; [exact H1|]. by apply H3.
Defined.
End LC.
